(* ===== verification/_CoqProject ===== *)
-Q . S2P
Prelude.v
Codec.v
Sha256.v
GoIO.v
UpkiIndex.v
Cryptobyte.v
Clubcard.v
CrliteParser.v
Crlite.v
Ribbon.v
ClubcardEncode.v
ClubcardAnswers.v
IndexEncode.v
Sct.v
Checker.v
BuiltCache.v
CheckerConc.v
CheckerPasses.v
CheckerUpdates.v
Path.v
Cache.v
JsonLex.v
Json.v
Manifest.v
Cmd.v
Flag.v
HttpsCmd.v
BuiltDirectory.v
BuiltUpdates.v
BuiltCommands.v
Conformance.v
