(* ===== verification/Prelude.v ===== *)
(** * go-upki: revocation checking over a CRLite cache

    This library models the Go program under [src/] (module [github.com/cpu/go-upki])
    and proves what its parts promise, from the bytes of the files it reads to the
    answer of a concurrent revocation check.

    ** The program

    A cache directory holds an index, [index.bin], and CRLite filters, each a "V4
    clubcard".  [upki.Checker] answers whether a certificate is revoked: it takes the
    SCTs embedded in the certificate and the issuer's key hash and serial, asks the
    index which filters cover the SCTs' (log, timestamp) pairs, opens and parses those
    filters, and combines their answers.  The cache may be replaced while a checker
    lives: a filter the index names can be gone, upon which the checker reopens the
    index.  A checker is shared by goroutines; a read-write lock guards its index.

<<
      HttpsCmd  (cmd/upki-https: main)  ---  Flag  (flag)
       |
      Cmd  (cmd/upki-https: verifier, cmd/crlite-query)
       |
       |    Manifest  (upki/manifest.go)  ---  Json, JsonLex  (encoding/json)
       |   /
      Cache  (upki/check.go: DirOpener, NewChecker)  ---  Path  (path/filepath)
       |
      CheckerUpdates, CheckerPasses, CheckerConc  (upki/check.go, many goroutines)
       |
      Checker  (upki/check.go, one goroutine; upki/status_string.go)
       |        |            |
      Sct    UpkiIndex     Crlite  (crlite/crlite.go, crlite/status_string.go)
       |        |            |
       |      GoIO         CrliteParser  (crlite/parser.go)
       |                     |       |
      Cryptobyte ------------+     Clubcard  (internal/clubcard.go)

      BuiltUpdates: such a directory under updates, served to CheckerConc
      BuiltCommands: such files, served to HttpsCmd and Cmd
       |
      BuiltDirectory: a directory of such files, served to the verifier of Cmd
       |
      BuiltCache: what the writers below write, read and answered by Checker
       |                |
      IndexEncode     ClubcardAnswers, ClubcardEncode  (internal/test/clubcard_encode.go)
      (internal/test/   |
       index_encode.go) Ribbon  (same file: equation, ribbon)
>>

    ** Files

    - [Prelude]: bytes and their values, big- and little-endian words, 64-bit
      wrap-around ([u64], [i64]), Go errors with [errors.Is], the result type with
      its panic, the monad notation, counted and fuelled loops ([for_n], [run_loop]),
      map iteration in an unspecified order ([MapRange]), hints and tactics.
    - [Codec]: counted readers against the concatenation of encoded items.
    - [Sha256]: the standard library's SHA-256, executable.
    - [GoIO]: [io.ReaderAt], [io.SectionReader], [io.ReadAll].
    - [Cryptobyte]: the interface of [golang.org/x/crypto/cryptobyte], its laws, a
      reference implementation.
    - [UpkiIndex]: [internal/upki_index.go]; the record [Index] is the Go struct, one
      definition per function, [readFullAt] and the binary search [findLog] included.
    - [Clubcard]: [internal/clubcard.go]; the word-level query and the GF(2) query.
    - [CrliteParser]: [crlite/parser.go]; the readers, and the wire grammar.
    - [Crlite]: [crlite/crlite.go]; lookup keys, filter queries, coverage cutoffs.
    - [Ribbon]: the incremental GF(2) systems of [internal/test/clubcard_encode.go]:
      [equation] with [add] and [eval], [ribbon] with [insert] and [solve].
    - [ClubcardEncode]: the rest of that file: [buildBlock], the offsets, [Filter.Bytes];
      the record [built] says what a block promises.
    - [ClubcardAnswers]: what the built file parses to and answers.
    - [IndexEncode]: [internal/test/index_encode.go]; [Index.Bytes] and what a reader
      finds in its file.
    - [Sct]: [upki/sct.go]; embedded SCTs, the raw serial, their grammars.
    - [Checker]: [upki/check.go] run by one goroutine.  The state is the [Checker]
      (its index or nil) and the [World], the sequence of everything opened and
      closed so far; a handle is the position of the event that opened it, so a leak
      or a double close is a property of the world.
    - [CheckerConc]: [Check] and [Close] interleaved.  A thread's phase is the point
      of the Go function it has reached; a step is one lock operation, one index
      lookup or one filter query, or the body of one section under the write lock
      (which no other goroutine can observe half-way).
      It also holds the induction over its runs ([run_facts]) the next two files use.
    - [CheckerPasses]: what interleaved checks return over a cache that changes freely.
    - [CheckerUpdates]: a cache that moves through generations, each consistent while
      it is current; a cache that never changes is the case of one generation.
    - [BuiltCache]: a cache of built files served to a checker.
    - [Path], [Cache]: file names, the directory opener.
    - [JsonLex], [Json]: the part of encoding/json the manifest goes through, beside
      the grammar of RFC 8259: tokens and unquoting, then values.
    - [Manifest]: decoding into the struct, [LoadManifest], [GeneratedTime].
    - [Cmd]: the certificate verifier and the query command.
    - [Flag], [HttpsCmd]: command-line flags; the upki-https process around the
      verifier.
    - [BuiltDirectory]: the verifier over a directory the writers filled.
    - [BuiltUpdates]: concurrent checks over a directory the writers keep updating.
    - [BuiltCommands]: the two commands over files the writers wrote.
    - [Conformance]: inputs and expectations of the Go unit tests, evaluated on
      the definitions.

    ** What the theorems show

    - Formats.  [FromBytes_grammar], [NewIndexFromReader_accepts],
      [EmbeddedSCTs_grammar], [RawSerial_verbatim] and [LoadManifest_accepts] say
      which inputs a parser accepts, both ways, and with [LoadManifest_reads] what it
      returns; [FromBytes_self_delimiting] that no accepted filter is a prefix of
      another.
    - Hostile input.  [FromBytes_errors], [FromBytes_no_query_panic],
      [NewIndexFromReader_errors], [NewIndexFromReader_valid], [Contains_panics_iff]:
      no input makes a parser panic or fail with an undocumented error, what is
      constructed is well formed, and querying it does not panic;
      [Check_stays_in_directory]: no index makes the checker open a path outside its
      directory.  [sections_past_file] says which sections the one bound that wraps
      lets through, and that no lookup returns anything read from them.
    - Optimised code against references.  [bitsXorIsZero_spec],
      [bytesToLimbs_bits] and [Contains_query_spec]: the shifts on 64-bit limbs are
      the GF(2) query of the clubcard paper; [findLog_linear], [Lookup_reference] and
      [Lookup_covering]: the binary search and the interval scan are a filter of the
      entries.
    - The checker.  [checkOnce_outcomes], [Check_cache_answer], [Check_superseded],
      [Check_before_cache], [Close_final]: the answer, on every branch;
      [Check_total_bounded], [filter_opened_thrice]: termination and how often a
      filter is opened; [session_handles], [Check_closes_all]: no handle leaks.
    - Concurrency.  [concurrent_safety] is the invariant of the lock, the shared
      index and the open handles; [concurrent_termination] excludes deadlock;
      [concurrent_outcomes] says that over a cache that changes in any way every check
      is answered from a single index, [checks_survive_updates] that over one that is
      updated each answer is that of a generation current during the checker's life,
      [concurrent_answers] that interleaving does not change answers over a stable
      cache; and [solo_is_sequential] that a lone goroutine does what [Checker]
      computes.
    - The writers.  [ribbon_solves]: [insert] refuses exactly the contradictory
      equations and [solve] satisfies the others; [Bytes_answers] and
      [Index_Bytes_lookup]: filters and indexes read back as they were described;
      [built_cache_answers]: a check over a cache so written gives each certificate
      the status its description says, whatever the hashes are;
      [built_directory_verifier]: so does a handshake verified against a directory;
      [updated_directory_answers]: so do concurrent checks while the directory is
      updated, for the descriptions of one generation.
    - The commands.  [verifier_policy], [crlite_query_spec], [https_main_spec]: what
      they do for any files; [built_directory_https], [built_filter_query]: the exit
      status and the printed line in terms of the descriptions the files were built
      from.
    - The model itself.  [Conformance] replays unit tests of the repository, so that
      the definitions agree with the Go code on what its authors tested.

    ** Bounds and fuel

    [Checker_Check] runs its loop with fuel 3, one more than [maxIndexReopens]: the
    loop leaves by [surfaces] when the count of reopens reaches the bound, and
    [Check_total_bounded] proves that the fuel never runs out.  Loops over counts read
    from the input ([for_n]) are structural in the count, as a Go [for] is.  A
    [run_loop] takes its fuel from the length of what it consumes; a theorem of each
    states that it returns ([findLog_linear], [EmbeddedSCTs_grammar],
    [NewIndexFromReader_errors]).  The JSON parser has fuel 2n+1 for n bytes: a value
    costs one call and at least one byte, an item of an array or object one more, and
    [LoadManifest_accepts] excludes that it runs out.  [Ribbon.insert] has fuel for one turn per row and
    two more: a turn that does not return moves the equation's start down the rows,
    which [ribbon_solves] uses.  The small-step machine has no fuel: a measure bounds
    its runs.

    Integers are [Z] with the wrap-around of their width written where the code
    computes; an index or a slice out of range is the value [Panic].

    ** Parameters

    Code that is not in the repository is an argument of the definitions: [Cryptobyte]
    with the laws of its documentation, and its writing side ([Builder]); the order of
    map iteration ([MapRange]); the buffer sizes of [io.ReadAll] ([AllocPolicy]) and
    the unstable sorts of [slices] ([SortFunc]); the random source of the ribbons
    ([RandSource], with math/rand/v2's PCG as an instance); the openers a caller
    supplies ([Openers], whose answers may depend on everything opened and closed
    before), the file system ([FileSystem]), PEM, certificates and signatures
    ([Platform]), the handshakes and responses of net/http ([Network]).
    Each class a theorem assumes has an instance at which it is evaluated.

    ** Not modelled

    What the commands write to stderr; the text of error messages beyond their format
    and wrapped errors; memory exhaustion; Windows paths; the package comments.  The
    errors of encoding/json are represented by their type, without their text, and of
    the folding of member names only what can match an ASCII name is written out.  The
    tools under [src/tools] generate test data in other languages. *)
From stdpp Require Export base gmap list strings numbers sorting.
From Stdlib Require Export ZArith Lia.
From Stdlib Require Import Strings.Byte.
#[global] Open Scope Z_scope.

(** ** Bytes and byte strings

    A Go [byte] is the Standard Library's [byte]; a [[]byte], a Go [string] and a
    [[32]byte] are lists of them.  The numeric value of a byte is a [Z]. *)
Notation byte := Init.Byte.byte.
Notation bytes := (list Init.Byte.byte).

Definition byte_val (b : byte) : Z := Z.of_N (Byte.to_N b).

Definition byte_of_Z (z : Z) : byte :=
  match Byte.of_N (Z.to_N (z `mod` 256)) with
  | Some b => b
  | None => Init.Byte.x00
  end.

Lemma byte_val_range (b : byte) : 0 <= byte_val b < 256.
Proof. unfold byte_val. pose proof (Byte.to_N_bounded b). lia. Qed.

Lemma byte_val_of_Z (z : Z) : byte_val (byte_of_Z z) = z `mod` 256.
Proof.
  unfold byte_of_Z, byte_val.
  pose proof (Z.mod_pos_bound z 256 ltac:(lia)) as Hb.
  destruct (Byte.of_N (Z.to_N (z `mod` 256))) as [b|] eqn:E.
  - apply Byte.to_of_N in E. rewrite E. lia.
  - apply Byte.of_N_None_iff in E. lia.
Qed.

Lemma byte_of_Z_val (b : byte) : byte_of_Z (byte_val b) = b.
Proof.
  unfold byte_of_Z. rewrite Z.mod_small by apply byte_val_range.
  unfold byte_val. rewrite N2Z.id. by rewrite Byte.of_to_N.
Qed.

Lemma byte_val_inj (b c : byte) : byte_val b = byte_val c -> b = c.
Proof. intros H. rewrite <- (byte_of_Z_val b), H. apply byte_of_Z_val. Qed.

#[export] Instance byte_eq_dec : EqDecision byte.
Proof.
  intros x y.
  destruct (decide (byte_val x = byte_val y)) as [H|H].
  - left. by apply byte_val_inj.
  - right. intros ->. by apply H.
Defined.

#[export] Program Instance byte_countable : Countable byte :=
  inj_countable' Byte.to_N
    (fun n => match Byte.of_N n with Some b => b | None => Init.Byte.x00 end) _.
Next Obligation. intros b. simpl. by rewrite Byte.of_to_N. Qed.

#[export] Instance byte_inhabited : Inhabited byte := populate Init.Byte.x00.

(** A Coq string literal as the bytes of a Go string literal. *)
Definition go_string (s : string) : bytes := String.list_byte_of_string s.

(** ** Multi-byte integers

    [binary.BigEndian] and [binary.LittleEndian], and their inverses. *)
Definition be_decode (bs : bytes) : Z :=
  fold_left (fun acc b => acc * 256 + byte_val b) bs 0.

Fixpoint be_encode (n : nat) (z : Z) : bytes :=
  match n with
  | O => []
  | S m => byte_of_Z (z `div` 256 ^ Z.of_nat m) :: be_encode m z
  end.

Fixpoint le_decode (bs : bytes) : Z :=
  match bs with
  | [] => 0
  | b :: bs' => byte_val b + 256 * le_decode bs'
  end.

(** [bytes.Compare] *)
Fixpoint bytes_Compare (a b : bytes) : comparison :=
  match a, b with
  | [], [] => Eq
  | [], _ :: _ => Lt
  | _ :: _, [] => Gt
  | x :: a', y :: b' =>
      match Z.compare (byte_val x) (byte_val y) with
      | Eq => bytes_Compare a' b'
      | c => c
      end
  end.

(** ** Machine integers *)
Definition u64 (z : Z) : Z := z `mod` 2 ^ 64.

(** Two's complement reinterpretation: [int64(x)] of any integer. *)
Definition i64 (z : Z) : Z :=
  let m := z `mod` 2 ^ 64 in if m <? 2 ^ 63 then m else m - 2 ^ 64.

Definition is_u64 (z : Z) : Prop := 0 <= z < 2 ^ 64.

(** ** Error values

    A Go error is a sentinel ([errors.New]) or the result of [fmt.Errorf]: its
    format string with the operands.  Every error operand of the modelled calls is
    formatted with the wrapping verb, so [errors.Is] walks all of them. *)
Inductive error : Type :=
  | Sentinel (msg : string)
  | Errorf (format : string) (args : list errarg)
with errarg : Type :=
  | AErr (e : error)
  | AInt (z : Z)
  | ABytes (bs : bytes).

(** [errors.Is(e, target)] for a sentinel [target] given by its message. *)
Fixpoint errors_Is (e : error) (target : string) : bool :=
  match e with
  | Sentinel msg => String.eqb msg target
  | Errorf _ args =>
      existsb (fun a => match a with AErr e' => errors_Is e' target | _ => false end) args
  end.

Definition EOF : error := Sentinel "EOF".
Definition ErrUnexpectedEOF : error := Sentinel "unexpected EOF".
Definition ErrNotExist : error := Sentinel "file does not exist".

(** Identity comparison [err == io.EOF]. *)
Definition is_EOF (e : error) : bool :=
  match e with Sentinel msg => String.eqb msg "EOF" | Errorf _ _ => false end.

(** ** Results

    The outcome of a Go function: a value, a returned error, a run-time panic
    (index or slice out of range, division by zero), or the exhaustion of the
    fuel a loop was given, which the termination theorems exclude. *)
Inductive result (A : Type) : Type :=
  | Ok (a : A)
  | Err (e : error)
  | Panic
  | OutOfFuel.
Arguments Ok {A} a.
Arguments Err {A} e.
Arguments Panic {A}.
Arguments OutOfFuel {A}.

#[export] Instance result_ret : MRet result := fun A a => Ok a.
#[export] Instance result_bind : MBind result := fun A B f r =>
  match r with
  | Ok a => f a
  | Err e => Err e
  | Panic => Panic
  | OutOfFuel => OutOfFuel
  end.

Definition is_ok {A} (r : result A) : bool :=
  match r with Ok _ => true | _ => false end.

(** The run neither panics nor runs out of fuel. *)
Definition no_panic {A} (r : result A) : Prop := r <> Panic /\ r <> OutOfFuel.

(** [o] is a call that reports success; on failure the caller returns [e]. *)
Definition or_err {A} (o : option A) (e : error) : result A :=
  match o with Some a => Ok a | None => Err e end.

(** An early [return nil, e] unless [b] holds. *)
Definition check_that (b : bool) (e : error) : result unit :=
  if b then Ok tt else Err e.

(** Rewrap the error of a call, as in [if err != nil { return fmt.Errorf(...) }]. *)
Definition wrap_err {A} (f : error -> error) (r : result A) : result A :=
  match r with Err e => Err (f e) | _ => r end.

(** ** Slices *)
Definition blen {A} (l : list A) : Z := Z.of_nat (length l).

Definition index {A} (l : list A) (i : Z) : result A :=
  if (0 <=? i) && (i <? blen l) then
    match l !! Z.to_nat i with Some x => Ok x | None => Panic end
  else Panic.

(** The slice expression [l[lo:hi]]. *)
Definition slice {A} (l : list A) (lo hi : Z) : result (list A) :=
  if (0 <=? lo) && (lo <=? hi) && (hi <=? blen l)
  then Ok (take (Z.to_nat (hi - lo)) (drop (Z.to_nat lo) l))
  else Panic.

(** [sub l lo n]: the [n] elements of [l] from [lo], the value of a slice in range. *)
Definition sub {A} (l : list A) (lo n : Z) : list A :=
  take (Z.to_nat n) (drop (Z.to_nat lo) l).

(** ** Loops

    [loop p step s] runs a [for] loop whose body is [step] at most [p] times
    (it stops as soon as the body leaves it): [inl] continues, [inr] leaves. *)
Fixpoint loop {S R} (p : positive) (step : S -> S + R) (s : S) : S + R :=
  match p with
  | xH => step s
  | xO p' => match loop p' step s with inl s' => loop p' step s' | r => r end
  | xI p' =>
      match step s with
      | inl s1 => match loop p' step s1 with inl s' => loop p' step s' | r => r end
      | r => r
      end
  end.

(** A loop whose exits are results. *)
Definition run_loop {S A} (p : positive) (step : S -> S + result A) (s : S) : result A :=
  match loop p step s with inl _ => OutOfFuel | inr r => r end.

(** [for i := lo; i < lo+n; i++] over a loop state, stopping at the first failure. *)
Fixpoint for_n {S} (n : nat) (lo : Z) (body : Z -> S -> result S) (s : S) : result S :=
  match n with
  | O => Ok s
  | Datatypes.S m => s' ← body lo s; for_n m (lo + 1) body s'
  end.

(** ** Tactics

    [go_simp] computes binds; [bind_inv] splits a successful bind chain;
    [len] turns list-length goals into [lia] goals. *)
Ltac go_simp :=
  cbn [mbind result_bind mret result_ret or_err check_that wrap_err] in *.

Ltac bind_inv H :=
  match type of H with
  | mbind _ ?r = Ok _ =>
      let E := fresh "E" in
      destruct r eqn:E; go_simp; try discriminate H
  | result_bind _ _ _ ?r = Ok _ =>
      let E := fresh "E" in
      destruct r eqn:E; go_simp; try discriminate H
  end.

Ltac len :=
  unfold blen in *;
  repeat rewrite ?length_app, ?length_take, ?length_drop, ?length_cons, ?length_nil,
    ?length_map, ?length_replicate, ?length_fmap in *; simpl length in *; try lia.

(** ** Lemmas on multi-byte integers *)
Lemma be_fold_acc (bs : bytes) (a : Z) :
  fold_left (fun acc b => acc * 256 + byte_val b) bs a
  = a * 256 ^ Z.of_nat (length bs) + be_decode bs.
Proof.
  unfold be_decode. revert a. induction bs as [|b bs IH]; intros a; simpl fold_left.
  - simpl. lia.
  - rewrite IH, (IH (0 * 256 + byte_val b)). simpl length.
    rewrite Nat2Z.inj_succ, Z.pow_succ_r by lia. ring.
Qed.

Lemma be_decode_cons (b : byte) (bs : bytes) :
  be_decode (b :: bs) = byte_val b * 256 ^ Z.of_nat (length bs) + be_decode bs.
Proof. unfold be_decode at 1. simpl. rewrite be_fold_acc. ring. Qed.

Lemma be_decode_range (bs : bytes) : 0 <= be_decode bs < 256 ^ Z.of_nat (length bs).
Proof.
  induction bs as [|b bs IH]; [done|].
  rewrite be_decode_cons. simpl length. rewrite Nat2Z.inj_succ, Z.pow_succ_r by lia.
  pose proof (byte_val_range b). nia.
Qed.

Lemma length_be_encode (n : nat) (z : Z) : length (be_encode n z) = n.
Proof. revert z. induction n as [|n IH]; intros z; simpl; [done|]. by rewrite IH. Qed.

Lemma be_decode_encode (n : nat) (z : Z) :
  be_decode (be_encode n z) = z `mod` 256 ^ Z.of_nat n.
Proof.
  induction n as [|n IH]; [simpl; by rewrite Z.mod_1_r|].
  simpl be_encode. rewrite be_decode_cons, length_be_encode, IH, byte_val_of_Z.
  rewrite Nat2Z.inj_succ, Z.pow_succ_r, (Z.mul_comm 256) by lia.
  rewrite Z.rem_mul_r by lia. ring.
Qed.

Lemma be_decode_encode_small (n : nat) (z : Z) :
  0 <= z < 256 ^ Z.of_nat n -> be_decode (be_encode n z) = z.
Proof. intros H. rewrite be_decode_encode. by apply Z.mod_small. Qed.

Lemma be_decode_inj (bs cs : bytes) :
  length bs = length cs -> be_decode bs = be_decode cs -> bs = cs.
Proof.
  revert cs. induction bs as [|b bs IH]; intros [|c cs] Hl Hd; simpl in Hl; try lia; [done|].
  rewrite !be_decode_cons in Hd.
  replace (length cs) with (length bs) in Hd by lia.
  pose proof (be_decode_range bs). pose proof (be_decode_range cs) as Hc.
  replace (length cs) with (length bs) in Hc by lia.
  assert (byte_val b = byte_val c) as Hb by nia.
  f_equal; [by apply byte_val_inj|]. apply IH; [lia|]. rewrite Hb in Hd. lia.
Qed.

(** The encoding keeps the low bytes. *)
Lemma be_encode_mod (n : nat) (z : Z) : be_encode n (z `mod` 256 ^ Z.of_nat n) = be_encode n z.
Proof.
  apply be_decode_inj; [by rewrite !length_be_encode|]. rewrite !be_decode_encode.
  apply Z.mod_mod. pose proof (Z.pow_pos_nonneg 256 (Z.of_nat n)). lia.
Qed.

Lemma be_encode_decode (bs : bytes) : be_encode (length bs) (be_decode bs) = bs.
Proof.
  apply be_decode_inj; [apply length_be_encode|].
  rewrite be_decode_encode. apply Z.mod_small, be_decode_range.
Qed.

Lemma be_encode_decode_n (n : nat) (bs : bytes) :
  length bs = n -> be_encode n (be_decode bs) = bs.
Proof. intros <-. apply be_encode_decode. Qed.

Lemma le_decode_range (bs : bytes) : 0 <= le_decode bs < 256 ^ Z.of_nat (length bs).
Proof.
  induction bs as [|b bs IH]; [done|].
  simpl length. rewrite Nat2Z.inj_succ, Z.pow_succ_r by lia. simpl.
  pose proof (byte_val_range b). nia.
Qed.

Lemma be_decode_u64 (bs : bytes) : length bs = 8%nat -> is_u64 (be_decode bs).
Proof. intros H. pose proof (be_decode_range bs) as R. rewrite H in R. exact R. Qed.

Lemma le_decode_u64 (bs : bytes) : length bs = 8%nat -> is_u64 (le_decode bs).
Proof. intros H. pose proof (le_decode_range bs) as R. rewrite H in R. exact R. Qed.

Lemma u64_small (z : Z) : is_u64 z -> u64 z = z.
Proof. apply Z.mod_small. Qed.

Lemma u64_range (z : Z) : is_u64 (u64 z).
Proof. apply Z.mod_pos_bound. lia. Qed.

Lemma i64_small (z : Z) : 0 <= z < 2 ^ 63 -> i64 z = z.
Proof.
  intros H. unfold i64. rewrite Z.mod_small by lia.
  destruct (Z.ltb_spec z (2 ^ 63)); lia.
Qed.

Lemma i64_range (z : Z) : - 2 ^ 63 <= i64 z < 2 ^ 63.
Proof.
  unfold i64. pose proof (Z.mod_pos_bound z (2 ^ 64) ltac:(lia)).
  destruct (Z.ltb_spec (z `mod` 2 ^ 64) (2 ^ 63)); lia.
Qed.

Lemma i64_shift (z : Z) : exists k, i64 z = z + k * 2 ^ 64.
Proof.
  unfold i64. pose proof (Z.div_mod z (2 ^ 64) ltac:(lia)).
  destruct (_ <? _); [exists (- (z / 2 ^ 64))|exists (- (z / 2 ^ 64) - 1)]; lia.
Qed.

(** Wrapping twice is wrapping once. *)
Lemma i64_add (z c : Z) : i64 (i64 z + c) = i64 (z + c).
Proof.
  destruct (i64_shift z) as [k ->]. replace (z + k * 2 ^ 64 + c) with (z + c + k * 2 ^ 64) by lia.
  unfold i64. by rewrite Z.mod_add by lia.
Qed.

(** ** Lemmas on slices and results *)
Lemma index_Ok {A} (l : list A) (i : Z) (x : A) :
  index l i = Ok x <-> 0 <= i /\ l !! Z.to_nat i = Some x.
Proof.
  unfold index, blen. split.
  - destruct (Z.leb_spec 0 i); [|done]. destruct (Z.ltb_spec i (Z.of_nat (length l))); [|done].
    simpl. destruct (l !! Z.to_nat i); naive_solver.
  - intros [Hi Hl]. apply lookup_lt_Some in Hl as Hlt.
    destruct (Z.leb_spec 0 i); [|lia]. destruct (Z.ltb_spec i (Z.of_nat (length l))); [|lia].
    simpl. by rewrite Hl.
Qed.

Lemma index_in_range {A} (l : list A) (i : Z) :
  0 <= i < blen l -> exists x, l !! Z.to_nat i = Some x /\ index l i = Ok x.
Proof.
  unfold blen. intros Hi.
  destruct (lookup_lt_is_Some_2 l (Z.to_nat i) ltac:(lia)) as [x Hx].
  exists x. split; [done|]. apply index_Ok. split; [lia|done].
Qed.

Lemma slice_in_range {A} (l : list A) (lo hi : Z) :
  0 <= lo <= hi -> hi <= blen l -> slice l lo hi = Ok (sub l lo (hi - lo)).
Proof.
  intros [H1 H2] H3. unfold slice, sub.
  destruct (Z.leb_spec 0 lo); [|lia]. destruct (Z.leb_spec lo hi); [|lia].
  by destruct (Z.leb_spec hi (blen l)); [|lia].
Qed.

Lemma blen_app {A} (a b : list A) : blen (a ++ b) = blen a + blen b.
Proof. unfold blen. rewrite length_app. lia. Qed.

Lemma blen_cons {A} (x : A) l : blen (x :: l) = 1 + blen l.
Proof. unfold blen. simpl. lia. Qed.

Lemma length_sub {A} (l : list A) (lo n : Z) :
  0 <= lo -> 0 <= n -> lo + n <= blen l -> length (sub l lo n) = Z.to_nat n.
Proof. intros. unfold sub. len. Qed.

Lemma sub_app_l {A} (l k : list A) (lo n : Z) :
  0 <= lo -> 0 <= n -> lo + n <= blen l -> sub (l ++ k) lo n = sub l lo n.
Proof.
  intros. unfold sub, blen in *. rewrite drop_app_le by lia. apply take_app_le. len.
Qed.

Lemma sub_sub {A} (l : list A) (a n b m : Z) :
  0 <= a -> 0 <= b -> 0 <= m -> b + m <= n -> sub (sub l a n) b m = sub l (a + b) m.
Proof.
  intros. unfold sub. rewrite skipn_firstn_comm, take_take, drop_drop.
  f_equal; [lia|]. f_equal. lia.
Qed.

Lemma sub_all {A} (l : list A) : sub l 0 (blen l) = l.
Proof. unfold sub, blen. rewrite Nat2Z.id. simpl. by rewrite drop_0, firstn_all. Qed.

Lemma for_n_app {S} (m k : nat) (lo : Z) (body : Z -> S -> result S) (s : S) :
  for_n (m + k) lo body s = (s' ← for_n m lo body s; for_n k (lo + Z.of_nat m) body s').
Proof.
  revert lo s. induction m as [|m IH]; intros lo s.
  - simpl. by rewrite Z.add_0_r.
  - simpl. destruct (body lo s); go_simp; [|done..].
    rewrite IH. replace (lo + 1 + Z.of_nat m) with (lo + Z.pos (Pos.of_succ_nat m)) by lia. done.
Qed.

(** A counted loop whose body succeeds at every step from an invariant. *)
Lemma for_n_total {S} (I : Z -> S -> Prop) (n : nat) (lo : Z) body (s : S) :
  (forall i s, lo <= i < lo + Z.of_nat n -> I i s ->
     exists s', body i s = Ok s' /\ I (i + 1) s') ->
  I lo s -> exists s', for_n n lo body s = Ok s' /\ I (lo + Z.of_nat n) s'.
Proof.
  revert lo s. induction n as [|n IH]; intros lo s Hb Hs.
  - exists s. split; [done|]. by replace (lo + Z.of_nat 0) with lo by lia.
  - destruct (Hb lo s) as (s1 & E & H1); [lia|done|].
    simpl for_n. rewrite E. go_simp.
    destruct (IH (lo + 1) s1) as (s2 & E2 & H2); [intros; apply Hb; [lia|done]|done|].
    exists s2. split; [done|]. by replace (lo + Z.of_nat (Datatypes.S n)) with (lo + 1 + Z.of_nat n) by lia.
Qed.

Lemma for_n_ext {S} (f g : Z -> S -> result S) n lo s :
  (forall i s, lo <= i < lo + Z.of_nat n -> f i s = g i s) -> for_n n lo f s = for_n n lo g s.
Proof.
  revert lo s. induction n as [|n IH]; intros lo s H; simpl; [done|]. rewrite (H lo s) by lia.
  destruct (g lo s); go_simp; [|done..]. apply IH. intros; apply H; lia.
Qed.

(** A counted loop that succeeds kept every invariant of its body. *)
Lemma for_n_inv {S} (I : Z -> S -> Prop) (n : nat) (lo : Z) body (s s' : S) :
  (forall i s s1, lo <= i < lo + Z.of_nat n -> I i s -> body i s = Ok s1 -> I (i + 1) s1) ->
  I lo s -> for_n n lo body s = Ok s' -> I (lo + Z.of_nat n) s'.
Proof.
  revert lo s. induction n as [|n IH]; intros lo s Hb Hs E.
  - simpl in E. injection E as <-. by replace (lo + Z.of_nat 0) with lo by lia.
  - simpl in E. bind_inv E.
    replace (lo + Z.of_nat (Datatypes.S n)) with (lo + 1 + Z.of_nat n) by lia.
    eapply (IH (lo + 1)); [|eapply (Hb lo s); [lia|done|done]|done].
    intros; eapply Hb; [lia|done|done].
Qed.

(** A counted loop cannot panic when its body cannot from the invariant. *)
Lemma for_n_no_panic {S} (I : Z -> S -> Prop) (n : nat) (lo : Z) body (s : S) :
  (forall i s, lo <= i < lo + Z.of_nat n -> I i s ->
     no_panic (body i s) /\ forall s', body i s = Ok s' -> I (i + 1) s') ->
  I lo s -> no_panic (for_n n lo body s).
Proof.
  revert lo s. induction n as [|n IH]; intros lo s Hb Hs; [by split|].
  simpl. destruct (Hb lo s) as [Hp Hk]; [lia|done|].
  destruct (body lo s) as [s1|e| |] eqn:E; go_simp; [|by split|by destruct Hp..].
  apply IH; [intros; apply Hb; [lia|done]|]. by apply Hk.
Qed.

(** ** Loops with a measure *)
Lemma loop_measure {S R} (I : S -> Prop) (Q : R -> Prop) (m : S -> Z)
    (step : S -> S + R) (p : positive) (s : S) :
  (forall s, I s -> match step s with
                    | inl s' => I s' /\ 0 <= m s' < m s
                    | inr r => Q r end) ->
  I s -> 0 <= m s ->
  match loop p step s with
  | inl s' => I s' /\ 0 <= m s' /\ m s' + Z.pos p <= m s
  | inr r => Q r
  end.
Proof.
  intros Hstep. revert s. induction p as [p IH|p IH|]; intros s Hs Hm; simpl.
  - specialize (Hstep s Hs). destruct (step s) as [s1|r1]; [|done].
    destruct Hstep as [H1 M1]. specialize (IH s1 H1 ltac:(lia)) as IH1.
    destruct (loop p step s1) as [s2|r2]; [|done]. destruct IH1 as (H2 & M2 & D2).
    specialize (IH s2 H2 M2). destruct (loop p step s2) as [s3|r3]; [|done].
    destruct IH as (H3 & M3 & D3). split; [done|lia].
  - specialize (IH s Hs Hm) as IH1.
    destruct (loop p step s) as [s2|r2]; [|done]. destruct IH1 as (H2 & M2 & D2).
    specialize (IH s2 H2 M2). destruct (loop p step s2) as [s3|r3]; [|done].
    destruct IH as (H3 & M3 & D3). split; [done|lia].
  - specialize (Hstep s Hs). destruct (step s) as [s1|r1]; [|done].
    destruct Hstep as [H1 M1]. split; [done|lia].
Qed.

(** With more fuel than the measure, the loop leaves through its body. *)
Lemma run_loop_total {S A} (I : S -> Prop) (Q : result A -> Prop) (m : S -> Z)
    (step : S -> S + result A) (p : positive) (s : S) :
  (forall s, I s -> match step s with
                    | inl s' => I s' /\ 0 <= m s' < m s
                    | inr r => Q r end) ->
  I s -> 0 <= m s < Z.pos p -> Q (run_loop p step s).
Proof.
  intros Hstep Hs Hm. unfold run_loop.
  pose proof (loop_measure I Q m step p s Hstep Hs ltac:(lia)) as H.
  destruct (loop p step s); [lia|done].
Qed.

(** Without a measure: what the loop returns, if it leaves through its body. *)
Lemma loop_inv {S R} (I : S -> Prop) (Q : R -> Prop) (step : S -> S + R) p s :
  (forall s, I s -> match step s with inl s' => I s' | inr r => Q r end) ->
  I s -> match loop p step s with inl s' => I s' | inr r => Q r end.
Proof.
  intros Hstep. revert s. induction p as [p IH|p IH|]; intros s Hs; simpl.
  - specialize (Hstep s Hs). destruct (step s) as [s1|]; [|done].
    specialize (IH s1 Hstep) as IH1. destruct (loop p step s1); [by apply IH|done].
  - specialize (IH s Hs) as IH1. destruct (loop p step s); [by apply IH|done].
  - by apply Hstep.
Qed.

Create HintDb go.
#[export] Hint Resolve byte_val_range be_decode_range be_decode_u64 le_decode_u64
  u64_range length_be_encode : go.

(** ** Byte comparison *)
Lemma bytes_Compare_be (a b : bytes) :
  length a = length b -> bytes_Compare a b = (be_decode a ?= be_decode b).
Proof.
  revert b. induction a as [|x a IH]; intros [|y b] Hl; simpl in Hl; try lia; [done|].
  simpl. rewrite !be_decode_cons. injection Hl as Hl. rewrite Hl.
  pose proof (be_decode_range a) as Ha. rewrite Hl in Ha. pose proof (be_decode_range b) as Hb.
  destruct (Z.compare_spec (byte_val x) (byte_val y)) as [E|E|E].
  - rewrite (IH b Hl), E. symmetry. apply Z.add_compare_mono_l.
  - symmetry. apply Z.compare_lt_iff. nia.
  - symmetry. apply Z.compare_gt_iff. nia.
Qed.

Lemma bytes_Compare_Eq (a b : bytes) : bytes_Compare a b = Eq <-> a = b.
Proof.
  revert b. induction a as [|x a IH]; intros [|y b]; simpl; try done.
  destruct (Z.compare_spec (byte_val x) (byte_val y)) as [E|E|E].
  - rewrite IH. apply byte_val_inj in E as ->. split; [by intros ->|by intros [= ->]].
  - split; [done|]. intros [= -> _]. lia.
  - split; [done|]. intros [= -> _]. lia.
Qed.

Lemma bytes_Compare_Gt (a b : bytes) : bytes_Compare a b = Gt <-> bytes_Compare b a = Lt.
Proof.
  revert b. induction a as [|x a IH]; intros [|y b]; simpl; try done.
  rewrite (Z.compare_antisym (byte_val x) (byte_val y)).
  destruct (Z.compare_spec (byte_val x) (byte_val y)); simpl; [apply IH|done|done].
Qed.

Lemma bytes_Compare_Lt_trans (a b c : bytes) :
  bytes_Compare a b = Lt -> bytes_Compare b c = Lt -> bytes_Compare a c = Lt.
Proof.
  revert b c. induction a as [|x a IH]; intros [|y b] [|z c]; simpl; try done.
  destruct (Z.compare_spec (byte_val x) (byte_val y)), (Z.compare_spec (byte_val y) (byte_val z)),
    (Z.compare_spec (byte_val x) (byte_val z)); try done; try lia. apply IH.
Qed.

(** ** Inverting result computations *)
Lemma bind_Ok {A B} (f : A -> result B) (r : result A) (b : B) :
  mbind f r = Ok b <-> exists a, r = Ok a /\ f a = Ok b.
Proof. destruct r; go_simp; naive_solver. Qed.

Lemma or_err_Ok {A} (o : option A) (e : error) (a : A) : or_err o e = Ok a <-> o = Some a.
Proof. destruct o; simpl; naive_solver. Qed.

Lemma check_that_Ok (b : bool) (e : error) (u : unit) : check_that b e = Ok u <-> b = true.
Proof. destruct b, u; simpl; naive_solver. Qed.

Lemma wrap_err_Ok {A} (f : error -> error) (r : result A) (a : A) :
  wrap_err f r = Ok a <-> r = Ok a.
Proof. destruct r; simpl; naive_solver. Qed.

(** [fails_with P r]: the run returns, and any error it returns satisfies [P]. *)
Definition fails_with {A} (P : error -> Prop) (r : result A) : Prop :=
  match r with Ok _ => True | Err e => P e | Panic => False | OutOfFuel => False end.

Lemma fails_bind {A B} (P : error -> Prop) (f : A -> result B) (r : result A) :
  fails_with P r -> (forall a, r = Ok a -> fails_with P (f a)) -> fails_with P (mbind f r).
Proof. destruct r; simpl; auto. Qed.

Lemma fails_or_err {A} (P : error -> Prop) (o : option A) e : P e -> fails_with P (or_err o e).
Proof. by destruct o. Qed.

Lemma fails_check (P : error -> Prop) b e : P e -> fails_with P (check_that b e).
Proof. by destruct b. Qed.

Lemma fails_wrap {A} (P : error -> Prop) f (r : result A) :
  fails_with (fun e => P (f e)) r -> fails_with P (wrap_err f r).
Proof. by destruct r. Qed.

Lemma fails_weaken {A} (P Q : error -> Prop) (r : result A) :
  (forall e, P e -> Q e) -> fails_with P r -> fails_with Q r.
Proof. destruct r; simpl; auto. Qed.

Lemma fails_for_n {S} (P : error -> Prop) n lo (body : Z -> S -> result S) s :
  (forall i s, fails_with P (body i s)) -> fails_with P (for_n n lo body s).
Proof.
  intros Hb. revert lo s. induction n as [|n IH]; intros lo s; simpl; [done|].
  apply fails_bind; auto.
Qed.

Lemma fails_no_panic {A} (P : error -> Prop) (r : result A) : fails_with P r -> no_panic r.
Proof. by destruct r. Qed.

Create HintDb go_fails.
#[export] Hint Resolve fails_bind fails_or_err fails_check fails_wrap fails_for_n : go_fails.
#[export] Hint Extern 1 (fails_with _ (Ok _)) => exact I : go_fails.

(** Discharges [fails_with] goals over straight-line code. *)
Ltac fails :=
  repeat first
    [ apply fails_bind; [|intros ?; try (intros _)]
    | apply fails_or_err; try reflexivity
    | apply fails_check; try reflexivity
    | apply fails_wrap
    | apply fails_for_n; intros
    | exact I
    | progress cbn [mret result_ret]
    | case_match ].

(** ** Sorting

    [slices.SortFunc] with a comparison whose order is [le]: sorted, and nothing is said
    of the order of equal elements. *)
Class SortFunc {A} (le : A -> A -> Prop) := {
  sort_func : list A -> list A;
  sort_func_perm l : sort_func l ≡ₚ l;
  sort_func_sorted l : StronglySorted le (sort_func l)
}.

#[export] Instance merge_sort_func {A} (le : A -> A -> Prop)
    `{!RelDecision le} `{!Total le} `{!Transitive le} : SortFunc le := {
  sort_func := merge_sort le;
  sort_func_perm := merge_sort_Permutation le;
  sort_func_sorted := StronglySorted_merge_sort le
}.

(** [bytes.Compare(a, b) <= 0] is a total order. *)
Definition bytes_le (a b : bytes) : Prop := bytes_Compare a b <> Gt.

#[export] Instance bytes_le_dec : RelDecision bytes_le.
Proof. intros a b. unfold bytes_le. destruct (bytes_Compare a b); [by left..|right; auto]. Defined.

#[export] Instance bytes_le_trans : Transitive bytes_le.
Proof.
  intros a b c. unfold bytes_le.
  destruct (bytes_Compare a b) eqn:E1; [apply bytes_Compare_Eq in E1 as ->; done| |done].
  destruct (bytes_Compare b c) eqn:E2; [apply bytes_Compare_Eq in E2 as <-; by rewrite E1| |done].
  by rewrite (bytes_Compare_Lt_trans _ _ _ E1 E2).
Qed.

#[export] Instance bytes_le_total : Total bytes_le.
Proof.
  intros a b. unfold bytes_le. destruct (bytes_Compare a b) eqn:E; [by left..|].
  right. by apply bytes_Compare_Gt in E as ->.
Qed.

(** ** Map iteration

    Go does not specify the order in which [range] visits a map; the order is a
    parameter, of which only its being a permutation of the entries is known. *)
Class MapRange := {
  map_range : forall {A}, gmap bytes A -> list (bytes * A);
  map_range_perm : forall A (m : gmap bytes A), map_range m ≡ₚ map_to_list m
}.

#[export] Instance map_range_ref : MapRange := {
  map_range _ m := map_to_list m;
  map_range_perm _ _ := Permutation_refl _
}.

Lemma elem_of_map_range `{MapRange} {A} (m : gmap bytes A) k x :
  (k, x) ∈ map_range m <-> m !! k = Some x.
Proof. rewrite map_range_perm. apply elem_of_map_to_list. Qed.


Lemma bind_pair_Ok {A B D} (f : A -> B -> result D) (r : result (A * B)) (d : D) :
  mbind (fun '(a, b) => f a b) r = Ok d <-> exists a b, r = Ok (a, b) /\ f a b = Ok d.
Proof.
  rewrite bind_Ok. split.
  - intros ([a b] & H1 & H2). by exists a, b.
  - intros (a & b & H1 & H2). by exists (a, b).
Qed.

(** Opens a successful chain of binds into its successful calls. *)
Ltac inv_binds H :=
  repeat (let E := fresh "E" in
    first [ apply bind_pair_Ok in H as (? & ? & E & H)
          | apply bind_Ok in H as (? & E & H) ]).

(** Replays a chain of binds: each call is solved by [tac]. *)
Ltac replay_binds tac :=
  repeat first
    [ apply bind_pair_Ok; eexists _, _; split; [solve [tac]|]
    | apply bind_Ok; exists tt; split; [solve [tac]|]
    | apply bind_Ok; eexists; split; [solve [tac]|] ].

(** ** Loops as derivations

    [runs step s r]: iterating [step] from [s] leaves with [r]. *)
Inductive runs {S R} (step : S -> S + R) : S -> R -> Prop :=
  | runs_exit s r : step s = inr r -> runs step s r
  | runs_next s s' r : step s = inl s' -> runs step s' r -> runs step s r.

Lemma runs_det {S R} (step : S -> S + R) s r1 r2 : runs step s r1 -> runs step s r2 -> r1 = r2.
Proof.
  intros H. revert r2. induction H as [s r H|s s' r H Hr IH]; intros r2 H2.
  - inversion H2; congruence.
  - inversion H2; [congruence|]. apply IH. congruence.
Qed.

(** With enough fuel the executable loop is the derivation. *)
Lemma run_loop_runs {S A} (I : S -> Prop) (m : S -> Z) (step : S -> S + result A) p s :
  (forall s s', I s -> step s = inl s' -> I s' /\ 0 <= m s' < m s) ->
  I s -> 0 <= m s < Z.pos p -> runs step s (run_loop p step s).
Proof.
  intros Hm Hs Hp.
  apply (run_loop_total (fun st => I st /\ forall r, runs step st r -> runs step s r)
           (fun r => runs step s r) m); [|by split|done].
  intros st [Hst Hr]. destruct (step st) as [st'|r] eqn:E.
  - destruct (Hm st st' Hst E) as [Hi Hd]. split; [|done]. split; [done|].
    intros r Hrr. by apply Hr, (runs_next _ _ st').
  - by apply Hr, runs_exit.
Qed.
