(* ===== verification/Codec.v ===== *)
(** * Sequences of encoded items

    Readers of the modelled formats are counted loops over (input, accumulator):
    this file relates such a loop to the concatenation of the encodings of the
    items it accepts, and to the map, set or list it accumulates. *)
From S2P Require Import Prelude.

(** [fold_opt step acc bs] folds a partial step.  [for_n_reads]: a counted loop over
    (input, accumulator) whose body consumes exactly the encodings of the items it
    accepts consumes exactly the concatenation of the encodings. *)
Fixpoint fold_opt {A B} (step : A -> B -> option A) (acc : A) (bs : list B) : option A :=
  match bs with
  | [] => Some acc
  | b :: bs' => match step acc b with Some acc' => fold_opt step acc' bs' | None => None end
  end.

Definition encode_all {B} (enc : B -> bytes) (bs : list B) : bytes := concat (map enc bs).

Lemma for_n_reads {A B} (P : B -> Prop) (enc : B -> bytes) (step : A -> B -> option A)
    (body : Z -> bytes * A -> result (bytes * A)) (n : nat) (lo : Z) s acc s' acc' :
  (forall i s acc s' acc', body i (s, acc) = Ok (s', acc') <->
     exists b, P b /\ s = enc b ++ s' /\ step acc b = Some acc') ->
  for_n n lo body (s, acc) = Ok (s', acc') <->
  exists bs, length bs = n /\ Forall P bs /\ s = encode_all enc bs ++ s'
             /\ fold_opt step acc bs = Some acc'.
Proof.
  intros Hb. revert lo s acc. induction n as [|n IH]; intros lo s acc; cbn [for_n].
  - split.
    + intros [= <- <-]. by exists [].
    + intros ([|b bs] & Hl & _ & -> & Hf); [|done]. simpl in *. by simplify_eq.
  - rewrite bind_Ok. split.
    + intros ([s1 acc1] & H1 & H2). apply Hb in H1 as (b & HP & -> & Hs).
      apply IH in H2 as (bs & Hl & HF & -> & Hf). exists (b :: bs).
      split; [simpl; lia|]. split; [by constructor|]. split.
      * unfold encode_all. simpl. by rewrite <- app_assoc.
      * simpl. by rewrite Hs.
    + intros ([|b bs] & Hl & HF & -> & Hf); [done|]. simpl in Hf.
      apply Forall_cons in HF as [HP HF].
      destruct (step acc b) as [acc1|] eqn:Hs; [|done].
      exists (encode_all enc bs ++ s', acc1). split.
      * apply Hb. exists b. split; [done|]. split; [|done].
        unfold encode_all. simpl. by rewrite <- app_assoc.
      * apply IH. exists bs. simpl in Hl. by split; [lia|].
Qed.

(** Steps: append an item; add to a set; insert a fresh key. *)
Definition step_app {A} (acc : list A) (b : A) : option (list A) := Some (acc ++ [b]).
Definition step_add (acc : gset bytes) (b : bytes) : option (gset bytes) := Some ({[b]} ∪ acc).
Definition step_insert {A B} (f : B -> A) (acc : gmap bytes A) (kb : bytes * B)
    : option (gmap bytes A) :=
  match acc !! kb.1 with Some _ => None | None => Some (<[kb.1 := f kb.2]> acc) end.

Lemma fold_step_app {A} (acc bs : list A) : fold_opt step_app acc bs = Some (acc ++ bs).
Proof.
  revert acc. induction bs as [|b bs IH]; intros acc; simpl; [by rewrite app_nil_r|].
  by rewrite IH, <- app_assoc.
Qed.

Lemma fold_step_add acc bs : fold_opt step_add acc bs = Some (list_to_set bs ∪ acc).
Proof.
  revert acc. induction bs as [|b bs IH]; intros acc; simpl.
  - by rewrite (left_id_L ∅ (∪)).
  - rewrite IH. f_equal. set_solver.
Qed.

(** The map of a list of keyed items. *)
Definition entries {A B} (f : B -> A) (l : list (bytes * B)) : gmap bytes A :=
  list_to_map (prod_map id f <$> l).

Lemma entries_fst {A B} (f : B -> A) (l : list (bytes * B)) : (prod_map id f <$> l).*1 = l.*1.
Proof. induction l as [|[k b] l IH]; [done|]. exact (f_equal (cons k) IH). Qed.

Lemma entries_None {A B} (f : B -> A) (l : list (bytes * B)) k :
  k ∉ l.*1 -> entries f l !! k = None.
Proof. intros H. unfold entries. apply not_elem_of_list_to_map_1. by rewrite entries_fst. Qed.

Lemma entries_Some {A B} (f : B -> A) (l : list (bytes * B)) k a :
  NoDup l.*1 -> entries f l !! k = Some a <-> exists b, (k, b) ∈ l /\ a = f b.
Proof.
  intros Hn. unfold entries. rewrite <- elem_of_list_to_map by (by rewrite entries_fst).
  rewrite list_elem_of_fmap. split.
  - intros ([k' b] & [= -> ->] & H). by exists b.
  - intros (b & H & ->). by exists (k, b).
Qed.

Lemma fold_step_insert {A B} (f : B -> A) l acc m :
  fold_opt (step_insert f) acc l = Some m <->
  NoDup l.*1 /\ (forall k, k ∈ l.*1 -> acc !! k = None) /\ m = entries f l ∪ acc.
Proof.
  revert acc. induction l as [|[k b] l IH]; intros acc.
  - change (entries f []) with (∅ : gmap bytes A). simpl. rewrite (left_id_L ∅ (∪)).
    split; [intros [= <-]|intros (_ & _ & ->)]; [|done].
    split; [constructor|]. split; [set_solver|done].
  - cbn [fold_opt fmap list_fmap fst]. unfold step_insert at 1. cbn [fst snd].
    destruct (acc !! k) eqn:Hk.
    { split; [done|]. intros (_ & H & _). rewrite (H k) in Hk; [done|set_solver]. }
    change (entries f ((k, b) :: l)) with (<[k := f b]> (entries f l)).
    rewrite IH, NoDup_cons. split.
    + intros (Hn & Ha & ->).
      assert (k ∉ l.*1) as Hkl.
      { intros Hin. specialize (Ha k Hin). by rewrite lookup_insert_eq in Ha. }
      split; [done|]. split.
      * intros j [->|Hj]%elem_of_cons; [done|]. specialize (Ha j Hj).
        rewrite lookup_insert_ne in Ha; [done|]. by intros ->.
      * rewrite <- insert_union_l, insert_union_r; [done|by apply entries_None].
    + intros ([Hkl Hn] & Ha & ->). split; [done|]. split.
      * intros j Hj. rewrite lookup_insert_ne by (by intros ->). apply Ha. by right.
      * rewrite <- insert_union_l, insert_union_r; [done|by apply entries_None].
Qed.

Lemma fold_step_insert_empty {A B} (f : B -> A) l m :
  fold_opt (step_insert f) ∅ l = Some m <-> NoDup l.*1 /\ m = entries f l.
Proof.
  rewrite fold_step_insert, (right_id_L ∅ (∪)).
  split; [naive_solver|]. intros [Hn ->]. split; [done|]. split; [|done].
  intros k _. apply lookup_empty.
Qed.

(** ** Lengths of encodings *)
Lemma encode_all_length_le {B} (enc : B -> bytes) (n : nat) (bs : list B) :
  Forall (fun b => n <= length (enc b))%nat bs -> (n * length bs <= length (encode_all enc bs))%nat.
Proof.
  intros H. induction H as [|b bs Hb _ IH]; simpl; [lia|].
  unfold encode_all in *. simpl. rewrite length_app. lia.
Qed.

Lemma encode_all_app {B} (enc : B -> bytes) (l k : list B) :
  encode_all enc (l ++ k) = encode_all enc l ++ encode_all enc k.
Proof. unfold encode_all. by rewrite map_app, concat_app. Qed.

(** A loop that appends an encoding at every turn. *)
Lemma fold_left_encode {A} (op : bytes -> A -> bytes) (enc : A -> bytes) l out :
  (forall out x, op out x = out ++ enc x) -> fold_left op l out = out ++ encode_all enc l.
Proof.
  intros H. revert out. induction l as [|x l IH]; intros out; simpl.
  - unfold encode_all. simpl. by rewrite app_nil_r.
  - rewrite IH, H. unfold encode_all. simpl. by rewrite <- app_assoc.
Qed.

Lemma encode_all_map {A B} (enc : B -> bytes) (f : A -> B) l :
  encode_all enc (map f l) = encode_all (fun x => enc (f x)) l.
Proof. unfold encode_all. by rewrite map_map. Qed.

(** ** Loops that check and collect

    A counted loop whose body either fails on item [i] with [bad i] or appends
    [f i] returns the first failure, or everything collected. *)
Fixpoint first_err (bad : Z -> option error) (lo : Z) (n : nat) : option error :=
  match n with
  | O => None
  | S m => match bad lo with Some e => Some e | None => first_err bad (lo + 1) m end
  end.

Fixpoint collect {A} (f : Z -> list A) (lo : Z) (n : nat) : list A :=
  match n with
  | O => []
  | S m => f lo ++ collect f (lo + 1) m
  end.

Definition err_or {A} (o : option error) (a : A) : result A :=
  match o with Some e => Err e | None => Ok a end.

Lemma for_n_collect {A} (bad : Z -> option error) (f : Z -> list A) body (n : nat) (lo : Z) acc :
  (forall i acc, lo <= i < lo + Z.of_nat n -> body i acc = err_or (bad i) (acc ++ f i)) ->
  for_n n lo body acc = err_or (first_err bad lo n) (acc ++ collect f lo n).
Proof.
  revert lo acc. induction n as [|n IH]; intros lo acc Hb; cbn [for_n first_err collect].
  - by rewrite app_nil_r.
  - rewrite Hb by lia. destruct (bad lo); [done|]. cbn [err_or]. go_simp.
    rewrite IH by (intros; apply Hb; lia). by rewrite app_assoc.
Qed.

Lemma for_n_check (bad : Z -> option error) body (n : nat) (lo : Z) (u : unit) :
  (forall i u, lo <= i < lo + Z.of_nat n -> body i u = err_or (bad i) tt) ->
  for_n n lo body u = err_or (first_err bad lo n) tt.
Proof.
  revert lo u. induction n as [|n IH]; intros lo [] Hb; cbn [for_n first_err]; [done|].
  rewrite Hb by lia. destruct (bad lo); [done|]. cbn [err_or]. go_simp.
  apply IH. intros; apply Hb; lia.
Qed.

Lemma first_err_None bad lo n :
  first_err bad lo n = None <-> forall i, lo <= i < lo + Z.of_nat n -> bad i = None.
Proof.
  revert lo. induction n as [|n IH]; intros lo; cbn [first_err].
  - split; [intros _ i; lia|done].
  - destruct (bad lo) eqn:E.
    + split; [done|]. intros H. rewrite (H lo) in E; [done|lia].
    + rewrite IH. split; intros H i Hi; [destruct (Z.eq_dec i lo) as [->|]; [done|]|]; apply H; lia.
Qed.

Lemma first_err_Some bad lo n e :
  first_err bad lo n = Some e -> exists i, lo <= i < lo + Z.of_nat n /\ bad i = Some e.
Proof.
  revert lo. induction n as [|n IH]; intros lo; cbn [first_err]; [done|].
  destruct (bad lo) eqn:E.
  - intros [= ->]. exists lo. split; [lia|done].
  - intros (i & Hi & H)%IH. exists i. split; [lia|done].
Qed.

Lemma first_err_ext bad bad' lo n :
  (forall i, lo <= i < lo + Z.of_nat n -> bad i = bad' i) -> first_err bad lo n = first_err bad' lo n.
Proof.
  revert lo. induction n as [|n IH]; intros lo H; cbn [first_err]; [done|].
  rewrite (H lo), IH; [done| |lia]. intros; apply H; lia.
Qed.

Lemma elem_of_collect {A} (f : Z -> list A) lo n x :
  x ∈ collect f lo n <-> exists i, lo <= i < lo + Z.of_nat n /\ x ∈ f i.
Proof.
  revert lo. induction n as [|n IH]; intros lo; cbn [collect].
  - split; [set_solver|]. intros (i & Hi & _). lia.
  - rewrite elem_of_app, IH. split.
    + intros [H|(i & Hi & H)]; [exists lo|exists i]; (split; [lia|done]).
    + intros (i & Hi & H). destruct (Z.eq_dec i lo) as [->|]; [by left|right].
      exists i. split; [lia|done].
Qed.

Lemma collect_app {A} (f : Z -> list A) lo n m :
  collect f lo (n + m) = collect f lo n ++ collect f (lo + Z.of_nat n) m.
Proof.
  revert lo. induction n as [|n IH]; intros lo; cbn [collect Nat.add].
  - by rewrite Z.add_0_r.
  - rewrite IH, <- app_assoc. do 3 f_equal. lia.
Qed.

Lemma length_collect1 {A} (f : Z -> list A) lo n :
  (forall i, length (f i) = 1%nat) -> length (collect f lo n) = n.
Proof.
  intros Hf. revert lo. induction n as [|n IH]; intros lo; cbn [collect]; [done|].
  by rewrite length_app, Hf, IH.
Qed.

(** ** Loops that read until the input is empty *)
Definition while_step {A} (empty : bytes -> bool) (body : bytes * A -> result (bytes * A))
    (st : bytes * A) : (bytes * A) + result A :=
  if empty st.1 then inr (Ok st.2) else
  match body st with
  | Ok st' => inl st'
  | Err e => inr (Err e)
  | Panic => inr Panic
  | OutOfFuel => inr OutOfFuel
  end.

Section WhileReads.
Context {B R : Type} (P : B -> Prop) (enc : B -> bytes) (f : B -> R)
  (empty : bytes -> bool) (body : bytes * list R -> result (bytes * list R)).
Hypothesis Hempty : forall s, empty s = (blen s =? 0).
Hypothesis Henc : forall b, enc b <> [].
Hypothesis Hbody : forall s acc s' acc', body (s, acc) = Ok (s', acc') <->
  exists b, P b /\ s = enc b ++ s' /\ acc' = acc ++ [f b].

Lemma while_runs_Ok s acc out :
  runs (while_step empty body) (s, acc) (Ok out) <->
  exists bs, Forall P bs /\ s = encode_all enc bs /\ out = acc ++ map f bs.
Proof.
  split.
  - intros H. remember (s, acc) as st eqn:Est. remember (Ok out) as r eqn:Er.
    revert s acc Est Er. induction H as [st r H|st st' r H Hr IH]; intros s acc -> ->;
      unfold while_step in H; rewrite Hempty in H; simpl in H.
    + destruct (Z.eqb_spec (blen s) 0) as [Hs|Hs].
      * injection H as <-. exists []. split; [done|]. rewrite app_nil_r. by destruct s.
      * destruct (body (s, acc)); naive_solver.
    + destruct (Z.eqb_spec (blen s) 0) as [Hs|Hs]; [done|].
      destruct (body (s, acc)) as [[s1 acc1]| | |] eqn:Eb; try done. injection H as <-.
      apply Hbody in Eb as (b & HP & -> & ->).
      destruct (IH _ _ eq_refl eq_refl) as (bs & HF & -> & ->).
      exists (b :: bs). split; [by constructor|]. split; [done|]. by rewrite <- app_assoc.
  - intros (bs & HF & -> & ->). revert acc. induction HF as [|b bs HP HF IH]; intros acc.
    + apply runs_exit. unfold while_step. rewrite Hempty. simpl. by rewrite app_nil_r.
    + apply (runs_next _ _ (encode_all enc bs, acc ++ [f b])).
      * unfold while_step. rewrite Hempty. simpl.
        destruct (Z.eqb_spec (blen (encode_all enc (b :: bs))) 0) as [H|_].
        { unfold encode_all, blen in H. simpl in H. rewrite length_app in H.
          pose proof (Henc b). destruct (enc b); [done|simpl in H; lia]. }
        by rewrite (proj2 (Hbody _ _ (encode_all enc bs) (acc ++ [f b]))) by by exists b.
      * specialize (IH (acc ++ [f b])). by rewrite <- app_assoc in IH.
Qed.

(** Fuel beyond the input length is enough, and the loop only fails as its body. *)
Lemma while_loop_runs p s acc :
  blen s < Z.pos p ->
  runs (while_step empty body) (s, acc) (run_loop p (while_step empty body) (s, acc)).
Proof.
  intros Hp. apply (run_loop_runs (fun _ => True) (fun st => blen st.1)); [|done|simpl; unfold blen in *; lia].
  intros [s1 acc1] [s2 acc2] _ H. split; [done|]. unfold while_step in H. simpl in *.
  destruct (empty s1); [done|]. destruct (body (s1, acc1)) as [[s3 acc3]| | |] eqn:Eb; try done.
  injection H as -> ->. apply Hbody in Eb as (b & _ & -> & _).
  unfold blen. rewrite length_app. pose proof (Henc b). destruct (enc b); [done|simpl; lia].
Qed.

Lemma while_loop_Ok p s acc out :
  blen s < Z.pos p ->
  run_loop p (while_step empty body) (s, acc) = Ok out <->
  exists bs, Forall P bs /\ s = encode_all enc bs /\ out = acc ++ map f bs.
Proof.
  intros Hp. rewrite <- while_runs_Ok. pose proof (while_loop_runs p s acc Hp) as Hr. split.
  - intros E. by rewrite E in Hr.
  - intros H. exact (runs_det _ _ _ _ Hr H).
Qed.

Lemma while_loop_fails (Q : error -> Prop) p s acc :
  blen s < Z.pos p -> (forall st, fails_with Q (body st)) ->
  fails_with Q (run_loop p (while_step empty body) (s, acc)).
Proof.
  intros Hp HQ. pose proof (while_loop_runs p s acc Hp) as Hr.
  induction Hr as [st r H|st st' r H Hr IH]; [|done].
  unfold while_step in H. destruct (empty st.1); [by injection H as <-|].
  specialize (HQ st). destruct (body st); simpl in HQ; (done || by injection H as <-).
Qed.
End WhileReads.
