(* ===== verification/Sha256.v ===== *)
(** * SHA-256

    [crypto/sha256] of the Go standard library, after FIPS 180-4: 32-bit words as
    [Z], additions modulo 2^32.  [sha256_Sum256] is [sha256.Sum256]; the streaming
    hash of [sha256.New] is the digest of everything written. *)
From S2P Require Import Prelude.

Definition w32 (z : Z) : Z := z `mod` 2 ^ 32.
Definition rotr (n x : Z) : Z := Z.lor (Z.shiftr x n) (w32 (Z.shiftl x (32 - n))).
Definition Ch (x y z : Z) : Z := Z.lxor (Z.land x y) (Z.land (Z.lxor x (Z.ones 32)) z).
Definition Maj (x y z : Z) : Z := Z.lxor (Z.lxor (Z.land x y) (Z.land x z)) (Z.land y z).
Definition bsig0 (x : Z) : Z := Z.lxor (Z.lxor (rotr 2 x) (rotr 13 x)) (rotr 22 x).
Definition bsig1 (x : Z) : Z := Z.lxor (Z.lxor (rotr 6 x) (rotr 11 x)) (rotr 25 x).
Definition ssig0 (x : Z) : Z := Z.lxor (Z.lxor (rotr 7 x) (rotr 18 x)) (Z.shiftr x 3).
Definition ssig1 (x : Z) : Z := Z.lxor (Z.lxor (rotr 17 x) (rotr 19 x)) (Z.shiftr x 10).

Definition sha_K : list Z :=
 [1116352408; 1899447441; 3049323471; 3921009573; 961987163; 1508970993; 2453635748; 2870763221;
  3624381080; 310598401; 607225278; 1426881987; 1925078388; 2162078206; 2614888103; 3248222580;
  3835390401; 4022224774; 264347078; 604807628; 770255983; 1249150122; 1555081692; 1996064986;
  2554220882; 2821834349; 2952996808; 3210313671; 3336571891; 3584528711; 113926993; 338241895;
  666307205; 773529912; 1294757372; 1396182291; 1695183700; 1986661051; 2177026350; 2456956037;
  2730485921; 2820302411; 3259730800; 3345764771; 3516065817; 3600352804; 4094571909; 275423344;
  430227734; 506948616; 659060556; 883997877; 958139571; 1322822218; 1537002063; 1747873779;
  1955562222; 2024104815; 2227730452; 2361852424; 2428436474; 2756734187; 3204031479; 3329325298].

Definition sha_H0 : list Z :=
 [1779033703; 3144134277; 1013904242; 2773480762; 1359893119; 2600822924; 528734635; 1541459225].

(** Message schedule, kept as the 16 most recent words. *)
Definition sched_next (w : list Z) : Z :=
  w32 (ssig1 (nth 14 w 0) + nth 9 w 0 + ssig0 (nth 1 w 0) + nth 0 w 0).

Definition sha_round (h : list Z) (k w : Z) : list Z :=
  match h with
  | [a; b; c; d; e; f; g; hh] =>
      let t1 := w32 (hh + bsig1 e + Ch e f g + k + w) in
      let t2 := w32 (bsig0 a + Maj a b c) in
      [w32 (t1 + t2); a; b; c; w32 (d + t1); e; f; g]
  | _ => h
  end.

Fixpoint sha_rounds (ks : list Z) (w h : list Z) : list Z :=
  match ks with
  | [] => h
  | k :: ks' => sha_rounds ks' (tail w ++ [sched_next w]) (sha_round h k (nth 0 w 0))
  end.

Fixpoint be_words (n : nat) (bs : bytes) : list Z :=
  match n with
  | O => []
  | S m => be_decode (take 4 bs) :: be_words m (drop 4 bs)
  end.

Definition sha_block (h : list Z) (block : bytes) : list Z :=
  zip_with (fun x y => w32 (x + y)) h (sha_rounds sha_K (be_words 16 block) h).

Fixpoint sha_blocks (n : nat) (h : list Z) (bs : bytes) : list Z :=
  match n with
  | O => h
  | S m => sha_blocks m (sha_block h (take 64 bs)) (drop 64 bs)
  end.

Definition sha_pad (msg : bytes) : bytes :=
  msg ++ [Init.Byte.x80]
  ++ replicate (Z.to_nat ((55 - blen msg) `mod` 64)) Init.Byte.x00
  ++ be_encode 8 (8 * blen msg).

Definition sha256_Sum256 (msg : bytes) : bytes :=
  let p := sha_pad msg in
  concat (map (be_encode 4) (sha_blocks (Nat.div (length p) 64) sha_H0 p)).

(** ** The digest is 32 bytes *)
Lemma length_sha_round h k w : length h = 8%nat -> length (sha_round h k w) = 8%nat.
Proof. intros H. do 8 (destruct h as [|? h]; [done|]). by destruct h. Qed.

Lemma length_sha_rounds ks w h : length h = 8%nat -> length (sha_rounds ks w h) = 8%nat.
Proof.
  revert w h. induction ks as [|k ks IH]; intros w h H; simpl; [done|].
  by apply IH, length_sha_round.
Qed.

Lemma length_sha_blocks n h bs : length h = 8%nat -> length (sha_blocks n h bs) = 8%nat.
Proof.
  revert h bs. induction n as [|n IH]; intros h bs H; simpl; [done|].
  apply IH. unfold sha_block. rewrite length_zip_with, length_sha_rounds by done. lia.
Qed.

Lemma length_words_bytes (l : list Z) : length (concat (map (be_encode 4) l)) = (4 * length l)%nat.
Proof.
  induction l as [|z l IH]; [done|]. cbn [map concat]. rewrite length_app, IH, length_be_encode.
  simpl. lia.
Qed.

Lemma length_sha256 (msg : bytes) : length (sha256_Sum256 msg) = 32%nat.
Proof. unfold sha256_Sum256. by rewrite length_words_bytes, length_sha_blocks. Qed.

(** Test vectors of FIPS 180-4. *)
Example sha256_abc : be_decode (sha256_Sum256 (go_string "abc"))
  = 0xba7816bf8f01cfea414140de5dae2223b00361a396177a9cb410ff61f20015ad.
Proof. vm_compute. reflexivity. Qed.

Example sha256_two_blocks :
  be_decode (sha256_Sum256 (go_string "abcdbcdecdefdefgefghfghighijhijkijkljklmklmnlmnomnopnopq"))
  = 0x248d6a61d20638b8e5c026930c3e6039a33ce45964ff2167f6ecedd419db06c1.
Proof. vm_compute. reflexivity. Qed.
