(* ===== verification/GoIO.v ===== *)
(** * Readers of the Go standard library

    [io.ReaderAt], [io.NewSectionReader] and [io.ReadAll] as [internal/upki_index.go]
    uses them.  A [ReaderAt] is any function from a length and an offset to the
    bytes read and the error; how large a buffer [io.ReadAll] offers each read is
    unspecified and is a parameter. *)
From S2P Require Import Prelude.

(** How a concrete reader lets its size be found: a [Size] method, a [Stat] method
    (the size, or the error of the call), or neither. *)
Inductive sizing :=
  | SizeMethod (n : Z)
  | StatMethod (size : option Z)
  | NoSizing.

(** A reader never returns more bytes than the buffer holds. *)
Record ReaderAt := mkReaderAt {
  ReadAt : Z -> Z -> bytes * option error;
  ReadAt_bound : forall n off, 0 <= n -> blen (ReadAt n off).1 <= n;
  reader_sizing : sizing
}.

(** The [io.ReaderAt] contract over a fixed [content]: a read at a valid offset
    returns the bytes there; a short one returns [io.EOF]; a full one returns no
    error, or [io.EOF] if it reached the end. *)
Record serves (content : bytes) (r : ReaderAt) : Prop := {
  serves_data n off : 0 <= n -> 0 <= off -> (ReadAt r n off).1 = sub content off n;
  serves_short n off : 0 <= n -> 0 <= off ->
    blen (sub content off n) < n -> (ReadAt r n off).2 = Some EOF;
  serves_full n off : 0 <= n -> 0 <= off -> blen (sub content off n) = n ->
    (ReadAt r n off).2 = None
    \/ (blen content <= off + n /\ (ReadAt r n off).2 = Some EOF);
  serves_neg n off : off < 0 -> exists e, is_EOF e = false /\ (ReadAt r n off).2 = Some e;
  serves_size : match reader_sizing r with
                | SizeMethod z => z = blen content
                | StatMethod (Some z) => z = blen content
                | _ => True
                end
}.

(** A reader that, asked for at least one byte, returns one or an error. *)
Definition progresses (r : ReaderAt) : Prop :=
  forall n off, 0 < n -> (ReadAt r n off).2 = None -> (ReadAt r n off).1 <> [].

Class AllocPolicy := {
  read_space : Z -> Z;
  read_space_pos : forall have, 0 < read_space have
}.

(** 512 bytes at a time. *)
#[export] Instance alloc_512 : AllocPolicy := {
  read_space _ := 512;
  read_space_pos _ := eq_refl
}.

(** [io.NewSectionReader(r, off, n)]: reading may proceed up to the limit. *)
Definition section_limit (off n : Z) : Z :=
  if off <=? (2 ^ 63 - 1) - n then n + off else 2 ^ 63 - 1.

(** One [Read] of the loop of [io.ReadAll] on a section reader at [off]. *)
Definition read_all_step `{AllocPolicy} (r : ReaderAt) (limit : Z) (st : Z * bytes)
    : (Z * bytes) + result bytes :=
  let '(off, have) := st in
  if limit <=? off then inr (Ok have) else
  let '(b, err) := ReadAt r (Z.min (read_space (blen have)) (limit - off)) off in
  match err with
  | Some e => inr (if is_EOF e then Ok (have ++ b) else Err e)
  | None => inl (off + blen b, have ++ b)
  end.

(** [io.ReadAll(io.NewSectionReader(r, off, n))] *)
Definition read_section `{AllocPolicy} (r : ReaderAt) (off n : Z) : result bytes :=
  let limit := section_limit off n in
  run_loop (Z.to_pos (limit - off + 1)) (read_all_step r limit) (off, []).

(** [bytes.NewReader(content)] *)
Definition bytes_ReadAt (content : bytes) (n off : Z) : bytes * option error :=
  if off <? 0 then ([], Some (Sentinel "bytes.Reader.ReadAt: negative offset")) else
  if blen content <=? off then ([], Some EOF) else
  let b := sub content off n in
  (b, if blen b <? n then Some EOF else None).

Lemma bytes_ReadAt_bound content n off : 0 <= n -> blen (bytes_ReadAt content n off).1 <= n.
Proof.
  intros Hn. unfold bytes_ReadAt, sub. repeat case_match; simpl; len.
Qed.

Definition bytes_reader (content : bytes) : ReaderAt :=
  mkReaderAt (bytes_ReadAt content) (bytes_ReadAt_bound content) (SizeMethod (blen content)).

(** ** Lemmas *)
Lemma bytes_reader_serves content : serves content (bytes_reader content).
Proof.
  constructor; simpl; unfold bytes_ReadAt.
  - intros n off Hn Ho. destruct (Z.ltb_spec off 0); [lia|].
    destruct (Z.leb_spec (blen content) off); [|done].
    unfold sub. rewrite drop_ge by (unfold blen in *; lia). by rewrite take_nil.
  - intros n off Hn Ho Hs. destruct (Z.ltb_spec off 0); [lia|].
    destruct (Z.leb_spec (blen content) off); [done|]. simpl.
    by destruct (Z.ltb_spec (blen (sub content off n)) n); [|lia].
  - intros n off Hn Ho Hs. destruct (Z.ltb_spec off 0); [lia|].
    destruct (Z.leb_spec (blen content) off); [right; split; [lia|done]|]. simpl.
    left. by destruct (Z.ltb_spec (blen (sub content off n)) n); [lia|].
  - intros n off Ho. destruct (Z.ltb_spec off 0); [|lia].
    eexists. by split; [|reflexivity].
  - done.
Qed.

Lemma serves_progresses content r : serves content r ->
  forall n off, 0 <= off -> 0 < n -> (ReadAt r n off).2 = None -> (ReadAt r n off).1 <> [].
Proof.
  intros [Hd Hs _ _ _] n off Ho Hn He Hb. rewrite Hd in Hb by lia.
  rewrite Hs in He; [done|lia|lia|]. rewrite Hb. unfold blen. simpl. lia.
Qed.

Lemma sub_nil_ge {A} (l : list A) lo n : blen l <= lo -> sub l lo n = [].
Proof. intros H. unfold sub, blen in *. rewrite drop_ge by lia. apply take_nil. Qed.

Lemma sub_short {A} (l : list A) lo n m :
  0 <= lo -> blen (sub l lo n) < n -> n <= m -> sub l lo m = sub l lo n.
Proof.
  intros Hlo Hs Hm. unfold sub, blen in *. rewrite length_take, length_drop in Hs.
  rewrite !take_ge; [done|..]; rewrite length_drop; lia.
Qed.

Lemma sub_split {A} (l : list A) lo n m :
  0 <= lo -> 0 <= n -> 0 <= m -> sub l lo (n + m) = sub l lo n ++ sub l (lo + n) m.
Proof.
  intros. unfold sub. rewrite (Z2Nat.inj_add lo n), <- drop_drop by lia.
  by rewrite take_take_drop, Z2Nat.inj_add by lia.
Qed.

Lemma is_EOF_false_neq e : is_EOF e = false -> e <> EOF.
Proof. by intros H ->. Qed.

(** On a reader serving [content], [io.ReadAll] over a section returns exactly the
    bytes of the section that exist, for every allocation policy. *)
Lemma read_section_serves `{AllocPolicy} content r off n :
  serves content r -> 0 <= off -> 0 <= n -> off + n < 2 ^ 63 ->
  read_section r off n = Ok (sub content off n).
Proof.
  intros Hr Ho Hn Hlim. unfold read_section, section_limit.
  destruct (Z.leb_spec off (2 ^ 63 - 1 - n)); [|lia].
  apply (run_loop_total
    (fun st => off <= st.1 <= off + n /\ st.2 = sub content off (st.1 - off)
               /\ blen st.2 = st.1 - off)
    (fun res => res = Ok (sub content off n)) (fun st => n + off - st.1)).
  - intros [o have] (Hoff & Hh & Hl). simpl in *. unfold read_all_step.
    destruct (Z.leb_spec (n + off) o) as [Hend|Hend].
    { rewrite Hh. do 2 f_equal. lia. }
    set (want := Z.min _ _). pose proof (read_space_pos (blen have)).
    assert (0 < want <= n + off - o) as Hw by lia.
    destruct (ReadAt r want o) as [b err] eqn:E.
    assert (b = sub content o want) as Hb
      by (rewrite <- (serves_data _ _ Hr) by lia; by rewrite E).
    destruct err as [e|].
    + assert (e = EOF /\ sub content o want = sub content o (n + off - o)) as [-> Hs].
      { destruct (Z.lt_ge_cases (blen (sub content o want)) want) as [Hlt|Hge].
        - pose proof (serves_short _ _ Hr want o ltac:(lia) ltac:(lia) Hlt) as Hs.
          rewrite E in Hs. injection Hs as ->. split; [done|].
          symmetry. apply sub_short; lia.
        - assert (blen (sub content o want) = want) as Heq by (unfold sub, blen in *; len).
          destruct (serves_full _ _ Hr want o ltac:(lia) ltac:(lia) Heq) as [Hs|[Hs1 Hs2]];
            rewrite E in *; simpl in *; [done|]. injection Hs2 as ->. split; [done|].
          unfold sub. rewrite !take_ge; [done|rewrite length_drop; unfold blen in *; lia..]. }
      simpl. f_equal. rewrite Hh, Hb, Hs.
      replace (sub content o) with (sub content (off + (o - off))) by (f_equal; lia).
      rewrite <- sub_split by lia. f_equal. lia.
    + assert (blen b = want) as Hbl.
      { destruct (Z.lt_ge_cases (blen (sub content o want)) want) as [Hlt|Hge].
        - pose proof (serves_short _ _ Hr want o ltac:(lia) ltac:(lia) Hlt) as Hs.
          by rewrite E in Hs.
        - subst b. unfold sub, blen in *. len. }
      simpl. rewrite Hbl. split; [|lia]. split; [lia|]. split.
      * rewrite Hh, Hb. replace (sub content o) with (sub content (off + (o - off))) by (f_equal; lia).
        rewrite <- sub_split by lia. f_equal. lia.
      * unfold blen in *. rewrite length_app. lia.
  - simpl. split; [lia|]. split; [|unfold blen; simpl; lia].
    by rewrite Z.sub_diag.
  - simpl. lia.
Qed.

(** On any reader that progresses, the loop leaves with the bytes or an error. *)
Lemma read_section_no_panic `{AllocPolicy} r off n :
  progresses r -> 0 <= n -> no_panic (read_section r off n).
Proof.
  intros Hr Hn. unfold read_section.
  destruct (Z.lt_ge_cases (section_limit off n) off) as [Hlt|Hge].
  - replace (Z.to_pos (section_limit off n - off + 1)) with 1%positive by lia.
    unfold run_loop. simpl. destruct (Z.leb_spec (section_limit off n) off); [by split|lia].
  - apply (run_loop_total (fun st => st.1 <= section_limit off n) no_panic
      (fun st => section_limit off n - st.1)); [|simpl; lia|simpl; lia].
    intros [o have] Ho. simpl in *. unfold read_all_step.
    destruct (Z.leb_spec (section_limit off n) o); [by split|].
    set (want := Z.min _ _). pose proof (read_space_pos (blen have)).
    pose proof (ReadAt_bound r want o ltac:(lia)) as Hb.
    pose proof (Hr want o ltac:(lia)) as Hp.
    destruct (ReadAt r want o) as [b [e|]]; simpl in *.
    + destruct (is_EOF e); by split.
    + specialize (Hp eq_refl). assert (0 < blen b) by (destruct b; [done|unfold blen; simpl; lia]). lia.
Qed.
