(* ===== verification/UpkiIndex.v ===== *)
(** * The revocation index ([internal/upki_index.go])

    [NewIndexFromReader] with its validators, [Index.Lookup], [Index.findLog],
    [Index.Close] and [readFullAt], over any [io.ReaderAt].  Slice expressions
    panic when out of range, 64-bit conversions wrap. *)
From S2P Require Import Prelude Codec GoIO.

(** ** Constants and data *)
Definition indexMagic : bytes := go_string "upkiidx1".
Definition filenameSize : Z := 32.
Definition headerSize : Z := 8 + 2 + 4.
Definition logDirEntrySize : Z := 32 + 8 + 2.
Definition entrySize : Z := 2 + 8 + 8.

Definition errInvalidIndex : error := Sentinel "upki: invalid index".

(** An [io.Closer]: the handle it releases and what its [Close] returns. *)
Record Closer := mkCloser { closer_handle : nat; closer_result : option error }.

Record Index := mkIndex {
  filenames : list bytes;
  logDir : bytes;
  numLogs : Z;
  idx_r : ReaderAt;
  closer : option Closer
}.

Record span := mkSpan { span_start : Z; span_end : Z }.

(** The order of [slices.SortFunc(spans, compare by start)]. *)
Definition span_le (a b : span) : Prop := span_start a <= span_start b.
#[export] Instance span_le_dec : RelDecision span_le.
Proof. intros a b. apply Z_le_dec. Defined.
#[export] Instance span_le_total : Total span_le.
Proof. intros a b. unfold span_le. lia. Qed.
#[export] Instance span_le_trans : Transitive span_le.
Proof. intros a b c. unfold span_le. lia. Qed.

Notation SpanSort := (SortFunc span_le).

(** [bytes.IndexByte(slot, 0)] *)
Fixpoint IndexByte0 (s : bytes) (i : Z) : Z :=
  match s with
  | [] => -1
  | b :: s' => if byte_val b =? 0 then i else IndexByte0 s' (i + 1)
  end.

(** ** Operations *)
Definition readFullAt (r : ReaderAt) (n off : Z) : result bytes :=
  let '(b, err) := ReadAt r n off in
  match err with
  | Some e => if is_EOF e && (blen b =? n) then Ok b else Err e
  | None => if blen b <? n then Err ErrUnexpectedEOF else Ok b
  end.

Definition filename_byte_ok (c : byte) : bool :=
  let v := byte_val c in
  ((65 <=? v) && (v <=? 90)) || ((97 <=? v) && (v <=? 122)) || ((48 <=? v) && (v <=? 57))
  || (v =? 45) || (v =? 46) || (v =? 95).

Definition validateFilterFilename (name : bytes) : result unit :=
  if blen name =? 0 then Err (Sentinel "empty filename") else
  if bool_decide (name = go_string "." \/ name = go_string "..")
  then Err (Errorf "filename %q is a directory reference" [ABytes name]) else
  match List.find (fun c => negb (filename_byte_ok c)) name with
  | Some c => Err (Errorf "filename contains disallowed byte 0x%02x" [AInt (byte_val c)])
  | None => Ok tt
  end.

Definition validateLogDirOrder (logDir : bytes) (numLogs : Z) : result unit :=
  for_n (Z.to_nat (numLogs - 1)) 1 (fun i _ =>
    prev ← slice logDir ((i - 1) * logDirEntrySize) ((i - 1) * logDirEntrySize + 32);
    cur ← slice logDir (i * logDirEntrySize) (i * logDirEntrySize + 32);
    match bytes_Compare prev cur with
    | Lt => Ok tt
    | _ => Err (Errorf "%w: log directory not strictly sorted by log id at index %d"
                  [AErr errInvalidIndex; AInt i])
    end) tt.

Definition readerSize (r : ReaderAt) : option Z :=
  match reader_sizing r with
  | SizeMethod n => Some n
  | StatMethod (Some n) => Some n
  | StatMethod None => None
  | NoSizing => None
  end.

(** The overlap loop over the sorted spans. *)
Definition check_overlaps (spans : list span) : result unit :=
  for_n (length spans - 1) 1 (fun i _ =>
    cur ← index spans i;
    prev ← index spans (i - 1);
    if span_start cur <? span_end prev
    then Err (Errorf "%w: entry sections [%d, %d) and [%d, %d) overlap"
                [AErr errInvalidIndex; AInt (span_start prev); AInt (span_end prev);
                 AInt (span_start cur); AInt (span_end cur)])
    else Ok tt) tt.

(** The first loop of [validateEntrySections], for directory entry [i]. *)
Definition check_section (haveSize : option Z) (logDir : bytes) (tablesEnd : Z)
    (i : Z) (spans : list span) : result (list span) :=
  let off := i * logDirEntrySize in
  ob ← slice logDir (off + 32) (off + 40);
  cb ← slice logDir (off + 40) (off + 42);
  let entryOffset := i64 (be_decode ob) in
  let sectionLen := be_decode cb * entrySize in
  if entryOffset <? tablesEnd
  then Err (Errorf "%w: entry section offset %d overlaps header/tables (end %d)"
              [AErr errInvalidIndex; AInt entryOffset; AInt tablesEnd]) else
  let sectionEnd := i64 (entryOffset + sectionLen) in
  if match haveSize with Some size => size <? sectionEnd | None => false end
  then Err (Errorf "%w: entry section [%d, %d) exceeds file size %d"
              [AErr errInvalidIndex; AInt entryOffset; AInt sectionEnd;
               AInt (default 0 haveSize)]) else
  Ok (if 0 <? sectionLen then spans ++ [mkSpan entryOffset sectionEnd] else spans).

Definition validateEntrySections `{SpanSort} (r : ReaderAt) (logDir : bytes)
    (numLogs tablesEnd : Z) : result unit :=
  spans ← for_n (Z.to_nat numLogs) 0 (check_section (readerSize r) logDir tablesEnd) [];
  check_overlaps (sort_func spans).

(** One slot of the filename table. *)
Definition read_filename (filenamesBuf : bytes) (i : Z) (names : list bytes) : result (list bytes) :=
  slot ← slice filenamesBuf (i * filenameSize) ((i + 1) * filenameSize);
  let e := IndexByte0 slot 0 in
  let e := if e <? 0 then filenameSize else e in
  name ← slice slot 0 e;
  _ ← wrap_err (fun err => Errorf "%w: filename table entry %d: %w"
                   [AErr errInvalidIndex; AInt i; AErr err]) (validateFilterFilename name);
  Ok (names ++ [name]).

Definition NewIndexFromReader `{AllocPolicy} `{SpanSort} (r : ReaderAt) (c : option Closer)
    : result Index :=
  header ← wrap_err (fun err => Errorf "%w: read header: %w" [AErr errInvalidIndex; AErr err])
             (readFullAt r headerSize 0);
  magic ← slice header 0 8;
  _ ← check_that (bool_decide (magic = indexMagic)) (Errorf "%w: bad magic" [AErr errInvalidIndex]);
  nf ← slice header 8 10;
  nl ← slice header 10 14;
  let numFilenames := be_decode nf in
  let numLogs := be_decode nl in
  let filenamesLen := numFilenames * filenameSize in
  let tablesLen := filenamesLen + numLogs * logDirEntrySize in
  tables ← wrap_err (fun err => Errorf "%w: read tables: %w" [AErr errInvalidIndex; AErr err])
             (read_section r headerSize tablesLen);
  _ ← check_that (blen tables =? tablesLen)
        (Errorf "%w: read tables: %w" [AErr errInvalidIndex; AErr ErrUnexpectedEOF]);
  filenamesBuf ← slice tables 0 filenamesLen;
  dir ← slice tables filenamesLen (blen tables);
  names ← for_n (Z.to_nat numFilenames) 0 (read_filename filenamesBuf) [];
  _ ← validateLogDirOrder dir numLogs;
  let tablesEnd := headerSize + tablesLen in
  _ ← validateEntrySections r dir numLogs tablesEnd;
  Ok (mkIndex names dir numLogs r c).

(** The body of the binary search, on the state (lo, hi). *)
Definition find_step (idx : Index) (target : bytes) (st : Z * Z)
    : (Z * Z) + result (option Z) :=
  let '(lo, hi) := st in
  if hi <=? lo then inr (Ok None) else
  let mid := Z.shiftr (u64 (lo + hi)) 1 in
  let off := mid * logDirEntrySize in
  match slice (logDir idx) off (off + 32) with
  | Ok id =>
      match bytes_Compare id target with
      | Lt => inl (mid + 1, hi)
      | Gt => inl (lo, mid)
      | Eq => inr (Ok (Some off))
      end
  | Err e => inr (Err e)
  | Panic => inr Panic
  | OutOfFuel => inr OutOfFuel
  end.

Definition findLog (idx : Index) (logID : bytes) : result (option Z) :=
  run_loop (Z.to_pos (numLogs idx + 1)) (find_step idx logID) (0, numLogs idx).

(** One entry of a log's section. *)
Definition lookup_entry (idx : Index) (buf : bytes) (timestamp : Z) (i : Z)
    (names : list bytes) : result (list bytes) :=
  let off := i * entrySize in
  fb ← slice buf off (off + 2);
  let filterIdx := be_decode fb in
  if blen (filenames idx) <=? filterIdx
  then Err (Errorf "%w: entry filter index %d out of range" [AErr errInvalidIndex; AInt filterIdx])
  else
  mn ← slice buf (off + 2) (off + 10);
  mx ← slice buf (off + 10) (off + 18);
  if (timestamp <? be_decode mn) || (be_decode mx <? timestamp) then Ok names else
  name ← index (filenames idx) filterIdx;
  Ok (names ++ [name]).

Definition Lookup (idx : Index) (logID : bytes) (timestamp : Z) : result (list bytes) :=
  found ← findLog idx logID;
  match found with
  | None => Ok []
  | Some dirOffset =>
      ob ← slice (logDir idx) (dirOffset + 32) (dirOffset + 40);
      cb ← slice (logDir idx) (dirOffset + 40) (dirOffset + 42);
      let count := be_decode cb in
      buf ← wrap_err (fun err => Errorf "%w: read entries: %w" [AErr errInvalidIndex; AErr err])
              (readFullAt (idx_r idx) (count * entrySize) (i64 (be_decode ob)));
      for_n (Z.to_nat count) 0 (lookup_entry idx buf timestamp) []
  end.

(** [Close]: the error, the index afterwards and the handles released. *)
Definition Index_Close (idx : Index) : option error * Index * list nat :=
  match closer idx with
  | None => (None, idx, [])
  | Some c =>
      (closer_result c, mkIndex (filenames idx) (logDir idx) (numLogs idx) (idx_r idx) None,
       [closer_handle c])
  end.

(** ** The abstract directory *)
Definition dir_id (d : bytes) (i : Z) : bytes := sub d (i * logDirEntrySize) 32.
Definition dir_offset (d : bytes) (i : Z) : Z :=
  i64 (be_decode (sub d (i * logDirEntrySize + 32) 8)).
Definition dir_count (d : bytes) (i : Z) : Z := be_decode (sub d (i * logDirEntrySize + 40) 2).
Definition dir_length (d : bytes) (i : Z) : Z := dir_count d i * entrySize.

Definition sorted_dir (d : bytes) (n : Z) : Prop :=
  forall i j, 0 <= i -> i < j -> j < n -> bytes_Compare (dir_id d i) (dir_id d j) = Lt.

(** The specification of a filter file name. *)
Definition valid_filename (name : bytes) : Prop :=
  1 <= blen name <= 32 /\ name <> go_string "." /\ name <> go_string ".."
  /\ Forall (fun c => filename_byte_ok c = true) name.

Record wf_index (idx : Index) : Prop := {
  wfi_numLogs : 0 <= numLogs idx < 2 ^ 32;
  wfi_logDir : blen (logDir idx) = numLogs idx * logDirEntrySize;
  wfi_sorted : sorted_dir (logDir idx) (numLogs idx);
  wfi_filenames : Forall valid_filename (filenames idx);
  wfi_filenames_len : blen (filenames idx) < 65536;
  wfi_offsets i : 0 <= i < numLogs idx ->
    headerSize + blen (filenames idx) * filenameSize + blen (logDir idx) <= dir_offset (logDir idx) i
}.

(** ** Slices of the directory *)
Section Dir.
Context (d : bytes) (n : Z).
Hypothesis Hn : 0 <= n.
Hypothesis Hd : blen d = n * logDirEntrySize.

Lemma dir_slice i a b :
  0 <= i < n -> 0 <= a <= b -> b <= logDirEntrySize ->
  slice d (i * logDirEntrySize + a) (i * logDirEntrySize + b)
  = Ok (sub d (i * logDirEntrySize + a) (b - a)).
Proof.
  intros Hi Hab Hb. unfold logDirEntrySize in *. rewrite slice_in_range by lia. do 2 f_equal. lia.
Qed.

Lemma dir_id_slice i : 0 <= i < n ->
  slice d (i * logDirEntrySize) (i * logDirEntrySize + 32) = Ok (dir_id d i).
Proof.
  intros Hi. pose proof (dir_slice i 0 32 Hi ltac:(lia) ltac:(unfold logDirEntrySize; lia)) as E.
  by rewrite Z.add_0_r in E.
Qed.

Lemma length_dir_id i : 0 <= i < n -> length (dir_id d i) = 32%nat.
Proof. intros Hi. unfold dir_id, logDirEntrySize in *. rewrite length_sub; lia. Qed.

Lemma dir_count_range i : 0 <= i < n -> 0 <= dir_count d i < 65536.
Proof.
  intros Hi. unfold dir_count, logDirEntrySize in *.
  pose proof (be_decode_range (sub d (i * (32 + 8 + 2) + 40) 2)) as H.
  rewrite length_sub in H by lia. exact H.
Qed.

(** [validateLogDirOrder] accepts exactly the strictly sorted directories. *)
Definition order_err (i : Z) : option error :=
  match bytes_Compare (dir_id d (i - 1)) (dir_id d i) with
  | Lt => None
  | _ => Some (Errorf "%w: log directory not strictly sorted by log id at index %d"
                 [AErr errInvalidIndex; AInt i])
  end.

Lemma validateLogDirOrder_eq :
  validateLogDirOrder d n = err_or (first_err order_err 1 (Z.to_nat (n - 1))) tt.
Proof.
  apply for_n_check. intros i _ Hi. rewrite !dir_id_slice by lia. go_simp.
  unfold order_err. by destruct (bytes_Compare _ _).
Qed.

Lemma sorted_dir_adjacent :
  sorted_dir d n <-> forall i, 1 <= i < n -> order_err i = None.
Proof.
  unfold order_err. split.
  - intros H i Hi. by rewrite (H (i - 1) i) by lia.
  - intros H i j Hi Hij Hj.
    assert (forall k, 1 <= k < n -> be_decode (dir_id d (k - 1)) < be_decode (dir_id d k)) as Hstep.
    { intros k Hk. specialize (H k Hk).
      rewrite bytes_Compare_be in H by (by rewrite !length_dir_id by lia).
      destruct (Z.compare_spec (be_decode (dir_id d (k - 1))) (be_decode (dir_id d k))); done. }
    rewrite bytes_Compare_be by (by rewrite !length_dir_id by lia).
    apply Z.compare_lt_iff. clear H.
    replace j with (i + 1 + Z.of_nat (Z.to_nat (j - i - 1))) in * by lia.
    generalize (Z.to_nat (j - i - 1)) as k, Hj. intros k. induction k as [|k IH]; intros Hk.
    + rewrite Z.add_0_r in *. specialize (Hstep (i + 1) ltac:(lia)).
      by replace (i + 1 - 1) with i in Hstep by lia.
    + specialize (IH ltac:(lia)). specialize (Hstep (i + 1 + Z.of_nat (S k)) ltac:(lia)).
      replace (i + 1 + Z.of_nat (S k) - 1) with (i + 1 + Z.of_nat k) in Hstep by lia. lia.
Qed.

Lemma validateLogDirOrder_Ok u : validateLogDirOrder d n = Ok u <-> sorted_dir d n.
Proof.
  rewrite validateLogDirOrder_eq, sorted_dir_adjacent. destruct u.
  pose proof (first_err_None order_err 1 (Z.to_nat (n - 1))) as Hf.
  destruct (first_err _ _ _) eqn:E; simpl.
  - split; [done|]. intros H. assert (Some e = None) by (apply Hf; intros; apply H; lia). done.
  - split; [|done]. intros _ i Hi. apply Hf; [done|lia].
Qed.
End Dir.

(** ** [findLog] *)

(** The entry a search for [id] must find. *)
Definition dir_find (d : bytes) (n : Z) (id : bytes) : option Z :=
  List.find (fun i => bool_decide (dir_id d i = id)) (seqZ 0 n).

Lemma dir_find_Some d n id i :
  sorted_dir d n -> 0 <= i < n -> dir_id d i = id -> dir_find d n id = Some i.
Proof.
  intros Hs Hi Hid. unfold dir_find. destruct (List.find _ _) as [j|] eqn:E.
  - apply find_some in E as [Hj E]. apply list_elem_of_In, elem_of_seqZ in Hj.
    apply bool_decide_eq_true in E. f_equal.
    assert (forall a b, 0 <= a -> a < b -> b < n -> dir_id d a <> dir_id d b) as Hne.
    { intros a b Ha Hab Hb Heq. specialize (Hs a b Ha Hab Hb).
      rewrite Heq, (proj2 (bytes_Compare_Eq _ _) eq_refl) in Hs. done. }
    destruct (Z.lt_trichotomy i j) as [H|[H|H]]; [|done|]; exfalso;
      [apply (Hne i j); lia || congruence|apply (Hne j i); lia || congruence].
  - assert (i ∈ seqZ 0 n) as Hin%list_elem_of_In by (apply elem_of_seqZ; lia).
    apply (find_none _ _ E) in Hin. by apply bool_decide_eq_false in Hin.
Qed.

Lemma dir_find_None d n id :
  (forall i, 0 <= i < n -> dir_id d i <> id) -> dir_find d n id = None.
Proof.
  intros H. unfold dir_find. destruct (List.find _ _) as [j|] eqn:E; [|done].
  apply find_some in E as [Hj E]. apply list_elem_of_In, elem_of_seqZ in Hj.
  apply bool_decide_eq_true in E. destruct (H j); [lia|done].
Qed.

(** What the loop of [findLog] keeps: everything below [lo] is smaller than the
    target, everything from [hi] on is greater. *)
Definition search_inv (d : bytes) (n : Z) (target : bytes) (st : Z * Z) : Prop :=
  0 <= st.1 <= st.2 /\ st.2 <= n
  /\ (forall i, 0 <= i < st.1 -> bytes_Compare (dir_id d i) target = Lt)
  /\ (forall i, st.2 <= i < n -> bytes_Compare (dir_id d i) target = Gt).

Lemma find_step_inv idx target st :
  wf_index idx -> length target = 32%nat ->
  search_inv (logDir idx) (numLogs idx) target st ->
  match find_step idx target st with
  | inl st' => search_inv (logDir idx) (numLogs idx) target st' /\ 0 <= st'.2 - st'.1 < st.2 - st.1
  | inr res => res = Ok (option_map (fun i => i * logDirEntrySize)
                           (dir_find (logDir idx) (numLogs idx) target))
  end.
Proof.
  intros [Hn Hd Hs _ _ _] Ht. destruct st as [lo hi]. unfold search_inv. simpl fst. simpl snd.
  intros (Hlo & Hhi & Hbelow & Habove). unfold find_step.
  destruct (Z.leb_spec hi lo) as [Hend|Hlt].
  { rewrite dir_find_None; [done|]. intros i Hi <-.
    assert (bytes_Compare (dir_id (logDir idx) i) (dir_id (logDir idx) i) = Eq) as E
      by by apply bytes_Compare_Eq.
    destruct (Z.lt_ge_cases i lo); [rewrite Hbelow in E by lia|rewrite Habove in E by lia]; done. }
  rewrite u64_small by (unfold is_u64; lia). rewrite Z.shiftr_div_pow2 by lia. change (2 ^ 1) with 2.
  set (mid := (lo + hi) `div` 2).
  assert (lo <= mid < hi) as Hmid.
  { split; [apply Z.div_le_lower_bound; lia|apply Z.div_lt_upper_bound; lia]. }
  rewrite (dir_id_slice _ (numLogs idx)) by (done || lia).
  destruct (bytes_Compare (dir_id (logDir idx) mid) target) eqn:Hc.
  - apply bytes_Compare_Eq in Hc. by rewrite (dir_find_Some _ _ _ mid) by (done || lia).
  - simpl. split; [|lia]. split; [lia|]. split; [lia|]. split; [|done].
    intros i Hi. destruct (Z.eq_dec i mid) as [->|]; [done|].
    apply (bytes_Compare_Lt_trans _ (dir_id (logDir idx) mid)); [|done].
    apply Hs; lia.
  - simpl. split; [|lia]. split; [lia|]. split; [lia|]. split; [done|].
    intros i Hi. destruct (Z.eq_dec i mid) as [->|]; [done|]. destruct (Z.lt_ge_cases i hi); [|apply Habove; lia].
    apply bytes_Compare_Gt. apply bytes_Compare_Gt in Hc.
    apply (bytes_Compare_Lt_trans _ (dir_id (logDir idx) mid)); [done|]. apply Hs; lia.
Qed.

Lemma findLog_eq idx target :
  wf_index idx -> length target = 32%nat ->
  findLog idx target = Ok (option_map (fun i => i * logDirEntrySize)
                             (dir_find (logDir idx) (numLogs idx) target)).
Proof.
  intros Hwf Ht. pose proof (wfi_numLogs _ Hwf).
  apply (run_loop_total (search_inv (logDir idx) (numLogs idx) target)
    (fun res => res = Ok _) (fun st => st.2 - st.1)).
  - intros st Hst. by apply find_step_inv.
  - unfold search_inv. simpl. split; [lia|]. split; [lia|]. split; intros; lia.
  - simpl. lia.
Qed.

(** ** [Lookup] *)
Definition ent_filter (sec : bytes) (i : Z) : Z := be_decode (sub sec (i * entrySize) 2).
Definition ent_min (sec : bytes) (i : Z) : Z := be_decode (sub sec (i * entrySize + 2) 8).
Definition ent_max (sec : bytes) (i : Z) : Z := be_decode (sub sec (i * entrySize + 10) 8).

Definition entry_err (names : list bytes) (sec : bytes) (i : Z) : option error :=
  if blen names <=? ent_filter sec i
  then Some (Errorf "%w: entry filter index %d out of range"
               [AErr errInvalidIndex; AInt (ent_filter sec i)])
  else None.

(** The file name contributed by entry [i] of a section at a timestamp. *)
Definition entry_names (names : list bytes) (sec : bytes) (ts : Z) (i : Z) : list bytes :=
  if (ent_min sec i <=? ts) && (ts <=? ent_max sec i)
  then [nth (Z.to_nat (ent_filter sec i)) names []] else [].

(** The reference lookup: a linear search of the directory, the section's bytes
    taken from the file content, every entry checked, the covering ones kept. *)
Definition lookup_spec (idx : Index) (content : bytes) (id : bytes) (ts : Z) : result (list bytes) :=
  match dir_find (logDir idx) (numLogs idx) id with
  | None => Ok []
  | Some i =>
      let count := dir_count (logDir idx) i in
      let sec := sub content (dir_offset (logDir idx) i) (count * entrySize) in
      if blen sec <? count * entrySize
      then Err (Errorf "%w: read entries: %w" [AErr errInvalidIndex; AErr EOF])
      else err_or (first_err (entry_err (filenames idx) sec) 0 (Z.to_nat count))
             (collect (entry_names (filenames idx) sec ts) 0 (Z.to_nat count))
  end.

Lemma readFullAt_serves content r n off :
  serves content r -> 0 <= n -> 0 <= off ->
  readFullAt r n off
  = if blen (sub content off n) <? n then Err EOF else Ok (sub content off n).
Proof.
  intros Hr Hn Ho. unfold readFullAt.
  pose proof (serves_data _ _ Hr n off Hn Ho) as Hd.
  destruct (ReadAt r n off) as [b err] eqn:E. simpl in Hd. subst b.
  destruct (Z.ltb_spec (blen (sub content off n)) n) as [Hs|Hs].
  - pose proof (serves_short _ _ Hr n off Hn Ho Hs) as He. rewrite E in He. simpl in He. subst err.
    simpl. by destruct (Z.eqb_spec (blen (sub content off n)) n); [lia|].
  - assert (blen (sub content off n) = n) as Hf by (unfold sub, blen in *; len).
    destruct (serves_full _ _ Hr n off Hn Ho Hf) as [He|[_ He]]; rewrite E in He; simpl in He; subst err.
    + done.
    + simpl. by rewrite Hf, Z.eqb_refl.
Qed.

Lemma lookup_entry_eq idx sec ts count i acc :
  blen sec = count * entrySize -> 0 <= i < count ->
  lookup_entry idx sec ts i acc
  = err_or (entry_err (filenames idx) sec i) (acc ++ entry_names (filenames idx) sec ts i).
Proof.
  intros Hs Hi. unfold lookup_entry, entry_err, entry_names, ent_filter, ent_min, ent_max.
  unfold entrySize in *.
  rewrite !slice_in_range by lia. go_simp.
  replace (i * (2 + 8 + 8) + 2 - i * (2 + 8 + 8)) with 2 by lia.
  replace (i * (2 + 8 + 8) + 10 - (i * (2 + 8 + 8) + 2)) with 8 by lia.
  replace (i * (2 + 8 + 8) + 18 - (i * (2 + 8 + 8) + 10)) with 8 by lia.
  set (k := be_decode (sub sec (i * (2 + 8 + 8)) 2)).
  destruct (Z.leb_spec (blen (filenames idx)) k) as [Hk|Hk]; [done|]. go_simp. cbn [err_or].
  set (mn := be_decode (sub sec (i * (2 + 8 + 8) + 2) 8)).
  set (mx := be_decode (sub sec (i * (2 + 8 + 8) + 10) 8)).
  destruct (Z.ltb_spec ts mn), (Z.leb_spec mn ts); try lia; simpl orb; simpl andb; cbv iota;
    rewrite ?app_nil_r; [done|].
  destruct (Z.ltb_spec mx ts), (Z.leb_spec ts mx); try lia; simpl; rewrite ?app_nil_r; [done|].
  assert (0 <= k) by apply be_decode_range.
  destruct (index_in_range (filenames idx) k) as (x & Hx & ->); [lia|]. go_simp.
  by rewrite (nth_lookup_Some _ _ _ _ Hx).
Qed.

Lemma Lookup_eq idx content id ts :
  wf_index idx -> serves content (idx_r idx) -> length id = 32%nat ->
  Lookup idx id ts = lookup_spec idx content id ts.
Proof.
  intros Hwf Hr Hid. unfold Lookup, lookup_spec. rewrite findLog_eq by done. go_simp.
  destruct Hwf as [Hn Hd Hs Hf Hfl Ho].
  destruct (dir_find _ _ _) as [i|] eqn:E; [|done]. simpl option_map. cbv iota.
  assert (0 <= i < numLogs idx) as Hi.
  { unfold dir_find in E. apply find_some in E as [E _]. apply list_elem_of_In, elem_of_seqZ in E. lia. }
  rewrite !(dir_slice _ (numLogs idx)) by (done || lia || (unfold logDirEntrySize; lia)). go_simp.
  change (40 - 32) with 8. change (42 - 40) with 2.
  fold (dir_offset (logDir idx) i). fold (dir_count (logDir idx) i).
  specialize (Ho i Hi). pose proof (dir_count_range _ _ Hd i Hi) as Hc.
  rewrite (readFullAt_serves content) by
    (done || (unfold entrySize; lia) || (unfold headerSize, filenameSize, blen in *; lia)).
  set (sec := sub content _ _).
  destruct (Z.ltb_spec (blen sec) (dir_count (logDir idx) i * entrySize)) as [Hs'|Hs']; [done|].
  go_simp. rewrite (for_n_collect (entry_err (filenames idx) sec) (entry_names (filenames idx) sec ts)).
  - done.
  - intros j acc Hj. apply (lookup_entry_eq _ _ _ (dir_count (logDir idx) i)); [|lia].
    subst sec. unfold sub, blen, entrySize in *. rewrite length_take in *. lia.
Qed.

(** ** The filename table *)

(** A NUL-padded slot up to its first NUL. *)
Fixpoint cstr (s : bytes) : bytes :=
  match s with
  | [] => []
  | b :: s' => if byte_val b =? 0 then [] else b :: cstr s'
  end.

Lemma IndexByte0_cstr s i :
  0 <= i ->
  (IndexByte0 s i = -1 /\ cstr s = s)
  \/ (IndexByte0 s i = i + blen (cstr s) /\ blen (cstr s) < blen s
      /\ cstr s = take (length (cstr s)) s).
Proof.
  revert i. induction s as [|b s IH]; intros i Hi; simpl; [by left|].
  destruct (Z.eqb_spec (byte_val b) 0).
  - right. unfold blen. simpl. split; [lia|]. split; [lia|done].
  - destruct (IH (i + 1) ltac:(lia)) as [[H1 H2]|(H1 & H2 & H3)].
    + left. split; [done|by f_equal].
    + right. unfold blen in *. simpl. split; [lia|]. split; [lia|by f_equal].
Qed.

Definition slot_name (buf : bytes) (i : Z) : bytes := cstr (sub buf (i * filenameSize) filenameSize).

Definition filename_err (buf : bytes) (i : Z) : option error :=
  match validateFilterFilename (slot_name buf i) with
  | Err err => Some (Errorf "%w: filename table entry %d: %w" [AErr errInvalidIndex; AInt i; AErr err])
  | _ => None
  end.

Lemma validateFilterFilename_cases name :
  validateFilterFilename name = Ok tt \/ exists e, validateFilterFilename name = Err e.
Proof. unfold validateFilterFilename. repeat case_match; eauto. Qed.

Lemma slot_slice slot :
  blen slot = filenameSize ->
  slice slot 0 (if IndexByte0 slot 0 <? 0 then filenameSize else IndexByte0 slot 0) = Ok (cstr slot).
Proof.
  intros Hl. unfold filenameSize in *.
  destruct (IndexByte0_cstr slot 0 ltac:(lia)) as [[-> Hc]|(-> & Hb & Hc)].
  - simpl. rewrite slice_in_range by lia. rewrite Hc. f_equal.
    replace (32 - 0) with (blen slot) by lia. apply sub_all.
  - assert (0 <= blen (cstr slot)) by (unfold blen; lia).
    destruct (Z.ltb_spec (0 + blen (cstr slot)) 0); [lia|].
    rewrite slice_in_range by lia. f_equal. rewrite Hc at 2.
    unfold sub, blen. f_equal. lia.
Qed.

Lemma read_filename_eq buf n i names :
  blen buf = n * filenameSize -> 0 <= i < n ->
  read_filename buf i names = err_or (filename_err buf i) (names ++ [slot_name buf i]).
Proof.
  intros Hb Hi. unfold read_filename, filename_err, filenameSize in *.
  rewrite slice_in_range by lia. go_simp.
  replace ((i + 1) * 32 - i * 32) with 32 by lia.
  rewrite slot_slice by (unfold blen, filenameSize in *; rewrite length_sub; unfold blen; lia).
  go_simp. change (cstr _) with (slot_name buf i).
  destruct (validateFilterFilename_cases (slot_name buf i)) as [->|[e ->]]; done.
Qed.

Lemma cstr_length s : blen (cstr s) <= blen s.
Proof.
  induction s as [|b s IH]; simpl; [done|]. unfold blen in *. destruct (byte_val b =? 0); simpl; lia.
Qed.

Lemma validateFilterFilename_Ok name u :
  blen name <= 32 -> validateFilterFilename name = Ok u <-> valid_filename name.
Proof.
  intros Hl. unfold validateFilterFilename, valid_filename. destruct u.
  destruct (Z.eqb_spec (blen name) 0); [split; [done|lia]|].
  assert (0 <= blen name) by (unfold blen; lia).
  destruct (bool_decide_reflect (name = go_string "." \/ name = go_string "..")) as [Hd|Hd].
  { split; [done|]. intros (_ & H1 & H2 & _). by destruct Hd. }
  destruct (List.find _ _) as [c|] eqn:E.
  - apply find_some in E as [Hin Hc]. split; [done|]. intros (_ & _ & _ & HF).
    rewrite Forall_forall in HF. apply list_elem_of_In in Hin. by rewrite HF in Hc.
  - split; [|done]. intros _. split; [lia|]. split; [tauto|]. split; [tauto|].
    rewrite Forall_forall. intros c Hc%list_elem_of_In. apply (find_none _ _ E) in Hc.
    by apply negb_false_iff in Hc.
Qed.

Lemma filename_err_None buf i :
  filename_err buf i = None <-> valid_filename (slot_name buf i).
Proof.
  unfold filename_err.
  assert (blen (slot_name buf i) <= 32) as Hl.
  { pose proof (cstr_length (sub buf (i * filenameSize) filenameSize)). unfold slot_name.
    unfold sub, blen, filenameSize in *. rewrite length_take in *. lia. }
  rewrite <- (validateFilterFilename_Ok _ tt Hl).
  destruct (validateFilterFilename_cases (slot_name buf i)) as [->|[e ->]]; done.
Qed.

(** ** Entry sections *)
Definition section_end (d : bytes) (i : Z) : Z := i64 (dir_offset d i + dir_length d i).

Definition section_err (haveSize : option Z) (d : bytes) (tablesEnd i : Z) : option error :=
  if dir_offset d i <? tablesEnd
  then Some (Errorf "%w: entry section offset %d overlaps header/tables (end %d)"
               [AErr errInvalidIndex; AInt (dir_offset d i); AInt tablesEnd])
  else if match haveSize with Some size => size <? section_end d i | None => false end
  then Some (Errorf "%w: entry section [%d, %d) exceeds file size %d"
               [AErr errInvalidIndex; AInt (dir_offset d i); AInt (section_end d i);
                AInt (default 0 haveSize)])
  else None.

Definition section_span (d : bytes) (i : Z) : list span :=
  if 0 <? dir_length d i then [mkSpan (dir_offset d i) (section_end d i)] else [].

Lemma check_section_eq hs d n te i spans :
  blen d = n * logDirEntrySize -> 0 <= i < n ->
  check_section hs d te i spans = err_or (section_err hs d te i) (spans ++ section_span d i).
Proof.
  intros Hd Hi. unfold check_section, section_err, section_span, section_end, dir_length.
  rewrite !(dir_slice d n) by (done || lia || (unfold logDirEntrySize; lia)). go_simp.
  change (40 - 32) with 8. change (42 - 40) with 2.
  fold (dir_offset d i). fold (dir_count d i).
  destruct (dir_offset d i <? te); [done|].
  destruct (match hs with Some size => _ | None => false end); [done|].
  simpl. destruct (0 <? dir_count d i * entrySize); by rewrite ?app_nil_r.
Qed.

(** The spans no two of which overlap, in one order or the other. *)
Definition before (a b : span) : Prop := span_end a <= span_start b.
Definition apart (a b : span) : Prop := before a b \/ before b a.

Definition overlap_err (spans : list span) (i : Z) : option error :=
  match spans !! Z.to_nat i, spans !! Z.to_nat (i - 1) with
  | Some cur, Some prev =>
      if span_start cur <? span_end prev
      then Some (Errorf "%w: entry sections [%d, %d) and [%d, %d) overlap"
                   [AErr errInvalidIndex; AInt (span_start prev); AInt (span_end prev);
                    AInt (span_start cur); AInt (span_end cur)])
      else None
  | _, _ => None
  end.

Lemma check_overlaps_eq spans :
  check_overlaps spans = err_or (first_err (overlap_err spans) 1 (length spans - 1)) tt.
Proof.
  unfold check_overlaps. apply for_n_check. intros i u Hi. unfold overlap_err.
  destruct (index_in_range spans i) as (cur & -> & ->); [unfold blen; lia|].
  destruct (index_in_range spans (i - 1)) as (prev & -> & ->); [unfold blen; lia|].
  go_simp. by destruct (span_start cur <? span_end prev).
Qed.

(** Adjacent spans of a list sorted by start do not overlap exactly when all later
    spans start after each span's end. *)
Lemma overlaps_adjacent spans :
  StronglySorted (fun a b => span_start a <= span_start b) spans ->
  first_err (overlap_err spans) 1 (length spans - 1) = None <-> ForallOrdPairs before spans.
Proof.
  intros Hs. rewrite first_err_None.
  assert ((forall i, 1 <= i < 1 + Z.of_nat (length spans - 1) -> overlap_err spans i = None)
          <-> forall k a b, spans !! k = Some a -> spans !! S k = Some b -> before a b) as ->.
  { split.
    - intros H k a b Ha Hb. assert (S k < length spans)%nat by (by apply lookup_lt_Some in Hb).
      specialize (H (Z.of_nat (S k)) ltac:(lia)). unfold overlap_err in H.
      rewrite Nat2Z.id in H. replace (Z.to_nat (Z.of_nat (S k) - 1)) with k in H by lia.
      rewrite Ha, Hb in H. destruct (Z.ltb_spec (span_start b) (span_end a)); [done|].
      unfold before. lia.
    - intros H i Hi. unfold overlap_err.
      destruct (spans !! Z.to_nat i) as [b|] eqn:Hb; [|done].
      destruct (spans !! Z.to_nat (i - 1)) as [a|] eqn:Ha; [|done].
      replace (Z.to_nat i) with (S (Z.to_nat (i - 1))) in Hb by lia.
      specialize (H _ a b Ha Hb). unfold before in H.
      destruct (Z.ltb_spec (span_start b) (span_end a)); [lia|done]. }
  induction Hs as [|a l Hs IH Ha].
  - split; [constructor|by intros _ k x y].
  - split.
    + intros H. constructor; [|apply IH; intros k x y Hx Hy; by apply (H (S k))].
      destruct l as [|b l]; [done|]. pose proof (H 0%nat a b eq_refl eq_refl) as Hab.
      apply Forall_cons in Ha as [_ Ha].
      constructor; [done|]. inversion Hs as [|? ? _ Hb]; subst.
      eapply Forall_impl; [exact Hb|]. intros c Hc. unfold before in *. lia.
    + intros H. inversion H as [|? ? Hal Hl]; subst. intros [|k] x y Hx Hy; simpl in *.
      * injection Hx as <-. rewrite Forall_forall in Hal. apply Hal.
        by apply list_elem_of_lookup_2 in Hy.
      * apply (proj2 IH Hl k x y Hx Hy).
Qed.

Lemma ForallOrdPairs_apart_perm (l k : list span) :
  l ≡ₚ k -> ForallOrdPairs apart l -> ForallOrdPairs apart k.
Proof.
  assert (forall a b, apart a b -> apart b a) as Hsym by (unfold apart; tauto).
  induction 1 as [|x l k Hp IH|x y l|l k m Hp1 IH1 Hp2 IH2]; intros H; [done| | |by auto].
  - inversion H; subst. constructor; [by rewrite <- Hp|by apply IH].
  - inversion H as [|? ? H1 H2]; subst. inversion H2 as [|? ? H3 H4]; subst.
    apply Forall_cons in H1 as [H1 H1']. constructor; [constructor; [by apply Hsym|done]|].
    by constructor.
Qed.

Lemma before_apart_sorted (l : list span) :
  StronglySorted (fun a b => span_start a <= span_start b) l ->
  Forall (fun a => span_start a < span_end a) l ->
  ForallOrdPairs before l <-> ForallOrdPairs apart l.
Proof.
  intros Hs Hne. induction Hs as [|a l Hs IH Ha]; [split; constructor|].
  apply Forall_cons in Hne as [Hne1 Hne]. specialize (IH Hne). split; intros H;
    inversion H as [|? ? H1 H2]; subst; (constructor; [|by apply IH]).
  - eapply Forall_impl; [exact H1|]. by left.
  - rewrite Forall_forall in *. intros b Hb. specialize (Ha b Hb). specialize (Hne b Hb).
    destruct (H1 b Hb) as [?|Hba]; [done|]. unfold before in Hba. simpl in *. lia.
Qed.

Lemma before_apart (l : list span) : ForallOrdPairs before l -> ForallOrdPairs apart l.
Proof.
  induction 1 as [|a l Ha Hl IH]; constructor; [|done].
  eapply Forall_impl; [exact Ha|]. by left.
Qed.

(** Sections of distinct directory entries. *)
Lemma collect_apart (f : Z -> list span) lo n :
  ForallOrdPairs apart (collect f lo n) ->
  forall i j x y, lo <= i -> i < j -> j < lo + Z.of_nat n -> x ∈ f i -> y ∈ f j -> apart x y.
Proof.
  revert lo. induction n as [|n IH]; intros lo H i j x y Hi Hij Hj Hx Hy; [lia|].
  cbn [collect] in H. destruct (Z.eq_dec i lo) as [->|Hne].
  - assert (y ∈ collect f (lo + 1) n) as Hy'
      by (apply elem_of_collect; exists j; split; [lia|done]).
    revert Hx Hy' H. generalize (f lo) as l1, (collect f (lo + 1) n) as l2. clear.
    intros l1 l2. induction l1 as [|a l1 IH1]; intros Hx Hy H; [by apply elem_of_nil in Hx|].
    simpl in H. inversion H as [|? ? H1 H2]; subst. apply elem_of_cons in Hx as [->|Hx].
    + rewrite Forall_forall in H1. apply H1, elem_of_app. by right.
    + by apply IH1.
  - apply (IH (lo + 1)) with i j; try done; [|lia..].
    revert H. generalize (f lo) as l1. induction l1 as [|a l1 IH1]; intros H; [done|].
    simpl in H. inversion H; subst. by apply IH1.
Qed.

Lemma apart_collect (f : Z -> list span) lo n :
  (forall i, length (f i) <= 1)%nat ->
  (forall i j x y, lo <= i -> i < j -> j < lo + Z.of_nat n -> x ∈ f i -> y ∈ f j -> apart x y) ->
  ForallOrdPairs apart (collect f lo n).
Proof.
  intros Hl. revert lo. induction n as [|n IH]; intros lo H; cbn [collect]; [constructor|].
  assert (ForallOrdPairs apart (collect f (lo + 1) n)) as Hr.
  { apply IH. intros i j x y Hi Hij Hj. apply (H i j); lia. }
  specialize (Hl lo). destruct (f lo) as [|a [|b l]] eqn:E; simpl in *; [done| |lia].
  constructor; [|done]. rewrite Forall_forall. intros y Hy.
  apply elem_of_collect in Hy as (j & Hj & Hy). apply (H lo j); [lia..| |done].
  rewrite E. by left.
Qed.

Lemma section_span_short d i : (length (section_span d i) <= 1)%nat.
Proof. unfold section_span. case_match; simpl; lia. Qed.

(** What [validateEntrySections] accepts: every section starts after the tables and
    ends (modulo 2^64) within the size, and any two non-empty sections are apart. *)
Record sections_ok (hs : option Z) (d : bytes) (n te : Z) : Prop := {
  so_start i : 0 <= i < n -> te <= dir_offset d i;
  so_size i size : 0 <= i < n -> hs = Some size -> section_end d i <= size;
  so_apart i j : 0 <= i -> i < j -> j < n -> 0 < dir_length d i -> 0 < dir_length d j ->
    section_end d i <= dir_offset d j \/ section_end d j <= dir_offset d i
}.

(** The exact end of a section; [section_end] is what the code computes of it. *)
Definition section_stop (d : bytes) (i : Z) : Z := dir_offset d i + dir_length d i.

(** What acceptance says of the sections as they lie in the file.  A section whose end
    is below 2^63 ends within the size, and before any non-empty section that starts
    later; two of them are disjoint. *)
Record sections_valid (hs : option Z) (d : bytes) (n te : Z) : Prop := {
  sv_start i : 0 <= i < n -> te <= dir_offset d i;
  sv_size i size : 0 <= i < n -> hs = Some size -> section_stop d i < 2 ^ 63 -> section_stop d i <= size;
  sv_later i j : 0 <= i < n -> 0 <= j < n -> 0 < dir_length d i -> 0 < dir_length d j ->
    section_stop d i < 2 ^ 63 -> dir_offset d i < dir_offset d j -> section_stop d i <= dir_offset d j;
  sv_disjoint i j k : 0 <= i < n -> 0 <= j < n ->
    section_stop d i < 2 ^ 63 -> section_stop d j < 2 ^ 63 ->
    dir_offset d i <= k < section_stop d i -> dir_offset d j <= k < section_stop d j -> i = j
}.

Lemma section_end_fits d i :
  0 <= dir_offset d i -> 0 <= dir_length d i -> section_stop d i < 2 ^ 63 -> section_end d i = section_stop d i.
Proof. unfold section_end, section_stop. intros. apply i64_small. lia. Qed.

(** In a sorted list without overlaps, a span ends before any that starts later. *)
Lemma before_later (l : list span) a b :
  StronglySorted (fun a b => span_start a <= span_start b) l -> ForallOrdPairs before l ->
  a ∈ l -> b ∈ l -> span_start a < span_start b -> before a b.
Proof.
  intros Hs. induction Hs as [|x l Hs IH Hx]; intros Hb Ha Hin Hlt; [by apply elem_of_nil in Ha|].
  inversion Hb as [|? ? H1 H2]; subst. rewrite Forall_forall in H1, Hx.
  apply elem_of_cons in Ha as [->|Ha], Hin as [->|Hin]; [lia|by apply H1| |by apply IH].
  specialize (Hx a Ha). simpl in Hx. lia.
Qed.

Section Sections.
Context `{SpanSort} (r : ReaderAt) (d : bytes) (n te : Z).
Hypothesis Hn : 0 <= n.
Hypothesis Hd : blen d = n * logDirEntrySize.

Lemma validateEntrySections_eq :
  validateEntrySections r d n te
  = (spans ← err_or (first_err (section_err (readerSize r) d te) 0 (Z.to_nat n))
               (collect (section_span d) 0 (Z.to_nat n));
     err_or (first_err (overlap_err (sort_func spans)) 1 (length (sort_func spans) - 1)) tt).
Proof.
  unfold validateEntrySections.
  rewrite (for_n_collect (section_err (readerSize r) d te) (section_span d)).
  - simpl app. destruct (first_err (section_err _ _ _) _ _); [done|].
    cbn [err_or]. go_simp. apply check_overlaps_eq.
  - intros i acc Hi. apply (check_section_eq _ _ n); [done|lia].
Qed.

Lemma section_err_None hs i :
  section_err hs d te i = None
  <-> te <= dir_offset d i /\ forall size, hs = Some size -> section_end d i <= size.
Proof.
  unfold section_err. destruct (Z.ltb_spec (dir_offset d i) te); [split; [done|lia]|].
  destruct hs as [size|]; [|naive_solver].
  destruct (Z.ltb_spec size (section_end d i)); split; try done.
  - intros [_ Hs]. specialize (Hs size eq_refl). lia.
  - intros _. split; [lia|]. by intros ? [= <-].
Qed.

Lemma apart_sections i j :
  (forall x y, x ∈ section_span d i -> y ∈ section_span d j -> apart x y)
  <-> (0 < dir_length d i -> 0 < dir_length d j ->
       section_end d i <= dir_offset d j \/ section_end d j <= dir_offset d i).
Proof.
  unfold section_span. destruct (Z.ltb_spec 0 (dir_length d i)), (Z.ltb_spec 0 (dir_length d j));
    (split; [|intros Hs x y Hx Hy; try by apply elem_of_nil in Hx; try by apply elem_of_nil in Hy]); try lia.
  - intros Hs _ _. apply (Hs (mkSpan _ _) (mkSpan _ _)); by left.
  - apply list_elem_of_singleton in Hx as ->, Hy as ->. by apply Hs.
  - by apply elem_of_nil in Hy.
Qed.

(** Acceptance is always sound; it is exact when no section end wraps. *)
Lemma validateEntrySections_sound :
  validateEntrySections r d n te = Ok tt -> sections_ok (readerSize r) d n te.
Proof.
  rewrite validateEntrySections_eq.
  destruct (first_err (section_err _ _ _) _ _) eqn:E1; [done|]. cbn [err_or]. go_simp.
  destruct (first_err (overlap_err _) _ _) eqn:E2; [done|]. intros _.
  rewrite first_err_None in E1.
  apply overlaps_adjacent in E2; [|apply sort_func_sorted].
  apply before_apart, (ForallOrdPairs_apart_perm _ _ (sort_func_perm _)) in E2.
  constructor.
  - intros i Hi. by apply (section_err_None (readerSize r)), E1; lia.
  - intros i size Hi Hs. by apply (section_err_None (readerSize r)); [apply E1; lia|].
  - intros i j Hi Hij Hj. apply apart_sections. intros x y.
    apply (collect_apart _ _ _ E2); lia.
Qed.

Lemma validateEntrySections_later i j :
  validateEntrySections r d n te = Ok tt -> 0 <= i < n -> 0 <= j < n ->
  0 < dir_length d i -> 0 < dir_length d j -> dir_offset d i < dir_offset d j ->
  section_end d i <= dir_offset d j.
Proof.
  rewrite validateEntrySections_eq.
  destruct (first_err (section_err _ _ _) _ _) eqn:E1; [done|]. cbn [err_or]. go_simp.
  destruct (first_err (overlap_err _) _ _) eqn:E2; [done|]. intros _ Hi Hj Hli Hlj Hlt.
  apply overlaps_adjacent in E2; [|apply sort_func_sorted].
  assert (forall k, 0 <= k < n -> 0 < dir_length d k ->
    mkSpan (dir_offset d k) (section_end d k) ∈ sort_func (collect (section_span d) 0 (Z.to_nat n))) as Hin.
  { intros k Hk Hl. rewrite (sort_func_perm _). apply elem_of_collect. exists k. split; [lia|].
    unfold section_span. destruct (Z.ltb_spec 0 (dir_length d k)); [by left|lia]. }
  exact (before_later _ (mkSpan _ (section_end d i)) (mkSpan _ (section_end d j))
    (sort_func_sorted _) E2 (Hin i Hi Hli) (Hin j Hj Hlj) Hlt).
Qed.

Lemma validateEntrySections_valid :
  0 <= te -> validateEntrySections r d n te = Ok tt -> sections_valid (readerSize r) d n te.
Proof.
  intros Hte Hv. destruct (validateEntrySections_sound Hv) as [H1 H2 H3].
  assert (forall i, 0 <= i < n -> section_stop d i < 2 ^ 63 -> section_end d i = section_stop d i) as Hfit.
  { intros i Hi. apply section_end_fits; [specialize (H1 i Hi); lia|].
    pose proof (dir_count_range _ _ Hd i Hi). unfold dir_length, entrySize. lia. }
  constructor; [done| | |].
  - intros i size Hi Hs Hf. rewrite <- Hfit by done. by apply H2.
  - intros i j Hi Hj Hli Hlj Hf Hlt. rewrite <- Hfit by done. by apply validateEntrySections_later.
  - assert (forall i j k, 0 <= i < n -> 0 <= j < n -> section_stop d i < 2 ^ 63 -> section_stop d j < 2 ^ 63 ->
      dir_offset d i <= k < section_stop d i -> dir_offset d j <= k < section_stop d j -> ~ i < j) as Hne.
    { intros i j k Hi Hj Hfi Hfj Hki Hkj Hlt. specialize (H3 i j ltac:(lia) Hlt ltac:(lia)).
      rewrite !Hfit in H3 by done. unfold section_stop in *. lia. }
    intros i j k Hi Hj Hfi Hfj Hki Hkj.
    pose proof (Hne i j k Hi Hj Hfi Hfj Hki Hkj). pose proof (Hne j i k Hj Hi Hfj Hfi Hkj Hki). lia.
Qed.

Lemma validateEntrySections_complete :
  (forall i, 0 <= i < n -> dir_offset d i + dir_length d i < 2 ^ 63) -> 0 <= te ->
  sections_ok (readerSize r) d n te -> validateEntrySections r d n te = Ok tt.
Proof.
  intros Hw Hte [H1 H2 H3]. rewrite validateEntrySections_eq.
  replace (first_err (section_err _ _ _) _ _) with (@None error).
  2: { symmetry. apply first_err_None. intros i Hi. apply section_err_None.
       split; [apply H1; lia|]. intros size. apply H2; lia. }
  cbn [err_or]. go_simp. set (l := collect _ _ _).
  replace (first_err (overlap_err _) _ _) with (@None error); [done|].
  symmetry. apply overlaps_adjacent; [apply sort_func_sorted|].
  apply before_apart_sorted; [apply sort_func_sorted| |].
  - rewrite Forall_forall. intros x Hx. rewrite (sort_func_perm l) in Hx.
    apply elem_of_collect in Hx as (i & Hi & Hx). unfold section_span in Hx.
    destruct (Z.ltb_spec 0 (dir_length d i)); [|by apply elem_of_nil in Hx].
    apply list_elem_of_singleton in Hx as ->. simpl. specialize (H1 i ltac:(lia)).
    unfold section_end. rewrite i64_small; [lia|]. specialize (Hw i ltac:(lia)). lia.
  - apply (ForallOrdPairs_apart_perm l); [by rewrite sort_func_perm|].
    apply apart_collect; [apply section_span_short|].
    intros i j x y Hi Hij Hj Hx Hy. revert x y Hx Hy. apply apart_sections.
    apply H3; lia.
Qed.

End Sections.

(** ** [NewIndexFromReader] *)
Definition num_filenames (content : bytes) : Z := be_decode (sub content 8 2).
Definition num_logs (content : bytes) : Z := be_decode (sub content 10 4).
Definition tables_len (content : bytes) : Z :=
  num_filenames content * filenameSize + num_logs content * logDirEntrySize.
Definition names_table (content : bytes) : bytes :=
  sub content headerSize (num_filenames content * filenameSize).
Definition directory (content : bytes) : bytes :=
  sub content (headerSize + num_filenames content * filenameSize)
    (num_logs content * logDirEntrySize).
Definition index_names (content : bytes) : list bytes :=
  collect (fun i => [slot_name (names_table content) i]) 0 (Z.to_nat (num_filenames content)).

(** The files the code takes for well-formed indexes; [accepted] leaves out the
    section checks. *)
Record accepted (content : bytes) : Prop := {
  ac_magic : sub content 0 8 = indexMagic;
  ac_len : headerSize + tables_len content <= blen content;
  ac_names i : 0 <= i < num_filenames content ->
    valid_filename (slot_name (names_table content) i);
  ac_sorted : sorted_dir (directory content) (num_logs content)
}.

Lemma num_filenames_range content : 10 <= blen content -> 0 <= num_filenames content < 65536.
Proof.
  intros H. unfold num_filenames. pose proof (be_decode_range (sub content 8 2)) as R.
  rewrite length_sub in R by lia. exact R.
Qed.

Lemma num_logs_range content : 14 <= blen content -> 0 <= num_logs content < 2 ^ 32.
Proof.
  intros H. unfold num_logs. pose proof (be_decode_range (sub content 10 4)) as R.
  rewrite length_sub in R by lia. exact R.
Qed.

(** The result on a reader that serves [content]: the whole constructor after the
    section validation. *)
Lemma NewIndexFromReader_eq `{AllocPolicy} `{SpanSort} content r c :
  serves content r -> headerSize <= blen content -> sub content 0 8 = indexMagic ->
  headerSize + tables_len content <= blen content ->
  NewIndexFromReader r c
  = (names ← err_or (first_err (filename_err (names_table content)) 0 (Z.to_nat (num_filenames content)))
               (index_names content);
     _ ← validateLogDirOrder (directory content) (num_logs content);
     _ ← validateEntrySections r (directory content) (num_logs content)
           (headerSize + tables_len content);
     Ok (mkIndex names (directory content) (num_logs content) r c)).
Proof.
  intros Hr Hh Hm Hlen. unfold NewIndexFromReader.
  assert (blen (sub content 0 headerSize) = headerSize) as Hhl
    by (unfold blen at 1; rewrite length_sub; unfold headerSize in *; lia).
  rewrite (readFullAt_serves content) by (done || unfold headerSize; lia).
  destruct (Z.ltb_spec (blen (sub content 0 headerSize)) headerSize); [lia|]. go_simp.
  unfold headerSize in *. rewrite !slice_in_range by lia. go_simp.
  rewrite !sub_sub by lia. change (0 + 0) with 0. change (8 - 0) with 8. change (0 + 8) with 8.
  change (10 - 8) with 2. change (0 + 10) with 10. change (14 - 10) with 4.
  rewrite Hm, bool_decide_true by done. go_simp.
  fold (num_filenames content). fold (num_logs content). fold (tables_len content).
  pose proof (num_filenames_range content ltac:(lia)) as Hnf.
  pose proof (num_logs_range content ltac:(lia)) as Hnl.
  unfold tables_len, filenameSize, logDirEntrySize in *.
  rewrite (read_section_serves content) by (done || lia). go_simp.
  set (tl := num_filenames content * 32 + num_logs content * (32 + 8 + 2)) in *.
  assert (blen (sub content (8 + 2 + 4) tl) = tl) as Htl
    by (unfold blen at 1; rewrite length_sub; lia).
  rewrite Htl, Z.eqb_refl. go_simp. rewrite !slice_in_range by lia. go_simp.
  rewrite !sub_sub by lia.
  replace (sub content (8 + 2 + 4 + 0) (num_filenames content * 32 - 0)) with (names_table content)
    by (unfold names_table, headerSize, filenameSize; f_equal; lia).
  replace (sub content (8 + 2 + 4 + num_filenames content * 32) (tl - num_filenames content * 32))
    with (directory content)
    by (unfold directory, headerSize, filenameSize, logDirEntrySize; f_equal; lia).
  rewrite (for_n_collect (filename_err (names_table content))
             (fun i => [slot_name (names_table content) i])); [done|].
  intros i acc Hi. apply (read_filename_eq _ (num_filenames content)); [|lia].
  unfold names_table, blen, headerSize, filenameSize in *. rewrite length_sub; unfold blen in *; lia.
Qed.

Lemma readFullAt_len r n off b : 0 <= n -> readFullAt r n off = Ok b -> blen b = n.
Proof.
  intros Hn. unfold readFullAt. pose proof (ReadAt_bound r n off Hn) as Hb.
  destruct (ReadAt r n off) as [b' [e|]]; simpl in Hb.
  - destruct (is_EOF e && (blen b' =? n)) eqn:E; [|done]. intros [= <-].
    apply andb_true_iff in E as [_ E]. by apply Z.eqb_eq.
  - destruct (Z.ltb_spec (blen b') n); [done|]. intros [= <-]. lia.
Qed.

Lemma readFullAt_no_panic r n off : no_panic (readFullAt r n off).
Proof.
  unfold readFullAt. destruct (ReadAt r n off) as [b [e|]]; case_match; by split.
Qed.

Definition is_invalid_index (e : error) : Prop := errors_Is e "upki: invalid index" = true.

Lemma wrapped_fails {A} (r : result A) fmt (args : error -> list errarg) :
  (forall e, is_invalid_index (Errorf fmt (args e))) -> no_panic r ->
  fails_with is_invalid_index (wrap_err (fun e => Errorf fmt (args e)) r).
Proof. intros Hf [H1 H2]. destruct r; simpl; auto. Qed.

Lemma err_or_fails {A} (bad : Z -> option error) lo n (a : A) :
  (forall i e, bad i = Some e -> is_invalid_index e) ->
  fails_with is_invalid_index (err_or (first_err bad lo n) a).
Proof.
  intros H. destruct (first_err bad lo n) eqn:E; [|done].
  apply first_err_Some in E as (i & _ & E). by eapply H.
Qed.

Lemma filename_err_invalid buf i e : filename_err buf i = Some e -> is_invalid_index e.
Proof. unfold filename_err. case_match; intros [= <-]. done. Qed.
Lemma order_err_invalid d i e : order_err d i = Some e -> is_invalid_index e.
Proof. unfold order_err. case_match; by intros [= <-]. Qed.
Lemma section_err_invalid hs d te i e : section_err hs d te i = Some e -> is_invalid_index e.
Proof. unfold section_err. repeat case_match; by intros [= <-]. Qed.
Lemma overlap_err_invalid l i e : overlap_err l i = Some e -> is_invalid_index e.
Proof. unfold overlap_err. repeat case_match; by intros [= <-]. Qed.
Lemma entry_err_invalid names sec i e : entry_err names sec i = Some e -> is_invalid_index e.
Proof. unfold entry_err. case_match; by intros [= <-]. Qed.

Section AnyReader.
Context `{AllocPolicy} `{SpanSort} (r : ReaderAt) (c : option Closer).

(** The constructor on any reader, its slices in range. *)
Lemma NewIndexFromReader_unfold :
  NewIndexFromReader r c
  = (header ← wrap_err (fun err => Errorf "%w: read header: %w" [AErr errInvalidIndex; AErr err])
                (readFullAt r headerSize 0);
     _ ← check_that (bool_decide (sub header 0 8 = indexMagic))
           (Errorf "%w: bad magic" [AErr errInvalidIndex]);
     tables ← wrap_err (fun err => Errorf "%w: read tables: %w" [AErr errInvalidIndex; AErr err])
                (read_section r headerSize (tables_len header));
     _ ← check_that (blen tables =? tables_len header)
           (Errorf "%w: read tables: %w" [AErr errInvalidIndex; AErr ErrUnexpectedEOF]);
     let buf := sub tables 0 (num_filenames header * filenameSize) in
     let dir := sub tables (num_filenames header * filenameSize)
                  (num_logs header * logDirEntrySize) in
     names ← err_or (first_err (filename_err buf) 0 (Z.to_nat (num_filenames header)))
               (collect (fun i => [slot_name buf i]) 0 (Z.to_nat (num_filenames header)));
     _ ← validateLogDirOrder dir (num_logs header);
     _ ← validateEntrySections r dir (num_logs header) (headerSize + tables_len header);
     Ok (mkIndex names dir (num_logs header) r c)).
Proof.
  unfold NewIndexFromReader.
  destruct (readFullAt r headerSize 0) as [header|e| |] eqn:Eh; [|done..].
  apply readFullAt_len in Eh; [|done]. cbn [wrap_err]. go_simp.
  unfold headerSize in *. rewrite !slice_in_range by lia. go_simp.
  change (8 - 0) with 8. change (10 - 8) with 2. change (14 - 10) with 4.
  fold (num_filenames header). fold (num_logs header). fold (tables_len header).
  destruct (bool_decide _); [|done]. go_simp.
  destruct (read_section _ _ _) as [tables|e| |]; [|done..]. go_simp.
  destruct (Z.eqb_spec (blen tables) (tables_len header)) as [Ht|]; [|done]. go_simp.
  pose proof (num_filenames_range header ltac:(lia)). pose proof (num_logs_range header ltac:(lia)).
  unfold tables_len, filenameSize, logDirEntrySize in *.
  rewrite !slice_in_range by lia. go_simp. rewrite Ht, Z.sub_0_r.
  replace (num_filenames header * 32 + num_logs header * (32 + 8 + 2) - num_filenames header * 32)
    with (num_logs header * (32 + 8 + 2)) by lia.
  rewrite (for_n_collect (filename_err (sub tables 0 (num_filenames header * 32)))
    (fun i => [slot_name (sub tables 0 (num_filenames header * 32)) i])); [done|].
  intros i acc Hi. apply (read_filename_eq _ (num_filenames header)); [|lia].
  unfold blen, filenameSize in *. rewrite length_sub; unfold blen in *; lia.
Qed.

(** Whatever the reader, an index that is constructed is well formed. *)
Lemma NewIndexFromReader_sound idx :
  NewIndexFromReader r c = Ok idx ->
  wf_index idx /\ idx_r idx = r /\ closer idx = c
  /\ sections_valid (readerSize r) (logDir idx) (numLogs idx)
       (headerSize + blen (filenames idx) * filenameSize + blen (logDir idx)).
Proof.
  rewrite NewIndexFromReader_unfold. intros Hidx.
  apply bind_Ok in Hidx as (header & Eh & Hidx). apply wrap_err_Ok, readFullAt_len in Eh; [|done].
  apply bind_Ok in Hidx as (u1 & _ & Hidx). apply bind_Ok in Hidx as (tables & _ & Hidx).
  apply bind_Ok in Hidx as (u2 & Ht & Hidx). apply check_that_Ok, Z.eqb_eq in Ht. cbv zeta in Hidx.
  apply bind_Ok in Hidx as (names & En & Hidx). apply bind_Ok in Hidx as (u3 & Es & Hidx).
  apply bind_Ok in Hidx as (u4 & Ee & Hidx). injection Hidx as <-. destruct u4.
  unfold headerSize in Eh.
  pose proof (num_filenames_range header ltac:(lia)) as Hnf.
  pose proof (num_logs_range header ltac:(lia)) as Hnl.
  set (dir := sub tables (num_filenames header * filenameSize) _) in *.
  assert (blen dir = num_logs header * logDirEntrySize) as Hdir.
  { subst dir. unfold tables_len, blen, filenameSize, logDirEntrySize in *.
    rewrite length_sub; unfold blen; lia. }
  set (buf := sub tables 0 _) in *.
  destruct (first_err (filename_err buf) _ _) eqn:Ef; [done|]. injection En as <-.
  rewrite first_err_None in Ef.
  assert (blen (collect (fun i => [slot_name buf i]) 0 (Z.to_nat (num_filenames header)))
          = num_filenames header) as Hnames.
  { unfold blen. rewrite length_collect1 by done. lia. }
  apply validateEntrySections_valid in Ee;
    [|done|unfold headerSize, tables_len, filenameSize, logDirEntrySize; lia].
  assert (headerSize + tables_len header
          = headerSize + num_filenames header * filenameSize + blen dir) as Hte
    by (unfold tables_len; lia).
  split; [|split; [done|split; [done|]]]; simpl.
  - constructor; simpl; [done|done| | |lia|].
    + by apply validateLogDirOrder_Ok in Es; [|lia|].
    + rewrite Forall_forall. intros x Hx. apply elem_of_collect in Hx as (i & Hi & Hx).
      apply list_elem_of_singleton in Hx as ->. apply filename_err_None, Ef. lia.
    + intros i Hi. rewrite Hnames, <- Hte. by apply (sv_start _ _ _ _ Ee).
  - rewrite Hnames, <- Hte. done.
Qed.

(** Every failure is the invalid-index error, and nothing panics or loops. *)
Lemma NewIndexFromReader_fails :
  progresses r -> fails_with is_invalid_index (NewIndexFromReader r c).
Proof.
  intros Hr. rewrite NewIndexFromReader_unfold.
  apply fails_bind; [apply wrapped_fails; [done|apply readFullAt_no_panic]|].
  intros header Eh. apply wrap_err_Ok, readFullAt_len in Eh; [|done]. unfold headerSize in Eh.
  pose proof (num_filenames_range header ltac:(lia)) as Hnf.
  pose proof (num_logs_range header ltac:(lia)) as Hnl.
  apply fails_bind; [by apply fails_check|intros _ _].
  apply fails_bind.
  { apply wrapped_fails; [done|]. apply read_section_no_panic; [done|].
    unfold tables_len, filenameSize, logDirEntrySize. lia. }
  intros tables _. apply fails_bind; [by apply fails_check|].
  intros u Ht. apply check_that_Ok, Z.eqb_eq in Ht. cbv zeta.
  set (dir := sub tables (num_filenames header * filenameSize) _).
  assert (blen dir = num_logs header * logDirEntrySize) as Hdir.
  { subst dir. unfold tables_len, blen, filenameSize, logDirEntrySize in *.
    rewrite length_sub; unfold blen; lia. }
  apply fails_bind; [apply err_or_fails; intros i e; apply filename_err_invalid|].
  intros names _. apply fails_bind.
  { rewrite validateLogDirOrder_eq by (done || lia). apply err_or_fails. intros i e. apply order_err_invalid. }
  intros _ _. apply fails_bind; [|intros; exact I].
  rewrite (validateEntrySections_eq r dir (num_logs header)) by done.
  apply fails_bind; [apply err_or_fails; intros i e; apply section_err_invalid|].
  intros spans _. apply err_or_fails. intros i e. apply overlap_err_invalid.
Qed.

End AnyReader.

(** ** Lookups on a constructed index *)
Lemma Lookup_fails idx id ts :
  wf_index idx -> length id = 32%nat -> fails_with is_invalid_index (Lookup idx id ts).
Proof.
  intros Hwf Hid. unfold Lookup. rewrite findLog_eq by done. go_simp.
  destruct Hwf as [Hn Hd Hs Hf Hfl Ho].
  destruct (dir_find _ _ _) as [i|] eqn:E; [|done]. simpl option_map. cbv iota.
  assert (0 <= i < numLogs idx) as Hi.
  { unfold dir_find in E. apply find_some in E as [E _]. apply list_elem_of_In, elem_of_seqZ in E. lia. }
  rewrite !(dir_slice _ (numLogs idx)) by (done || lia || (unfold logDirEntrySize; lia)). go_simp.
  change (42 - 40) with 2. fold (dir_count (logDir idx) i).
  pose proof (dir_count_range _ _ Hd i Hi) as Hc.
  apply fails_bind; [apply wrapped_fails; [done|apply readFullAt_no_panic]|].
  intros sec Hsec. apply wrap_err_Ok, readFullAt_len in Hsec; [|unfold entrySize; lia].
  rewrite (for_n_collect (entry_err (filenames idx) sec) (entry_names (filenames idx) sec ts)).
  - apply err_or_fails. intros j e. apply entry_err_invalid.
  - intros j acc Hj. apply (lookup_entry_eq _ _ _ (dir_count (logDir idx) i)); [done|lia].
Qed.

(** The names returned are in the filename table. *)
Lemma Lookup_names idx id ts names name :
  wf_index idx -> length id = 32%nat ->
  Lookup idx id ts = Ok names -> name ∈ names -> name ∈ filenames idx.
Proof.
  intros Hwf Hid HL Hin. unfold Lookup in HL. rewrite findLog_eq in HL by done. go_simp.
  destruct (dir_find _ _ _) as [i|] eqn:E; [|by injection HL as <-; apply elem_of_nil in Hin].
  simpl in HL. apply bind_Ok in HL as (ob & _ & HL). apply bind_Ok in HL as (cb & _ & HL).
  apply bind_Ok in HL as (sec & _ & HL).
  refine (for_n_inv (fun _ acc => forall x, x ∈ acc -> x ∈ filenames idx) _ _ _ _ _ _ _ HL name Hin);
    [|by intros x Hx; apply elem_of_nil in Hx].
  intros j acc acc' _ Hacc Hb x Hx. unfold lookup_entry in Hb. inv_binds Hb.
  destruct (_ <=? _); [done|]. inv_binds Hb. destruct (_ || _); [injection Hb as <-; by apply Hacc|].
  inv_binds Hb. injection Hb as <-. apply elem_of_app in Hx as [Hx|Hx]; [by apply Hacc|].
  apply list_elem_of_singleton in Hx as ->.
  match goal with E : index _ _ = Ok _ |- _ => apply index_Ok in E as [_ E];
    by apply list_elem_of_lookup_2 in E end.
Qed.

(** What no accepted file name can contain or be. *)
Definition path_safe (name : bytes) : Prop :=
  1 <= blen name <= 32 /\ name <> go_string "." /\ name <> go_string ".."
  /\ forall c, c ∈ name -> byte_val c <> 0 /\ byte_val c <> 47 /\ byte_val c <> 92
                           /\ 45 <= byte_val c <= 122.

Lemma valid_filename_safe name : valid_filename name -> path_safe name.
Proof.
  intros (Hl & H1 & H2 & HF). split; [done|]. split; [done|]. split; [done|].
  rewrite Forall_forall in HF. intros c Hc. specialize (HF c Hc).
  unfold filename_byte_ok in HF. lia.
Qed.

(** What an index constructed from a fixed content is. *)
Lemma NewIndexFromReader_content `{AllocPolicy} `{SpanSort} content r c idx :
  serves content r -> NewIndexFromReader r c = Ok idx ->
  accepted content
  /\ sections_ok (readerSize r) (directory content) (num_logs content)
       (headerSize + tables_len content)
  /\ idx = mkIndex (index_names content) (directory content) (num_logs content) r c.
Proof.
  intros Hr Hidx. assert (headerSize <= blen content /\ sub content 0 8 = indexMagic
    /\ headerSize + tables_len content <= blen content) as (Hh & Hm & Hl).
  { rewrite NewIndexFromReader_unfold in Hidx.
    apply bind_Ok in Hidx as (header & Eh & Hidx). apply wrap_err_Ok in Eh.
    rewrite (readFullAt_serves content) in Eh by done.
    destruct (Z.ltb_spec (blen (sub content 0 headerSize)) headerSize) as [|Hh]; [done|].
    injection Eh as <-. assert (headerSize <= blen content) as Hc
      by (unfold sub, headerSize, blen in *; rewrite length_take, length_drop in Hh; lia).
    unfold num_filenames, num_logs, tables_len, num_filenames, num_logs in Hidx.
    unfold headerSize in *. rewrite !sub_sub in Hidx by lia.
    apply bind_Ok in Hidx as (u & Em & Hidx). apply check_that_Ok, bool_decide_eq_true in Em.
    split; [done|]. split; [done|].
    apply bind_Ok in Hidx as (tables & Et & Hidx). apply wrap_err_Ok in Et.
    apply bind_Ok in Hidx as (u2 & El & _). apply check_that_Ok, Z.eqb_eq in El.
    change (0 + 8) with 8 in *. change (0 + 10) with 10 in *.
    fold (num_filenames content) in *. fold (num_logs content) in *. fold (tables_len content) in *.
    pose proof (num_filenames_range content ltac:(lia)). pose proof (num_logs_range content ltac:(lia)).
    assert (0 <= tables_len content < 2 ^ 62)
      by (unfold tables_len, filenameSize, logDirEntrySize; lia).
    rewrite (read_section_serves content) in Et by (done || lia). injection Et as <-.
    unfold sub, blen in El. rewrite length_take, length_drop in El. unfold blen in *. lia. }
  rewrite (NewIndexFromReader_eq content) in Hidx by done.
  assert (blen (directory content) = num_logs content * logDirEntrySize) as Hd.
  { pose proof (num_filenames_range content ltac:(unfold headerSize in *; lia)).
    pose proof (num_logs_range content ltac:(unfold headerSize in *; lia)).
    unfold directory, tables_len, blen, headerSize, filenameSize, logDirEntrySize in *.
    rewrite length_sub; unfold blen; lia. }
  apply bind_Ok in Hidx as (names & En & Hidx). apply bind_Ok in Hidx as ([] & Es & Hidx).
  apply bind_Ok in Hidx as ([] & Ee & Hidx). injection Hidx as <-.
  destruct (first_err (filename_err _) _ _) eqn:Ef; [done|]. injection En as <-.
  rewrite first_err_None in Ef.
  pose proof (num_logs_range content ltac:(unfold headerSize in *; lia)).
  split; [|split; [|done]].
  - constructor; [done|done| |].
    + intros i Hi. apply filename_err_None, Ef. lia.
    + by apply validateLogDirOrder_Ok in Es; [|lia|].
  - by apply validateEntrySections_sound in Ee; [|done].
Qed.

(** Every well-formed file is accepted. *)
Lemma NewIndexFromReader_complete `{AllocPolicy} `{SpanSort} (content : bytes) (r : ReaderAt)
    (c : option Closer) :
  serves content r ->
  (forall i, 0 <= i < num_logs content ->
     dir_offset (directory content) i + dir_length (directory content) i < 2 ^ 63) ->
  accepted content ->
  sections_ok (readerSize r) (directory content) (num_logs content) (headerSize + tables_len content) ->
  NewIndexFromReader r c
  = Ok (mkIndex (index_names content) (directory content) (num_logs content) r c).
Proof.
  intros Hr Hw [Hm Hl Hf Hs] Hsec.
  assert (headerSize <= blen content) as Hh.
  { destruct (Z.le_gt_cases headerSize (blen content)) as [|Hgt]; [done|].
    assert (0 <= tables_len content); [|lia].
    unfold tables_len, num_filenames, num_logs, filenameSize, logDirEntrySize.
    pose proof (be_decode_range (sub content 8 2)). pose proof (be_decode_range (sub content 10 4)). lia. }
  unfold headerSize in Hh.
  pose proof (num_filenames_range content ltac:(lia)). pose proof (num_logs_range content ltac:(lia)).
  assert (blen (directory content) = num_logs content * logDirEntrySize) as Hd.
  { unfold directory, tables_len, blen, headerSize, filenameSize, logDirEntrySize in *.
    rewrite length_sub; unfold blen; lia. }
  rewrite (NewIndexFromReader_eq content) by done.
  replace (first_err _ _ _) with (@None error).
  2: { symmetry. apply first_err_None. intros i Hi. apply filename_err_None, Hf. lia. }
  cbn [err_or]. go_simp.
  rewrite (proj2 (validateLogDirOrder_Ok (directory content) (num_logs content) ltac:(lia) Hd tt)) by done. go_simp.
  rewrite validateEntrySections_complete; [done|done|done| |done].
  unfold headerSize, tables_len, filenameSize, logDirEntrySize. lia.
Qed.

(** ** Properties *)

(** C29. Whatever the reader returns, an index that is constructed satisfies the
    format's rules: the directory has the announced size and is strictly sorted by
    log id, every file name is valid, no section starts inside the tables; and the
    sections whose exact end is below 2^63 end within a known file size, share no byte
    with each other and end before any later non-empty section.  Of a section whose end
    is not below 2^63 only its start is checked ([sections_past_file]). *)
Theorem NewIndexFromReader_valid `{AllocPolicy} `{SpanSort} (r : ReaderAt)
    (c : option Closer) (idx : Index) :
  NewIndexFromReader r c = Ok idx ->
  wf_index idx
  /\ sections_valid (readerSize r) (logDir idx) (numLogs idx)
       (headerSize + blen (filenames idx) * filenameSize + blen (logDir idx)).
Proof. intros Hidx. by destruct (NewIndexFromReader_sound _ _ _ Hidx) as (? & _ & _ & ?). Qed.

(** C16. On a reader that serves [content], for every buffer policy of [io.ReadAll]
    and every unstable sort, when no section end exceeds 2^63 the constructor accepts
    exactly the well-formed files, and the index holds the file's own tables. *)
Theorem NewIndexFromReader_accepts `{AllocPolicy} `{SpanSort} (content : bytes) (r : ReaderAt)
    (c : option Closer) (idx : Index) :
  serves content r ->
  (forall i, 0 <= i < num_logs content ->
     dir_offset (directory content) i + dir_length (directory content) i < 2 ^ 63) ->
  NewIndexFromReader r c = Ok idx
  <-> accepted content
      /\ sections_ok (readerSize r) (directory content) (num_logs content)
           (headerSize + tables_len content)
      /\ idx = mkIndex (index_names content) (directory content) (num_logs content) r c.
Proof.
  intros Hr Hw. split.
  - by apply NewIndexFromReader_content.
  - intros (Ha & Hs & ->). by apply NewIndexFromReader_complete.
Qed.

(** C30. On any reader that makes progress, the constructor terminates without a
    panic and every failure matches errInvalidIndex; and a lookup in a constructed
    index, even if its reader then misbehaves, does the same. *)
Theorem NewIndexFromReader_errors `{AllocPolicy} `{SpanSort} (r : ReaderAt) (c : option Closer) :
  progresses r ->
  fails_with is_invalid_index (NewIndexFromReader r c)
  /\ forall idx id ts, NewIndexFromReader r c = Ok idx -> length id = 32%nat ->
       fails_with is_invalid_index (Lookup idx id ts).
Proof.
  intros Hr. split; [by apply NewIndexFromReader_fails|].
  intros idx id ts Hidx Hid. apply Lookup_fails; [|done].
  by destruct (NewIndexFromReader_sound _ _ _ Hidx).
Qed.

(** The hand-rolled binary search of a constructed index terminates without a
    panic and agrees with a linear scan: it returns the byte offset of the entry
    with the log id if there is one, and reports absence otherwise. *)
Theorem findLog_linear `{AllocPolicy} `{SpanSort} (r : ReaderAt) (c : option Closer)
    (idx : Index) (id : bytes) :
  NewIndexFromReader r c = Ok idx -> length id = 32%nat ->
  (exists i, 0 <= i < numLogs idx /\ dir_id (logDir idx) i = id
             /\ findLog idx id = Ok (Some (i * logDirEntrySize)))
  \/ ((forall i, 0 <= i < numLogs idx -> dir_id (logDir idx) i <> id)
      /\ findLog idx id = Ok None).
Proof.
  intros Hidx Hid. destruct (NewIndexFromReader_sound _ _ _ Hidx) as [Hwf _].
  rewrite findLog_eq by done. unfold dir_find.
  destruct (List.find _ _) as [i|] eqn:E.
  - left. apply find_some in E as [Hi E]. apply list_elem_of_In, elem_of_seqZ in Hi.
    apply bool_decide_eq_true in E. exists i. split; [lia|by split].
  - right. split; [|done]. intros i Hi Heq.
    assert (i ∈ seqZ 0 (numLogs idx)) as Hin%list_elem_of_In by (apply elem_of_seqZ; lia).
    apply (find_none _ _ E) in Hin. by apply bool_decide_eq_false in Hin.
Qed.

(** C28. On a file of fixed content, [Lookup] is the reference lookup: a linear
    search of the directory, then over the log's whole section either the first
    out-of-range filter index as an error, or the file names of the entries whose
    closed interval contains the timestamp, in entry order; a section that runs
    past the file is a read error. *)
Theorem Lookup_reference `{AllocPolicy} `{SpanSort} (content : bytes) (r : ReaderAt)
    (c : option Closer) (idx : Index) (id : bytes) (ts : Z) :
  NewIndexFromReader r c = Ok idx -> serves content r -> length id = 32%nat ->
  Lookup idx id ts = lookup_spec idx content id ts.
Proof.
  intros Hidx Hr Hid. destruct (NewIndexFromReader_sound _ _ _ Hidx) as (Hwf & Hir & _).
  apply Lookup_eq; [done|by rewrite Hir|done].
Qed.

(** C17. When [Lookup] succeeds it returns exactly the names of the covering filters:
    a name is returned iff some entry of the log's section refers to it and its
    interval contains the timestamp, and every returned name is safe to join to the
    cache directory: no separator, no NUL, not a directory reference. *)
Theorem Lookup_covering `{AllocPolicy} `{SpanSort} (content : bytes) (r : ReaderAt)
    (c : option Closer) (idx : Index) (id : bytes) (ts : Z) (names : list bytes) :
  NewIndexFromReader r c = Ok idx -> serves content r -> length id = 32%nat ->
  Lookup idx id ts = Ok names ->
  Forall path_safe names
  /\ forall name, name ∈ names <->
       exists i k, 0 <= i < numLogs idx /\ dir_id (logDir idx) i = id
         /\ 0 <= k < dir_count (logDir idx) i
         /\ let sec := sub content (dir_offset (logDir idx) i) (dir_length (logDir idx) i) in
            ent_min sec k <= ts <= ent_max sec k
            /\ filenames idx !! Z.to_nat (ent_filter sec k) = Some name.
Proof.
  intros Hidx Hr Hid HL. destruct (NewIndexFromReader_sound _ _ _ Hidx) as (Hwf & Hir & _).
  split.
  { rewrite Forall_forall. intros name Hin. apply valid_filename_safe.
    pose proof (wfi_filenames _ Hwf) as Hf. rewrite Forall_forall in Hf.
    apply Hf. by eapply Lookup_names. }
  rewrite (Lookup_eq _ content) in HL by (done || by rewrite Hir). unfold lookup_spec in HL.
  intros name. destruct (dir_find _ _ _) as [i|] eqn:E.
  2: { injection HL as <-. split; [intros Hn; by apply elem_of_nil in Hn|].
       intros (i & k & Hi & Hid' & _). by rewrite (dir_find_Some _ _ _ i) in E by (done || apply Hwf). }
  assert (0 <= i < numLogs idx /\ dir_id (logDir idx) i = id) as [Hi Hi'].
  { unfold dir_find in E. apply find_some in E as [E1 E2].
    apply list_elem_of_In, elem_of_seqZ in E1. apply bool_decide_eq_true in E2. split; [lia|done]. }
  fold (dir_length (logDir idx) i) in HL. set (sec := sub content _ _) in HL.
  destruct (_ <? _); [done|]. destruct (first_err _ _ _) eqn:Ef; [done|]. injection HL as <-.
  rewrite first_err_None in Ef. rewrite elem_of_collect.
  assert (forall k, 0 <= k < dir_count (logDir idx) i ->
    0 <= ent_filter sec k < blen (filenames idx)) as Hk.
  { intros k Hk. specialize (Ef k ltac:(lia)). unfold entry_err in Ef.
    destruct (Z.leb_spec (blen (filenames idx)) (ent_filter sec k)); [done|].
    split; [apply be_decode_range|lia]. }
  split.
  - intros (k & Hkr & Hn). exists i, k. split; [done|]. split; [done|]. split; [lia|].
    fold sec. unfold entry_names in Hn.
    destruct ((ent_min sec k <=? ts) && (ts <=? ent_max sec k)) eqn:Eb; [|by apply elem_of_nil in Hn].
    apply list_elem_of_singleton in Hn as ->. split; [lia|].
    destruct (index_in_range (filenames idx) (ent_filter sec k)) as (x & Hx & _); [apply Hk; lia|].
    by rewrite (nth_lookup_Some _ _ _ _ Hx).
  - intros (i' & k & Hi2 & Hid2 & Hkr & Hts & Hn).
    assert (i' = i) as -> by (rewrite (dir_find_Some _ _ _ i') in E by (done || apply Hwf); congruence).
    fold sec in Hts, Hn. exists k. split; [lia|]. unfold entry_names.
    replace ((ent_min sec k <=? ts) && (ts <=? ent_max sec k)) with true by lia.
    rewrite (nth_lookup_Some _ _ _ _ Hn). by left.
Qed.

(** C40. Which sections lie beyond the end of the file they are read from, and what
    becomes of them.  For a non-empty section of a constructed index, a lookup of its
    log fails at reading the entries exactly when the section, by its exact end, runs
    past the file.  When the reader reports its size, a section of a constructed index
    does so if and only if its end reaches 2^63: the sum [entryOffset + sectionLen] of
    the size check wraps around there. *)
Theorem sections_past_file `{AllocPolicy} `{SpanSort} (content : bytes) (r : ReaderAt)
    (c : option Closer) (idx : Index) (i ts : Z) :
  NewIndexFromReader r c = Ok idx -> serves content r ->
  0 <= i < numLogs idx -> 0 < dir_length (logDir idx) i ->
  (Lookup idx (dir_id (logDir idx) i) ts
   = Err (Errorf "%w: read entries: %w" [AErr errInvalidIndex; AErr EOF])
   <-> blen content < section_stop (logDir idx) i)
  /\ forall size, readerSize r = Some size -> blen content < 2 ^ 63 ->
       blen content < section_stop (logDir idx) i <-> 2 ^ 63 <= section_stop (logDir idx) i.
Proof.
  intros Hidx Hr Hi Hlen. destruct (NewIndexFromReader_sound _ _ _ Hidx) as (Hwf & Hir & _ & Hv).
  pose proof (wfi_offsets _ Hwf i Hi) as Ho.
  assert (0 <= dir_offset (logDir idx) i) as Ho'
    by (unfold headerSize, filenameSize, blen in *; lia).
  split.
  - rewrite (Lookup_eq _ content) by
      (done || (by rewrite Hir) || by apply (length_dir_id _ (numLogs idx)); [apply Hwf|]).
    unfold lookup_spec. rewrite (dir_find_Some _ _ _ i) by (done || apply Hwf).
    fold (dir_length (logDir idx) i). set (sec := sub content _ _).
    assert (blen sec < dir_length (logDir idx) i <-> blen content < section_stop (logDir idx) i) as <-.
    { subst sec. unfold section_stop, sub, blen in *. rewrite length_take, length_drop. lia. }
    destruct (Z.ltb_spec (blen sec) (dir_length (logDir idx) i)); [by split|].
    split; [|lia]. destruct (first_err _ _ _) as [e|] eqn:Ef; [|done]. simpl. intros [= ->].
    apply first_err_Some in Ef as (j & _ & Ef). unfold entry_err in Ef. by case_match.
  - intros size Hs Hb. split; [|lia]. intros Hpast.
    destruct (Z.le_gt_cases (2 ^ 63) (section_stop (logDir idx) i)) as [|Hlt]; [done|].
    pose proof (sv_size _ _ _ _ Hv i size Hi Hs Hlt) as Hle.
    pose proof (serves_size _ _ Hr) as Hsz. unfold readerSize in Hs. repeat case_match; simplify_eq; lia.
Qed.

(** ** Witnesses *)

(** Two filters, one log with two entries: the file the format documents. *)
Definition sample_log : bytes := replicate 32 Init.Byte.x0a.
Definition sample_slot (name : string) : bytes :=
  go_string name ++ replicate (32 - length (go_string name)) Init.Byte.x00.
Definition sample_entry (f mn mx : Z) : bytes := be_encode 2 f ++ be_encode 8 mn ++ be_encode 8 mx.
Definition sample_index : bytes :=
  indexMagic ++ be_encode 2 2 ++ be_encode 4 1
  ++ sample_slot "a.filter" ++ sample_slot "b.filter"
  ++ sample_log ++ be_encode 8 120 ++ be_encode 2 2
  ++ sample_entry 0 100 200 ++ sample_entry 1 150 300.

Definition sample_idx : Index :=
  mkIndex (index_names sample_index) (directory sample_index) 1 (bytes_reader sample_index) None.

Lemma sample_idx_opens : NewIndexFromReader (bytes_reader sample_index) None = Ok sample_idx.
Proof. vm_compute. reflexivity. Defined.

Lemma NewIndexFromReader_valid_witness : wf_index sample_idx /\ blen sample_index = 156.
Proof.
  split; [|vm_compute; reflexivity].
  exact (proj1 (NewIndexFromReader_valid _ _ _ sample_idx_opens)).
Defined.

Lemma NewIndexFromReader_accepts_witness : accepted sample_index.
Proof.
  refine (proj1 (proj1 (NewIndexFromReader_accepts sample_index _ None sample_idx
    (bytes_reader_serves _) _) sample_idx_opens)).
  intros i Hi. change (num_logs sample_index) with 1 in Hi.
  assert (i = 0) as -> by lia. vm_compute. reflexivity.
Defined.

Lemma NewIndexFromReader_errors_witness :
  fails_with is_invalid_index (NewIndexFromReader (bytes_reader (take 100 sample_index)) None).
Proof.
  apply (NewIndexFromReader_errors (bytes_reader (take 100 sample_index)) None).
  intros n off Hn. destruct (Z.lt_ge_cases off 0) as [Ho|Ho].
  - simpl. unfold bytes_ReadAt. by destruct (Z.ltb_spec off 0); [|lia].
  - by apply (serves_progresses _ _ (bytes_reader_serves _)).
Defined.

Lemma findLog_linear_witness :
  findLog sample_idx sample_log = Ok (Some 0) /\ findLog sample_idx (replicate 32 Init.Byte.x0b) = Ok None.
Proof.
  split.
  - destruct (findLog_linear _ _ _ sample_log sample_idx_opens eq_refl) as [(i & Hi & Hid & H)|[H _]].
    + change (numLogs sample_idx) with 1 in Hi. assert (i = 0) as -> by lia. exact H.
    + exfalso. apply (H 0); [split; vm_compute; (discriminate || reflexivity)|vm_compute; reflexivity].
  - destruct (findLog_linear _ _ _ (replicate 32 Init.Byte.x0b) sample_idx_opens eq_refl)
      as [(i & Hi & Hid & H)|[_ H]]; [|exact H].
    exfalso. change (numLogs sample_idx) with 1 in Hi. assert (i = 0) as -> by lia.
    vm_compute in Hid. discriminate Hid.
Defined.

Lemma Lookup_reference_witness :
  Lookup sample_idx sample_log 160 = Ok [go_string "a.filter"; go_string "b.filter"]
  /\ Lookup sample_idx sample_log 250 = Ok [go_string "b.filter"].
Proof.
  split; rewrite (Lookup_reference sample_index (bytes_reader sample_index) None sample_idx sample_log _
    sample_idx_opens (bytes_reader_serves _) eq_refl); vm_compute; reflexivity.
Defined.

Lemma Lookup_covering_witness : Forall path_safe [go_string "a.filter"; go_string "b.filter"].
Proof.
  refine (proj1 (Lookup_covering sample_index (bytes_reader sample_index) None sample_idx
    sample_log 160 _ sample_idx_opens (bytes_reader_serves _) eq_refl _)).
  vm_compute. reflexivity.
Defined.

(** A directory entry whose section starts at 2^63 - 1: its end wraps. *)
Definition wrapping_index : bytes :=
  indexMagic ++ be_encode 2 0 ++ be_encode 4 1
  ++ sample_log ++ be_encode 8 (2 ^ 63 - 1) ++ be_encode 2 1.

Definition wrapping_idx : Index :=
  mkIndex [] (directory wrapping_index) 1 (bytes_reader wrapping_index) None.

Lemma wrapping_idx_opens : NewIndexFromReader (bytes_reader wrapping_index) None = Ok wrapping_idx.
Proof. vm_compute. reflexivity. Qed.

Lemma sections_past_file_witness :
  NewIndexFromReader (bytes_reader wrapping_index) None = Ok wrapping_idx
  /\ readerSize (bytes_reader wrapping_index) = Some 56
  /\ blen wrapping_index < section_stop (logDir wrapping_idx) 0
  /\ Lookup wrapping_idx sample_log 0
     = Err (Errorf "%w: read entries: %w" [AErr errInvalidIndex; AErr EOF]).
Proof.
  split; [exact wrapping_idx_opens|]. split; [vm_compute; reflexivity|].
  destruct (sections_past_file wrapping_index (bytes_reader wrapping_index) None wrapping_idx 0 0
    wrapping_idx_opens (bytes_reader_serves _) ltac:(split; vm_compute; (discriminate || reflexivity))
    ltac:(vm_compute; reflexivity)) as [Hread Hsize].
  assert (blen wrapping_index < section_stop (logDir wrapping_idx) 0) as Hpast.
  { apply (Hsize 56); [vm_compute; reflexivity..|vm_compute; discriminate]. }
  split; [exact Hpast|]. exact (proj2 Hread Hpast).
Defined.

(** Two logs whose sections of one entry both start at 2^63 - 1: the overlap is not
    found either. *)
Definition overlapping_index : bytes :=
  indexMagic ++ be_encode 2 0 ++ be_encode 4 2
  ++ sample_log ++ be_encode 8 (2 ^ 63 - 1) ++ be_encode 2 1
  ++ replicate 32 Init.Byte.x0b ++ be_encode 8 (2 ^ 63 - 1) ++ be_encode 2 1.

Example overlapping_sections_accepted :
  is_ok (NewIndexFromReader (bytes_reader overlapping_index) None) = true.
Proof. vm_compute. reflexivity. Qed.
