(* ===== verification/Cryptobyte.v ===== *)
(** * The [cryptobyte.String] interface

    [golang.org/x/crypto/cryptobyte] is outside the repository: its operations are
    the fields of the class [Cryptobyte], parameters of every definition that uses
    them, and what its documentation promises is the class [CryptobyteLaws].  A
    [cryptobyte.String] is a byte slice; a read returns the value and the remaining
    bytes, [None] standing for a reported failure (after which no modelled caller
    looks at the string again).  [cryptobyte_ref] is an implementation of the
    interface that satisfies the laws. *)
From S2P Require Import Prelude.

(** [split_at n s]: the first [n] bytes and the rest, if there are that many. *)
Definition split_at (n : Z) (s : bytes) : option (bytes * bytes) :=
  if n <=? blen s then Some (take (Z.to_nat n) s, drop (Z.to_nat n) s) else None.

(** Big-endian unsigned read of [n] bytes. *)
Definition read_be (n : Z) (s : bytes) : option (Z * bytes) :=
  match split_at n s with Some (b, r) => Some (be_decode b, r) | None => None end.

(** A length prefix of [n] bytes, then that many bytes. *)
Definition read_prefixed (n : Z) (s : bytes) : option (bytes * bytes) :=
  match read_be n s with Some (l, r) => split_at l r | None => None end.

(** DER: the length octets of a definite length, minimal. *)
Definition der_length_size (n : Z) : nat :=
  if n <? 256 then 1 else if n <? 65536 then 2 else if n <? 16777216 then 3 else 4.
Definition der_length (n : Z) : bytes :=
  if n <? 128 then [byte_of_Z n]
  else byte_of_Z (128 + Z.of_nat (der_length_size n)) :: be_encode (der_length_size n) n.
Definition der (tag : Z) (contents : bytes) : bytes :=
  byte_of_Z tag :: der_length (blen contents) ++ contents.

Class Cryptobyte := {
  ReadUint8 : bytes -> option (Z * bytes);
  ReadUint16 : bytes -> option (Z * bytes);
  ReadUint32 : bytes -> option (Z * bytes);
  ReadUint64 : bytes -> option (Z * bytes);
  CopyBytes : Z -> bytes -> option (bytes * bytes);
  ReadUint8LengthPrefixed : bytes -> option (bytes * bytes);
  ReadUint16LengthPrefixed : bytes -> option (bytes * bytes);
  ReadASN1 : Z -> bytes -> option (bytes * bytes);
  PeekASN1Tag : Z -> bytes -> bool;
  Empty : bytes -> bool;
  (** [asn1.INTEGER], [asn1.OCTET_STRING], [asn1.SEQUENCE] and
      [asn1.Tag(0).Constructed().ContextSpecific()] *)
  asn1_INTEGER : Z;
  asn1_OCTET_STRING : Z;
  asn1_SEQUENCE : Z;
  asn1_Tag0_Constructed_ContextSpecific : Z
}.

(** The documented behaviour: fixed-width reads are big-endian and fail when the
    string is too short; the length-prefixed reads take that many bytes; [ReadASN1]
    reads the contents of a DER element with the given tag, and only that. *)
Class CryptobyteLaws (C : Cryptobyte) : Prop := {
  ReadUint8_spec s : ReadUint8 s = read_be 1 s;
  ReadUint16_spec s : ReadUint16 s = read_be 2 s;
  ReadUint32_spec s : ReadUint32 s = read_be 4 s;
  ReadUint64_spec s : ReadUint64 s = read_be 8 s;
  CopyBytes_spec n s : 0 <= n -> CopyBytes n s = split_at n s;
  ReadUint8LengthPrefixed_spec s : ReadUint8LengthPrefixed s = read_prefixed 1 s;
  ReadUint16LengthPrefixed_spec s : ReadUint16LengthPrefixed s = read_prefixed 2 s;
  ReadASN1_complete tag contents rest :
    0 <= tag < 256 -> tag `mod` 32 <> 31 -> blen contents < 2 ^ 31 ->
    ReadASN1 tag (der tag contents ++ rest) = Some (contents, rest);
  ReadASN1_sound tag s contents rest :
    0 <= tag < 256 ->
    ReadASN1 tag s = Some (contents, rest) -> s = der tag contents ++ rest;
  PeekASN1Tag_spec tag s :
    0 <= tag < 256 ->
    PeekASN1Tag tag s = match s with [] => false | b :: _ => byte_val b =? tag end;
  Empty_spec s : Empty s = (blen s =? 0);
  asn1_INTEGER_spec : asn1_INTEGER = 2;
  asn1_OCTET_STRING_spec : asn1_OCTET_STRING = 4;
  asn1_SEQUENCE_spec : asn1_SEQUENCE = 48;
  asn1_Tag0_spec : asn1_Tag0_Constructed_ContextSpecific = 160
}.

(** ** The builder

    [cryptobyte.Builder]: the output so far, to which every call appends.  The contents
    of a length-prefixed child that do not fit its prefix make [BytesOrPanic] panic. *)
Class Builder := {
  AddBytes : bytes -> bytes -> bytes;
  AddUint8 : bytes -> Z -> bytes;
  AddUint16 : bytes -> Z -> bytes;
  AddUint32 : bytes -> Z -> bytes;
  AddUint64 : bytes -> Z -> bytes;
  AddUint8LengthPrefixed : bytes -> bytes -> result bytes
}.

Class BuilderLaws (B : Builder) : Prop := {
  AddBytes_spec out v : AddBytes out v = out ++ v;
  AddUint8_spec out v : AddUint8 out v = out ++ be_encode 1 v;
  AddUint16_spec out v : AddUint16 out v = out ++ be_encode 2 v;
  AddUint32_spec out v : AddUint32 out v = out ++ be_encode 4 v;
  AddUint64_spec out v : AddUint64 out v = out ++ be_encode 8 v;
  AddUint8LengthPrefixed_spec out contents : blen contents < 256 ->
    AddUint8LengthPrefixed out contents = Ok (out ++ be_encode 1 (blen contents) ++ contents)
}.

#[export] Instance builder_ref : Builder := {
  AddBytes out v := out ++ v;
  AddUint8 out v := out ++ be_encode 1 v;
  AddUint16 out v := out ++ be_encode 2 v;
  AddUint32 out v := out ++ be_encode 4 v;
  AddUint64 out v := out ++ be_encode 8 v;
  AddUint8LengthPrefixed out contents :=
    if blen contents <? 256 then Ok (out ++ be_encode 1 (blen contents) ++ contents) else Panic
}.

#[export] Instance builder_ref_laws : BuilderLaws builder_ref.
Proof.
  constructor; try done. intros out contents H. simpl. by destruct (Z.ltb_spec (blen contents) 256); [|lia].
Qed.

(** ** A reference implementation *)
Definition read_der_length (s : bytes) : option (Z * bytes) :=
  match read_be 1 s with
  | None => None
  | Some (l, r) =>
      if l <? 128 then Some (l, r)
      else if (l <? 129) || (132 <? l) then None
      else match read_be (l - 128) r with
           | None => None
           | Some (n, r') => if (128 <=? n) && (Z.of_nat (der_length_size n) =? l - 128)
                             then Some (n, r') else None
           end
  end.

Definition read_der (tag : Z) (s : bytes) : option (bytes * bytes) :=
  match read_be 1 s with
  | None => None
  | Some (t, r) =>
      if t =? tag then
        match read_der_length r with
        | Some (n, r') => split_at n r'
        | None => None
        end
      else None
  end.

#[export] Instance cryptobyte_ref : Cryptobyte := {
  ReadUint8 := read_be 1;
  ReadUint16 := read_be 2;
  ReadUint32 := read_be 4;
  ReadUint64 := read_be 8;
  CopyBytes := split_at;
  ReadUint8LengthPrefixed := read_prefixed 1;
  ReadUint16LengthPrefixed := read_prefixed 2;
  ReadASN1 := read_der;
  PeekASN1Tag tag s := match s with [] => false | b :: _ => byte_val b =? tag end;
  Empty s := blen s =? 0;
  asn1_INTEGER := 2;
  asn1_OCTET_STRING := 4;
  asn1_SEQUENCE := 48;
  asn1_Tag0_Constructed_ContextSpecific := 160
}.

(** ** Lemmas on the reads *)
Lemma split_at_Some n s a r :
  0 <= n -> split_at n s = Some (a, r) <-> s = a ++ r /\ blen a = n.
Proof.
  intros Hn. unfold split_at, blen. split.
  - destruct (Z.leb_spec n (Z.of_nat (length s))); [|done]. intros [= <- <-].
    rewrite take_drop. split; [done|]. len.
  - intros [-> Ha]. rewrite length_app.
    destruct (Z.leb_spec n (Z.of_nat (length a + length r))); [|lia].
    rewrite take_app_length', drop_app_length' by lia. done.
Qed.

Lemma split_at_app (a r : bytes) : split_at (blen a) (a ++ r) = Some (a, r).
Proof. apply split_at_Some; [unfold blen; lia|done]. Qed.

Lemma split_at_neg_None n s : split_at n s = None -> blen s < n.
Proof. unfold split_at. destruct (Z.leb_spec n (blen s)); [done|lia]. Qed.

Lemma read_be_Some n s v r :
  0 <= n -> read_be n s = Some (v, r) <->
  s = be_encode (Z.to_nat n) v ++ r /\ 0 <= v < 256 ^ n.
Proof.
  intros Hn. unfold read_be. split.
  - destruct (split_at n s) as [[b r']|] eqn:E; [|done]. intros [= <- <-].
    apply split_at_Some in E as [-> Hb]; [|done]. unfold blen in Hb. subst n.
    rewrite Nat2Z.id, be_encode_decode. split; [done|]. apply be_decode_range.
  - intros [-> Hv].
    assert (split_at n (be_encode (Z.to_nat n) v ++ r) = Some (be_encode (Z.to_nat n) v, r)) as ->.
    { apply split_at_Some; [done|]. split; [done|]. unfold blen. rewrite length_be_encode. lia. }
    rewrite be_decode_encode, Z2Nat.id, Z.mod_small by lia. done.
Qed.

Lemma read_be_range n s v r : 0 <= n -> read_be n s = Some (v, r) -> 0 <= v < 256 ^ n.
Proof. intros Hn H. by apply read_be_Some in H as [_ ?]. Qed.

Lemma read_be_app n (v : Z) r :
  0 <= n -> 0 <= v < 256 ^ n -> read_be n (be_encode (Z.to_nat n) v ++ r) = Some (v, r).
Proof. intros. by apply read_be_Some. Qed.

Lemma read_be_None n s : 0 <= n -> read_be n s = None <-> blen s < n.
Proof.
  intros Hn. unfold read_be. unfold split_at. destruct (Z.leb_spec n (blen s)); split; try done; lia.
Qed.

Lemma read_prefixed_Some n s a r :
  0 <= n -> read_prefixed n s = Some (a, r) <->
  s = be_encode (Z.to_nat n) (blen a) ++ a ++ r /\ blen a < 256 ^ n.
Proof.
  intros Hn. unfold read_prefixed. split.
  - destruct (read_be n s) as [[l r']|] eqn:E; [|done].
    apply read_be_Some in E as [-> Hl]; [|done]. intros H.
    apply split_at_Some in H as [-> Ha]; [|lia]. subst l. split; [done|lia].
  - intros [-> Ha]. rewrite read_be_app by (unfold blen in *; lia). apply split_at_app.
Qed.

Lemma read_prefixed_app n (a r : bytes) :
  0 <= n -> blen a < 256 ^ n ->
  read_prefixed n (be_encode (Z.to_nat n) (blen a) ++ a ++ r) = Some (a, r).
Proof. intros. by apply read_prefixed_Some. Qed.

Lemma der_length_size_range n : (1 <= der_length_size n <= 4)%nat.
Proof. unfold der_length_size. repeat case_match; lia. Qed.

Lemma der_length_size_pow n : n < 2 ^ 32 -> n < 256 ^ Z.of_nat (der_length_size n).
Proof.
  intros H. unfold der_length_size.
  destruct (Z.ltb_spec n 256); [lia|]. destruct (Z.ltb_spec n 65536); [lia|].
  destruct (Z.ltb_spec n 16777216); lia.
Qed.

Lemma read_der_length_app n r :
  0 <= n < 2 ^ 31 -> read_der_length (der_length n ++ r) = Some (n, r).
Proof.
  intros Hn. unfold read_der_length, der_length. destruct (Z.ltb_spec n 128) as [Hs|Hs].
  - change ([byte_of_Z n] ++ r) with (byte_of_Z n :: r).
    assert (read_be 1 (byte_of_Z n :: r) = Some (n, r)) as ->.
    { apply read_be_Some; [lia|]. split; [|lia]. simpl. by rewrite Z.div_1_r. }
    destruct (Z.ltb_spec n 128); [done|lia].
  - pose proof (der_length_size_range n) as Hk. set (k := der_length_size n) in *.
    assert (read_be 1 ((byte_of_Z (128 + Z.of_nat k) :: be_encode k n) ++ r)
            = Some (128 + Z.of_nat k, be_encode k n ++ r)) as ->.
    { apply read_be_Some; [lia|]. split; [|lia]. simpl. by rewrite Z.div_1_r. }
    destruct (Z.ltb_spec (128 + Z.of_nat k) 128); [lia|].
    destruct (Z.ltb_spec (128 + Z.of_nat k) 129); [lia|].
    destruct (Z.ltb_spec 132 (128 + Z.of_nat k)); [lia|]. simpl orb. cbv iota.
    replace (128 + Z.of_nat k - 128) with (Z.of_nat k) by lia.
    rewrite <- (Nat2Z.id k) at 2. rewrite read_be_app.
    + destruct (Z.leb_spec 128 n); [|lia]. fold k. by rewrite Z.eqb_refl.
    + lia.
    + split; [lia|]. apply der_length_size_pow. lia.
Qed.

Lemma read_der_length_sound s n r :
  read_der_length s = Some (n, r) -> s = der_length n ++ r /\ 0 <= n.
Proof.
  unfold read_der_length. destruct (read_be 1 s) as [[l r1]|] eqn:E; [|done].
  apply read_be_Some in E as [-> Hl]; [|lia]. simpl be_encode. rewrite Z.div_1_r.
  destruct (Z.ltb_spec l 128) as [Hs|Hs].
  - intros [= <- <-]. unfold der_length. destruct (Z.ltb_spec l 128); [|lia]. split; [done|lia].
  - destruct ((l <? 129) || (132 <? l)) eqn:Eb; [done|].
    destruct (read_be (l - 128) r1) as [[m r2]|] eqn:E; [|done].
    apply read_be_Some in E as [-> Hm]; [|lia].
    destruct (Z.leb_spec 128 m); [|done]. simpl andb.
    destruct (Z.eqb_spec (Z.of_nat (der_length_size m)) (l - 128)) as [Hk|]; [|done].
    intros [= <- <-]. split; [|lia]. unfold der_length. destruct (Z.ltb_spec m 128); [lia|].
    replace (128 + Z.of_nat (der_length_size m)) with l by lia.
    replace (Z.to_nat (l - 128)) with (der_length_size m) by lia. done.
Qed.

#[export] Instance cryptobyte_ref_laws : CryptobyteLaws cryptobyte_ref.
Proof.
  constructor; try done; simpl.
  - intros tag contents rest Ht _ Hc. unfold read_der, der.
    simpl. rewrite <- app_assoc.
    assert (read_be 1 (byte_of_Z tag :: der_length (blen contents) ++ contents ++ rest)
            = Some (tag, der_length (blen contents) ++ contents ++ rest)) as ->.
    { apply read_be_Some; [lia|]. split; [|lia]. simpl. by rewrite Z.div_1_r. }
    rewrite Z.eqb_refl, read_der_length_app by (unfold blen in *; lia). apply split_at_app.
  - intros tag s contents rest Ht. unfold read_der.
    destruct (read_be 1 s) as [[t r]|] eqn:E; [|done].
    apply read_be_Some in E as [-> _]; [|lia]. simpl be_encode. rewrite Z.div_1_r.
    destruct (Z.eqb_spec t tag) as [->|]; [|done].
    destruct (read_der_length r) as [[n r']|] eqn:E; [|done].
    apply read_der_length_sound in E as [-> Hn]. intros H.
    apply split_at_Some in H as [-> Hc]; [|done]. subst n. unfold der.
    simpl. by rewrite <- app_assoc.
Qed.
