(* ===== verification/Clubcard.v ===== *)
(** * The clubcard membership query ([internal/clubcard.go])

    [Filter], [BlockMeta], [bytesToLimbs], [bitsXorIsZero] and [Filter.Contains]
    as the code writes them: [uint64] arithmetic wraps, an index out of range
    panics.  The second half states the query over GF(2), bit by bit, and proves
    that the word-level code computes it. *)
From S2P Require Import Prelude.

(** ** Data *)

(** W: the ribbon width in 64-bit limbs. *)
Definition W : Z := 4.

Record BlockMeta := mkBlockMeta {
  HOffset : Z;
  HModulus : Z;
  HRank : Z;
  GOffset : Z;
  GModulus : Z;
  Exceptions : gset bytes;
  Inverted : bool
}.

Record Filter := mkFilter {
  X : list (list Z);
  Y : list Z;
  Blocks : gmap bytes BlockMeta
}.

(** ** Operations *)

(** [bits.OnesCount64] *)
Fixpoint ones_from (n : nat) (lo x : Z) : Z :=
  match n with
  | O => 0
  | S m => Z.b2z (Z.testbit x lo) + ones_from m (lo + 1) x
  end.
Definition OnesCount64 (x : Z) : Z := ones_from 64 0 x.

Definition bytesToLimbs (a : bytes) : list Z :=
  [le_decode (sub a 0 8); le_decode (sub a 8 8);
   le_decode (sub a 16 8); le_decode (sub a 24 8)].

(** The body of the loop of [bitsXorIsZero], for word [i] of the column. *)
Definition xor_word (column : list Z) (limb shift : Z) (coef : list Z) (i r : Z) : result Z :=
  ci ← index column i;
  tmp ← (if negb (shift =? 0) && (u64 (i + 1) <? blen column)
         then cj ← index column (u64 (i + 1));
              Ok (Z.lor (Z.shiftr ci shift) (u64 (Z.shiftl cj (64 - shift))))
         else Ok (Z.shiftr ci shift));
  k ← index coef (u64 (i - limb));
  Ok (Z.lxor r (Z.land tmp k)).

Definition bitsXorIsZero (column : list Z) (rowOffset : Z) (coef : list Z) : result bool :=
  let limb := rowOffset `div` 64 in
  let shift := rowOffset `mod` 64 in
  let stop := Z.min (blen column) (u64 (limb + W)) in
  r ← for_n (Z.to_nat (stop - limb)) limb (xor_word column limb shift coef) 0;
  Ok (Z.land (OnesCount64 r) 1 =? 0).

(** The loop [for i := uint8(0); i < meta.HRank; i++] of [Contains]: [false] when
    some column rejects, which makes [Contains] return early. *)
Fixpoint columns_pass (f : Filter) (hRow : Z) (aLimbs : list Z) (n : nat) (i : Z)
    : result bool :=
  match n with
  | O => Ok true
  | S m =>
      col ← index (X f) i;
      z ← bitsXorIsZero col hRow aLimbs;
      if (z : bool) then columns_pass f hRow aLimbs m (i + 1) else Ok false
  end.

Definition Contains (f : Filter) (meta : BlockMeta) (a serial : bytes) : result bool :=
  if HModulus meta =? 0 then Ok (Inverted meta) else
  let aLimbs := bytesToLimbs a in
  low ← index aLimbs 0;
  let aLimbs := <[0%nat := Z.lor low 1]> aLimbs in
  t ← index aLimbs 3;
  let hRow := u64 (HOffset meta + t `mod` HModulus meta) in
  pass ← columns_pass f hRow aLimbs (Z.to_nat (HRank meta)) 0;
  if negb pass then Ok (Inverted meta) else
  gpass ← (if negb (GModulus meta =? 0)
           then bitsXorIsZero (Y f) (u64 (GOffset meta + t `mod` GModulus meta)) aLimbs
           else Ok true);
  if negb gpass then Ok (Inverted meta) else
  if bool_decide (serial ∈ Exceptions meta) then Ok (Inverted meta) else
  Ok (negb (Inverted meta)).

(** ** The query over GF(2) *)

(** Bit [k] of a bit-packed little-endian vector of 64-bit words; bits past the
    end are zero. *)
Definition vec_bit (v : list Z) (k : Z) : bool :=
  Z.testbit (nth (Z.to_nat (k `div` 64)) v 0) (k `mod` 64).

(** The sum over GF(2) of [f lo], ..., [f (lo + n - 1)]. *)
Fixpoint xorn (f : Z -> bool) (lo : Z) (n : nat) : bool :=
  match n with
  | O => false
  | S m => xorb (f lo) (xorn f (lo + 1) m)
  end.

(** The dot product of [coef] with the 256 bits of [column] from [row]. *)
Definition gf2_dot (column : list Z) (row : Z) (coef : list Z) : bool :=
  xorn (fun j => vec_bit column (row + j) && vec_bit coef j) 0 256.

(** The coefficient vector and the row hash of an element. *)
Definition coef_of (a : bytes) : list Z :=
  <[0%nat := Z.lor (le_decode (sub a 0 8)) 1]> (bytesToLimbs a).
Definition row_hash (a : bytes) : Z := le_decode (sub a 24 8).

(** The approximate filter: the first [HRank] columns are all orthogonal to the
    coefficients at the hashed row. *)
Definition approx_member (f : Filter) (meta : BlockMeta) (a : bytes) : bool :=
  forallb (fun col => negb (gf2_dot col (HOffset meta + row_hash a `mod` HModulus meta) (coef_of a)))
    (take (Z.to_nat (HRank meta)) (X f)).

Definition exact_member (f : Filter) (meta : BlockMeta) (a : bytes) : bool :=
  (GModulus meta =? 0)
  || negb (gf2_dot (Y f) (GOffset meta + row_hash a `mod` GModulus meta) (coef_of a)).

(** The Query algorithm: membership of the block's encoded set, then polarity. *)
Definition query_spec (f : Filter) (meta : BlockMeta) (a serial : bytes) : bool :=
  xorb (Inverted meta)
    (negb (HModulus meta =? 0) && approx_member f meta a && exact_member f meta a
     && bool_decide (serial ∉ Exceptions meta)).

(** ** Well-formedness *)
Definition words (v : list Z) : Prop := Forall is_u64 v.

Record wf_meta (columns : Z) (meta : BlockMeta) : Prop := {
  wf_HOffset : 0 <= HOffset meta < 2 ^ 32;
  wf_HModulus : 0 <= HModulus meta < 2 ^ 32;
  wf_HRank : 0 <= HRank meta < 256;
  wf_GOffset : 0 <= GOffset meta < 2 ^ 32;
  wf_GModulus : 0 <= GModulus meta < 2 ^ 32;
  wf_rank_columns : HRank meta <= columns
}.

Record wf_filter (f : Filter) : Prop := {
  wf_X : Forall words (X f);
  wf_Y : words (Y f);
  wf_X_count : blen (X f) < 256;
  wf_Blocks : map_Forall (fun id meta => length id = 32%nat /\ wf_meta (blen (X f)) meta) (Blocks f)
}.

(** ** Sums over GF(2) *)
Lemma xorn_app f lo n m : xorn f lo (n + m) = xorb (xorn f lo n) (xorn f (lo + Z.of_nat n) m).
Proof.
  revert lo. induction n as [|n IH]; intros lo; simpl.
  - rewrite Z.add_0_r. by destruct (xorn f lo m).
  - rewrite IH, xorb_assoc. do 3 f_equal. lia.
Qed.

Lemma xorn_ext f g lo n :
  (forall i, lo <= i < lo + Z.of_nat n -> f i = g i) -> xorn f lo n = xorn g lo n.
Proof.
  revert lo. induction n as [|n IH]; intros lo H; simpl; [done|].
  rewrite (H lo), IH; [done| |lia]. intros; apply H; lia.
Qed.

Lemma xorn_false f lo n :
  (forall i, lo <= i < lo + Z.of_nat n -> f i = false) -> xorn f lo n = false.
Proof.
  revert lo. induction n as [|n IH]; intros lo H; simpl; [done|].
  rewrite (H lo), IH; [done| |lia]. intros; apply H; lia.
Qed.

Lemma xorn_xorb f g lo n :
  xorn (fun i => xorb (f i) (g i)) lo n = xorb (xorn f lo n) (xorn g lo n).
Proof.
  revert lo. induction n as [|n IH]; intros lo; simpl; [done|].
  rewrite IH. by destruct (f lo), (g lo), (xorn f (lo + 1) n), (xorn g (lo + 1) n).
Qed.

Lemma xorn_shift f d lo n : xorn (fun i => f (d + i)) lo n = xorn f (d + lo) n.
Proof.
  revert lo. induction n as [|n IH]; intros lo; simpl; [done|].
  rewrite IH. do 2 f_equal. lia.
Qed.

(** [OnesCount64(x) & 1] is the parity of the low 64 bits. *)
Lemma ones_parity n lo x : Z.odd (ones_from n lo x) = xorn (Z.testbit x) lo n.
Proof.
  revert lo. induction n as [|n IH]; intros lo; simpl; [done|].
  rewrite Z.odd_add, IH. by destruct (Z.testbit x lo).
Qed.

Lemma OnesCount64_even (x : Z) :
  (Z.land (OnesCount64 x) 1 =? 0) = negb (xorn (Z.testbit x) 0 64).
Proof.
  unfold OnesCount64. rewrite <- ones_parity.
  change 1 with (Z.ones 1). rewrite Z.land_ones by lia. change (2 ^ 1) with 2.
  rewrite Zmod_odd. by destruct (Z.odd _).
Qed.

(** ** Bits of packed words *)
Lemma testbit_u64_high (x i : Z) : is_u64 x -> 64 <= i -> Z.testbit x i = false.
Proof.
  intros Hx Hi. rewrite <- (Z.mod_small x (2 ^ 64)) by exact Hx.
  by apply Z.mod_pow2_bits_high.
Qed.

Lemma words_nth (v : list Z) (k : nat) : words v -> is_u64 (nth k v 0).
Proof.
  intros H. destruct (le_lt_dec (length v) k) as [Hk|Hk].
  - rewrite nth_overflow by lia. unfold is_u64; lia.
  - unfold words in H. rewrite Forall_forall in H. apply H, list_elem_of_In, nth_In, Hk.
Qed.

Lemma index_nth (v : list Z) (i : Z) :
  0 <= i < blen v -> index v i = Ok (nth (Z.to_nat i) v 0).
Proof.
  intros Hi. destruct (index_in_range v i Hi) as (x & Hx & ->). f_equal.
  symmetry. by apply nth_lookup_Some.
Qed.

Lemma vec_bit_word (v : list Z) (w b : Z) :
  0 <= b < 64 -> vec_bit v (64 * w + b) = Z.testbit (nth (Z.to_nat w) v 0) b.
Proof.
  intros Hb. unfold vec_bit. rewrite (Z.mul_comm 64), Z.div_add_l, Z.div_small by lia.
  rewrite Z.add_0_r, Z.add_comm, Z.mod_add, Z.mod_small by lia. done.
Qed.

Lemma vec_bit_out (v : list Z) (k : Z) : 64 * blen v <= k -> vec_bit v k = false.
Proof.
  intros Hk. unfold vec_bit. rewrite nth_overflow; [apply Z.testbit_0_l|].
  unfold blen in Hk. assert (Z.of_nat (length v) <= k `div` 64); [|lia].
  apply Z.div_le_lower_bound; lia.
Qed.

(** The shifted window of word [i]: bit [b] of [tmp] is the column bit at
    [64 * i + shift + b]. *)
Lemma window_bit (v : list Z) (i shift b : Z) :
  words v -> 0 <= i -> 0 <= shift < 64 -> 0 <= b < 64 ->
  Z.testbit (Z.lor (Z.shiftr (nth (Z.to_nat i) v 0) shift)
               (u64 (Z.shiftl (nth (Z.to_nat (i + 1)) v 0) (64 - shift)))) b
  = vec_bit v (64 * i + (shift + b)).
Proof.
  intros Hv Hi Hs Hb. unfold u64.
  rewrite Z.lor_spec, Z.shiftr_spec, Z.mod_pow2_bits_low, Z.shiftl_spec by lia.
  destruct (Z.lt_ge_cases (shift + b) 64).
  - rewrite vec_bit_word by lia. rewrite (Z.testbit_neg_r _ (b - (64 - shift))) by lia.
    rewrite orb_false_r. f_equal. lia.
  - replace (64 * i + (shift + b)) with (64 * (i + 1) + (shift + b - 64)) by lia.
    rewrite vec_bit_word by lia.
    rewrite (testbit_u64_high (nth (Z.to_nat i) v 0)) by (lia || by apply words_nth).
    simpl. f_equal. lia.
Qed.

Lemma xor_word_Ok column limb shift coef i r :
  words column -> 0 <= limb -> 0 <= shift < 64 -> limb <= i < blen column -> i < limb + 4 ->
  i < 2 ^ 63 -> length coef = 4%nat ->
  exists tmp, xor_word column limb shift coef i r
    = Ok (Z.lxor r (Z.land tmp (nth (Z.to_nat (i - limb)) coef 0)))
    /\ forall b, 0 <= b < 64 -> Z.testbit tmp b = vec_bit column (64 * i + (shift + b)).
Proof.
  intros Hc Hl Hs Hi Hi4 Hi63 Hcoef. unfold xor_word.
  rewrite (u64_small (i + 1)), (u64_small (i - limb)) by (unfold is_u64; lia).
  rewrite (index_nth column i) by lia. go_simp.
  assert (index coef (i - limb) = Ok (nth (Z.to_nat (i - limb)) coef 0)) as ->
    by (apply index_nth; unfold blen; lia).
  destruct (Z.eqb_spec shift 0) as [->|Hs0].
  - exists (nth (Z.to_nat i) column 0). split; [done|].
    intros b Hb. by rewrite Z.add_0_l, vec_bit_word.
  - simpl negb. rewrite andb_true_l. eexists. split.
    2: { intros b Hb. apply window_bit; lia || done. }
    destruct (Z.ltb_spec (i + 1) (blen column)).
    + by rewrite index_nth by lia.
    + rewrite (nth_overflow column (n:=Z.to_nat (i + 1))) by (unfold blen in *; lia).
      go_simp. by rewrite Z.shiftl_0_l, Z.lor_0_r.
Qed.

(** One iteration adds the 64 products of its word to the parity. *)
Lemma xor_word_parity column row coef i r :
  words column -> 0 <= row < 2 ^ 64 -> length coef = 4%nat ->
  row `div` 64 <= i < blen column -> i < row `div` 64 + 4 ->
  exists r', xor_word column (row `div` 64) (row `mod` 64) coef i r = Ok r'
    /\ xorn (Z.testbit r') 0 64
       = xorb (xorn (Z.testbit r) 0 64)
           (xorn (fun j => vec_bit column (row + j) && vec_bit coef j) (64 * (i - row `div` 64)) 64).
Proof.
  intros Hc Hr Hcoef Hi Hi4.
  assert (0 <= row `div` 64 < 2 ^ 58) as Hl.
  { split; [apply Z.div_pos; lia|]. apply Z.div_lt_upper_bound; lia. }
  pose proof (Z.mod_pos_bound row 64 ltac:(lia)) as Hs.
  destruct (xor_word_Ok column (row `div` 64) (row `mod` 64) coef i r) as (tmp & E & Ht); try lia; try done.
  eexists. split; [exact E|].
  rewrite <- (Z.add_0_r (64 * (i - row `div` 64))).
  rewrite <- (xorn_shift (fun j => vec_bit column (row + j) && vec_bit coef j)).
  rewrite <- xorn_xorb. apply xorn_ext. intros b Hb.
  rewrite Z.lxor_spec, Z.land_spec, Ht by lia. do 2 f_equal.
  - pose proof (Z.div_mod row 64 ltac:(lia)). f_equal. lia.
  - rewrite vec_bit_word by lia. done.
Qed.

(** The word-level [bitsXorIsZero] is the vanishing of the GF(2) dot product. *)
Lemma bitsXorIsZero_dot column row coef :
  words column -> is_u64 row -> length coef = 4%nat ->
  bitsXorIsZero column row coef = Ok (negb (gf2_dot column row coef)).
Proof.
  intros Hc Hr Hcoef. unfold bitsXorIsZero, W.
  assert (0 <= row `div` 64 < 2 ^ 58) as Hl.
  { split; [apply Z.div_pos; unfold is_u64 in Hr; lia|]. apply Z.div_lt_upper_bound; unfold is_u64 in Hr; lia. }
  rewrite u64_small by (unfold is_u64; lia).
  set (limb := row `div` 64) in *. set (n := Z.to_nat (Z.min (blen column) (limb + 4) - limb)).
  set (g := fun j => vec_bit column (row + j) && vec_bit coef j).
  destruct (for_n_total (fun i r => xorn (Z.testbit r) 0 64 = xorn g 0 (Z.to_nat (64 * (i - limb))))
              n limb (xor_word column limb (row `mod` 64) coef) 0) as (r & E & Hx).
  - intros i r Hi Hr'. destruct (xor_word_parity column row coef i r) as (r' & E & Hp); [done|done|done|lia..|].
    exists r'. split; [done|]. rewrite Hp, Hr'.
    replace (Z.to_nat (64 * (i + 1 - limb))) with (Z.to_nat (64 * (i - limb)) + 64)%nat by lia.
    rewrite xorn_app. do 2 f_equal. lia.
  - rewrite Z.sub_diag. done.
  - rewrite E. go_simp. rewrite OnesCount64_even, Hx. do 2 f_equal.
    unfold gf2_dot. fold g. subst n.
    pose proof (Z.div_mod row 64 ltac:(lia)) as Hrow. fold limb in Hrow.
    pose proof (Z.mod_pos_bound row 64 ltac:(lia)) as Hsh.
    set (k := Z.to_nat (64 * _)). assert (k <= 256)%nat as Hk by lia.
    replace 256%nat with (k + (256 - k))%nat by lia. rewrite xorn_app.
    rewrite (xorn_false g (0 + Z.of_nat k)); [by destruct (xorn g 0 k)|].
    intros j Hj. unfold g. rewrite vec_bit_out; [done|]. lia.
Qed.

(** The parity of a sum counts the positions where the summand is set. *)
Lemma xorn_count f lo n :
  xorn f lo n = Nat.odd (length (List.filter f (seqZ lo (Z.of_nat n)))).
Proof.
  revert lo. induction n as [|n IH]; intros lo; [done|].
  rewrite seqZ_cons by lia. cbn [xorn]. rewrite IH. unfold Z.succ.
  replace (Z.pred (Z.of_nat (S n))) with (Z.of_nat n) by lia.
  cbn [List.filter]. destruct (f lo); [|by rewrite xorb_false_l].
  cbn [length]. rewrite Nat.odd_succ, <- Nat.negb_odd. apply xorb_true_l.
Qed.

(** ** [bytesToLimbs] *)
Lemma limbs_u64 (a : bytes) lo : length a = 32%nat -> 0 <= lo <= 24 -> is_u64 (le_decode (sub a lo 8)).
Proof. intros Ha Hlo. apply le_decode_u64. rewrite length_sub; unfold blen; lia. Qed.

Lemma length_coef_of (a : bytes) : length (coef_of a) = 4%nat.
Proof. done. Qed.

Lemma le_decode_testbit (bs : bytes) (k : nat) (b : Z) :
  0 <= b < 8 ->
  Z.testbit (le_decode bs) (8 * Z.of_nat k + b) = Z.testbit (byte_val (nth k bs Init.Byte.x00)) b.
Proof.
  intros Hb. revert k. induction bs as [|c bs IH]; intros k.
  - rewrite nth_overflow by (simpl; lia). change (byte_val _) with 0.
    by rewrite !Z.testbit_0_l.
  - simpl le_decode. pose proof (byte_val_range c) as Hc.
    destruct k as [|k].
    + simpl nth. replace (8 * Z.of_nat 0 + b) with b by lia.
      rewrite <- (Z.mod_pow2_bits_low _ 8 b) by lia. change (2 ^ 8) with 256.
      rewrite (Z.mul_comm 256), Z.mod_add, Z.mod_small by lia. done.
    + cbn [nth]. rewrite <- (IH k), Nat2Z.inj_succ.
      replace (8 * Z.succ (Z.of_nat k) + b) with (8 * Z.of_nat k + b + 8) by lia.
      rewrite <- Z.shiftr_spec by lia. f_equal.
      rewrite Z.shiftr_div_pow2 by lia. change (2 ^ 8) with 256.
      rewrite Z.mul_comm, Z.div_add, Z.div_small by lia. lia.
Qed.

Lemma nth_bytesToLimbs (a : bytes) (w : nat) :
  (w < 4)%nat -> nth w (bytesToLimbs a) 0 = le_decode (sub a (8 * Z.of_nat w) 8).
Proof. intros H. do 4 (destruct w as [|w]; [done|]). lia. Qed.

Lemma nth_sub {A} (l : list A) (lo n : Z) (k : nat) d :
  0 <= lo -> Z.of_nat k < n -> nth k (sub l lo n) d = nth (Z.to_nat lo + k) l d.
Proof.
  intros Hlo Hk. unfold sub. rewrite !nth_lookup, lookup_take_lt, lookup_drop by lia. done.
Qed.

(** [bytesToLimbs] lays the 32 bytes of the hash out so that coefficient [k]
    of the 256-bit vector is bit [k mod 8] of byte [k / 8]. *)
Theorem bytesToLimbs_bits (a : bytes) (k : Z) :
  length a = 32%nat -> 0 <= k < 256 ->
  length (bytesToLimbs a) = 4%nat /\ words (bytesToLimbs a)
  /\ vec_bit (bytesToLimbs a) k
     = Z.testbit (byte_val (nth (Z.to_nat (k `div` 8)) a Init.Byte.x00)) (k `mod` 8).
Proof.
  intros Ha Hk. split; [done|]. split.
  { unfold words, bytesToLimbs. repeat apply Forall_cons_2; try apply limbs_u64; lia || done. }
  set (w := Z.to_nat (k `div` 64)). set (c := Z.to_nat ((k `mod` 64) `div` 8)).
  unfold vec_bit. fold w.
  assert (0 <= k `div` 64 < 4) by (split; [apply Z.div_pos|apply Z.div_lt_upper_bound]; lia).
  rewrite nth_bytesToLimbs by lia.
  pose proof (Z.mod_pos_bound k 64 ltac:(lia)).
  assert (0 <= (k `mod` 64) `div` 8 < 8) by (split; [apply Z.div_pos|apply Z.div_lt_upper_bound]; lia).
  replace (k `mod` 64) with (8 * Z.of_nat c + k `mod` 8).
  - rewrite le_decode_testbit by (apply Z.mod_pos_bound; lia). do 2 f_equal.
    rewrite nth_sub by lia. f_equal. subst w c.
    pose proof (Z.div_mod k 64 ltac:(lia)). pose proof (Z.div_mod (k `mod` 64) 8 ltac:(lia)).
    pose proof (Z.div_mod k 8 ltac:(lia)). pose proof (Z.mod_pos_bound k 8 ltac:(lia)).
    pose proof (Z.mod_pos_bound (k `mod` 64) 8 ltac:(lia)). lia.
  - subst c. pose proof (Z.div_mod k 64 ltac:(lia)). pose proof (Z.div_mod (k `mod` 64) 8 ltac:(lia)).
    pose proof (Z.div_mod k 8 ltac:(lia)). pose proof (Z.mod_pos_bound k 8 ltac:(lia)).
    pose proof (Z.mod_pos_bound (k `mod` 64) 8 ltac:(lia)). lia.
Qed.

(** ** [Filter.Contains] *)
Lemma columns_pass_eq (f : Filter) hRow coef n (i : nat) :
  Forall words (X f) -> is_u64 hRow -> length coef = 4%nat ->
  columns_pass f hRow coef n (Z.of_nat i)
  = if forallb (fun col => negb (gf2_dot col hRow coef)) (take n (drop i (X f)))
    then if (i + n <=? length (X f))%nat || (n =? 0)%nat then Ok true else Panic
    else Ok false.
Proof.
  intros HX Hrow Hcoef. revert i. induction n as [|n IH]; intros i.
  { simpl. by rewrite orb_true_r. }
  cbn [columns_pass]. rewrite orb_false_r.
  destruct (X f !! i) as [col|] eqn:Hcol.
  - assert (index (X f) (Z.of_nat i) = Ok col) as ->
      by (apply index_Ok; rewrite Nat2Z.id; split; [lia|done]).
    go_simp. rewrite bitsXorIsZero_dot; [|by eapply Forall_lookup_1|done..]. go_simp.
    rewrite (drop_S (X f) col i) by done. cbn [take forallb].
    destruct (negb (gf2_dot col hRow coef)); [|done].
    replace (Z.of_nat i + 1) with (Z.of_nat (S i)) by lia. rewrite IH, andb_true_l.
    replace (S i + n)%nat with (i + S n)%nat by lia.
    apply lookup_lt_Some in Hcol.
    destruct (n =? 0)%nat eqn:E; [|by rewrite orb_false_r].
    apply Nat.eqb_eq in E as ->. rewrite orb_true_r.
    by destruct (Nat.leb_spec (i + 1) (length (X f))); [|lia].
  - apply lookup_ge_None in Hcol. rewrite drop_ge by lia. simpl.
    unfold index, blen. destruct (Z.ltb_spec (Z.of_nat i) (Z.of_nat (length (X f)))); [lia|].
    rewrite andb_false_r. go_simp.
    by destruct (Nat.leb_spec (i + S n) (length (X f))); [lia|].
Qed.

(** What the loop guards need of one block's fields. *)
Definition rows_fit (meta : BlockMeta) : Prop :=
  0 <= HOffset meta < 2 ^ 63 /\ 0 <= HModulus meta < 2 ^ 63 /\
  0 <= GOffset meta < 2 ^ 63 /\ 0 <= GModulus meta < 2 ^ 63 /\ 0 <= HRank meta.

Lemma wf_meta_rows_fit columns meta : wf_meta columns meta -> rows_fit meta.
Proof. intros []. unfold rows_fit. lia. Qed.

Lemma row_u64 (off m t : Z) :
  0 <= off < 2 ^ 63 -> 0 < m < 2 ^ 63 -> is_u64 (off + t `mod` m).
Proof. intros. pose proof (Z.mod_pos_bound t m ltac:(lia)). unfold is_u64. lia. Qed.

(** [Contains] on any block: the Query algorithm, or a panic exactly when a rank
    beyond the columns is reached with every column passing. *)
Lemma Contains_cases (f : Filter) (meta : BlockMeta) (a serial : bytes) :
  Forall words (X f) -> words (Y f) -> rows_fit meta ->
  Contains f meta a serial
  = if negb (HModulus meta =? 0) && approx_member f meta a && (blen (X f) <? HRank meta)
    then Panic else Ok (query_spec f meta a serial).
Proof.
  intros HX HY (Hho & Hhm & Hgo & Hgm & Hr).
  unfold Contains, query_spec. destruct (Z.eqb_spec (HModulus meta) 0) as [H0|H0].
  { simpl. by rewrite xorb_false_r. }
  change (index (bytesToLimbs a) 0) with (Ok (le_decode (sub a 0 8))).
  go_simp. fold (coef_of a).
  change (index (coef_of a) 3) with (Ok (row_hash a)). go_simp.
  rewrite (u64_small (HOffset meta + _)) by (apply row_u64; lia).
  pose proof (columns_pass_eq f (HOffset meta + row_hash a `mod` HModulus meta) (coef_of a)
    (Z.to_nat (HRank meta)) 0 HX ltac:(apply row_u64; lia) eq_refl) as Hcols.
  change (Z.of_nat 0) with 0 in Hcols. rewrite Hcols, drop_0. clear Hcols.
  fold (approx_member f meta a). cbn [negb]. rewrite andb_true_l.
  destruct (approx_member f meta a) eqn:Ha; go_simp; [|by rewrite xorb_false_r].
  replace ((0 + Z.to_nat (HRank meta) <=? length (X f))%nat || (Z.to_nat (HRank meta) =? 0)%nat)
    with (negb (blen (X f) <? HRank meta)).
  2: { unfold blen. destruct (Z.ltb_spec (Z.of_nat (length (X f))) (HRank meta)),
         (Nat.leb_spec (0 + Z.to_nat (HRank meta)) (length (X f))),
         (Nat.eqb_spec (Z.to_nat (HRank meta)) 0); simpl; (done || lia). }
  rewrite !andb_true_l. destruct (blen (X f) <? HRank meta); [done|]. go_simp.
  unfold exact_member. destruct (Z.eqb_spec (GModulus meta) 0) as [G0|G0]; cbn [negb].
  - go_simp. rewrite orb_true_l, andb_true_l, bool_decide_not.
    destruct (bool_decide (serial ∈ Exceptions meta)); simpl; by destruct (Inverted meta).
  - rewrite u64_small, bitsXorIsZero_dot; [|done|apply row_u64; lia|done|apply row_u64; lia].
    go_simp. rewrite orb_false_l. destruct (gf2_dot (Y f) _ _); cbn [negb].
    + by rewrite xorb_false_r.
    + rewrite andb_true_l, bool_decide_not.
      destruct (bool_decide (serial ∈ Exceptions meta)); simpl; by destruct (Inverted meta).
Qed.

(** On a well-formed filter [Contains] never panics and is the Query algorithm. *)
Lemma Contains_query (f : Filter) (id : bytes) (meta : BlockMeta) (a serial : bytes) :
  wf_filter f -> Blocks f !! id = Some meta ->
  Contains f meta a serial = Ok (query_spec f meta a serial).
Proof.
  intros Hf Hid. destruct (wf_Blocks f Hf id meta Hid) as [_ Hm].
  rewrite Contains_cases; [|by destruct Hf..|by eapply wf_meta_rows_fit].
  destruct (Z.ltb_spec (blen (X f)) (HRank meta)) as [H|H].
  - pose proof (wf_rank_columns _ _ Hm). lia.
  - by rewrite andb_false_r.
Qed.

(** ** Properties *)

(** C33. [bitsXorIsZero] terminates without an index panic and returns true exactly
    when an even number of the 256 positions [j] have both the coefficient bit [j]
    and the column bit [rowOffset + j] set, bits past the column's end being zero. *)
Theorem bitsXorIsZero_spec (column : list Z) (rowOffset : Z) (coef : list Z) :
  words column -> is_u64 rowOffset -> length coef = 4%nat ->
  bitsXorIsZero column rowOffset coef
  = Ok (Nat.even (length (List.filter
          (fun j => vec_bit column (rowOffset + j) && vec_bit coef j) (seqZ 0 256)))).
Proof.
  intros Hc Hr Hk. rewrite bitsXorIsZero_dot by done.
  unfold gf2_dot. by rewrite xorn_count, Nat.negb_odd.
Qed.

Lemma bitsXorIsZero_spec_witness :
  bitsXorIsZero [4; 2 ^ 63] 66 [5; 0; 0; 0] = Ok true
  /\ bitsXorIsZero [4; 2 ^ 63] 2 [5; 0; 0; 0] = Ok false.
Proof.
  split.
  - rewrite (bitsXorIsZero_spec [4; 2 ^ 63] 66 [5; 0; 0; 0]);
      [vm_compute; reflexivity|repeat constructor; unfold is_u64; lia|unfold is_u64; lia|reflexivity].
  - rewrite (bitsXorIsZero_spec [4; 2 ^ 63] 2 [5; 0; 0; 0]);
      [vm_compute; reflexivity|repeat constructor; unfold is_u64; lia|unfold is_u64; lia|reflexivity].
Defined.

Lemma bytesToLimbs_bits_witness :
  vec_bit (bytesToLimbs (replicate 31 Init.Byte.x00 ++ [Init.Byte.x80])) 255 = true.
Proof.
  rewrite (proj2 (proj2 (bytesToLimbs_bits (replicate 31 Init.Byte.x00 ++ [Init.Byte.x80]) 255
    eq_refl ltac:(lia)))).
  vm_compute. reflexivity.
Defined.

(** On any block whose row arithmetic fits in 63 bits, [Contains] panics exactly
    when the block's rank exceeds the number of columns, the block is not empty and
    every existing column passes: the rank check of the parser is what excludes
    the panic, and nothing else is needed. *)
Theorem Contains_panics_iff (f : Filter) (meta : BlockMeta) (a serial : bytes) :
  Forall words (X f) -> words (Y f) -> rows_fit meta ->
  Contains f meta a serial = Panic
  <-> HModulus meta <> 0 /\ blen (X f) < HRank meta /\ approx_member f meta a = true.
Proof.
  intros HX HY Hr. rewrite Contains_cases by done.
  destruct (Z.eqb_spec (HModulus meta) 0), (approx_member f meta a),
    (Z.ltb_spec (blen (X f)) (HRank meta)); simpl; naive_solver lia.
Qed.

Lemma Contains_panics_iff_witness :
  let meta := mkBlockMeta 0 1 1 0 0 ∅ false in
  Contains (mkFilter [] [] ∅) meta (replicate 32 Init.Byte.x00) [] = Panic.
Proof.
  apply (Contains_panics_iff (mkFilter [] [] ∅) (mkBlockMeta 0 1 1 0 0 ∅ false)
    (replicate 32 Init.Byte.x00) []).
  - constructor.
  - constructor.
  - unfold rows_fit; simpl; lia.
  - split; [discriminate|]. split; [reflexivity|]. vm_compute. reflexivity.
Defined.

(** C13. For every block of a well-formed filter, [Contains] returns (never a panic)
    and its answer is the paper's Query: an empty block answers its polarity, and
    otherwise an element is in the encoded set when all of the block's columns and
    the exact filter are orthogonal to its coefficients and its serial is not an
    exception, the polarity bit inverting the answer. *)
Theorem Contains_query_spec (f : Filter) (id : bytes) (meta : BlockMeta) (a serial : bytes) :
  wf_filter f -> Blocks f !! id = Some meta ->
  Contains f meta a serial
  = Ok (if HModulus meta =? 0 then Inverted meta
        else if approx_member f meta a && exact_member f meta a
                && bool_decide (serial ∉ Exceptions meta)
             then negb (Inverted meta) else Inverted meta).
Proof.
  intros Hf Hid. rewrite (Contains_query f id) by done. unfold query_spec. f_equal.
  destruct (HModulus meta =? 0), (approx_member f meta a && exact_member f meta a
    && bool_decide (serial ∉ Exceptions meta)) eqn:E; cbn [negb]; rewrite <- ?andb_assoc, ?andb_true_l in *;
    rewrite ?E; by destruct (Inverted meta).
Qed.

Lemma Contains_query_spec_witness :
  let id := replicate 32 Init.Byte.x01 in
  let meta := mkBlockMeta 0 1 1 0 1 ∅ false in
  let f := mkFilter [[0; 0; 0; 0]] [0; 0; 0; 0] {[id := meta]} in
  Contains f meta (replicate 32 Init.Byte.x07) [Init.Byte.x05] = Ok true.
Proof.
  intros id meta f.
  rewrite (Contains_query_spec f id meta).
  - vm_compute. reflexivity.
  - constructor.
    + repeat constructor; unfold is_u64; lia.
    + repeat constructor; unfold is_u64; lia.
    + reflexivity.
    + apply map_Forall_singleton. split; [reflexivity|].
      constructor; vm_compute; (split; discriminate || reflexivity) || discriminate.
  - apply lookup_singleton_eq.
Defined.
