(* ===== verification/CrliteParser.v ===== *)
(** * Parsing V4 clubcards ([crlite/parser.go])

    Every reader takes the unread input and returns the value with the remaining
    input, or the error the code returns.  The wire grammar of the code's comments
    is given as an encoder of an abstract file ([wire]); the parser is proved to
    accept exactly the encodings of the well-formed ones. *)
From S2P Require Import Prelude Codec Cryptobyte Clubcard.

(** ** Data *)
Record timestampInterval := mkInterval { low : Z; high : Z }.

Record RevocationFilter := mkRevocationFilter {
  rf_coverage : gmap bytes timestampInterval;
  rf_filter : Filter
}.

Definition ErrUnsupportedFormat : error := Sentinel "crlite: unsupported clubcard version".
Definition ErrDeserialize : error := Sentinel "crlite: failed to deserialize clubcard".

(** ** Readers *)
Section Readers.
Context {C : Cryptobyte} {M : MapRange}.

Definition readLogId (s : bytes) : result (bytes * bytes) :=
  or_err (CopyBytes 32 s) (Errorf "%w: log id" [AErr ErrDeserialize]).

Definition readTimestampInterval (s : bytes) : result (timestampInterval * bytes) :=
  let fail := Errorf "%w: timestamp interval" [AErr ErrDeserialize] in
  '(lo, s) ← or_err (ReadUint64 s) fail;
  '(hi, s) ← or_err (ReadUint64 s) fail;
  Ok (mkInterval lo hi, s).

Definition readCoverage (s : bytes) : result (gmap bytes timestampInterval * bytes) :=
  '(count, s) ← or_err (ReadUint16 s) (Errorf "%w: coverage count" [AErr ErrDeserialize]);
  _ ← check_that (negb (blen s <? u64 (count * 48)))
        (Errorf "%w: coverage count %d exceeds input" [AErr ErrDeserialize; AInt count]);
  '(s, cov) ← for_n (Z.to_nat count) 0 (fun _ '(s, cov) =>
      '(id, s) ← readLogId s;
      '(iv, s) ← readTimestampInterval s;
      match cov !! id with
      | Some _ => Err (Errorf "%w: duplicate coverage log id" [AErr ErrDeserialize])
      | None => Ok (s, <[id := iv]> cov)
      end) (s, ∅);
  Ok (cov, s).

Definition readU64Seq (s : bytes) : result (list Z * bytes) :=
  '(count, s) ← or_err (ReadUint32 s) (Errorf "%w: u64 seq count" [AErr ErrDeserialize]);
  _ ← check_that (negb (blen s <? u64 (count * 8)))
        (Errorf "%w: u64 seq count %d exceeds input" [AErr ErrDeserialize; AInt count]);
  '(s, items) ← for_n (Z.to_nat count) 0 (fun i '(s, items) =>
      '(v, s) ← or_err (ReadUint64 s)
                  (Errorf "%w: u64 seq item %d/%d" [AErr ErrDeserialize; AInt i; AInt count]);
      Ok (s, items ++ [v])) (s, []);
  Ok (items, s).

Definition readBlockMeta (s : bytes) : result (BlockMeta * bytes) :=
  let fail := Errorf "%w: block meta header" [AErr ErrDeserialize] in
  '(hMod, s) ← or_err (ReadUint32 s) fail;
  '(rank, s) ← or_err (ReadUint8 s) fail;
  '(hOff, s) ← or_err (ReadUint32 s) fail;
  '(gMod, s) ← or_err (ReadUint32 s) fail;
  '(gOff, s) ← or_err (ReadUint32 s) fail;
  '(inverted, s) ← or_err (ReadUint8 s) fail;
  _ ← check_that (negb (1 <? inverted))
        (Errorf "%w: inverted flag %d not 0 or 1" [AErr ErrDeserialize; AInt inverted]);
  '(count, s) ← or_err (ReadUint16 s)
                  (Errorf "%w: block meta exception count" [AErr ErrDeserialize]);
  '(s, exceptions) ← for_n (Z.to_nat count) 0 (fun i '(s, exceptions) =>
      '(serial, s) ← or_err (ReadUint8LengthPrefixed s)
          (Errorf "%w: block meta exception %d/%d" [AErr ErrDeserialize; AInt i; AInt count]);
      Ok (s, {[serial]} ∪ exceptions)) (s, ∅);
  Ok (mkBlockMeta hOff hMod rank gOff gMod exceptions (negb (inverted =? 0)), s).

Definition minIndexEntrySize : Z := 32 + 4 + 1 + 4 + 4 + 4 + 1 + 2.

Definition readBlocks (s : bytes) : result (gmap bytes BlockMeta * bytes) :=
  '(count, s) ← or_err (ReadUint32 s) (Errorf "%w: index count" [AErr ErrDeserialize]);
  _ ← check_that (negb (blen s <? u64 (count * minIndexEntrySize)))
        (Errorf "%w: index count %d exceeds input" [AErr ErrDeserialize; AInt count]);
  '(s, blocks) ← for_n (Z.to_nat count) 0 (fun i '(s, blocks) =>
      '(id, s) ← or_err (CopyBytes 32 s)
          (Errorf "%w: index block id %d/%d" [AErr ErrDeserialize; AInt i; AInt count]);
      '(meta, s) ← readBlockMeta s;
      match blocks !! id with
      | Some _ => Err (Errorf "%w: duplicate index block id" [AErr ErrDeserialize])
      | None => Ok (s, <[id := meta]> blocks)
      end) (s, ∅);
  Ok (blocks, s).

(** [for id, meta := range f.Blocks]: the first offending block in iteration order. *)
Definition validateBlocks (f : Filter) : result unit :=
  match List.find (fun '(id, meta) => blen (X f) <? HRank meta) (map_range (Blocks f)) with
  | Some (id, meta) =>
      Err (Errorf "%w: block %x rank %d exceeds column count %d"
             [AErr ErrDeserialize; ABytes id; AInt (HRank meta); AInt (blen (X f))])
  | None => Ok tt
  end.

Definition readFilter (s : bytes) : result (Filter * bytes) :=
  '(blocks, s) ← readBlocks s;
  '(columnCount, s) ← or_err (ReadUint8 s)
      (Errorf "%w: approx filter column count" [AErr ErrDeserialize]);
  '(s, x) ← for_n (Z.to_nat columnCount) 0 (fun i '(s, x) =>
      '(col, s) ← wrap_err (fun e =>
          Errorf "approx filter column %d/%d: %w" [AInt i; AInt columnCount; AErr e]) (readU64Seq s);
      Ok (s, x ++ [col])) (s, []);
  '(y, s) ← wrap_err (fun e => Errorf "exact filter: %w" [AErr e]) (readU64Seq s);
  let f := mkFilter x y blocks in
  _ ← validateBlocks f;
  Ok (f, s).

Definition FromBytes (data : bytes) : result RevocationFilter :=
  let fail := Errorf "%w: version" [AErr ErrDeserialize] in
  '(version, s) ← or_err (ReadUint8 data) fail;
  '(reserved0, s) ← or_err (ReadUint8 s) fail;
  _ ← check_that (version =? 4) (Errorf "%w: %d" [AErr ErrUnsupportedFormat; AInt version]);
  _ ← check_that (reserved0 =? 0)
        (Errorf "%w: non-zero reserved0 byte %d" [AErr ErrDeserialize; AInt reserved0]);
  '(cov, s) ← readCoverage s;
  '(filter, s) ← readFilter s;
  _ ← check_that (Empty s) (Errorf "%w: %d trailing bytes" [AErr ErrDeserialize; AInt (blen s)]);
  Ok (mkRevocationFilter cov filter).

End Readers.

(** ** The wire grammar *)
Record wire_meta := mkWireMeta {
  wm_approx_filter_m : Z;
  wm_approx_filter_rank : Z;
  wm_approx_filter_offset : Z;
  wm_exact_filter_m : Z;
  wm_exact_filter_offset : Z;
  wm_inverted : bool;
  wm_exceptions : list bytes
}.

Record wire := mkWire {
  w_coverage : list (bytes * timestampInterval);
  w_index : list (bytes * wire_meta);
  w_approx_filter : list (list Z);
  w_exact_filter : list Z
}.

Definition enc_interval (iv : timestampInterval) : bytes :=
  be_encode 8 (low iv) ++ be_encode 8 (high iv).
Definition enc_coverage_entry (e : bytes * timestampInterval) : bytes := e.1 ++ enc_interval e.2.
Definition enc_coverage (l : list (bytes * timestampInterval)) : bytes :=
  be_encode 2 (blen l) ++ encode_all enc_coverage_entry l.
Definition enc_u64seq (v : list Z) : bytes :=
  be_encode 4 (blen v) ++ encode_all (be_encode 8) v.
Definition enc_exception (serial : bytes) : bytes := be_encode 1 (blen serial) ++ serial.
Definition enc_meta (m : wire_meta) : bytes :=
  be_encode 4 (wm_approx_filter_m m) ++ be_encode 1 (wm_approx_filter_rank m)
  ++ be_encode 4 (wm_approx_filter_offset m) ++ be_encode 4 (wm_exact_filter_m m)
  ++ be_encode 4 (wm_exact_filter_offset m) ++ be_encode 1 (Z.b2z (wm_inverted m))
  ++ be_encode 2 (blen (wm_exceptions m)) ++ encode_all enc_exception (wm_exceptions m).
Definition enc_index_entry (e : bytes * wire_meta) : bytes := e.1 ++ enc_meta e.2.
Definition enc_index (l : list (bytes * wire_meta)) : bytes :=
  be_encode 4 (blen l) ++ encode_all enc_index_entry l.
Definition enc_filter (w : wire) : bytes :=
  enc_index (w_index w)
  ++ be_encode 1 (blen (w_approx_filter w)) ++ encode_all enc_u64seq (w_approx_filter w)
  ++ enc_u64seq (w_exact_filter w).
Definition enc_clubcard (w : wire) : bytes :=
  be_encode 1 4 ++ be_encode 1 0 ++ enc_coverage (w_coverage w) ++ enc_filter w.

(** What the parsed structures are. *)
Definition meta_of (m : wire_meta) : BlockMeta :=
  mkBlockMeta (wm_approx_filter_offset m) (wm_approx_filter_m m) (wm_approx_filter_rank m)
    (wm_exact_filter_offset m) (wm_exact_filter_m m)
    (list_to_set (wm_exceptions m)) (wm_inverted m).
Definition filter_of (w : wire) : Filter :=
  mkFilter (w_approx_filter w) (w_exact_filter w) (entries meta_of (w_index w)).
Definition clubcard_of (w : wire) : RevocationFilter :=
  mkRevocationFilter (entries id (w_coverage w)) (filter_of w).

(** Which abstract files the format can carry. *)
Definition u32_range (z : Z) : Prop := 0 <= z < 2 ^ 32.
Definition wf_interval (iv : timestampInterval) : Prop := is_u64 (low iv) /\ is_u64 (high iv).
Definition wf_entry {B} (P : B -> Prop) (e : bytes * B) : Prop := length e.1 = 32%nat /\ P e.2.
Definition wf_u64seq (v : list Z) : Prop := blen v < 2 ^ 32 /\ Forall is_u64 v.
Record wf_wire_meta (m : wire_meta) : Prop := {
  wfm_m : u32_range (wm_approx_filter_m m);
  wfm_rank : 0 <= wm_approx_filter_rank m < 256;
  wfm_offset : u32_range (wm_approx_filter_offset m);
  wfm_em : u32_range (wm_exact_filter_m m);
  wfm_eoffset : u32_range (wm_exact_filter_offset m);
  wfm_count : blen (wm_exceptions m) < 65536;
  wfm_exceptions : Forall (fun s => blen s < 256) (wm_exceptions m)
}.
Definition wf_coverage (l : list (bytes * timestampInterval)) : Prop :=
  blen l < 65536 /\ Forall (wf_entry wf_interval) l /\ NoDup l.*1.
Definition wf_index (l : list (bytes * wire_meta)) : Prop :=
  blen l < 2 ^ 32 /\ Forall (wf_entry wf_wire_meta) l /\ NoDup l.*1.
Definition wf_wire_filter (w : wire) : Prop :=
  wf_index (w_index w) /\ blen (w_approx_filter w) < 256
  /\ Forall wf_u64seq (w_approx_filter w) /\ wf_u64seq (w_exact_filter w)
  /\ Forall (fun e => wm_approx_filter_rank e.2 <= blen (w_approx_filter w)) (w_index w).
Definition wf_wire (w : wire) : Prop := wf_coverage (w_coverage w) /\ wf_wire_filter w.

(** ** The readers against the grammar *)
Section Grammar.
Context {C : Cryptobyte} {L : CryptobyteLaws C} {M : MapRange}.

Lemma u8_Ok e s v r :
  or_err (ReadUint8 s) e = Ok (v, r) <-> s = be_encode 1 v ++ r /\ 0 <= v < 256.
Proof. rewrite or_err_Ok, ReadUint8_spec. apply read_be_Some. lia. Qed.
Lemma u16_Ok e s v r :
  or_err (ReadUint16 s) e = Ok (v, r) <-> s = be_encode 2 v ++ r /\ 0 <= v < 65536.
Proof. rewrite or_err_Ok, ReadUint16_spec. apply (read_be_Some 2). lia. Qed.
Lemma u32_Ok e s v r :
  or_err (ReadUint32 s) e = Ok (v, r) <-> s = be_encode 4 v ++ r /\ u32_range v.
Proof. rewrite or_err_Ok, ReadUint32_spec. apply (read_be_Some 4). lia. Qed.
Lemma u64_Ok e s v r :
  or_err (ReadUint64 s) e = Ok (v, r) <-> s = be_encode 8 v ++ r /\ is_u64 v.
Proof. rewrite or_err_Ok, ReadUint64_spec. apply (read_be_Some 8). lia. Qed.
Lemma id_Ok e s v r :
  or_err (CopyBytes 32 s) e = Ok (v, r) <-> s = v ++ r /\ length v = 32%nat.
Proof.
  rewrite or_err_Ok, CopyBytes_spec, split_at_Some by lia. unfold blen.
  split; intros [-> H]; (split; [done|lia]).
Qed.

Lemma readTimestampInterval_Ok s iv r :
  readTimestampInterval s = Ok (iv, r) <-> s = enc_interval iv ++ r /\ wf_interval iv.
Proof.
  unfold readTimestampInterval, enc_interval, wf_interval. split.
  - intros H. inv_binds H. apply u64_Ok in E as [-> ?], E0 as [-> ?].
    injection H as <- <-. by rewrite <- app_assoc.
  - intros [-> [Hl Hh]]. rewrite <- app_assoc.
    replay_binds ltac:(apply u64_Ok; by split). by destruct iv.
Qed.

(** A coverage entry read, then inserted unless its log id is present. *)
Lemma coverage_body_Ok (i : Z) s cov s' cov' :
  (fun _ '(s, cov) =>
      '(id, s) ← readLogId s;
      '(iv, s) ← readTimestampInterval s;
      match cov !! id with
      | Some _ => Err (Errorf "%w: duplicate coverage log id" [AErr ErrDeserialize])
      | None => Ok (s, <[id := iv]> cov)
      end) i (s, cov) = Ok (s', cov')
  <-> exists e, wf_entry wf_interval e /\ s = enc_coverage_entry e ++ s'
                /\ step_insert id cov e = Some cov'.
Proof.
  cbv beta iota. unfold readLogId, step_insert, enc_coverage_entry, wf_entry. split.
  - intros H. inv_binds H. apply id_Ok in E as [-> ?]. apply readTimestampInterval_Ok in E0 as [-> ?].
    destruct (cov !! _) eqn:Hc; [done|]. injection H as <- <-.
    eexists (_, _). simpl. rewrite Hc, <- app_assoc. done.
  - intros ([id iv] & [Hid Hiv] & -> & Hs). simpl in *. rewrite <- app_assoc.
    replay_binds ltac:(first [apply id_Ok; by split | apply readTimestampInterval_Ok; by split]).
    destruct (cov !! id); [done|]. by injection Hs as <-.
Qed.

Lemma readCoverage_Ok s cov r :
  readCoverage s = Ok (cov, r) <->
  exists l, wf_coverage l /\ s = enc_coverage l ++ r /\ cov = entries id l.
Proof.
  unfold readCoverage, wf_coverage, enc_coverage. split.
  - intros H. inv_binds H. apply u16_Ok in E as [-> Hc]. injection H as <- <-.
    apply (for_n_reads _ _ _ _ _ _ _ _ _ _ coverage_body_Ok) in E1 as (l & Hl & HF & -> & Hf).
    apply fold_step_insert_empty in Hf as [Hn ->]. exists l.
    assert (blen l = x) as <- by (unfold blen; lia).
    split; [split; [lia|by split]|]. by rewrite <- app_assoc.
  - intros (l & (Hc & HF & Hn) & -> & ->). rewrite <- app_assoc.
    assert (48 * length l <= length (encode_all enc_coverage_entry l))%nat as Hlen.
    { apply encode_all_length_le. eapply Forall_impl; [exact HF|].
      intros e [He _]. unfold enc_coverage_entry, enc_interval. len. }
    apply bind_pair_Ok. eexists _, _. split; [apply u16_Ok; split; [done|unfold blen in *; lia]|].
    apply bind_Ok. exists tt. split.
    { apply check_that_Ok, negb_true_iff, Z.ltb_ge. rewrite u64_small; unfold is_u64; len. }
    apply bind_pair_Ok. exists r, (entries id l). split; [|done].
    apply (for_n_reads _ _ _ _ _ _ _ _ _ _ coverage_body_Ok).
    exists l. split; [unfold blen; lia|]. split; [done|]. split; [done|].
    by apply fold_step_insert_empty.
Qed.

Lemma readU64Seq_Ok s v r :
  readU64Seq s = Ok (v, r) <-> s = enc_u64seq v ++ r /\ wf_u64seq v.
Proof.
  unfold readU64Seq, enc_u64seq, wf_u64seq.
  assert (forall count (i : Z) s acc s' acc',
    (fun i '(s, items) =>
      '(v, s) ← or_err (ReadUint64 s)
                  (Errorf "%w: u64 seq item %d/%d" [AErr ErrDeserialize; AInt i; AInt count]);
      Ok (s, items ++ [v])) i (s, acc) = Ok (s', acc')
    <-> exists v, is_u64 v /\ s = be_encode 8 v ++ s' /\ step_app acc v = Some acc') as Hbody.
  { intros count i s0 acc s' acc'. cbv beta iota. unfold step_app. split.
    - intros H. inv_binds H. apply u64_Ok in E as [-> ?]. injection H as <- <-. by eexists.
    - intros (v0 & Hv & -> & [= <-]). by replay_binds ltac:(apply u64_Ok; by split). }
  split.
  - intros H. inv_binds H. apply u32_Ok in E as [-> Hc]. injection H as <- <-.
    apply (for_n_reads _ _ _ _ _ _ _ _ _ _ (Hbody x)) in E1 as (l & Hl & HF & -> & Hf).
    rewrite fold_step_app in Hf. injection Hf as <-.
    unfold u32_range in Hc. assert (blen l = x) as <- by (unfold blen; lia).
    rewrite <- app_assoc. by split; [|split; [lia|]].
  - intros [-> [Hc HF]]. rewrite <- app_assoc.
    assert (8 * length v <= length (encode_all (be_encode 8) v))%nat as Hlen.
    { apply encode_all_length_le. eapply Forall_impl; [exact HF|]. intros z _. by rewrite length_be_encode. }
    apply bind_pair_Ok. eexists _, _. split; [apply u32_Ok; split; [done|unfold u32_range, blen in *; lia]|].
    apply bind_Ok. exists tt. split.
    { apply check_that_Ok, negb_true_iff, Z.ltb_ge. rewrite u64_small; unfold is_u64; len. }
    apply bind_pair_Ok. exists r, v. split; [|done].
    apply (for_n_reads _ _ _ _ _ _ _ _ _ _ (Hbody _)).
    exists v. split; [unfold blen; lia|]. by rewrite fold_step_app.
Qed.

Lemma exception_body_Ok (count i : Z) s acc s' acc' :
  (fun i '(s, exceptions) =>
      '(serial, s) ← or_err (ReadUint8LengthPrefixed s)
          (Errorf "%w: block meta exception %d/%d" [AErr ErrDeserialize; AInt i; AInt count]);
      Ok (s, {[serial]} ∪ exceptions)) i (s, acc) = Ok (s', acc')
  <-> exists b, blen b < 256 /\ s = enc_exception b ++ s' /\ step_add acc b = Some acc'.
Proof.
  cbv beta iota. unfold step_add, enc_exception. split.
  - intros H. inv_binds H. rewrite or_err_Ok, ReadUint8LengthPrefixed_spec in E.
    apply read_prefixed_Some in E as [-> Hb]; [|lia]. injection H as <- <-.
    exists x. split; [exact Hb|]. by rewrite <- app_assoc.
  - intros (b & Hb & -> & [= <-]). rewrite <- app_assoc.
    replay_binds ltac:(rewrite or_err_Ok, ReadUint8LengthPrefixed_spec;
      apply (read_prefixed_app 1); [lia|exact Hb]).
    done.
Qed.

Lemma readBlockMeta_Ok s meta r :
  readBlockMeta s = Ok (meta, r) <->
  exists m, wf_wire_meta m /\ s = enc_meta m ++ r /\ meta = meta_of m.
Proof.
  unfold readBlockMeta, enc_meta. split.
  - intros H. inv_binds H.
    apply u32_Ok in E as [-> Hm], E1 as [-> Ho], E2 as [-> Hgm], E3 as [-> Hgo].
    apply u8_Ok in E0 as [-> Hr], E4 as [-> Hi]. apply u16_Ok in E6 as [-> Hc].
    apply check_that_Ok, negb_true_iff, Z.ltb_ge in E5.
    apply (for_n_reads _ _ _ _ _ _ _ _ _ _ (exception_body_Ok _)) in E7 as (l & Hl & HF & -> & Hf).
    rewrite fold_step_add, (right_id_L ∅ (∪)) in Hf. injection Hf as <-. injection H as <- <-.
    match goal with
    | Hi : 0 <= ?inv < 256, E5 : ?inv <= 1, Hc : 0 <= ?n < 65536, Hl : length l = Z.to_nat ?n |- _ =>
        exists (mkWireMeta x x1 x3 x5 x7 (negb (inv =? 0)) l);
        assert (blen l = n) as Hbl by (unfold blen; lia);
        assert (Z.b2z (negb (inv =? 0)) = inv) as Hb
          by (assert (inv = 0 \/ inv = 1) as [-> | ->] by lia; done)
    end.
    split; [by constructor; simpl; (done || lia)|]. unfold meta_of.
    cbn [wm_approx_filter_m wm_approx_filter_rank wm_approx_filter_offset wm_exact_filter_m
         wm_exact_filter_offset wm_inverted wm_exceptions].
    rewrite Hb, Hbl, <- !app_assoc. by split.
  - intros (m & [] & -> & ->). rewrite <- !app_assoc.
    replay_binds ltac:(first
      [ apply u32_Ok; by split
      | apply u8_Ok; split; [reflexivity|]; first [assumption | by destruct (wm_inverted m)]
      | apply check_that_Ok; by destruct (wm_inverted m)
      | apply u16_Ok; split; [reflexivity|unfold blen in *; lia] ]).
    apply bind_pair_Ok. exists r, (list_to_set (wm_exceptions m)). split.
    + apply (for_n_reads _ _ _ _ _ _ _ _ _ _ (exception_body_Ok _)).
      exists (wm_exceptions m). rewrite fold_step_add, (right_id_L ∅ (∪)).
      split; [unfold blen; lia|]. done.
    + unfold meta_of. by destruct (wm_inverted m).
Qed.

Lemma index_body_Ok (count i : Z) s acc s' acc' :
  (fun i '(s, blocks) =>
      '(id, s) ← or_err (CopyBytes 32 s)
          (Errorf "%w: index block id %d/%d" [AErr ErrDeserialize; AInt i; AInt count]);
      '(meta, s) ← readBlockMeta s;
      match blocks !! id with
      | Some _ => Err (Errorf "%w: duplicate index block id" [AErr ErrDeserialize])
      | None => Ok (s, <[id := meta]> blocks)
      end) i (s, acc) = Ok (s', acc')
  <-> exists e, wf_entry wf_wire_meta e /\ s = enc_index_entry e ++ s'
                /\ step_insert meta_of acc e = Some acc'.
Proof.
  cbv beta iota. unfold step_insert, enc_index_entry, wf_entry. split.
  - intros H. inv_binds H. apply id_Ok in E as [-> ?].
    apply readBlockMeta_Ok in E0 as (m & Hm & -> & ->).
    destruct (acc !! _) eqn:Hc; [done|]. injection H as <- <-.
    exists (x, m). simpl. rewrite Hc, <- app_assoc. done.
  - intros ([id m] & [Hid Hm] & -> & Hs). simpl in *. rewrite <- app_assoc.
    apply bind_pair_Ok. eexists _, _. split; [apply id_Ok; by split|].
    apply bind_pair_Ok. eexists _, _. split; [apply readBlockMeta_Ok; by exists m|].
    destruct (acc !! id); [done|]. by injection Hs as <-.
Qed.

Lemma length_enc_index_entry (e : bytes * wire_meta) :
  length e.1 = 32%nat -> (52 <= length (enc_index_entry e))%nat.
Proof. intros He. unfold enc_index_entry, enc_meta. len. Qed.

Lemma readBlocks_Ok s blocks r :
  readBlocks s = Ok (blocks, r) <->
  exists l, wf_index l /\ s = enc_index l ++ r /\ blocks = entries meta_of l.
Proof.
  unfold readBlocks, wf_index, enc_index, minIndexEntrySize. split.
  - intros H. inv_binds H. apply u32_Ok in E as [-> Hc]. injection H as <- <-.
    apply (for_n_reads _ _ _ _ _ _ _ _ _ _ (index_body_Ok _)) in E1 as (l & Hl & HF & -> & Hf).
    apply fold_step_insert_empty in Hf as [Hn ->]. exists l. unfold u32_range in Hc.
    assert (blen l = x) as <- by (unfold blen; lia).
    split; [split; [lia|by split]|]. by rewrite <- app_assoc.
  - intros (l & (Hc & HF & Hn) & -> & ->). rewrite <- app_assoc.
    assert (52 * length l <= length (encode_all enc_index_entry l))%nat as Hlen.
    { apply encode_all_length_le. eapply Forall_impl; [exact HF|].
      intros e [He _]. by apply length_enc_index_entry. }
    apply bind_pair_Ok. eexists _, _.
    split; [apply u32_Ok; split; [done|unfold u32_range, blen in *; lia]|].
    apply bind_Ok. exists tt. split.
    { apply check_that_Ok, negb_true_iff, Z.ltb_ge. rewrite u64_small; unfold is_u64; len. }
    apply bind_pair_Ok. exists r, (entries meta_of l). split; [|done].
    apply (for_n_reads _ _ _ _ _ _ _ _ _ _ (index_body_Ok _)).
    exists l. split; [unfold blen; lia|]. split; [done|]. split; [done|].
    by apply fold_step_insert_empty.
Qed.

(** [validateBlocks] accepts exactly the filters whose ranks fit, in any order. *)
Lemma validateBlocks_Ok (f : Filter) (u : unit) :
  validateBlocks f = Ok u <-> map_Forall (fun _ meta => HRank meta <= blen (X f)) (Blocks f).
Proof.
  unfold validateBlocks. destruct (List.find _ _) as [[id meta]|] eqn:E.
  - split; [done|]. intros H. apply find_some in E as [Hin Hr].
    apply list_elem_of_In, elem_of_map_range in Hin. apply H in Hin. apply Z.ltb_lt in Hr. lia.
  - destruct u. split; [|done]. intros _ id meta Hm.
    apply elem_of_map_range, list_elem_of_In in Hm.
    apply (find_none _ _ E) in Hm. apply Z.ltb_ge in Hm. lia.
Qed.

Lemma column_body_Ok (count i : Z) s acc s' acc' :
  (fun i '(s, x) =>
      '(col, s) ← wrap_err (fun e =>
          Errorf "approx filter column %d/%d: %w" [AInt i; AInt count; AErr e]) (readU64Seq s);
      Ok (s, x ++ [col])) i (s, acc) = Ok (s', acc')
  <-> exists v, wf_u64seq v /\ s = enc_u64seq v ++ s' /\ step_app acc v = Some acc'.
Proof.
  cbv beta iota. unfold step_app. split.
  - intros H. inv_binds H. apply wrap_err_Ok, readU64Seq_Ok in E as [-> Hv].
    injection H as <- <-. by eexists.
  - intros (v & Hv & -> & [= <-]).
    by replay_binds ltac:(apply wrap_err_Ok, readU64Seq_Ok; by split).
Qed.

Lemma ranks_fit (l : list (bytes * wire_meta)) (n : Z) :
  NoDup l.*1 ->
  map_Forall (fun _ meta => HRank meta <= n) (entries meta_of l)
  <-> Forall (fun e => wm_approx_filter_rank e.2 <= n) l.
Proof.
  intros Hn. rewrite Forall_forall. split.
  - intros H [k m] Hin. apply (H k (meta_of m)). apply entries_Some; [done|]. by exists m.
  - intros H k meta Hk. apply entries_Some in Hk as (m & Hin & ->); [|done]. by apply (H (k, m)).
Qed.

Lemma readFilter_Ok s f r :
  readFilter s = Ok (f, r) <->
  exists w, wf_wire_filter w /\ s = enc_filter w ++ r /\ f = filter_of w.
Proof.
  unfold readFilter, wf_wire_filter, enc_filter. split.
  - intros H. inv_binds H. apply readBlocks_Ok in E as (l & Hl & -> & ->).
    apply u8_Ok in E0 as [-> Hc].
    apply (for_n_reads _ _ _ _ _ _ _ _ _ _ (column_body_Ok _)) in E1 as (cols & Hcl & HF & -> & Hf).
    rewrite fold_step_app in Hf. injection Hf as <-. apply wrap_err_Ok, readU64Seq_Ok in E2 as [-> Hy].
    apply validateBlocks_Ok in E3. injection H as <- <-. simpl in E3.
    apply ranks_fit in E3; [|by destruct Hl as (_ & _ & ?)].
    exists (mkWire [] l cols x5). cbn [w_index w_approx_filter w_exact_filter].
    match goal with H : length cols = Z.to_nat ?n |- _ =>
      assert (blen cols = n) as <- by (unfold blen; lia) end.
    split; [split; [done|]; split; [lia|]; by split|]. split; [|done].
    by rewrite <- !app_assoc.
  - intros (w & (Hl & Hc & HF & Hy & Hr) & -> & ->). rewrite <- !app_assoc.
    apply bind_pair_Ok. eexists _, _. split; [apply readBlocks_Ok; by eexists|].
    apply bind_pair_Ok. eexists _, _. split; [apply u8_Ok; split; [done|unfold blen in *; lia]|].
    apply bind_pair_Ok. exists (enc_u64seq (w_exact_filter w) ++ r), (w_approx_filter w). split.
    { apply (for_n_reads _ _ _ _ _ _ _ _ _ _ (column_body_Ok _)). exists (w_approx_filter w).
      rewrite fold_step_app. split; [unfold blen; lia|]. done. }
    apply bind_pair_Ok. eexists _, _. split; [apply wrap_err_Ok, readU64Seq_Ok; by split|].
    apply bind_Ok. exists tt. split; [|done].
    apply validateBlocks_Ok. simpl. apply ranks_fit; [by destruct Hl as (_ & _ & ?)|done].
Qed.

Lemma FromBytes_Ok data rf :
  FromBytes data = Ok rf <-> exists w, wf_wire w /\ data = enc_clubcard w /\ rf = clubcard_of w.
Proof.
  unfold FromBytes, wf_wire, enc_clubcard. split.
  - intros H. inv_binds H. apply u8_Ok in E as [-> _], E0 as [-> _].
    apply check_that_Ok, Z.eqb_eq in E1 as ->, E2 as ->.
    apply readCoverage_Ok in E3 as (l & Hl & -> & ->).
    apply readFilter_Ok in E4 as (w & Hw & -> & ->).
    apply check_that_Ok in E5. rewrite Empty_spec in E5. apply Z.eqb_eq in E5.
    destruct x8 as [|]; [|done]. injection H as <-.
    exists (mkWire l (w_index w) (w_approx_filter w) (w_exact_filter w)).
    split; [done|]. split; [|done]. by rewrite app_nil_r.
  - intros (w & [Hl Hw] & -> & ->). rewrite <- (app_nil_r (enc_filter w)).
    apply bind_pair_Ok. eexists _, _. split; [apply u8_Ok; split; [reflexivity|lia]|].
    apply bind_pair_Ok. eexists _, _. split; [apply u8_Ok; split; [reflexivity|lia]|].
    apply bind_Ok. exists tt. split; [done|]. apply bind_Ok. exists tt. split; [done|].
    apply bind_pair_Ok. eexists _, _. split; [apply readCoverage_Ok; by eexists|].
    apply bind_pair_Ok. eexists _, _. split; [apply readFilter_Ok; by exists w|].
    apply bind_Ok. exists tt. split; [|done]. apply check_that_Ok. by rewrite Empty_spec.
Qed.

(** ** Extension of the input *)
Lemma readCoverage_extend s cov r t :
  readCoverage s = Ok (cov, r) -> readCoverage (s ++ t) = Ok (cov, r ++ t).
Proof.
  rewrite !readCoverage_Ok. intros (l & Hl & -> & ->). exists l. by rewrite <- app_assoc.
Qed.

Lemma readFilter_extend s f r t :
  readFilter s = Ok (f, r) -> readFilter (s ++ t) = Ok (f, r ++ t).
Proof.
  rewrite !readFilter_Ok. intros (w & Hw & -> & ->). exists w. by rewrite <- app_assoc.
Qed.

Lemma FromBytes_extend data rf t :
  FromBytes data = Ok rf ->
  FromBytes (data ++ t)
  = if blen t =? 0 then Ok rf
    else Err (Errorf "%w: %d trailing bytes" [AErr ErrDeserialize; AInt (blen t)]).
Proof.
  unfold FromBytes. intros H. inv_binds H.
  apply u8_Ok in E as [-> Hv], E0 as [-> Hr]. rewrite <- !app_assoc.
  rewrite (proj2 (u8_Ok _ _ _ _)) by done. go_simp. rewrite (proj2 (u8_Ok _ _ _ _)) by done. go_simp.
  rewrite check_that_Ok in E1, E2. rewrite E1. go_simp. rewrite E2. go_simp.
  rewrite (readCoverage_extend _ _ _ t E3). go_simp.
  rewrite (readFilter_extend _ _ _ t E4). go_simp.
  rewrite check_that_Ok, Empty_spec, Z.eqb_eq in E5.
  destruct x8; [|done]. rewrite app_nil_l, Empty_spec. injection H as <-.
  by destruct (blen t =? 0).
Qed.

(** ** Errors *)
Definition is_deserialize (e : error) : Prop :=
  errors_Is e "crlite: failed to deserialize clubcard" = true
  /\ errors_Is e "crlite: unsupported clubcard version" = false.
Definition is_unsupported (e : error) : Prop :=
  errors_Is e "crlite: unsupported clubcard version" = true
  /\ errors_Is e "crlite: failed to deserialize clubcard" = false.

Ltac deser := fails; try done; try by split.

Lemma readCoverage_fails s : fails_with is_deserialize (readCoverage s).
Proof. unfold readCoverage. deser. Qed.

Lemma readFilter_fails s : fails_with is_deserialize (readFilter s).
Proof. unfold readFilter, validateBlocks. deser. Qed.

(** ** What a parsed filter satisfies *)
Lemma wf_meta_of (w : wire) (m : wire_meta) :
  wf_wire_meta m -> wm_approx_filter_rank m <= blen (w_approx_filter w) ->
  wf_meta (blen (w_approx_filter w)) (meta_of m).
Proof. intros [] ?. by constructor. Qed.

Lemma wf_filter_of (w : wire) : wf_wire_filter w -> wf_filter (filter_of w).
Proof.
  intros ((_ & HF & Hn) & Hc & Hx & Hy & Hr). constructor; simpl; [..|done|].
  - eapply Forall_impl; [exact Hx|]. by intros v [_ ?].
  - by destruct Hy.
  - intros k meta Hk. apply entries_Some in Hk as (m & Hin & ->); [|done].
    rewrite Forall_forall in HF. rewrite Forall_forall in Hr.
    destruct (HF _ Hin) as [Hlen Hm]. split; [done|]. apply wf_meta_of; [done|]. by apply (Hr (k, m)).
Qed.

Definition wf_coverage_map (cov : gmap bytes timestampInterval) : Prop :=
  map_Forall (fun id iv => length id = 32%nat /\ wf_interval iv) cov.

Lemma wf_coverage_of l : wf_coverage l -> wf_coverage_map (entries id l).
Proof.
  intros (_ & HF & Hn) k iv Hk. apply entries_Some in Hk as (iv' & Hin & ->); [|done].
  rewrite Forall_forall in HF. by apply (HF (k, iv')).
Qed.

Lemma FromBytes_wf_filter data rf :
  FromBytes data = Ok rf -> wf_filter (rf_filter rf) /\ wf_coverage_map (rf_coverage rf).
Proof.
  intros H. apply FromBytes_Ok in H as (w & [Hc Hf] & _ & ->).
  split; [by apply wf_filter_of|by apply wf_coverage_of].
Qed.

(** ** Properties *)

(** C9. The parser accepts exactly the V4 grammar: [FromBytes data] succeeds with
    [rf] if and only if [data] is the encoding of a well-formed abstract file
    (distinct log ids, distinct block ids, every rank within the column count, all
    counts and fields in range) whose decoded structure is [rf]. *)
Theorem FromBytes_grammar (data : bytes) (rf : RevocationFilter) :
  FromBytes data = Ok rf
  <-> exists w, wf_wire w /\ data = enc_clubcard w /\ rf = clubcard_of w.
Proof. apply FromBytes_Ok. Qed.

(** C32. Every filter the parser returns is well formed: 64-bit words in every
    column, 32-byte block and log ids, 32-bit offsets and moduli, and no rank above
    the column count, so [Contains] on it cannot index a missing column. *)
Theorem FromBytes_no_query_panic (data : bytes) (rf : RevocationFilter) (id : bytes)
    (meta : BlockMeta) (a serial : bytes) :
  FromBytes data = Ok rf -> Blocks (rf_filter rf) !! id = Some meta ->
  wf_filter (rf_filter rf) /\ wf_coverage_map (rf_coverage rf)
  /\ no_panic (Contains (rf_filter rf) meta a serial).
Proof.
  intros H Hid. destruct (FromBytes_wf_filter _ _ H) as [Hf Hc].
  split; [done|]. split; [done|]. by rewrite (Contains_query _ id) by done.
Qed.

(** C31. Parsing never panics, and its errors are classified: a first byte other than
    4 (with a second byte present) gives [ErrUnsupportedFormat], every other failure
    gives [ErrDeserialize], and no error matches both. *)
Theorem FromBytes_errors (data : bytes) :
  fails_with (match data with
              | v :: _ :: _ => if byte_val v =? 4 then is_deserialize else is_unsupported
              | _ => is_deserialize
              end) (FromBytes data).
Proof.
  unfold FromBytes. rewrite ReadUint8_spec.
  assert (forall b l, read_be 1 (b :: l) = Some (byte_val b, l)) as R.
  { intros b l. apply read_be_Some; [lia|].
    split; [|apply byte_val_range]. simpl. by rewrite Z.div_1_r, byte_of_Z_val. }
  destruct data as [|v [|r data]]; rewrite ?R; cbn [read_be]; go_simp;
    rewrite ?ReadUint8_spec, ?R; [by vm_compute|by vm_compute|]. go_simp.
  destruct (byte_val v =? 4); go_simp; [|by split].
  apply fails_bind; [by apply fails_check|intros _ _].
  apply fails_bind; [apply readCoverage_fails|intros [cov s] _].
  apply fails_bind; [apply readFilter_fails|intros [f s'] _].
  apply fails_bind; [by apply fails_check|intros _ _]. exact I.
Qed.

(** No truncation and no extension of an accepted file is accepted: appending
    [t] gives the trailing-bytes error with its length, and no strict prefix parses. *)
Theorem FromBytes_self_delimiting (data t : bytes) (rf : RevocationFilter) :
  FromBytes data = Ok rf -> t <> [] ->
  FromBytes (data ++ t)
  = Err (Errorf "%w: %d trailing bytes" [AErr ErrDeserialize; AInt (blen t)])
  /\ forall p q, data = p ++ q -> q <> [] -> is_ok (FromBytes p) = false.
Proof.
  intros H Ht. split.
  - rewrite (FromBytes_extend _ _ t H). destruct (Z.eqb_spec (blen t) 0); [|done].
    by destruct t.
  - intros p q -> Hq. destruct (FromBytes p) as [rf'| | |] eqn:Hp; [|done..].
    rewrite (FromBytes_extend _ _ q Hp) in H. destruct (Z.eqb_spec (blen q) 0); [|done].
    by destruct q.
Qed.

End Grammar.

(** ** Witnesses *)

(** A one-issuer file: one log, one block of rank 1 with one exception. *)
Definition sample_wire : wire :=
  mkWire [(replicate 32 Init.Byte.x0a, mkInterval 100 200)]
    [(replicate 32 Init.Byte.x0b, mkWireMeta 1 1 0 1 0 false [[Init.Byte.x99]])]
    [[0; 0; 0; 0]] [0; 0; 0; 0].

Lemma sample_wire_wf : wf_wire sample_wire.
Proof.
  unfold wf_wire, wf_coverage, wf_wire_filter, wf_index, wf_entry, wf_interval, wf_u64seq, is_u64.
  simpl. unfold blen. simpl.
  repeat split; repeat constructor; simpl; unfold u32_range, is_u64, blen; simpl;
    try lia; try done; try set_solver.
Defined.

Lemma FromBytes_no_query_panic_witness :
  exists rf meta, FromBytes (enc_clubcard sample_wire) = Ok rf
  /\ Blocks (rf_filter rf) !! replicate 32 Init.Byte.x0b = Some meta
  /\ no_panic (Contains (rf_filter rf) meta (replicate 32 Init.Byte.x00) [Init.Byte.x01]).
Proof.
  exists (clubcard_of sample_wire), (meta_of (mkWireMeta 1 1 0 1 0 false [[Init.Byte.x99]])).
  assert (FromBytes (enc_clubcard sample_wire) = Ok (clubcard_of sample_wire)) as H
    by (vm_compute; reflexivity).
  assert (Blocks (rf_filter (clubcard_of sample_wire)) !! replicate 32 Init.Byte.x0b
          = Some (meta_of (mkWireMeta 1 1 0 1 0 false [[Init.Byte.x99]]))) as H'
    by (vm_compute; reflexivity).
  split; [exact H|]. split; [exact H'|].
  exact (proj2 (proj2 (FromBytes_no_query_panic _ _ _ _
    (replicate 32 Init.Byte.x00) [Init.Byte.x01] H H'))).
Defined.

Lemma FromBytes_grammar_witness :
  FromBytes (enc_clubcard sample_wire) = Ok (clubcard_of sample_wire).
Proof.
  apply (FromBytes_grammar (C := cryptobyte_ref) (M := map_range_ref)).
  exists sample_wire. split; [apply sample_wire_wf|]. by split.
Defined.

Lemma FromBytes_errors_witness :
  fails_with is_unsupported (FromBytes [Init.Byte.x03; Init.Byte.x00]).
Proof. exact (FromBytes_errors (L := cryptobyte_ref_laws) [Init.Byte.x03; Init.Byte.x00]). Defined.

Lemma FromBytes_self_delimiting_witness :
  is_ok (FromBytes (take 50 (enc_clubcard sample_wire))) = false.
Proof.
  assert (FromBytes (enc_clubcard sample_wire) = Ok (clubcard_of sample_wire)) as H
    by (vm_compute; reflexivity).
  apply (proj2 (FromBytes_self_delimiting _ [Init.Byte.x00] _ H ltac:(discriminate))
    _ (drop 50 (enc_clubcard sample_wire))).
  - symmetry. apply take_drop.
  - vm_compute. discriminate.
Defined.
