(* ===== verification/Crlite.v ===== *)
(** * Querying a CRLite filter ([crlite/crlite.go])

    [LookupKey], [Status], [RevocationFilter.Contains] and its per-SCT probe
    [containsAt], and the two coverage cutoffs. *)
From stdpp Require Import pretty.
From S2P Require Import Prelude Sha256 Clubcard CrliteParser Cryptobyte Codec.

(** ** Data *)
Record LookupKey := mkLookupKey {
  Issuer : bytes;
  Serial : bytes;
  IssuerSerialHash : bytes
}.

Inductive Status := StatusGood | StatusNotCovered | StatusNotEnrolled | StatusRevoked.
#[export] Instance Status_eq_dec : EqDecision Status.
Proof. solve_decision. Defined.

Record LogTimestamp := mkLogTimestamp { lt_LogId : bytes; lt_Timestamp : Z }.

(** ** Operations *)
Definition NewKey (issuer serial : bytes) : LookupKey :=
  mkLookupKey issuer serial (sha256_Sum256 (issuer ++ serial)).

(** The integer of a [Status] and its [String] method (generated by stringer). *)
Definition Status_int (s : Status) : Z :=
  match s with
  | StatusGood => 0 | StatusNotCovered => 1 | StatusNotEnrolled => 2 | StatusRevoked => 3
  end.
Definition Status_name : bytes := go_string "GoodNotCoveredNotEnrolledRevoked".
Definition Status_index : list Z := [0; 4; 14; 25; 32].

(** The body stringer generates for a type with the given tables. *)
Definition stringer (name : bytes) (idx : list Z) (i : Z) : result bytes :=
  if (i <? 0) || (blen idx - 1 <=? i)
  then Ok (go_string "Status(" ++ go_string (pretty i) ++ go_string ")")
  else lo ← index idx i; hi ← index idx (i + 1); slice name lo hi.
Definition Status_String (i : Z) : result bytes := stringer Status_name Status_index i.

Definition containsAt (c : RevocationFilter) (key : LookupKey) (t : LogTimestamp) : result Status :=
  match rf_coverage c !! lt_LogId t with
  | None => Ok StatusNotCovered
  | Some iv =>
      if (lt_Timestamp t <? low iv) || (high iv <? lt_Timestamp t) then Ok StatusNotCovered else
      match Blocks (rf_filter c) !! Issuer key with
      | None => Ok StatusNotEnrolled
      | Some meta =>
          b ← Contains (rf_filter c) meta (IssuerSerialHash key) (Serial key);
          if (b : bool) then Ok StatusRevoked else Ok StatusGood
      end
  end.

Fixpoint RevocationFilter_Contains (c : RevocationFilter) (key : LookupKey)
    (timestamps : list LogTimestamp) : result Status :=
  match timestamps with
  | [] => Ok StatusNotCovered
  | t :: ts =>
      status ← containsAt c key t;
      match (status : Status) with
      | StatusNotCovered => RevocationFilter_Contains c key ts
      | _ => Ok status
      end
  end.

Definition NewestCoverageCutoff `{MapRange} (c : RevocationFilter) : Z :=
  fold_left (fun newest '(_, iv) => if newest <? high iv then high iv else newest)
    (map_range (rf_coverage c)) 0.

Definition CoverageCutoffForLog (c : RevocationFilter) (id : bytes) : Z * bool :=
  match rf_coverage c !! id with
  | None => (0, false)
  | Some iv => (high iv, true)
  end.

(** ** Specification *)

(** The filter covers the pair: the log is in the coverage map and the timestamp
    lies in its closed interval. *)
Definition covers (c : RevocationFilter) (t : LogTimestamp) : Prop :=
  exists iv, rf_coverage c !! lt_LogId t = Some iv /\ low iv <= lt_Timestamp t <= high iv.

#[export] Instance covers_dec c t : Decision (covers c t).
Proof.
  unfold covers. destruct (rf_coverage c !! lt_LogId t) as [iv|].
  - destruct (decide (low iv <= lt_Timestamp t /\ lt_Timestamp t <= high iv)) as [H|H].
    + left. exists iv. split; [done|lia].
    + right. intros (iv' & [= <-] & H'). apply H. lia.
  - right. intros (iv & ? & _). done.
Defined.

(** The answer for a covered certificate. *)
Definition conclusive (c : RevocationFilter) (key : LookupKey) : Status :=
  match Blocks (rf_filter c) !! Issuer key with
  | None => StatusNotEnrolled
  | Some meta =>
      if query_spec (rf_filter c) meta (IssuerSerialHash key) (Serial key)
      then StatusRevoked else StatusGood
  end.

Definition contains_spec (c : RevocationFilter) (key : LookupKey) (ts : list LogTimestamp) : Status :=
  if decide (Exists (covers c) ts) then conclusive c key else StatusNotCovered.

(** ** Lemmas *)
Lemma conclusive_covered c key : conclusive c key <> StatusNotCovered.
Proof. unfold conclusive. by repeat case_match. Qed.

Lemma containsAt_spec c key t :
  wf_filter (rf_filter c) ->
  containsAt c key t = Ok (if decide (covers c t) then conclusive c key else StatusNotCovered).
Proof.
  intros Hf. unfold containsAt. destruct (decide (covers c t)) as [(iv & Hiv & Hr)|Hn].
  - rewrite Hiv. destruct (Z.ltb_spec (lt_Timestamp t) (low iv)); [lia|].
    destruct (Z.ltb_spec (high iv) (lt_Timestamp t)); [lia|]. simpl. unfold conclusive.
    destruct (Blocks (rf_filter c) !! Issuer key) as [meta|] eqn:Hb; [|done].
    rewrite (Contains_query _ _ _ _ _ Hf Hb). go_simp. by destruct (query_spec _ _ _ _).
  - destruct (rf_coverage c !! lt_LogId t) as [iv|] eqn:Hiv; [|done].
    destruct (Z.ltb_spec (lt_Timestamp t) (low iv)); [done|].
    destruct (Z.ltb_spec (high iv) (lt_Timestamp t)); [done|].
    destruct Hn. exists iv. split; [done|lia].
Qed.

Lemma RevocationFilter_Contains_eq c key ts :
  wf_filter (rf_filter c) ->
  RevocationFilter_Contains c key ts = Ok (contains_spec c key ts).
Proof.
  intros Hf. unfold contains_spec. induction ts as [|t ts IH]; cbn [RevocationFilter_Contains].
  { destruct (decide _) as [H|]; [|done]. inversion H. }
  rewrite containsAt_spec by done. go_simp.
  destruct (decide (covers c t)) as [Ht|Ht].
  - destruct (decide (Exists _ (t :: ts))) as [_|Hn]; [|by destruct Hn; left].
    pose proof (conclusive_covered c key). by destruct (conclusive c key).
  - rewrite IH. destruct (decide (Exists _ ts)) as [H|H], (decide (Exists _ (t :: ts))) as [H'|H']; try done.
    + destruct H'. by right.
    + apply Exists_cons in H' as [?|?]; done.
Qed.

(** The running maximum of [NewestCoverageCutoff]. *)
Lemma newest_fold (l : list (bytes * timestampInterval)) (z : Z) :
  let r := fold_left (fun newest '(_, iv) => if newest <? high iv then high iv else newest) l z in
  z <= r /\ Forall (fun e => high e.2 <= r) l /\ (r = z \/ exists e, e ∈ l /\ r = high e.2).
Proof.
  revert z. induction l as [|[k iv] l IH]; intros z; cbn [fold_left].
  { simpl. split; [lia|]. split; [done|by left]. }
  specialize (IH (if z <? high iv then high iv else z)). cbv zeta in *.
  destruct IH as (H1 & H2 & H3). destruct (Z.ltb_spec z (high iv)) as [Hz|Hz];
    (split; [lia|]; split; [constructor; [simpl; lia|done]|]).
  - destruct H3 as [H3|(e & He & H3)]; right; [exists (k, iv)|exists e]; split; (done || set_solver).
  - destruct H3 as [H3|(e & He & H3)]; [by left|right; exists e; split; [set_solver|done]].
Qed.

(** An integer outside the table is printed as a number. *)
Lemma stringer_out name idx i :
  ~ (0 <= i < blen idx - 1) ->
  stringer name idx i = Ok (go_string "Status(" ++ go_string (pretty i) ++ go_string ")").
Proof.
  intros H. unfold stringer.
  by destruct (Z.ltb_spec i 0), (Z.leb_spec (blen idx - 1) i); [..|lia].
Qed.

(** ** Properties *)

(** C23. On a parsed filter, [RevocationFilter.Contains] returns (no panic) and
    depends on the timestamps only through whether some pair is covered: if none is
    it answers NotCovered; otherwise NotEnrolled when the issuer has no block, and
    Revoked or Good by the block's Query on the certificate's hash and serial. *)
Theorem Contains_status_spec {C : Cryptobyte} {L : CryptobyteLaws C} {M : MapRange} (data : bytes)
    (c : RevocationFilter) (key : LookupKey) (ts : list LogTimestamp) :
  FromBytes data = Ok c ->
  RevocationFilter_Contains c key ts
  = Ok (if decide (Exists (covers c) ts)
        then match Blocks (rf_filter c) !! Issuer key with
             | None => StatusNotEnrolled
             | Some meta =>
                 if query_spec (rf_filter c) meta (IssuerSerialHash key) (Serial key)
                 then StatusRevoked else StatusGood
             end
        else StatusNotCovered).
Proof.
  intros Hd. apply RevocationFilter_Contains_eq. by destruct (FromBytes_wf_filter _ _ Hd).
Qed.

(** The order and the multiplicity of the SCTs do not matter: two lists with the
    same members get the same answer from a parsed filter. *)
Lemma Contains_sct_set {C : Cryptobyte} {L : CryptobyteLaws C} {M : MapRange} (data : bytes)
    (c : RevocationFilter) (key : LookupKey) (ts ts' : list LogTimestamp) :
  FromBytes data = Ok c -> (forall t, t ∈ ts <-> t ∈ ts') ->
  RevocationFilter_Contains c key ts = RevocationFilter_Contains c key ts'.
Proof.
  intros Hd Hts. destruct (FromBytes_wf_filter _ _ Hd) as [Hf _].
  rewrite !RevocationFilter_Contains_eq by done. unfold contains_spec. f_equal.
  apply decide_ext. rewrite !Exists_exists. by setoid_rewrite Hts.
Qed.

(** C38. [NewestCoverageCutoff] is the greatest upper bound of the coverage map, 0
    when the map is empty, whatever order the map is visited in. *)
Theorem NewestCoverageCutoff_max `{MapRange} (c : RevocationFilter) :
  wf_coverage_map (rf_coverage c) ->
  (forall id, (CoverageCutoffForLog c id).1 <= NewestCoverageCutoff c)
  /\ (rf_coverage c = ∅ -> NewestCoverageCutoff c = 0)
  /\ (rf_coverage c <> ∅ -> exists id, CoverageCutoffForLog c id = (NewestCoverageCutoff c, true)).
Proof.
  intros Hwf. unfold NewestCoverageCutoff, CoverageCutoffForLog.
  destruct (newest_fold (map_range (rf_coverage c)) 0) as (H0 & Hall & Hr).
  set (r := fold_left _ _ _) in *. rewrite Forall_forall in Hall.
  split; [|split].
  - intros id. destruct (rf_coverage c !! id) as [iv|] eqn:E; simpl; [|done].
    apply (Hall (id, iv)), elem_of_map_range, E.
  - intros He. destruct Hr as [Hr|([k iv] & Hin & _)]; [done|].
    apply elem_of_map_range in Hin. by rewrite He in Hin.
  - intros Hne. destruct Hr as [Hr|([k iv] & Hin & Hr)].
    + destruct (map_choose _ Hne) as (k & iv & Hk). exists k. rewrite Hk. f_equal.
      pose proof (Hall (k, iv) (proj2 (elem_of_map_range _ _ _) Hk)) as Hle. simpl in Hle.
      destruct (Hwf k iv Hk) as (_ & _ & [Hh _]). lia.
    + apply elem_of_map_range in Hin. exists k. by rewrite Hin, Hr.
Qed.

(** [Status.String] names the four statuses, prints any other integer as
    Status(n), and never panics. *)
Lemma Status_String_spec (i : Z) :
  Status_String i
  = Ok (if i =? Status_int StatusGood then go_string "Good"
        else if i =? Status_int StatusNotCovered then go_string "NotCovered"
        else if i =? Status_int StatusNotEnrolled then go_string "NotEnrolled"
        else if i =? Status_int StatusRevoked then go_string "Revoked"
        else go_string "Status(" ++ go_string (pretty i) ++ go_string ")").
Proof.
  unfold Status_String. destruct (decide (0 <= i < 4)) as [H|H].
  - assert (i = 0 \/ i = 1 \/ i = 2 \/ i = 3) as [-> | [-> | [-> | ->]]] by lia; by vm_compute.
  - rewrite stringer_out by done. cbn [Status_int].
    destruct (Z.eqb_spec i 0), (Z.eqb_spec i 1), (Z.eqb_spec i 2), (Z.eqb_spec i 3); lia || done.
Qed.

(** ** Witnesses *)
Definition sample_filter : RevocationFilter := clubcard_of sample_wire.
Definition sample_key : LookupKey := NewKey (replicate 32 Init.Byte.x0b) [Init.Byte.x01].
Definition sample_sct (t : Z) : LogTimestamp := mkLogTimestamp (replicate 32 Init.Byte.x0a) t.

Lemma Contains_status_spec_witness :
  RevocationFilter_Contains sample_filter sample_key [sample_sct 99; sample_sct 200] = Ok StatusRevoked
  /\ RevocationFilter_Contains sample_filter sample_key [sample_sct 99; sample_sct 201] = Ok StatusNotCovered.
Proof.
  assert (FromBytes (enc_clubcard sample_wire) = Ok sample_filter) as H by (vm_compute; reflexivity).
  split; rewrite (Contains_status_spec _ _ _ _ H); vm_compute; reflexivity.
Defined.

Lemma Contains_sct_set_witness :
  RevocationFilter_Contains sample_filter sample_key [sample_sct 99; sample_sct 200]
  = RevocationFilter_Contains sample_filter sample_key [sample_sct 200; sample_sct 99; sample_sct 99].
Proof.
  apply (Contains_sct_set (enc_clubcard sample_wire)); [vm_compute; reflexivity|]. set_solver.
Defined.

Lemma NewestCoverageCutoff_max_witness :
  exists id, CoverageCutoffForLog sample_filter id = (NewestCoverageCutoff sample_filter, true).
Proof.
  apply (NewestCoverageCutoff_max sample_filter).
  - apply wf_coverage_of. apply sample_wire_wf.
  - intros H. apply (f_equal (fun m => is_ok (or_err (m !! replicate 32 Init.Byte.x0a) EOF))) in H.
    vm_compute in H. discriminate H.
Defined.
