(* ===== verification/Ribbon.v ===== *)
(** * Ribbons: incremental linear systems over GF(2) ([internal/test/clubcard_encode.go])

    [equation] with [isZero], [add] and [eval], and [ribbon] with [insert] and
    [solve].  An equation asks that the dot product of its 256 coefficients with the
    solution's bits from [s] be its constant term.  The main results: [insert]
    terminates, keeps the system triangular and refuses exactly the equations that
    contradict it, and [solve] satisfies every equation inserted. *)
From S2P Require Import Prelude Clubcard.

(** ** Data *)

(** [a] is a [[4]uint64]; [limb_of] reads it. *)
Record equation := mkEquation { eq_s : Z; eq_a : list Z; eq_b : Z }.
Definition limb_of (a : list Z) (i : nat) : Z := nth i a 0.
Definition zero_equation : equation := mkEquation 0 [0; 0; 0; 0] 0.

(** A [*rand.Rand]: the next 64-bit value of a source. *)
Class RandSource := {
  rand_state : Type;
  Uint64 : rand_state -> Z * rand_state
}.

(** The generator of [rand.NewPCG] of math/rand/v2: a 128-bit linear congruential state
    and its DXSM output. *)
#[export] Instance pcg : RandSource := {
  rand_state := Z;
  Uint64 st :=
    let st := (st * (2549297995355413924 * 2 ^ 64 + 4865540595714422341)
               + (6364136223846793005 * 2 ^ 64 + 1442695040888963407)) `mod` 2 ^ 128 in
    let hi := st `div` 2 ^ 64 in
    let lo := st `mod` 2 ^ 64 in
    let hi := Z.lxor hi (Z.shiftr hi 32) in
    let hi := u64 (hi * 15750249268501108917) in
    let hi := Z.lxor hi (Z.shiftr hi 48) in
    (u64 (hi * Z.lor lo 1), st)
}.
Definition NewPCG (seed1 seed2 : Z) : @rand_state pcg := seed1 * 2 ^ 64 + seed2.

(** ** Operations *)
Definition isZero (e : equation) : bool := bool_decide (eq_a e = [0; 0; 0; 0]).

(** [bits.TrailingZeros64] *)
Fixpoint tz_from (n : nat) (lo x : Z) : Z :=
  match n with
  | O => lo
  | S m => if Z.testbit x lo then lo else tz_from m (lo + 1) x
  end.
Definition TrailingZeros64 (x : Z) : Z := tz_from 64 0 x.

(** The loop [for e.a[0] == 0] of [add]. *)
Fixpoint skip_limbs (fuel : nat) (e : equation) : result equation :=
  match fuel with
  | O => OutOfFuel
  | S fuel =>
      if limb_of (eq_a e) 0 =? 0
      then skip_limbs fuel
             (mkEquation (u64 (eq_s e + 64))
                [limb_of (eq_a e) 1; limb_of (eq_a e) 2; limb_of (eq_a e) 3; 0] (eq_b e))
      else Ok e
  end.

(** The four limbs shifted right by [k] bits. *)
Definition shift_limbs (a : list Z) (k : Z) : list Z :=
  let word i := Z.lor (Z.shiftr (limb_of a i) k) (u64 (Z.shiftl (limb_of a (S i)) (64 - k))) in
  [word 0%nat; word 1%nat; word 2%nat; Z.shiftr (limb_of a 3) k].

(** What [add] does after the sum. *)
Definition realign (e : equation) : result equation :=
  e ← skip_limbs 4 e;
  let k := TrailingZeros64 (limb_of (eq_a e) 0) in
  if k =? 0 then Ok e else
  Ok (mkEquation (u64 (eq_s e + k)) (shift_limbs (eq_a e) k) (eq_b e)).

Definition add (e other : equation) : result equation :=
  let e := mkEquation (eq_s e) (zip_with Z.lxor (eq_a e) (eq_a other))
             (Z.lxor (eq_b e) (eq_b other)) in
  if isZero e then Ok e else realign e.

(** The body of the loop of [eval], for word [i] of the column. *)
Definition eval_word (e : equation) (z : list Z) (limb shift i r : Z) : result Z :=
  zi ← index z i;
  tmp ← (if negb (shift =? 0) && (i + 1 <? blen z)
         then zj ← index z (i + 1);
              Ok (Z.lor (Z.shiftr zi shift) (u64 (Z.shiftl zj (64 - shift))))
         else Ok (Z.shiftr zi shift));
  k ← index (eq_a e) (i - limb);
  Ok (Z.lxor r (Z.land tmp k)).

Definition eval (e : equation) (z : list Z) : result Z :=
  let limb := eq_s e `div` 64 in
  let shift := eq_s e `mod` 64 in
  r ← for_n (Z.to_nat (Z.min (blen z) (limb + 4) - limb)) limb (eval_word e z limb shift) 0;
  Ok (Z.land (OnesCount64 r) 1).

Definition newRibbon (m : Z) : list equation := replicate (Z.to_nat m) zero_equation.

(** The body of the loop of [insert], on the rows and the equation being reduced;
    the inner loop appends zero rows until row [eq.s] exists. *)
Definition insert_step (st : list equation * equation)
    : (list equation * equation) + result (list equation * bool) :=
  let '(rows, eq) := st in
  if isZero eq then inr (Ok (rows, eq_b eq =? 0)) else
  let rows := rows ++ replicate (Z.to_nat (eq_s eq + 1 - blen rows)) zero_equation in
  match index rows (eq_s eq) with
  | Ok cur =>
      if isZero cur then inr (Ok (<[Z.to_nat (eq_s eq) := eq]> rows, true)) else
      match add eq cur with
      | Ok eq => inl (rows, eq)
      | Err e => inr (Err e)
      | Panic => inr Panic
      | OutOfFuel => inr OutOfFuel
      end
  | Err e => inr (Err e)
  | Panic => inr Panic
  | OutOfFuel => inr OutOfFuel
  end.

Definition insert (rows : list equation) (eq : equation) : result (list equation * bool) :=
  run_loop (Z.to_pos (blen rows + 2)) insert_step (rows, eq).

(** [z[i/64] |= zi << (i % 64)] *)
Definition set_bit (z : list Z) (i zi : Z) : result (list Z) :=
  w ← index z (i `div` 64);
  Ok (<[Z.to_nat (i `div` 64) := Z.lor w (u64 (Z.shiftl zi (i `mod` 64)))]> z).

Section Solve.
Context {R : RandSource}.

(** The loop of [solve], for the rows below [n], downwards. *)
Fixpoint solve_rows (rows : list equation) (n : nat) (z : list Z) (rng : rand_state)
    : result (list Z * rand_state) :=
  match n with
  | O => Ok (z, rng)
  | S i =>
      row ← index rows (Z.of_nat i);
      '(zi, rng) ← (if isZero row
                    then let '(x, rng) := Uint64 rng in Ok (Z.land x 1, rng)
                    else d ← eval row z; Ok (Z.lxor d (eq_b row), rng));
      z ← set_bit z (Z.of_nat i) zi;
      solve_rows rows i z rng
  end.

Definition solve (rows : list equation) (rng : rand_state) : result (list Z * rand_state) :=
  solve_rows rows (length rows)
    (replicate (Z.to_nat ((blen rows + 63) `div` 64 + 4)) 0) rng.
End Solve.

(** ** Specification *)

(** The column [z] satisfies the equation. *)
Definition sat (z : list Z) (e : equation) : Prop :=
  gf2_dot z (eq_s e) (eq_a e) = Z.testbit (eq_b e) 0.

(** A coefficient vector of four words, a constant of one bit, and no coefficient at
    or past the position [bound]. *)
Record wf_equation (bound : Z) (e : equation) : Prop := {
  we_s : 0 <= eq_s e;
  we_len : length (eq_a e) = 4%nat;
  we_words : words (eq_a e);
  we_b : 0 <= eq_b e < 2;
  we_bound j : 0 <= j < 256 -> vec_bit (eq_a e) j = true -> eq_s e + j < bound
}.

(** [equation] "aligned": its first coefficient is set. *)
Definition aligned (e : equation) : Prop := vec_bit (eq_a e) 0 = true.

(** A triangular system: a row is zero, or starts at its own position. *)
Definition wf_rows (bound : Z) (rows : list equation) : Prop :=
  blen rows <= bound /\
  forall i row, rows !! i = Some row ->
    row = zero_equation \/ (wf_equation bound row /\ aligned row /\ eq_s row = Z.of_nat i).

(** Every non-zero row holds. *)
Definition sat_all (z : list Z) (rows : list equation) : Prop := Forall (sat z) rows.

(** ** Coefficient vectors *)
Lemma nth_zip_lxor (a b : list Z) (k : nat) :
  length a = length b -> nth k (zip_with Z.lxor a b) 0 = Z.lxor (nth k a 0) (nth k b 0).
Proof.
  revert b k. induction a as [|x a IH]; intros [|y b] k Hl; simpl in Hl; try lia.
  - by destruct k.
  - destruct k; simpl; [done|]. apply IH. lia.
Qed.

Lemma vec_bit_lxor (a b : list Z) (j : Z) :
  length a = length b -> vec_bit (zip_with Z.lxor a b) j = xorb (vec_bit a j) (vec_bit b j).
Proof. intros Hl. unfold vec_bit. by rewrite nth_zip_lxor, Z.lxor_spec by done. Qed.

Lemma lxor_u64 (x y : Z) : is_u64 x -> is_u64 y -> is_u64 (Z.lxor x y).
Proof.
  intros Hx Hy. split; [apply Z.lxor_nonneg; unfold is_u64 in *; lia|].
  destruct (Z.eq_dec (Z.lxor x y) 0) as [->|Hn]; [lia|].
  assert (0 <= Z.lxor x y) by (apply Z.lxor_nonneg; unfold is_u64 in *; lia).
  apply Z.log2_lt_pow2; [lia|].
  destruct (Z.lt_ge_cases (Z.log2 (Z.lxor x y)) 64) as [|Hge]; [done|exfalso].
  assert (Z.testbit (Z.lxor x y) (Z.log2 (Z.lxor x y)) = true) as Hb by (apply Z.bit_log2; lia).
  rewrite Z.lxor_spec, !testbit_u64_high in Hb by done. done.
Qed.

Lemma lor_u64 (x y : Z) : is_u64 x -> is_u64 y -> is_u64 (Z.lor x y).
Proof.
  intros [? ?] [? ?]. split; [by apply Z.lor_nonneg|].
  destruct (Z.eq_dec x 0) as [->|]; [by rewrite Z.lor_0_l|].
  destruct (Z.eq_dec y 0) as [->|]; [by rewrite Z.lor_0_r|].
  assert (0 <= Z.lor x y) by (by apply Z.lor_nonneg).
  destruct (Z.eq_dec (Z.lor x y) 0) as [->|]; [lia|]. apply Z.log2_lt_pow2; [lia|].
  rewrite Z.log2_lor by lia. apply Z.max_lub_lt; apply Z.log2_lt_pow2; lia.
Qed.

Lemma shiftr_u64 (x k : Z) : is_u64 x -> 0 <= k -> is_u64 (Z.shiftr x k).
Proof.
  intros [? ?] Hk. split; [by apply Z.shiftr_nonneg|]. rewrite Z.shiftr_div_pow2 by lia.
  pose proof (Z.pow_pos_nonneg 2 k ltac:(lia) Hk). apply Z.div_lt_upper_bound; nia.
Qed.

Lemma words_lxor (a b : list Z) : words a -> words b -> words (zip_with Z.lxor a b).
Proof.
  unfold words. intros Ha. revert b. induction Ha as [|x a Hx Ha IH]; intros b Hb; simpl; [constructor|].
  destruct Hb; constructor; [by apply lxor_u64|by apply IH].
Qed.

(** A non-zero vector has a coefficient. *)
Lemma nonzero_limb (a : list Z) (k : nat) :
  words a -> (k < 4)%nat -> limb_of a k <> 0 -> exists j, 64 * Z.of_nat k <= j < 256 /\ vec_bit a j = true.
Proof.
  intros Hw Hk Hn. pose proof (words_nth a k Hw) as [H0 H1]. unfold limb_of in Hn.
  exists (64 * Z.of_nat k + Z.log2 (nth k a 0)).
  pose proof (Z.log2_nonneg (nth k a 0)).
  assert (Z.log2 (nth k a 0) < 64) by (apply Z.log2_lt_pow2; lia).
  split; [lia|]. rewrite vec_bit_word, Nat2Z.id by lia. apply Z.bit_log2. lia.
Qed.

Lemma isZero_false_limb (e : equation) :
  length (eq_a e) = 4%nat -> isZero e = false -> exists k, (k < 4)%nat /\ limb_of (eq_a e) k <> 0.
Proof.
  unfold isZero. rewrite bool_decide_eq_false. intros Hl Hn.
  destruct (eq_a e) as [|x0 [|x1 [|x2 [|x3 [|]]]]]; try done.
  destruct (Z.eq_dec x0 0) as [->|]; [|by exists 0%nat; split; [lia|]].
  destruct (Z.eq_dec x1 0) as [->|]; [|by exists 1%nat; split; [lia|]].
  destruct (Z.eq_dec x2 0) as [->|]; [|by exists 2%nat; split; [lia|]].
  destruct (Z.eq_dec x3 0) as [->|]; [|by exists 3%nat; split; [lia|]].
  done.
Qed.

Lemma gf2_dot_zero (z : list Z) (s : Z) : gf2_dot z s [0; 0; 0; 0] = false.
Proof.
  apply xorn_false. intros j Hj. unfold vec_bit at 2.
  replace (nth _ _ 0) with 0; [by rewrite Z.testbit_0_l, andb_false_r|].
  destruct (Z.to_nat (j `div` 64)) as [|[|[|[|[|]]]]]; done.
Qed.

Lemma gf2_dot_lxor (z : list Z) (s : Z) (a b : list Z) :
  length a = length b ->
  gf2_dot z s (zip_with Z.lxor a b) = xorb (gf2_dot z s a) (gf2_dot z s b).
Proof.
  intros Hl. unfold gf2_dot. rewrite <- xorn_xorb. apply xorn_ext. intros j _.
  rewrite vec_bit_lxor by done. by destruct (vec_bit z _), (vec_bit a j), (vec_bit b j).
Qed.

(** Moving the start over [d] zero coefficients does not change the dot product. *)
Lemma gf2_dot_shift (z : list Z) (s d : Z) (a a' : list Z) :
  length a = 4%nat -> 0 <= d ->
  (forall j, 0 <= j < d -> vec_bit a j = false) ->
  (forall j, 0 <= j < 256 -> vec_bit a' j = vec_bit a (d + j)) ->
  gf2_dot z (s + d) a' = gf2_dot z s a.
Proof.
  intros Hl Hd Hlow Hbits. unfold gf2_dot. set (g := fun j => vec_bit z (s + j) && vec_bit a j).
  rewrite (xorn_ext _ (fun j => g (d + j))).
  2: { intros j Hj. unfold g. rewrite Hbits by lia. do 2 f_equal. lia. }
  rewrite xorn_shift, Z.add_0_r.
  transitivity (xorn g 0 (Z.to_nat d + 256)).
  - rewrite xorn_app, (xorn_false g 0).
    + rewrite xorb_false_l. f_equal. lia.
    + intros j Hj. unfold g. rewrite Hlow by lia. apply andb_false_r.
  - rewrite Nat.add_comm, xorn_app, (xorn_false g (0 + Z.of_nat 256)); [apply xorb_false_r|].
    intros j Hj. unfold g. rewrite (vec_bit_out a) by (unfold blen; lia). apply andb_false_r.
Qed.

(** ** Realignment *)

(** [e'] asks of every column what [e] asks, from a later start. *)
Record realigned (e e' : equation) : Prop := {
  ra_s : eq_s e <= eq_s e';
  ra_b : eq_b e' = eq_b e;
  ra_dot z : gf2_dot z (eq_s e') (eq_a e') = gf2_dot z (eq_s e) (eq_a e)
}.

Lemma realigned_refl e : realigned e e.
Proof. by constructor. Qed.
Lemma realigned_trans e1 e2 e3 : realigned e1 e2 -> realigned e2 e3 -> realigned e1 e3.
Proof. intros [? ? H1] [? ? H2]. constructor; [lia|congruence|]. intros z. by rewrite H2, H1. Qed.

Lemma realigned_sat e e' z : realigned e e' -> sat z e' <-> sat z e.
Proof. intros [_ Hb Hd]. unfold sat. by rewrite Hb, Hd. Qed.

(** The common case: the low [d] coefficients of [e] are zero, the others move down. *)
Lemma shift_equation (bound : Z) (e : equation) (d : Z) (a' : list Z) (k : nat) :
  bound <= 2 ^ 64 -> wf_equation bound e -> 0 <= d ->
  (k < 4)%nat -> limb_of (eq_a e) k <> 0 -> d <= 64 * Z.of_nat k \/ 
    (exists j, d <= j < 256 /\ vec_bit (eq_a e) j = true) ->
  length a' = 4%nat -> words a' ->
  (forall j, 0 <= j < d -> vec_bit (eq_a e) j = false) ->
  (forall j, 0 <= j < 256 -> vec_bit a' j = vec_bit (eq_a e) (d + j)) ->
  let e' := mkEquation (u64 (eq_s e + d)) a' (eq_b e) in
  wf_equation bound e' /\ realigned e e' /\ eq_s e' = eq_s e + d.
Proof.
  intros HB [Hs Hl Hw Hb Hbd] Hd Hk Hn Hj Hl' Hw' Hlow Hbits.
  assert (exists j, d <= j < 256 /\ vec_bit (eq_a e) j = true) as (j & Hj' & Hjb).
  { destruct Hj as [Hj|]; [|done]. destruct (nonzero_limb _ _ Hw Hk Hn) as (j & ? & ?).
    exists j. split; [lia|done]. }
  pose proof (Hbd j ltac:(lia) Hjb).
  rewrite u64_small by (unfold is_u64; lia). simpl. split; [|split; [|done]].
  - constructor; simpl; try done; [lia|].
    intros i Hi Hib. rewrite Hbits in Hib by lia.
    destruct (Z.lt_ge_cases (d + i) 256) as [Hlt|Hge].
    + specialize (Hbd (d + i) ltac:(lia) Hib). lia.
    + rewrite vec_bit_out in Hib by (unfold blen; lia). done.
  - constructor; simpl; [lia|done|]. intros z. by apply gf2_dot_shift.
Qed.

Lemma skip_limbs_ok bound n e k :
  bound <= 2 ^ 64 -> wf_equation bound e -> (k < n)%nat -> (n <= 4)%nat ->
  limb_of (eq_a e) k <> 0 ->
  exists e', skip_limbs n e = Ok e' /\ wf_equation bound e' /\ realigned e e'
             /\ limb_of (eq_a e') 0 <> 0 /\ (e' = e \/ eq_s e < eq_s e').
Proof.
  intros HB. revert e k. induction n as [|n IH]; intros e k He Hk Hn4 Hn; [lia|]. simpl.
  destruct (Z.eqb_spec (limb_of (eq_a e) 0) 0) as [Hz|Hz].
  2: { exists e. split; [done|]. split; [done|]. split; [apply realigned_refl|auto]. }
  destruct k as [|k]; [done|].
  pose proof He as [Hs Hl Hw Hb Hbd].
  set (a' := [limb_of (eq_a e) 1; _; _; 0]).
  assert (forall j, 0 <= j < 256 -> vec_bit a' j = vec_bit (eq_a e) (64 + j)) as Hbits.
  { intros j Hj. pose proof (Z.div_mod j 64 ltac:(lia)) as Ej.
    pose proof (Z.mod_pos_bound j 64 ltac:(lia)).
    set (q := j `div` 64) in *. set (m := j `mod` 64) in *.
    replace (64 + j) with (64 * (q + 1) + m) by lia. rewrite Ej, !vec_bit_word by lia. f_equal.
    assert (q = 0 \/ q = 1 \/ q = 2 \/ q = 3) as [->|[->|[->| ->]]] by lia; try done.
    simpl. rewrite nth_overflow; [done|]. simpl. lia. }
  destruct (shift_equation bound e 64 a' (S k)) as (He' & Hr & Es); try done; try lia.
  - unfold words, limb_of in *. subst a'. repeat (apply List.Forall_cons; [by apply words_nth|]).
    apply List.Forall_cons; [unfold is_u64; lia|constructor].
  - intros j Hj. replace j with (64 * 0 + j) by lia. rewrite vec_bit_word by lia.
    unfold limb_of in Hz. change (Z.to_nat 0) with 0%nat. rewrite Hz. apply Z.testbit_0_l.
  - destruct (IH _ k He') as (e'' & E & He'' & Hr' & Hn' & _); [lia|lia| |].
    + simpl. destruct k as [|[|[|]]]; try done. lia.
    + exists e''. split; [done|]. split; [done|]. split; [by apply (realigned_trans _ _ _ Hr)|].
      split; [done|]. right. pose proof (ra_s _ _ Hr'). lia.
Qed.

Lemma tz_from_spec n lo x :
  (exists k, lo <= k < lo + Z.of_nat n /\ Z.testbit x k = true) ->
  lo <= tz_from n lo x < lo + Z.of_nat n /\ Z.testbit x (tz_from n lo x) = true
  /\ forall k, lo <= k < tz_from n lo x -> Z.testbit x k = false.
Proof.
  revert lo. induction n as [|n IH]; intros lo (k & Hk & Hb); [lia|]. simpl.
  destruct (Z.testbit x lo) eqn:E.
  - split; [lia|]. split; [done|]. intros; lia.
  - assert (k <> lo) by (intros ->; congruence).
    destruct (IH (lo + 1)) as (H1 & H2 & H3); [exists k; split; [lia|done]|].
    split; [lia|]. split; [done|]. intros i Hi.
    destruct (Z.eq_dec i lo) as [->|]; [done|]. apply H3. lia.
Qed.

Lemma TrailingZeros64_spec x :
  is_u64 x -> x <> 0 ->
  0 <= TrailingZeros64 x < 64 /\ Z.testbit x (TrailingZeros64 x) = true
  /\ forall k, 0 <= k < TrailingZeros64 x -> Z.testbit x k = false.
Proof.
  intros Hx Hn. apply (tz_from_spec 64 0 x). exists (Z.log2 x). unfold is_u64 in Hx.
  pose proof (Z.log2_nonneg x). split; [|apply Z.bit_log2; lia].
  assert (Z.log2 x < 64) by (apply Z.log2_lt_pow2; lia). lia.
Qed.

Lemma u64_shiftl_0 k : u64 (Z.shiftl 0 k) = 0.
Proof. by rewrite Z.shiftl_0_l. Qed.

Lemma shift_limbs_bits a k j :
  length a = 4%nat -> words a -> 0 < k < 64 -> 0 <= j < 256 ->
  vec_bit (shift_limbs a k) j = vec_bit a (k + j).
Proof.
  intros Hl Hw Hk Hj. pose proof (Z.div_mod j 64 ltac:(lia)) as Ej.
  pose proof (Z.mod_pos_bound j 64 ltac:(lia)).
  set (q := j `div` 64) in *. set (m := j `mod` 64) in *.
  rewrite Ej, vec_bit_word by lia. replace (k + (64 * q + m)) with (64 * q + (k + m)) by lia.
  rewrite <- window_bit by (done || lia). f_equal. unfold shift_limbs, limb_of.
  assert (q = 0 \/ q = 1 \/ q = 2 \/ q = 3) as [->|[->|[->| ->]]] by lia; try done.
  cbn [nth Z.to_nat Pos.to_nat Pos.iter_op]. simpl (nth _ _ _).
  rewrite (nth_overflow a (n:=4%nat)) by lia. by rewrite u64_shiftl_0, Z.lor_0_r.
Qed.

Lemma words_shift_limbs a k : words a -> 0 < k < 64 -> words (shift_limbs a k).
Proof.
  intros Hw Hk. unfold words, shift_limbs, limb_of.
  repeat (apply List.Forall_cons;
    [try (apply lor_u64; [|apply u64_range]); apply shiftr_u64; first [by apply words_nth|lia]|]).
  constructor.
Qed.

Lemma realign_ok bound e :
  bound <= 2 ^ 64 -> wf_equation bound e -> isZero e = false -> vec_bit (eq_a e) 0 = false ->
  exists e', realign e = Ok e' /\ wf_equation bound e' /\ aligned e' /\ realigned e e'
             /\ eq_s e < eq_s e'.
Proof.
  intros HB He Ez H0. destruct (isZero_false_limb e (we_len _ _ He) Ez) as (k & Hk & Hn).
  unfold realign.
  destruct (skip_limbs_ok bound 4 e k) as (y & -> & Hy & Hr & Hy0 & Hlt); [done..|lia|done|]. go_simp.
  pose proof Hy as [Hsy Hly Hwy Hby Hbdy].
  destruct (TrailingZeros64_spec (limb_of (eq_a y) 0)) as (Ht & Htb & Htl);
    [by apply words_nth|done|].
  set (t := TrailingZeros64 _) in *.
  assert (forall j, 0 <= j < 64 -> vec_bit (eq_a y) j = Z.testbit (limb_of (eq_a y) 0) j) as Hv
    by (intros j Hj; replace j with (64 * 0 + j) at 1 by lia; by rewrite vec_bit_word by lia).
  destruct (Z.eqb_spec t 0) as [E|E].
  - exists y. split; [done|]. split; [done|].
    assert (aligned y) as Ha by (unfold aligned; rewrite Hv by lia; by rewrite <- E).
    split; [done|]. split; [done|]. destruct Hlt as [->|]; [|done]. unfold aligned in Ha. congruence.
  - destruct (shift_equation bound y t (shift_limbs (eq_a y) t) 0) as (Hz & Hr' & Es); try done; try lia.
    + right. exists t. split; [lia|]. by rewrite Hv by lia.
    + apply words_shift_limbs; [done|lia].
    + intros j Hj. rewrite Hv by lia. by apply Htl.
    + intros j Hj. by apply shift_limbs_bits; [..|lia|].
    + eexists. split; [done|]. split; [done|]. split; [|split; [by apply (realigned_trans _ y)|]].
      * unfold aligned. cbn [eq_a]. rewrite shift_limbs_bits, Z.add_0_r, Hv by (done || lia). done.
      * rewrite Es. destruct Hr. lia.
Qed.

(** The sum of two equations with the same start. *)
Definition sum_eq (e c : equation) : equation :=
  mkEquation (eq_s e) (zip_with Z.lxor (eq_a e) (eq_a c)) (Z.lxor (eq_b e) (eq_b c)).

Lemma lxor_bit x y : 0 <= x < 2 -> 0 <= y < 2 -> 0 <= Z.lxor x y < 2.
Proof.
  intros Hx Hy. assert (x = 0 \/ x = 1) as [-> | ->] by lia;
    assert (y = 0 \/ y = 1) as [-> | ->] by lia; by vm_compute.
Qed.

Lemma wf_sum_eq bound e c :
  wf_equation bound e -> wf_equation bound c -> eq_s e = eq_s c -> wf_equation bound (sum_eq e c).
Proof.
  intros [Hs0 Hl Hw Hb Hbd] [_ Hlc Hwc Hbc Hbdc] Hs.
  constructor; simpl; [done|rewrite length_zip_with; lia|by apply words_lxor|by apply lxor_bit|].
  intros j Hj. rewrite vec_bit_lxor by lia. destruct (vec_bit (eq_a e) j) eqn:Ej.
  - intros _. by apply Hbd.
  - rewrite xorb_false_l, Hs. by apply Hbdc.
Qed.

Lemma sat_sum_eq bound e c z :
  wf_equation bound e -> wf_equation bound c -> eq_s e = eq_s c -> sat z c ->
  sat z (sum_eq e c) <-> sat z e.
Proof.
  intros He Hc Hs Hz. unfold sat, sum_eq in *. cbn [eq_s eq_a eq_b].
  rewrite gf2_dot_lxor, Z.lxor_spec, Hs, Hz by (destruct He, Hc; lia).
  destruct (gf2_dot z _ (eq_a e)), (Z.testbit (eq_b e) 0), (Z.testbit (eq_b c) 0); done.
Qed.

(** [add]: under the other equation the result asks what [e] asks; it is zero, or
    aligned at a later position. *)
Lemma add_ok bound e c :
  bound <= 2 ^ 64 -> wf_equation bound e -> wf_equation bound c -> eq_s e = eq_s c ->
  aligned e -> aligned c ->
  exists e', add e c = Ok e' /\ (forall z, sat z c -> sat z e' <-> sat z e)
  /\ wf_equation bound e' /\ eq_b e' = Z.lxor (eq_b e) (eq_b c)
  /\ (isZero e' = false -> aligned e' /\ eq_s e < eq_s e').
Proof.
  intros HB He Hc Hs Hae Hac. unfold add. fold (sum_eq e c).
  pose proof (wf_sum_eq bound e c He Hc Hs) as Hx.
  destruct (isZero (sum_eq e c)) eqn:Ez.
  - exists (sum_eq e c). split; [done|]. split; [intros z; by apply (sat_sum_eq bound)|].
    split; [done|]. split; [done|]. congruence.
  - destruct (realign_ok bound (sum_eq e c)) as (y & Ey & Hy & Ha & Hr & Hlt); try done.
    { simpl. rewrite vec_bit_lxor by (destruct He, Hc; lia). by rewrite Hae, Hac. }
    exists y. split; [done|].
    split; [intros z Hz; rewrite (realigned_sat _ _ _ Hr); by apply (sat_sum_eq bound)|].
    split; [done|]. split; [by apply Hr|]. done.
Qed.

(** ** Insertion *)
Lemma isZero_row bound row : row = zero_equation \/ (wf_equation bound row /\ aligned row) ->
  isZero row = true -> row = zero_equation.
Proof.
  intros [|[_ Ha]] Hz; [done|]. unfold isZero in Hz. apply bool_decide_eq_true in Hz.
  unfold aligned in Ha. by rewrite Hz in Ha.
Qed.

Lemma sat_zero z : sat z zero_equation.
Proof. unfold sat. by rewrite gf2_dot_zero. Qed.

Lemma sat_all_pad z rows n : sat_all z (rows ++ replicate n zero_equation) <-> sat_all z rows.
Proof.
  unfold sat_all. rewrite Forall_app. split; [by intros [? _]|]. intros H. split; [done|].
  apply Forall_replicate, sat_zero.
Qed.

Lemma sat_all_insert z rows i e :
  rows !! i = Some zero_equation -> sat_all z (<[i := e]> rows) <-> sat_all z rows /\ sat z e.
Proof.
  intros Hi. unfold sat_all. rewrite !Forall_lookup. split.
  - intros H. split; [|apply (H i); apply list_lookup_insert_eq; by eapply lookup_lt_Some].
    intros j x Hj. destruct (decide (j = i)) as [->|Hn].
    + rewrite Hi in Hj. injection Hj as <-. apply sat_zero.
    + apply (H j). by rewrite list_lookup_insert_ne by congruence.
  - intros [H He] j x Hj. destruct (decide (i = j)) as [->|Hn].
    + rewrite list_lookup_insert_eq in Hj by (by eapply lookup_lt_Some). by injection Hj as <-.
    + rewrite list_lookup_insert_ne in Hj by done. by apply (H j).
Qed.

Definition homogeneous (rows : list equation) : Prop := Forall (fun e => eq_b e = 0) rows.

(** What [insert] establishes. *)
Record inserted (bound : Z) (rows : list equation) (eq : equation)
    (rows' : list equation) (ok : bool) : Prop := {
  in_wf : wf_rows bound rows';
  in_len : blen rows <= blen rows';
  in_ok z : ok = true -> sat_all z rows' <-> sat_all z rows /\ sat z eq;
  in_exception : ok = false -> rows' = rows /\ forall z, sat_all z rows -> ~ sat z eq;
  in_homogeneous : homogeneous rows -> eq_b eq = 0 -> ok = true /\ homogeneous rows'
}.

(** The loop invariant: [e] is what is left of [eq]. *)
Record reducing (bound : Z) (rows : list equation) (eq : equation)
    (st : list equation * equation) : Prop := {
  rd_rows : st.1 = rows;
  rd_wf : wf_equation bound st.2;
  rd_aligned : isZero st.2 = false -> aligned st.2;
  rd_sat z : sat_all z rows -> sat z st.2 <-> sat z eq;
  rd_homogeneous : homogeneous rows -> eq_b eq = 0 -> eq_b st.2 = 0
}.

Lemma sat_isZero z e : isZero e = true -> sat z e <-> Z.testbit (eq_b e) 0 = false.
Proof.
  unfold isZero, sat. rewrite bool_decide_eq_true. intros ->. rewrite gf2_dot_zero. naive_solver.
Qed.

Lemma insert_zero bound rows eq e :
  wf_rows bound rows -> reducing bound rows eq (rows, e) -> isZero e = true ->
  inserted bound rows eq rows (eq_b e =? 0).
Proof.
  intros Hr [_ [_ _ _ Hb _] _ Hs Hh] Hz. simpl in *.
  assert (eq_b e = 0 \/ eq_b e = 1) as Hb' by lia.
  constructor; [done|lia| | |].
  - intros z Hb0%Z.eqb_eq. split; [|naive_solver]. intros Hall. split; [done|].
    apply Hs; [done|]. apply sat_isZero; [done|]. by rewrite Hb0.
  - intros Hn%Z.eqb_neq. split; [done|]. intros z Hall. rewrite <- Hs, sat_isZero by done.
    destruct Hb' as [E|E]; [done|]. by rewrite E.
  - intros Hho H0. split; [|done]. by rewrite Hh.
Qed.

(** Padding with zero rows keeps the system. *)
Lemma wf_rows_pad bound rows n :
  wf_rows bound rows -> blen rows + Z.of_nat n <= bound ->
  wf_rows bound (rows ++ replicate n zero_equation).
Proof.
  intros [Hl Hr] Hn. split; [unfold blen in *; rewrite length_app, length_replicate; lia|].
  intros i row [Hi|[_ Hi]]%lookup_app_Some; [by apply Hr|].
  left. by apply lookup_replicate in Hi as [-> _].
Qed.

Lemma insert_row bound rows eq e n :
  wf_rows bound rows -> reducing bound rows eq (rows, e) -> isZero e = false ->
  n = Z.to_nat (eq_s e + 1 - blen rows) ->
  (rows ++ replicate n zero_equation) !! Z.to_nat (eq_s e) = Some zero_equation ->
  inserted bound rows eq (<[Z.to_nat (eq_s e) := e]> (rows ++ replicate n zero_equation)) true.
Proof.
  intros Hr [_ He Ha Hs Hh] Hz -> Hi. simpl in *. specialize (Ha Hz).
  pose proof (we_bound _ _ He 0 ltac:(lia) Ha) as Hb. pose proof (we_s _ _ He) as H0.
  destruct (wf_rows_pad bound rows (Z.to_nat (eq_s e + 1 - blen rows)) Hr) as [Hpl Hp];
    [destruct Hr; lia|].
  constructor.
  - split; [unfold blen in *; by rewrite length_insert|]. intros i row Hrow.
    destruct (decide (Z.to_nat (eq_s e) = i)) as [<-|Hn].
    + rewrite list_lookup_insert_eq in Hrow by (by eapply lookup_lt_Some).
      injection Hrow as <-. right. split; [done|]. split; [done|lia].
    + rewrite list_lookup_insert_ne in Hrow by done. by apply Hp.
  - unfold blen. rewrite length_insert, length_app. lia.
  - intros z _. rewrite sat_all_insert, sat_all_pad by done. naive_solver.
  - done.
  - intros Hho Hb0. split; [done|]. unfold homogeneous in *. apply Forall_insert.
    + apply Forall_app. split; [done|]. by apply Forall_replicate.
    + by apply Hh.
Qed.

Definition insert_measure (st : list equation * equation) : Z :=
  if isZero st.2 then 0 else 1 + Z.max 0 (blen st.1 - eq_s st.2).

(** Reducing by the row at the equation's start. *)
Lemma insert_reduce bound rows eq e cur :
  bound <= 2 ^ 64 -> wf_rows bound rows -> reducing bound rows eq (rows, e) -> isZero e = false ->
  rows !! Z.to_nat (eq_s e) = Some cur -> isZero cur = false ->
  exists e', add e cur = Ok e' /\ reducing bound rows eq (rows, e')
             /\ 0 <= insert_measure (rows, e') < insert_measure (rows, e).
Proof.
  intros HB [Hl Hr] [_ He Ha Hs Hh] Hz Hcur Hzc. simpl in *.
  destruct (Hr _ _ Hcur) as [->|(Hc & Hac & Es)]; [done|].
  pose proof (we_s _ _ He). rewrite Z2Nat.id in Es by done.
  destruct (add_ok bound e cur HB He Hc (eq_sym Es) (Ha Hz) Hac) as (e' & E & Hsat & He' & Hb & Hlt).
  exists e'. split; [done|]. split.
  - constructor; simpl; [done|done|naive_solver| |].
    + intros z Hall. rewrite Hsat; [by apply Hs|].
      unfold sat_all in Hall. rewrite Forall_lookup in Hall. by apply (Hall _ _ Hcur).
    + intros Hho H0. rewrite Hb, Hh by done.
      unfold homogeneous in Hho. rewrite Forall_lookup in Hho. by rewrite (Hho _ _ Hcur).
  - apply lookup_lt_Some in Hcur. unfold insert_measure. simpl. rewrite Hz.
    destruct (isZero e'); unfold blen; [lia|]. destruct (Hlt eq_refl). lia.
Qed.

Lemma insert_step_ok bound rows eq st :
  bound <= 2 ^ 64 -> wf_rows bound rows -> reducing bound rows eq st ->
  match insert_step st with
  | inl st' => reducing bound rows eq st' /\ 0 <= insert_measure st' < insert_measure st
  | inr r => exists rows' ok, r = Ok (rows', ok) /\ inserted bound rows eq rows' ok
  end.
Proof.
  intros HB Hr Hst. destruct st as [rows' e]. pose proof Hst as [E He Ha _ _]. simpl in E. subst rows'.
  unfold insert_step. destruct (isZero e) eqn:Hz.
  { eexists _, _. split; [done|]. by apply insert_zero. }
  simpl in He. pose proof (we_s _ _ He) as H0.
  set (n := Z.to_nat (eq_s e + 1 - blen rows)). set (padded := rows ++ replicate n zero_equation).
  destruct (index_in_range padded (eq_s e)) as (cur & Hcur & ->).
  { unfold padded, blen. rewrite length_app, length_replicate. subst n. unfold blen. lia. }
  destruct (isZero cur) eqn:Hzc.
  - eexists _, _. split; [done|]. apply (insert_row bound rows eq e n); try done.
    destruct Hr as [_ Hr]. unfold padded in Hcur. rewrite Hcur. f_equal.
    apply lookup_app_Some in Hcur as [Hi|[_ Hi]]; [|by apply lookup_replicate in Hi as [-> _]].
    apply (isZero_row bound); [|done]. destruct (Hr _ _ Hi) as [|(? & ? & _)]; auto.
  - unfold padded in Hcur |- *. apply lookup_app_Some in Hcur as [Hi|[_ Hi]].
    2: { apply lookup_replicate in Hi as [-> _]. done. }
    assert (n = 0)%nat as -> by (apply lookup_lt_Some in Hi; subst n; unfold blen; lia).
    destruct (insert_reduce bound rows eq e cur HB Hr Hst Hz Hi Hzc) as (e' & -> & Hst' & Hm).
    simpl. by rewrite app_nil_r.
Qed.

Lemma insert_ok bound rows eq :
  bound <= 2 ^ 64 -> wf_rows bound rows -> wf_equation bound eq ->
  (isZero eq = false -> aligned eq) ->
  exists rows' ok, insert rows eq = Ok (rows', ok) /\ inserted bound rows eq rows' ok.
Proof.
  intros HB Hr He Ha. unfold insert.
  apply (run_loop_total (reducing bound rows eq)
           (fun r => exists rows' ok, r = Ok (rows', ok) /\ inserted bound rows eq rows' ok) insert_measure).
  - intros st Hst. by apply insert_step_ok.
  - by constructor.
  - pose proof (we_s _ _ He). unfold insert_measure, blen. simpl. case_match; lia.
Qed.

(** ** Back-substitution *)
Lemma eval_word_eq e z limb shift i r :
  0 <= limb <= i -> i < 2 ^ 63 -> eval_word e z limb shift i r = xor_word z limb shift (eq_a e) i r.
Proof.
  intros Hl Hi. unfold eval_word, xor_word.
  by rewrite (u64_small (i + 1)), (u64_small (i - limb)) by (unfold is_u64; lia).
Qed.

Lemma eval_ok bound e z :
  bound <= 2 ^ 62 -> wf_equation bound e -> eq_s e < bound -> words z ->
  eval e z = Ok (Z.b2z (gf2_dot z (eq_s e) (eq_a e))).
Proof.
  intros HB [Hs Hl Hw Hb Hbd] Hsb Hz.
  pose proof (bitsXorIsZero_dot z (eq_s e) (eq_a e) Hz ltac:(unfold is_u64; lia) Hl) as Hdot.
  unfold bitsXorIsZero, W in Hdot. unfold eval.
  assert (0 <= eq_s e `div` 64 < 2 ^ 57)
    by (split; [apply Z.div_pos; lia|]; apply Z.div_lt_upper_bound; lia).
  rewrite u64_small in Hdot by (unfold is_u64; lia).
  rewrite (for_n_ext _ (xor_word z (eq_s e `div` 64) (eq_s e `mod` 64) (eq_a e)))
    by (intros; apply eval_word_eq; lia).
  destruct (for_n _ _ _ _) as [r| | |]; go_simp; try discriminate Hdot.
  injection Hdot as Hdot. f_equal.
  assert (Z.land (OnesCount64 r) 1 = 0 \/ Z.land (OnesCount64 r) 1 = 1) as [E|E].
  { pose proof (Z.land_ones (OnesCount64 r) 1 ltac:(lia)) as E. change (Z.ones 1) with 1 in E.
    rewrite E. pose proof (Z.mod_pos_bound (OnesCount64 r) (2 ^ 1) ltac:(lia)). lia. }
  - rewrite E in *. by destruct (gf2_dot _ _ _).
  - rewrite E in *. by destruct (gf2_dot _ _ _).
Qed.

Lemma testbit_above_one x k : 0 <= x < 2 -> 0 < k -> Z.testbit x k = false.
Proof.
  intros Hx Hk. assert (x = 0 \/ x = 1) as [-> | ->] by lia; [apply Z.testbit_0_l|].
  apply (Z.pow2_bits_false 0). lia.
Qed.

Lemma set_bit_ok z i zi :
  words z -> 0 <= i < 64 * blen z -> 0 <= zi < 2 ->
  exists z', set_bit z i zi = Ok z' /\ length z' = length z /\ words z'
  /\ forall k, 0 <= k -> vec_bit z' k = vec_bit z k || (bool_decide (k = i) && Z.testbit zi 0).
Proof.
  intros Hz Hi Hzi. unfold set_bit.
  pose proof (Z.div_mod i 64 ltac:(lia)) as Ei. pose proof (Z.mod_pos_bound i 64 ltac:(lia)) as Hm.
  set (q := i `div` 64) in *. set (m := i `mod` 64) in *.
  rewrite index_nth by lia. go_simp. set (w := Z.lor _ _). eexists. split; [done|].
  split; [by rewrite length_insert|]. split.
  { unfold words. apply Forall_insert; [done|]. apply lor_u64; [by apply words_nth|apply u64_range]. }
  intros k Hk. pose proof (Z.div_mod k 64 ltac:(lia)) as Ek.
  pose proof (Z.mod_pos_bound k 64 ltac:(lia)) as Hmk.
  set (qk := k `div` 64) in *. set (mk := k `mod` 64) in *. rewrite Ek, !vec_bit_word by lia.
  destruct (Z.eq_dec qk q) as [->|Hn].
  - rewrite (nth_lookup (<[_ := w]> z)), list_lookup_insert_eq by (unfold blen in *; lia). simpl.
    unfold w, u64. rewrite Z.lor_spec, Z.mod_pow2_bits_low, Z.shiftl_spec by lia. f_equal.
    destruct (Z.eq_dec mk m) as [->|Hne].
    + by rewrite Z.sub_diag, bool_decide_true by lia.
    + rewrite bool_decide_false by lia. destruct (Z.lt_ge_cases mk m).
      * by rewrite Z.testbit_neg_r by lia.
      * symmetry. rewrite testbit_above_one by lia. done.
  - rewrite bool_decide_false, orb_false_r by lia.
    rewrite !nth_lookup, list_lookup_insert_ne; [done|]. lia.
Qed.

(** The columns between two steps of [solve]: the bits below [n] are still zero, the
    rows from [n] on are satisfied. *)
Record solving (rows : list equation) (len : nat) (n : nat) (z : list Z) : Prop := {
  sv_len : length z = len;
  sv_words : words z;
  sv_low k : 0 <= k < Z.of_nat n -> vec_bit z k = false;
  sv_sat i row : (n <= i)%nat -> rows !! i = Some row -> sat z row
}.

(** Setting a bit below a row's start does not disturb it. *)
Lemma sat_set_below z z' zi i e :
  (forall k, 0 <= k -> vec_bit z' k = vec_bit z k || (bool_decide (k = i) && zi)) ->
  0 <= eq_s e -> i < eq_s e -> sat z' e <-> sat z e.
Proof.
  intros Hbits Hs Hi. unfold sat, gf2_dot.
  rewrite (xorn_ext _ (fun j => vec_bit z (eq_s e + j) && vec_bit (eq_a e) j)); [done|].
  intros j Hj. by rewrite Hbits, bool_decide_false, orb_false_r by lia.
Qed.

Lemma xorn_first f n : xorn f 0 (1 + n) = xorb (f 0) (xorn f 1 n).
Proof. done. Qed.

(** Setting the pivot bit of an aligned row gives the dot product its value. *)
Lemma dot_set_pivot z z' zi e :
  (forall k, 0 <= k -> vec_bit z' k = vec_bit z k || (bool_decide (k = eq_s e) && zi)) ->
  0 <= eq_s e -> vec_bit z (eq_s e) = false -> aligned e ->
  gf2_dot z' (eq_s e) (eq_a e) = xorb zi (gf2_dot z (eq_s e) (eq_a e)).
Proof.
  intros Hbits Hs H0 Ha. unfold gf2_dot.
  rewrite !(xorn_first _ 255), !Z.add_0_r. unfold aligned in Ha. rewrite Ha, H0, Hbits, H0, bool_decide_true by (done || lia).
  rewrite (xorn_ext (fun j => vec_bit z' (eq_s e + j) && vec_bit (eq_a e) j)
                    (fun j => vec_bit z (eq_s e + j) && vec_bit (eq_a e) j)).
  - by destruct zi, (xorn _ _ _).
  - intros j Hj. by rewrite Hbits, bool_decide_false, orb_false_r by lia.
Qed.

Lemma b2z_testbit b : Z.testbit (Z.b2z b) 0 = b.
Proof. by destruct b. Qed.

Section SolveOk.
Context {R : RandSource} (bound : Z) (rows : list equation) (len : nat).
Hypothesis HB : bound <= 2 ^ 62.
Hypothesis Hrows : wf_rows bound rows.
Hypothesis Hlen : (length rows <= 64 * len)%nat.

(** The value computed for the bit of row [i]. *)
Lemma pivot_value i row z rng :
  rows !! i = Some row -> solving rows len (S i) z ->
  exists zi rng', 0 <= zi < 2
  /\ (if isZero row
      then let '(x, rng) := Uint64 rng in Ok (Z.land x 1, rng)
      else d ← eval row z; Ok (Z.lxor d (eq_b row), rng)) = Ok (zi, rng')
  /\ forall z', (forall k, 0 <= k -> vec_bit z' k = vec_bit z k || (bool_decide (k = Z.of_nat i) && Z.testbit zi 0)) ->
       sat z' row.
Proof.
  intros Hrow [Hl Hw Hlow Hsat]. destruct Hrows as [Hb Hr].
  destruct (Hr _ _ Hrow) as [->|(He & Ha & Es)].
  - simpl. destruct (Uint64 rng) as [x rng']. exists (Z.land x 1), rng'.
    split; [|split; [done|intros z' _; apply sat_zero]].
    pose proof (Z.land_ones x 1 ltac:(lia)) as E. change (Z.ones 1) with 1 in E. rewrite E.
    apply (Z.mod_pos_bound x (2 ^ 1)). lia.
  - assert (isZero row = false) as ->.
    { destruct (isZero row) eqn:Hz; [|done].
      rewrite (isZero_row bound row (or_intror (conj He Ha)) Hz) in Ha. done. }
    pose proof (lookup_lt_Some _ _ _ Hrow). pose proof (we_b _ _ He) as Hbb.
    rewrite (eval_ok bound) by (done || unfold blen in *; lia). go_simp.
    eexists _, rng. split; [|split; [done|]].
    + apply lxor_bit; [|done]. by destruct (gf2_dot _ _ _).
    + intros z' Hz'. unfold sat. rewrite <- Es in Hz'.
      rewrite (dot_set_pivot z z' _ row Hz'); [|lia|apply Hlow; lia|done].
      rewrite Z.lxor_spec, b2z_testbit.
      by destruct (gf2_dot z (eq_s row) (eq_a row)), (Z.testbit (eq_b row) 0).
Qed.

Lemma solve_rows_ok n z rng :
  (n <= length rows)%nat -> solving rows len n z ->
  exists z' rng', solve_rows rows n z rng = Ok (z', rng') /\ solving rows len 0 z'.
Proof.
  revert z rng. induction n as [|i IH]; intros z rng Hn Hz; [by eexists _, _|]. simpl.
  destruct (index_in_range rows (Z.of_nat i)) as (row & Hrow & ->); [unfold blen; lia|].
  rewrite Nat2Z.id in Hrow. go_simp.
  destruct (pivot_value i row z rng Hrow Hz) as (zi & rng' & Hzi & -> & Hsr). go_simp.
  pose proof Hz as [Hl Hw Hlow Hsat].
  destruct (set_bit_ok z (Z.of_nat i) zi) as (z' & -> & Hl' & Hw' & Hbits);
    [done|unfold blen; lia|done|]. go_simp.
  apply IH; [lia|]. constructor; [congruence|done| |].
  - intros k Hk. rewrite Hbits, Hlow, bool_decide_false by lia. done.
  - intros j e Hj He. destruct (decide (j = i)) as [->|Hne].
    + rewrite Hrow in He. injection He as <-. by apply Hsr.
    + destruct Hrows as [_ Hr]. destruct (Hr _ _ He) as [->|(Hwe & _ & Es)]; [apply sat_zero|].
      rewrite (sat_set_below z z' _ (Z.of_nat i)) by (exact Hbits || lia).
      apply (Hsat j); [lia|done].
Qed.
End SolveOk.

Lemma vec_bit_zeros n k : vec_bit (replicate n 0) k = false.
Proof.
  unfold vec_bit. replace (nth _ (replicate n 0) 0) with 0; [apply Z.testbit_0_l|].
  generalize (Z.to_nat (k `div` 64)). induction n as [|n IH]; intros [|m]; simpl; auto.
Qed.

(** The length in words of a solution, padding included. *)
Definition solution_words (rows : list equation) : Z := (blen rows + 63) `div` 64 + 4.

Lemma solve_ok `{RandSource} bound rows rng :
  bound <= 2 ^ 62 -> wf_rows bound rows ->
  exists z rng', solve rows rng = Ok (z, rng') /\ blen z = solution_words rows /\ words z
                 /\ sat_all z rows.
Proof.
  intros HB Hr. unfold solve. fold (solution_words rows). set (len := Z.to_nat (solution_words rows)).
  assert (0 <= solution_words rows /\ blen rows + 256 <= 64 * solution_words rows) as [H0 Hs].
  { unfold solution_words. pose proof (Z.div_mod (blen rows + 63) 64 ltac:(lia)).
    pose proof (Z.mod_pos_bound (blen rows + 63) 64 ltac:(lia)). unfold blen in *. lia. }
  destruct (solve_rows_ok bound rows len HB Hr ltac:(unfold len, blen in *; lia)
              (length rows) (replicate len 0) rng) as (z & rng' & E & [Hl Hw _ Hsat]); [done| |].
  - constructor.
    + apply length_replicate.
    + unfold words. apply Forall_replicate. unfold is_u64. lia.
    + intros k _. apply vec_bit_zeros.
    + intros i row Hi Hrow%lookup_lt_Some. lia.
  - exists z, rng'. split; [done|]. split; [unfold blen; lia|]. split; [done|].
    unfold sat_all. rewrite Forall_lookup. intros i row. apply Hsat. lia.
Qed.

Lemma newRibbon_ok m bound :
  0 <= m <= bound ->
  wf_rows bound (newRibbon m) /\ homogeneous (newRibbon m) /\ blen (newRibbon m) = m.
Proof.
  intros Hm. unfold newRibbon. assert (blen (replicate (Z.to_nat m) zero_equation) = m) as Hl
    by (unfold blen; rewrite length_replicate; lia).
  split; [|split; [by apply Forall_replicate|done]].
  split; [lia|]. intros i row [-> _]%lookup_replicate. by left.
Qed.

(** ** Properties *)

(** Equations inserted one after the other, and which of them were accepted. *)
Fixpoint insert_all (rows : list equation) (eqs : list equation) : result (list equation * list bool) :=
  match eqs with
  | [] => Ok (rows, [])
  | eq :: eqs =>
      '(rows, ok) ← insert rows eq;
      '(rows, oks) ← insert_all rows eqs;
      Ok (rows, ok :: oks)
  end.

(** The equations flagged as accepted. *)
Definition accepted_eqs (eqs : list equation) (oks : list bool) : list equation :=
  (List.filter snd (zip eqs oks)).*1.

Lemma insert_all_ok bound rows eqs :
  bound <= 2 ^ 64 -> wf_rows bound rows -> Forall (fun e => wf_equation bound e /\ aligned e) eqs ->
  exists rows' oks, insert_all rows eqs = Ok (rows', oks) /\ length oks = length eqs
  /\ wf_rows bound rows'
  /\ (forall z, sat_all z rows' <-> sat_all z rows /\ Forall (sat z) (accepted_eqs eqs oks))
  /\ (forall i eq, eqs !! i = Some eq -> oks !! i = Some false ->
        forall z, sat_all z rows -> Forall (sat z) (accepted_eqs (take i eqs) (take i oks)) -> ~ sat z eq).
Proof.
  intros HB Hr He. revert rows Hr. induction He as [|eq eqs [Hwe Ha] He IH]; intros rows Hr; simpl.
  { exists rows, []. split; [done|]. split; [done|]. split; [done|]. split; [|by intros []].
    intros z. split; [intros H; split; [done|constructor]|by intros [? _]]. }
  destruct (insert_ok bound rows eq HB Hr Hwe (fun _ => Ha)) as (r1 & ok & -> & [Hw _ Hok Hex _]). go_simp.
  destruct (IH r1 Hw) as (r2 & oks & -> & Hl & Hw2 & Hs & Hx). go_simp.
  assert (forall z, sat_all z r1 <-> sat_all z rows /\ (if ok then sat z eq else True)) as H1.
  { intros z. destruct ok; [by apply Hok|]. destruct (Hex eq_refl) as [-> _]. tauto. }
  assert (forall es os z, Forall (sat z) (accepted_eqs (eq :: es) (ok :: os))
            <-> (if ok then sat z eq else True) /\ Forall (sat z) (accepted_eqs es os)) as H2.
  { intros es os z. unfold accepted_eqs. destruct ok; simpl; [by rewrite Forall_cons|tauto]. }
  exists r2, (ok :: oks). split; [done|]. split; [simpl; lia|]. split; [done|]. split.
  - intros z. rewrite Hs, H1, H2. tauto.
  - intros [|i] e Hi Ho z Hz.
    + injection Hi as <-. injection Ho as ->. intros _. destruct (Hex eq_refl) as [_ Hn]. by apply Hn.
    + simpl take. rewrite H2. intros [Hz1 Hz2]. apply (Hx i e Hi Ho z); [by apply H1|done].
Qed.

(** C10. Incremental elimination is sound and complete on aligned equations: inserting
    any equations of 256 coefficients, the first of them set and none at or past the
    solution's bit [m + 255], into a new ribbon of [m] rows always terminates without a panic, as does
    solving it; the column solved, whatever the free variables, satisfies every
    accepted equation, and a refused equation contradicts the ones accepted before it.
    The equations of the builder are such ([ClubcardEncode.item_eqn_wf]); without the
    alignment the loop of [insert] need not end ([unaligned_insert_cycles]). *)
Theorem ribbon_solves `{RandSource} (m : Z) (eqs : list equation) (rng : rand_state) :
  0 <= m < 2 ^ 60 ->
  Forall (fun e => wf_equation (m + 255) e /\ aligned e) eqs ->
  exists rows oks z rng',
    insert_all (newRibbon m) eqs = Ok (rows, oks) /\ length oks = length eqs
    /\ solve rows rng = Ok (z, rng')
    /\ Forall (sat z) (accepted_eqs eqs oks)
    /\ forall i eq, eqs !! i = Some eq -> oks !! i = Some false ->
         forall z', Forall (sat z') (accepted_eqs (take i eqs) (take i oks)) -> ~ sat z' eq.
Proof.
  intros Hm He. destruct (newRibbon_ok m (m + 255)) as (Hr & _ & _); [lia|].
  destruct (insert_all_ok (m + 255) (newRibbon m) eqs ltac:(lia) Hr He) as (rows & oks & E & Hl & Hw & Hs & Hx).
  destruct (solve_ok (m + 255) rows rng ltac:(lia) Hw) as (z & rng' & Ez & _ & _ & Hsat).
  exists rows, oks, z, rng'. split; [done|]. split; [done|]. split; [done|]. split; [by apply Hs|].
  intros i eq Hi Ho z'. apply (Hx i eq Hi Ho). unfold newRibbon. apply Forall_replicate, sat_zero.
Qed.

(** ** Witnesses *)

(** An unaligned row, and an equation that [insert] reduces by it forever. *)
Example unaligned_insert_cycles :
  let state a := ([mkEquation 0 [2; 0; 0; 0] 0], mkEquation 0 [a; 0; 0; 0] 0) in
  insert (newRibbon 1) (mkEquation 0 [2; 0; 0; 0] 0) = Ok ((state 1).1, true)
  /\ insert_step (state 1) = inl (state 3) /\ insert_step (state 3) = inl (state 1).
Proof. vm_compute. by repeat split. Qed.

Example pcg_first : (Uint64 (NewPCG 1 2)).1 = 0xc4f5a58656eef510.
Proof. reflexivity. Qed.

Definition sample_eqs : list equation :=
  [mkEquation 0 [1; 0; 0; 0] 1; mkEquation 0 [3; 0; 0; 0] 1; mkEquation 0 [1; 0; 0; 0] 0].

Lemma sample_eqs_ok : Forall (fun e => wf_equation (1 + 255) e /\ aligned e) sample_eqs.
Proof.
  assert (forall a b, 0 <= b < 2 -> a = 1 \/ a = 3 -> wf_equation (1 + 255) (mkEquation 0 [a; 0; 0; 0] b)) as H.
  { intros a b Hb Ha. constructor; simpl; try lia; try done.
    unfold words. repeat (apply List.Forall_cons; [unfold is_u64; lia|]). constructor. }
  repeat (apply List.Forall_cons; [split; [apply H; lia|reflexivity]|]). constructor.
Qed.

Lemma ribbon_solves_witness :
  exists rows oks z rng',
    insert_all (newRibbon 1) sample_eqs = Ok (rows, oks) /\ oks = [true; true; false]
    /\ solve rows (NewPCG 0 0) = Ok (z, rng') /\ Forall (sat z) (accepted_eqs sample_eqs oks).
Proof.
  destruct (ribbon_solves 1 sample_eqs (NewPCG 0 0) ltac:(lia) sample_eqs_ok)
    as (rows & oks & z & rng' & E & Hl & Ez & Hs & _).
  exists rows, oks, z, rng'. split; [exact E|]. split; [|by split].
  assert (exists r, insert_all (newRibbon 1) sample_eqs = Ok (r, [true; true; false])) as [r Hr]
    by (eexists; vm_compute; reflexivity).
  rewrite Hr in E. by injection E.
Defined.
