(* ===== verification/ClubcardEncode.v ===== *)
(** * Building clubcards ([internal/test/clubcard_encode.go])

    [Filter.Bytes], which the tests build their filters with: per issuer an
    approximate and an exact ribbon, concatenated and serialised.  The main theorem
    joins the builder, the parser and the query: what was enrolled as revoked is
    answered revoked, what was enrolled as not revoked is answered good, for every
    choice of the free variables and without any assumption on the hash. *)
From S2P Require Import Prelude Codec Sha256 Cryptobyte Clubcard CrliteParser Crlite Ribbon.

(** ** Data *)
Record Coverage := mkCoverage { cov_LogId : bytes; MinTimestamp : Z; MaxTimestamp : Z }.

Record Issuer := mkIssuer {
  SpkiHash : bytes;
  Revoked : list bytes;
  NotRevoked : list bytes;
  InvertedByte : option Z;
  RankByte : option Z
}.

Record Filter := mkFilter { Issuers : list Issuer; Coverages : list Coverage }.

(** [item]: the hash as limbs with the low bit forced, and the serial. *)
Record item := mkItem { it_a : list Z; it_serial : bytes }.

Record block := mkBlock {
  b_id : bytes;
  b_inverted : bool;
  b_invertedByte : option Z;
  b_rankByte : option Z;
  b_approxM : Z;
  b_rank : Z;
  b_hOffset : Z;
  b_approxSegs : list (list Z);
  b_exactM : Z;
  b_gOffset : Z;
  b_exactSeg : list Z;
  b_exceptions : list bytes
}.

(** The order [Bytes] sorts the blocks by: descending rank, then ascending id. *)
Definition block_le (a b : block) : Prop :=
  b_rank b < b_rank a \/ (b_rank a = b_rank b /\ bytes_le (b_id a) (b_id b)).

#[export] Instance block_le_dec : RelDecision block_le.
Proof.
  intros a b. unfold block_le. destruct (decide (b_rank b < b_rank a)); [left; by left|].
  destruct (decide (b_rank a = b_rank b /\ bytes_le (b_id a) (b_id b))) as [H|H];
    [left; by right|right; intros [|]; tauto].
Defined.

#[export] Instance block_le_trans : Transitive block_le.
Proof.
  intros a b c [Hab|[Hab Iab]] [Hbc|[Hbc Ibc]]; unfold block_le; [left; lia..|].
  right. split; [congruence|]. by trans (b_id b).
Qed.

#[export] Instance block_le_total : Total block_le.
Proof.
  intros a b. unfold block_le. destruct (Z.lt_total (b_rank a) (b_rank b)) as [|[E|]]; [right; by left| |left; by left].
  destruct (total bytes_le (b_id a) (b_id b)); [left|right]; right; by split.
Qed.

(** ** Operations *)

(** [bits.Len] *)
Definition bits_Len (x : Z) : Z := if x =? 0 then 0 else Z.log2 x + 1.

Definition hash_item (issuer serial : bytes) : result item :=
  if 255 <? blen serial then Panic else
  let sum := sha256_Sum256 (issuer ++ serial) in
  let limb i := le_decode (sub sum (i * 8) 8) in
  Ok (mkItem [Z.lor (limb 0) 1; limb 1; limb 2; limb 3] serial).

Fixpoint hashAll (issuer : bytes) (serials : list bytes) : result (list item) :=
  match serials with
  | [] => Ok []
  | serial :: serials =>
      it ← hash_item issuer serial;
      items ← hashAll issuer serials;
      Ok (it :: items)
  end.

(** A remainder by zero panics. *)
Definition item_equation (it : item) (m b : Z) : result equation :=
  if m =? 0 then Panic else
  Ok (mkEquation (limb_of (it_a it) 3 `mod` m) (it_a it) b).

(** [for _, it := range revoked { r.insert(it.equation(b.approxM, 0)) }] *)
Fixpoint insert_revoked (m : Z) (revoked : list item) (r : list equation) : result (list equation) :=
  match revoked with
  | [] => Ok r
  | it :: revoked =>
      eq ← item_equation it m 0;
      '(r, _) ← insert r eq;
      insert_revoked m revoked r
  end.

(** [passesApprox], for the segments left to test. *)
Fixpoint segs_pass (eq : equation) (segs : list (list Z)) : result bool :=
  match segs with
  | [] => Ok true
  | seg :: segs =>
      d ← eval eq seg;
      if negb (d =? 0) then Ok false else segs_pass eq segs
  end.
Definition passesApprox (approxM : Z) (approxSegs : list (list Z)) (it : item) : result bool :=
  eq ← item_equation it approxM 0;
  segs_pass eq approxSegs.

(** [for _, it := range good { if passesApprox(it) { universe = append(universe, it) } }] *)
Fixpoint survivors (approxM : Z) (approxSegs : list (list Z)) (good universe : list item)
    : result (list item) :=
  match good with
  | [] => Ok universe
  | it :: good =>
      p ← passesApprox approxM approxSegs it;
      survivors approxM approxSegs good (if (p : bool) then universe ++ [it] else universe)
  end.

(** The loop that fills the exact ribbon, from item [i] of the universe. *)
Fixpoint insert_universe (m nR i : Z) (universe : list item) (r : list equation)
    (exceptions : list bytes) : result (list equation * list bytes) :=
  match universe with
  | [] => Ok (r, exceptions)
  | it :: universe =>
      let rhs := if nR <=? i then 1 else 0 in
      eq ← item_equation it m rhs;
      '(r, ok) ← insert r eq;
      insert_universe m nR (i + 1) universe r
        (if (ok : bool) then exceptions else exceptions ++ [it_serial it])
  end.

Section Build.
Context {R : RandSource}.

(** [for i := range b.approxSegs { b.approxSegs[i] = r.solve(rng) }] *)
Fixpoint solve_columns (n : nat) (r : list equation) (rng : rand_state)
    : result (list (list Z) * rand_state) :=
  match n with
  | O => Ok ([], rng)
  | S n =>
      '(seg, rng) ← solve r rng;
      '(segs, rng) ← solve_columns n r rng;
      Ok (seg :: segs, rng)
  end.

Definition buildBlock (iss : Issuer) (rng : rand_state) : result (block * rand_state) :=
  revoked ← hashAll (SpkiHash iss) (Revoked iss);
  good ← hashAll (SpkiHash iss) (NotRevoked iss);
  let nR := blen revoked in
  let nU := blen revoked + blen good in
  let inverted := (0 <? nR) && (nR =? nU) in
  if (nR =? 0) || inverted
  then Ok (mkBlock (SpkiHash iss) inverted (InvertedByte iss) (RankByte iss) 0 0 0 [] 0 0 [] [], rng)
  else
  let approxM := nR + nR `div` 50 in
  let rank := if 2 * nR <? nU then bits_Len ((nU - nR) `div` nR) - 1 else 0 in
  '(approxSegs, rng) ← (if 0 <? rank
                        then r ← insert_revoked approxM revoked (newRibbon approxM);
                             solve_columns (Z.to_nat rank) r rng
                        else Ok ([], rng));
  universe ← survivors approxM approxSegs good revoked;
  let exactM := blen universe + blen universe `div` 50 in
  '(r, exceptions) ← insert_universe exactM nR 0 universe (newRibbon exactM) [];
  '(exactSeg, rng) ← solve r rng;
  Ok (mkBlock (SpkiHash iss) inverted (InvertedByte iss) (RankByte iss) approxM rank 0 approxSegs
        exactM 0 exactSeg exceptions, rng).

Fixpoint buildBlocks (issuers : list Issuer) (rng : rand_state) : result (list block * rand_state) :=
  match issuers with
  | [] => Ok ([], rng)
  | iss :: issuers =>
      '(b, rng) ← buildBlock iss rng;
      '(blocks, rng) ← buildBlocks issuers rng;
      Ok (b :: blocks, rng)
  end.
End Build.

(** The loop assigning the offsets, over the sorted blocks. *)
Fixpoint assign_offsets (blocks : list block) (maxRank hOff gOff : Z)
    : result (list block * Z) :=
  match blocks with
  | [] => Ok ([], maxRank)
  | b :: blocks =>
      let maxRank := Z.max maxRank (b_rank b) in
      '(h, hOff) ← (if 0 <? b_rank b
                    then seg ← index (b_approxSegs b) 0; Ok (hOff, hOff + 64 * blen seg)
                    else Ok (b_hOffset b, hOff));
      let '(g, gOff) := if 0 <? b_exactM b then (gOff, gOff + 64 * blen (b_exactSeg b))
                        else (b_gOffset b, gOff) in
      let b := mkBlock (b_id b) (b_inverted b) (b_invertedByte b) (b_rankByte b) (b_approxM b)
                 (b_rank b) h (b_approxSegs b) (b_exactM b) g (b_exactSeg b) (b_exceptions b) in
      '(rest, maxRank) ← assign_offsets blocks maxRank hOff gOff;
      Ok (b :: rest, maxRank)
  end.

Section Serialize.
Context {B : Builder}.

Definition addU64Seq (out : bytes) (ws : list Z) : bytes :=
  fold_left AddUint64 ws (AddUint32 out (blen ws)).

Definition add_coverage (out : bytes) (c : Coverage) : bytes :=
  AddUint64 (AddUint64 (AddBytes out (cov_LogId c)) (MinTimestamp c)) (MaxTimestamp c).

Fixpoint add_exceptions (out : bytes) (exceptions : list bytes) : result bytes :=
  match exceptions with
  | [] => Ok out
  | serial :: exceptions =>
      out ← AddUint8LengthPrefixed out serial;
      add_exceptions out exceptions
  end.

(** The index entry of one block. *)
Definition add_block (out : bytes) (b : block) : result bytes :=
  let out := AddBytes out (b_id b) in
  let out := AddUint32 out (b_approxM b) in
  let out := AddUint8 out (match b_rankByte b with Some r => r | None => b_rank b end) in
  let out := AddUint32 out (b_hOffset b) in
  let out := AddUint32 out (b_exactM b) in
  let out := AddUint32 out (b_gOffset b) in
  let out := AddUint8 out (match b_invertedByte b with
                           | Some v => v
                           | None => if b_inverted b then 1 else 0
                           end) in
  let out := AddUint16 out (blen (b_exceptions b)) in
  add_exceptions out (b_exceptions b).

Fixpoint add_blocks (out : bytes) (blocks : list block) : result bytes :=
  match blocks with
  | [] => Ok out
  | b :: blocks => out ← add_block out b; add_blocks out blocks
  end.

(** Column [i]: the segments of the blocks of rank above [i]. *)
Fixpoint column (blocks : list block) (i : Z) : result (list Z) :=
  match blocks with
  | [] => Ok []
  | b :: blocks =>
      if i <? b_rank b
      then seg ← index (b_approxSegs b) i; rest ← column blocks i; Ok (seg ++ rest)
      else column blocks i
  end.

Definition add_columns (out : bytes) (blocks : list block) (maxRank : Z) : result bytes :=
  for_n (Z.to_nat maxRank) 0 (fun i out => col ← column blocks i; Ok (addU64Seq out col)) out.

Definition serialize (coverage : list Coverage) (blocks : list block) (maxRank : Z) : result bytes :=
  let out := AddBytes [] [byte_of_Z 4; byte_of_Z 0] in
  let out := AddUint16 out (blen coverage) in
  let out := fold_left add_coverage coverage out in
  let out := AddUint32 out (blen blocks) in
  out ← add_blocks out blocks;
  let out := AddUint8 out maxRank in
  out ← add_columns out blocks maxRank;
  Ok (addU64Seq out (concat (map b_exactSeg blocks))).

(** [rng] is the code's [rand.New(rand.NewPCG(0, 0))] at the instance [pcg] and the
    state [NewPCG 0 0]; any other source gives a filter with other free variables. *)
Definition Filter_Bytes {R : RandSource} {S : SortFunc block_le} (f : Filter) (rng : rand_state)
    : result bytes :=
  '(blocks, _) ← buildBlocks (Issuers f) rng;
  '(blocks, maxRank) ← assign_offsets (sort_func blocks) 0 0 0;
  serialize (Coverages f) blocks maxRank.
End Serialize.

(** ** Specification of a block

    The query of [internal/clubcard.go], within the block's own segments. *)
Definition item_passes (m : Z) (segs : list (list Z)) (it : item) : bool :=
  forallb (fun seg => negb (gf2_dot seg (limb_of (it_a it) 3 `mod` m) (it_a it))) segs.

Definition item_of (issuer serial : bytes) : item :=
  mkItem (coef_of (sha256_Sum256 (issuer ++ serial))) serial.

Definition block_member (b : block) (it : item) : bool :=
  negb (b_approxM b =? 0) && item_passes (b_approxM b) (b_approxSegs b) it
  && item_passes (b_exactM b) [b_exactSeg b] it && bool_decide (it_serial it ∉ b_exceptions b).

(** Rows of 256 bits starting below [m] lie within the segment, which is not much
    longer than that. *)
Record segment_ok (m : Z) (seg : list Z) : Prop := {
  sg_words : words seg;
  sg_fits : m + 256 <= 64 * blen seg;
  sg_size : 64 * blen seg <= m + 640
}.

(** A block as [buildBlock] leaves it: it answers its own serials. *)
Record built (iss : Issuer) (b : block) : Prop := {
  bt_id : b_id b = SpkiHash iss;
  bt_bytes : b_invertedByte b = InvertedByte iss /\ b_rankByte b = RankByte iss;
  bt_rank : 0 <= b_rank b < 64;
  bt_columns : blen (b_approxSegs b) = b_rank b;
  bt_approxM : 0 <= b_approxM b <= 2 * blen (Revoked iss);
  bt_exactM : 0 <= b_exactM b <= 2 * (blen (Revoked iss) + blen (NotRevoked iss));
  bt_length : exists len, Forall (fun seg => blen seg = len) (b_approxSegs b);
  bt_segs : Forall (segment_ok (b_approxM b)) (b_approxSegs b);
  bt_exactSeg : if b_approxM b =? 0 then b_exactM b = 0 /\ b_exactSeg b = []
                else 0 < b_exactM b /\ segment_ok (b_exactM b) (b_exactSeg b);
  bt_exceptions : b_exceptions b ⊆ NotRevoked iss;
  bt_exceptions_len : blen (b_exceptions b) <= blen (NotRevoked iss);
  bt_revoked s : s ∈ Revoked iss ->
    xorb (b_inverted b) (block_member b (item_of (SpkiHash iss) s)) = true;
  bt_notRevoked s : s ∈ NotRevoked iss ->
    xorb (b_inverted b) (block_member b (item_of (SpkiHash iss) s)) = false
}.

(** ** Items *)
Record wf_item (it : item) : Prop := {
  wi_len : length (it_a it) = 4%nat;
  wi_words : words (it_a it);
  wi_aligned : vec_bit (it_a it) 0 = true
}.

Lemma length_sha (x : bytes) : length (sha256_Sum256 x) = 32%nat.
Proof. apply length_sha256. Qed.

Lemma coef_of_limbs h :
  coef_of h = [Z.lor (le_decode (sub h 0 8)) 1; le_decode (sub h 8 8);
               le_decode (sub h 16 8); row_hash h].
Proof. done. Qed.

Lemma item_of_wf issuer serial : wf_item (item_of issuer serial).
Proof.
  pose proof (length_sha (issuer ++ serial)) as Hl.
  constructor; simpl it_a; [done| |].
  - rewrite coef_of_limbs. unfold words, row_hash.
    repeat (apply List.Forall_cons; [try (apply lor_u64; [|by unfold is_u64]); apply limbs_u64; [done|lia]|]).
    constructor.
  - rewrite coef_of_limbs. unfold vec_bit.
    change (0 `div` 64) with 0. change (0 `mod` 64) with 0. change (Z.to_nat 0) with 0%nat. cbn [nth].
    by rewrite Z.lor_spec, orb_true_r.
Qed.

Lemma hash_item_ok issuer serial : blen serial <= 255 -> hash_item issuer serial = Ok (item_of issuer serial).
Proof.
  intros H. unfold hash_item. destruct (Z.ltb_spec 255 (blen serial)); [lia|]. done.
Qed.

Lemma hashAll_ok issuer serials :
  Forall (fun s => blen s <= 255) serials -> hashAll issuer serials = Ok (map (item_of issuer) serials).
Proof.
  intros H. induction H as [|s l Hs _ IH]; simpl; [done|]. rewrite hash_item_ok by done. go_simp.
  by rewrite IH.
Qed.

(** The equation of an item. *)
Definition item_eqn (it : item) (m b : Z) : equation :=
  mkEquation (limb_of (it_a it) 3 `mod` m) (it_a it) b.

Lemma item_equation_ok it m b : 0 < m -> item_equation it m b = Ok (item_eqn it m b).
Proof. intros H. unfold item_equation. by destruct (Z.eqb_spec m 0); [lia|]. Qed.

Lemma item_eqn_wf it m b :
  wf_item it -> 0 < m -> 0 <= b < 2 ->
  wf_equation (m + 255) (item_eqn it m b) /\ aligned (item_eqn it m b).
Proof.
  intros [Hl Hw Ha] Hm Hb. pose proof (Z.mod_pos_bound (limb_of (it_a it) 3) m Hm).
  split; [|done]. constructor; simpl; try done; [lia|]. intros j Hj _. lia.
Qed.

Lemma sat_item_eqn it m b z :
  sat z (item_eqn it m (Z.b2z b)) <-> gf2_dot z (limb_of (it_a it) 3 `mod` m) (it_a it) = b.
Proof. unfold sat. simpl eq_b. by rewrite b2z_testbit. Qed.

(** ** Filling a ribbon *)
Section Fill.
Context (m : Z).
Hypothesis Hm : 0 < m < 2 ^ 60.

(** The system after the insertions: it has kept the rows' consequences. *)
Record filled (r r' : list equation) : Prop := {
  fl_wf : wf_rows (m + 255) r';
  fl_len : blen r <= blen r';
  fl_sat z : sat_all z r' -> sat_all z r
}.

Lemma filled_trans r1 r2 r3 : filled r1 r2 -> filled r2 r3 -> filled r1 r3.
Proof. intros [? ? ?] [? ? ?]. constructor; [done|lia|auto]. Qed.

Lemma insert_item_ok r it b :
  wf_rows (m + 255) r -> wf_item it -> 0 <= b < 2 ->
  exists r' ok, insert r (item_eqn it m b) = Ok (r', ok)
  /\ inserted (m + 255) r (item_eqn it m b) r' ok /\ filled r r'.
Proof.
  intros Hr Hit Hb. destruct (item_eqn_wf it m b Hit) as [He Ha]; [lia|done|].
  destruct (insert_ok (m + 255) r (item_eqn it m b)) as (r' & ok & E & Hin); [lia|done..|].
  exists r', ok. split; [done|]. split; [done|]. destruct Hin as [Hw Hl Hok Hex _].
  constructor; [done|done|]. intros z Hz. destruct ok; [by apply Hok|].
  destruct (Hex eq_refl) as [-> _]. done.
Qed.

(** The revoked items: the homogeneous equations, all accepted. *)
Lemma insert_revoked_ok items r :
  wf_rows (m + 255) r -> homogeneous r -> Forall wf_item items ->
  exists r', insert_revoked m items r = Ok r' /\ filled r r' /\ homogeneous r'
  /\ forall z it, sat_all z r' -> it ∈ items -> sat z (item_eqn it m 0).
Proof.
  intros Hr Hh Hi. revert r Hr Hh. induction Hi as [|it items Hit Hi IH]; intros r Hr Hh; simpl.
  { exists r. split; [done|]. split; [by constructor|]. split; [done|]. by intros z it _ ?%elem_of_nil. }
  rewrite item_equation_ok by lia. go_simp.
  destruct (insert_item_ok r it 0) as (r1 & ok & E & [Hw Hl Hok _ Hhom] & Hf); [done|done|lia|].
  rewrite E. go_simp. destruct (Hhom Hh eq_refl) as [-> Hh1].
  destruct (IH r1 Hw Hh1) as (r2 & -> & Hf2 & Hh2 & Hs2). exists r2. split; [done|].
  split; [by apply (filled_trans _ r1)|]. split; [done|].
  intros z it' Hz [->|Hin]%elem_of_cons; [|by apply Hs2]. apply (Hok z eq_refl). by apply Hf2.
Qed.

Lemma insert_universe_app nR i u1 u2 r exc :
  insert_universe m nR i (u1 ++ u2) r exc
  = ('(r, exc) ← insert_universe m nR i u1 r exc; insert_universe m nR (i + blen u1) u2 r exc).
Proof.
  revert i r exc. induction u1 as [|it u1 IH]; intros i r exc; simpl.
  { unfold blen. simpl. by rewrite Z.add_0_r. }
  destruct (item_equation _ _ _); go_simp; [|done..]. destruct (insert _ _) as [[r1 ok]| | |]; go_simp; [|done..].
  rewrite IH. destruct (insert_universe _ _ _ u1 _ _) as [[r2 exc']| | |]; go_simp; [|done..].
  f_equal. unfold blen. simpl. lia.
Qed.

(** The first [nR] items of the universe are treated as the revoked ones. *)
Lemma insert_universe_revoked nR i u r exc r' :
  homogeneous r -> wf_rows (m + 255) r -> Forall wf_item u -> i + blen u <= nR ->
  insert_revoked m u r = Ok r' -> insert_universe m nR i u r exc = Ok (r', exc).
Proof.
  intros Hh Hr Hu. revert i r Hh Hr. induction Hu as [|it u Hit Hu IH]; intros i r Hh Hr Hi; simpl.
  { by intros [= ->]. }
  unfold blen in Hi. simpl in Hi. destruct (Z.leb_spec nR i); [lia|].
  rewrite item_equation_ok by lia. go_simp.
  destruct (insert_item_ok r it 0) as (r1 & ok & E & [Hw _ _ _ Hhom] & _); [done|done|lia|].
  rewrite E. go_simp. destruct (Hhom Hh eq_refl) as [-> Hh1]. apply IH; [done|done|].
  unfold blen. lia.
Qed.

(** The other items: each is solved or becomes an exception. *)
Lemma insert_universe_good nR i u r exc :
  wf_rows (m + 255) r -> Forall wf_item u -> nR <= i ->
  exists r' more, insert_universe m nR i u r exc = Ok (r', exc ++ more) /\ filled r r'
  /\ (length more <= length u)%nat /\ more ⊆ map it_serial u
  /\ forall z it, sat_all z r' -> it ∈ u -> it_serial it ∈ more \/ sat z (item_eqn it m 1).
Proof.
  intros Hr Hu. revert i r exc Hr. induction Hu as [|it u Hit Hu IH]; intros i r exc Hr Hi; simpl.
  { exists r, []. rewrite app_nil_r. split; [done|]. split; [by constructor|]. split; [done|].
    split; [done|]. by intros z it _ ?%elem_of_nil. }
  destruct (Z.leb_spec nR i); [|lia]. rewrite item_equation_ok by lia. go_simp.
  destruct (insert_item_ok r it 1) as (r1 & ok & E & [Hw _ Hok _ _] & Hf); [done|done|lia|].
  rewrite E. go_simp. set (exc1 := if ok then exc else _).
  destruct (IH (i + 1) r1 exc1 Hw) as (r2 & more & -> & Hf2 & Hl & Hsub & Hs2); [lia|].
  exists r2, ((if ok then [] else [it_serial it]) ++ more). split; [|split; [|split; [|split]]].
  - f_equal. unfold exc1. destruct ok; [done|]. by rewrite app_assoc.
  - by apply (filled_trans _ r1).
  - rewrite length_app. destruct ok; simpl; lia.
  - destruct ok; set_solver.
  - intros z it' Hz [->|Hin]%elem_of_cons.
    + destruct ok; [right; apply (Hok z eq_refl); by apply Hf2|left; set_solver].
    + destruct (Hs2 z it' Hz Hin); [left; set_solver|by right].
Qed.

(** Solving a filled ribbon. *)
Lemma solve_filled `{RandSource} r rng :
  wf_rows (m + 255) r -> m <= blen r ->
  exists z rng', solve r rng = Ok (z, rng') /\ segment_ok m z /\ sat_all z r
                 /\ blen z = solution_words r.
Proof.
  intros Hr Hl. destruct (solve_ok (m + 255) r rng) as (z & rng' & E & Hz & Hw & Hs); [lia|done|].
  exists z, rng'. split; [done|]. split; [|done]. destruct Hr as [Hlen _].
  unfold solution_words in Hz. pose proof (Z.div_mod (blen r + 63) 64 ltac:(lia)).
  pose proof (Z.mod_pos_bound (blen r + 63) 64 ltac:(lia)). constructor; [done|lia..].
Qed.

Lemma solve_columns_ok `{RandSource} r n rng :
  wf_rows (m + 255) r -> m <= blen r ->
  exists segs rng', solve_columns n r rng = Ok (segs, rng') /\ length segs = n
  /\ Forall (segment_ok m) segs /\ Forall (fun z => sat_all z r) segs
  /\ Forall (fun z => blen z = solution_words r) segs.
Proof.
  intros Hr Hl. revert rng. induction n as [|n IH]; intros rng; simpl.
  { by exists [], rng. }
  destruct (solve_filled r rng Hr Hl) as (z & rng1 & -> & Hz & Hs & Hlz). go_simp.
  destruct (IH rng1) as (segs & rng2 & -> & Hn & H1 & H2 & H3). go_simp.
  exists (z :: segs), rng2. split; [done|]. split; [simpl; lia|]. by repeat split; constructor.
Qed.

End Fill.

(** ** The universe of the exact ribbon *)
Lemma segs_pass_ok m it segs :
  0 < m < 2 ^ 60 -> wf_item it -> Forall words segs ->
  segs_pass (item_eqn it m 0) segs = Ok (item_passes m segs it).
Proof.
  intros Hm Hit Hs. induction Hs as [|seg segs Hw _ IH]; simpl; [done|].
  destruct (item_eqn_wf it m 0 Hit) as [He Ha]; [lia|lia|].
  pose proof (Z.mod_pos_bound (limb_of (it_a it) 3) m ltac:(lia)).
  rewrite (eval_ok (m + 255)) by (done || simpl; lia). go_simp.
  cbn [eq_s eq_a item_eqn]. destruct (gf2_dot seg _ _); [done|]. simpl. exact IH.
Qed.

Lemma passesApprox_ok m it segs :
  0 < m < 2 ^ 60 -> wf_item it -> Forall words segs ->
  passesApprox m segs it = Ok (item_passes m segs it).
Proof.
  intros Hm Hit Hs. unfold passesApprox. rewrite item_equation_ok by lia. go_simp.
  by apply segs_pass_ok.
Qed.

Lemma survivors_ok m segs good universe :
  0 < m < 2 ^ 60 -> Forall wf_item good -> Forall words segs ->
  survivors m segs good universe = Ok (universe ++ List.filter (item_passes m segs) good).
Proof.
  intros Hm Hg Hs. revert universe. induction Hg as [|it good Hit _ IH]; intros universe; simpl.
  { by rewrite app_nil_r. }
  rewrite passesApprox_ok by done. go_simp. rewrite IH.
  destruct (item_passes m segs it); [|done]. by rewrite <- app_assoc.
Qed.

(** The rank the builder computes. *)
Definition rank_of (nR nU : Z) : Z := if 2 * nR <? nU then bits_Len ((nU - nR) `div` nR) - 1 else 0.

Lemma rank_of_range nR nU : 0 < nR -> nU < 2 ^ 60 -> 0 <= rank_of nR nU < 64.
Proof.
  intros HR HU. unfold rank_of, bits_Len. destruct (Z.ltb_spec (2 * nR) nU); [|lia].
  assert (1 <= (nU - nR) `div` nR) by (apply Z.div_le_lower_bound; lia).
  destruct (Z.eqb_spec ((nU - nR) `div` nR) 0); [lia|].
  pose proof (Z.log2_nonneg ((nU - nR) `div` nR)).
  assert (Z.log2 ((nU - nR) `div` nR) < 60); [|lia].
  apply Z.log2_lt_pow2; [lia|]. apply Z.div_lt_upper_bound; [lia|]. nia.
Qed.

(** A member of the encoded set: the equations with constant 0 hold. *)
Lemma item_passes_sat m segs it :
  Forall (fun z => sat z (item_eqn it m 0)) segs -> item_passes m segs it = true.
Proof.
  intros H. apply forallb_forall. intros seg Hin%list_elem_of_In.
  rewrite Forall_forall in H. specialize (H seg Hin). apply (sat_item_eqn it m false) in H. by rewrite H.
Qed.

Lemma item_passes_unsat m seg it :
  sat seg (item_eqn it m 1) -> item_passes m [seg] it = false.
Proof. intros H. apply (sat_item_eqn it m true) in H. simpl. by rewrite H. Qed.

(** ** [buildBlock] *)
Definition wf_issuer (iss : Issuer) : Prop :=
  length (SpkiHash iss) = 32%nat
  /\ Forall (fun s => blen s <= 255) (Revoked iss) /\ Forall (fun s => blen s <= 255) (NotRevoked iss)
  /\ (forall s, s ∈ Revoked iss -> s ∉ NotRevoked iss)
  /\ blen (Revoked iss) + blen (NotRevoked iss) < 2 ^ 32 /\ blen (NotRevoked iss) < 65536.

Section BuildBlock.
Context {R : RandSource} (iss : Issuer).
Hypothesis Hiss : wf_issuer iss.
Let revoked := map (item_of (SpkiHash iss)) (Revoked iss).
Let good := map (item_of (SpkiHash iss)) (NotRevoked iss).
Let nR := blen (Revoked iss).
Let nG := blen (NotRevoked iss).

Lemma items_wf serials : Forall wf_item (map (item_of (SpkiHash iss)) serials).
Proof. apply List.Forall_forall. intros it (s & <- & _)%in_map_iff. apply item_of_wf. Qed.

(** The approximate ribbon: every revoked item passes every column. *)
Lemma approx_ok m rank rng :
  0 < m < 2 ^ 60 -> 0 <= rank ->
  exists segs rng',
    (if 0 <? rank
     then r ← insert_revoked m revoked (newRibbon m); solve_columns (Z.to_nat rank) r rng
     else Ok ([], rng)) = Ok (segs, rng')
    /\ blen segs = rank /\ Forall (segment_ok m) segs
    /\ (exists len, Forall (fun seg => blen seg = len) segs)
    /\ forall it, it ∈ revoked -> item_passes m segs it = true.
Proof.
  intros Hm Hrank. destruct (Z.ltb_spec 0 rank).
  2: { exists [], rng. split; [done|]. split; [unfold blen; simpl; lia|].
       split; [done|]. split; [by exists 0|done]. }
  destruct (newRibbon_ok m (m + 255)) as (Hw & Hh & Hl); [lia|].
  destruct (insert_revoked_ok m Hm revoked (newRibbon m) Hw Hh (items_wf _)) as (r & -> & Hf & _ & Hs).
  go_simp. destruct Hf as [Hwr Hlr _].
  destruct (solve_columns_ok m Hm r (Z.to_nat rank) rng Hwr) as (segs & rng' & E & Hn & H1 & H2 & H3); [lia|].
  exists segs, rng'. split; [done|]. split; [unfold blen; lia|]. split; [done|].
  split; [by eexists|]. intros it Hit. apply item_passes_sat.
  eapply Forall_impl; [exact H2|]. intros z Hz. by apply Hs.
Qed.

(** The exact ribbon over the revoked items and the surviving others. *)
Lemma exact_ok m rest rng :
  0 < m < 2 ^ 60 -> Forall wf_item rest ->
  exists r exceptions seg rng',
    insert_universe m (blen revoked) 0 (revoked ++ rest) (newRibbon m) [] = Ok (r, exceptions)
    /\ solve r rng = Ok (seg, rng') /\ segment_ok m seg
    /\ (length exceptions <= length rest)%nat /\ exceptions ⊆ map it_serial rest
    /\ (forall it, it ∈ revoked -> item_passes m [seg] it = true)
    /\ (forall it, it ∈ rest -> it_serial it ∈ exceptions \/ item_passes m [seg] it = false).
Proof.
  intros Hm Hrest. destruct (newRibbon_ok m (m + 255)) as (Hw & Hh & Hl); [lia|].
  destruct (insert_revoked_ok m Hm revoked (newRibbon m) Hw Hh (items_wf _)) as (r1 & E1 & [Hw1 Hl1 _] & _ & Hs1).
  destruct (insert_universe_good m Hm (blen revoked) (0 + blen revoked) rest r1 [] Hw1 Hrest)
    as (r & more & E2 & [Hw2 Hl2 Hs] & Hlen & Hsub & Hs2); [lia|].
  destruct (solve_filled m Hm r rng Hw2) as (seg & rng' & E3 & Hseg & Hsat & _); [lia|].
  exists r, more, seg, rng'. split.
  { rewrite insert_universe_app.
    rewrite (insert_universe_revoked m Hm (blen revoked) 0 revoked (newRibbon m) [] r1);
      [|done|done|apply items_wf|lia|done]. go_simp. by rewrite E2. }
  split; [done|]. split; [done|]. split; [done|]. split; [done|]. split.
  - intros it Hit. apply item_passes_sat. repeat constructor. by apply Hs1; [apply Hs|].
  - intros it Hit. destruct (Hs2 seg it Hsat Hit); [by left|right]. by apply item_passes_unsat.
Qed.

Lemma elem_of_blen {A} (x : A) l : x ∈ l -> 0 < blen l.
Proof. intros H. destruct l; [by apply elem_of_nil in H|]. unfold blen. simpl. lia. Qed.

(** Blocks without ribbons. *)
Lemma built_empty :
  nR = 0 \/ nG = 0 ->
  built iss (mkBlock (SpkiHash iss) ((0 <? nR) && (nR =? nR + nG)) (InvertedByte iss) (RankByte iss)
               0 0 0 [] 0 0 [] []).
Proof.
  intros Hor. assert (0 <= nR /\ 0 <= nG) by (unfold nR, nG, blen; lia).
  constructor; simpl; try done; try (fold nR nG; lia); try (unfold blen; simpl; lia).
  - by exists 0.
  - set_solver.
  - intros s Hs%elem_of_blen. fold nR in Hs. destruct (Z.ltb_spec 0 nR), (Z.eqb_spec nR (nR + nG)); lia || done.
  - intros s Hs%elem_of_blen. fold nG in Hs. destruct (Z.ltb_spec 0 nR), (Z.eqb_spec nR (nR + nG)); lia || done.
Qed.

Lemma elem_of_items it serials :
  it ∈ map (item_of (SpkiHash iss)) serials <-> exists s, s ∈ serials /\ it = item_of (SpkiHash iss) s.
Proof.
  rewrite list_elem_of_In, in_map_iff. setoid_rewrite <- list_elem_of_In. naive_solver.
Qed.

(** Blocks with ribbons: the answers of the issuer's own serials. *)
Lemma built_ribbons aM rank segs eM exceptions seg :
  let passing := List.filter (item_passes aM segs) good in
  0 < nR -> 0 < aM <= 2 * nR -> 0 <= rank < 64 -> blen segs = rank ->
  Forall (segment_ok aM) segs -> (exists len, Forall (fun s => blen s = len) segs) ->
  0 < eM <= 2 * (nR + nG) -> segment_ok eM seg ->
  (length exceptions <= length passing)%nat -> exceptions ⊆ map it_serial passing ->
  (forall it, it ∈ revoked -> item_passes aM segs it = true /\ item_passes eM [seg] it = true) ->
  (forall it, it ∈ passing -> it_serial it ∈ exceptions \/ item_passes eM [seg] it = false) ->
  built iss (mkBlock (SpkiHash iss) false (InvertedByte iss) (RankByte iss) aM rank 0 segs eM 0 seg exceptions).
Proof.
  intros passing HnR HaM Hrank Hn Hsegs Hlen HeM Hseg Hel Hes Hrev Hgood.
  assert (exceptions ⊆ NotRevoked iss) as Hsub.
  { intros s Hs%Hes. apply list_elem_of_In, in_map_iff in Hs as (it & <- & [Hin _]%filter_In).
    apply list_elem_of_In, elem_of_items in Hin as (s & Hs & ->). done. }
  assert (length exceptions <= length (NotRevoked iss))%nat as Hel'.
  { etrans; [exact Hel|]. unfold passing, good. etrans; [apply List.filter_length_le|]. by rewrite length_map. }
  constructor; cbn [b_id b_inverted b_invertedByte b_rankByte b_approxM b_rank b_approxSegs b_exactM
                    b_exactSeg b_exceptions]; try done.
  - fold nR. lia.
  - fold nR nG. lia.
  - destruct (Z.eqb_spec aM 0); [lia|]. split; [lia|done].
  - unfold blen. lia.
  - intros s Hs. assert (item_of (SpkiHash iss) s ∈ revoked) as Hit by (apply elem_of_items; eauto).
    destruct (Hrev _ Hit) as [H1 H2]. unfold block_member.
    cbn [b_approxM b_approxSegs b_exactM b_exactSeg b_exceptions]. rewrite H1, H2.
    destruct (Z.eqb_spec aM 0); [lia|]. rewrite bool_decide_true; [done|]. simpl. intros Hin%Hsub.
    destruct Hiss as (_ & _ & _ & Hd & _). by apply (Hd s).
  - intros s Hs. rewrite xorb_false_l. unfold block_member.
    cbn [b_approxM b_approxSegs b_exactM b_exactSeg b_exceptions].
    destruct (item_passes aM segs (item_of (SpkiHash iss) s)) eqn:Hp; [|by rewrite andb_false_r].
    destruct (Hgood (item_of (SpkiHash iss) s)) as [Hin|H2].
    + apply list_elem_of_In, filter_In. split; [|done]. apply list_elem_of_In, elem_of_items. eauto.
    + rewrite bool_decide_false; [by rewrite andb_false_r|]. intros Hn'. by apply Hn'.
    + rewrite H2. by rewrite andb_false_r.
Qed.

Lemma buildBlock_ok rng :
  exists b rng', buildBlock iss rng = Ok (b, rng') /\ built iss b
                 /\ b_hOffset b = 0 /\ b_gOffset b = 0.
Proof.
  destruct Hiss as (Hid & HlR & HlG & Hd & Hcap & _). unfold buildBlock.
  rewrite !hashAll_ok by done. go_simp. fold revoked good.
  assert (blen revoked = nR) as HR by (unfold revoked, nR, blen; by rewrite length_map).
  assert (blen good = nG) as HG by (unfold good, nG, blen; by rewrite length_map).
  assert (0 <= nR /\ 0 <= nG) as [HR0 HG0] by (unfold nR, nG, blen; lia).
  fold nR nG in Hcap. rewrite HR, HG.
  destruct ((nR =? 0) || ((0 <? nR) && (nR =? nR + nG))) eqn:Ee.
  { eexists _, rng. split; [done|]. split; [|done]. apply built_empty.
    apply orb_true_iff in Ee as [Ee%Z.eqb_eq|[_ Ee%Z.eqb_eq]%andb_true_iff]; [by left|right; lia]. }
  apply orb_false_iff in Ee as [Ee%Z.eqb_neq Einv]. rewrite Einv.
  fold (rank_of nR (nR + nG)).
  assert (0 <= nR `div` 50 <= nR) by (split; [apply Z.div_pos; lia|apply Z.div_le_upper_bound; lia]).
  pose proof (rank_of_range nR (nR + nG) ltac:(lia) ltac:(lia)) as Hrank.
  destruct (approx_ok (nR + nR `div` 50) (rank_of nR (nR + nG)) rng) as (segs & rng1 & E1 & Hn & Hsegs & Hlen & Hrev); [lia|lia|].
  rewrite E1. go_simp.
  rewrite survivors_ok; [|lia|apply items_wf|by eapply Forall_impl; [exact Hsegs|intros ? []]]. go_simp.
  set (passing := List.filter _ good).
  assert (0 <= blen passing <= nG).
  { unfold passing, blen. rewrite <- HG. pose proof (List.filter_length_le (item_passes (nR + nR `div` 50) segs) good).
    unfold blen. lia. }
  assert (blen (revoked ++ passing) = nR + blen passing) as -> by (unfold blen in *; rewrite length_app; lia).
  set (u := nR + blen passing) in *.
  assert (0 <= u `div` 50 <= u) by (split; [apply Z.div_pos; lia|apply Z.div_le_upper_bound; lia]).
  destruct (exact_ok (u + u `div` 50) passing rng1) as (r & exceptions & seg & rng2 & E2 & E3 & Hseg & Hel & Hes & Hr2 & Hg2).
  { lia. }
  { apply List.Forall_forall. intros it [Hin _]%filter_In. pose proof (items_wf (NotRevoked iss)) as Hw.
    rewrite List.Forall_forall in Hw. by apply Hw. }
  rewrite HR in E2. rewrite E2. go_simp. rewrite E3. go_simp.
  eexists _, rng2. split; [done|]. split; [|done].
  apply built_ribbons; try done; [lia..|]. intros it Hit. auto.
Qed.
End BuildBlock.
