(* ===== verification/ClubcardAnswers.v ===== *)
(** * What the built clubcards answer

    The layout of the blocks' segments in the shared columns, the serialisation
    against the wire grammar, and the theorem that joins [Filter.Bytes]
    ([internal/test/clubcard_encode.go]), [FromBytes] ([crlite/parser.go]) and
    [RevocationFilter.Contains] ([crlite/crlite.go], [internal/clubcard.go]). *)
From S2P Require Import Prelude Codec Sha256 Cryptobyte Clubcard CrliteParser Crlite Ribbon ClubcardEncode.

(** ** Offsets *)
Definition seg_len (b : block) : Z := blen (nth 0 (b_approxSegs b) []).

(** What one block takes of the approximate columns and of the exact one. *)
Definition h_room (b : block) : Z := if 0 <? b_rank b then 64 * seg_len b else 0.
Definition g_room (b : block) : Z := if 0 <? b_exactM b then 64 * blen (b_exactSeg b) else 0.

(** The blocks' offsets are the rooms of the blocks before them. *)
Fixpoint placed (h g : Z) (blocks : list block) : Prop :=
  match blocks with
  | [] => True
  | b :: blocks =>
      (0 < b_rank b -> b_hOffset b = h) /\ (0 < b_exactM b -> b_gOffset b = g)
      /\ (b_rank b <= 0 -> b_hOffset b = 0) /\ (b_exactM b <= 0 -> b_gOffset b = 0)
      /\ placed (h + h_room b) (g + g_room b) blocks
  end.

(** Equal but for the offsets. *)
Definition with_offsets (b : block) (h g : Z) : block :=
  mkBlock (b_id b) (b_inverted b) (b_invertedByte b) (b_rankByte b) (b_approxM b) (b_rank b) h
    (b_approxSegs b) (b_exactM b) g (b_exactSeg b) (b_exceptions b).

Lemma built_with_offsets iss b h g : built iss b -> built iss (with_offsets b h g).
Proof. by intros []. Qed.

Definition no_offsets (b : block) : Prop := b_hOffset b = 0 /\ b_gOffset b = 0.

Definition max_rank (blocks : list block) : Z := fold_right (fun b m => Z.max (b_rank b) m) 0 blocks.

Lemma assign_offsets_ok blocks m h g :
  Forall no_offsets blocks -> Forall (fun b => blen (b_approxSegs b) = b_rank b) blocks ->
  0 <= m ->
  exists blocks', assign_offsets blocks m h g = Ok (blocks', Z.max m (max_rank blocks))
  /\ Forall2 (fun b b' => exists x y, b' = with_offsets b x y) blocks blocks'
  /\ placed h g blocks'.
Proof.
  intros H0 Hr Hm. revert m h g Hm. induction H0 as [|b blocks [Hb0 Hb1] H0 IH]; intros m h g Hm; simpl.
  { exists []. split; [do 2 f_equal; lia|]. by split. }
  apply Forall_cons in Hr as [Hbr Hr].
  assert (exists x, (if 0 <? b_rank b
            then seg ← index (b_approxSegs b) 0; Ok (h, h + 64 * blen seg)
            else Ok (b_hOffset b, h)) = Ok (x, h + h_room b)
          /\ (0 < b_rank b -> x = h) /\ (b_rank b <= 0 -> x = 0)) as (x & -> & Hx & Hx0).
  { unfold h_room, seg_len. destruct (Z.ltb_spec 0 (b_rank b)); [|exists 0; rewrite Hb0, Z.add_0_r; by split; [|split; [lia|]]].
    destruct (b_approxSegs b) as [|seg segs]; [unfold blen in Hbr; simpl in Hbr; lia|].
    exists h. split; [done|]. split; [done|lia]. }
  go_simp.
  assert (exists y, (if 0 <? b_exactM b then (g, g + 64 * blen (b_exactSeg b)) else (b_gOffset b, g))
            = (y, g + g_room b) /\ (0 < b_exactM b -> y = g) /\ (b_exactM b <= 0 -> y = 0)) as (y & -> & Hy & Hy0).
  { unfold g_room. destruct (Z.ltb_spec 0 (b_exactM b)); [by exists g; split; [|split; [|lia]]|].
    exists 0. rewrite Hb1, Z.add_0_r. by split; [|split; [lia|]]. }
  destruct (IH Hr (Z.max m (b_rank b)) (h + h_room b) (g + g_room b)) as (blocks' & -> & H2 & Hp); [lia|].
  go_simp. exists (with_offsets b x y :: blocks'). split; [do 2 f_equal; lia|]. split.
  - constructor; [by exists x, y|done].
  - by repeat split.
Qed.

(** ** Columns *)
Definition cat_segs (i : Z) (blocks : list block) : list Z :=
  concat (map (fun b => if i <? b_rank b then nth (Z.to_nat i) (b_approxSegs b) [] else []) blocks).

Lemma column_ok i blocks :
  0 <= i -> Forall (fun b => blen (b_approxSegs b) = b_rank b) blocks ->
  column blocks i = Ok (cat_segs i blocks).
Proof.
  intros Hi H. unfold cat_segs. induction H as [|b blocks Hb _ IH]; simpl; [done|].
  destruct (Z.ltb_spec i (b_rank b)); [|exact IH].
  destruct (index_in_range (b_approxSegs b) i) as (seg & Hseg & ->); [lia|]. go_simp. rewrite IH. go_simp.
  by rewrite (nth_lookup_Some _ _ [] _ Hseg).
Qed.

(** The layout facts the columns rest on. *)
Definition even_segs (b : block) : Prop :=
  blen (b_approxSegs b) = b_rank b /\ Forall (fun seg => blen seg = seg_len b) (b_approxSegs b).

(** A block's segment is in each of its columns at the block's one offset. *)
Lemma column_segment i blocks h g b :
  0 <= i -> StronglySorted (fun a b => b_rank b <= b_rank a) blocks -> Forall even_segs blocks ->
  placed h g blocks -> b ∈ blocks -> i < b_rank b ->
  exists pre post, cat_segs i blocks = pre ++ nth (Z.to_nat i) (b_approxSegs b) [] ++ post
                   /\ b_hOffset b = h + 64 * blen pre.
Proof.
  intros Hi Hs He. revert h g. unfold cat_segs.
  induction Hs as [|a blocks Hs IH Ha]; intros h g Hp Hb Hr; [by apply elem_of_nil in Hb|].
  apply Forall_cons in He as [[Har Hae] He]. destruct Hp as (Hph & _ & _ & _ & Hp).
  apply elem_of_cons in Hb as [->|Hb]; simpl.
  - destruct (Z.ltb_spec i (b_rank a)); [|lia]. eexists [], _. split; [done|].
    rewrite Hph by lia. unfold blen. simpl. lia.
  - assert (b_rank b <= b_rank a) by (rewrite List.Forall_forall in Ha; by apply Ha, list_elem_of_In).
    destruct (Z.ltb_spec i (b_rank a)); [|lia].
    destruct (IH He _ _ Hp Hb Hr) as (pre & post & -> & ->).
    eexists (_ ++ pre), post. split; [by rewrite <- app_assoc|].
    unfold h_room. destruct (Z.ltb_spec 0 (b_rank a)); [|lia].
    rewrite List.Forall_forall in Hae.
    assert (blen (nth (Z.to_nat i) (b_approxSegs a) []) = seg_len a) as E
      by (apply Hae, nth_In; unfold blen in *; lia).
    unfold blen in *. rewrite length_app. lia.
Qed.

Lemma exact_segment blocks h g b :
  Forall (fun b => b_exactM b = 0 -> b_exactSeg b = []) blocks ->
  Forall (fun b => 0 <= b_exactM b) blocks ->
  placed h g blocks -> b ∈ blocks -> 0 < b_exactM b ->
  exists pre post, concat (map b_exactSeg blocks) = pre ++ b_exactSeg b ++ post
                   /\ b_gOffset b = g + 64 * blen pre.
Proof.
  intros H0. revert h g. induction H0 as [|a blocks Ha H0 IH]; intros h g Hn Hp Hb Hm; [by apply elem_of_nil in Hb|].
  apply Forall_cons in Hn as [Hna Hn]. destruct Hp as (_ & Hpg & _ & _ & Hp).
  apply elem_of_cons in Hb as [->|Hb]; simpl.
  - exists [], (concat (map b_exactSeg blocks)). split; [done|]. rewrite Hpg by done. unfold blen. simpl. lia.
  - destruct (IH _ _ Hn Hp Hb Hm) as (pre & post & -> & ->).
    exists (b_exactSeg a ++ pre), post. split; [by rewrite <- app_assoc|].
    unfold g_room, blen. rewrite length_app.
    destruct (Z.ltb_spec 0 (b_exactM a)); [lia|]. rewrite Ha by lia. simpl. lia.
Qed.

(** A window inside one segment of a concatenation. *)
Lemma vec_bit_segment pre seg post k :
  0 <= k < 64 * blen seg -> vec_bit (pre ++ seg ++ post) (64 * blen pre + k) = vec_bit seg k.
Proof.
  intros Hk. pose proof (Z.div_mod k 64 ltac:(lia)) as Ek. pose proof (Z.mod_pos_bound k 64 ltac:(lia)).
  set (q := k `div` 64) in *. set (r := k `mod` 64) in *. rewrite Ek.
  replace (64 * blen pre + (64 * q + r)) with (64 * (blen pre + q) + r) by lia.
  rewrite !vec_bit_word by lia. f_equal. unfold blen in *.
  rewrite app_nth2 by lia. rewrite app_nth1 by lia. f_equal. lia.
Qed.

Lemma gf2_dot_segment pre seg post row coef :
  0 <= row -> row + 256 <= 64 * blen seg ->
  gf2_dot (pre ++ seg ++ post) (64 * blen pre + row) coef = gf2_dot seg row coef.
Proof.
  intros H0 Hr. unfold gf2_dot. apply xorn_ext. intros j Hj.
  rewrite <- Z.add_assoc, vec_bit_segment; [done|lia].
Qed.

(** ** Serialisation *)
Definition coverage_entry (c : Coverage) : bytes * timestampInterval :=
  (cov_LogId c, mkInterval (MinTimestamp c) (MaxTimestamp c)).
Definition block_meta (b : block) : wire_meta :=
  mkWireMeta (b_approxM b) (b_rank b) (b_hOffset b) (b_exactM b) (b_gOffset b) (b_inverted b)
    (b_exceptions b).
Definition block_entry (b : block) : bytes * wire_meta := (b_id b, block_meta b).

(** The abstract file of the parser's grammar that [Bytes] writes. *)
Definition wire_of (coverage : list Coverage) (blocks : list block) (maxRank : Z) : wire :=
  mkWire (map coverage_entry coverage) (map block_entry blocks)
    (map (fun i => cat_segs (Z.of_nat i) blocks) (seq 0 (Z.to_nat maxRank)))
    (concat (map b_exactSeg blocks)).

Section Serialised.
Context {B : Builder} {BL : BuilderLaws B}.

Lemma addU64Seq_ok out v : addU64Seq out v = out ++ enc_u64seq v.
Proof.
  unfold addU64Seq, enc_u64seq. rewrite (fold_left_encode _ (be_encode 8)).
  - by rewrite AddUint32_spec, <- app_assoc.
  - intros; apply AddUint64_spec.
Qed.

Lemma add_coverage_ok out c : add_coverage out c = out ++ enc_coverage_entry (coverage_entry c).
Proof.
  unfold add_coverage, enc_coverage_entry, enc_interval. simpl.
  by rewrite !AddUint64_spec, AddBytes_spec, <- !app_assoc.
Qed.

Lemma add_exceptions_ok out l :
  Forall (fun s => blen s < 256) l -> add_exceptions out l = Ok (out ++ encode_all enc_exception l).
Proof.
  intros H. revert out. induction H as [|s l Hs _ IH]; intros out; simpl.
  - unfold encode_all. simpl. by rewrite app_nil_r.
  - rewrite AddUint8LengthPrefixed_spec by done. go_simp. rewrite IH.
    unfold encode_all, enc_exception. simpl. by rewrite <- !app_assoc.
Qed.

(** A block that can be written as it is. *)
Definition plain (b : block) : Prop :=
  b_invertedByte b = None /\ b_rankByte b = None /\ Forall (fun s => blen s < 256) (b_exceptions b).

Lemma add_block_ok out b : plain b -> add_block out b = Ok (out ++ enc_index_entry (block_entry b)).
Proof.
  intros (Hi & Hr & He). unfold add_block. cbv zeta. rewrite Hi, Hr, add_exceptions_ok by done. f_equal.
  rewrite AddUint16_spec, !AddUint8_spec, !AddUint32_spec, AddBytes_spec.
  unfold enc_index_entry, enc_meta. simpl. rewrite <- !app_assoc. by destruct (b_inverted b).
Qed.

Lemma add_blocks_ok out blocks :
  Forall plain blocks -> add_blocks out blocks = Ok (out ++ encode_all enc_index_entry (map block_entry blocks)).
Proof.
  intros H. revert out. induction H as [|b blocks Hb _ IH]; intros out; simpl.
  - unfold encode_all. simpl. by rewrite app_nil_r.
  - rewrite add_block_ok by done. go_simp. rewrite IH. unfold encode_all. simpl. by rewrite <- app_assoc.
Qed.

Lemma add_columns_ok out blocks n lo :
  Forall (fun b => blen (b_approxSegs b) = b_rank b) blocks ->
  for_n n (Z.of_nat lo) (fun i out => col ← column blocks i; Ok (addU64Seq out col)) out
  = Ok (out ++ encode_all enc_u64seq (map (fun i => cat_segs (Z.of_nat i) blocks) (seq lo n))).
Proof.
  intros H. revert lo out. induction n as [|n IH]; intros lo out; simpl for_n.
  - unfold encode_all. simpl. by rewrite app_nil_r.
  - rewrite column_ok by (lia || done). go_simp. rewrite addU64Seq_ok.
    replace (Z.of_nat lo + 1) with (Z.of_nat (Datatypes.S lo)) by lia. rewrite IH.
    unfold encode_all. simpl. by rewrite <- app_assoc.
Qed.

Lemma serialize_ok coverage blocks maxRank :
  Forall plain blocks -> Forall (fun b => blen (b_approxSegs b) = b_rank b) blocks -> 0 <= maxRank ->
  serialize coverage blocks maxRank = Ok (enc_clubcard (wire_of coverage blocks maxRank)).
Proof.
  intros Hp Hr Hm. unfold serialize, add_columns. cbv zeta.
  rewrite add_blocks_ok by done. go_simp.
  rewrite (add_columns_ok _ _ _ 0) by done. go_simp. f_equal.
  rewrite addU64Seq_ok, AddUint8_spec, AddUint32_spec.
  rewrite (fold_left_encode _ (fun c => enc_coverage_entry (coverage_entry c))) by apply add_coverage_ok.
  rewrite AddUint16_spec, AddBytes_spec.
  unfold enc_clubcard, enc_coverage, enc_filter, enc_index, wire_of. cbn [w_coverage w_index w_approx_filter w_exact_filter].
  rewrite !encode_all_map. unfold blen. rewrite !length_map, length_seq.
  rewrite Z2Nat.id by done. rewrite <- !app_assoc. done.
Qed.
End Serialised.

(** ** The blocks of a filter, laid out *)
Record laid_out (issuers : list Issuer) (blocks : list block) : Prop := {
  lo_built : Forall2 built issuers blocks;
  lo_sorted : StronglySorted (fun a b => b_rank b <= b_rank a) blocks;
  lo_placed : placed 0 0 blocks
}.

Lemma StronglySorted_mono {A} (P Q : A -> A -> Prop) l :
  (forall a b, P a b -> Q a b) -> StronglySorted P l -> StronglySorted Q l.
Proof. intros H Hs. induction Hs; constructor; [done|].
  eapply List.Forall_impl; [|eassumption]. auto.
Qed.

Lemma sorted_with_offsets blocks blocks' :
  Forall2 (fun b b' => exists x y, b' = with_offsets b x y) blocks blocks' ->
  StronglySorted (fun a b => b_rank b <= b_rank a) blocks ->
  StronglySorted (fun a b => b_rank b <= b_rank a) blocks'.
Proof.
  intros H. induction H as [|b b' l l' (x & y & ->) H IH]; [done|].
  intros Hs. inversion Hs as [|? ? Hs' Ha]; subst. constructor; [by apply IH|]. clear -H Ha.
  induction H as [|c c' l l' (x' & y' & ->) H IH]; [done|]. inversion Ha; subst.
  constructor; [done|by apply IH].
Qed.

Lemma built_even iss b : built iss b -> even_segs b.
Proof.
  intros Hb. split; [by destruct Hb|]. destruct (bt_length _ _ Hb) as [len Hl]. unfold seg_len.
  destruct (b_approxSegs b) as [|s segs]; [constructor|]. inversion Hl as [|? ? Hs _]; subst.
  exact Hl.
Qed.

Lemma buildBlocks_ok {R : RandSource} issuers rng :
  Forall wf_issuer issuers ->
  exists blocks rng', buildBlocks issuers rng = Ok (blocks, rng')
  /\ Forall2 built issuers blocks /\ Forall no_offsets blocks.
Proof.
  intros H. revert rng. induction H as [|iss issuers Hi _ IH]; intros rng; simpl.
  { by exists [], rng. }
  destruct (buildBlock_ok iss Hi rng) as (b & rng1 & -> & Hb & H0). go_simp.
  destruct (IH rng1) as (blocks & rng2 & -> & Hbs & H0s). go_simp.
  exists (b :: blocks), rng2. by repeat split; constructor.
Qed.

Lemma Forall2_built_even issuers blocks : Forall2 built issuers blocks -> Forall even_segs blocks.
Proof. intros H. induction H; constructor; [by eapply built_even|done]. Qed.

(** Building, sorting and assigning the offsets always succeed. *)
Lemma blocks_laid_out {R : RandSource} {S : SortFunc block_le} issuers rng :
  Forall wf_issuer issuers ->
  exists blocks rng' issuers' blocks',
    buildBlocks issuers rng = Ok (blocks, rng') /\ issuers' ≡ₚ issuers
    /\ assign_offsets (sort_func blocks) 0 0 0 = Ok (blocks', max_rank blocks')
    /\ laid_out issuers' blocks'.
Proof.
  intros Hi. destruct (buildBlocks_ok issuers rng Hi) as (blocks & rng' & E & Hb & H0).
  pose proof (sort_func_perm blocks) as Hp.
  destruct (Permutation_Forall2 (P := fun b iss => built iss b) (l1 := blocks) (l1' := sort_func blocks) (l2 := issuers))
    as (issuers' & Hpi & Hb'); [by symmetry|by apply Forall2_flip|].
  apply Forall2_flip in Hb'. change (Forall2 built issuers' (sort_func blocks)) in Hb'.
  pose proof (Forall2_built_even _ _ Hb') as He.
  destruct (assign_offsets_ok (sort_func blocks) 0 0 0) as (blocks' & E' & H2 & Hpl).
  { by rewrite Hp. }
  { eapply Forall_impl; [exact He|]. by intros b []. }
  { lia. }
  exists blocks, rng', issuers', blocks'. split; [done|]. split; [by symmetry|]. split.
  - rewrite E'. do 2 f_equal. clear -H2. induction H2 as [|b b' l l' (x & y & ->) H2 IH]; [done|].
    simpl in *. lia.
  - constructor; [|apply (sorted_with_offsets (sort_func blocks)); [done|]|done].
    + clear -Hb' H2. revert blocks' H2. induction Hb' as [|iss b issuers' l Hb Hb' IH]; intros blocks' H2.
      * by inversion H2.
      * inversion H2 as [|? b' ? l' (x & y & ->) H2' E1 E2]; subst. constructor; [by apply built_with_offsets|by apply IH].
    + eapply StronglySorted_mono; [|apply sort_func_sorted]. intros a b [|[? _]]; lia.
Qed.

(** ** Sizes *)
Definition room (iss : Issuer) : Z := 2 * (blen (Revoked iss) + blen (NotRevoked iss)) + 640.
Definition capacity (issuers : list Issuer) : Z := fold_right (fun iss n => room iss + n) 0 issuers.

Lemma room_pos iss : 0 < room iss.
Proof. unfold room, blen. lia. Qed.

Lemma capacity_perm l k : l ≡ₚ k -> capacity l = capacity k.
Proof. intros H. induction H; simpl; lia. Qed.

Lemma capacity_ge iss l : iss ∈ l -> room iss <= capacity l.
Proof.
  assert (forall k, 0 <= capacity k) as H0
    by (intros k; induction k as [|i k IH]; simpl; [lia|]; pose proof (room_pos i); lia).
  induction l as [|i l IH]; [by intros ?%elem_of_nil|]. simpl. specialize (H0 l). pose proof (room_pos i).
  intros [->|Hin]%elem_of_cons; [lia|]. specialize (IH Hin). lia.
Qed.

Lemma built_rooms iss b :
  built iss b -> 0 <= h_room b <= room iss /\ 0 <= g_room b <= room iss.
Proof.
  intros Hb. pose proof (bt_approxM _ _ Hb). pose proof (bt_exactM _ _ Hb).
  pose proof (bt_exactSeg _ _ Hb) as He. pose proof (bt_columns _ _ Hb). pose proof (bt_segs _ _ Hb) as Hs.
  pose proof (room_pos iss). unfold h_room, g_room, seg_len, room in *. split.
  - destruct (Z.ltb_spec 0 (b_rank b)); [|lia].
    destruct (b_approxSegs b) as [|s segs]; [unfold blen in *; simpl in *; lia|].
    inversion Hs as [|? ? [_ _ Hsz] _]; subst. simpl. unfold blen in *. lia.
  - destruct (Z.ltb_spec 0 (b_exactM b)); [|lia].
    destruct (Z.eqb_spec (b_approxM b) 0); [lia|]. destruct He as [_ [_ _ Hsz]]. unfold blen in *. lia.
Qed.

Section Sizes.
Context (issuers : list Issuer) (blocks : list block).
Hypothesis Hbuilt : Forall2 built issuers blocks.

Lemma blocks_count : blen blocks <= capacity issuers.
Proof.
  induction Hbuilt as [|iss b issuers' blocks' Hb Hf IH]; simpl; unfold blen in *; simpl; [lia|].
  pose proof (room_pos iss). unfold room in *. specialize (IH Hf). lia.
Qed.

Lemma built_segs_words i b iss : built iss b -> words (nth i (b_approxSegs b) []).
Proof.
  intros Hb. destruct (le_lt_dec (length (b_approxSegs b)) i).
  - rewrite nth_overflow by done. constructor.
  - pose proof (bt_segs _ _ Hb) as Hs. rewrite List.Forall_forall in Hs. apply (Hs _ (nth_In _ _ l)).
Qed.

(** The columns: 64-bit words, within the capacity. *)
Lemma cat_segs_ok i : 0 <= i -> words (cat_segs i blocks) /\ 64 * blen (cat_segs i blocks) <= capacity issuers.
Proof.
  intros Hi. unfold cat_segs. induction Hbuilt as [|iss b issuers' blocks' Hb Hf IH]; simpl.
  { split; [constructor|unfold blen; simpl; lia]. }
  destruct (IH Hf) as [Hw Hl]. pose proof (room_pos iss).
  destruct (Z.ltb_spec i (b_rank b)); [|simpl; split; [done|lia]].
  destruct (built_rooms _ _ Hb) as [Hr _]. unfold h_room in Hr.
  destruct (Z.ltb_spec 0 (b_rank b)); [|lia]. destruct (built_even _ _ Hb) as [Hn He].
  split; [apply Forall_app; split; [by eapply built_segs_words|done]|].
  rewrite List.Forall_forall in He.
  assert (blen (nth (Z.to_nat i) (b_approxSegs b) []) = seg_len b)
    by (apply He, nth_In; unfold blen in *; lia).
  unfold blen in *. rewrite length_app. lia.
Qed.

Lemma exact_words_ok :
  words (concat (map b_exactSeg blocks)) /\ 64 * blen (concat (map b_exactSeg blocks)) <= capacity issuers.
Proof.
  induction Hbuilt as [|iss b issuers' blocks' Hb Hf IH]; simpl.
  { split; [constructor|unfold blen; simpl; lia]. }
  destruct (IH Hf) as [Hw Hl]. pose proof (room_pos iss).
  destruct (built_rooms _ _ Hb) as [_ Hr]. unfold g_room in Hr. pose proof (bt_exactSeg _ _ Hb) as He.
  destruct (Z.eqb_spec (b_approxM b) 0).
  - destruct He as [_ ->]. simpl. split; [done|lia].
  - destruct He as [Hm [Hsw _ _]]. destruct (Z.ltb_spec 0 (b_exactM b)); [|lia].
    split; [apply Forall_app; by split|]. unfold blen in *. rewrite length_app. lia.
Qed.

(** The offsets stay within the capacity. *)
Lemma offsets_ok h g b :
  placed h g blocks -> 0 <= h -> 0 <= g -> b ∈ blocks ->
  0 <= b_hOffset b <= h + capacity issuers /\ 0 <= b_gOffset b <= g + capacity issuers.
Proof.
  revert h g. induction Hbuilt as [|iss a issuers' blocks' Ha Hf IH]; intros h g Hp Hh Hg Hb; simpl in *.
  { by apply elem_of_nil in Hb. }
  destruct Hp as (H1 & H2 & H3 & H4 & Hp). destruct (built_rooms _ _ Ha) as [Hrh Hrg].
  assert (0 <= capacity issuers').
  { clear. induction issuers' as [|i l IH]; simpl; [lia|]. pose proof (room_pos i). lia. }
  apply elem_of_cons in Hb as [->|Hb].
  - split.
    + destruct (Z.lt_ge_cases 0 (b_rank a)) as [Hc|Hc]; [rewrite (H1 Hc)|rewrite (H3 Hc)]; lia.
    + destruct (Z.lt_ge_cases 0 (b_exactM a)) as [Hc|Hc]; [rewrite (H2 Hc)|rewrite (H4 Hc)]; lia.
  - specialize (IH Hf (h + h_room a) (g + g_room a) Hp ltac:(lia) ltac:(lia) Hb). lia.
Qed.
End Sizes.

Lemma max_rank_ge b blocks : b ∈ blocks -> b_rank b <= max_rank blocks.
Proof.
  intros Hb. induction blocks as [|a l IH]; [by apply elem_of_nil in Hb|]. simpl.
  apply elem_of_cons in Hb as [->|Hb]; [lia|]. specialize (IH Hb). lia.
Qed.

Lemma max_rank_range issuers blocks : Forall2 built issuers blocks -> 0 <= max_rank blocks < 64.
Proof. intros H. induction H as [|iss b l k Hb _ IH]; simpl; [lia|]. pose proof (bt_rank _ _ Hb). lia. Qed.

(** ** The written file is well formed *)
Definition wf_coverages (l : list Coverage) : Prop :=
  blen l < 65536 /\ NoDup (map cov_LogId l)
  /\ Forall (fun c => length (cov_LogId c) = 32%nat /\ is_u64 (MinTimestamp c) /\ is_u64 (MaxTimestamp c)) l.

(** What the format can carry: distinct ids, sizes in range, no overridden bytes. *)
Record encodable (f : Filter) : Prop := {
  en_issuers : Forall wf_issuer (Issuers f);
  en_plain : Forall (fun iss => InvertedByte iss = None /\ RankByte iss = None) (Issuers f);
  en_ids : NoDup (map SpkiHash (Issuers f));
  en_capacity : capacity (Issuers f) < 2 ^ 32;
  en_coverages : wf_coverages (Coverages f)
}.

Lemma wf_coverage_entries l : wf_coverages l -> wf_coverage (map coverage_entry l).
Proof.
  intros (Hl & Hn & HF). split; [unfold blen in *; rewrite length_map; lia|]. split.
  - apply Forall_map. eapply Forall_impl; [exact HF|]. by intros c (? & ? & ?).
  - replace (map coverage_entry l).*1 with (map cov_LogId l); [done|].
    clear. induction l as [|c l IH]; [done|]. simpl. by rewrite IH.
Qed.

Lemma Forall2_elem_l {A B} (P : A -> B -> Prop) l k x :
  Forall2 P l k -> x ∈ l -> exists y, y ∈ k /\ P x y.
Proof.
  intros H Hx. apply list_elem_of_lookup in Hx as [i Hi].
  destruct (Forall2_lookup_l _ _ _ _ _ H Hi) as (y & Hy & HP). exists y. split; [|done].
  by eapply list_elem_of_lookup_2.
Qed.

Lemma Forall2_elem_r {A B} (P : A -> B -> Prop) l k y :
  Forall2 P l k -> y ∈ k -> exists x, x ∈ l /\ P x y.
Proof. intros H%Forall2_flip. exact (Forall2_elem_l _ _ _ _ H). Qed.

Section Laid.
Context (issuers : list Issuer) (blocks : list block) (coverage : list Coverage).
Hypothesis Hlaid : laid_out issuers blocks.
Hypothesis Hiss : Forall wf_issuer issuers.
Hypothesis Hids : NoDup (map SpkiHash issuers).
Hypothesis Hcap : capacity issuers < 2 ^ 32.
Hypothesis Hcov : wf_coverages coverage.
Let w := wire_of coverage blocks (max_rank blocks).

Lemma laid_block b : b ∈ blocks -> exists iss, iss ∈ issuers /\ built iss b.
Proof. apply (Forall2_elem_r _ _ _ _ (lo_built _ _ Hlaid)). Qed.

Lemma block_ids : (map block_entry blocks).*1 = map SpkiHash issuers.
Proof.
  pose proof (lo_built _ _ Hlaid) as Hb. clear -Hb.
  induction Hb as [|iss b l k Hb _ IH]; [done|].
  change (b_id b :: (map block_entry k).*1 = SpkiHash iss :: map SpkiHash l).
  by rewrite (bt_id _ _ Hb), IH.
Qed.

Lemma laid_meta_wf b : b ∈ blocks -> wf_entry wf_wire_meta (block_entry b).
Proof.
  intros Hb. destruct (laid_block b Hb) as (iss & Hin & Hbt).
  rewrite Forall_forall in Hiss. destruct (Hiss _ Hin) as (Hid & _ & HlG & _ & Hn & Hne).
  split; [simpl; by rewrite (bt_id _ _ Hbt)|].
  pose proof (bt_approxM _ _ Hbt). pose proof (bt_exactM _ _ Hbt). pose proof (bt_rank _ _ Hbt).
  pose proof (bt_exceptions_len _ _ Hbt).
  destruct (offsets_ok issuers blocks (lo_built _ _ Hlaid) 0 0 b (lo_placed _ _ Hlaid)) as [Hh Hg]; [lia|lia|done|].
  pose proof (capacity_ge _ _ Hin). unfold room in *.
  constructor; simpl; unfold u32_range, blen in *; try lia.
  rewrite Forall_forall in HlG. apply Forall_forall. intros s Hs%(bt_exceptions _ _ Hbt). specialize (HlG s Hs). unfold blen in *. lia.
Qed.

Lemma columns_len : blen (w_approx_filter w) = max_rank blocks.
Proof.
  pose proof (max_rank_range _ _ (lo_built _ _ Hlaid)).
  unfold w, blen. simpl. rewrite length_map, length_seq. lia.
Qed.

Lemma wire_of_wf : wf_wire w.
Proof.
  pose proof (lo_built _ _ Hlaid) as Hb. pose proof (max_rank_range _ _ Hb) as Hmr.
  split; [by apply wf_coverage_entries|]. split; [split; [|split]|split; [|split; [|split]]].
  - simpl. pose proof (blocks_count _ _ Hb). unfold blen in *. rewrite length_map. lia.
  - apply Forall_forall. intros e He. apply list_elem_of_In, in_map_iff in He as (b & <- & Hin).
    by apply laid_meta_wf, list_elem_of_In.
  - simpl. by rewrite block_ids.
  - rewrite columns_len. lia.
  - apply Forall_forall. intros col Hc. apply list_elem_of_In, in_map_iff in Hc as (i & <- & _).
    destruct (cat_segs_ok _ _ Hb (Z.of_nat i)) as [? ?]; [lia|]. split; [lia|done].
  - destruct (exact_words_ok _ _ Hb). split; [simpl; lia|done].
  - apply Forall_forall. intros e He. apply list_elem_of_In, in_map_iff in He as (b & <- & Hin).
    rewrite columns_len. simpl. by apply max_rank_ge, list_elem_of_In.
Qed.

(** ** The query on the written file *)
Lemma forallb_seq (f g : nat -> bool) n :
  (forall i, (i < n)%nat -> f i = g i) -> forallb f (seq 0 n) = forallb g (seq 0 n).
Proof.
  intros H. apply eq_true_iff_eq. rewrite !forallb_forall.
  split; intros Hf i Hi; specialize (Hf i Hi); apply in_seq in Hi; [rewrite <- H|rewrite H]; lia || done.
Qed.

Lemma map_nth_seq {A} (l : list A) d : map (fun i => nth i l d) (seq 0 (length l)) = l.
Proof.
  induction l as [|x l IH]; [done|]. simpl. f_equal. by rewrite <- seq_shift, map_map.
Qed.

Lemma forallb_map {A B} (f : B -> bool) (g : A -> B) l : forallb f (map g l) = forallb (fun x => f (g x)) l.
Proof. induction l as [|x l IH]; simpl; [done|]. by rewrite IH. Qed.

Lemma approx_query b iss it :
  b ∈ blocks -> built iss b -> b_approxM b <> 0 ->
  forallb (fun col => negb (gf2_dot col (b_hOffset b + limb_of (it_a it) 3 `mod` b_approxM b) (it_a it)))
    (take (Z.to_nat (b_rank b)) (w_approx_filter w))
  = item_passes (b_approxM b) (b_approxSegs b) it.
Proof.
  intros Hb Hbt Hm. unfold item_passes. rewrite <- (map_nth_seq (b_approxSegs b) []) at 1.
  pose proof (bt_columns _ _ Hbt) as Hn. pose proof (max_rank_ge _ _ Hb). pose proof (bt_rank _ _ Hbt).
  pose proof (bt_approxM _ _ Hbt).
  unfold w. cbn [w_approx_filter wire_of]. rewrite firstn_map, take_seq, !forallb_map.
  replace (Z.to_nat (b_rank b) `min` Z.to_nat (max_rank blocks))%nat with (length (b_approxSegs b))
    by (unfold blen in *; lia).
  apply forallb_seq. intros i Hi.
  destruct (column_segment (Z.of_nat i) blocks 0 0 b) as (pre & post & -> & Ho);
    [lia|apply Hlaid|by eapply Forall2_built_even, lo_built|apply Hlaid|done|unfold blen in *; lia|].
  rewrite Ho, Nat2Z.id, Z.add_0_l.
  pose proof (bt_segs _ _ Hbt) as Hs. rewrite List.Forall_forall in Hs.
  destruct (Hs _ (nth_In _ [] Hi)) as [_ Hf _].
  pose proof (Z.mod_pos_bound (limb_of (it_a it) 3) (b_approxM b) ltac:(lia)).
  by rewrite gf2_dot_segment by lia.
Qed.

Lemma exact_query b iss it :
  b ∈ blocks -> built iss b -> b_approxM b <> 0 ->
  (b_exactM b =? 0) || negb (gf2_dot (w_exact_filter w)
     (b_gOffset b + limb_of (it_a it) 3 `mod` b_exactM b) (it_a it))
  = item_passes (b_exactM b) [b_exactSeg b] it.
Proof.
  intros Hb Hbt Hm. pose proof (bt_exactSeg _ _ Hbt) as He.
  destruct (Z.eqb_spec (b_approxM b) 0); [done|]. destruct He as [HeM [_ Hf _]].
  destruct (Z.eqb_spec (b_exactM b) 0); [lia|]. unfold w. cbn [forallb orb item_passes w_exact_filter wire_of]. rewrite andb_true_r. f_equal.
  pose proof (lo_built _ _ Hlaid) as HF.
  destruct (exact_segment blocks 0 0 b) as (pre & post & -> & Ho); [..|apply Hlaid|done|done|].
  - apply Forall_forall. intros c Hc. destruct (laid_block c Hc) as (ic & _ & Hbc). intros H0.
    pose proof (bt_exactSeg _ _ Hbc) as He. destruct (b_approxM c =? 0); [apply He|lia].
  - apply Forall_forall. intros c Hc. destruct (laid_block c Hc) as (ic & _ & Hbc).
    pose proof (bt_exactM _ _ Hbc). lia.
  - rewrite Ho, Z.add_0_l.
    pose proof (Z.mod_pos_bound (limb_of (it_a it) 3) (b_exactM b) ltac:(lia)).
    by rewrite gf2_dot_segment by lia.
Qed.
End Laid.

(** ** The answers *)

(** What the parser returns for the written file. *)
Definition built_filter (coverage : list Coverage) (blocks : list block) : RevocationFilter :=
  clubcard_of (wire_of coverage blocks (max_rank blocks)).

Section Answers.
Context (issuers : list Issuer) (blocks : list block) (coverage : list Coverage).
Hypothesis Hlaid : laid_out issuers blocks.
Hypothesis Hids : NoDup (map SpkiHash issuers).

(** The index entry of an enrolled issuer. *)
Lemma block_lookup b :
  b ∈ blocks ->
  Blocks (rf_filter (built_filter coverage blocks)) !! b_id b = Some (meta_of (block_meta b)).
Proof.
  intros Hb. change (entries meta_of (map block_entry blocks) !! b_id b = Some (meta_of (block_meta b))).
  apply entries_Some; [by rewrite (block_ids issuers)|].
  exists (block_meta b). split; [|done].
  apply list_elem_of_In, in_map_iff. exists b. by split; [|apply list_elem_of_In].
Qed.

Lemma block_lookup_None id :
  id ∉ map SpkiHash issuers -> Blocks (rf_filter (built_filter coverage blocks)) !! id = None.
Proof.
  intros Hn. change (entries meta_of (map block_entry blocks) !! id = None).
  apply entries_None. by rewrite (block_ids issuers).
Qed.

(** The query of the written filter is the block's own. *)
Lemma query_block b iss serial :
  b ∈ blocks -> built iss b ->
  query_spec (rf_filter (built_filter coverage blocks)) (meta_of (block_meta b))
    (sha256_Sum256 (SpkiHash iss ++ serial)) serial
  = xorb (b_inverted b) (block_member b (item_of (SpkiHash iss) serial)).
Proof.
  intros Hb Hbt. unfold query_spec, block_member. cbn [HModulus Inverted Exceptions meta_of block_meta
    wm_approx_filter_m wm_inverted wm_exceptions]. f_equal.
  destruct (Z.eqb_spec (b_approxM b) 0) as [|Hm]; [done|]. rewrite !andb_true_l. f_equal; [f_equal|].
  - apply (approx_query issuers blocks coverage Hlaid b iss (item_of (SpkiHash iss) serial)); done.
  - apply (exact_query issuers blocks coverage Hlaid b iss (item_of (SpkiHash iss) serial)); done.
  - apply bool_decide_ext. by rewrite elem_of_list_to_set.
Qed.

(** Blocks without overridden bytes can be written. *)
Lemma built_plain :
  Forall wf_issuer issuers ->
  Forall (fun iss => InvertedByte iss = None /\ RankByte iss = None) issuers -> Forall plain blocks.
Proof.
  intros Hw Hn. apply Forall_forall. intros b Hb.
  destruct (Forall2_elem_r _ _ _ _ (lo_built _ _ Hlaid) Hb) as (iss & Hin & Hbt).
  rewrite Forall_forall in Hw, Hn. destruct (Hn _ Hin) as [Hi Hr]. destruct (bt_bytes _ _ Hbt) as [Ei Er].
  split; [congruence|]. split; [congruence|]. apply Forall_forall. intros s Hs%(bt_exceptions _ _ Hbt).
  destruct (Hw _ Hin) as (_ & _ & HlG & _). rewrite Forall_forall in HlG. specialize (HlG s Hs). lia.
Qed.

(** What [Contains] concludes about a covered certificate of an enrolled issuer. *)
Lemma conclusive_built iss serial :
  iss ∈ issuers ->
  conclusive (built_filter coverage blocks) (NewKey (SpkiHash iss) serial)
  = if decide (serial ∈ Revoked iss) then StatusRevoked
    else if decide (serial ∈ NotRevoked iss) then StatusGood
    else conclusive (built_filter coverage blocks) (NewKey (SpkiHash iss) serial).
Proof.
  intros Hin. destruct (Forall2_elem_l _ _ _ _ (lo_built _ _ Hlaid) Hin) as (b & Hb & Hbt).
  unfold conclusive. cbn [Crlite.Issuer Serial IssuerSerialHash NewKey].
  rewrite <- (bt_id _ _ Hbt), block_lookup, (bt_id _ _ Hbt), (query_block b iss) by done.
  destruct (decide (serial ∈ Revoked iss)) as [H|_]; [by rewrite (bt_revoked _ _ Hbt)|].
  destruct (decide (serial ∈ NotRevoked iss)) as [H|_]; [by rewrite (bt_notRevoked _ _ Hbt)|done].
Qed.
End Answers.

(** ** Properties *)

(** The description covers the pair. *)
Definition covered (f : Filter) (t : LogTimestamp) : Prop :=
  exists c, c ∈ Coverages f /\ cov_LogId c = lt_LogId t
            /\ MinTimestamp c <= lt_Timestamp t <= MaxTimestamp c.

Lemma covers_built coverage blocks t :
  NoDup (map cov_LogId coverage) ->
  covers (built_filter coverage blocks) t
  <-> exists c, c ∈ coverage /\ cov_LogId c = lt_LogId t
                /\ MinTimestamp c <= lt_Timestamp t <= MaxTimestamp c.
Proof.
  intros Hn. assert (NoDup (map coverage_entry coverage).*1) as Hn'.
  { replace (map coverage_entry coverage).*1 with (map cov_LogId coverage); [done|].
    clear. induction coverage as [|c l IH]; [done|]. simpl. by rewrite IH. }
  unfold covers. change (rf_coverage (built_filter coverage blocks)) with (entries id (map coverage_entry coverage)).
  setoid_rewrite (entries_Some id (map coverage_entry coverage) _ _ Hn'). split.
  - intros (iv & (iv' & Hin & ->) & Hr). apply list_elem_of_In, in_map_iff in Hin as (c & [= E <-] & Hc).
    exists c. split; [by apply list_elem_of_In|]. by split.
  - intros (c & Hc & E & Hr). exists (mkInterval (MinTimestamp c) (MaxTimestamp c)). split; [|done].
    eexists. split; [|done]. apply list_elem_of_In, in_map_iff. exists c. unfold coverage_entry. rewrite E.
    by split; [|apply list_elem_of_In].
Qed.

Lemma Contains_covered c (P : LogTimestamp -> Prop) key ts :
  wf_filter (rf_filter c) -> (forall t, covers c t <-> P t) ->
  (~ Exists P ts -> RevocationFilter_Contains c key ts = Ok StatusNotCovered)
  /\ (Exists P ts -> RevocationFilter_Contains c key ts = Ok (conclusive c key)).
Proof.
  intros Hf Hc. rewrite RevocationFilter_Contains_eq by done. unfold contains_spec.
  assert (Exists (covers c) ts <-> Exists P ts) as He by (rewrite !Exists_exists; naive_solver).
  split; intros H; [by rewrite decide_False by (by rewrite He)|by rewrite decide_True by (by rewrite He)].
Qed.

(** What is built, parsed: it covers what the description covers and its blocks answer
    for the serials enrolled. *)
Record answers_for (f : Filter) (c : RevocationFilter) : Prop := {
  af_wf : wf_filter (rf_filter c);
  af_covers t : covers c t <-> covered f t;
  af_other id serial : id ∉ map SpkiHash (Issuers f) ->
    conclusive c (NewKey id serial) = StatusNotEnrolled;
  af_revoked iss serial : iss ∈ Issuers f -> serial ∈ Revoked iss ->
    conclusive c (NewKey (SpkiHash iss) serial) = StatusRevoked;
  af_notRevoked iss serial : iss ∈ Issuers f -> serial ∈ NotRevoked iss ->
    conclusive c (NewKey (SpkiHash iss) serial) = StatusGood
}.

Lemma built_answers_for f issuers blocks :
  encodable f -> issuers ≡ₚ Issuers f -> laid_out issuers blocks ->
  wf_filter (rf_filter (built_filter (Coverages f) blocks)) ->
  answers_for f (built_filter (Coverages f) blocks).
Proof.
  intros [Hi _ Hids _ Hcov] Hp Hlaid Hf.
  assert (NoDup (map SpkiHash issuers)) as Hids' by by rewrite Hp.
  assert (forall iss serial, iss ∈ Issuers f ->
    conclusive (built_filter (Coverages f) blocks) (NewKey (SpkiHash iss) serial)
    = if decide (serial ∈ Revoked iss) then StatusRevoked
      else if decide (serial ∈ NotRevoked iss) then StatusGood
      else conclusive (built_filter (Coverages f) blocks) (NewKey (SpkiHash iss) serial)) as Hc.
  { intros iss serial Hin. rewrite <- Hp in Hin.
    by apply (conclusive_built issuers blocks (Coverages f) Hlaid Hids' iss serial). }
  constructor.
  - done.
  - intros t. apply covers_built, Hcov.
  - intros id serial Hn. unfold conclusive.
    by rewrite (block_lookup_None issuers) by (rewrite ?Hp; done).
  - intros iss serial Hin Hs. by rewrite Hc, decide_True.
  - intros iss serial Hin Hs. rewrite Forall_forall in Hi. destruct (Hi _ Hin) as (_ & _ & _ & Hd & _).
    rewrite Hc, decide_False by (done || intros Hr; by apply (Hd serial)). by rewrite decide_True.
Qed.

Lemma Filter_Bytes_ok {C : Cryptobyte} {L : CryptobyteLaws C} {M : MapRange} {B : Builder}
    {BL : BuilderLaws B} {R : RandSource} {S : SortFunc block_le} (f : Filter) (rng : rand_state) :
  encodable f ->
  exists data c, Filter_Bytes f rng = Ok data /\ FromBytes data = Ok c /\ answers_for f c.
Proof.
  intros Hen. pose proof Hen as [Hi Hpl Hids Hcap Hcov].
  destruct (blocks_laid_out (Issuers f) rng Hi) as (blocks & rng' & issuers & blocks' & E & Hp & Ea & Hlaid).
  assert (wf_wire (wire_of (Coverages f) blocks' (max_rank blocks'))) as Hwf.
  { apply (wire_of_wf issuers); [done|by rewrite Hp|by rewrite Hp|by rewrite (capacity_perm _ _ Hp)|done]. }
  eexists _, (built_filter (Coverages f) blocks'). split; [|split].
  - unfold Filter_Bytes. rewrite E. go_simp. rewrite Ea. go_simp. apply serialize_ok.
    + by apply (built_plain issuers blocks' Hlaid); rewrite Hp.
    + eapply Forall_impl; [eapply Forall2_built_even, lo_built, Hlaid|]. by intros b [].
    + apply (max_rank_range issuers). apply Hlaid.
  - by apply FromBytes_Ok; eexists.
  - apply (built_answers_for f issuers); [done|done|done|]. apply wf_filter_of, Hwf.
Qed.

(** C8. End to end over one filter: for every description the format can carry and
    whatever the free variables of the ribbons are, [Filter.Bytes] succeeds, the
    parser accepts what it wrote, the parsed filter covers exactly the pairs of the
    description, and for covered certificates [Contains] answers NotEnrolled for
    every other issuer, Revoked for every serial enrolled as revoked and Good for
    every serial enrolled as not revoked; no property of the hash is assumed. *)
Theorem Bytes_answers {C : Cryptobyte} {L : CryptobyteLaws C} {M : MapRange} {B : Builder}
    {BL : BuilderLaws B} {R : RandSource} {S : SortFunc block_le} (f : Filter) (rng : rand_state) :
  encodable f ->
  exists data c, Filter_Bytes f rng = Ok data /\ FromBytes data = Ok c
  /\ (forall key ts, ~ Exists (covered f) ts ->
        RevocationFilter_Contains c key ts = Ok StatusNotCovered)
  /\ forall ts, Exists (covered f) ts ->
       (forall id serial, id ∉ map SpkiHash (Issuers f) ->
          RevocationFilter_Contains c (NewKey id serial) ts = Ok StatusNotEnrolled)
       /\ forall iss serial, iss ∈ Issuers f ->
            (serial ∈ Revoked iss ->
               RevocationFilter_Contains c (NewKey (SpkiHash iss) serial) ts = Ok StatusRevoked)
            /\ (serial ∈ NotRevoked iss ->
               RevocationFilter_Contains c (NewKey (SpkiHash iss) serial) ts = Ok StatusGood).
Proof.
  intros Hen. destruct (Filter_Bytes_ok f rng Hen) as (data & c & E & Ep & [Hf Hc Ho Hr Hg]).
  exists data, c. split; [done|]. split; [done|].
  split; [intros key ts; by apply (Contains_covered _ (covered f))|].
  intros ts He.
  assert (forall key, RevocationFilter_Contains c key ts = Ok (conclusive c key)) as Hans
    by (intros key; by apply (Contains_covered _ (covered f))).
  split; [|intros iss serial Hin; split; intros Hs]; intros; rewrite Hans; f_equal; auto.
Qed.

(** ** Witnesses *)
Definition sample_spki : bytes := replicate 32 Init.Byte.x0b.
Definition sample_log : bytes := replicate 32 Init.Byte.x0a.

(** One issuer with a rank-1 approximate filter, one without revocations. *)
Definition sample_filter : Filter :=
  mkFilter
    [mkIssuer sample_spki [[Init.Byte.x01]] [[Init.Byte.x02]; [Init.Byte.x03]; [Init.Byte.x04]] None None;
     mkIssuer (replicate 32 Init.Byte.x0c) [] [[Init.Byte.x01]] None None]
    [mkCoverage sample_log 100 200].

Lemma sample_filter_encodable : encodable sample_filter.
Proof.
  assert (forall id r n, length id = 32%nat -> Forall (fun s => length s = 1%nat) (r ++ n) ->
            bool_decide (Forall (fun s => s ∉ n) r) = true -> (length (r ++ n) < 100)%nat -> wf_issuer (mkIssuer id r n None None)) as H.
  { intros id r n Hid [Hr Hn]%Forall_app Hd%bool_decide_eq_true Hl. rewrite Forall_forall in Hd. rewrite length_app in Hl.
    split; [done|]. split; [eapply Forall_impl; [exact Hr|]; intros s E; simpl in E; unfold blen; lia|].
    split; [eapply Forall_impl; [exact Hn|]; intros s E; simpl in E; unfold blen; lia|].
    split; [done|]. simpl. unfold blen. lia. }
  constructor.
  - apply List.Forall_cons; [apply H; [done|by repeat constructor|by vm_compute|simpl; lia]|].
    apply List.Forall_cons; [apply H; [done|by repeat constructor|by vm_compute|simpl; lia]|]. constructor.
  - by repeat constructor.
  - apply NoDup_cons. split; [|apply NoDup_singleton]. by intros E%list_elem_of_singleton.
  - by vm_compute.
  - split; [by vm_compute|]. split; [apply NoDup_singleton|].
    apply List.Forall_cons; [split; [done|by vm_compute]|]. constructor.
Qed.

Lemma sample_covered : Exists (covered sample_filter) [mkLogTimestamp sample_log 150].
Proof.
  apply List.Exists_cons_hd. exists (mkCoverage sample_log 100 200). split; [by left|]. by split.
Qed.

Lemma sample_enrolled :
  exists iss, iss ∈ Issuers sample_filter /\ SpkiHash iss = sample_spki /\ [Init.Byte.x01] ∈ Revoked iss.
Proof.
  exists (mkIssuer sample_spki [[Init.Byte.x01]] [[Init.Byte.x02]; [Init.Byte.x03]; [Init.Byte.x04]] None None).
  split; [by left|]. split; [done|by left].
Qed.

Lemma Bytes_answers_witness :
  exists data c, Filter_Bytes (R := pcg) sample_filter (NewPCG 0 0) = Ok data /\ FromBytes data = Ok c
  /\ RevocationFilter_Contains c (NewKey sample_spki [Init.Byte.x01]) [mkLogTimestamp sample_log 150]
     = Ok StatusRevoked.
Proof.
  destruct sample_enrolled as (iss & Hin & <- & Hr).
  destruct (Bytes_answers (R := pcg) sample_filter (NewPCG 0 0) sample_filter_encodable)
    as (data & c & E & Ep & _ & Hc).
  exists data, c. split; [exact E|]. split; [exact Ep|].
  exact (proj1 (proj2 (Hc _ sample_covered) iss _ Hin) Hr).
Defined.
