(* ===== verification/IndexEncode.v ===== *)
(** * Building revocation indexes ([internal/test/index_encode.go])

    [Index.Bytes], which the tests build their [index.bin] files with, and the round
    trip: the reader of [internal/upki_index.go] opens what it writes, and [Lookup]
    returns the filters whose description covers the pair, in filter order. *)
From S2P Require Import Prelude Codec GoIO UpkiIndex Cryptobyte ClubcardEncode.

(** ** Data *)
Record IndexFilter := mkIndexFilter { Filename : bytes; if_Coverage : list Coverage }.
Record Index := mkTestIndex { Filters : list IndexFilter }.
Record entry := mkEntry { e_filterIdx : Z; e_min : Z; e_max : Z }.

Definition u16 (z : Z) : Z := z `mod` 2 ^ 16.

(** ** Operations *)

(** A Go map of slices reads as an empty slice where it has no entry. *)
Definition log_entries (byLog : gmap bytes (list entry)) (id : bytes) : list entry :=
  default [] (byLog !! id).

(** [byLog[c.LogId] = append(byLog[c.LogId], entry{uint16(i), c.MinTimestamp, c.MaxTimestamp})] *)
Definition append_entry (i : Z) (byLog : gmap bytes (list entry)) (c : Coverage)
    : gmap bytes (list entry) :=
  <[cov_LogId c := log_entries byLog (cov_LogId c)
                   ++ [mkEntry (u16 i) (MinTimestamp c) (MaxTimestamp c)]]> byLog.

Fixpoint group_by_log (i : Z) (filters : list IndexFilter) (byLog : gmap bytes (list entry))
    : result (gmap bytes (list entry)) :=
  match filters with
  | [] => Ok byLog
  | f :: filters =>
      if filenameSize <? blen (Filename f) then Panic else
      group_by_log (i + 1) filters (fold_left (append_entry i) (if_Coverage f) byLog)
  end.

(** A zeroed slot with the name copied over its beginning. *)
Definition name_slot (name : bytes) : bytes :=
  take 32 name ++ replicate (32 - length name) Init.Byte.x00.

Section Write.
Context {B : Builder} {M : MapRange} {S : SortFunc bytes_le}.

Definition add_dir_entry (byLog : gmap bytes (list entry)) (st : bytes * Z) (id : bytes) : bytes * Z :=
  let '(out, offset) := st in
  let out := AddBytes out id in
  let out := AddUint64 out (u64 offset) in
  let out := AddUint16 out (blen (log_entries byLog id)) in
  (out, offset + entrySize * blen (log_entries byLog id)).

Definition add_entry (out : bytes) (e : entry) : bytes :=
  AddUint64 (AddUint64 (AddUint16 out (e_filterIdx e)) (e_min e)) (e_max e).

Definition Index_Bytes (idx : Index) : result bytes :=
  if 65535 <? blen (Filters idx) then Panic else
  byLog ← group_by_log 0 (Filters idx) ∅;
  let logIds := sort_func (map_range byLog).*1 in
  let out := AddBytes [] (go_string "upkiidx1") in
  let out := AddUint16 out (blen (Filters idx)) in
  let out := AddUint32 out (blen logIds) in
  let out := fold_left (fun out f => AddBytes out (name_slot (Filename f))) (Filters idx) out in
  let offset := headerSize + filenameSize * blen (Filters idx) + logDirEntrySize * blen logIds in
  let '(out, _) := fold_left (add_dir_entry byLog) logIds (out, offset) in
  Ok (fold_left (fun out id => fold_left add_entry (log_entries byLog id) out) logIds out).
End Write.

(** ** The file as a value *)
Definition enc_entry (e : entry) : bytes :=
  be_encode 2 (e_filterIdx e) ++ be_encode 8 (e_min e) ++ be_encode 8 (e_max e).

(** The directory rows of the sections, the first one's entries at [off]. *)
Fixpoint dir_rows (off : Z) (secs : list (bytes * list entry)) : list bytes :=
  match secs with
  | [] => []
  | (id, es) :: secs =>
      (id ++ be_encode 8 off ++ be_encode 2 (blen es)) :: dir_rows (off + entrySize * blen es) secs
  end.

Definition enc_index_file (names : list bytes) (secs : list (bytes * list entry)) : bytes :=
  indexMagic ++ be_encode 2 (blen names) ++ be_encode 4 (blen secs)
  ++ encode_all name_slot names
  ++ concat (dir_rows (headerSize + filenameSize * blen names + logDirEntrySize * blen secs) secs)
  ++ encode_all (fun s => encode_all enc_entry s.2) secs.

(** ** Slices of concatenations *)
Lemma sub_app_r {A} (a b : list A) k n : 0 <= k -> sub (a ++ b) (blen a + k) n = sub b k n.
Proof.
  intros Hk. unfold sub, blen. rewrite drop_app_ge by lia. do 2 f_equal. lia.
Qed.

Lemma sub_prefix {A} (a b : list A) n : n = blen a -> sub (a ++ b) 0 n = a.
Proof. intros ->. unfold sub, blen. rewrite Nat2Z.id. change (Z.to_nat 0) with 0%nat. by rewrite drop_0, take_app_length. Qed.

(** Chunk [i] of a concatenation, at the length of what is before it. *)
Lemma sub_concat {A} (l : list (list A)) i x :
  l !! i = Some x -> sub (concat l) (blen (concat (take i l))) (blen x) = x.
Proof.
  revert i. induction l as [|y l IH]; intros [|i] Hi; simpl in Hi |- *; try done.
  - injection Hi as ->. by apply sub_prefix.
  - rewrite blen_app, sub_app_r by (unfold blen; lia). by apply IH.
Qed.

(** Chunks of one size. *)
Lemma blen_concat_chunks {A} (l : list (list A)) n :
  Forall (fun x => blen x = n) l -> blen (concat l) = n * blen l.
Proof.
  intros H. induction H as [|x l Hx _ IH]; [unfold blen; simpl; lia|].
  simpl. rewrite blen_app, blen_cons. lia.
Qed.

Lemma sub_chunk {A} (l : list (list A)) n i x :
  Forall (fun x => blen x = n) l -> l !! i = Some x -> sub (concat l) (Z.of_nat i * n) n = x.
Proof.
  intros HF Hi. pose proof (lookup_lt_Some _ _ _ Hi) as Hlt.
  rewrite Forall_lookup in HF. pose proof (HF _ _ Hi) as Hx.
  replace (Z.of_nat i * n) with (blen (concat (take i l))).
  - rewrite <- Hx. by apply sub_concat.
  - rewrite (blen_concat_chunks _ n); [unfold blen; rewrite length_take; lia|].
    apply Forall_take. by rewrite Forall_lookup.
Qed.

(** ** Reading the file's tables *)
Lemma StronglySorted_lookup_lt {A} (P : A -> A -> Prop) l i j x y :
  StronglySorted P l -> l !! i = Some x -> l !! j = Some y -> (i < j)%nat -> P x y.
Proof.
  intros Hs. revert i j. induction Hs as [|a l Hs IH Ha]; intros [|i] [|j] Hi Hj Hij; simpl in Hi, Hj; try done; try lia.
  - injection Hi as ->. rewrite List.Forall_forall in Ha.
    by apply Ha, list_elem_of_In, (list_elem_of_lookup_2 _ j).
  - apply (IH i j); [done|done|lia].
Qed.

Lemma blen_encode_all {X} (enc : X -> bytes) n l :
  Forall (fun x => blen (enc x) = n) l -> blen (encode_all enc l) = n * blen l.
Proof.
  intros H. unfold encode_all. rewrite (blen_concat_chunks _ n).
  - unfold blen. by rewrite length_map.
  - by apply Forall_map.
Qed.

Lemma blen_be_encode n z : blen (be_encode n z) = Z.of_nat n.
Proof. unfold blen. by rewrite length_be_encode. Qed.

Lemma blen_name_slot name : blen name <= 32 -> blen (name_slot name) = 32.
Proof.
  intros H. unfold name_slot. unfold blen in *. rewrite length_app, length_take, length_replicate. lia.
Qed.

Lemma cstr_name_slot name : valid_filename name -> cstr (name_slot name) = name.
Proof.
  intros (Hl & _ & _ & HF). unfold name_slot. rewrite take_ge by (unfold blen in *; lia).
  revert HF. generalize (32 - length name)%nat. clear. intros n HF.
  induction HF as [|c name Hc _ IH]; simpl.
  - by destruct n.
  - destruct (Z.eqb_spec (byte_val c) 0) as [E|]; [|by rewrite IH].
    unfold filename_byte_ok in Hc. rewrite E in Hc. done.
Qed.

(** Entries whose sections precede section [i]. *)
Definition entries_before (secs : list (bytes * list entry)) (i : nat) : Z :=
  blen (concat (take i secs).*2).

Lemma entries_before_S secs i id es :
  secs !! i = Some (id, es) -> entries_before secs (S i) = entries_before secs i + blen es.
Proof.
  intros Hi. unfold entries_before. rewrite (take_S_r _ _ _ Hi), fmap_app, concat_app, blen_app.
  simpl. by rewrite app_nil_r.
Qed.

Lemma entries_before_mono secs i j : (i <= j)%nat -> entries_before secs i <= entries_before secs j.
Proof.
  intros H. unfold entries_before. replace j with (i + (j - i))%nat by lia.
  rewrite <- (take_take_drop secs i (j - i)),  fmap_app, concat_app, blen_app. unfold blen. lia.
Qed.

(** The rows of the directory. *)
Lemma dir_rows_lookup off secs i id es :
  secs !! i = Some (id, es) ->
  dir_rows off secs !! i
  = Some (id ++ be_encode 8 (off + entrySize * entries_before secs i) ++ be_encode 2 (blen es)).
Proof.
  revert off i. induction secs as [|[id0 es0] secs IH]; intros off [|i] Hi; simpl in Hi |- *; try done.
  - injection Hi as -> ->. unfold entries_before. simpl. unfold blen at 1. simpl. by rewrite Z.mul_0_r, Z.add_0_r.
  - rewrite (IH _ _ Hi). unfold entries_before. cbn [take fmap list_fmap concat snd].
    rewrite blen_app. unfold entrySize.
    by rewrite Z.mul_add_distr_l, Z.add_assoc.
Qed.

Lemma blen_dir_rows off secs : blen (dir_rows off secs) = blen secs.
Proof.
  revert off. induction secs as [|[id es] secs IH]; intros off; [done|]. simpl. by rewrite !blen_cons, IH.
Qed.

Lemma dir_rows_sizes off secs :
  Forall (fun s => length s.1 = 32%nat) secs -> Forall (fun r => blen r = logDirEntrySize) (dir_rows off secs).
Proof.
  intros H. revert off. induction H as [|[id es] secs Hid _ IH]; intros off; [constructor|].
  cbn [dir_rows]. constructor; [|apply IH].
  rewrite !blen_app, !blen_be_encode. simpl in Hid. unfold blen, logDirEntrySize. lia.
Qed.

Lemma sub_mid {A} (pre x post : list A) lo n :
  lo = blen pre -> n = blen x -> sub (pre ++ x ++ post) lo n = x.
Proof.
  intros -> ->. rewrite <- (Z.add_0_r (blen pre)), sub_app_r by lia. by apply sub_prefix.
Qed.

Definition wf_entry_of (names : list bytes) (e : entry) : Prop :=
  0 <= e_filterIdx e < blen names /\ is_u64 (e_min e) /\ is_u64 (e_max e).

(** What [Bytes] can write: valid names, distinct sorted log ids, counts in range. *)
Record wf_sections (names : list bytes) (secs : list (bytes * list entry)) : Prop := {
  ws_names : Forall valid_filename names;
  ws_names_len : blen names <= 65535;
  ws_ids : Forall (fun s => length s.1 = 32%nat) secs;
  ws_sorted : StronglySorted (fun a b => bytes_Compare a.1 b.1 = Lt) secs;
  ws_len : blen secs < 2 ^ 32;
  ws_counts : Forall (fun s => blen s.2 <= 65535) secs;
  ws_entries : Forall (fun s => Forall (wf_entry_of names) s.2) secs
}.

Section File.
Context (names : list bytes) (secs : list (bytes * list entry)).
Hypothesis Hwf : wf_sections names secs.
Let content := enc_index_file names secs.
Let start := headerSize + filenameSize * blen names + logDirEntrySize * blen secs.
Let slots := encode_all name_slot names.
Let rows := concat (dir_rows start secs).
Let entries := encode_all (fun s => encode_all enc_entry s.2) secs.

Lemma blen_slots : blen slots = filenameSize * blen names.
Proof.
  apply (blen_encode_all _ 32). eapply Forall_impl; [apply Hwf|].
  intros name (Hl & _). apply blen_name_slot. lia.
Qed.

Lemma blen_rows : blen rows = logDirEntrySize * blen secs.
Proof.
  unfold rows. rewrite (blen_concat_chunks _ logDirEntrySize), blen_dir_rows; [done|].
  apply dir_rows_sizes, Hwf.
Qed.

Lemma file_magic : sub content 0 8 = indexMagic.
Proof. by apply sub_prefix. Qed.

Lemma file_num_filenames : num_filenames content = blen names.
Proof.
  unfold num_filenames, content, enc_index_file. rewrite (sub_mid indexMagic) by done.
  apply be_decode_encode_small. pose proof (ws_names_len _ _ Hwf). unfold blen in *. lia.
Qed.

Lemma file_num_logs : num_logs content = blen secs.
Proof.
  unfold num_logs, content, enc_index_file. rewrite (app_assoc indexMagic).
  rewrite (sub_mid (indexMagic ++ be_encode 2 (blen names))).
  - apply be_decode_encode_small. pose proof (ws_len _ _ Hwf). unfold blen in *. lia.
  - rewrite blen_app, blen_be_encode. done.
  - by rewrite blen_be_encode.
Qed.

Definition file_head : bytes := indexMagic ++ be_encode 2 (blen names) ++ be_encode 4 (blen secs).

Lemma blen_file_head : blen file_head = headerSize.
Proof. unfold file_head. by rewrite !blen_app, !blen_be_encode. Qed.

Lemma file_split : content = file_head ++ slots ++ rows ++ entries.
Proof. unfold content, enc_index_file, file_head. by rewrite <- !app_assoc. Qed.

Lemma file_names_table : names_table content = slots.
Proof.
  unfold names_table. rewrite file_num_filenames, file_split.
  apply sub_mid; [by rewrite blen_file_head|]. rewrite blen_slots. lia.
Qed.

Lemma file_directory : directory content = rows.
Proof.
  unfold directory. rewrite file_num_filenames, file_num_logs, file_split, (app_assoc file_head).
  apply sub_mid; [rewrite blen_app, blen_file_head, blen_slots; lia|]. rewrite blen_rows. lia.
Qed.

Lemma blen_entries_upto i :
  blen (encode_all (fun s => encode_all enc_entry s.2) (take i secs)) = entrySize * entries_before secs i.
Proof.
  unfold entries_before. generalize (take i secs) as l. intros l.
  induction l as [|[id es] l IH]; [done|].
  change (encode_all _ ((id, es) :: l)) with (encode_all enc_entry es ++ encode_all (fun s : bytes * list entry => encode_all enc_entry s.2) l).
  cbn [fmap list_fmap concat snd]. rewrite !blen_app, IH.
  rewrite (blen_encode_all enc_entry entrySize); [lia|]. apply Forall_forall. intros e _.
  unfold enc_entry. by rewrite !blen_app, !blen_be_encode.
Qed.

Lemma file_size : blen content = start + entrySize * entries_before secs (length secs).
Proof.
  rewrite file_split, !blen_app, blen_file_head, blen_slots, blen_rows.
  unfold entries. rewrite <- (blen_entries_upto (length secs)), firstn_all. unfold start. lia.
Qed.

(** The section of log [i]. *)
Lemma file_section i id es :
  secs !! i = Some (id, es) ->
  sub content (start + entrySize * entries_before secs i) (blen es * entrySize) = encode_all enc_entry es.
Proof.
  intros Hi. rewrite file_split, !app_assoc.
  replace start with (blen ((file_head ++ slots) ++ rows))
    by (rewrite !blen_app, blen_file_head, blen_slots, blen_rows; unfold start; lia).
  rewrite sub_app_r by (unfold entries_before, entrySize, blen; lia).
  unfold entries. rewrite <- blen_entries_upto.
  set (enc := fun s : bytes * list entry => encode_all enc_entry s.2).
  change (encode_all enc (take i secs)) with (concat (map enc (take i secs))). rewrite <- firstn_map.
  change (encode_all enc secs) with (concat (map enc secs)).
  replace (blen es * entrySize) with (blen (encode_all enc_entry es)).
  - apply sub_concat. by rewrite list_lookup_fmap, Hi.
  - rewrite (blen_encode_all enc_entry entrySize); [lia|]. apply Forall_forall. intros e _.
    unfold enc_entry. by rewrite !blen_app, !blen_be_encode.
Qed.

(** The directory entries. *)
Lemma rows_sub i id es a n :
  secs !! i = Some (id, es) -> 0 <= a -> 0 <= n -> a + n <= logDirEntrySize ->
  sub rows (Z.of_nat i * logDirEntrySize + a) n
  = sub (id ++ be_encode 8 (start + entrySize * entries_before secs i) ++ be_encode 2 (blen es)) a n.
Proof.
  intros Hi Ha Hn Han. pose proof (dir_rows_lookup start secs i id es Hi) as Hr.
  apply (sub_chunk _ logDirEntrySize) in Hr; [|by apply dir_rows_sizes, Hwf].
  rewrite <- Hr, sub_sub by (unfold logDirEntrySize in *; lia). done.
Qed.

Lemma entries_before_bound i : 0 <= entries_before secs i <= 65535 * 2 ^ 32.
Proof.
  split; [unfold entries_before, blen; lia|].
  assert (entries_before secs i <= 65535 * blen (take i secs)).
  { unfold entries_before. pose proof (Forall_take _ i _ (ws_counts _ _ Hwf)) as H. revert H.
    generalize (take i secs) as l. induction l as [|[id es] l IH]; [done|].
    intros [H1 H2]%Forall_cons. specialize (IH H2).
    cbn [fmap list_fmap concat snd] in *. rewrite blen_app, blen_cons. lia. }
  pose proof (ws_len _ _ Hwf). unfold blen in *. rewrite length_take in *. lia.
Qed.

Lemma start_bound : 0 <= start < 2 ^ 40.
Proof.
  pose proof (ws_names_len _ _ Hwf). pose proof (ws_len _ _ Hwf).
  unfold start, headerSize, filenameSize, logDirEntrySize, blen in *. lia.
Qed.

Lemma file_dir i id es :
  secs !! i = Some (id, es) ->
  dir_id rows (Z.of_nat i) = id
  /\ dir_offset rows (Z.of_nat i) = start + entrySize * entries_before secs i
  /\ dir_count rows (Z.of_nat i) = blen es.
Proof.
  intros Hi. pose proof (ws_ids _ _ Hwf) as Hids. rewrite Forall_lookup in Hids.
  pose proof (Hids _ _ Hi) as Hid. simpl in Hid.
  pose proof (ws_counts _ _ Hwf) as Hcs. rewrite Forall_lookup in Hcs.
  pose proof (Hcs _ _ Hi) as Hc. simpl in Hc.
  pose proof (entries_before_bound i). pose proof start_bound.
  split; [|split].
  - unfold dir_id. rewrite <- (Z.add_0_r (_ * _)), (rows_sub i id es) by (done || unfold logDirEntrySize; lia).
    apply sub_prefix. unfold blen. lia.
  - unfold dir_offset. rewrite (rows_sub i id es) by (done || unfold logDirEntrySize; lia).
    rewrite sub_mid by first [by rewrite blen_be_encode|unfold blen; lia].
    rewrite be_decode_encode_small by (unfold entrySize; lia). apply i64_small. unfold entrySize. lia.
  - unfold dir_count. rewrite (rows_sub i id es) by (done || unfold logDirEntrySize; lia).
    rewrite app_assoc, <- (app_nil_r (be_encode 2 _)), sub_mid.
    + apply be_decode_encode_small. unfold blen in *. lia.
    + rewrite blen_app, blen_be_encode. unfold blen. lia.
    + by rewrite blen_be_encode.
Qed.

Lemma log_at i : 0 <= i < blen secs -> exists id es, secs !! Z.to_nat i = Some (id, es) /\ Z.of_nat (Z.to_nat i) = i.
Proof.
  intros Hi. destruct (lookup_lt_is_Some_2 secs (Z.to_nat i)) as [[id es] Hs]; [unfold blen in *; lia|].
  exists id, es. split; [done|lia].
Qed.

Lemma file_sorted : sorted_dir rows (blen secs).
Proof.
  intros i j Hi Hij Hj. destruct (log_at i) as (id & es & Hli & Ei); [lia|].
  destruct (log_at j) as (id' & es' & Hlj & Ej); [lia|]. rewrite <- Ei, <- Ej.
  destruct (file_dir _ _ _ Hli) as (-> & _). destruct (file_dir _ _ _ Hlj) as (-> & _).
  exact (StronglySorted_lookup_lt _ _ _ _ _ _ (ws_sorted _ _ Hwf) Hli Hlj ltac:(lia)).
Qed.

Lemma file_names i name : names !! i = Some name -> slot_name (names_table content) (Z.of_nat i) = name.
Proof.
  intros Hi. pose proof (ws_names _ _ Hwf) as Hn. rewrite Forall_lookup in Hn. pose proof (Hn _ _ Hi) as Hv.
  unfold slot_name. rewrite file_names_table. unfold slots, encode_all.
  rewrite (sub_chunk _ filenameSize _ (name_slot name)); [by apply cstr_name_slot| |by rewrite list_lookup_fmap, Hi].
  apply Forall_map, Forall_lookup. intros j x Hj. destruct (Hn _ _ Hj) as (Hl & _).
  apply blen_name_slot. lia.
Qed.

Lemma file_accepted : accepted content.
Proof.
  constructor.
  - apply file_magic.
  - unfold tables_len. rewrite file_num_filenames, file_num_logs, file_size.
    pose proof (entries_before_bound (length secs)). unfold start, entrySize, filenameSize. lia.
  - rewrite file_num_filenames. intros i Hi.
    destruct (lookup_lt_is_Some_2 names (Z.to_nat i)) as [name Hn]; [unfold blen in *; lia|].
    replace i with (Z.of_nat (Z.to_nat i)) by lia. rewrite (file_names _ _ Hn).
    pose proof (ws_names _ _ Hwf) as HF. rewrite Forall_lookup in HF. by apply (HF _ _ Hn).
  - rewrite file_directory, file_num_logs. apply file_sorted.
Qed.

(** Sections follow each other without overlap, up to the end of the file. *)
Lemma file_section_end i id es :
  secs !! i = Some (id, es) ->
  dir_offset rows (Z.of_nat i) + dir_length rows (Z.of_nat i)
  = start + entrySize * entries_before secs (S i).
Proof.
  intros Hi. destruct (file_dir _ _ _ Hi) as (_ & Ho & Hc). unfold dir_length.
  rewrite Ho, Hc, (entries_before_S _ _ _ _ Hi). lia.
Qed.

Lemma file_no_wrap i : 0 <= i < blen secs -> dir_offset rows i + dir_length rows i < 2 ^ 63.
Proof.
  intros Hi. destruct (log_at i Hi) as (id & es & Hs & E). rewrite <- E, (file_section_end _ _ _ Hs).
  pose proof (entries_before_bound (S (Z.to_nat i))). pose proof start_bound. unfold entrySize. lia.
Qed.

Lemma section_end_plain i : 0 <= i < blen secs -> section_end rows i = dir_offset rows i + dir_length rows i.
Proof.
  intros Hi. unfold section_end. pose proof (file_no_wrap i Hi).
  destruct (log_at i Hi) as (id & es & Hs & E). revert H. rewrite <- E, (file_section_end _ _ _ Hs). intros H.
  apply i64_small. pose proof (entries_before_bound (S (Z.to_nat i))). pose proof start_bound.
  unfold entrySize in *. lia.
Qed.

Lemma file_sections_ok r :
  serves content r -> sections_ok (readerSize r) rows (blen secs) (headerSize + tables_len content).
Proof.
  intros Hr. assert (headerSize + tables_len content = start) as ->.
  { unfold tables_len. rewrite file_num_filenames, file_num_logs. unfold start. lia. }
  constructor.
  - intros i Hi. destruct (log_at i Hi) as (id & es & Hs & E). rewrite <- E.
    destruct (file_dir _ _ _ Hs) as (_ & -> & _). pose proof (entries_before_bound (Z.to_nat i)).
    unfold entrySize. lia.
  - intros i size Hi Hsize. rewrite section_end_plain by done.
    destruct (log_at i Hi) as (id & es & Hs & E). rewrite <- E, (file_section_end _ _ _ Hs).
    assert (size = blen content) as ->.
    { pose proof (serves_size _ _ Hr) as Hsz. unfold readerSize in Hsize.
      destruct (reader_sizing r) as [|[]|]; congruence. }
    rewrite file_size. apply lookup_lt_Some in Hs.
    pose proof (entries_before_mono secs (S (Z.to_nat i)) (length secs) Hs). unfold entrySize. lia.
  - intros i j Hi Hij Hj _ _. left. rewrite section_end_plain by lia.
    destruct (log_at i) as (id & es & Hs & E); [lia|]. destruct (log_at j) as (id' & es' & Hs' & E'); [lia|].
    rewrite <- E, (file_section_end _ _ _ Hs), <- E'. destruct (file_dir _ _ _ Hs') as (_ & -> & _).
    pose proof (entries_before_mono secs (S (Z.to_nat i)) (Z.to_nat j) ltac:(lia)). unfold entrySize. lia.
Qed.

Lemma collect_list {A} (f : Z -> list A) lo l :
  (forall i x, l !! i = Some x -> f (lo + Z.of_nat i) = [x]) -> collect f lo (length l) = l.
Proof.
  revert lo. induction l as [|x l IH]; intros lo H; [done|]. cbn [length collect].
  pose proof (H 0%nat x eq_refl) as E. change (Z.of_nat 0) with 0 in E. rewrite Z.add_0_r in E. rewrite E. simpl. f_equal.
  apply IH. intros i y Hi. replace (lo + 1 + Z.of_nat i) with (lo + Z.of_nat (S i)) by lia. by apply H.
Qed.

Lemma file_index_names : index_names content = names.
Proof.
  unfold index_names. rewrite file_num_filenames. unfold blen. rewrite Nat2Z.id.
  apply collect_list. intros i x Hi. rewrite Z.add_0_l. by rewrite (file_names i x Hi).
Qed.

(** The reader opens the file. *)
Lemma file_opens `{AllocPolicy} `{SpanSort} r c :
  serves content r ->
  NewIndexFromReader r c = Ok (mkIndex names rows (blen secs) r c).
Proof.
  intros Hr. rewrite (NewIndexFromReader_complete content r c).
  - by rewrite file_index_names, file_directory, file_num_logs.
  - done.
  - rewrite file_num_logs, file_directory. apply file_no_wrap.
  - apply file_accepted.
  - rewrite file_directory, file_num_logs. by apply file_sections_ok.
Qed.

(** ** Looking up *)
Definition entry_hits (ts : Z) (e : entry) : list bytes :=
  if (e_min e <=? ts) && (ts <=? e_max e) then [nth (Z.to_nat (e_filterIdx e)) names []] else [].

Lemma section_entry es i e :
  es !! i = Some e -> wf_entry_of names e -> blen names <= 65535 ->
  ent_filter (encode_all enc_entry es) (Z.of_nat i) = e_filterIdx e
  /\ ent_min (encode_all enc_entry es) (Z.of_nat i) = e_min e
  /\ ent_max (encode_all enc_entry es) (Z.of_nat i) = e_max e.
Proof.
  intros Hi (Hf & Hmn & Hmx) Hn. unfold is_u64 in *.
  assert (forall a n, 0 <= a -> 0 <= n -> a + n <= entrySize ->
    sub (encode_all enc_entry es) (Z.of_nat i * entrySize + a) n = sub (enc_entry e) a n) as Hsub.
  { intros a n Ha H0 Han. unfold encode_all. rewrite <- (sub_chunk (map enc_entry es) entrySize i (enc_entry e)).
    - rewrite sub_sub by (unfold entrySize in *; lia). done.
    - apply Forall_map, Forall_forall. intros x _. unfold enc_entry. by rewrite !blen_app, !blen_be_encode.
    - by rewrite list_lookup_fmap, Hi. }
  unfold ent_filter, ent_min, ent_max. rewrite <- (Z.add_0_r (_ * entrySize)) at 1.
  rewrite !Hsub by (unfold entrySize; lia). unfold enc_entry. split; [|split].
  - rewrite sub_prefix by by rewrite blen_be_encode. apply be_decode_encode_small. unfold blen in *. lia.
  - rewrite sub_mid by by rewrite blen_be_encode. by apply be_decode_encode_small.
  - rewrite app_assoc, <- (app_nil_r (be_encode 8 (e_max e))).
    rewrite sub_mid by by rewrite ?blen_app, ?blen_be_encode. by apply be_decode_encode_small.
Qed.

Lemma collect_map {A X} (f : Z -> list A) (g : X -> list A) lo l :
  (forall i x, l !! i = Some x -> f (lo + Z.of_nat i) = g x) ->
  collect f lo (length l) = concat (map g l).
Proof.
  revert lo. induction l as [|x l IH]; intros lo H; [done|]. cbn [length collect map concat].
  pose proof (H 0%nat x eq_refl) as E. change (Z.of_nat 0) with 0 in E. rewrite Z.add_0_r in E. rewrite E. f_equal.
  apply IH. intros i y Hi. replace (lo + 1 + Z.of_nat i) with (lo + Z.of_nat (S i)) by lia. by apply H.
Qed.

Lemma file_lookup r c id es i ts :
  secs !! i = Some (id, es) ->
  lookup_spec (mkIndex names rows (blen secs) r c) content id ts = Ok (concat (map (entry_hits ts) es)).
Proof.
  intros Hi. destruct (file_dir _ _ _ Hi) as (Hid & Ho & Hc). unfold lookup_spec. simpl logDir. simpl numLogs.
  pose proof (lookup_lt_Some _ _ _ Hi) as Hlt.
  rewrite (dir_find_Some _ _ _ (Z.of_nat i)) by (done || apply file_sorted || (unfold blen; lia)).
  rewrite Ho, Hc. rewrite (file_section i id es Hi).
  assert (blen (encode_all enc_entry es) = blen es * entrySize) as Hl.
  { rewrite (blen_encode_all enc_entry entrySize); [lia|]. apply Forall_forall. intros x _.
    unfold enc_entry. by rewrite !blen_app, !blen_be_encode. }
  rewrite Hl, Z.ltb_irrefl. simpl filenames.
  pose proof (ws_entries _ _ Hwf) as HF. rewrite Forall_lookup in HF. pose proof (HF _ _ Hi) as Hes. simpl in Hes.
  rewrite Forall_lookup in Hes. pose proof (ws_names_len _ _ Hwf) as Hn.
  replace (Z.to_nat (blen es)) with (length es) by (unfold blen; lia).
  replace (first_err _ _ _) with (@None error).
  2: { symmetry. apply first_err_None. intros j Hj.
       destruct (lookup_lt_is_Some_2 es (Z.to_nat j)) as [e He]; [lia|].
       replace j with (Z.of_nat (Z.to_nat j)) by lia. unfold entry_err.
       destruct (section_entry es _ e He (Hes _ _ He) Hn) as (-> & _).
       destruct (Hes _ _ He) as (Hf & _). by destruct (Z.leb_spec (blen names) (e_filterIdx e)); [lia|]. }
  cbn [err_or]. f_equal. apply collect_map. intros j e He. rewrite Z.add_0_l. unfold entry_names, entry_hits.
  by destruct (section_entry es _ e He (Hes _ _ He) Hn) as (-> & -> & ->).
Qed.

Lemma file_lookup_absent r c id ts :
  id ∉ secs.*1 -> lookup_spec (mkIndex names rows (blen secs) r c) content id ts = Ok [].
Proof.
  intros Hn. unfold lookup_spec. simpl logDir. simpl numLogs. rewrite dir_find_None; [done|].
  intros i Hi E. destruct (log_at i Hi) as (id' & es & Hs & Ei). rewrite <- Ei in E.
  destruct (file_dir _ _ _ Hs) as (E' & _). apply Hn. rewrite <- E, E'.
  apply list_elem_of_fmap. exists (id', es). split; [done|]. by eapply list_elem_of_lookup_2.
Qed.
End File.

(** ** Grouping *)

(** The entries the filters contribute to a log, in filter order, the first filter
    having index [i]. *)
Fixpoint described (i : Z) (filters : list IndexFilter) (id : bytes) : list entry :=
  match filters with
  | [] => []
  | f :: filters =>
      map (fun c => mkEntry (u16 i) (MinTimestamp c) (MaxTimestamp c))
        (List.filter (fun c => bool_decide (cov_LogId c = id)) (if_Coverage f))
      ++ described (i + 1) filters id
  end.

Definition all_coverage (filters : list IndexFilter) : list Coverage := concat (map if_Coverage filters).

Lemma append_entries_ok i coverage byLog id :
  let byLog' := fold_left (append_entry i) coverage byLog in
  log_entries byLog' id
  = log_entries byLog id
    ++ map (fun c => mkEntry (u16 i) (MinTimestamp c) (MaxTimestamp c))
         (List.filter (fun c => bool_decide (cov_LogId c = id)) coverage)
  /\ (is_Some (byLog' !! id) <-> is_Some (byLog !! id) \/ id ∈ map cov_LogId coverage).
Proof.
  cbv zeta. revert byLog. induction coverage as [|c coverage IH]; intros byLog; simpl.
  { rewrite app_nil_r. split; [done|]. split; [by left|]. by intros [|?%elem_of_nil]. }
  destruct (IH (append_entry i byLog c)) as [-> ->]. unfold append_entry, log_entries. rewrite elem_of_cons.
  destruct (decide (cov_LogId c = id)) as [E|Hn].
  - rewrite E, lookup_insert_eq, bool_decide_true by done. simpl. rewrite <- app_assoc.
    split; [done|]. split; [by intros _; right; left|intros _; left; by eexists].
  - rewrite lookup_insert_ne, bool_decide_false by done. split; [done|].
    split; [intros [?|?]; auto|intros [?|[E|?]]; auto]. by symmetry in E.
Qed.

Lemma group_by_log_ok i filters byLog :
  Forall (fun f => blen (Filename f) <= 32) filters ->
  exists byLog', group_by_log i filters byLog = Ok byLog'
  /\ forall id, log_entries byLog' id = log_entries byLog id ++ described i filters id
       /\ (is_Some (byLog' !! id) <-> is_Some (byLog !! id) \/ id ∈ map cov_LogId (all_coverage filters)).
Proof.
  intros H. revert i byLog. induction H as [|f filters Hf _ IH]; intros i byLog; simpl.
  { exists byLog. split; [done|]. intros id. rewrite app_nil_r. split; [done|].
    split; [by left|]. by intros [|?%elem_of_nil]. }
  unfold filenameSize. destruct (Z.ltb_spec 32 (blen (Filename f))); [lia|].
  destruct (IH (i + 1) (fold_left (append_entry i) (if_Coverage f) byLog)) as (byLog' & -> & Hb).
  exists byLog'. split; [done|]. intros id. destruct (Hb id) as [-> ->].
  destruct (append_entries_ok i (if_Coverage f) byLog id) as [-> ->].
  rewrite <- app_assoc. split; [done|].
  unfold all_coverage. simpl. rewrite map_app, elem_of_app. tauto.
Qed.

(** ** What the description answers *)
Definition in_coverage (id : bytes) (ts : Z) (c : Coverage) : bool :=
  bool_decide (cov_LogId c = id) && ((MinTimestamp c <=? ts) && (ts <=? MaxTimestamp c)).

(** The file names of the covering filters, once per covering interval, in order. *)
Definition covering_names (filters : list IndexFilter) (id : bytes) (ts : Z) : list bytes :=
  concat (map (fun f => map (fun _ => Filename f) (List.filter (in_coverage id ts) (if_Coverage f))) filters).

Lemma hits_of_filter names i name coverage id ts :
  0 <= i <= 65535 -> nth (Z.to_nat i) names [] = name ->
  concat (map (entry_hits names ts)
    (map (fun c => mkEntry (u16 i) (MinTimestamp c) (MaxTimestamp c))
       (List.filter (fun c => bool_decide (cov_LogId c = id)) coverage)))
  = map (fun _ => name) (List.filter (in_coverage id ts) coverage).
Proof.
  intros Hi Hn. induction coverage as [|c coverage IH]; [done|]. simpl. unfold in_coverage at 1.
  destruct (bool_decide (cov_LogId c = id)); simpl; [|done]. unfold entry_hits at 1. simpl.
  rewrite IH. unfold u16. rewrite Z.mod_small, Hn by lia. by destruct (_ && _).
Qed.

Lemma hits_described names i filters id ts :
  0 <= i -> i + blen filters <= 65536 ->
  (forall k f, filters !! k = Some f -> nth (Z.to_nat i + k) names [] = Filename f) ->
  concat (map (entry_hits names ts) (described i filters id)) = covering_names filters id ts.
Proof.
  revert i. induction filters as [|f filters IH]; intros i Hi Hl Hn; [done|].
  rewrite blen_cons in Hl. cbn [described]. rewrite map_app, concat_app. unfold covering_names. simpl.
  rewrite (hits_of_filter names i (Filename f)).
  - f_equal. apply IH; [lia|lia|]. intros k g Hg. rewrite <- (Hn (S k) g Hg). f_equal. lia.
  - unfold blen in *. lia.
  - rewrite <- (Hn 0%nat f eq_refl). f_equal. lia.
Qed.

(** ** The round trip *)

(** What the format can carry. *)
Record encodable_index (idx : Index) : Prop := {
  ei_filters : blen (Filters idx) <= 65535;
  ei_names : Forall (fun f => valid_filename (Filename f)) (Filters idx);
  ei_coverage : Forall (fun c => length (cov_LogId c) = 32%nat
                          /\ is_u64 (MinTimestamp c) /\ is_u64 (MaxTimestamp c)) (all_coverage (Filters idx));
  ei_total : blen (all_coverage (Filters idx)) < 2 ^ 32;
  ei_counts id : blen (described 0 (Filters idx) id) <= 65535
}.

Lemma described_wf names i filters id :
  0 <= i -> i + blen filters <= blen names -> blen names <= 65535 ->
  Forall (fun c => length (cov_LogId c) = 32%nat /\ is_u64 (MinTimestamp c) /\ is_u64 (MaxTimestamp c))
    (all_coverage filters) ->
  Forall (wf_entry_of names) (described i filters id).
Proof.
  revert i. induction filters as [|f filters IH]; intros i Hi Hl Hn HF; [constructor|].
  unfold all_coverage in HF. simpl in HF. apply Forall_app in HF as [Hf HF].
  rewrite blen_cons in Hl. cbn [described]. apply Forall_app. split; [|by apply IH; [lia|lia|..]].
  apply Forall_forall. intros e He. apply list_elem_of_In, in_map_iff in He as (c & <- & [Hc _]%filter_In).
  rewrite List.Forall_forall in Hf. destruct (Hf c Hc) as (_ & Hmn & Hmx).
  split; [|by split]. simpl. unfold u16. pose proof (blen_cons f filters). rewrite Z.mod_small; unfold blen in *; lia.
Qed.

Lemma sorted_strict l :
  StronglySorted bytes_le l -> NoDup l -> StronglySorted (fun a b => bytes_Compare a b = Lt) l.
Proof.
  intros Hs. induction Hs as [|a l Hs IH Ha]; intros Hn; [constructor|].
  apply NoDup_cons in Hn as [Hal Hn]. constructor; [by apply IH|].
  rewrite List.Forall_forall in *. intros b Hb. specialize (Ha b Hb). unfold bytes_le in Ha.
  destruct (bytes_Compare a b) eqn:E; [|done|done]. apply bytes_Compare_Eq in E as ->.
  destruct Hal. by apply list_elem_of_In.
Qed.

Lemma elem_of_keys {A} (m : gmap bytes A) k : k ∈ (map_to_list m).*1 <-> is_Some (m !! k).
Proof.
  rewrite list_elem_of_fmap. split.
  - intros ([k' x] & -> & H%elem_of_map_to_list). by eexists.
  - intros [x H]. exists (k, x). split; [done|]. by apply elem_of_map_to_list.
Qed.

Lemma map_pair_fst {A X} (f : A -> X) (l : list A) : (map (fun x => (x, f x)) l).*1 = l.
Proof. induction l as [|x l IH]; [done|]. exact (f_equal (cons x) IH). Qed.

Section RoundTrip.
Context {B : Builder} {BL : BuilderLaws B} {M : MapRange} {S : SortFunc bytes_le}.

Lemma add_dir_ok byLog ids out off :
  (fold_left (add_dir_entry byLog) ids (out, off)).1
  = out ++ concat (dir_rows off (map (fun id => (id, log_entries byLog id)) ids)).
Proof.
  revert out off. induction ids as [|id ids IH]; intros out off; [by rewrite app_nil_r|].
  cbn [fold_left]. unfold add_dir_entry at 2. cbv zeta. rewrite IH.
  rewrite AddUint16_spec, AddUint64_spec, AddBytes_spec. cbn [map dir_rows concat].
  unfold u64. rewrite (be_encode_mod 8). by rewrite <- !app_assoc.
Qed.

Lemma add_entries_ok byLog ids out :
  fold_left (fun out id => fold_left add_entry (log_entries byLog id) out) ids out
  = out ++ encode_all (fun s => encode_all enc_entry s.2) (map (fun id => (id, log_entries byLog id)) ids).
Proof.
  rewrite encode_all_map. revert out. induction ids as [|id ids IH]; intros out.
  - unfold encode_all. simpl. by rewrite app_nil_r.
  - cbn [fold_left]. rewrite IH. rewrite (fold_left_encode _ enc_entry).
    + unfold encode_all at 3. simpl. by rewrite <- app_assoc.
    + intros out' e. unfold add_entry, enc_entry. by rewrite !AddUint64_spec, AddUint16_spec, <- !app_assoc.
Qed.

(** [Bytes] writes the file of the grouped entries. *)
Lemma Index_Bytes_ok idx :
  encodable_index idx ->
  let names := map Filename (Filters idx) in
  exists secs, Index_Bytes idx = Ok (enc_index_file names secs) /\ wf_sections names secs
  /\ (forall id es, (id, es) ∈ secs -> es = described 0 (Filters idx) id)
  /\ (forall id, id ∉ secs.*1 -> described 0 (Filters idx) id = []).
Proof.
  intros [Hl Hn Hc Ht Hcounts] names. unfold Index_Bytes.
  destruct (Z.ltb_spec 65535 (blen (Filters idx))); [lia|].
  destruct (group_by_log_ok 0 (Filters idx) ∅) as (byLog & -> & Hby).
  { eapply Forall_impl; [exact Hn|]. intros f (Hf & _). lia. }
  go_simp. set (ids := sort_func (map_range byLog).*1).
  set (secs := map (fun id => (id, log_entries byLog id)) ids). exists secs.
  assert (forall id, log_entries byLog id = described 0 (Filters idx) id) as Hes.
  { intros id. destruct (Hby id) as [-> _]. by unfold log_entries; rewrite lookup_empty. }
  assert (ids ≡ₚ (map_to_list byLog).*1) as Hperm by (unfold ids; rewrite sort_func_perm; by rewrite map_range_perm).
  assert (NoDup ids) as Hnd by (rewrite Hperm; apply NoDup_fst_map_to_list).
  assert (forall id, id ∈ ids <-> id ∈ map cov_LogId (all_coverage (Filters idx))) as Hids.
  { intros id. rewrite Hperm, elem_of_keys. destruct (Hby id) as [_ ->].
    rewrite lookup_empty. split; [by intros [[? ?]|]|by right]. }
  assert (secs.*1 = ids) as Hfst by apply map_pair_fst.
  split; [|split; [constructor|split]].
  - f_equal. destruct (fold_left (add_dir_entry byLog) ids _) as [out off] eqn:E.
    pose proof (add_dir_ok byLog ids
      (fold_left (fun out f => AddBytes out (name_slot (Filename f))) (Filters idx)
         (AddUint32 (AddUint16 (AddBytes [] (go_string "upkiidx1")) (blen (Filters idx))) (blen ids)))
      (headerSize + filenameSize * blen (Filters idx) + logDirEntrySize * blen ids)) as Hd.
    rewrite E in Hd. simpl fst in Hd. rewrite Hd, add_entries_ok.
    rewrite (fold_left_encode _ (fun f => name_slot (Filename f))) by (intros; apply AddBytes_spec).
    rewrite AddUint32_spec, AddUint16_spec, AddBytes_spec. unfold enc_index_file, names.
    rewrite (encode_all_map name_slot Filename). unfold secs, blen. rewrite !length_map.
    by rewrite <- !app_assoc.
  - apply List.Forall_forall. intros name (f & <- & Hf)%in_map_iff.
    rewrite List.Forall_forall in Hn. by apply Hn.
  - unfold names, blen in *. by rewrite length_map.
  - apply Forall_forall. intros s Hs. apply list_elem_of_In, in_map_iff in Hs as (id & <- & Hid). simpl.
    apply list_elem_of_In, Hids, list_elem_of_In, in_map_iff in Hid as (c & <- & Hin).
    rewrite List.Forall_forall in Hc. by apply Hc.
  - apply (StronglySorted_fmap (fun id => (id, log_entries byLog id)) (fun a b => bytes_Compare a b = Lt)); [done|].
    apply sorted_strict; [apply sort_func_sorted|done].
  - assert (length ids <= length (map cov_LogId (all_coverage (Filters idx))))%nat as Hle.
    { apply submseteq_length, NoDup_submseteq; [done|]. intros id. apply Hids. }
    rewrite length_map in Hle. unfold secs, blen in *. rewrite length_map. lia.
  - apply Forall_forall. intros s Hs. apply list_elem_of_In, in_map_iff in Hs as (id & <- & _). simpl.
    by rewrite Hes.
  - apply Forall_forall. intros s Hs. apply list_elem_of_In, in_map_iff in Hs as (id & <- & _). simpl.
    rewrite Hes. apply described_wf; [lia|..]; unfold names, blen in *; rewrite ?length_map; lia || done.
  - intros id es Hin. apply list_elem_of_In, in_map_iff in Hin as (id' & [= <- <-] & _). done.
  - intros id Hnin. rewrite Hfst, Hids in Hnin. rewrite <- Hes. unfold log_entries.
    destruct (byLog !! id) eqn:Eb; [|done]. destruct Hnin.
    destruct (Hby id) as [_ Hs]. rewrite Eb, lookup_empty in Hs. by destruct (proj1 Hs ltac:(by eexists)) as [[? ?]|].
Qed.
End RoundTrip.

(** The written file: the reader opens it, and its reference lookup is the description. *)
Lemma Index_Bytes_content {B : Builder} {BL : BuilderLaws B} {M : MapRange} {S : SortFunc bytes_le}
    (idx : Index) :
  encodable_index idx ->
  exists data, Index_Bytes idx = Ok data
  /\ (forall (AP : AllocPolicy) (SS : SpanSort) r c, serves data r ->
        NewIndexFromReader r c = Ok (mkIndex (index_names data) (directory data) (num_logs data) r c))
  /\ forall r c id ts,
       lookup_spec (mkIndex (index_names data) (directory data) (num_logs data) r c) data id ts
       = Ok (covering_names (Filters idx) id ts).
Proof.
  intros Hen. destruct (Index_Bytes_ok idx Hen) as (secs & E & Hwf & Hin & Hnin).
  exists (enc_index_file (map Filename (Filters idx)) secs). split; [done|].
  rewrite file_index_names, file_directory, file_num_logs by done.
  split; [intros; by apply file_opens|]. intros r c id ts.
  assert (covering_names (Filters idx) id ts
          = concat (map (entry_hits (map Filename (Filters idx)) ts) (described 0 (Filters idx) id))) as ->.
  { symmetry. apply hits_described; [lia|destruct Hen; lia|]. intros k f Hf.
    change (Z.to_nat 0 + k)%nat with k. apply nth_lookup_Some. by rewrite list_lookup_fmap, Hf. }
  destruct (decide (id ∈ secs.*1)) as [Hs|Hs].
  - apply list_elem_of_fmap in Hs as ([id' es] & -> & Hs). rewrite (Hin _ _ Hs) in Hs |- *.
    apply list_elem_of_lookup in Hs as [i Hi]. by apply (file_lookup _ _ Hwf _ _ _ _ i).
  - rewrite (Hnin id Hs). by apply file_lookup_absent.
Qed.

(** ** Properties *)

(** C11. Round trip of the index: for every description the format can carry,
    [Index.Bytes] succeeds; on any reader that serves what it wrote the index opens,
    and [Lookup] of any log id and timestamp returns the names of exactly the filters
    whose coverage contains the pair, once per covering interval, in filter order. *)
Theorem Index_Bytes_lookup {B : Builder} {BL : BuilderLaws B} {M : MapRange} {S : SortFunc bytes_le}
    `{AllocPolicy} `{SpanSort} (idx : Index) :
  encodable_index idx ->
  exists data, Index_Bytes idx = Ok data
  /\ forall r c, serves data r ->
       exists ix, NewIndexFromReader r c = Ok ix
       /\ forall id ts, length id = 32%nat ->
            Lookup ix id ts = Ok (covering_names (Filters idx) id ts).
Proof.
  intros Hen. destruct (Index_Bytes_content idx Hen) as (data & E & Hopen & Hl).
  exists data. split; [exact E|]. intros r c Hr.
  eexists. split; [by apply Hopen|]. intros id ts Hid. rewrite (Lookup_eq _ data); [apply Hl| |done|done].
  apply (NewIndexFromReader_sound r c). by apply Hopen.
Qed.

(** ** Witnesses *)
Definition sample_description : Index :=
  mkTestIndex
    [mkIndexFilter (go_string "a.filter") [mkCoverage (replicate 32 Init.Byte.x0b) 100 200;
                                           mkCoverage (replicate 32 Init.Byte.x0a) 0 50];
     mkIndexFilter (go_string "b.filter") [mkCoverage (replicate 32 Init.Byte.x0b) 150 300]].

Lemma sample_description_encodable : encodable_index sample_description.
Proof.
  constructor.
  - by vm_compute.
  - assert (forall s, validateFilterFilename (go_string s) = Ok tt -> blen (go_string s) <= 32 ->
              valid_filename (go_string s)) as H
      by (intros s H Hl; exact (proj1 (validateFilterFilename_Ok _ tt Hl) H)).
    repeat (apply List.Forall_cons; [apply H; by vm_compute|]). constructor.
  - repeat (apply List.Forall_cons; [split; [done|by vm_compute]|]). constructor.
  - by vm_compute.
  - intros id. assert (forall i fs, blen (described i fs id) <= blen (all_coverage fs)) as H.
    { intros i fs. revert i. induction fs as [|f fs IH]; intros i; [done|].
      unfold all_coverage in *. cbn [described map concat]. rewrite !blen_app. specialize (IH (i + 1)).
      pose proof (List.filter_length_le (fun c => bool_decide (cov_LogId c = id)) (if_Coverage f)).
      unfold blen in *. rewrite length_map. lia. }
    etrans; [apply H|]. by vm_compute.
Qed.

Lemma Index_Bytes_lookup_witness :
  exists data ix, Index_Bytes sample_description = Ok data
  /\ NewIndexFromReader (bytes_reader data) None = Ok ix
  /\ Lookup ix (replicate 32 Init.Byte.x0b) 160 = Ok [go_string "a.filter"; go_string "b.filter"].
Proof.
  destruct (Index_Bytes_lookup sample_description sample_description_encodable) as (data & E & H).
  destruct (H (bytes_reader data) None (bytes_reader_serves data)) as (ix & Hix & Hl).
  exists data, ix. split; [exact E|]. split; [exact Hix|].
  exact (Hl (replicate 32 Init.Byte.x0b) 160 eq_refl).
Defined.
