(* ===== verification/Sct.v ===== *)
(** * Embedded SCTs and the raw serial ([upki/sct.go])

    [EmbeddedSCTs] and [RawSerial] over the certificate fields they read, against
    the RFC 6962 and DER layouts they decode. *)
From S2P Require Import Prelude Codec Cryptobyte.

(** ** Data *)

(** The fields of [x509.Certificate] the code reads.  An extension value is a byte
    slice, [None] being the nil slice the code tests for. *)
Record Extension := mkExtension { ext_Id : list Z; ext_Value : option bytes }.
Record Certificate := mkCertificate {
  Extensions : list Extension;
  RawTBSCertificate : bytes;
  RawSubjectPublicKeyInfo : bytes
}.

Record SCT := mkSCT { sct_LogID : bytes; sct_Timestamp : Z }.

Definition ErrMalformedSCTExtension : error := Sentinel "upki: malformed SCT extension".
Definition ErrMalformedTBSCertificate : error := Sentinel "upki: malformed TBSCertificate".
Definition embeddedSCTOID : list Z := [1; 3; 6; 1; 4; 1; 11129; 2; 4; 2].

(** ** Operations *)
Section Operations.
Context {C : Cryptobyte}.

(** The body of the loop over the SCT list. *)
Definition read_sct (st : bytes * list SCT) : result (bytes * list SCT) :=
  let '(listBytes, out) := st in
  let fail msg := Errorf msg [AErr ErrMalformedSCTExtension] in
  '(serialized, listBytes) ← or_err (ReadUint16LengthPrefixed listBytes) (fail "%w: serialized sct");
  '(version, serialized) ← or_err (ReadUint8 serialized) (fail "%w: unsupported sct version");
  _ ← check_that (version =? 0) (fail "%w: unsupported sct version");
  '(logID, serialized) ← or_err (CopyBytes 32 serialized) (fail "%w: sct log id");
  '(ts, serialized) ← or_err (ReadUint64 serialized) (fail "%w: sct timestamp");
  '(_, _) ← or_err (ReadUint16LengthPrefixed serialized) (fail "%w: sct extensions");
  Ok (listBytes, out ++ [mkSCT logID ts]).

Definition EmbeddedSCTs (cert : Certificate) : result (list SCT) :=
  let raw := match List.find (fun ext => bool_decide (ext_Id ext = embeddedSCTOID)) (Extensions cert) with
             | Some ext => ext_Value ext
             | None => None
             end in
  match raw with
  | None => Ok []
  | Some raw =>
      let fail msg := Errorf msg [AErr ErrMalformedSCTExtension] in
      '(inner, outer) ← or_err (ReadASN1 asn1_OCTET_STRING raw) (fail "%w: outer wrapper");
      _ ← check_that (Empty outer) (fail "%w: outer wrapper");
      '(listBytes, inner) ← or_err (ReadUint16LengthPrefixed inner) (fail "%w: sct list");
      _ ← check_that (Empty inner) (fail "%w: sct list");
      run_loop (Z.to_pos (blen listBytes + 1)) (while_step Empty read_sct) (listBytes, [])
  end.

Definition RawSerial (cert : Certificate) : result bytes :=
  let fail msg := Errorf msg [AErr ErrMalformedTBSCertificate] in
  '(inner, _) ← or_err (ReadASN1 asn1_SEQUENCE (RawTBSCertificate cert)) (fail "%w: outer sequence");
  inner ← (if PeekASN1Tag asn1_Tag0_Constructed_ContextSpecific inner
           then '(_, inner) ← or_err (ReadASN1 asn1_Tag0_Constructed_ContextSpecific inner)
                                (fail "%w: version");
                Ok inner
           else Ok inner);
  '(serial, _) ← or_err (ReadASN1 asn1_INTEGER inner) (fail "%w: serial");
  Ok serial.

End Operations.

(** ** The wire formats *)

(** A version 1 SignedCertificateTimestamp; the signature part is not interpreted. *)
Record wire_sct := mkWireSct {
  ws_log_id : bytes;
  ws_timestamp : Z;
  ws_extensions : bytes;
  ws_signature : bytes
}.
Definition enc_sct_body (w : wire_sct) : bytes :=
  be_encode 1 0 ++ ws_log_id w ++ be_encode 8 (ws_timestamp w)
  ++ be_encode 2 (blen (ws_extensions w)) ++ ws_extensions w ++ ws_signature w.
Definition enc_sct (w : wire_sct) : bytes :=
  be_encode 2 (blen (enc_sct_body w)) ++ enc_sct_body w.
Record wf_sct (w : wire_sct) : Prop := {
  wfs_log_id : length (ws_log_id w) = 32%nat;
  wfs_timestamp : is_u64 (ws_timestamp w);
  wfs_extensions : blen (ws_extensions w) < 65536;
  wfs_size : blen (enc_sct_body w) < 65536
}.
Definition sct_of (w : wire_sct) : SCT := mkSCT (ws_log_id w) (ws_timestamp w).

(** The extension value: an OCTET STRING holding a 16-bit-prefixed list. *)
Definition enc_sct_list (ws : list wire_sct) : bytes :=
  der 4 (be_encode 2 (blen (encode_all enc_sct ws)) ++ encode_all enc_sct ws).

(** A TBSCertificate up to its serial number. *)
Definition enc_version (v : option bytes) : bytes :=
  match v with Some c => der 160 c | None => [] end.
Definition enc_tbs (v : option bytes) (serial rest : bytes) : bytes :=
  der 48 (enc_version v ++ der 2 serial ++ rest).

(** ** Lemmas *)
Section Grammar.
Context {C : Cryptobyte} {L : CryptobyteLaws C}.

Lemma enc_sct_not_nil w : enc_sct w <> [].
Proof. discriminate. Qed.

Lemma read_sct_Ok s acc s' acc' :
  read_sct (s, acc) = Ok (s', acc') <->
  exists w, wf_sct w /\ s = enc_sct w ++ s' /\ acc' = acc ++ [sct_of w].
Proof.
  unfold read_sct, enc_sct. split.
  - intros H. inv_binds H. injection H as <- <-.
    rewrite or_err_Ok, ReadUint16LengthPrefixed_spec in E, E4.
    rewrite or_err_Ok, ReadUint8_spec in E0. apply check_that_Ok, Z.eqb_eq in E1 as ->.
    rewrite or_err_Ok, CopyBytes_spec in E2 by lia. rewrite or_err_Ok, ReadUint64_spec in E3.
    apply read_prefixed_Some in E as [-> Hs]; [|lia].
    apply read_be_Some in E0 as [-> _]; [|lia]. apply split_at_Some in E2 as [-> Hid]; [|lia].
    apply read_be_Some in E3 as [-> Ht]; [|lia]. apply read_prefixed_Some in E4 as [-> Hx]; [|lia].
    exists (mkWireSct x4 x6 x8 x9). unfold enc_sct_body, sct_of.
    cbn [ws_log_id ws_timestamp ws_extensions ws_signature].
    split; [|split; [by rewrite <- app_assoc|done]]. unfold blen in Hid.
    constructor; cbn [ws_log_id ws_timestamp ws_extensions ws_signature]; [lia|done|done|done].
  - intros (w & [Hid Ht Hx Hs] & -> & ->). rewrite <- app_assoc.
    apply bind_pair_Ok. exists (enc_sct_body w), s'. split.
    { rewrite or_err_Ok, ReadUint16LengthPrefixed_spec. apply (read_prefixed_app 2); [lia|exact Hs]. }
    unfold enc_sct_body.
    apply bind_pair_Ok. eexists _, _. split.
    { rewrite or_err_Ok, ReadUint8_spec. apply (read_be_app 1); lia. }
    apply bind_Ok. exists tt. split; [done|].
    apply bind_pair_Ok. eexists _, _. split.
    { rewrite or_err_Ok, CopyBytes_spec by lia. apply split_at_Some; [lia|].
      split; [reflexivity|unfold blen; lia]. }
    apply bind_pair_Ok. eexists _, _. split.
    { rewrite or_err_Ok, ReadUint64_spec. apply (read_be_app 8); [lia|exact Ht]. }
    apply bind_pair_Ok. exists (ws_extensions w), (ws_signature w). split; [|done].
    rewrite or_err_Ok, ReadUint16LengthPrefixed_spec. apply (read_prefixed_app 2); [lia|exact Hx].
Qed.

Lemma read_sct_fails st :
  fails_with (fun e => errors_Is e "upki: malformed SCT extension" = true) (read_sct st).
Proof. unfold read_sct. fails. Qed.

Lemma blen_pos_fuel (s : bytes) : blen s < Z.pos (Z.to_pos (blen s + 1)).
Proof. unfold blen. lia. Qed.

(** The SCT extension of a certificate. *)
Definition sct_extension (cert : Certificate) : option bytes :=
  match List.find (fun ext => bool_decide (ext_Id ext = embeddedSCTOID)) (Extensions cert) with
  | Some ext => ext_Value ext
  | None => None
  end.

Lemma EmbeddedSCTs_Ok cert raw out :
  sct_extension cert = Some raw ->
  EmbeddedSCTs cert = Ok out <->
  exists ws, Forall wf_sct ws /\ blen (encode_all enc_sct ws) < 65536
             /\ raw = enc_sct_list ws /\ out = map sct_of ws.
Proof.
  intros Hraw. unfold EmbeddedSCTs. fold (sct_extension cert). rewrite Hraw.
  rewrite asn1_OCTET_STRING_spec. split.
  - intros H. apply bind_pair_Ok in H as (inner & outer & E1 & H).
    apply bind_Ok in H as (u1 & E2 & H). apply bind_pair_Ok in H as (lst & inner' & E3 & H).
    apply bind_Ok in H as (u2 & E4 & H). apply or_err_Ok, ReadASN1_sound in E1 as ->; [|lia].
    rewrite check_that_Ok, Empty_spec, Z.eqb_eq in E2, E4.
    destruct outer; [|done]. destruct inner'; [|done].
    rewrite or_err_Ok, ReadUint16LengthPrefixed_spec in E3.
    apply read_prefixed_Some in E3 as [-> Hl]; [|lia].
    apply (while_loop_Ok wf_sct enc_sct sct_of _ _ Empty_spec enc_sct_not_nil read_sct_Ok) in H
      as (ws & HF & -> & ->); [|apply blen_pos_fuel].
    exists ws. split; [done|]. split; [exact Hl|]. unfold enc_sct_list. by rewrite !app_nil_r.
  - intros (ws & HF & Hl & -> & ->).
    apply bind_pair_Ok. eexists _, []. split.
    { apply or_err_Ok. unfold enc_sct_list. rewrite <- (app_nil_r (der _ _)).
      apply ReadASN1_complete; [lia|done|]. len. }
    apply bind_Ok. exists tt. split; [by rewrite check_that_Ok, Empty_spec|].
    apply bind_pair_Ok. exists (encode_all enc_sct ws), []. split.
    { rewrite or_err_Ok, ReadUint16LengthPrefixed_spec.
      rewrite <- (app_nil_r (encode_all enc_sct ws)) at 2.
      apply (read_prefixed_app 2); [lia|exact Hl]. }
    apply bind_Ok. exists tt. split; [by rewrite check_that_Ok, Empty_spec|].
    apply (while_loop_Ok wf_sct enc_sct sct_of _ _ Empty_spec enc_sct_not_nil read_sct_Ok);
      [apply blen_pos_fuel|by exists ws].
Qed.

Lemma EmbeddedSCTs_fails cert :
  fails_with (fun e => errors_Is e "upki: malformed SCT extension" = true) (EmbeddedSCTs cert).
Proof.
  unfold EmbeddedSCTs. destruct (match List.find _ _ with Some _ => _ | None => _ end); [|done].
  apply fails_bind; [by apply fails_or_err|intros [inner outer] _].
  apply fails_bind; [by apply fails_check|intros _ _].
  apply fails_bind; [by apply fails_or_err|intros [lst inner'] _].
  apply fails_bind; [by apply fails_check|intros _ _].
  eapply (while_loop_fails wf_sct enc_sct sct_of _ _ enc_sct_not_nil read_sct_Ok);
    [apply blen_pos_fuel|apply read_sct_fails].
Qed.

Lemma blen_der tag c : blen c < blen (der tag c).
Proof. unfold der, blen. cbn [length]. rewrite length_app. lia. Qed.
Lemma RawSerial_Ok cert serial :
  blen (RawTBSCertificate cert) < 2 ^ 31 ->
  RawSerial cert = Ok serial <->
  exists v rest trailing, RawTBSCertificate cert = enc_tbs v serial rest ++ trailing.
Proof.
  intros Hlen. unfold RawSerial.
  rewrite asn1_SEQUENCE_spec, asn1_INTEGER_spec, asn1_Tag0_spec. split.
  - intros H. apply bind_pair_Ok in H as (inner & trailing & E1 & H).
    apply bind_Ok in H as (inner' & E2 & H). apply bind_pair_Ok in H as (ser & rest & E3 & H).
    injection H as ->. apply or_err_Ok, ReadASN1_sound in E1 as ->; [|lia].
    apply or_err_Ok, ReadASN1_sound in E3 as ->; [|lia].
    destruct (PeekASN1Tag 160 inner).
    + apply bind_pair_Ok in E2 as (c & inner2 & E2 & H). injection H as ->.
      apply or_err_Ok, ReadASN1_sound in E2 as ->; [|lia]. by exists (Some c), rest, trailing.
    + injection E2 as ->. by exists None, rest, trailing.
  - intros (v & rest & trailing & Htbs). rewrite Htbs in *. unfold enc_tbs in *.
    set (body := enc_version v ++ der 2 serial ++ rest) in *.
    pose proof (blen_der 48 body) as H1.
    assert (blen (der 2 serial) <= blen body /\ blen (enc_version v) <= blen body) as [H2 H3]
      by (unfold body, blen; rewrite !length_app; lia).
    assert (blen (der 48 body ++ trailing) = blen (der 48 body) + blen trailing) as H4
      by (unfold blen; rewrite length_app; lia).
    assert (0 <= blen trailing) by (unfold blen; lia). pose proof (blen_der 2 serial) as H5.
    apply bind_pair_Ok. eexists _, _. split.
    { apply or_err_Ok. apply ReadASN1_complete; [lia|done|lia]. }
    apply bind_Ok. exists (der 2 serial ++ rest). split.
    + rewrite PeekASN1Tag_spec by lia. unfold body. destruct v as [c|]; cbn [enc_version] in *.
      * change (der 160 c) with (byte_of_Z 160 :: der_length (blen c) ++ c) at 1.
        cbn [app]. rewrite byte_val_of_Z. cbn [Z.modulo Z.eqb]. rewrite Z.eqb_refl.
        apply bind_pair_Ok. eexists _, _. split; [|done].
        apply or_err_Ok. pose proof (blen_der 160 c). apply ReadASN1_complete; [lia|done|lia].
      * unfold der at 1. cbn [app]. rewrite byte_val_of_Z. done.
    + apply bind_pair_Ok. eexists _, _. split; [|done].
      apply or_err_Ok. apply ReadASN1_complete; [lia|done|lia].
Qed.

(** ** Properties *)

(** C24. With the extension present, [EmbeddedSCTs] succeeds exactly on the DER OCTET
    STRINGs of a 16-bit-prefixed list of version 1 SCTs (nothing before, between or
    after), returning each SCT's log id and timestamp in order; every failure is
    ErrMalformedSCTExtension, and the loop terminates without a panic. *)
Theorem EmbeddedSCTs_grammar (cert : Certificate) (raw : bytes) (out : list SCT) :
  sct_extension cert = Some raw ->
  (EmbeddedSCTs cert = Ok out <->
     exists ws, Forall wf_sct ws /\ blen (encode_all enc_sct ws) < 65536
                /\ raw = enc_sct_list ws /\ out = map sct_of ws)
  /\ fails_with (fun e => errors_Is e "upki: malformed SCT extension" = true) (EmbeddedSCTs cert).
Proof. intros Hraw. split; [by apply EmbeddedSCTs_Ok|apply EmbeddedSCTs_fails]. Qed.

(** [EmbeddedSCTs] reads only the first extension with the SCT OID, and a
    certificate whose first such extension is absent or has a nil value has no SCTs
    and no error. *)
Theorem EmbeddedSCTs_absent (cert : Certificate) :
  sct_extension cert = None -> EmbeddedSCTs cert = Ok [].
Proof. intros H. unfold EmbeddedSCTs. fold (sct_extension cert). by rewrite H. Qed.

(** C25. [RawSerial] returns the contents octets of the serialNumber INTEGER exactly
    as encoded (a leading sign octet included): it succeeds with [serial] iff the
    TBSCertificate starts with a SEQUENCE whose optional [0] version is followed by
    an INTEGER with those contents, whatever follows. *)
Theorem RawSerial_verbatim (cert : Certificate) (serial : bytes) :
  blen (RawTBSCertificate cert) < 2 ^ 31 ->
  RawSerial cert = Ok serial <->
  exists v rest trailing, RawTBSCertificate cert = enc_tbs v serial rest ++ trailing.
Proof. apply RawSerial_Ok. Qed.

End Grammar.

(** ** Witnesses *)
Definition sample_wire_sct : wire_sct :=
  mkWireSct (replicate 32 Init.Byte.x0a) 150 [] [Init.Byte.x04; Init.Byte.x03].

Lemma sample_wire_sct_wf : wf_sct sample_wire_sct.
Proof. constructor; vm_compute; (done || (split; done)). Defined.

Definition sample_cert : Certificate :=
  mkCertificate
    [mkExtension [2; 5; 29; 15] (Some []);
     mkExtension embeddedSCTOID (Some (enc_sct_list [sample_wire_sct; sample_wire_sct]))]
    (enc_tbs (Some [Init.Byte.x02]) [Init.Byte.x00; Init.Byte.xff] [Init.Byte.x30])
    (go_string "spki").

Lemma EmbeddedSCTs_grammar_witness :
  EmbeddedSCTs sample_cert = Ok [mkSCT (replicate 32 Init.Byte.x0a) 150; mkSCT (replicate 32 Init.Byte.x0a) 150].
Proof.
  apply (proj1 (EmbeddedSCTs_grammar sample_cert (enc_sct_list [sample_wire_sct; sample_wire_sct]) _ eq_refl)).
  exists [sample_wire_sct; sample_wire_sct].
  split; [repeat constructor; apply sample_wire_sct_wf|]. split; [vm_compute; reflexivity|]. by split.
Defined.

Lemma EmbeddedSCTs_absent_witness :
  EmbeddedSCTs (mkCertificate [mkExtension embeddedSCTOID None] [] []) = Ok [].
Proof. apply EmbeddedSCTs_absent. reflexivity. Defined.

Lemma RawSerial_verbatim_witness : RawSerial sample_cert = Ok [Init.Byte.x00; Init.Byte.xff].
Proof.
  apply (RawSerial_verbatim (L := cryptobyte_ref_laws)); [vm_compute; reflexivity|].
  exists (Some [Init.Byte.x02]), [Init.Byte.x30], []. reflexivity.
Defined.
