(* ===== verification/Checker.v ===== *)
(** * The revocation checker ([upki/check.go])

    [Checker] with [NewCheckerWith], [Check], [checkOnce], [reopenIndex], [Close],
    the filter queries and the package function [Check], run by one goroutine; the
    interleavings are in [CheckerConc].  The openers are interfaces the caller
    supplies: what a call returns may depend on every call made before it. *)
From stdpp Require Import pretty.
From S2P Require Import Prelude Codec Cryptobyte GoIO UpkiIndex Clubcard CrliteParser Sha256 Crlite Sct.

(** ** The outside world

    The calls made through the interfaces, oldest first.  The handle of a successful
    open is its position in the list. *)
Inductive event :=
  | IndexOpened (ok : bool)
  | FilterOpened (filename : bytes) (ok : bool)
  | Closed (handle : nat).
Notation World := (list event).

(** An [IndexReader]: its [ReadAt] half and what its [Close] returns. *)
Record IndexReader := mkIndexReader { ir_reader : ReaderAt; ir_close : option error }.

(** An [io.ReadCloser], consumed once: the outcomes of its successive [Read]s; past
    the end of the list it reports [io.EOF].  Its [Close] error is never looked at. *)
Record ReadCloser := mkReadCloser { rc_reads : list (bytes * option error) }.

Class Openers := {
  OpenIndex : World -> IndexReader + error;
  Open : World -> bytes -> ReadCloser + error
}.

(** [io.ReadAll] *)
Fixpoint ReadAll (reads : list (bytes * option error)) (have : bytes) : result bytes :=
  match reads with
  | [] => Ok have
  | (b, None) :: reads => ReadAll reads (have ++ b)
  | (b, Some e) :: _ => if is_EOF e then Ok (have ++ b) else Err e
  end.

(** ** Data *)
Inductive Status := StatusNotCovered | StatusRevoked | StatusNotRevoked.
#[export] Instance Status_eq_dec : EqDecision Status.
Proof. solve_decision. Defined.

Definition Status_int (s : Status) : Z :=
  match s with StatusNotCovered => 0 | StatusRevoked => 1 | StatusNotRevoked => 2 end.
Definition Status_name : bytes := go_string "NotCoveredRevokedNotRevoked".
Definition Status_index : list Z := [0; 10; 17; 27].
Definition Status_String (i : Z) : result bytes := stringer Status_name Status_index i.

(** A [*internal.Index]: the address, which is all that pointer comparison sees,
    and the object. *)
Record IndexRef := mkRef { ref_addr : nat; ref_index : Index }.

(** The field the operations change; the openers are a parameter. *)
Record Checker := mkChecker { c_idx : option IndexRef }.

Definition maxIndexReopens : Z := 2.
Definition errCheckerClosed : error := Sentinel "upki: checker is closed".
Definition ErrInconsistentIndex : error :=
  Sentinel "upki: index and filters disagree: no selected filter covers the leaf's SCTs".
Definition ErrChainTooShort : error :=
  Sentinel "upki: chain must contain at least 2 certificates (leaf + issuer)".

(** The local variables of [checkOnce]. *)
Record scan := mkScan {
  notRevoked : bool;
  queried : Z;
  notCovered : Z;
  seen : gset bytes
}.
Definition scan0 : scan := mkScan false 0 0 ∅.

(** ** Operations *)
Section Operations.
Context {C : Cryptobyte} {M : MapRange} {AP : AllocPolicy} {SS : SpanSort} {Op : Openers}.

(** The index object is new at every call: its address is that of its reader. *)
Definition openIndex (w : World) : World * result IndexRef :=
  match OpenIndex w with
  | inr err => (w ++ [IndexOpened false], Err (Errorf "upki: opening index: %w" [AErr err]))
  | inl r =>
      let h := length w in
      let w := w ++ [IndexOpened true] in
      match NewIndexFromReader (ir_reader r) (Some (mkCloser h (ir_close r))) with
      | Ok idx => (w, Ok (mkRef h idx))
      | Err err => (w ++ [Closed h], Err err)
      | Panic => (w, Panic)
      | OutOfFuel => (w, OutOfFuel)
      end
  end.

Definition NewCheckerWith (w : World) : World * result Checker :=
  let '(w, r) := openIndex w in (w, idx ← r; Ok (mkChecker (Some idx))).

(** [idx.Close()] on an index object, seen from outside. *)
Definition close_index (r : IndexRef) (w : World) : World * option error :=
  let '(err, _, handles) := Index_Close (ref_index r) in (w ++ map Closed handles, err).

Definition Close (c : Checker) (w : World) : World * Checker * option error :=
  match c_idx c with
  | None => (w, c, None)
  | Some r => let '(w, err) := close_index r w in (w, mkChecker None, err)
  end.

Definition readFilter (filename : bytes) (w : World) : World * result bytes :=
  match Open w filename with
  | inr err => (w ++ [FilterOpened filename false], Err err)
  | inl rc => (w ++ [FilterOpened filename true; Closed (length w)], ReadAll (rc_reads rc) [])
  end.

Definition queryFilter (filename : bytes) (key : LookupKey) (timestamps : list LogTimestamp)
    (w : World) : World * result Crlite.Status :=
  let '(w, r) := readFilter filename w in
  (w,
   filterBytes ← wrap_err (fun err => Errorf "upki: reading filter %s: %w" [ABytes filename; AErr err]) r;
   filter ← wrap_err (fun err => Errorf "upki: parsing filter %s: %w" [ABytes filename; AErr err])
              (FromBytes filterBytes);
   RevocationFilter_Contains filter key timestamps).

(** What one turn of a loop of [checkOnce] does: continue with the local variables,
    or return a status and an error. *)
Notation turn := (World * (scan + result (Status * option error)))%type.

(** The body of the inner loop. *)
Definition query_one (key : LookupKey) (timestamps : list LogTimestamp) (filename : bytes)
    (w : World) (st : scan) : turn :=
  if decide (filename ∈ seen st) then (w, inl st) else
  let seen' := {[filename]} ∪ seen st in
  let '(w, r) := queryFilter filename key timestamps w in
  (w, match r with
      | Err err => inr (Ok (StatusNotCovered, Some err))
      | Panic => inr Panic
      | OutOfFuel => inr OutOfFuel
      | Ok Crlite.StatusRevoked => inr (Ok (StatusRevoked, None))
      | Ok Crlite.StatusGood => inl (mkScan true (queried st + 1) (notCovered st) seen')
      | Ok Crlite.StatusNotCovered =>
          inl (mkScan (notRevoked st) (queried st + 1) (notCovered st + 1) seen')
      | Ok Crlite.StatusNotEnrolled =>
          inl (mkScan (notRevoked st) (queried st + 1) (notCovered st) seen')
      end).

Fixpoint query_all (key : LookupKey) (timestamps : list LogTimestamp) (filenames : list bytes)
    (w : World) (st : scan) : turn :=
  match filenames with
  | [] => (w, inl st)
  | f :: fs =>
      match query_one key timestamps f w st with
      | (w, inl st) => query_all key timestamps fs w st
      | r => r
      end
  end.

Definition lookup_sct (idx : Index) (s : SCT) : result (list bytes) :=
  wrap_err (fun err => Errorf "upki: index lookup: %w" [AErr err])
    (Lookup idx (sct_LogID s) (sct_Timestamp s)).

(** The outer loop. *)
Fixpoint scan_scts (idx : Index) (key : LookupKey) (timestamps : list LogTimestamp)
    (scts : list SCT) (w : World) (st : scan) : turn :=
  match scts with
  | [] => (w, inl st)
  | s :: rest =>
      match lookup_sct idx s with
      | Ok filenames =>
          match query_all key timestamps filenames w st with
          | (w, inl st) => scan_scts idx key timestamps rest w st
          | r => r
          end
      | Err err => (w, inr (Ok (StatusNotCovered, Some err)))
      | Panic => (w, inr Panic)
      | OutOfFuel => (w, inr OutOfFuel)
      end
  end.

(** What follows the loops. *)
Definition conclude (st : scan) : Status * option error :=
  if notRevoked st then (StatusNotRevoked, None) else
  if (0 <? queried st) && (notCovered st =? queried st)
  then (StatusNotCovered, Some ErrInconsistentIndex)
  else (StatusNotCovered, None).

Definition checkOnce (c : Checker) (key : LookupKey) (scts : list SCT)
    (timestamps : list LogTimestamp) (w : World)
    : World * result (Status * option IndexRef * option error) :=
  match c_idx c with
  | None => (w, Ok (StatusNotCovered, None, Some errCheckerClosed))
  | Some r =>
      let '(w, t) := scan_scts (ref_index r) key timestamps scts w scan0 in
      (w, '(status, err) ← match t with inl st => Ok (conclude st) | inr res => res end;
          Ok (status, Some r, err))
  end.

(** [c.idx != stale], a comparison of pointers. *)
Definition same_ref (a b : option IndexRef) : bool :=
  bool_decide (ref_addr <$> a = ref_addr <$> b).

Definition reopenIndex (c : Checker) (stale : option IndexRef) (w : World)
    : World * Checker * result unit :=
  if negb (same_ref (c_idx c) stale) then (w, c, Ok tt) else
  match openIndex w with
  | (w, Ok idx) =>
      match c_idx c with
      | None => (w, c, Panic)
      | Some old => let '(w, _) := close_index old w in (w, mkChecker (Some idx), Ok tt)
      end
  | (w, Err err) => (w, c, Err err)
  | (w, Panic) => (w, c, Panic)
  | (w, OutOfFuel) => (w, c, OutOfFuel)
  end.

(** Whether [Check] returns what a pass returned instead of reopening the index. *)
Definition surfaces (err : option error) (reopens : Z) : bool :=
  match err with
  | None => true
  | Some e => negb (errors_Is e "file does not exist") || (reopens =? maxIndexReopens)
  end.

(** The retry loop of [Check]. *)
Fixpoint check_loop (fuel : nat) (reopens : Z) (c : Checker) (key : LookupKey)
    (scts : list SCT) (timestamps : list LogTimestamp) (w : World)
    : World * Checker * result (Status * option error) :=
  match fuel with
  | O => (w, c, OutOfFuel)
  | S fuel =>
      let '(w, r) := checkOnce c key scts timestamps w in
      match r with
      | Ok (status, idx, err) =>
          if surfaces err reopens then (w, c, Ok (status, err)) else
          match reopenIndex c idx w with
          | (w, c, Ok _) => check_loop fuel (reopens + 1) c key scts timestamps w
          | (w, c, Err rerr) =>
              (w, c, Ok (StatusNotCovered,
                 Some (Errorf "upki: reopening superseded index: %w" [AErr rerr])))
          | (w, c, Panic) => (w, c, Panic)
          | (w, c, OutOfFuel) => (w, c, OutOfFuel)
          end
      | Err e => (w, c, Err e)
      | Panic => (w, c, Panic)
      | OutOfFuel => (w, c, OutOfFuel)
      end
  end.

Definition check_key (leaf issuer : Certificate) (serial : bytes) : LookupKey :=
  NewKey (sha256_Sum256 (RawSubjectPublicKeyInfo issuer)) serial.
Definition check_timestamps (scts : list SCT) : list LogTimestamp :=
  map (fun s => mkLogTimestamp (sct_LogID s) (sct_Timestamp s)) scts.

(** The statements of [Check] before the loop: an early return, or the loop's inputs. *)
Definition check_inputs (chain : list Certificate)
    : (Status * option error) + result (LookupKey * list SCT) :=
  match chain with
  | leaf :: issuer :: _ =>
      match EmbeddedSCTs leaf with
      | Err err => inl (StatusNotCovered, Some (Errorf "upki: extracting SCTs: %w" [AErr err]))
      | Panic => inr Panic
      | OutOfFuel => inr OutOfFuel
      | Ok [] => inl (StatusNotCovered, None)
      | Ok scts =>
          match RawSerial leaf with
          | Err err => inl (StatusNotCovered, Some (Errorf "upki: extracting serial: %w" [AErr err]))
          | Panic => inr Panic
          | OutOfFuel => inr OutOfFuel
          | Ok serial => inr (Ok (check_key leaf issuer serial, scts))
          end
      end
  | _ => inl (StatusNotCovered, Some ErrChainTooShort)
  end.

Definition Checker_Check (c : Checker) (chain : list Certificate) (w : World)
    : World * Checker * result (Status * option error) :=
  match check_inputs chain with
  | inl ret => (w, c, Ok ret)
  | inr (Ok (key, scts)) => check_loop 3 0 c key scts (check_timestamps scts) w
  | inr (Err e) => (w, c, Err e)
  | inr Panic => (w, c, Panic)
  | inr OutOfFuel => (w, c, OutOfFuel)
  end.

(** The package function [Check], its deferred [Close] included. *)
Definition Check (chain : list Certificate) (w : World)
    : World * result (Status * option error) :=
  match NewCheckerWith w with
  | (w, Err err) => (w, Ok (StatusNotCovered, Some err))
  | (w, Panic) => (w, Panic)
  | (w, OutOfFuel) => (w, OutOfFuel)
  | (w, Ok c) =>
      let '(w, c, r) := Checker_Check c chain w in
      let '(w, _, _) := Close c w in (w, r)
  end.

End Operations.

(** ** Specification *)

(** The handles open after the calls [w], numbered from [n], given those open before;
    [None] if a handle was closed that was not open. *)
Fixpoint open_after (w : World) (n : nat) (open : gset nat) : option (gset nat) :=
  match w with
  | [] => Some open
  | IndexOpened true :: w => open_after w (S n) ({[n]} ∪ open)
  | FilterOpened _ true :: w => open_after w (S n) ({[n]} ∪ open)
  | Closed h :: w => if decide (h ∈ open) then open_after w (S n) (open ∖ {[h]}) else None
  | IndexOpened false :: w => open_after w (S n) open
  | FilterOpened _ false :: w => open_after w (S n) open
  end.
Definition live (w : World) : option (gset nat) := open_after w 0 ∅.

(** The handle a checker owns. *)
Definition owns (c : Checker) : gset nat :=
  match c_idx c with Some r => {[ref_addr r]} | None => ∅ end.

(** The index object of a reference is well formed and owns the reader it came with. *)
Record wf_ref (r : IndexRef) : Prop := {
  wfr_index : UpkiIndex.wf_index (ref_index r);
  wfr_closer : exists err, closer (ref_index r) = Some (mkCloser (ref_addr r) err)
}.
Definition wf_checker (c : Checker) : Prop := forall r, c_idx c = Some r -> wf_ref r.

(** The answer of a check whose covering filters answered [answers]. *)
Definition verdict (answers : list Crlite.Status) : Status * option error :=
  if decide (Crlite.StatusRevoked ∈ answers) then (StatusRevoked, None) else
  if decide (Crlite.StatusGood ∈ answers) then (StatusNotRevoked, None) else
  if decide (answers <> [] /\ Forall (eq Crlite.StatusNotCovered) answers)
  then (StatusNotCovered, Some ErrInconsistentIndex)
  else (StatusNotCovered, None).

(** The index selects the filter [name] for one of the SCTs. *)
Definition selected (idx : Index) (scts : list SCT) (name : bytes) : Prop :=
  exists s names, s ∈ scts /\ lookup_sct idx s = Ok names /\ name ∈ names.

Section Asked.
Context {C : Cryptobyte} {M : MapRange} {Op : Openers}.

(** [asked key ts w qs w']: from the world [w], the filters of [qs] were queried in
    order, each giving the answer next to it, and the world is then [w']. *)
Inductive asked (key : LookupKey) (ts : list LogTimestamp) (w : World)
    : list (bytes * Crlite.Status) -> World -> Prop :=
  | asked_nil : asked key ts w [] w
  | asked_snoc qs w1 w2 name a :
      asked key ts w qs w1 -> queryFilter name key ts w1 = (w2, Ok a) ->
      asked key ts w (qs ++ [(name, a)]) w2.
End Asked.

(** ** Lemmas on handles *)
Lemma open_after_app w1 w2 n o :
  open_after (w1 ++ w2) n o = o' ← open_after w1 n o; open_after w2 (n + length w1) o'.
Proof.
  revert n o. induction w1 as [|e w1 IH]; intros n o; simpl; [by rewrite Nat.add_0_r|].
  destruct e as [[]|? []|h]; try (rewrite IH, Nat.add_succ_r; done).
  destruct (decide _); [by rewrite IH, Nat.add_succ_r|done].
Qed.

Lemma live_app w es o :
  live w = Some o -> live (w ++ es) = open_after es (length w) o.
Proof. intros H. unfold live in *. by rewrite open_after_app, H. Qed.

Lemma open_after_lt w n o o' h :
  open_after w n o = Some o' -> (forall k, k ∈ o -> (k < n)%nat) -> h ∈ o' -> (h < n + length w)%nat.
Proof.
  revert n o. induction w as [|e w IH]; intros n o; simpl.
  - intros [= <-] Ho Hh. specialize (Ho h Hh). lia.
  - intros H Ho Hh. destruct e as [[]|? []|k]; try case_decide; try done;
      (apply IH in H; [lia| |done]); intros k' Hk'; try (specialize (Ho k'); set_solver by lia).
    all: apply elem_of_union in Hk' as [->%elem_of_singleton|Hk']; [lia|]; specialize (Ho k' Hk'); lia.
Qed.

Lemma live_lt w o h : live w = Some o -> h ∈ o -> (h < length w)%nat.
Proof. intros H Hh. eapply (open_after_lt w 0) in H; [|set_solver|done]. lia. Qed.

Lemma live_fresh w o : live w = Some o -> length w ∉ o.
Proof. intros H Hin. pose proof (live_lt _ _ _ H Hin). lia. Qed.

Lemma live_closed w o h :
  live w = Some o -> h ∈ o -> live (w ++ [Closed h]) = Some (o ∖ {[h]}).
Proof. intros H Hh. rewrite (live_app _ _ _ H). simpl. by destruct (decide (h ∈ o)). Qed.

Lemma live_failed w o name :
  live w = Some o ->
  live (w ++ [IndexOpened false]) = Some o /\ live (w ++ [FilterOpened name false]) = Some o.
Proof. intros H. by rewrite !(live_app _ _ _ H). Qed.

Lemma live_opened w o :
  live w = Some o -> live (w ++ [IndexOpened true]) = Some ({[length w]} ∪ o).
Proof. intros H. by rewrite (live_app _ _ _ H). Qed.

Lemma live_read w o name :
  live w = Some o -> live (w ++ [FilterOpened name true; Closed (length w)]) = Some o.
Proof.
  intros H. rewrite (live_app _ _ _ H). simpl. pose proof (live_fresh _ _ H).
  destruct (decide _) as [_|Hn]; [|set_solver]. f_equal. set_solver.
Qed.

(** The calls from [w] to [w'] leave the open handles as they were. *)
Definition quiet (w w' : World) : Prop := forall o, live w = Some o -> live w' = Some o.
#[export] Instance quiet_preorder : PreOrder quiet.
Proof. split; [by intros w o|intros w1 w2 w3 H1 H2 o Ho; auto]. Qed.

(** ** Lemmas on the operations *)
Section Lemmas.
Context {C : Cryptobyte} {L : CryptobyteLaws C} {M : MapRange} {AP : AllocPolicy} {SS : SpanSort}
  {Op : Openers}.

Lemma FromBytes_total data : fails_with (fun _ => True) (FromBytes data).
Proof.
  unfold FromBytes.
  apply fails_bind; [by apply fails_or_err|intros [v s] _].
  apply fails_bind; [by apply fails_or_err|intros [r0 s1] _].
  apply fails_bind; [by apply fails_check|intros _ _].
  apply fails_bind; [by apply fails_check|intros _ _].
  apply fails_bind; [by eapply fails_weaken, readCoverage_fails|intros [cov s2] _].
  apply fails_bind; [by eapply fails_weaken, readFilter_fails|intros [f s3] _].
  fails.
Qed.

Lemma readFilter_quiet name w : quiet w (readFilter name w).1.
Proof.
  intros o Ho. unfold readFilter. destruct (Open w name); simpl; [by apply live_read|].
  by apply (live_failed _ _ name).
Qed.

Lemma queryFilter_world name key ts w :
  (queryFilter name key ts w).1 = (readFilter name w).1.
Proof. unfold queryFilter. by destruct (readFilter name w). Qed.

Lemma queryFilter_quiet name key ts w : quiet w (queryFilter name key ts w).1.
Proof. rewrite queryFilter_world. apply readFilter_quiet. Qed.

Lemma ReadAll_total reads have : fails_with (fun _ => True) (ReadAll reads have).
Proof.
  revert have. induction reads as [|[b [e|]] reads IH]; intros have; simpl; [done| |auto].
  by destruct (is_EOF e).
Qed.

Lemma queryFilter_total name key ts w :
  fails_with (fun _ => True) (queryFilter name key ts w).2.
Proof.
  unfold queryFilter.
  assert (fails_with (fun _ => True) (readFilter name w).2) as Hr.
  { unfold readFilter. destruct (Open w name); simpl; [apply ReadAll_total|done]. }
  destruct (readFilter name w) as [w' r]. simpl.
  apply fails_bind; [by apply fails_wrap|intros data _].
  apply fails_bind; [apply fails_wrap, FromBytes_total|intros rf Hrf].
  apply wrap_err_Ok in Hrf. rewrite RevocationFilter_Contains_eq; [done|].
  by destruct (FromBytes_wf_filter _ _ Hrf).
Qed.

(** ** One pass *)
Section Pass.
Context (key : LookupKey) (ts : list LogTimestamp) (sel : bytes -> Prop).

(** What is known of the queries made and the world after them, kept by one more. *)
Context (Q : list (bytes * Crlite.Status) -> World -> Prop).
Hypothesis Q_snoc : forall qs w n a w', Q qs w -> sel n ->
  queryFilter n key ts w = (w', Ok a) -> Q (qs ++ [(n, a)]) w'.

(** The local variables of [checkOnce] after the queries [qs]. *)
Record scan_inv (qs : list (bytes * Crlite.Status)) (w : World) (st : scan) : Prop := {
  si_asked : Q qs w;
  si_nodup : NoDup qs.*1;
  si_seen : seen st = list_to_set qs.*1;
  si_sel : forall n, n ∈ qs.*1 -> sel n;
  si_queried : queried st = blen qs;
  si_notCovered : notCovered st = blen (filter (eq Crlite.StatusNotCovered) qs.*2);
  si_notRevoked : notRevoked st = bool_decide (Crlite.StatusGood ∈ qs.*2);
  si_revoked : Crlite.StatusRevoked ∉ qs.*2
}.

(** How a pass ends early at a filter: it revokes, or it cannot be queried. *)
Definition stopped (w : World) (res : result (Status * option error)) : Prop :=
  exists qs w1 st n, scan_inv qs w1 st /\ sel n /\ (n ∉ qs.*1) /\
    ((queryFilter n key ts w1 = (w, Ok Crlite.StatusRevoked) /\ res = Ok (StatusRevoked, None))
     \/ exists e, queryFilter n key ts w1 = (w, Err e) /\ res = Ok (StatusNotCovered, Some e)).

Lemma scan_inv_init w : Q [] w -> scan_inv [] w scan0.
Proof.
  intros HQ. constructor; try done; [constructor|..].
  - intros n Hn. by apply elem_of_nil in Hn.
  - apply not_elem_of_nil.
Qed.

Lemma scan_inv_snoc qs w st n a w' :
  scan_inv qs w st -> n ∉ qs.*1 -> sel n -> queryFilter n key ts w = (w', Ok a) ->
  a <> Crlite.StatusRevoked ->
  scan_inv (qs ++ [(n, a)]) w'
    (mkScan (notRevoked st || bool_decide (a = Crlite.StatusGood)) (queried st + 1)
       (notCovered st + (if decide (a = Crlite.StatusNotCovered) then 1 else 0)) ({[n]} ∪ seen st)).
Proof.
  intros [H1 H2 H3 H4 H5 H6 H7 H8] Hn Hs Hq Ha. constructor; simpl; rewrite ?fmap_app; simpl.
  - by eapply Q_snoc.
  - apply NoDup_app. split; [done|]. split; [|apply NoDup_singleton].
    intros x Hx ->%list_elem_of_singleton. done.
  - rewrite H3, list_to_set_app_L. simpl. set_solver.
  - intros m [Hm| ->%list_elem_of_singleton]%elem_of_app; [auto|done].
  - rewrite H5. len.
  - rewrite H6, filter_app. cbn [filter list_filter].
    destruct (decide (Crlite.StatusNotCovered = a)), (decide (a = Crlite.StatusNotCovered));
      try congruence; len.
  - rewrite H7. apply eq_true_iff_eq.
    rewrite orb_true_iff, !bool_decide_eq_true, elem_of_app, list_elem_of_singleton. naive_solver.
  - rewrite elem_of_app, list_elem_of_singleton. intros [?|?]; [done|congruence].
Qed.

Lemma query_one_spec qs w st n :
  scan_inv qs w st -> sel n ->
  match query_one key ts n w st with
  | (w', inl st') => exists qs', scan_inv qs' w' st' /\ n ∈ qs'.*1 /\ qs.*1 ⊆ qs'.*1
  | (w', inr res) => stopped w' res
  end.
Proof.
  intros Hi Hs. unfold query_one. destruct (decide (n ∈ seen st)) as [Hin|Hin];
    rewrite (si_seen _ _ _ Hi), elem_of_list_to_set in Hin; [by exists qs|].
  pose proof (queryFilter_total n key ts w) as Ht.
  destruct (queryFilter n key ts w) as [w' [a|e| |]] eqn:Eq; simpl in Ht; [|..|done|done].
  - destruct (decide (a = Crlite.StatusRevoked)) as [->|Ha].
    { exists qs, w, st, n. do 3 (split; [done|]). by left. }
    pose proof (scan_inv_snoc _ _ _ _ _ _ Hi Hin Hs Eq Ha) as Hi'.
    assert (n ∈ (qs ++ [(n, a)]).*1 /\ qs.*1 ⊆ (qs ++ [(n, a)]).*1) as Hsub.
    { rewrite fmap_app. simpl. set_solver. }
    destruct a; simpl in Hi'; rewrite ?orb_true_r, ?orb_false_r, ?Z.add_0_r in Hi';
      try done; by eexists.
  - exists qs, w, st, n. do 3 (split; [done|]). right. by exists e.
Qed.

Lemma query_all_spec names qs w st :
  scan_inv qs w st -> (forall n, n ∈ names -> sel n) ->
  match query_all key ts names w st with
  | (w', inl st') => exists qs', scan_inv qs' w' st' /\ names ⊆ qs'.*1 /\ qs.*1 ⊆ qs'.*1
  | (w', inr res) => stopped w' res
  end.
Proof.
  revert qs w st. induction names as [|n names IH]; intros qs w st Hi Hs; simpl.
  { exists qs. split; [done|]. set_solver. }
  pose proof (query_one_spec qs w st n Hi ltac:(apply Hs; by left)) as H1.
  destruct (query_one key ts n w st) as [w1 [st1|res]]; [|done].
  destruct H1 as (qs1 & Hi1 & Hn1 & Hsub1).
  specialize (IH qs1 w1 st1 Hi1 ltac:(intros; apply Hs; by right)).
  destruct (query_all key ts names w1 st1) as [w2 [st2|res]]; [|done].
  destruct IH as (qs2 & Hi2 & Hn2 & Hsub2). exists qs2. split; [done|].
  split; [|set_solver]. intros m [->|Hm]%elem_of_cons; set_solver.
Qed.

End Pass.

Lemma asked_quiet key ts w qs w' : asked key ts w qs w' -> quiet w w'.
Proof.
  induction 1 as [|qs w1 w2 name a _ IH Hq]; [done|]. etrans; [exact IH|].
  change w2 with (w2, Ok a).1. rewrite <- Hq. apply queryFilter_quiet.
Qed.

(** A log id of an SCT the parser returned. *)
Definition wf_scts (scts : list SCT) : Prop := Forall (fun s => length (sct_LogID s) = 32%nat) scts.

Lemma lookup_sct_total idx s :
  UpkiIndex.wf_index idx -> length (sct_LogID s) = 32%nat ->
  fails_with (fun e => errors_Is e "upki: invalid index" = true) (lookup_sct idx s).
Proof.
  intros Hwf Hs. unfold lookup_sct. apply fails_wrap.
  eapply fails_weaken; [|by apply Lookup_fails]. intros e He. simpl. by rewrite He.
Qed.

(** How a pass ends early at an SCT: the index cannot be read. *)
Definition unreadable sel Q idx (scts : list SCT) (w : World)
    (res : result (Status * option error)) : Prop :=
  exists qs st s e, scan_inv sel Q qs w st /\ s ∈ scts /\ lookup_sct idx s = Err e
                    /\ res = Ok (StatusNotCovered, Some e).

Lemma scan_scts_spec key ts sel Q idx scts qs w st :
  (forall qs w n a w', Q qs w -> sel n -> queryFilter n key ts w = (w', Ok a) ->
     Q (qs ++ [(n, a)]) w') ->
  UpkiIndex.wf_index idx -> wf_scts scts ->
  scan_inv sel Q qs w st -> (forall n, selected idx scts n -> sel n) ->
  match scan_scts idx key ts scts w st with
  | (w', inl st') => exists qs', scan_inv sel Q qs' w' st' /\ qs.*1 ⊆ qs'.*1
      /\ (forall s, s ∈ scts -> exists names, lookup_sct idx s = Ok names /\ names ⊆ qs'.*1)
  | (w', inr res) => stopped key ts sel Q w' res \/ unreadable sel Q idx scts w' res
  end.
Proof.
  intros HQ Hwf Hs. revert qs w st. induction Hs as [|s scts Hid Hs IH]; intros qs w st Hi Hsel; simpl.
  { exists qs. split; [done|]. split; [done|]. intros s Hin. by apply elem_of_nil in Hin. }
  pose proof (lookup_sct_total idx s Hwf Hid) as Ht.
  destruct (lookup_sct idx s) as [names|e| |] eqn:El; simpl in Ht; [|..|done|done].
  2: { right. exists qs, st, s, e. split; [done|]. split; [by left|done]. }
  assert (forall n, n ∈ names -> sel n) as Hn.
  { intros n Hn. apply Hsel. exists s, names. split; [by left|done]. }
  pose proof (query_all_spec key ts sel Q HQ names qs w st Hi Hn) as H1.
  destruct (query_all key ts names w st) as [w1 [st1|res]]; [|by left].
  destruct H1 as (qs1 & Hi1 & Hn1 & Hsub1).
  assert (forall n, selected idx scts n -> sel n) as Hsel'.
  { intros n (s' & names' & Hin & Hl & Hn'). apply Hsel. exists s', names'. split; [by right|done]. }
  specialize (IH qs1 w1 st1 Hi1 Hsel').
  destruct (scan_scts idx key ts scts w1 st1) as [w2 [st2|res]].
  - destruct IH as (qs2 & Hi2 & Hsub2 & Hall). exists qs2. split; [done|]. split; [set_solver|].
    intros s' [->|Hs']%elem_of_cons; [|auto]. exists names. split; [done|]. set_solver.
  - destruct IH as [IH|(qs2 & st2 & s' & e & Hi2 & Hin & Hl & ->)]; [by left|right].
    exists qs2, st2, s', e. split; [done|]. split; [by right|done].
Qed.

Lemma filter_all (a : Crlite.Status) (l : list Crlite.Status) :
  blen (filter (eq a) l) = blen l <-> Forall (eq a) l.
Proof.
  induction l as [|b l IH]; [done|]. rewrite Forall_cons, <- IH.
  pose proof (length_filter (eq a) l) as Hle. rewrite filter_cons.
  unfold blen in *. destruct (decide (a = b)); rewrite ?length_cons; [|split; [lia|tauto]].
  split; [intros H; split; [done|lia]|intros [_ H]; lia].
Qed.

(** [conclude] computes the verdict. *)
Lemma conclude_verdict sel Q qs w st :
  scan_inv sel Q qs w st -> conclude st = verdict qs.*2.
Proof.
  intros [_ _ _ _ H5 H6 H7 H8]. unfold conclude, verdict. rewrite H7, H5, H6.
  destruct (decide (Crlite.StatusRevoked ∈ qs.*2)); [done|].
  unfold bool_decide. destruct (decide_rel _ _ _), (decide (Crlite.StatusGood ∈ qs.*2)); try done.
  assert (blen qs = blen qs.*2) as -> by len.
  destruct (Z.ltb_spec 0 (blen qs.*2)) as [Hl|Hl], (Z.eqb_spec (blen (filter (eq Crlite.StatusNotCovered) qs.*2)) (blen qs.*2)) as [Hf|Hf];
    simpl; destruct (decide _) as [[Hd1 Hd2]|Hd]; try done; exfalso.
  - apply Hd. split; [|by apply filter_all]. intros E. by rewrite E in Hl.
  - by apply Hf, filter_all.
  - destruct (qs.*2); [done|]. unfold blen in Hl. simpl in Hl. lia.
  - destruct (qs.*2); [done|]. unfold blen in Hl. simpl in Hl. lia.
Qed.

(** Every outcome of a pass over [scts]: the verdict of distinct selected filters,
    which are all of them unless one revokes; or the error of the first filter or
    SCT that cannot be read, nothing having revoked before it. *)
Inductive pass_result (key : LookupKey) (ts : list LogTimestamp) (idx : Index) (scts : list SCT)
    (w w' : World) : Status -> option error -> Prop :=
  | pass_verdict qs status err :
      asked key ts w qs w' -> NoDup qs.*1 -> (forall n, n ∈ qs.*1 -> selected idx scts n) ->
      (Crlite.StatusRevoked ∈ qs.*2
       \/ forall s, s ∈ scts -> exists names, lookup_sct idx s = Ok names /\ names ⊆ qs.*1) ->
      verdict qs.*2 = (status, err) ->
      pass_result key ts idx scts w w' status err
  | pass_filter_error qs w1 n e :
      asked key ts w qs w1 -> NoDup qs.*1 -> (forall n, n ∈ qs.*1 -> selected idx scts n) ->
      (Crlite.StatusRevoked ∉ qs.*2) -> selected idx scts n -> (n ∉ qs.*1) ->
      queryFilter n key ts w1 = (w', Err e) ->
      pass_result key ts idx scts w w' StatusNotCovered (Some e)
  | pass_lookup_error qs s e :
      asked key ts w qs w' -> NoDup qs.*1 -> (forall n, n ∈ qs.*1 -> selected idx scts n) ->
      (Crlite.StatusRevoked ∉ qs.*2) -> s ∈ scts -> lookup_sct idx s = Err e ->
      pass_result key ts idx scts w w' StatusNotCovered (Some e).

Lemma pass_result_quiet key ts idx scts w w' status err :
  pass_result key ts idx scts w w' status err -> quiet w w'.
Proof.
  destruct 1 as [qs ? ? Ha|qs w1 n e Ha _ _ _ _ _ Hq|qs s e Ha]; [by eapply asked_quiet| |by eapply asked_quiet].
  etrans; [by eapply asked_quiet|]. change w' with (w', @Err Crlite.Status e).1.
  rewrite <- Hq. apply queryFilter_quiet.
Qed.

Lemma verdict_error answers status err :
  verdict answers = (status, err) -> err <> None -> status = StatusNotCovered.
Proof. unfold verdict. repeat case_decide; naive_solver. Qed.

Lemma pass_result_error key ts idx scts w w' status err :
  pass_result key ts idx scts w w' status err -> err <> None -> status = StatusNotCovered.
Proof. destruct 1; [by eapply verdict_error|done|done]. Qed.

Lemma verdict_revoked answers : Crlite.StatusRevoked ∈ answers -> verdict answers = (StatusRevoked, None).
Proof. intros H. unfold verdict. by destruct (decide _). Qed.

Lemma scan_result key ts idx scts w :
  UpkiIndex.wf_index idx -> wf_scts scts ->
  exists status err,
    (let '(w', t) := scan_scts idx key ts scts w scan0 in
     (w', match t with inl st => Ok (conclude st) | inr res => res end))
    = ((scan_scts idx key ts scts w scan0).1, Ok (status, err))
    /\ pass_result key ts idx scts w (scan_scts idx key ts scts w scan0).1 status err.
Proof.
  intros Hwf Hs.
  pose proof (scan_scts_spec key ts (selected idx scts) (asked key ts w) idx scts [] w scan0
    (fun qs w1 n a w2 Ha _ Hq => asked_snoc key ts w qs w1 w2 n a Ha Hq) Hwf Hs
    (scan_inv_init _ _ _ (asked_nil key ts w)) (fun _ H => H)) as H.
  destruct (scan_scts idx key ts scts w scan0) as [w' [st|res]]; simpl.
  - destruct H as (qs & Hi & _ & Hall). destruct (conclude st) as [status err] eqn:Ec.
    exists status, err. split; [done|].
    apply (pass_verdict _ _ _ _ _ _ qs); try apply Hi; [by right|].
    by rewrite <- (conclude_verdict _ _ _ _ _ Hi).
  - destruct H as [(qs & w1 & st & n & Hi & Hsel & Hn & [[Hq ->]|(e & Hq & ->)])
                  |(qs & st & s & e & Hi & Hin & Hl & ->)]; eexists _, _; (split; [done|]).
    + assert (Crlite.StatusRevoked ∈ (qs ++ [(n, Crlite.StatusRevoked)]).*2) as Hr
        by (rewrite fmap_app; set_solver).
      apply (pass_verdict _ _ _ _ _ _ (qs ++ [(n, Crlite.StatusRevoked)])).
      * eapply asked_snoc; [apply Hi|done].
      * rewrite fmap_app. simpl. apply NoDup_app. split; [apply Hi|].
        split; [|apply NoDup_singleton]. by intros x Hx ->%list_elem_of_singleton.
      * rewrite fmap_app. intros m [Hm| ->%list_elem_of_singleton]%elem_of_app; [by apply Hi|done].
      * by left.
      * by apply verdict_revoked.
    + eapply pass_filter_error; [apply Hi|apply Hi|apply Hi|apply Hi|exact Hsel|exact Hn|exact Hq].
    + eapply pass_lookup_error; [apply Hi|apply Hi|apply Hi|apply Hi|exact Hin|exact Hl].
Qed.

Lemma checkOnce_spec c key scts ts w r :
  c_idx c = Some r -> UpkiIndex.wf_index (ref_index r) -> wf_scts scts ->
  exists w' status err, checkOnce c key scts ts w = (w', Ok (status, Some r, err))
    /\ pass_result key ts (ref_index r) scts w w' status err.
Proof.
  intros Hc Hwf Hs. unfold checkOnce. rewrite Hc.
  destruct (scan_result key ts _ scts w Hwf Hs) as (status & err & He & Hp).
  destruct (scan_scts _ _ _ _ _ _) as [w' t]. simpl in *. injection He as He.
  exists w', status, err. split; [|done]. by rewrite He.
Qed.

(** ** Handles *)

(** The operation takes a checker that owns its handle, besides the open handles [f],
    to one that owns its own, besides the same [f]. *)
Definition transfers (c : Checker) (w : World) (c' : Checker) (w' : World) : Prop :=
  forall f, live w = Some (owns c ∪ f) -> owns c ## f ->
  live w' = Some (owns c' ∪ f) /\ owns c' ## f.

Lemma owns_None : owns (mkChecker None) = ∅.
Proof. done. Qed.

Lemma transfers_quiet c w w' : quiet w w' -> transfers c w c w'.
Proof. intros H f Hl Hd. split; [by apply H|done]. Qed.

Lemma transfers_trans c1 w1 c2 w2 c3 w3 :
  transfers c1 w1 c2 w2 -> transfers c2 w2 c3 w3 -> transfers c1 w1 c3 w3.
Proof. intros H1 H2 f Hl Hd. destruct (H1 f Hl Hd). auto. Qed.

Lemma close_index_eq r w :
  wf_ref r -> exists err, close_index r w = (w ++ [Closed (ref_addr r)], err).
Proof. intros [_ [e He]]. unfold close_index, Index_Close. rewrite He. by exists e. Qed.

Lemma Close_spec c w : wf_checker c ->
  exists w' err, Close c w = (w', mkChecker None, err) /\ transfers c w (mkChecker None) w'.
Proof.
  intros Hwf. unfold Close. destruct c as [[r|]]; simpl.
  - destruct (close_index_eq r w (Hwf r eq_refl)) as [err ->]. eexists _, _. split; [done|].
    intros f Hl Hd. unfold owns in *. simpl in *. rewrite (live_closed _ _ _ Hl) by set_solver.
    split; [|set_solver]. f_equal. set_solver.
  - eexists _, _. split; [done|]. by apply transfers_quiet.
Qed.

(** Index readers keep the [io.ReaderAt] contract of making progress. *)
Definition progressing : Prop := forall w r, OpenIndex w = inl r -> progresses (ir_reader r).

Lemma openIndex_spec w :
  progressing ->
  match openIndex w with
  | (w', Ok r) => w' = w ++ [IndexOpened true] /\ ref_addr r = length w /\ wf_ref r
      /\ exists ir cl, OpenIndex w = inl ir /\ NewIndexFromReader (ir_reader ir) cl = Ok (ref_index r)
  | (w', Err _) => quiet w w'
  | _ => False
  end.
Proof.
  intros Hp. unfold openIndex. destruct (OpenIndex w) as [ir|err] eqn:Eo.
  - set (cl := Some _). pose proof (NewIndexFromReader_fails (ir_reader ir) cl (Hp _ _ Eo)) as Hf.
    destruct (NewIndexFromReader (ir_reader ir) cl) as [idx|e| |] eqn:En; simpl in Hf; [| |done|done].
    + destruct (NewIndexFromReader_sound _ _ _ En) as (Hwf & _ & Hc & _).
      split; [done|]. split; [done|]. split; [|by eexists _, _].
      constructor; [done|]. simpl. rewrite Hc. by eexists.
    + intros o Ho. pose proof (live_opened _ _ Ho) as H1. pose proof (live_fresh _ _ Ho).
      rewrite (live_closed _ _ _ H1) by set_solver. f_equal. set_solver.
  - intros o Ho. by apply (live_failed w o []).
Qed.

Lemma NewCheckerWith_spec w :
  progressing ->
  match NewCheckerWith w with
  | (w', Ok c) => wf_checker c /\ w' = w ++ [IndexOpened true]
      /\ (exists r ir cl, c = mkChecker (Some r) /\ OpenIndex w = inl ir
            /\ NewIndexFromReader (ir_reader ir) cl = Ok (ref_index r))
      /\ transfers (mkChecker None) w c w'
  | (w', Err _) => quiet w w'
  | _ => False
  end.
Proof.
  intros Hp. unfold NewCheckerWith. pose proof (openIndex_spec w Hp) as H.
  destruct (openIndex w) as [w' [r|e| |]]; go_simp; [|done..].
  destruct H as (-> & Haddr & Hwf & ir & cl & Ho & Hn).
  split; [by intros r' [= <-]|]. split; [done|]. split; [by eexists _, _, _|].
  intros f Hl Hd. unfold owns in *. simpl in *. rewrite (left_id_L ∅ (∪)) in Hl.
  rewrite (live_opened _ _ Hl), Haddr. pose proof (live_fresh _ _ Hl). split; [done|set_solver].
Qed.

Lemma reopenIndex_spec c r w :
  progressing -> c_idx c = Some r -> wf_ref r ->
  match reopenIndex c (Some r) w with
  | (w', c', Ok _) => wf_checker c' /\ transfers c w c' w'
      /\ exists r' ir cl, c' = mkChecker (Some r') /\ OpenIndex w = inl ir
           /\ NewIndexFromReader (ir_reader ir) cl = Ok (ref_index r')
  | (w', c', Err _) => c' = c /\ quiet w w'
  | _ => False
  end.
Proof.
  intros Hp Hc Hr. unfold reopenIndex, same_ref. rewrite Hc, bool_decide_eq_true_2 by done. simpl.
  pose proof (openIndex_spec w Hp) as H. destruct (openIndex w) as [w1 [r'|e| |]]; [|done..].
  destruct H as (-> & Haddr & Hwf & ir & cl & Ho & Hn).
  destruct (close_index_eq r (w ++ [IndexOpened true]) Hr) as [err ->].
  split; [by intros r'' [= <-]|]. split; [|by eexists _, _, _].
  intros f Hl Hd. unfold owns in *. rewrite Hc in *. simpl in *.
  pose proof (live_fresh _ _ Hl) as Hfresh. pose proof (live_opened _ _ Hl) as H1.
  rewrite (live_closed _ _ _ H1) by set_solver. rewrite Haddr. split; [|set_solver].
  f_equal. set_solver.
Qed.

Lemma check_loop_step fuel reopens c r key scts ts w w1 status err :
  checkOnce c key scts ts w = (w1, Ok (status, Some r, err)) ->
  check_loop (S fuel) reopens c key scts ts w
  = if surfaces err reopens then (w1, c, Ok (status, err)) else
    match reopenIndex c (Some r) w1 with
    | (w, c, Ok _) => check_loop fuel (reopens + 1) c key scts ts w
    | (w, c, Err rerr) =>
        (w, c, Ok (StatusNotCovered,
           Some (Errorf "upki: reopening superseded index: %w" [AErr rerr])))
    | (w, c, Panic) => (w, c, Panic)
    | (w, c, OutOfFuel) => (w, c, OutOfFuel)
    end.
Proof. intros H. cbn [check_loop]. by rewrite H. Qed.

Lemma check_loop_spec fuel reopens c key scts ts w :
  progressing -> wf_scts scts -> wf_checker c ->
  reopens + Z.of_nat fuel = maxIndexReopens + 1 -> (0 < fuel)%nat ->
  exists w' c' status err, check_loop fuel reopens c key scts ts w = (w', c', Ok (status, err))
    /\ wf_checker c' /\ transfers c w c' w' /\ (err <> None -> status = StatusNotCovered).
Proof.
  intros Hp Hs. revert reopens c w. induction fuel as [|fuel IH]; intros reopens c w Hwf Hf Hf0; [lia|].
  destruct (c_idx c) as [r|] eqn:Hc.
  2: { cbn [check_loop]. unfold checkOnce. rewrite Hc.
       exists w, c, StatusNotCovered, (Some errCheckerClosed).
       split; [done|]. split; [done|]. split; [by apply transfers_quiet|done]. }
  pose proof (Hwf r Hc) as Hr.
  destruct (checkOnce_spec c key scts ts w r Hc (wfr_index _ Hr) Hs) as (w1 & status & err & E & Hp1).
  rewrite (check_loop_step _ _ _ _ _ _ _ _ _ _ _ E).
  assert (transfers c w c w1) as Ht1 by (by eapply transfers_quiet, pass_result_quiet).
  destruct (surfaces err reopens) eqn:Es.
  { exists w1, c, status, err. split; [done|]. split; [done|]. split; [done|]. by eapply pass_result_error. }
  pose proof (reopenIndex_spec c r w1 Hp Hc Hr) as H2.
  destruct (reopenIndex c (Some r) w1) as [[w2 c2] [u|e| |]]; [| |done|done].
  - destruct H2 as (Hwf2 & Ht2 & _).
    unfold surfaces in Es. destruct err as [e|]; [|done].
    apply orb_false_iff in Es as [_ Es]. apply Z.eqb_neq in Es.
    destruct (IH (reopens + 1) c2 w2 Hwf2 ltac:(lia)) as (w3 & c3 & s3 & e3 & E3 & Hw3 & Ht3 & He3).
    { unfold maxIndexReopens in *. lia. }
    exists w3, c3, s3, e3. split; [done|]. split; [done|]. split; [|done].
    eapply transfers_trans; [exact Ht1|]. by eapply transfers_trans.
  - destruct H2 as [-> Hq]. eexists _, _, _, _. split; [done|]. split; [done|]. split; [|done].
    eapply transfers_trans; [exact Ht1|]. by apply transfers_quiet.
Qed.

Lemma EmbeddedSCTs_wf cert scts : EmbeddedSCTs cert = Ok scts -> wf_scts scts.
Proof.
  intros H. destruct (sct_extension cert) as [raw|] eqn:Hx.
  - destruct (proj1 (EmbeddedSCTs_Ok cert raw scts Hx) H) as (ws & HF & _ & _ & Hout). rewrite Hout.
    apply Forall_map. eapply Forall_impl; [exact HF|]. intros s Hs. apply Hs.
  - unfold EmbeddedSCTs in H. fold (sct_extension cert) in H. rewrite Hx in H.
    injection H as <-. constructor.
Qed.

Lemma RawSerial_total cert : fails_with (fun _ => True) (RawSerial cert).
Proof. unfold RawSerial. fails. Qed.

(** Every branch of the statements before the loop. *)
Lemma check_inputs_spec chain :
  match check_inputs chain with
  | inl (status, err) => status = StatusNotCovered
  | inr (Ok (key, scts)) => wf_scts scts /\ scts <> []
  | inr _ => False
  end.
Proof.
  unfold check_inputs. destruct chain as [|leaf [|issuer rest]]; [done..|].
  pose proof (EmbeddedSCTs_fails leaf) as Hf.
  destruct (EmbeddedSCTs leaf) as [scts|e| |] eqn:E; simpl in Hf; [|done..].
  destruct scts as [|s scts]; [done|]. pose proof (RawSerial_total leaf) as Hs.
  destruct (RawSerial leaf) as [serial|e| |]; simpl in Hs; [|done..].
  split; [by eapply EmbeddedSCTs_wf|done].
Qed.

Lemma Checker_Check_spec c chain w :
  progressing -> wf_checker c ->
  exists w' c' status err, Checker_Check c chain w = (w', c', Ok (status, err))
    /\ wf_checker c' /\ transfers c w c' w' /\ (err <> None -> status = StatusNotCovered).
Proof.
  intros Hp Hwf. unfold Checker_Check. pose proof (check_inputs_spec chain) as Hi.
  destruct (check_inputs chain) as [[status err]|[[key scts]|e| |]]; [| |done..].
  - exists w, c, status, err. split; [done|]. split; [done|]. split; [by apply transfers_quiet|done].
  - destruct Hi as [Hs _]. apply check_loop_spec; [done|done|done|reflexivity|lia].
Qed.

(** ** A cache that does not change

    From the world [w0] on, every open finds the index [content] and the filter
    files [files]. *)
Section Static.
Context (content : bytes) (files : bytes -> option bytes) (w0 : World).

Record static_cache : Prop := {
  sc_index w ir : w0 `prefix_of` w -> OpenIndex w = inl ir -> serves content (ir_reader ir);
  sc_files w name d : w0 `prefix_of` w -> files name = Some d ->
    exists rc, Open w name = inl rc /\ ReadAll (rc_reads rc) [] = Ok d
}.

(** The index held in [content], and the filter names it lists for an SCT. *)
Definition content_index : Index :=
  mkIndex (index_names content) (directory content) (num_logs content) (bytes_reader content) None.
Definition content_names (s : SCT) : result (list bytes) :=
  lookup_spec content_index content (sct_LogID s) (sct_Timestamp s).

(** The filters the cache holds for the SCTs. *)
Definition cached_filter (scts : list SCT) (rf : RevocationFilter) : Prop :=
  exists s names name d, s ∈ scts /\ content_names s = Ok names /\ name ∈ names
    /\ files name = Some d /\ FromBytes d = Ok rf.

(** The index and the files belong together: for these SCTs the index can be read
    and every file it lists is there and parses. *)
Definition consistent (scts : list SCT) : Prop :=
  forall s, s ∈ scts -> exists names, content_names s = Ok names
    /\ forall name, name ∈ names -> exists d rf, files name = Some d /\ FromBytes d = Ok rf.

(** The answer the cache gives: a revoking filter wins, then a conclusive one; when
    there are filters and none covers any of the SCTs the cache contradicts itself. *)
Record cache_answer (scts : list SCT) (key : LookupKey) (status : Status) (err : option error)
    : Prop := {
  ca_revoked : status = StatusRevoked <->
    exists rf, cached_filter scts rf
      /\ contains_spec rf key (check_timestamps scts) = Crlite.StatusRevoked;
  ca_notRevoked : status = StatusNotRevoked <->
    (forall rf, cached_filter scts rf ->
       contains_spec rf key (check_timestamps scts) <> Crlite.StatusRevoked)
    /\ exists rf, cached_filter scts rf
         /\ contains_spec rf key (check_timestamps scts) = Crlite.StatusGood;
  ca_inconsistent : err = Some ErrInconsistentIndex <->
    (exists rf, cached_filter scts rf)
    /\ forall rf, cached_filter scts rf -> ~ Exists (covers rf) (check_timestamps scts);
  ca_error : err = None \/ err = Some ErrInconsistentIndex
}.

Hypothesis Hstatic : static_cache.

Lemma static_query w name d rf key ts :
  w0 `prefix_of` w -> files name = Some d -> FromBytes d = Ok rf ->
  exists w', queryFilter name key ts w = (w', Ok (contains_spec rf key ts)).
Proof.
  intros Hw Hd Hrf. destruct (sc_files Hstatic w name d Hw Hd) as (rc & Ho & Hr). unfold queryFilter, readFilter. rewrite Ho, Hr. go_simp.
  rewrite Hrf. go_simp. eexists. do 2 f_equal. apply RevocationFilter_Contains_eq.
  by destruct (FromBytes_wf_filter _ _ Hrf).
Qed.

Lemma readFilter_prefix name w : w `prefix_of` (readFilter name w).1.
Proof. unfold readFilter. destruct (Open w name); simpl; by eexists. Qed.

Lemma asked_prefix key ts w qs w' : asked key ts w qs w' -> w `prefix_of` w'.
Proof.
  induction 1 as [|qs w1 w2 name a _ IH Hq]; [done|]. etrans; [exact IH|].
  change w2 with (w2, Ok a).1. rewrite <- Hq, queryFilter_world. apply readFilter_prefix.
Qed.

Context (scts : list SCT).
Hypothesis Hcons : consistent scts.
Hypothesis Hids : wf_scts scts.

Section Opened.
Context (idx : Index) (ir : IndexReader) (cl : option Closer).
Hypothesis Hserves : serves content (ir_reader ir).
Hypothesis Hidx : NewIndexFromReader (ir_reader ir) cl = Ok idx.

Lemma lookup_static s : s ∈ scts -> lookup_sct idx s = content_names s.
Proof.
  intros Hs. unfold lookup_sct. rewrite (Lookup_eq idx content).
  - destruct (NewIndexFromReader_content _ _ _ _ Hserves Hidx) as (_ & _ & ->).
    destruct (Hcons s Hs) as (names & Hn & _). unfold content_names, lookup_spec, content_index in *.
    simpl in *. by rewrite Hn.
  - by destruct (NewIndexFromReader_sound _ _ _ Hidx).
  - destruct (NewIndexFromReader_sound _ _ _ Hidx) as (_ & -> & _). done.
  - by apply (proj1 (Forall_forall _ _) Hids).
Qed.

Lemma selected_static name :
  selected idx scts name ->
  exists d rf, files name = Some d /\ FromBytes d = Ok rf /\ cached_filter scts rf.
Proof.
  intros (s & names & Hs & Hl & Hn). rewrite lookup_static in Hl by done.
  destruct (Hcons s Hs) as (names' & Hl' & Hf). rewrite Hl in Hl'. injection Hl' as <-.
  destruct (Hf name Hn) as (d & rf & Hd & Hrf). exists d, rf. split; [done|]. split; [done|].
  by exists s, names, name, d.
Qed.

(** Each of [qs] is a selected filter with the answer its cached file gives. *)
Definition answered (key : LookupKey) (qs : list (bytes * Crlite.Status)) : Prop :=
  forall n a, (n, a) ∈ qs -> exists d rf, files n = Some d /\ FromBytes d = Ok rf
    /\ cached_filter scts rf /\ a = contains_spec rf key (check_timestamps scts).

Lemma answered_snoc key qs w n a w' :
  answered key qs -> w0 `prefix_of` w -> selected idx scts n ->
  queryFilter n key (check_timestamps scts) w = (w', Ok a) -> answered key (qs ++ [(n, a)]).
Proof.
  intros Hqs Hw Hsel Hq m b [Hin|[= -> ->]%list_elem_of_singleton]%elem_of_app; [by apply Hqs|].
  destruct (selected_static n Hsel) as (d & rf & Hd & Hrf & Hc).
  exists d, rf. split; [done|]. split; [done|]. split; [done|].
  destruct (static_query w n d rf key (check_timestamps scts)) as (w2 & Hq'); [done..|congruence].
Qed.

Lemma asked_static key w qs w' :
  w0 `prefix_of` w -> asked key (check_timestamps scts) w qs w' ->
  (forall n, n ∈ qs.*1 -> selected idx scts n) -> answered key qs.
Proof.
  intros Hw H. induction H as [|qs w1 w2 n a Ha IH Hq]; intros Hsel.
  { intros m b Hin. by apply elem_of_nil in Hin. }
  rewrite fmap_app in Hsel. eapply answered_snoc; [| | |exact Hq].
  - apply IH. intros k Hk. apply Hsel. set_solver.
  - etrans; [done|]. by eapply asked_prefix.
  - apply Hsel. simpl. set_solver.
Qed.

End Opened.

Lemma contains_spec_NotCovered rf key ts :
  contains_spec rf key ts = Crlite.StatusNotCovered <-> ~ Exists (covers rf) ts.
Proof.
  unfold contains_spec. destruct (decide (Exists (covers rf) ts)); [|done].
  split; [intros H; by apply conclusive_covered in H|done].
Qed.

(** The verdict in terms of the members of the answers. *)
Lemma verdict_spec answers status err :
  verdict answers = (status, err) ->
  (status = StatusRevoked <-> Crlite.StatusRevoked ∈ answers)
  /\ (status = StatusNotRevoked
      <-> (Crlite.StatusRevoked ∉ answers) /\ Crlite.StatusGood ∈ answers)
  /\ (err = Some ErrInconsistentIndex
      <-> answers <> [] /\ forall a, a ∈ answers -> a = Crlite.StatusNotCovered)
  /\ (err = None \/ err = Some ErrInconsistentIndex).
Proof.
  unfold verdict.
  destruct (decide (Crlite.StatusRevoked ∈ answers)) as [H1|H1];
    [|destruct (decide (Crlite.StatusGood ∈ answers)) as [H2|H2];
      [|destruct (decide _) as [H3|H3]]]; intros [= <- <-].
  - split; [done|]. split; [naive_solver|]. split; [|by left].
    split; [done|]. intros [_ H]. by specialize (H _ H1).
  - split; [naive_solver|]. split; [done|]. split; [|by left].
    split; [done|]. intros [_ H]. by specialize (H _ H2).
  - split; [naive_solver|]. split; [naive_solver|]. split; [|by right]. split; [|done].
    intros _. destruct H3 as [H3 H4]. rewrite Forall_forall in H4. split; [done|]. intros a Ha. symmetry. by apply H4.
  - split; [naive_solver|]. split; [naive_solver|]. split; [|by left]. split; [done|].
    intros [H4 H5]. destruct H3. split; [done|]. apply Forall_forall. intros a Ha. symmetry. by apply H5.
Qed.

(** [answers] are the answers of the cached filters, all of them unless one revokes. *)
Definition answers_of (key : LookupKey) (answers : list Crlite.Status) : Prop :=
  (forall a, a ∈ answers ->
     exists rf, cached_filter scts rf /\ a = contains_spec rf key (check_timestamps scts))
  /\ (Crlite.StatusRevoked ∈ answers
      \/ forall rf, cached_filter scts rf -> contains_spec rf key (check_timestamps scts) ∈ answers).

Lemma answered_answers idx ir cl key qs :
  serves content (ir_reader ir) -> NewIndexFromReader (ir_reader ir) cl = Ok idx ->
  answered key qs ->
  (Crlite.StatusRevoked ∈ qs.*2
   \/ forall s, s ∈ scts -> exists names, lookup_sct idx s = Ok names /\ names ⊆ qs.*1) ->
  answers_of key qs.*2.
Proof.
  intros Hsv Hidx Hans Hall. split.
  - intros a ([n b] & -> & Hin)%list_elem_of_fmap.
    destruct (Hans _ _ Hin) as (d & rf & _ & _ & Hc & ->). by exists rf.
  - destruct Hall as [Hall|Hall]; [by left|right].
    intros rf (s & names & n & d & Hs & Hn & Hin & Hd & Hrf).
    destruct (Hall s Hs) as (names' & Hl & Hsub).
    rewrite (lookup_static idx ir cl Hsv Hidx) in Hl by done.
    rewrite Hn in Hl. injection Hl as <-. apply Hsub, list_elem_of_fmap in Hin as ([n' a] & -> & Hin).
    destruct (Hans _ _ Hin) as (d' & rf' & Hd' & Hrf' & _ & ->). simpl in *.
    assert (rf' = rf) as -> by congruence. apply list_elem_of_fmap.
    by exists (n', contains_spec rf key (check_timestamps scts)).
Qed.

Lemma verdict_answer key answers status err :
  answers_of key answers -> verdict answers = (status, err) -> cache_answer scts key status err.
Proof.
  intros [Hto Hfrom] Hv. destruct (verdict_spec _ _ _ Hv) as (V1 & V2 & V3 & V4).
  constructor; [rewrite V1|rewrite V2|rewrite V3|done].
  - split; [intros H; destruct (Hto _ H) as (rf & ? & ?); by exists rf|].
    intros (rf & Hc & Hs). destruct Hfrom as [?|Hf]; [done|]. rewrite <- Hs. by apply Hf.
  - split.
    + intros [Hnr Hg]. destruct (Hto _ Hg) as (rf & Hc & Hs).
      split; [|by exists rf]. intros rf' Hc' Hs'. destruct Hfrom as [?|Hf]; [done|].
      apply Hnr. rewrite <- Hs'. by apply Hf.
    + intros [Hnr (rf & Hc & Hs)].
      assert (Crlite.StatusRevoked ∉ answers) as Hnr'.
      { intros H. destruct (Hto _ H) as (rf' & Hc' & Hs'). by apply (Hnr rf'). }
      split; [done|]. destruct Hfrom as [?|Hf]; [done|]. rewrite <- Hs. by apply Hf.
  - split.
    + intros [Hne Hnc]. split.
      * destruct answers as [|a l]; [done|].
        destruct (Hto a ltac:(by left)) as (rf & Hc & _). by exists rf.
      * intros rf Hc. apply (contains_spec_NotCovered rf key). apply Hnc.
        destruct Hfrom as [H|Hf]; [by specialize (Hnc _ H)|by apply Hf].
    + intros [(rf & Hc) Hnc].
      assert (forall a, a ∈ answers -> a = Crlite.StatusNotCovered) as Hall.
      { intros a H. destruct (Hto _ H) as (rf' & Hc' & ->). by apply contains_spec_NotCovered, Hnc. }
      split; [|done]. destruct Hfrom as [H|Hf]; [by specialize (Hall _ H)|].
      intros ->. specialize (Hf rf Hc). by apply elem_of_nil in Hf.
Qed.

(** Over a static, consistent cache a pass gives the cache's answer. *)
Lemma static_pass idx ir cl key w w' status err :
  serves content (ir_reader ir) -> NewIndexFromReader (ir_reader ir) cl = Ok idx ->
  w0 `prefix_of` w ->
  pass_result key (check_timestamps scts) idx scts w w' status err ->
  cache_answer scts key status err.
Proof.
  intros Hsv Hidx Hw Hp.
  destruct Hp as [qs status err Ha _ Hsel Hall Hv|qs w1 n e Ha _ _ _ Hs _ Hq|qs s e _ _ _ _ Hs Hl].
  - eapply verdict_answer; [|exact Hv]. eapply answered_answers; try done. by eapply asked_static.
  - destruct (selected_static idx ir cl Hsv Hidx n Hs) as (d & rf & Hd & Hrf & _).
    destruct (static_query w1 n d rf key (check_timestamps scts)) as (w2 & Hq');
      [|done|done|congruence].
    etrans; [done|]. by eapply asked_prefix.
  - rewrite (lookup_static idx ir cl Hsv Hidx s Hs) in Hl.
    destruct (Hcons s Hs) as (names & Hn & _). congruence.
Qed.

Lemma cache_answer_surfaces key status err reopens :
  cache_answer scts key status err -> surfaces err reopens = true.
Proof. intros [_ _ _ [->| ->]]; done. Qed.

End Static.

Lemma NewChecker_opened w w1 c :
  NewCheckerWith w = (w1, Ok c) ->
  exists r ir cl, c = mkChecker (Some r) /\ w1 = w ++ [IndexOpened true]
    /\ OpenIndex w = inl ir /\ NewIndexFromReader (ir_reader ir) cl = Ok (ref_index r).
Proof.
  unfold NewCheckerWith, openIndex. intros H. destruct (OpenIndex w) as [ir|e]; [|done].
  destruct (NewIndexFromReader _ _) as [idx|e| |] eqn:E; go_simp; try done.
  injection H as <- <-. by eexists (mkRef _ _), ir, _.
Qed.

Lemma check_inputs_ok leaf issuer rest scts serial :
  EmbeddedSCTs leaf = Ok scts -> scts <> [] -> RawSerial leaf = Ok serial ->
  check_inputs (leaf :: issuer :: rest) = inr (Ok (check_key leaf issuer serial, scts)).
Proof. intros H1 H2 H3. simpl. rewrite H1, H3. by destruct scts. Qed.

Lemma pass_result_prefix key ts idx scts w w' status err :
  pass_result key ts idx scts w w' status err -> w `prefix_of` w'.
Proof.
  destruct 1 as [qs ? ? Ha|qs w1 n e Ha _ _ _ _ _ Hq|qs s e Ha]; [by eapply asked_prefix| |by eapply asked_prefix].
  etrans; [by eapply asked_prefix|]. change w' with (w', @Err Crlite.Status e).1.
  rewrite <- Hq, queryFilter_world. apply readFilter_prefix.
Qed.

(** A check in a session over a stable cache: the checker keeps its index. *)
Lemma Check_static_session (content : bytes) (files : bytes -> option bytes) w0 w r ir cl
    leaf issuer rest scts serial :
  static_cache content files w0 -> w0 `prefix_of` w -> serves content (ir_reader ir) ->
  NewIndexFromReader (ir_reader ir) cl = Ok (ref_index r) ->
  EmbeddedSCTs leaf = Ok scts -> scts <> [] -> RawSerial leaf = Ok serial ->
  consistent content files scts ->
  exists w2 status err,
    Checker_Check (mkChecker (Some r)) (leaf :: issuer :: rest) w
    = (w2, mkChecker (Some r), Ok (status, err))
    /\ w `prefix_of` w2 /\ cache_answer content files scts (check_key leaf issuer serial) status err.
Proof.
  intros Hst Hw Hsv Hidx Hscts Hne Hserial Hcons.
  pose proof (EmbeddedSCTs_wf _ _ Hscts) as Hids.
  unfold Checker_Check. rewrite (check_inputs_ok leaf issuer rest scts serial) by done.
  destruct (NewIndexFromReader_sound _ _ _ Hidx) as [Hwf _].
  destruct (checkOnce_spec (mkChecker (Some r)) (check_key leaf issuer serial) scts
    (check_timestamps scts) w r eq_refl Hwf Hids) as (w2 & st & err & E & Hp).
  pose proof (pass_result_prefix _ _ _ _ _ _ _ _ Hp) as Hpre.
  apply (static_pass content files w0 Hst scts Hcons Hids _ ir cl) in Hp; [|done..].
  rewrite (check_loop_step _ _ _ _ _ _ _ _ _ _ _ E).
  rewrite (cache_answer_surfaces _ _ _ _ _ _ 0 Hp). by exists w2, st, err.
Qed.

Lemma Check_static_answer (content : bytes) (files : bytes -> option bytes) w w1 c
    leaf issuer rest scts serial :
  static_cache content files w -> NewCheckerWith w = (w1, Ok c) ->
  EmbeddedSCTs leaf = Ok scts -> scts <> [] -> RawSerial leaf = Ok serial ->
  consistent content files scts ->
  exists w2 c2 status err,
    Checker_Check c (leaf :: issuer :: rest) w1 = (w2, c2, Ok (status, err))
    /\ cache_answer content files scts (check_key leaf issuer serial) status err.
Proof.
  intros Hst Hnew Hscts Hne Hserial Hcons.
  destruct (NewChecker_opened _ _ _ Hnew) as (r & ir & cl & -> & -> & Ho & Hidx).
  destruct (Check_static_session content files w (w ++ [IndexOpened true]) r ir cl leaf issuer rest scts serial)
    as (w2 & st & err & E & _ & Ha); [done|by eexists|by apply (sc_index _ _ _ Hst w ir)|done..|].
  by eexists _, _, _, _.
Qed.

(** ** Sessions *)

(** What a user does with a checker. *)
Inductive op := OpCheck (chain : list Certificate) | OpClose.

Definition run_op (s : World * Checker) (o : op) : World * Checker :=
  match o with
  | OpCheck chain => (Checker_Check s.2 chain s.1).1
  | OpClose => (Close s.2 s.1).1
  end.
Definition run_ops (ops : list op) (s : World * Checker) : World * Checker :=
  fold_left run_op ops s.

Lemma run_ops_spec ops w c :
  progressing -> wf_checker c ->
  wf_checker (run_ops ops (w, c)).2
  /\ transfers c w (run_ops ops (w, c)).2 (run_ops ops (w, c)).1.
Proof.
  intros Hp. revert w c. induction ops as [|o ops IH]; intros w c Hwf; simpl.
  { split; [done|]. by apply transfers_quiet. }
  assert (wf_checker (run_op (w, c) o).2 /\ transfers c w (run_op (w, c) o).2 (run_op (w, c) o).1)
    as [Hwf1 Ht1].
  { destruct o as [chain|]; simpl.
    - by destruct (Checker_Check_spec c chain w Hp Hwf) as (w' & c' & st & err & -> & ? & ? & _).
    - destruct (Close_spec c w Hwf) as (w' & err & -> & ?). by split; [intros r [=]|]. }
  destruct (run_op (w, c) o) as [w1 c1]. destruct (IH w1 c1 Hwf1) as [Hwf2 Ht2].
  split; [done|]. by eapply transfers_trans.
Qed.

(** ** Counting opens *)
Definition index_opens (w : World) : nat :=
  length (List.filter (fun e => match e with IndexOpened _ => true | _ => false end) w).
Definition filter_opens (name : bytes) (w : World) : nat :=
  length (List.filter (fun e => match e with FilterOpened n _ => bool_decide (n = name) | _ => false end) w).

Lemma index_opens_app w1 w2 : index_opens (w1 ++ w2) = (index_opens w1 + index_opens w2)%nat.
Proof. unfold index_opens. by rewrite List.filter_app, length_app. Qed.
Lemma filter_opens_app name w1 w2 :
  filter_opens name (w1 ++ w2) = (filter_opens name w1 + filter_opens name w2)%nat.
Proof. unfold filter_opens. by rewrite List.filter_app, length_app. Qed.

(** [w'] comes from [w] by opening the index at most [i] times and each filter at
    most [f] times. *)
Definition opens_within (i f : nat) (w w' : World) : Prop :=
  (index_opens w' <= index_opens w + i)%nat
  /\ forall name, (filter_opens name w' <= filter_opens name w + f)%nat.

Lemma queryFilter_opens n key ts w name :
  index_opens (queryFilter n key ts w).1 = index_opens w
  /\ filter_opens name (queryFilter n key ts w).1
     = (filter_opens name w + if decide (n = name) then 1 else 0)%nat.
Proof.
  rewrite queryFilter_world. unfold readFilter.
  destruct (Open w n); cbn [fst]; rewrite index_opens_app, filter_opens_app;
    cbn; unfold bool_decide; destruct (decide_rel _ _ _), (decide (n = name)); simpl; lia || done.
Qed.

Lemma asked_opens key ts w qs w' name :
  asked key ts w qs w' -> NoDup qs.*1 ->
  index_opens w' = index_opens w
  /\ filter_opens name w' = (filter_opens name w + if decide (name ∈ qs.*1) then 1 else 0)%nat.
Proof.
  induction 1 as [|qs w1 w2 n a _ IH Hq]; intros Hnd.
  { split; [done|]. destruct (decide _) as [H|]; [by apply elem_of_nil in H|lia]. }
  rewrite fmap_app in Hnd. apply NoDup_app in Hnd as (Hnd & Hdis & _).
  destruct (IH Hnd) as [IH1 IH2]. pose proof (queryFilter_opens n key ts w1 name) as [Q1 Q2].
  rewrite Hq in Q1, Q2. cbn [fst] in Q1, Q2. rewrite Q1, Q2, IH1, IH2. split; [done|].
  rewrite fmap_app. cbn [fmap list_fmap fst].
  assert (name ∈ qs.*1 -> n <> name) as Hne by (intros Hin ->; specialize (Hdis _ Hin); set_solver).
  assert (name ∈ qs.*1 ++ [n] <-> name ∈ qs.*1 \/ n = name) as Hiff by set_solver.
  destruct (decide (name ∈ qs.*1)), (decide (n = name)), (decide (name ∈ qs.*1 ++ [n])); tauto || lia.
Qed.

Lemma pass_opens key ts idx scts w w' status err :
  pass_result key ts idx scts w w' status err -> opens_within 0 1 w w'.
Proof.
  intros Hp. split.
  - destruct Hp as [qs ? ? Ha Hnd|qs w1 n e Ha Hnd _ _ _ _ Hq|qs s e Ha Hnd].
    + destruct (asked_opens _ _ _ _ _ [] Ha Hnd). lia.
    + destruct (asked_opens _ _ _ _ _ [] Ha Hnd), (queryFilter_opens n key ts w1 []) as [Q1 Q2].
      rewrite Hq in Q1. simpl in Q1. lia.
    + destruct (asked_opens _ _ _ _ _ [] Ha Hnd). lia.
  - intros name. destruct Hp as [qs ? ? Ha Hnd|qs w1 n e Ha Hnd _ _ _ Hn Hq|qs s e Ha Hnd].
    + destruct (asked_opens _ _ _ _ _ name Ha Hnd) as [_ ->]. case_decide; lia.
    + destruct (asked_opens _ _ _ _ _ name Ha Hnd) as [_ H2].
      destruct (queryFilter_opens n key ts w1 name) as [_ Q2]. rewrite Hq in Q2. simpl in Q2.
      destruct (decide (n = name)) as [->|]; repeat case_decide; tauto || lia.
    + destruct (asked_opens _ _ _ _ _ name Ha Hnd) as [_ ->]. case_decide; lia.
Qed.

Lemma opens_within_trans i1 f1 i2 f2 w1 w2 w3 :
  opens_within i1 f1 w1 w2 -> opens_within i2 f2 w2 w3 -> opens_within (i1 + i2) (f1 + f2) w1 w3.
Proof.
  intros [H1 H2] [H3 H4]. split; [lia|]. intros name. specialize (H2 name). specialize (H4 name). lia.
Qed.

Lemma openIndex_opens w : opens_within 1 0 w (openIndex w).1.
Proof.
  unfold openIndex. repeat case_match; simpl; split; intros;
    rewrite ?index_opens_app, ?filter_opens_app; cbn; lia.
Qed.

Lemma close_index_opens r w : wf_ref r -> opens_within 0 0 w (close_index r w).1.
Proof.
  intros Hr. destruct (close_index_eq r w Hr) as [e ->]. simpl. split; intros;
    rewrite ?index_opens_app, ?filter_opens_app; cbn; lia.
Qed.

Lemma reopenIndex_opens c r w :
  c_idx c = Some r -> wf_ref r -> opens_within 1 0 w (reopenIndex c (Some r) w).1.1.
Proof.
  intros Hc Hr. unfold reopenIndex. case_match; [split; intros; simpl; lia|].
  pose proof (openIndex_opens w) as Ho. destruct (openIndex w) as [w1 [r'|e| |]]; try done.
  rewrite Hc. pose proof (close_index_opens r w1 Hr) as Hcl.
  destruct (close_index r w1) as [w2 e]. by apply (opens_within_trans _ _ _ _ _ _ _ Ho Hcl).
Qed.

Lemma opens_within_mono i f i' f' w w' :
  opens_within i f w w' -> (i <= i')%nat -> (f <= f')%nat -> opens_within i' f' w w'.
Proof. intros [H1 H2] Hi Hf. split; [lia|]. intros name. specialize (H2 name). lia. Qed.

Lemma opens_within_refl w : opens_within 0 0 w w.
Proof. split; intros; lia. Qed.

Lemma check_loop_closed fuel reopens c key scts ts w :
  c_idx c = None ->
  check_loop (S fuel) reopens c key scts ts w = (w, c, Ok (StatusNotCovered, Some errCheckerClosed)).
Proof. intros Hc. cbn [check_loop]. unfold checkOnce. by rewrite Hc. Qed.

Lemma check_loop_opens fuel reopens c key scts ts w :
  progressing -> wf_scts scts -> wf_checker c -> reopens + Z.of_nat fuel = maxIndexReopens ->
  opens_within fuel (S fuel) w (check_loop (S fuel) reopens c key scts ts w).1.1.
Proof.
  intros Hp Hs. revert reopens c w. induction fuel as [|fuel IH]; intros reopens c w Hwf Hf;
    (destruct (c_idx c) as [r|] eqn:Hc;
      [|rewrite check_loop_closed by done; eapply opens_within_mono; [apply opens_within_refl|lia..]]);
    pose proof (Hwf r Hc) as Hr;
    destruct (checkOnce_spec c key scts ts w r Hc (wfr_index _ Hr) Hs) as (w1 & status & err & E & Hp1);
    rewrite (check_loop_step _ _ _ _ _ _ _ _ _ _ _ E); apply pass_opens in Hp1.
  - assert (surfaces err reopens = true) as ->; [|done].
    unfold surfaces, maxIndexReopens in *. destruct err; [|done].
    destruct (Z.eqb_spec reopens 2); [apply orb_true_r|lia].
  - destruct (surfaces err reopens); [eapply opens_within_mono; [exact Hp1|lia..]|].
    pose proof (reopenIndex_opens c r w1 Hc Hr) as H2.
    pose proof (reopenIndex_spec c r w1 Hp Hc Hr) as H3.
    destruct (reopenIndex c (Some r) w1) as [[w2 c2] [u|e| |]]; [| |done|done].
    + destruct H3 as (Hwf2 & _). specialize (IH (reopens + 1) c2 w2 Hwf2 ltac:(lia)).
      pose proof (opens_within_trans _ _ _ _ _ _ _ (opens_within_trans _ _ _ _ _ _ _ Hp1 H2) IH) as H.
      eapply opens_within_mono; [exact H|lia..].
    + pose proof (opens_within_trans _ _ _ _ _ _ _ Hp1 H2) as H.
      eapply opens_within_mono; [exact H|lia..].
Qed.

(** ** Properties *)

(** C1. End to end, over a cache that stays as it is: the check of a certificate with
    SCTs returns, without a panic, and its status and error are those the cache
    holds: Revoked iff some listed filter that covers an SCT holds the certificate,
    NotRevoked iff none does and some covering filter answers Good,
    ErrInconsistentIndex iff filters are listed and none covers an SCT, and otherwise
    NotCovered without an error. *)
Theorem Check_cache_answer (content : bytes) (files : bytes -> option bytes) (w w1 : World)
    (c : Checker) (leaf issuer : Certificate) (rest : list Certificate) (scts : list SCT)
    (serial : bytes) :
  static_cache content files w -> NewCheckerWith w = (w1, Ok c) ->
  EmbeddedSCTs leaf = Ok scts -> scts <> [] -> RawSerial leaf = Ok serial ->
  consistent content files scts ->
  exists w2 c2 status err,
    Checker_Check c (leaf :: issuer :: rest) w1 = (w2, c2, Ok (status, err))
    /\ cache_answer content files scts (check_key leaf issuer serial) status err.
Proof.
  apply Check_static_answer.
Qed.

(** A superseded index recovers: when the pass over the held index finds a filter
    file missing, the check reopens the index and starts again; if the cache is now
    stable and consistent the result is the new cache's answer, whatever the old
    index said, and if the index cannot be reopened the result is that error. *)
Lemma Check_superseded (content : bytes) (files : bytes -> option bytes) (c : Checker)
    (leaf issuer : Certificate) (rest : list Certificate) (scts : list SCT) (serial : bytes)
    (w w1 : World) (status1 : Status) (idx1 : option IndexRef) (e : error) :
  progressing -> wf_checker c ->
  EmbeddedSCTs leaf = Ok scts -> scts <> [] -> RawSerial leaf = Ok serial ->
  checkOnce c (check_key leaf issuer serial) scts (check_timestamps scts) w
  = (w1, Ok (status1, idx1, Some e)) ->
  errors_Is e "file does not exist" = true ->
  static_cache content files w1 -> consistent content files scts ->
  exists w2 c2 status err,
    Checker_Check c (leaf :: issuer :: rest) w = (w2, c2, Ok (status, err))
    /\ match (openIndex w1).2 with
       | Ok _ => cache_answer content files scts (check_key leaf issuer serial) status err
       | Err rerr => status = StatusNotCovered
           /\ err = Some (Errorf "upki: reopening superseded index: %w" [AErr rerr])
       | _ => False
       end.
Proof.
  intros Hp Hwf Hscts Hne Hserial E1 He Hst Hcons.
  pose proof (EmbeddedSCTs_wf _ _ Hscts) as Hids.
  unfold Checker_Check. rewrite (check_inputs_ok leaf issuer rest scts serial) by done.
  destruct (c_idx c) as [r|] eqn:Hc.
  2: { unfold checkOnce in E1. rewrite Hc in E1. by injection E1 as <- <- <- <-. }
  destruct (checkOnce_spec c (check_key leaf issuer serial) scts (check_timestamps scts) w r Hc
    (wfr_index _ (Hwf r Hc)) Hids) as (w1' & st & err & E & Hp1).
  assert (w1' = w1 /\ err = Some e) as [-> ->] by (rewrite E1 in E; naive_solver).
  rewrite (check_loop_step _ _ _ _ _ _ _ _ _ _ _ E).
  unfold surfaces. rewrite He. cbn [negb orb Z.eqb maxIndexReopens].
  pose proof (openIndex_spec w1 Hp) as Hop.
  unfold reopenIndex, same_ref. rewrite Hc, bool_decide_eq_true_2 by done. cbn [negb].
  destruct (openIndex w1) as [w2 [r'|rerr| |]]; [| |done|done]; simpl.
  2: { eexists _, _, _, _. by split. }
  destruct Hop as (-> & _ & Hwf' & ir & cl & Ho & Hidx).
  destruct (close_index_eq r (w1 ++ [IndexOpened true]) (Hwf r Hc)) as [cerr ->].
  set (w3 := (w1 ++ _) ++ _).
  assert (w1 `prefix_of` w3) as Hw3 by (unfold w3; rewrite <- app_assoc; by eexists).
  pose proof (sc_index _ _ _ Hst w1 ir ltac:(done) Ho) as Hsv.
  destruct (checkOnce_spec (mkChecker (Some r')) (check_key leaf issuer serial) scts
    (check_timestamps scts) w3 r' eq_refl (wfr_index _ Hwf') Hids) as (w4 & st4 & err4 & E4 & Hp4).
  apply (static_pass content files w1 Hst scts Hcons Hids _ ir cl) in Hp4; [|done..].
  rewrite E4, (cache_answer_surfaces _ _ _ _ _ _ (0 + 1) Hp4). by eexists _, _, _, _.
Qed.

(** C14. Every outcome of one pass, for any openers: the answer is the verdict of the
    statuses of pairwise distinct filters the index selects, queried in order, which
    are all of them unless one revokes; or else NotCovered with the error of the
    first filter or lookup that failed, no filter before it having revoked. *)
Theorem checkOnce_outcomes (c : Checker) (r : IndexRef) (key : LookupKey) (scts : list SCT)
    (ts : list LogTimestamp) (w : World) :
  c_idx c = Some r -> wf_ref r -> wf_scts scts ->
  exists w' status err, checkOnce c key scts ts w = (w', Ok (status, Some r, err))
    /\ pass_result key ts (ref_index r) scts w w' status err.
Proof. intros Hc Hr Hs. by apply checkOnce_spec; [|destruct Hr|]. Qed.

(** C19. For any openers that keep the reader contract, [Check] on a checker in any
    state of a session terminates without a panic, returns NotCovered whenever it
    returns an error, reopens the index at most twice and opens each filter file at
    most once per pass, three times in all. *)
Theorem Check_total_bounded (w w1 w2 : World) (c1 c2 : Checker) (ops : list op)
    (chain : list Certificate) :
  progressing -> NewCheckerWith w = (w1, Ok c1) -> run_ops ops (w1, c1) = (w2, c2) ->
  exists w3 c3 status err, Checker_Check c2 chain w2 = (w3, c3, Ok (status, err))
    /\ (err <> None -> status = StatusNotCovered)
    /\ (index_opens w3 <= index_opens w2 + 2)%nat
    /\ forall name, (filter_opens name w3 <= filter_opens name w2 + 3)%nat.
Proof.
  intros Hp Hnew Hops. pose proof (NewCheckerWith_spec w Hp) as Hn. rewrite Hnew in Hn.
  destruct Hn as (Hwf & _). pose proof (run_ops_spec ops w1 c1 Hp Hwf) as [Hwf2 _].
  rewrite Hops in Hwf2. simpl in Hwf2.
  destruct (Checker_Check_spec c2 chain w2 Hp Hwf2) as (w3 & c3 & status & err & E & _ & _ & He).
  exists w3, c3, status, err. split; [done|]. split; [done|].
  assert (opens_within 2 3 w2 w3) as [H1 H2]; [|done].
  change w3 with (w3, c3, @Ok (Status * option error) (status, err)).1.1. rewrite <- E.
  unfold Checker_Check. pose proof (check_inputs_spec chain) as Hi.
  destruct (check_inputs chain) as [ret|[[key scts]|?| |]]; try done.
  - eapply opens_within_mono; [apply opens_within_refl|lia..].
  - destruct Hi as [Hs _]. by apply check_loop_opens.
Qed.

(** C20. Over a whole session no handle is closed twice or leaked: after any sequence
    of checks and closes the open handles are those open before plus the one of the
    index the checker holds, and closing it leaves exactly those open before.  A
    constructor that fails leaves nothing open. *)
Theorem session_handles (w w1 : World) (c1 : Checker) (ops : list op) (open : gset nat) :
  progressing -> live w = Some open ->
  (forall e, (NewCheckerWith w).2 = Err e -> live (NewCheckerWith w).1 = Some open)
  /\ (NewCheckerWith w = (w1, Ok c1) ->
      let '(w2, c2) := run_ops ops (w1, c1) in
      live w2 = Some (owns c2 ∪ open) /\ owns c2 ## open
      /\ live (Close c2 w2).1.1 = Some open).
Proof.
  intros Hp Hl. pose proof (NewCheckerWith_spec w Hp) as Hn. split.
  - intros e He. destruct (NewCheckerWith w) as [w' r]. simpl in He. subst r. by apply Hn.
  - intros Hnew. rewrite Hnew in Hn. destruct Hn as (Hwf & _ & _ & Ht).
    pose proof (run_ops_spec ops w1 c1 Hp Hwf) as [Hwf2 Ht2].
    destruct (run_ops ops (w1, c1)) as [w2 c2]. simpl in *.
    destruct (transfers_trans _ _ _ _ _ _ Ht Ht2 open) as [H1 H2];
      [by rewrite owns_None, (left_id_L ∅ (∪))|set_solver|].
    split; [done|]. split; [done|].
    destruct (Close_spec c2 w2 Hwf2) as (w3 & err & -> & Ht3).
    destruct (Ht3 open H1 H2) as [H3 _]. simpl. by rewrite H3, owns_None, (left_id_L ∅ (∪)).
Qed.

(** The package function [Check] always returns (NotCovered when it returns an
    error) and closes everything it opened: the open handles are the same before and
    after, whatever the cache and the certificates are. *)
Theorem Check_closes_all (w : World) (chain : list Certificate) (open : gset nat) :
  progressing -> live w = Some open ->
  exists status err, (Check chain w).2 = Ok (status, err)
    /\ (err <> None -> status = StatusNotCovered)
    /\ live (Check chain w).1 = Some open.
Proof.
  intros Hp Hl. unfold Check. pose proof (NewCheckerWith_spec w Hp) as Hn.
  destruct (NewCheckerWith w) as [w1 [c1|e| |]]; [| |done|done].
  - destruct Hn as (Hwf & _ & _ & Ht).
    destruct (Checker_Check_spec c1 chain w1 Hp Hwf) as (w2 & c2 & st & err & -> & Hwf2 & Ht2 & He).
    destruct (Close_spec c2 w2 Hwf2) as (w3 & cerr & -> & Ht3).
    exists st, err. split; [done|]. split; [done|].
    destruct (transfers_trans _ _ _ _ _ _ Ht (transfers_trans _ _ _ _ _ _ Ht2 Ht3) open) as [H _];
      [by rewrite owns_None, (left_id_L ∅ (∪))|set_solver|].
    simpl. by rewrite H, owns_None, (left_id_L ∅ (∪)).
  - exists StatusNotCovered, (Some e). split; [done|]. split; [done|]. by apply Hn.
Qed.

(** [Close] is idempotent, and afterwards a check that gets as far as the index
    fails with errCheckerClosed, opening nothing. *)
Lemma Close_final (c : Checker) (leaf issuer : Certificate) (rest : list Certificate)
    (scts : list SCT) (serial : bytes) (w : World) :
  EmbeddedSCTs leaf = Ok scts -> scts <> [] -> RawSerial leaf = Ok serial ->
  let '(w1, c1, _) := Close c w in
  Close c1 w1 = (w1, c1, None)
  /\ Checker_Check c1 (leaf :: issuer :: rest) w1
     = (w1, c1, Ok (StatusNotCovered, Some errCheckerClosed)).
Proof.
  intros Hscts Hne Hserial.
  assert (forall c1 w1, c_idx c1 = None -> Close c1 w1 = (w1, c1, None)
    /\ Checker_Check c1 (leaf :: issuer :: rest) w1
       = (w1, c1, Ok (StatusNotCovered, Some errCheckerClosed))) as H.
  { intros c1 w1 Hc. unfold Close, Checker_Check. rewrite Hc. split; [done|].
    rewrite (check_inputs_ok leaf issuer rest scts serial) by done. by apply check_loop_closed. }
  unfold Close. destruct (c_idx c) as [r|] eqn:Hc.
  - destruct (close_index r w) as [w1 err]. by apply H.
  - by apply H.
Qed.

(** Before the cache is touched: a chain of fewer than two certificates is
    ErrChainTooShort, a malformed SCT extension or serial number is its error, each
    with NotCovered, and a leaf without SCTs is NotCovered without an error, even on
    a closed checker; in all these cases nothing is opened and the checker stays. *)
Lemma Check_before_cache (c : Checker) (w : World) (leaf issuer : Certificate)
    (rest chain : list Certificate) :
  ((length chain < 2)%nat ->
     Checker_Check c chain w = (w, c, Ok (StatusNotCovered, Some ErrChainTooShort)))
  /\ (EmbeddedSCTs leaf = Ok [] ->
     Checker_Check c (leaf :: issuer :: rest) w = (w, c, Ok (StatusNotCovered, None)))
  /\ (forall e, EmbeddedSCTs leaf = Err e ->
     Checker_Check c (leaf :: issuer :: rest) w
     = (w, c, Ok (StatusNotCovered, Some (Errorf "upki: extracting SCTs: %w" [AErr e]))))
  /\ (forall scts e, EmbeddedSCTs leaf = Ok scts -> scts <> [] -> RawSerial leaf = Err e ->
     Checker_Check c (leaf :: issuer :: rest) w
     = (w, c, Ok (StatusNotCovered, Some (Errorf "upki: extracting serial: %w" [AErr e])))).
Proof.
  unfold Checker_Check. split; [|split; [|split]].
  - intros H. destruct chain as [|? [|? ?]]; [done..|]. simpl in H. lia.
  - intros H. simpl. by rewrite H.
  - intros e H. simpl. by rewrite H.
  - intros scts e H Hne Hs. simpl. rewrite H, Hs. by destruct scts.
Qed.

End Lemmas.

(** [Status.String] of the package upki names the three statuses, prints any
    other integer as Status(n), and never panics. *)
Theorem upki_Status_String_spec (i : Z) :
  Status_String i
  = Ok (if i =? Status_int StatusNotCovered then go_string "NotCovered"
        else if i =? Status_int StatusRevoked then go_string "Revoked"
        else if i =? Status_int StatusNotRevoked then go_string "NotRevoked"
        else go_string "Status(" ++ go_string (pretty.pretty i) ++ go_string ")").
Proof.
  unfold Status_String. destruct (decide (0 <= i < 3)) as [H|H].
  - assert (i = 0 \/ i = 1 \/ i = 2) as [-> | [-> | ->]] by lia; by vm_compute.
  - rewrite stringer_out by done. cbn [Status_int].
    destruct (Z.eqb_spec i 0), (Z.eqb_spec i 1), (Z.eqb_spec i 2); lia || done.
Qed.

(** ** Witnesses *)

(** A cache of [sample_index] with two filters: the first has no block for the sample
    certificate's issuer, the second has one and answers Good. *)
Definition sample_issuer : bytes := sha256_Sum256 (go_string "spki").
Definition sample_filter_file (issuer : bytes) (inverted : bool) : bytes :=
  enc_clubcard (mkWire [(sample_log, mkInterval 100 300)]
    [(issuer, mkWireMeta 1 1 0 1 0 inverted [])] [[0; 0; 0; 0]] [0; 0; 0; 0]).
Definition sample_files (name : bytes) : option bytes :=
  if bool_decide (name = go_string "a.filter") then Some (sample_filter_file (replicate 32 Init.Byte.x0b) false)
  else if bool_decide (name = go_string "b.filter") then Some (sample_filter_file sample_issuer true)
  else None.

(** The openers of a cache holding one index and given files. *)
Definition cache_openers (content : bytes) (files : bytes -> option bytes) : Openers := {|
  OpenIndex _ := inl (mkIndexReader (bytes_reader content) None);
  Open _ name := match files name with
                 | Some d => inl (mkReadCloser [(d, None)])
                 | None => inr (Errorf "open %s: %w" [ABytes name; AErr ErrNotExist])
                 end
|}.

Lemma cache_openers_static content files w : static_cache (Op := cache_openers content files) content files w.
Proof.
  constructor.
  - intros w' ir _ [= <-]. apply bytes_reader_serves.
  - intros w' name d _ Hd. simpl. rewrite Hd. eexists. by split.
Defined.

Lemma bytes_reader_progresses content : progresses (bytes_reader content).
Proof.
  intros n off Hn. destruct (Z.lt_ge_cases off 0) as [Ho|Ho].
  - simpl. unfold bytes_ReadAt. by destruct (Z.ltb_spec off 0); [|lia].
  - by apply (serves_progresses _ _ (bytes_reader_serves _)).
Defined.

Lemma cache_openers_progressing content files : progressing (Op := cache_openers content files).
Proof. intros w r [= <-]. apply bytes_reader_progresses. Defined.

Lemma sample_consistent : consistent sample_index sample_files [mkSCT sample_log 150; mkSCT sample_log 150].
Proof.
  assert (content_names sample_index (mkSCT sample_log 150) = Ok [go_string "a.filter"; go_string "b.filter"]) as Hn
    by (vm_compute; reflexivity).
  intros s Hs. assert (s = mkSCT sample_log 150) as -> by set_solver.
  exists [go_string "a.filter"; go_string "b.filter"]. split; [exact Hn|].
  intros name Hin. assert (name = go_string "a.filter" \/ name = go_string "b.filter") as [-> | ->] by set_solver.
  - eexists _, (clubcard_of (mkWire [(sample_log, mkInterval 100 300)]
      [(replicate 32 Init.Byte.x0b, mkWireMeta 1 1 0 1 0 false [])] [[0; 0; 0; 0]] [0; 0; 0; 0])).
    split; [reflexivity|]. vm_compute. reflexivity.
  - eexists _, (clubcard_of (mkWire [(sample_log, mkInterval 100 300)]
      [(sample_issuer, mkWireMeta 1 1 0 1 0 true [])] [[0; 0; 0; 0]] [0; 0; 0; 0])).
    split; [reflexivity|]. vm_compute. reflexivity.
Defined.

Section Witnesses.
#[local] Instance sample_openers : Openers := cache_openers sample_index sample_files.

Definition sample_chain : list Certificate := [sample_cert; sample_cert].
Definition sample_key : LookupKey := check_key sample_cert sample_cert [Init.Byte.x00; Init.Byte.xff].
Definition sample_scts : list SCT := [mkSCT sample_log 150; mkSCT sample_log 150].

Lemma sample_scts_ok : EmbeddedSCTs sample_cert = Ok sample_scts.
Proof. vm_compute. reflexivity. Defined.
Lemma sample_serial_ok : RawSerial sample_cert = Ok [Init.Byte.x00; Init.Byte.xff].
Proof. vm_compute. reflexivity. Defined.
Lemma sample_scts_some : sample_scts <> [].
Proof. discriminate. Defined.

Definition sample_ref : IndexRef :=
  mkRef 0 (mkIndex (index_names sample_index) (directory sample_index) 1 (bytes_reader sample_index)
             (Some (mkCloser 0 None))).
Definition sample_checker : Checker := mkChecker (Some sample_ref).

Lemma sample_new : NewCheckerWith [] = ([IndexOpened true], Ok sample_checker).
Proof. vm_compute. reflexivity. Defined.

Lemma sample_ref_wf : wf_ref sample_ref.
Proof.
  pose proof (NewCheckerWith_spec (Op := sample_openers) [] (cache_openers_progressing sample_index sample_files)) as H.
  rewrite sample_new in H. destruct H as [H _]. by apply H.
Defined.

Lemma Check_cache_answer_witness :
  (exists rf, cached_filter sample_index sample_files sample_scts rf
     /\ contains_spec rf sample_key (check_timestamps sample_scts) = Crlite.StatusGood)
  /\ (Check sample_chain []).2 = Ok (StatusNotRevoked, None).
Proof.
  split; [|vm_compute; reflexivity].
  destruct (Check_cache_answer sample_index sample_files [] [IndexOpened true] sample_checker
    sample_cert sample_cert [] sample_scts [Init.Byte.x00; Init.Byte.xff]
    (cache_openers_static _ _ _) sample_new sample_scts_ok sample_scts_some sample_serial_ok
    sample_consistent) as (w2 & c2 & status & err & E & Ha).
  assert (status = StatusNotRevoked) as ->.
  { apply (f_equal (fun r => match r.2 with Ok (s, _) => Status_int s | _ => 5 end)) in E.
    vm_compute in E. destruct status; [discriminate E|discriminate E|reflexivity]. }
  exact (proj2 (proj1 (ca_notRevoked _ _ _ _ _ _ Ha) eq_refl)).
Defined.

Lemma checkOnce_outcomes_witness :
  exists w' status err, checkOnce sample_checker sample_key sample_scts (check_timestamps sample_scts)
      [IndexOpened true] = (w', Ok (status, Some sample_ref, err))
    /\ pass_result sample_key (check_timestamps sample_scts) (ref_index sample_ref) sample_scts
         [IndexOpened true] w' status err.
Proof.
  apply checkOnce_outcomes; [reflexivity|apply sample_ref_wf|].
  repeat constructor.
Defined.

Lemma Check_total_bounded_witness :
  exists w3 c3 status err,
    Checker_Check sample_checker sample_chain [IndexOpened true] = (w3, c3, Ok (status, err))
    /\ forall name, (filter_opens name w3 <= 3)%nat.
Proof.
  destruct (Check_total_bounded (Op := sample_openers) [] [IndexOpened true] [IndexOpened true]
    sample_checker sample_checker [] sample_chain
    (cache_openers_progressing _ _) sample_new eq_refl)
    as (w3 & c3 & st & err & E & _ & _ & Hf).
  exists w3, c3, st, err. split; [exact E|exact Hf].
Defined.

Lemma session_handles_witness :
  live (Close sample_checker [IndexOpened true]).1.1 = Some ∅.
Proof.
  destruct (session_handles (Op := sample_openers) [] [IndexOpened true] sample_checker [] ∅
    (cache_openers_progressing _ _) eq_refl) as [_ H].
  exact (proj2 (proj2 (H sample_new))).
Defined.

Lemma Check_closes_all_witness : live (Check sample_chain []).1 = Some ∅.
Proof.
  destruct (Check_closes_all (Op := sample_openers) [] sample_chain ∅ (cache_openers_progressing _ _) eq_refl)
    as (st & err & _ & _ & H). exact H.
Defined.

Lemma Close_final_witness :
  Checker_Check (mkChecker None) sample_chain [IndexOpened true; Closed 0]
  = ([IndexOpened true; Closed 0], mkChecker None, Ok (StatusNotCovered, Some errCheckerClosed)).
Proof.
  exact (proj2 (Close_final (Op := sample_openers) sample_checker sample_cert sample_cert [] sample_scts
    [Init.Byte.x00; Init.Byte.xff] [IndexOpened true] sample_scts_ok sample_scts_some sample_serial_ok)).
Defined.

Lemma Check_before_cache_witness :
  Checker_Check (mkChecker None) [sample_cert] []
  = ([], mkChecker None, Ok (StatusNotCovered, Some ErrChainTooShort)).
Proof.
  apply (proj1 (Check_before_cache (Op := sample_openers) (mkChecker None) [] sample_cert sample_cert [] [sample_cert])).
  apply Nat.ltb_lt. reflexivity.
Defined.

End Witnesses.

(** A cache update between the index and the filters: no filter file is found until
    one was reported missing, then the updated cache is visible. *)
Definition updated_openers (content : bytes) (files : bytes -> option bytes) : Openers := {|
  OpenIndex _ := inl (mkIndexReader (bytes_reader content) None);
  Open w name :=
    if existsb (fun e => match e with FilterOpened _ false => true | _ => false end) w
    then Open (Openers := cache_openers content files) w name
    else inr (Errorf "open %s: %w" [ABytes name; AErr ErrNotExist])
|}.

Lemma Check_superseded_witness :
  let Op := updated_openers sample_index sample_files in
  exists w2 c2 status err,
    Checker_Check sample_checker sample_chain [IndexOpened true] = (w2, c2, Ok (status, err))
    /\ cache_answer sample_index sample_files sample_scts sample_key status err.
Proof.
  intros Op. set (missing := [IndexOpened true; FilterOpened (go_string "a.filter") false]).
  destruct (Check_superseded sample_index sample_files sample_checker sample_cert sample_cert []
    sample_scts [Init.Byte.x00; Init.Byte.xff] [IndexOpened true] missing StatusNotCovered
    (Some sample_ref)
    (Errorf "upki: reading filter %s: %w" [ABytes (go_string "a.filter");
       AErr (Errorf "open %s: %w" [ABytes (go_string "a.filter"); AErr ErrNotExist])]))
    as (w2 & c2 & status & err & E & Ha).
  - intros w r [= <-]. apply bytes_reader_progresses.
  - intros r [= <-]. apply sample_ref_wf.
  - apply sample_scts_ok.
  - apply sample_scts_some.
  - apply sample_serial_ok.
  - vm_compute. reflexivity.
  - reflexivity.
  - constructor.
    + intros w ir _ [= <-]. apply bytes_reader_serves.
    + intros w name d [k ->] Hd. simpl. rewrite Hd. eexists. by split.
  - apply sample_consistent.
  - exists w2, c2, status, err. split; [exact E|].
    assert (is_ok (openIndex missing).2 = true) as Hr by (vm_compute; reflexivity).
    revert Ha. destruct (openIndex missing).2; [intros Ha; exact Ha|discriminate Hr..].
Defined.

(** A filter file can be opened three times in one [Check] call: when the index
    keeps naming a file that is not there, every pass opens the files before it
    again, so "at most once per Check call" only holds of a single pass. *)
Lemma filter_opened_thrice :
  let Op := cache_openers sample_index
    (fun name => if bool_decide (name = go_string "a.filter") then sample_files name else None) in
  let '(w, _, r) := Checker_Check sample_checker sample_chain [IndexOpened true] in
  filter_opens (go_string "a.filter") w = 3%nat /\ index_opens w = 3%nat
  /\ match r with Ok (StatusNotCovered, Some e) => errors_Is e "file does not exist" = true | _ => False end.
Proof. vm_compute. split; [reflexivity|]. split; reflexivity. Qed.
