(* ===== verification/BuiltCache.v ===== *)
(** * A cache written by the builders, checked

    The composition of the library: [index.bin] written by [Index.Bytes]
    ([internal/test/index_encode.go]) and filters written by [Filter.Bytes]
    ([internal/test/clubcard_encode.go]), served to a [Checker] ([upki/check.go]),
    give certificates the answers their descriptions say. *)
From S2P Require Import Prelude Codec Cryptobyte GoIO UpkiIndex Clubcard CrliteParser Sha256 Crlite Sct Ribbon ClubcardEncode ClubcardAnswers IndexEncode Checker.

(** ** The cache *)

(** A filter file: its name, what it was built from, its bytes. *)
Record published := mkPublished { p_name : bytes; p_filter : ClubcardEncode.Filter; p_data : bytes }.

(** The index that lists the published filters with their own coverage. *)
Definition index_of (ps : list published) : IndexEncode.Index :=
  mkTestIndex (map (fun p => mkIndexFilter (p_name p) (Coverages (p_filter p))) ps).

Definition files_of (ps : list published) (name : bytes) : option bytes :=
  p_data <$> List.find (fun p => bool_decide (p_name p = name)) ps.

Definition published_names (ps : list published) : list bytes := map p_name ps.

(** Distinct names, and every file is what the builder wrote for its description. *)
Record wf_published {B : Builder} {R : RandSource} {S : SortFunc block_le}
    (ps : list published) : Prop := {
  wp_names : NoDup (map p_name ps);
  wp_encodable : Forall (fun p => encodable (p_filter p)) ps;
  wp_built : Forall (fun p => exists rng, Filter_Bytes (p_filter p) rng = Ok (p_data p)) ps;
  wp_index : encodable_index (index_of ps)
}.

(** The filters that cover one of the certificate's SCTs. *)
Definition in_force (ps : list published) (scts : list SCT) (f : ClubcardEncode.Filter) : Prop :=
  exists p, p ∈ ps /\ p_filter p = f /\ Exists (covered f) (check_timestamps scts).

(** What a description says of an issuer's serial. *)
Definition enrolled (f : ClubcardEncode.Filter) (id : bytes) : Prop := id ∈ map SpkiHash (Issuers f).
#[global] Instance enrolled_dec f id : Decision (enrolled f id).
Proof. unfold enrolled. apply _. Defined.
Definition lists_revoked (f : ClubcardEncode.Filter) (id serial : bytes) : Prop :=
  exists iss, iss ∈ Issuers f /\ SpkiHash iss = id /\ serial ∈ Revoked iss.
Definition lists_notRevoked (f : ClubcardEncode.Filter) (id serial : bytes) : Prop :=
  exists iss, iss ∈ Issuers f /\ SpkiHash iss = id /\ serial ∈ NotRevoked iss.

(** ** Lemmas *)
Lemma files_of_in ps p : NoDup (map p_name ps) -> p ∈ ps -> files_of ps (p_name p) = Some (p_data p).
Proof.
  intros Hn Hp. unfold files_of. induction ps as [|q ps IH]; [by apply elem_of_nil in Hp|].
  simpl in *. apply NoDup_cons in Hn as [Hq Hn].
  apply elem_of_cons in Hp as [->|Hp]; [by rewrite bool_decide_true|].
  rewrite bool_decide_false; [by apply IH|]. intros E. apply Hq. rewrite E.
  apply list_elem_of_In, in_map, list_elem_of_In, Hp.
Qed.

Lemma files_of_Some ps name d : files_of ps name = Some d -> exists p, p ∈ ps /\ p_name p = name /\ p_data p = d.
Proof.
  unfold files_of. intros (p & Hf & ->)%fmap_Some. apply find_some in Hf as [Hin He].
  apply bool_decide_eq_true in He. exists p. split; [by apply list_elem_of_In|by split].
Qed.

Lemma files_of_None ps name : files_of ps name = None -> name ∉ published_names ps.
Proof.
  unfold files_of, published_names. intros Hf%fmap_None Hin.
  apply list_elem_of_In, in_map_iff in Hin as (p & <- & Hp).
  apply (find_none _ _ Hf) in Hp. by rewrite bool_decide_true in Hp.
Qed.

Lemma elem_of_covering ps id ts name :
  name ∈ covering_names (Filters (index_of ps)) id ts
  <-> exists p c, p ∈ ps /\ p_name p = name /\ c ∈ Coverages (p_filter p) /\ in_coverage id ts c = true.
Proof.
  unfold covering_names. simpl. rewrite map_map, list_elem_of_In, in_concat. split.
  - intros (l & (p & <- & Hp)%in_map_iff & Hin). simpl in Hin.
    apply in_map_iff in Hin as (c & <- & [Hc Hi]%filter_In). exists p, c.
    rewrite !list_elem_of_In. by repeat split.
  - intros (p & c & Hp & <- & Hc & Hi). eexists. split.
    + apply in_map_iff. exists p. split; [done|]. by apply list_elem_of_In.
    + simpl. apply in_map_iff. exists c. split; [done|]. apply filter_In. split; [by apply list_elem_of_In|done].
Qed.

Lemma in_coverage_covered f s :
  (exists c, c ∈ Coverages f /\ in_coverage (sct_LogID s) (sct_Timestamp s) c = true)
  <-> covered f (mkLogTimestamp (sct_LogID s) (sct_Timestamp s)).
Proof.
  unfold covered, in_coverage. simpl. split; intros (c & Hc & H); exists c; (split; [done|]).
  - apply andb_true_iff in H as [H1%bool_decide_eq_true H2]. split; [done|lia].
  - destruct H as [H1 H2]. rewrite bool_decide_true by done. simpl. lia.
Qed.

Lemma covered_scts f scts :
  Exists (covered f) (check_timestamps scts)
  <-> exists s, s ∈ scts /\ covered f (mkLogTimestamp (sct_LogID s) (sct_Timestamp s)).
Proof.
  unfold check_timestamps. rewrite Exists_exists. split.
  - intros (t & Ht & Hc). apply list_elem_of_In, in_map_iff in Ht as (s & <- & Hs). exists s.
    split; [by apply list_elem_of_In|done].
  - intros (s & Hs & Hc). eexists. split; [|exact Hc]. apply list_elem_of_In, in_map_iff. exists s.
    split; [done|]. by apply list_elem_of_In.
Qed.

Section Built.
Context {C : Cryptobyte} {L : CryptobyteLaws C} {M : MapRange} {B : Builder} {BL : BuilderLaws B}
  {R : RandSource} {SB : SortFunc block_le} {SK : SortFunc bytes_le}.
Context (ps : list published) (content : bytes).
Hypothesis Hps : wf_published ps.
Hypothesis Hcontent : Index_Bytes (index_of ps) = Ok content.

(** A published file parses to a filter that answers for its description. *)
Lemma published_parses p :
  p ∈ ps -> exists rf, files_of ps (p_name p) = Some (p_data p) /\ FromBytes (p_data p) = Ok rf
                       /\ answers_for (p_filter p) rf.
Proof.
  intros Hp. destruct Hps as [Hn He Hb _]. rewrite Forall_forall in He, Hb.
  destruct (Hb _ Hp) as [rng Hd]. destruct (Filter_Bytes_ok (p_filter p) rng (He _ Hp)) as (data & rf & E & Ep & Ha).
  assert (data = p_data p) as -> by congruence.
  exists rf. split; [by apply files_of_in|]. by split.
Qed.

Lemma content_names_built s :
  content_names content s = Ok (covering_names (Filters (index_of ps)) (sct_LogID s) (sct_Timestamp s)).
Proof.
  destruct (Index_Bytes_content (index_of ps) (wp_index ps Hps)) as (data & E & _ & Hl).
  assert (data = content) as -> by congruence. apply Hl.
Qed.

(** The filters the checker consults are the ones in force. *)
Lemma cached_in_force scts rf :
  cached_filter content (files_of ps) scts rf ->
  exists f, in_force ps scts f /\ answers_for f rf.
Proof.
  intros (s & names & name & d & Hs & Hn & Hin & Hd & Hrf).
  rewrite content_names_built in Hn. injection Hn as <-.
  apply elem_of_covering in Hin as (p & c & Hp & <- & Hc & Hi).
  destruct (published_parses p Hp) as (rf' & Hd' & Hrf' & Ha).
  assert (rf' = rf) as -> by congruence.
  exists (p_filter p). split; [|done]. exists p. split; [done|]. split; [done|].
  apply covered_scts. exists s. split; [done|]. apply in_coverage_covered. by exists c.
Qed.

Lemma in_force_cached scts f :
  in_force ps scts f -> exists rf, cached_filter content (files_of ps) scts rf /\ answers_for f rf.
Proof.
  intros (p & Hp & <- & Hex). apply covered_scts in Hex as (s & Hs & Hcov).
  apply in_coverage_covered in Hcov as (c & Hc & Hi).
  destruct (published_parses p Hp) as (rf & Hd & Hrf & Ha). exists rf. split; [|done].
  exists s, (covering_names (Filters (index_of ps)) (sct_LogID s) (sct_Timestamp s)), (p_name p), (p_data p).
  split; [done|]. split; [apply content_names_built|]. split; [|by split].
  apply elem_of_covering. by exists p, c.
Qed.

Lemma built_consistent scts : consistent content (files_of ps) scts.
Proof.
  intros s _. eexists. split; [apply content_names_built|].
  intros name (p & c & Hp & <- & _)%elem_of_covering.
  destruct (published_parses p Hp) as (rf & Hd & Hrf & _). by exists (p_data p), rf.
Qed.

(** A filter in force covers the certificate, so it answers by its block. *)
Lemma in_force_contains scts f rf key :
  in_force ps scts f -> answers_for f rf ->
  contains_spec rf key (check_timestamps scts) = conclusive rf key.
Proof.
  intros (p & _ & _ & Hex) Ha. unfold contains_spec. rewrite decide_True; [done|].
  eapply Exists_impl; [exact Hex|]. intros t. apply Ha.
Qed.

(** The index the builder wrote opens. *)
Lemma built_opens {AP : AllocPolicy} {SS : SpanSort} {Op : Openers} w ir :
  static_cache content (files_of ps) w -> OpenIndex w = inl ir ->
  exists w1 c, NewCheckerWith w = (w1, Ok c).
Proof.
  intros Hst Ho. destruct (Index_Bytes_content (index_of ps) (wp_index ps Hps)) as (data & E & Hopen & _).
  assert (data = content) as -> by congruence.
  unfold NewCheckerWith, openIndex. rewrite Ho.
  rewrite Hopen by exact (sc_index _ _ _ Hst w ir ltac:(done) Ho). by eexists _, _.
Qed.

(** The cache's answer in terms of the descriptions. *)
Lemma built_answer scts id serial status err :
  cache_answer content (files_of ps) scts (NewKey id serial) status err -> err = None.
Proof.
  intros [_ _ Hi [He|He]]; [done|]. destruct (proj1 Hi He) as ((rf & Hrf) & Hn).
  destruct (Hn rf Hrf). destruct (cached_in_force scts rf Hrf) as (f & (p & Hp & <- & Hex) & Ha).
  eapply Exists_impl; [exact Hex|]. intros t. apply (af_covers _ _ Ha).
Qed.

Lemma built_revoked scts id serial status err :
  cache_answer content (files_of ps) scts (NewKey id serial) status err ->
  (exists f, in_force ps scts f /\ lists_revoked f id serial) -> status = StatusRevoked.
Proof.
  intros [Hr _ _ _] (f & Hf & iss & Hin & <- & Hs). apply Hr.
  destruct (in_force_cached scts f Hf) as (rf & Hrf & Ha). exists rf. split; [done|].
  rewrite (in_force_contains scts f rf) by done. by apply (af_revoked _ _ Ha).
Qed.

(** A filter in force that does not enroll the issuer, or lists the serial as not
    revoked, does not revoke. *)
Lemma in_force_keeps scts rf id serial :
  (forall f, in_force ps scts f -> enrolled f id -> lists_notRevoked f id serial) ->
  cached_filter content (files_of ps) scts rf ->
  exists f, in_force ps scts f /\
    contains_spec rf (NewKey id serial) (check_timestamps scts)
    = if decide (enrolled f id) then Crlite.StatusGood else Crlite.StatusNotEnrolled.
Proof.
  intros Hall Hrf. destruct (cached_in_force scts rf Hrf) as (f & Hf & Ha). exists f. split; [done|].
  rewrite (in_force_contains scts f rf) by done. case_decide as He.
  - destruct (Hall f Hf He) as (iss & Hin & <- & Hs). by apply (af_notRevoked _ _ Ha).
  - by apply (af_other _ _ Ha).
Qed.

Lemma built_notRevoked scts id serial status err :
  cache_answer content (files_of ps) scts (NewKey id serial) status err ->
  (forall f, in_force ps scts f -> enrolled f id -> lists_notRevoked f id serial) ->
  (exists f, in_force ps scts f /\ enrolled f id) -> status = StatusNotRevoked.
Proof.
  intros [_ Hn _ _] Hall (f & Hf & He). apply Hn. split.
  - intros rf Hrf. destruct (in_force_keeps scts rf id serial Hall Hrf) as (g & _ & ->). by case_decide.
  - destruct (in_force_cached scts f Hf) as (rf & Hrf & Ha). exists rf. split; [done|].
    rewrite (in_force_contains scts f rf) by done.
    destruct (Hall f Hf He) as (iss & Hin & <- & Hs). by apply (af_notRevoked _ _ Ha).
Qed.

Lemma built_notCovered scts id serial status err :
  cache_answer content (files_of ps) scts (NewKey id serial) status err ->
  (forall f, in_force ps scts f -> ~ enrolled f id) -> status = StatusNotCovered.
Proof.
  intros [Hr Hn _ _] Hnone.
  assert (forall rf, cached_filter content (files_of ps) scts rf ->
    contains_spec rf (NewKey id serial) (check_timestamps scts) = Crlite.StatusNotEnrolled) as Hc.
  { intros rf Hrf. destruct (in_force_keeps scts rf id serial) as (g & Hg & ->); [|done|].
    - intros g Hg He. by destruct (Hnone g Hg).
    - by rewrite decide_False by (by apply Hnone). }
  destruct status; [done| |].
  - destruct (proj1 Hr eq_refl) as (rf & Hrf & E). by rewrite (Hc rf Hrf) in E.
  - destruct (proj2 (proj1 Hn eq_refl)) as (rf & Hrf & E). by rewrite (Hc rf Hrf) in E.
Qed.
End Built.

(** ** Properties *)

(** C7. End to end over a cache written by the builders: with [index.bin] written by
    [Index.Bytes] for the published filters and every file written by [Filter.Bytes],
    whatever the free variables of the ribbons are, the checker opens, and a check of
    a certificate with SCTs never errors: it is Revoked when a filter covering one of
    the SCTs enrolls the serial as revoked under the issuer's key hash, NotRevoked
    when some covering filter enrolls the issuer and all those that do list the serial
    as not revoked, and NotCovered when no covering filter enrolls the issuer. *)
Theorem built_cache_answers {C : Cryptobyte} {L : CryptobyteLaws C} {M : MapRange} {B : Builder}
    {BL : BuilderLaws B} {R : RandSource} {SB : SortFunc block_le} {SK : SortFunc bytes_le}
    {AP : AllocPolicy} {SS : SpanSort} {Op : Openers} (ps : list published) (content : bytes)
    (w : World) (ir : IndexReader) (leaf issuer : Certificate) (rest : list Certificate)
    (scts : list SCT) (serial : bytes) :
  wf_published ps -> Index_Bytes (index_of ps) = Ok content ->
  static_cache content (files_of ps) w -> OpenIndex w = inl ir ->
  EmbeddedSCTs leaf = Ok scts -> scts <> [] -> RawSerial leaf = Ok serial ->
  let id := sha256_Sum256 (RawSubjectPublicKeyInfo issuer) in
  exists status,
    (Check (leaf :: issuer :: rest) w).2 = Ok (status, None)
    /\ ((exists f, in_force ps scts f /\ lists_revoked f id serial) -> status = StatusRevoked)
    /\ ((forall f, in_force ps scts f -> enrolled f id -> lists_notRevoked f id serial) ->
        (exists f, in_force ps scts f /\ enrolled f id) -> status = StatusNotRevoked)
    /\ ((forall f, in_force ps scts f -> ~ enrolled f id) -> status = StatusNotCovered).
Proof.
  intros Hps Hcontent Hst Ho Hscts Hne Hserial id.
  destruct (built_opens ps content Hps Hcontent w ir Hst Ho) as (w1 & c & Hnew).
  destruct (Check_static_answer content (files_of ps) w w1 c leaf issuer rest scts serial
    Hst Hnew Hscts Hne Hserial (built_consistent ps content Hps Hcontent scts))
    as (w2 & c2 & status & err & E & Ha).
  pose proof (built_answer ps content Hps Hcontent _ _ _ _ _ Ha) as ->. exists status.
  unfold Check. rewrite Hnew, E. split; [by destruct (Close c2 w2) as [[??]?]|].
  split; [by eapply built_revoked|]. split; [by eapply built_notRevoked|by eapply built_notCovered].
Qed.

(** ** Witnesses *)

(** One filter, which enrolls the sample certificate as revoked. *)
Definition built_sample_filter : ClubcardEncode.Filter :=
  mkFilter [mkIssuer sample_issuer [[Init.Byte.x00; Init.Byte.xff]]
              [[Init.Byte.x02]; [Init.Byte.x03]; [Init.Byte.x04]] None None]
    [mkCoverage UpkiIndex.sample_log 100 200].
Definition built_sample_name : bytes := go_string "a.filter".

Lemma built_sample_encodable : encodable built_sample_filter.
Proof.
  constructor.
  - apply List.Forall_cons; [|constructor].
    split; [by vm_compute|]. split; [by repeat constructor|]. split; [by repeat constructor|].
    split; [|by vm_compute].
    intros s Hs%list_elem_of_singleton. rewrite Hs. refine (bool_decide_eq_true_1 (_ ∉ _) _). by vm_compute.
  - by repeat constructor.
  - apply NoDup_singleton.
  - by vm_compute.
  - split; [by vm_compute|]. split; [apply NoDup_singleton|].
    apply List.Forall_cons; [split; [by vm_compute|by vm_compute]|]. constructor.
Qed.

(** The sample filter published under a name. *)
Definition built_as (name data : bytes) : list published := [mkPublished name built_sample_filter data].

Lemma built_as_index name data : valid_filename name -> encodable_index (index_of (built_as name data)).
Proof.
  intros Hname. constructor.
  - by vm_compute.
  - by apply List.Forall_cons; [|constructor].
  - apply List.Forall_cons; [split; [by vm_compute|by vm_compute]|constructor].
  - by vm_compute.
  - intros id. unfold described. simpl. case_bool_decide; by vm_compute.
Qed.

Lemma valid_filename_checked name : validateFilterFilename name = Ok tt -> blen name <= 32 -> valid_filename name.
Proof. intros H Hl. by apply (proj1 (validateFilterFilename_Ok name tt Hl)). Qed.

Lemma built_sample_covered : Exists (covered built_sample_filter) (check_timestamps sample_scts).
Proof.
  apply (List.Exists_cons_hd _ (mkLogTimestamp UpkiIndex.sample_log 150)).
  exists (mkCoverage UpkiIndex.sample_log 100 200).
  split; [by left|]. cbn [cov_LogId lt_LogId lt_Timestamp MinTimestamp MaxTimestamp]. split; [reflexivity|lia].
Qed.

Definition built_sample (data : bytes) : list published := built_as built_sample_name data.

Lemma built_as_published name data :
  valid_filename name -> (exists rng, Filter_Bytes (R := pcg) built_sample_filter rng = Ok data) ->
  wf_published (R := pcg) (built_as name data).
Proof.
  intros Hname Hdata. constructor.
  - apply NoDup_singleton.
  - apply List.Forall_cons; [apply built_sample_encodable|constructor].
  - by apply List.Forall_cons; [|constructor].
  - by apply built_as_index.
Qed.

Lemma built_sample_published : exists data, wf_published (R := pcg) (built_sample data).
Proof.
  destruct (Filter_Bytes_ok (R := pcg) built_sample_filter (NewPCG 0 0) built_sample_encodable)
    as (data & _ & E & _).
  exists data. apply built_as_published; [by apply valid_filename_checked; vm_compute|by eexists].
Qed.

Lemma built_sample_revoked data :
  exists f, in_force (built_sample data) sample_scts f
    /\ lists_revoked f (sha256_Sum256 (RawSubjectPublicKeyInfo sample_cert)) [Init.Byte.x00; Init.Byte.xff].
Proof.
  exists built_sample_filter. split.
  - eexists. split; [by left|]. split; [reflexivity|]. apply built_sample_covered.
  - eexists. split; [by left|]. split; [reflexivity|by left].
Qed.

Lemma built_sample_opens content files :
  OpenIndex (Openers := cache_openers content files) [] = inl (mkIndexReader (bytes_reader content) None).
Proof. done. Qed.

Lemma built_cache_answers_witness :
  exists content files,
    (Check (Op := cache_openers content files) [sample_cert; sample_cert] []).2 = Ok (StatusRevoked, None).
Proof.
  destruct built_sample_published as (data & Hps). set (ps := built_sample data) in *.
  pose proof (built_sample_revoked data : exists f, in_force ps sample_scts f /\ _) as Hrev.
  destruct (Index_Bytes_content (B := builder_ref) (index_of ps) (wp_index (R := pcg) ps Hps))
    as (content & E & _).
  exists content, (files_of ps).
  destruct (built_cache_answers (B := builder_ref) (R := pcg)
    (Op := cache_openers content (files_of ps)) ps content [] (mkIndexReader (bytes_reader content) None)
    sample_cert sample_cert [] sample_scts [Init.Byte.x00; Init.Byte.xff] Hps E
    (cache_openers_static content (files_of ps) []) (built_sample_opens content (files_of ps))
    sample_scts_ok sample_scts_some sample_serial_ok)
    as (status & Ec & Hr & _).
  rewrite (Hr Hrev) in Ec. exact Ec.
Defined.
