(* ===== verification/CheckerConc.v ===== *)
(** * Concurrent use of one checker ([upki/check.go])

    [Check] and [Close] called by any number of goroutines on one [Checker], as a
    small-step machine: one step per lock operation, per index lookup and per filter
    query, and one for the body of each critical section under the write lock. *)
From S2P Require Import Prelude Codec Cryptobyte GoIO UpkiIndex Clubcard CrliteParser Sha256 Crlite Sct Checker.

(** ** [sync.RWMutex]

    A waiting writer keeps new readers out; [None] is a call that blocks (or, for the
    unlocks, the run-time error of unlocking an unlocked mutex). *)
Record RWMutex := mkRWMutex { readers : nat; writer : bool; waiting : nat }.

Definition RLock (m : RWMutex) : option RWMutex :=
  if writer m || negb (waiting m =? 0)%nat then None
  else Some (mkRWMutex (S (readers m)) (writer m) (waiting m)).
Definition RUnlock (m : RWMutex) : option RWMutex :=
  match readers m with
  | O => None
  | S n => Some (mkRWMutex n (writer m) (waiting m))
  end.
Definition Lock_announce (m : RWMutex) : RWMutex :=
  mkRWMutex (readers m) (writer m) (S (waiting m)).
Definition Lock_acquire (m : RWMutex) : option RWMutex :=
  if negb (writer m) && (readers m =? 0)%nat
  then Some (mkRWMutex (readers m) true (pred (waiting m))) else None.
Definition Unlock (m : RWMutex) : option RWMutex :=
  if writer m then Some (mkRWMutex (readers m) false (waiting m)) else None.

(** ** Threads *)

(** Where a call of [Check] that reached its retry loop is. *)
Inductive check_phase :=
  | AtRLock (reopens : Z)
  | Scanning (reopens : Z) (idx : IndexRef) (rest : list SCT) (names : list bytes) (st : scan)
  | AtRUnlock (reopens : Z) (ret : Status * option IndexRef * option error)
  | AtLock (reopens : Z) (stale : option IndexRef)
  | Waiting (reopens : Z) (stale : option IndexRef)
  | Reopening (reopens : Z) (stale : option IndexRef)
  | AtUnlock (reopens : Z) (rerr : option error)
  | Returned (ret : Status * option error)
  | Crashed.

Inductive close_phase :=
  | CAtLock | CWaiting | CClosing | CAtUnlock (err : option error) | CReturned (err : option error)
  | CCrashed.

Inductive thread :=
  | TCheck (key : LookupKey) (scts : list SCT) (p : check_phase)
  | TClose (p : close_phase).

(** What the goroutines share: the mutex, the outside world and [c.idx]. *)
Record Shared := mkShared { sh_mu : RWMutex; sh_world : World; sh_checker : Checker }.
Record State := mkState { shared : Shared; threads : list thread }.

Section Machine.
Context {C : Cryptobyte} {M : MapRange} {AP : AllocPolicy} {SS : SpanSort} {Op : Openers}.

(** One iteration of the loops of [checkOnce], or what follows them. *)
Definition scan_step (key : LookupKey) (scts : list SCT) (reopens : Z) (idx : IndexRef)
    (rest : list SCT) (names : list bytes) (st : scan) (w : World) : World * check_phase :=
  let return_ ret := AtRUnlock reopens (ret.1, Some idx, ret.2) in
  match names with
  | f :: fs =>
      let '(w, t) := query_one key (check_timestamps scts) f w st in
      (w, match t with
          | inl st => Scanning reopens idx rest fs st
          | inr (Ok ret) => return_ ret
          | inr _ => Crashed
          end)
  | [] =>
      match rest with
      | s :: rest =>
          (w, match lookup_sct (ref_index idx) s with
              | Ok names => Scanning reopens idx rest names st
              | Err err => return_ (StatusNotCovered, Some err)
              | _ => Crashed
              end)
      | [] => (w, return_ (conclude st))
      end
  end.

(** One step of a check; [None] when it is blocked or has returned. *)
Definition step_check (s : Shared) (key : LookupKey) (scts : list SCT) (p : check_phase)
    : option (Shared * check_phase) :=
  let '(mkShared mu w c) := s in
  match p with
  | AtRLock reopens =>
      mu ← RLock mu;
      Some (mkShared mu w c,
            match c_idx c with
            | None => AtRUnlock reopens (StatusNotCovered, None, Some errCheckerClosed)
            | Some idx => Scanning reopens idx scts [] scan0
            end)
  | Scanning reopens idx rest names st =>
      let '(w, p) := scan_step key scts reopens idx rest names st w in Some (mkShared mu w c, p)
  | AtRUnlock reopens (status, idx, err) =>
      Some match RUnlock mu with
           | None => (s, Crashed)
           | Some mu => (mkShared mu w c,
               if surfaces err reopens then Returned (status, err) else AtLock reopens idx)
           end
  | AtLock reopens stale => Some (mkShared (Lock_announce mu) w c, Waiting reopens stale)
  | Waiting reopens stale =>
      mu ← Lock_acquire mu; Some (mkShared mu w c, Reopening reopens stale)
  | Reopening reopens stale =>
      let '(w, c, r) := reopenIndex c stale w in
      Some (mkShared mu w c,
            match r with
            | Ok _ => AtUnlock reopens None
            | Err rerr => AtUnlock reopens (Some rerr)
            | _ => Crashed
            end)
  | AtUnlock reopens rerr =>
      Some match Unlock mu with
           | None => (s, Crashed)
           | Some mu => (mkShared mu w c,
               match rerr with
               | None => AtRLock (reopens + 1)
               | Some rerr => Returned (StatusNotCovered,
                   Some (Errorf "upki: reopening superseded index: %w" [AErr rerr]))
               end)
           end
  | Returned _ | Crashed => None
  end.

(** One step of [Close]. *)
Definition step_close (s : Shared) (p : close_phase) : option (Shared * close_phase) :=
  let '(mkShared mu w c) := s in
  match p with
  | CAtLock => Some (mkShared (Lock_announce mu) w c, CWaiting)
  | CWaiting => mu ← Lock_acquire mu; Some (mkShared mu w c, CClosing)
  | CClosing => let '(w, c, err) := Close c w in Some (mkShared mu w c, CAtUnlock err)
  | CAtUnlock err =>
      Some match Unlock mu with
           | None => (s, CCrashed)
           | Some mu => (mkShared mu w c, CReturned err)
           end
  | CReturned _ | CCrashed => None
  end.

Definition step_thread (s : Shared) (t : thread) : option (Shared * thread) :=
  match t with
  | TCheck key scts p => '(s, p) ← step_check s key scts p; Some (s, TCheck key scts p)
  | TClose p => '(s, p) ← step_close s p; Some (s, TClose p)
  end.

(** Thread [i] moves. *)
Definition step_at (i : nat) (s : State) : option State :=
  t ← threads s !! i; '(sh, t) ← step_thread (shared s) t;
  Some (mkState sh (<[i := t]> (threads s))).

(** Any thread moves. *)
Inductive step (s s' : State) : Prop :=
  | step_any i : step_at i s = Some s' -> step s s'.

End Machine.

(** What a thread does at the start. *)
Inductive call := CallCheck (chain : list Certificate) | CallClose.

(** A call of [Check] up to its retry loop touches nothing shared. *)
Definition spawn {C : Cryptobyte} (k : call) : thread :=
  match k with
  | CallClose => TClose CAtLock
  | CallCheck chain =>
      match check_inputs chain with
      | inl ret => TCheck (mkLookupKey [] [] []) [] (Returned ret)
      | inr (Ok (key, scts)) => TCheck key scts (AtRLock 0)
      | inr _ => TCheck (mkLookupKey [] [] []) [] Crashed
      end
  end.

(** A checker in use by the goroutines that run [calls]. *)
Definition start {C : Cryptobyte} (w : World) (c : Checker) (calls : list call) : State :=
  mkState (mkShared (mkRWMutex 0 false 0) w c) (map spawn calls).

(** ** Lock accounting *)
Definition holds_read (t : thread) : bool :=
  match t with TCheck _ _ (Scanning _ _ _ _ _) | TCheck _ _ (AtRUnlock _ _) => true | _ => false end.
Definition holds_write (t : thread) : bool :=
  match t with
  | TCheck _ _ (Reopening _ _) | TCheck _ _ (AtUnlock _ _) => true
  | TClose CClosing | TClose (CAtUnlock _) => true
  | _ => false
  end.
Definition waits (t : thread) : bool :=
  match t with TCheck _ _ (Waiting _ _) | TClose CWaiting => true | _ => false end.
Definition finished (t : thread) : bool :=
  match t with TCheck _ _ (Returned _) | TClose (CReturned _) => true | _ => false end.

Definition count (f : thread -> bool) (ts : list thread) : nat := length (List.filter f ts).

Lemma count_insert f ts i t t' :
  ts !! i = Some t ->
  (count f (<[i := t']> ts) + Nat.b2n (f t) = count f ts + Nat.b2n (f t'))%nat.
Proof.
  revert i. induction ts as [|u ts IH]; intros [|i] H; simpl in H; [done|done| |].
  - injection H as ->. unfold count. simpl. destruct (f t), (f t'); simpl; lia.
  - specialize (IH i H). unfold count in *. simpl. destruct (f u); simpl; lia.
Qed.

Lemma count_pos f ts i t : ts !! i = Some t -> f t = true -> (0 < count f ts)%nat.
Proof.
  intros Hi Hf. pose proof (count_insert f ts i t t Hi) as H.
  unfold count in *. apply list_elem_of_lookup_2, list_elem_of_In in Hi.
  pose proof (proj2 (filter_In f t ts) (conj Hi Hf)) as Hin.
  destruct (List.filter f ts); [done|]. simpl. lia.
Qed.

Lemma count_pos_inv f ts : (0 < count f ts)%nat -> exists i t, ts !! i = Some t /\ f t = true.
Proof.
  unfold count. destruct (List.filter f ts) as [|t l] eqn:E; simpl; [lia|]. intros _.
  assert (In t (List.filter f ts)) as Hin by (rewrite E; by left).
  apply filter_In in Hin as [Hin Hf]. apply list_elem_of_In, list_elem_of_lookup in Hin as [i Hi].
  by exists i, t.
Qed.

(** ** What each phase knows *)
Definition check_ok (c : Checker) (scts : list SCT) (p : check_phase) : Prop :=
  match p with
  | AtRLock reopens => 0 <= reopens <= maxIndexReopens
  | Scanning reopens idx rest names _ =>
      0 <= reopens <= maxIndexReopens /\ c_idx c = Some idx /\ wf_scts rest
      /\ blen rest <= blen scts /\ blen names < 65536
  | AtRUnlock reopens (status, idx, err) =>
      0 <= reopens <= maxIndexReopens /\ (err <> None -> status = StatusNotCovered)
      /\ (idx = None -> err = Some errCheckerClosed)
  | AtLock reopens stale | Waiting reopens stale | Reopening reopens stale =>
      0 <= reopens < maxIndexReopens /\ stale <> None
  | AtUnlock reopens _ => 0 <= reopens < maxIndexReopens
  | Returned (status, err) => err <> None -> status = StatusNotCovered
  | Crashed => False
  end.

Definition thread_ok (c : Checker) (t : thread) : Prop :=
  match t with
  | TCheck _ scts p => wf_scts scts /\ check_ok c scts p
  | TClose CCrashed => False
  | TClose _ => True
  end.

(** Bounds the steps a thread still takes. *)
Definition pass_size (scts : list SCT) : Z := 10 + blen scts * 65536.
Definition check_size (scts : list SCT) (p : check_phase) : Z :=
  match p with
  | AtRLock reopens => (3 - reopens) * pass_size scts
  | Scanning reopens _ rest names _ =>
      (2 - reopens) * pass_size scts + 8 + blen rest * 65536 + blen names
  | AtRUnlock reopens _ => (2 - reopens) * pass_size scts + 6
  | AtLock reopens _ => (2 - reopens) * pass_size scts + 5
  | Waiting reopens _ => (2 - reopens) * pass_size scts + 4
  | Reopening reopens _ => (2 - reopens) * pass_size scts + 3
  | AtUnlock reopens _ => (2 - reopens) * pass_size scts + 2
  | Returned _ | Crashed => 0
  end.
Definition size (t : thread) : Z :=
  match t with
  | TCheck _ scts p => check_size scts p
  | TClose CAtLock => 4
  | TClose CWaiting => 3
  | TClose CClosing => 2
  | TClose (CAtUnlock _) => 1
  | TClose _ => 0
  end.

(** From [w] to [w'] only filters were opened and closed. *)
Definition filter_event (e : event) : Prop := match e with IndexOpened _ => False | _ => True end.
Definition same_index (w w' : World) : Prop := exists es, w' = w ++ es /\ Forall filter_event es.

#[export] Instance same_index_preorder : PreOrder same_index.
Proof.
  split.
  - intros w. exists []. by rewrite app_nil_r.
  - intros w1 w2 w3 (e1 & -> & H1) (e2 & -> & H2). exists (e1 ++ e2).
    by rewrite <- app_assoc, Forall_app.
Qed.

Lemma same_index_prefix w w' : same_index w w' -> w `prefix_of` w'.
Proof. intros (es & -> & _). by eexists. Qed.

(** ** Lemmas on the operations *)
Section Lemmas.
Context {C : Cryptobyte} {L : CryptobyteLaws C} {M : MapRange} {AP : AllocPolicy} {SS : SpanSort}
  {Op : Openers}.

Lemma query_one_total key ts n w st :
  match query_one key ts n w st with
  | (w', inl _) => quiet w w'
  | (w', inr (Ok (status, err))) => quiet w w' /\ (err <> None -> status = StatusNotCovered)
  | _ => False
  end.
Proof.
  unfold query_one. destruct (decide _); [done|].
  pose proof (queryFilter_total n key ts w) as Ht. pose proof (queryFilter_quiet n key ts w) as Hq.
  destruct (queryFilter n key ts w) as [w' [a|e| |]]; simpl in *; [|by split|done|done].
  by destruct a.
Qed.

Lemma Lookup_length idx id ts names :
  UpkiIndex.wf_index idx -> length id = 32%nat -> Lookup idx id ts = Ok names -> blen names < 65536.
Proof.
  intros Hwf Hid H. unfold Lookup in H. rewrite findLog_eq in H by done. go_simp.
  destruct Hwf as [Hn Hd _ _ _ _].
  destruct (dir_find _ _ _) as [i|] eqn:E; [|injection H as <-; unfold blen; simpl; lia].
  assert (0 <= i < numLogs idx) as Hi.
  { unfold dir_find in E. apply find_some in E as [E _].
    apply list_elem_of_In, elem_of_seqZ in E. lia. }
  simpl in H. rewrite (dir_slice _ _ Hd i 32 40), (dir_slice _ _ Hd i 40 42) in H
    by (done || lia || (unfold logDirEntrySize; lia)). go_simp.
  change (42 - 40) with 2 in H. fold (dir_count (logDir idx) i) in H.
  pose proof (dir_count_range _ _ Hd i Hi) as Hc.
  apply bind_Ok in H as (buf & _ & H).
  apply (for_n_inv (fun k acc => blen acc <= k)) in H; [unfold blen in *; lia| |done].
  intros k acc acc' _ Hacc Hb. unfold lookup_entry in Hb. apply bind_Ok in Hb as (fb & _ & Hb).
  destruct (_ <=? _); [done|]. inv_binds Hb. destruct (_ || _).
  - injection Hb as <-. lia.
  - inv_binds Hb. injection Hb as <-. unfold blen in *. rewrite length_app. simpl. lia.
Qed.

Lemma reopenIndex_any c stale w :
  progressing -> wf_checker c -> stale <> None ->
  match reopenIndex c stale w with
  | (w', c', Ok _) => wf_checker c' /\ transfers c w c' w'
  | (w', c', Err _) => c' = c /\ quiet w w'
  | _ => False
  end.
Proof.
  intros Hp Hwf Hs. destruct (same_ref (c_idx c) stale) eqn:E.
  - destruct (c_idx c) as [r|] eqn:Hc.
    2: { apply bool_decide_eq_true in E. by destruct stale. }
    assert (reopenIndex c stale w = reopenIndex c (Some r) w) as ->.
    { unfold reopenIndex. rewrite Hc, E. unfold same_ref. by rewrite bool_decide_eq_true_2. }
    pose proof (reopenIndex_spec c r w Hp Hc (Hwf r Hc)) as H.
    destruct (reopenIndex c (Some r) w) as [[w' c'] [u|e| |]]; [|done..].
    by destruct H as (? & ? & _).
  - unfold reopenIndex. rewrite E. simpl. split; [done|by apply transfers_quiet].
Qed.

(** ** One step of one thread *)

(** The thread's share of the lock is what the mutex says. *)
Record lock_ok (m : RWMutex) (t : thread) : Prop := {
  lk_read : holds_read t = true -> (0 < readers m)%nat;
  lk_write : holds_write t = true -> writer m = true;
  lk_wait : waits t = true -> (0 < waiting m)%nat;
  lk_excl : writer m = true -> readers m = O
}.

Record step_ok (s : Shared) (t : thread) (s' : Shared) (t' : thread) : Prop := {
  sk_read : (readers (sh_mu s') + Nat.b2n (holds_read t) = readers (sh_mu s) + Nat.b2n (holds_read t'))%nat;
  sk_write : (Nat.b2n (writer (sh_mu s')) + Nat.b2n (holds_write t)
              = Nat.b2n (writer (sh_mu s)) + Nat.b2n (holds_write t'))%nat;
  sk_wait : (waiting (sh_mu s') + Nat.b2n (waits t) = waiting (sh_mu s) + Nat.b2n (waits t'))%nat;
  sk_excl : writer (sh_mu s') = true -> readers (sh_mu s') = O;
  sk_checker : wf_checker (sh_checker s');
  sk_transfers : transfers (sh_checker s) (sh_world s) (sh_checker s') (sh_world s');
  sk_same : sh_checker s' = sh_checker s \/ holds_write t = true;
  sk_ok : thread_ok (sh_checker s') t';
  sk_size : 0 <= size t' < size t
}.

Lemma slack reopens scts : reopens <= 2 -> 0 <= (2 - reopens) * pass_size scts.
Proof. intros H. unfold pass_size, blen. nia. Qed.

(** Arithmetic about the sizes of simpl; sizes. *)
Ltac sizes :=
  match goal with
  | H : ?a <= ?r <= maxIndexReopens |- context[pass_size ?scts] => pose proof (slack r scts (proj2 H))
  | H : ?a <= ?r < maxIndexReopens |- context[pass_size ?scts] =>
      pose proof (slack r scts ltac:(unfold maxIndexReopens in H; lia))
  | _ => idtac
  end;
  try match goal with
  | |- context[pass_size ?scts] =>
      assert (pass_size scts = 10 + blen scts * 65536) by reflexivity
  end;
  unfold maxIndexReopens, blen in *; rewrite ?length_cons, ?length_nil in *; lia.

Lemma scan_step_ok key scts reopens idx rest names st w mu c :
  wf_checker c -> c_idx c = Some idx -> lock_ok mu (TCheck key scts (Scanning reopens idx rest names st)) ->
  thread_ok c (TCheck key scts (Scanning reopens idx rest names st)) ->
  let '(w', p') := scan_step key scts reopens idx rest names st w in
  step_ok (mkShared mu w c) (TCheck key scts (Scanning reopens idx rest names st))
          (mkShared mu w' c) (TCheck key scts p').
Proof.
  intros Hwf Hc [L1 L2 L3 L4] [Hs (Hr & _ & Hrest & Hlen & Hnames)]. pose proof (Hwf idx Hc) as [Hidx _].
  assert (forall w' p', quiet w w' -> holds_read (TCheck key scts p') = true ->
    holds_write (TCheck key scts p') = false -> waits (TCheck key scts p') = false ->
    check_ok c scts p' ->
    0 <= check_size scts p' < check_size scts (Scanning reopens idx rest names st) ->
    step_ok (mkShared mu w c) (TCheck key scts (Scanning reopens idx rest names st))
            (mkShared mu w' c) (TCheck key scts p')) as Hstep.
  { intros w' p' Hq H1 H2 H3 Hok Hsz. constructor; try done; simpl in *; rewrite ?H1, ?H2, ?H3; simpl; try lia.
    - by apply transfers_quiet.
    - by left. }
  unfold scan_step. destruct names as [|f fs].
  - destruct rest as [|s rest].
    + apply Hstep; try done; [|simpl; sizes]. unfold conclude. by repeat case_match.
    + inversion Hrest as [|? ? Hid Hrest']; subst. pose proof (lookup_sct_total (ref_index idx) s Hidx Hid) as Ht.
      destruct (lookup_sct (ref_index idx) s) as [names|e| |] eqn:El; simpl in Ht; [| |done|done].
      * unfold lookup_sct in El. apply wrap_err_Ok, Lookup_length in El; [|done..].
        apply Hstep; try done; [|simpl; sizes]. simpl. split; [done|]. split; [done|]. split; [done|].
        simpl; sizes.
      * apply Hstep; try done. simpl; sizes.
  - pose proof (query_one_total key (check_timestamps scts) f w st) as Ht.
    destruct (query_one key (check_timestamps scts) f w st) as [w' [st'|[[status err]|e| |]]]; try done.
    + apply Hstep; try done; [|simpl; sizes]. simpl. do 4 (split; [done|]). simpl; sizes.
    + destruct Ht as [Hq He]. apply Hstep; try done. simpl; sizes.
Qed.

(** A step that leaves the world and the checker as they are. *)
Lemma lock_step_ok mu w c t mu' t' :
  wf_checker c -> 
  (readers mu' + Nat.b2n (holds_read t) = readers mu + Nat.b2n (holds_read t'))%nat ->
  (Nat.b2n (writer mu') + Nat.b2n (holds_write t) = Nat.b2n (writer mu) + Nat.b2n (holds_write t'))%nat ->
  (waiting mu' + Nat.b2n (waits t) = waiting mu + Nat.b2n (waits t'))%nat ->
  (writer mu' = true -> readers mu' = O) -> thread_ok c t' -> 0 <= size t' < size t ->
  step_ok (mkShared mu w c) t (mkShared mu' w c) t'.
Proof. intros. constructor; try done; first [by apply transfers_quiet|by left]. Qed.

(** A step of the thread that holds the write lock. *)
Lemma write_step_ok mu w c t w' c' t' :
  writer mu = true -> readers mu = O -> wf_checker c' -> transfers c w c' w' ->
  holds_write t = true -> holds_write t' = true -> holds_read t = false -> holds_read t' = false ->
  waits t = false -> waits t' = false -> thread_ok c' t' -> 0 <= size t' < size t ->
  step_ok (mkShared mu w c) t (mkShared mu w' c') t'.
Proof.
  intros Hw Hr Hwf Ht H1 H2 H3 H4 H5 H6 Hok Hsz.
  constructor; simpl; rewrite ?H1, ?H2, ?H3, ?H4, ?H5, ?H6; try done; by right.
Qed.

Lemma RLock_Some m m' : RLock m = Some m' ->
  writer m = false /\ waiting m = O /\ m' = mkRWMutex (S (readers m)) false O.
Proof.
  unfold RLock. destruct m as [r [] [|n]]; simpl; try done. by intros [= <-].
Qed.

Lemma Lock_acquire_Some m m' : Lock_acquire m = Some m' ->
  writer m = false /\ readers m = O /\ m' = mkRWMutex O true (pred (waiting m)).
Proof.
  unfold Lock_acquire. destruct m as [[|r] [] n]; simpl; try done. by intros [= <-].
Qed.

Lemma step_check_ok key scts p s s' p' :
  progressing -> wf_checker (sh_checker s) -> lock_ok (sh_mu s) (TCheck key scts p) ->
  thread_ok (sh_checker s) (TCheck key scts p) -> step_check s key scts p = Some (s', p') ->
  step_ok s (TCheck key scts p) s' (TCheck key scts p').
Proof.
  intros Hp Hwf HL Hok. destruct s as [mu w c]. pose proof HL as [L1 L2 L3 L4].
  pose proof Hok as [Hs Hp']. simpl in Hwf, Hs.
  destruct p as [r|r idx rest names st|r [[status idx] err]|r stale|r stale|r stale|r rerr|ret|];
    simpl in L1, L2, L3, L4, Hp' |- *.
  - intros H. destruct (RLock mu) as [mu1|] eqn:E; [|done]. simpl in H. injection H as <- <-.
    apply RLock_Some in E as (Hw & Hn & ->).
    apply lock_step_ok; simpl; rewrite ?Hw, ?Hn; try done; destruct (c_idx c) as [idx|] eqn:Hc; simpl; try lia.
    + do 3 (split; [done|]). split; [done|]. by split.
    + by do 3 (split; [done|]).
    + sizes.
    + sizes.
  - intros H. pose proof (scan_step_ok key scts r idx rest names st w mu c Hwf) as Hstep.
    destruct Hp' as (Hr & Hc & Hrest). specialize (Hstep Hc HL Hok).
    destruct (scan_step _ _ _ _ _ _ _ _) as [w1 p1]. by injection H as <- <-.
  - specialize (L1 eq_refl). unfold RUnlock. destruct (readers mu) as [|n] eqn:En; [lia|].
    intros [= <- <-]. destruct Hp' as (Hr & He & Hidx). destruct (writer mu) eqn:Ew; [by specialize (L4 eq_refl)|].
    destruct (surfaces err r) eqn:Es; apply lock_step_ok; simpl; rewrite ?Ew; try done; try lia.
    + sizes.
    + split; [done|]. unfold surfaces in Es. destruct err as [e|]; [|done].
      apply orb_false_iff in Es as [Es1 Es2]. apply Z.eqb_neq in Es2. split; [lia|].
      intros ->. specialize (Hidx eq_refl) as [= ->]. by vm_compute in Es1.
    + sizes.
  - destruct Hp' as [Hr Hst]. intros [= <- <-]. apply lock_step_ok; simpl; try done; try lia. sizes.
  - specialize (L3 eq_refl). destruct Hp' as [Hb Hst]. intros H.
    destruct (Lock_acquire mu) as [mu1|] eqn:E; [|done].
    simpl in H. injection H as <- <-. apply Lock_acquire_Some in E as (Hw & Hr & ->).
    apply lock_step_ok; simpl; rewrite ?Hw, ?Hr; simpl; try done; try lia. sizes.
  - specialize (L2 eq_refl). destruct Hp' as [Hr Hst].
    pose proof (reopenIndex_any c stale w Hp Hwf Hst) as Hre.
    destruct (reopenIndex c stale w) as [[w1 c1] [u|e| |]]; [| |done|done]; intros [= <- <-].
    + destruct Hre as [Hwf1 Ht1]. apply write_step_ok; simpl; try done; [by apply L4|]. sizes.
    + destruct Hre as [-> Hq]. apply write_step_ok; simpl; try done; [by apply L4|by apply transfers_quiet|]. sizes.
  - specialize (L2 eq_refl). specialize (L4 L2). unfold Unlock. rewrite L2. intros [= <- <-].
    apply lock_step_ok; simpl; rewrite ?L2, ?L4; simpl; try done; destruct rerr; simpl; try done; try lia.
    + split; [done|]. unfold maxIndexReopens in *. lia.
    + sizes.
    + sizes.
  - done.
  - done.
Qed.

Lemma step_close_ok p s s' p' :
  wf_checker (sh_checker s) -> lock_ok (sh_mu s) (TClose p) ->
  thread_ok (sh_checker s) (TClose p) -> step_close s p = Some (s', p') ->
  step_ok s (TClose p) s' (TClose p').
Proof.
  intros Hwf [L1 L2 L3 L4] Hok. destruct s as [mu w c]. simpl in Hwf.
  destruct p as [| | |err|err|]; simpl in L1, L2, L3, L4 |- *.
  - intros [= <- <-]. apply lock_step_ok; simpl; try done; lia.
  - specialize (L3 eq_refl). intros H. destruct (Lock_acquire mu) as [mu1|] eqn:E; [|done].
    simpl in H. injection H as <- <-. apply Lock_acquire_Some in E as (Hw & Hr & ->).
    apply lock_step_ok; simpl; rewrite ?Hw, ?Hr; simpl; try done; lia.
  - specialize (L2 eq_refl). destruct (Close_spec c w Hwf) as (w1 & err & -> & Ht). intros [= <- <-].
    apply write_step_ok; simpl; try done; by apply L4.
  - specialize (L2 eq_refl). specialize (L4 L2). unfold Unlock. rewrite L2. intros [= <- <-].
    apply lock_step_ok; simpl; rewrite ?L2, ?L4; simpl; try done; lia.
  - done.
  - done.
Qed.

Lemma step_thread_ok s t s' t' :
  progressing -> wf_checker (sh_checker s) -> lock_ok (sh_mu s) t -> thread_ok (sh_checker s) t ->
  step_thread s t = Some (s', t') -> step_ok s t s' t'.
Proof.
  intros Hp Hwf HL Hok H. destruct t as [key scts p|p]; simpl in H.
  - destruct (step_check s key scts p) as [[s1 p1]|] eqn:E; [|done]. injection H as <- <-.
    by apply step_check_ok.
  - destruct (step_close s p) as [[s1 p1]|] eqn:E; [|done]. injection H as <- <-.
    by apply step_close_ok.
Qed.

(** ** The whole system *)
Record Inv (base : gset nat) (s : State) : Prop := {
  inv_readers : readers (sh_mu (shared s)) = count holds_read (threads s);
  inv_writer : Nat.b2n (writer (sh_mu (shared s))) = count holds_write (threads s);
  inv_waiting : waiting (sh_mu (shared s)) = count waits (threads s);
  inv_excl : writer (sh_mu (shared s)) = true -> readers (sh_mu (shared s)) = O;
  inv_checker : wf_checker (sh_checker (shared s));
  inv_threads i t : threads s !! i = Some t -> thread_ok (sh_checker (shared s)) t;
  inv_live : live (sh_world (shared s)) = Some (owns (sh_checker (shared s)) ∪ base);
  inv_base : owns (sh_checker (shared s)) ## base
}.

Lemma thread_ok_other c c' t : holds_read t = false -> thread_ok c t -> thread_ok c' t.
Proof. destruct t as [key scts []|[]]; simpl; done. Qed.

Lemma step_at_inv i s s' :
  step_at i s = Some s' ->
  exists t sh t', threads s !! i = Some t /\ step_thread (shared s) t = Some (sh, t')
    /\ s' = mkState sh (<[i := t']> (threads s)).
Proof.
  unfold step_at. destruct (threads s !! i) as [t|]; [|done]. simpl.
  destruct (step_thread (shared s) t) as [[sh t']|] eqn:E; [|done].
  intros [= <-]. by exists t, sh, t'.
Qed.

Lemma inv_lock_ok base s i t : Inv base s -> threads s !! i = Some t -> lock_ok (sh_mu (shared s)) t.
Proof.
  intros [H1 H2 H3 H4 _ _ _ _] Hi. constructor; [..|done]; intros Ht.
  - rewrite H1. by eapply count_pos.
  - pose proof (count_pos _ _ _ _ Hi Ht). destruct (writer _); [done|simpl in H2; lia].
  - rewrite H3. by eapply count_pos.
Qed.

Lemma step_at_ok base i s t sh t' :
  progressing -> Inv base s -> threads s !! i = Some t ->
  step_thread (shared s) t = Some (sh, t') -> step_ok (shared s) t sh t'.
Proof.
  intros Hp Hi Ht. apply step_thread_ok; [done|apply Hi|by eapply inv_lock_ok|by eapply inv_threads].
Qed.

Lemma inv_step base s s' : progressing -> Inv base s -> step s s' -> Inv base s'.
Proof.
  intros Hp Hi [i Hs]. apply step_at_inv in Hs as (t & sh & t' & Ht & Hs & ->).
  pose proof (step_at_ok base i s t sh t' Hp Hi Ht Hs) as [K1 K2 K3 K4 K5 K6 K7 K8 _].
  pose proof Hi as [H1 H2 H3 H4 H5 H6 H7 H8].
  pose proof (count_insert holds_read _ _ _ t' Ht). pose proof (count_insert holds_write _ _ _ t' Ht).
  pose proof (count_insert waits _ _ _ t' Ht).
  destruct (K6 base H7 H8) as [H7' H8'].
  constructor; simpl; try done; try lia.
  intros j u Hj. apply list_lookup_insert_Some in Hj as [(-> & -> & _)|[Hne Hj]]; [done|].
  destruct K7 as [->|Hw]; [by eapply inv_threads|].
  eapply thread_ok_other; [|by eapply inv_threads].
  destruct (holds_read u) eqn:Hu; [|done].
  pose proof (count_pos _ _ _ _ Hj Hu). pose proof (lk_write _ _ (inv_lock_ok _ _ _ _ Hi Ht) Hw) as Hw'.
  specialize (H4 Hw'). lia.
Qed.

Lemma inv_steps base s s' : progressing -> Inv base s -> rtc step s s' -> Inv base s'.
Proof. intros Hp Hi Hr. induction Hr as [|s1 s2 s3 H12 _ IH]; [done|]. by eapply IH, inv_step. Qed.

Lemma spawn_ok c k :
  thread_ok c (spawn k) /\ holds_read (spawn k) = false /\ holds_write (spawn k) = false
  /\ waits (spawn k) = false.
Proof.
  destruct k as [chain|]; [|done]. simpl. pose proof (check_inputs_spec chain) as Hi.
  destruct (check_inputs chain) as [[status err]|[[key scts]|e| |]]; [| |done..].
  - split; [|done]. split; [by apply List.Forall_nil|]. simpl. intros _. exact Hi.
  - destruct Hi as [Hs _]. by split.
Qed.

Lemma count_none f ts : (forall t, t ∈ ts -> f t = false) -> count f ts = O.
Proof.
  intros H. unfold count. destruct (List.filter f ts) as [|t l] eqn:E; [done|].
  assert (In t (List.filter f ts)) as Hin by (rewrite E; by left).
  apply filter_In in Hin as [Hin Hf]. apply list_elem_of_In in Hin. by rewrite (H t Hin) in Hf.
Qed.

Lemma start_inv w w1 c calls base :
  progressing -> live w = Some base -> NewCheckerWith w = (w1, Ok c) ->
  Inv base (start w1 c calls).
Proof.
  intros Hp Hl Hn. pose proof (NewCheckerWith_spec w Hp) as H. rewrite Hn in H.
  destruct H as (Hwf & _ & _ & Ht).
  destruct (Ht base) as [H1 H2]; [by rewrite owns_None, (left_id_L ∅ (∪))|rewrite owns_None; set_solver|].
  assert (forall t, t ∈ map spawn calls -> exists k, t = spawn k) as Hsp.
  { intros t (k & -> & _)%list_elem_of_fmap. by exists k. }
  constructor; simpl; try done; try (symmetry; apply count_none; intros t Htin;
    destruct (Hsp t Htin) as [k ->]; apply (spawn_ok c k)).
  intros i t Hi. apply list_elem_of_lookup_2 in Hi. destruct (Hsp t Hi) as [k ->]. apply spawn_ok.
Qed.

(** ** Progress *)
Definition total_size (ts : list thread) : Z := foldr (fun t z => size t + z) 0 ts.

Lemma total_size_insert ts i t t' :
  ts !! i = Some t -> total_size (<[i := t']> ts) + size t = total_size ts + size t'.
Proof.
  revert i. induction ts as [|u ts IH]; intros [|i] H; simpl in H; [done|done| |].
  - injection H as ->. simpl. lia.
  - specialize (IH i H). change (<[S i := t']> (u :: ts)) with (u :: <[i := t']> ts). unfold total_size in *. cbn [foldr]. lia.
Qed.

Lemma thread_size_nonneg c t : thread_ok c t -> 0 <= size t.
Proof.
  intros Hok. destruct t as [key scts p|[]]; simpl in *; try lia. destruct Hok as [_ Hok].
  assert (forall k, 0 <= k <= 3 -> 0 <= k * pass_size scts) as Hpos
    by (intros k Hk; unfold pass_size, blen; nia).
  destruct p as [r|r idx rest names st|r [[status idx] err]|r stale|r stale|r stale|r rerr|ret|];
    simpl in *; unfold maxIndexReopens in *; destruct_and?; try lia;
    try (pose proof (Hpos (2 - r) ltac:(lia)); unfold blen; lia).
  apply Hpos. lia.
Qed.

Lemma holder_steps s t :
  holds_read t = true \/ holds_write t = true -> is_Some (step_thread s t).
Proof.
  destruct s as [mu w c]. destruct t as [key scts p|p].
  - destruct p as [r|r idx rest names st|r [[status idx] err]|r stale|r stale|r stale|r rerr|ret|];
      simpl; intros [H|H]; try done.
    + destruct (scan_step _ _ _ _ _ _ _ _). by eexists.
    + destruct (RUnlock mu); by eexists.
    + destruct (reopenIndex c stale w) as [[? ?] ?]. by eexists.
    + destruct (Unlock mu); by eexists.
  - destruct p; simpl; intros [H|H]; try done.
    + destruct (Close c w) as [[? ?] ?]. by eexists.
    + destruct (Unlock mu); by eexists.
Qed.

Lemma waiter_steps s t :
  waits t = true -> writer (sh_mu s) = false -> readers (sh_mu s) = O -> is_Some (step_thread s t).
Proof.
  destruct s as [mu w c]. simpl. intros Ht Hw Hr.
  assert (exists m, Lock_acquire mu = Some m) as [m Hm]
    by (unfold Lock_acquire; rewrite Hw, Hr; by eexists).
  destruct t as [key scts []|[]]; simpl in *; try done; rewrite Hm; by eexists.
Qed.

Lemma free_steps c s t :
  thread_ok c t -> finished t = false -> writer (sh_mu s) = false -> waiting (sh_mu s) = O ->
  waits t = false -> is_Some (step_thread s t).
Proof.
  destruct s as [mu w c']. simpl. intros Hok Hf Hw Hn Ht.
  destruct (holds_read t) eqn:Hr; [by apply holder_steps; left|].
  destruct (holds_write t) eqn:Hwr; [by apply holder_steps; right|].
  assert (exists m, RLock mu = Some m) as [m Hm] by (unfold RLock; rewrite Hw, Hn; by eexists).
  destruct t as [key scts []|[]]; simpl in *; try done; try by eexists.
  - rewrite Hm. by eexists.
  - by destruct Hok.
Qed.

(** No deadlock: as long as a goroutine has not returned, some goroutine can move. *)
Lemma no_deadlock base s i t :
  Inv base s -> threads s !! i = Some t -> finished t = false -> exists s', step s s'.
Proof.
  intros Hi Ht Hf. pose proof Hi as [H1 H2 H3 H4 _ H6 _ _].
  assert (forall j u, threads s !! j = Some u -> is_Some (step_thread (shared s) u) ->
    exists s', step s s') as Hgo.
  { intros j u Hj [[sh u'] Hu]. exists (mkState sh (<[j := u']> (threads s))), j.
    unfold step_at. rewrite Hj. simpl. by rewrite Hu. }
  destruct (writer (sh_mu (shared s))) eqn:Hw.
  { destruct (count_pos_inv holds_write (threads s)) as (j & u & Hj & Hu); [simpl in H2; lia|].
    apply (Hgo j u Hj), holder_steps. by right. }
  destruct (decide (readers (sh_mu (shared s)) = O)) as [Hr|Hr].
  2: { destruct (count_pos_inv holds_read (threads s)) as (j & u & Hj & Hu); [lia|].
       apply (Hgo j u Hj), holder_steps. by left. }
  destruct (decide (waiting (sh_mu (shared s)) = O)) as [Hn|Hn].
  2: { destruct (count_pos_inv waits (threads s)) as (j & u & Hj & Hu); [lia|].
       by apply (Hgo j u Hj), waiter_steps. }
  apply (Hgo i t Ht), (free_steps (sh_checker (shared s))); try done; [by eapply H6|].
  destruct (waits t) eqn:Hwt; [|done]. pose proof (count_pos _ _ _ _ Ht Hwt). lia.
Qed.

Lemma step_size base s s' :
  progressing -> Inv base s -> step s s' -> total_size (threads s') < total_size (threads s).
Proof.
  intros Hp Hi [i Hs]. apply step_at_inv in Hs as (t & sh & t' & Ht & Hs & ->). simpl.
  pose proof (sk_size _ _ _ _ (step_at_ok base i s t sh t' Hp Hi Ht Hs)).
  pose proof (total_size_insert _ _ _ t' Ht). lia.
Qed.

Lemma total_size_nonneg base s : Inv base s -> 0 <= total_size (threads s).
Proof.
  intros Hi. pose proof (inv_threads _ _ Hi) as Hok. clear Hi.
  induction (threads s) as [|t ts IH]; [done|]. unfold total_size in *. cbn [foldr].
  pose proof (thread_size_nonneg _ t (Hok O t eq_refl)).
  assert (0 <= foldr (fun t z => size t + z) 0 ts); [|lia].
  apply IH. intros i u Hu. by apply (Hok (S i)).
Qed.

Lemma nsteps_size base n s s' :
  progressing -> Inv base s -> nsteps step n s s' ->
  Inv base s' /\ Z.of_nat n + total_size (threads s') <= total_size (threads s).
Proof.
  intros Hp Hi Hn. revert Hi. induction Hn as [s|n s1 s2 s3 H12 _ IH]; intros Hi; [split; [done|lia]|].
  pose proof (inv_step _ _ _ Hp Hi H12) as Hi2. destruct (IH Hi2) as [Hi3 Hz].
  pose proof (step_size _ _ _ Hp Hi H12). split; [done|lia].
Qed.

(** ** One goroutine on its own *)
Definition unlocked : RWMutex := mkRWMutex 0 false 0.
Definition solo (mu : RWMutex) (w : World) (c : Checker) key scts (p : check_phase) : State :=
  mkState (mkShared mu w c) [TCheck key scts p].

Lemma solo_step mu w c key scts p mu' w' c' p' :
  step_check (mkShared mu w c) key scts p = Some (mkShared mu' w' c', p') ->
  step (solo mu w c key scts p) (solo mu' w' c' key scts p').
Proof.
  intros H. exists 0%nat. unfold step_at, solo. cbn [threads shared].
  change ([TCheck key scts p] !! 0%nat) with (Some (TCheck key scts p)).
  cbn [mbind option_bind step_thread]. by rewrite H.
Qed.

(** The rest of a pass, from inside the loops. *)
Definition scan_rest (key : LookupKey) (scts : list SCT) (idx : IndexRef) (rest : list SCT)
    (names : list bytes) (w : World) (st : scan) : World * result (Status * option error) :=
  let ts := check_timestamps scts in
  let '(w, t) := match query_all key ts names w st with
                 | (w, inl st) => scan_scts (ref_index idx) key ts rest w st
                 | r => r
                 end in
  (w, match t with inl st => Ok (conclude st) | inr res => res end).

Lemma solo_scan mu w c key scts r idx rest names st w' ret :
  scan_rest key scts idx rest names w st = (w', Ok ret) ->
  rtc step (solo mu w c key scts (Scanning r idx rest names st))
           (solo mu w' c key scts (AtRUnlock r (ret.1, Some idx, ret.2))).
Proof.
  revert names w st. induction rest as [|s rest IH]; intros names; induction names as [|f names IHn];
    intros w st H; unfold scan_rest in H; simpl in H.
  - injection H as <- <-. by apply rtc_once, solo_step.
  - destruct (query_one key (check_timestamps scts) f w st) as [w1 [st1|[x|e| |]]] eqn:E; try done.
    + eapply rtc_l; [|by apply IHn]. apply solo_step. simpl. by rewrite E.
    + injection H as <- <-. apply rtc_once, solo_step. simpl. by rewrite E.
  - destruct (lookup_sct (ref_index idx) s) as [names|e| |] eqn:E; try done.
    + eapply rtc_l; [|by apply IH]. apply solo_step. simpl. by rewrite E.
    + injection H as <- <-. apply rtc_once, solo_step. simpl. by rewrite E.
  - destruct (query_one key (check_timestamps scts) f w st) as [w1 [st1|[x|e| |]]] eqn:E; try done.
    + eapply rtc_l; [|by apply IHn]. apply solo_step. simpl. by rewrite E.
    + injection H as <- <-. apply rtc_once, solo_step. simpl. by rewrite E.
Qed.

Lemma solo_pass w c key scts r w' ret :
  checkOnce c key scts (check_timestamps scts) w = (w', Ok ret) ->
  rtc step (solo unlocked w c key scts (AtRLock r))
           (solo (mkRWMutex 1 false 0) w' c key scts (AtRUnlock r ret)).
Proof.
  unfold checkOnce. destruct (c_idx c) as [idx|] eqn:Hc.
  - destruct (scan_scts _ _ _ _ _ _) as [w1 t] eqn:E. intros H.
    destruct (match t with inl st => Ok (conclude st) | inr res => res end) as [[status err]|e| |] eqn:Et;
      try done. injection H as <- <-.
    eapply rtc_l; [apply solo_step; simpl; by rewrite Hc|].
    apply (solo_scan _ _ _ _ _ _ _ _ _ _ _ (status, err)). unfold scan_rest. simpl.
    by rewrite E, Et.
  - intros [= <- <-]. apply rtc_once, solo_step. simpl. by rewrite Hc.
Qed.

Lemma solo_loop fuel w c key scts r w' c' ret :
  check_loop fuel r c key scts (check_timestamps scts) w = (w', c', Ok ret) ->
  rtc step (solo unlocked w c key scts (AtRLock r)) (solo unlocked w' c' key scts (Returned ret)).
Proof.
  revert w c r. induction fuel as [|fuel IH]; intros w c r H; [done|]. cbn [check_loop] in H.
  destruct (checkOnce _ _ _ _ _) as [w1 [[[status idx] err]|e| |]] eqn:E; try done.
  etrans; [by eapply solo_pass|]. destruct (surfaces err r) eqn:Es.
  { injection H as <- <- <-. apply rtc_once, solo_step. simpl. by rewrite Es. }
  eapply rtc_l; [apply solo_step; simpl; by rewrite Es|].
  do 2 (eapply rtc_l; [by apply solo_step|]). simpl.
  destruct (reopenIndex c idx w1) as [[w2 c2] [u|rerr| |]] eqn:Er; try done.
  - eapply rtc_l; [apply solo_step; simpl; by rewrite Er|].
    eapply rtc_l; [by apply solo_step|]. by apply IH.
  - injection H as <- <- <-. eapply rtc_l; [apply solo_step; simpl; by rewrite Er|].
    by apply rtc_once, solo_step.
Qed.

(** ** A pass taken step by step

    What the local variables of a pass say: the SCTs before [rest] have been looked up,
    and of the filters they select those in [names] are still to be queried. *)
Section Passes.
Context (key : LookupKey) (scts : list SCT) (idx : IndexRef)
  (Q : list (bytes * Crlite.Status) -> World -> Prop).
Notation sel := (selected (ref_index idx) scts).

Definition scan_progress (rest : list SCT) (names : list bytes) (st : scan) (w : World) : Prop :=
  exists before qs, scts = before ++ rest /\ scan_inv sel Q qs w st
    /\ (forall n, n ∈ names -> sel n)
    /\ (forall s, s ∈ before -> exists ns, lookup_sct (ref_index idx) s = Ok ns
          /\ forall n, n ∈ ns -> n ∈ qs.*1 \/ n ∈ names).

(** The end of the loops: every selected filter has been queried. *)
Definition completed (w : World) (ret : Status * option error) : Prop :=
  exists qs st, scan_inv sel Q qs w st /\ ret = verdict qs.*2
    /\ forall s, s ∈ scts -> exists ns, lookup_sct (ref_index idx) s = Ok ns /\ ns ⊆ qs.*1.

Definition pass_over (w : World) (ret : Status * option error) : Prop :=
  completed w ret \/ stopped key (check_timestamps scts) sel Q w (Ok ret)
  \/ unreadable sel Q (ref_index idx) scts w (Ok ret).

Lemma scan_progress_init w : Q [] w -> scan_progress scts [] scan0 w.
Proof.
  intros HQ. exists [], []. split; [done|]. split; [by apply scan_inv_init|].
  split; intros ? Hin; by apply elem_of_nil in Hin.
Qed.

Lemma scan_progress_mono rest names st w w' :
  (forall qs, Q qs w -> Q qs w') -> scan_progress rest names st w -> scan_progress rest names st w'.
Proof.
  intros HQ (before & qs & H1 & [Ha ? ? ? ? ? ? ?] & H2). exists before, qs.
  split; [done|]. split; [|done]. constructor; try done. by apply HQ.
Qed.

Hypothesis Q_snoc : forall qs w n a w', Q qs w -> sel n ->
  queryFilter n key (check_timestamps scts) w = (w', Ok a) -> Q (qs ++ [(n, a)]) w'.
Hypothesis Hidx : UpkiIndex.wf_index (ref_index idx).
Hypothesis Hids : wf_scts scts.

(** The SCT looked up next joins those before it. *)
Lemma scan_progress_lookup s rest names st w :
  lookup_sct (ref_index idx) s = Ok names -> scan_progress (s :: rest) [] st w ->
  scan_progress rest names st w.
Proof.
  intros Hl (before & qs & Hsplit & Hi & _ & Hbefore). exists (before ++ [s]), qs.
  split; [by rewrite <- app_assoc|]. split; [done|]. split.
  - intros n Hn. exists s, names. rewrite Hsplit. split; [set_solver|done].
  - intros s' [Hs'| ->%list_elem_of_singleton]%elem_of_app.
    + destruct (Hbefore s' Hs') as (ns & Hl' & Hsub). exists ns. split; [done|].
      intros n Hin. destruct (Hsub n Hin) as [?|Hnil]; [by left|by apply elem_of_nil in Hnil].
    + exists names. split; [done|]. by right.
Qed.

Lemma scan_progress_end st w : scan_progress [] [] st w -> completed w (conclude st).
Proof.
  intros (before & qs & Hsplit & Hi & _ & Hbefore). rewrite app_nil_r in Hsplit. subst before.
  exists qs, st. split; [done|]. split; [by eapply conclude_verdict|].
  intros s Hs. destruct (Hbefore s Hs) as (ns & Hl & Hsub). exists ns. split; [done|].
  intros n Hin. destruct (Hsub n Hin) as [?|Hnil]; [done|by apply elem_of_nil in Hnil].
Qed.

Lemma scan_step_progress r rest names st w :
  scan_progress rest names st w ->
  match scan_step key scts r idx rest names st w with
  | (w', Scanning r' idx' rest' names' st') =>
      r' = r /\ idx' = idx /\ scan_progress rest' names' st' w'
  | (w', AtRUnlock r' (status, idx', err)) =>
      r' = r /\ idx' = Some idx /\ pass_over w' (status, err)
  | _ => False
  end.
Proof.
  intros Hprog. unfold scan_step. destruct names as [|f fs]; [destruct rest as [|s rest]|].
  - apply scan_progress_end in Hprog. destruct (conclude st) as [status err].
    split; [done|]. split; [done|]. by left.
  - assert (s ∈ scts) as Hs by (destruct Hprog as (before & ? & -> & _); set_solver).
    pose proof (proj1 (Forall_forall _ _) Hids s Hs) as Hid.
    pose proof (lookup_sct_total (ref_index idx) s Hidx Hid) as Ht.
    destruct (lookup_sct (ref_index idx) s) as [names|e| |] eqn:El; simpl in Ht; [| |done|done].
    + split; [done|]. split; [done|]. by apply scan_progress_lookup with s.
    + split; [done|]. split; [done|]. right; right.
      destruct Hprog as (before & qs & _ & Hi & _). by exists qs, st, s, e.
  - destruct Hprog as (before & qs & Hsplit & Hi & Hnames & Hbefore).
    pose proof (query_one_spec key (check_timestamps scts) sel Q Q_snoc qs w st f Hi
      ltac:(apply Hnames; by left)) as Hq.
    destruct (query_one key (check_timestamps scts) f w st) as [w1 [st1|res]].
    + destruct Hq as (qs1 & Hi1 & Hf & Hsub). split; [done|]. split; [done|].
      exists before, qs1. split; [done|]. split; [done|]. split; [intros n Hin; apply Hnames; by right|].
      intros s Hs. destruct (Hbefore s Hs) as (ns & Hl & Hns). exists ns. split; [done|].
      intros n Hin. destruct (Hns n Hin) as [?|[->|?]%elem_of_cons]; [left; set_solver|by left|by right].
    + pose proof Hq as (? & ? & ? & ? & _ & _ & _ & [[_ ->]|(e & _ & ->)]);
        (split; [done|]); (split; [done|]); right; by left.
Qed.
End Passes.

(** ** How the shared state changes *)
Lemma queryFilter_same_index name key ts w : same_index w (queryFilter name key ts w).1.
Proof.
  rewrite queryFilter_world. unfold readFilter.
  destruct (Open w name); simpl; eexists; (split; [done|]); by repeat constructor.
Qed.

Lemma query_one_same_index key ts n w st : same_index w (query_one key ts n w st).1.
Proof.
  unfold query_one. destruct (decide _); [done|]. pose proof (queryFilter_same_index n key ts w) as H.
  by destruct (queryFilter n key ts w).
Qed.

Lemma scan_step_same_index key scts r idx rest names st w :
  same_index w (scan_step key scts r idx rest names st w).1.
Proof.
  unfold scan_step. destruct names as [|f fs]; [by destruct rest|].
  pose proof (query_one_same_index key (check_timestamps scts) f w st) as H.
  by destruct (query_one _ _ _ _ _).
Qed.

Lemma openIndex_prefix w : w `prefix_of` (openIndex w).1.
Proof.
  unfold openIndex. destruct (OpenIndex w) as [r|e]; [|by eexists].
  destruct (NewIndexFromReader _ _); simpl; rewrite <- ?app_assoc; by eexists.
Qed.

Lemma close_index_prefix r w : w `prefix_of` (close_index r w).1.
Proof. unfold close_index. destruct (Index_Close _) as [[err ?] hs]. by eexists. Qed.

(** A checker with an index takes the one just opened. *)
Definition replaced (c : Checker) (w : World) (c' : Checker) (w' : World) : Prop :=
  exists old idx w1, c_idx c = Some old /\ c' = mkChecker (Some idx)
    /\ openIndex w = (w1, Ok idx) /\ w1 `prefix_of` w'.

Lemma reopenIndex_cases c stale w :
  let '(w', c', r) := reopenIndex c stale w in
  w `prefix_of` w'
  /\ ((c' = c /\ (r = Ok tt -> same_ref (c_idx c) stale = false)) \/ replaced c w c' w')
  /\ (forall e, r = Err e -> exists w1, openIndex w = (w1, Err e) /\ w1 `prefix_of` w').
Proof.
  unfold reopenIndex. destruct (same_ref (c_idx c) stale) eqn:Hs; simpl; [|by split; [|split; [left|]]].
  pose proof (openIndex_prefix w) as Hp. destruct (openIndex w) as [w1 [idx|e| |]] eqn:E; simpl in Hp.
  - destruct (c_idx c) as [old|] eqn:Hc; [|by split; [|split; [left|]]].
    pose proof (close_index_prefix old w1) as Hcl. destruct (close_index old w1) as [w2 ?]. simpl in Hcl.
    split; [by etrans|]. split; [|done]. right. by exists old, idx, w1.
  - split; [done|]. split; [by left|]. intros e' [= <-]. by exists w1.
  - by split; [|split; [left|]].
  - by split; [|split; [left|]].
Qed.

(** A thread that does not hold the write lock keeps the checker and opens no index. *)
Definition keeps (s s' : Shared) : Prop :=
  sh_checker s' = sh_checker s /\ same_index (sh_world s) (sh_world s').

Lemma step_check_keeps key scts p s s' p' :
  step_check s key scts p = Some (s', p') -> holds_write (TCheck key scts p) = false -> keeps s s'.
Proof.
  intros H Hw. destruct s as [mu w c].
  destruct p as [r|r idx rest names st|r [[status idx] err]|r stale|r stale|r stale|r rerr|ret|];
    simpl in H, Hw; try done.
  - destruct (RLock mu); [|done]. by injection H as <- <-.
  - pose proof (scan_step_same_index key scts r idx rest names st w) as Hs.
    destruct (scan_step _ _ _ _ _ _ _ _). by injection H as <- <-.
  - destruct (RUnlock mu); by injection H as <- <-.
  - by injection H as <- <-.
  - destruct (Lock_acquire mu); [|done]. by injection H as <- <-.
Qed.

Lemma step_thread_keeps t s s' t' :
  step_thread s t = Some (s', t') -> holds_write t = false -> keeps s s'.
Proof.
  intros H Hw. destruct t as [key scts p|p]; simpl in H.
  - destruct (step_check s key scts p) as [[s1 p1]|] eqn:E; [|done]. injection H as <- <-.
    by eapply step_check_keeps.
  - destruct (step_close s p) as [[s1 p1]|] eqn:E; [|done]. injection H as <- <-.
    destruct s as [mu w c]. destruct p; simpl in E, Hw; try done.
    + by injection E as <- <-.
    + destruct (Lock_acquire mu); [|done]. by injection E as <- <-.
Qed.

(** Every step extends the world, and closes or replaces the index if it does not keep
    the checker. *)
Record step_grows (s s' : Shared) : Prop := {
  sg_world : sh_world s `prefix_of` sh_world s';
  sg_checker : sh_checker s' = sh_checker s \/ sh_checker s' = mkChecker None
    \/ replaced (sh_checker s) (sh_world s) (sh_checker s') (sh_world s')
}.

Lemma keeps_grows s s' : keeps s s' -> step_grows s s'.
Proof. intros [Hc Hw]. constructor; [by apply same_index_prefix|by left]. Qed.

Lemma step_thread_grows t s s' t' : step_thread s t = Some (s', t') -> step_grows s s'.
Proof.
  intros H. destruct (holds_write t) eqn:Hw; [|by eapply keeps_grows, step_thread_keeps].
  destruct s as [mu w c].
  destruct t as [key scts [| | | | |r stale|r rerr| |]|[| | |err| |]]; simpl in Hw; try done; simpl in H.
  - pose proof (reopenIndex_cases c stale w) as Hr.
    destruct (reopenIndex c stale w) as [[w1 c1] r1]. injection H as <- _.
    destruct Hr as (H1 & H2 & _). constructor; simpl; [done|].
    destruct H2 as [[-> _]|H2]; [by left|by right; right].
  - destruct (Unlock mu); injection H as <- _; constructor; simpl; try done; by left.
  - unfold Close in H. destruct (c_idx c) as [r|] eqn:Hc.
    + pose proof (close_index_prefix r w) as Hp. destruct (close_index r w) as [w1 err].
      injection H as <- _. constructor; simpl in *; [done|]. right; by left.
    + injection H as <- _. constructor; simpl; [done|]. by left.
  - destruct (Unlock mu); injection H as <- _; constructor; simpl; try done; by left.
Qed.

(** ** Facts about the phases

    A predicate on the phase of a check, what it shares with the others and whether some
    goroutine runs [Close] holds in every reachable state if the steps of the check
    establish it and the steps of the others keep it. *)
Definition closing (s : State) : Prop := exists i p, threads s !! i = Some (TClose p).

Lemma closing_step i s t sh t' :
  threads s !! i = Some t -> step_thread (shared s) t = Some (sh, t') ->
  closing s -> closing (mkState sh (<[i := t']> (threads s))).
Proof.
  intros Ht Hs (j & p & Hj). destruct (decide (j = i)) as [->|Hne].
  - rewrite Ht in Hj. injection Hj as ->. simpl in Hs.
    destruct (step_close _ _) as [[? p']|]; [|done]. injection Hs as _ <-. exists i, p'.
    simpl. by rewrite list_lookup_insert_eq by (by eapply lookup_lt_Some).
  - exists j, p. simpl. by rewrite list_lookup_insert_ne.
Qed.

(** Only [Close] leaves the checker without an index. *)
Lemma step_closed i s t sh t' :
  threads s !! i = Some t -> step_thread (shared s) t = Some (sh, t') ->
  c_idx (sh_checker sh) = None -> c_idx (sh_checker (shared s)) <> None ->
  closing (mkState sh (<[i := t']> (threads s))).
Proof.
  intros Ht Hs Hn Hsome. destruct t as [key scts p|p].
  2: { simpl in Hs. destruct (step_close _ _) as [[? p']|]; [|done]. injection Hs as _ <-. exists i, p'.
       simpl. by rewrite list_lookup_insert_eq by (by eapply lookup_lt_Some). }
  exfalso. destruct (holds_write (TCheck key scts p)) eqn:Hw.
  2: { destruct (step_thread_keeps _ _ _ _ Hs Hw) as [Hc _]. congruence. }
  destruct (shared s) as [mu w c]. simpl in Hs, Hsome.
  destruct p as [| | | | |r stale|r rerr| |]; simpl in Hw, Hs; try done.
  - pose proof (reopenIndex_cases c stale w) as Hr. destruct (reopenIndex c stale w) as [[w1 c1] r1].
    injection Hs as <- _. simpl in Hn. destruct Hr as (_ & [[-> _]|(? & ? & ? & _ & -> & _)] & _); done.
  - destruct (Unlock mu); by injection Hs as <- _.
Qed.

Section PhaseFacts.
Context (P : Prop -> LookupKey -> list SCT -> World -> Checker -> check_phase -> Prop)
  (ok : list SCT -> Prop).

Hypothesis P_others : forall (closed closed' : Prop) key scts p s s',
  (closed -> closed') -> step_grows s s' -> (holds_read (TCheck key scts p) = true -> keeps s s') ->
  P closed key scts (sh_world s) (sh_checker s) p ->
  P closed' key scts (sh_world s') (sh_checker s') p.
Hypothesis P_step : forall (closed : Prop) key scts p s s' p',
  ok scts -> thread_ok (sh_checker s) (TCheck key scts p) ->
  (c_idx (sh_checker s) = None -> closed) ->
  P closed key scts (sh_world s) (sh_checker s) p ->
  step_check s key scts p = Some (s', p') ->
  P closed key scts (sh_world s') (sh_checker s') p' \/ p' = Crashed.

Record Facts (s : State) : Prop := {
  fc_closed : c_idx (sh_checker (shared s)) = None -> closing s;
  fc_threads i key scts p : threads s !! i = Some (TCheck key scts p) ->
    (scts = [] /\ exists ret, p = Returned ret)
    \/ (ok scts /\ P (closing s) key scts (sh_world (shared s)) (sh_checker (shared s)) p)
}.

(** What another goroutine's check knows survives: while it holds the read lock nobody
    holds the write lock. *)
Lemma other_fact base i j s t sh t' key scts p (closed' : Prop) :
  Inv base s -> threads s !! i = Some t -> step_thread (shared s) t = Some (sh, t') ->
  threads s !! j = Some (TCheck key scts p) -> (closing s -> closed') ->
  P (closing s) key scts (sh_world (shared s)) (sh_checker (shared s)) p ->
  P closed' key scts (sh_world sh) (sh_checker sh) p.
Proof.
  intros Hi Ht Hs Hj Hc. apply P_others; [done|by eapply step_thread_grows|].
  intros Hr. apply (step_thread_keeps _ _ _ _ Hs). destruct (holds_write t) eqn:Hw; [|done].
  pose proof (lk_write _ _ (inv_lock_ok _ _ _ _ Hi Ht) Hw) as Hwr.
  pose proof (lk_read _ _ (inv_lock_ok _ _ _ _ Hi Hj) Hr) as Hrd.
  rewrite (inv_excl _ _ Hi Hwr) in Hrd. lia.
Qed.

Lemma facts_step base s s' : progressing -> Inv base s -> Facts s -> step s s' -> Facts s'.
Proof.
  intros Hp Hi [Hcl Hth] [i Hs]. apply step_at_inv in Hs as (t & sh & t' & Ht & Hs & ->).
  pose proof (step_at_ok base i s t sh t' Hp Hi Ht Hs) as Hok.
  pose proof (closing_step _ _ _ _ _ Ht Hs) as Hclosing. constructor; simpl.
  - intros Hn. destruct (c_idx (sh_checker (shared s))) eqn:Hc; [|by auto].
    eapply step_closed; [exact Ht|exact Hs|exact Hn|congruence].
  - intros j key scts p Hj. apply list_lookup_insert_Some in Hj as [(<- & Heq & _)|[_ Hj]].
    + destruct t as [key' scts' p0|p0]; simpl in Hs.
      2: { destruct (step_close _ _) as [[? ?]|]; [|done]. injection Hs as _ <-. done. }
      destruct (step_check (shared s) key' scts' p0) as [[sh1 p1]|] eqn:E; [|done].
      injection Hs as -> <-. injection Heq as -> -> ->. right.
      destruct (Hth i key scts p0 Ht) as [[_ [ret ->]]|[Hk Ha]]; [simpl in E; by destruct (shared s)|].
      split; [done|].
      destruct (P_step (closing s) _ _ _ _ _ _ Hk (inv_threads _ _ Hi i _ Ht) Hcl Ha E) as [Ha'| ->].
      * apply (P_others (closing s) _ _ _ _ sh sh); [exact Hclosing|by apply keeps_grows|done|exact Ha'].
      * by destruct (sk_ok _ _ _ _ Hok) as [_ []].
    + destruct (Hth j key scts p Hj) as [H|[Hk H]]; [by left|right]. split; [done|].
      exact (other_fact base i j s t sh t' key scts p _ Hi Ht Hs Hj Hclosing H).
Qed.

(** The facts at the end of a run, for the checks that have returned. *)
Lemma run_facts w w1 c base calls s :
  progressing -> live w = Some base -> NewCheckerWith w = (w1, Ok c) ->
  (forall key scts, P False key scts w1 c (AtRLock 0)) ->
  (forall chain key scts, CallCheck chain ∈ calls -> check_inputs chain = inr (Ok (key, scts)) -> ok scts) ->
  rtc step (start w1 c calls) s ->
  forall key scts p, TCheck key scts p ∈ threads s -> scts <> [] ->
    P (exists p', TClose p' ∈ threads s) key scts (sh_world (shared s)) (sh_checker (shared s)) p.
Proof.
  intros Hp Hl Hn H0 Hok Hs key scts p Hin Hne.
  assert (Facts (start w1 c calls)) as Hf.
  { constructor; simpl.
    - intros Hc. destruct (NewChecker_opened _ _ _ Hn) as (r & ? & ? & -> & _). done.
    - intros i k ss q Hi. apply list_elem_of_lookup_2, list_elem_of_fmap in Hi as (cl & Heq & Hcall).
      destruct cl as [chain|]; [|done]. simpl in Heq. pose proof (check_inputs_spec chain) as Hc.
      destruct (check_inputs chain) as [ret|[[k' ss']|e| |]] eqn:E; try done; injection Heq as -> -> ->.
      + left. split; [done|by eexists].
      + right. split; [by eapply Hok|].
        apply (P_others False _ _ _ _ (mkShared (mkRWMutex 0 false 0) w1 c) (mkShared (mkRWMutex 0 false 0) w1 c));
          [done|by apply keeps_grows|done|apply H0]. }
  assert (Facts s) as [_ Hth].
  { pose proof (start_inv _ _ _ calls _ Hp Hl Hn) as Hi. revert Hf.
    induction Hs as [s|s1 s2 s3 H12 _ IH]; [done|]. intros Hf.
    apply IH; [done|by eapply inv_step|by eapply facts_step]. }
  apply list_elem_of_lookup in Hin as [i Hi].
  destruct (Hth i key scts _ Hi) as [[? _]|[_ Ha]]; [done|].
  apply (P_others (closing s) _ _ _ _ (shared s) (shared s)); [|by apply keeps_grows|done|exact Ha].
  intros (j & q & Hj). exists q. by eapply list_elem_of_lookup_2.
Qed.
End PhaseFacts.

(** ** Properties *)

(** C15. Safety of every interleaving of checks and closes: no goroutine crashes; a
    writer excludes the readers; every check between its read lock and unlock works on
    the checker's current index, whose handle is open; and the open handles are
    exactly the current index's and those open before the checker was made, so none
    leaks and none is closed twice. *)
Theorem concurrent_safety (w w1 : World) (c : Checker) (base : gset nat) (calls : list call)
    (s : State) :
  progressing -> live w = Some base -> NewCheckerWith w = (w1, Ok c) ->
  rtc step (start w1 c calls) s ->
  (writer (sh_mu (shared s)) = true -> readers (sh_mu (shared s)) = O)
  /\ live (sh_world (shared s)) = Some (owns (sh_checker (shared s)) ∪ base)
  /\ owns (sh_checker (shared s)) ## base
  /\ forall t, t ∈ threads s ->
       match t with
       | TCheck _ _ (Scanning _ idx _ _ _) =>
           c_idx (sh_checker (shared s)) = Some idx /\ wf_ref idx
           /\ exists open, live (sh_world (shared s)) = Some open /\ ref_addr idx ∈ open
       | TCheck _ _ Crashed | TClose CCrashed => False
       | _ => True
       end.
Proof.
  intros Hp Hl Hn Hs. pose proof (inv_steps _ _ _ Hp (start_inv _ _ _ calls _ Hp Hl Hn) Hs) as Hi.
  pose proof Hi as [_ _ _ H4 H5 H6 H7 H8]. do 3 (split; [done|]).
  intros t [i Ht]%list_elem_of_lookup. specialize (H6 i t Ht).
  destruct t as [key scts []|[]]; simpl in H6; try done; [|by destruct H6].
  destruct H6 as (_ & _ & Hc & _). split; [done|]. split; [by apply H5|].
  exists (owns (sh_checker (shared s)) ∪ base). split; [done|]. unfold owns. rewrite Hc. set_solver.
Qed.

(** C21. Every interleaving terminates: a run takes at most the number of steps the
    calls bound at the start, and a state in which no goroutine can move is one in
    which all have returned; a check that returned an error returned NotCovered. *)
Theorem concurrent_termination (w w1 : World) (c : Checker) (base : gset nat) (calls : list call)
    (n : nat) (s : State) :
  progressing -> live w = Some base -> NewCheckerWith w = (w1, Ok c) ->
  nsteps step n (start w1 c calls) s ->
  Z.of_nat n <= total_size (threads (start w1 c calls))
  /\ ((forall s', ~ step s s') -> forall t, t ∈ threads s -> finished t = true)
  /\ forall key scts status e, TCheck key scts (Returned (status, Some e)) ∈ threads s ->
       status = StatusNotCovered.
Proof.
  intros Hp Hl Hn Hs. pose proof (start_inv _ _ _ calls _ Hp Hl Hn) as H0.
  destruct (nsteps_size _ _ _ _ Hp H0 Hs) as [Hi Hz]. pose proof (total_size_nonneg _ _ Hi).
  split; [lia|]. split.
  - intros Hstuck t [i Ht]%list_elem_of_lookup. destruct (finished t) eqn:Hf; [done|].
    destruct (no_deadlock _ _ _ _ Hi Ht Hf) as [s' Hs']. by destruct (Hstuck s').
  - intros key scts status e [i Ht]%list_elem_of_lookup.
    destruct (inv_threads _ _ Hi i _ Ht) as [_ He]. by apply He.
Qed.

(** C22. The machine is the sequential program: a goroutine alone on a checker that
    nobody has locked runs to the result, the world and the checker that
    [Checker_Check] computes, and leaves the mutex unlocked. *)
Theorem solo_is_sequential (c c' : Checker) (chain : list Certificate) (w w' : World)
    (ret : Status * option error) :
  Checker_Check c chain w = (w', c', Ok ret) ->
  exists key scts,
    rtc step (start w c [CallCheck chain])
      (mkState (mkShared (mkRWMutex 0 false 0) w' c') [TCheck key scts (Returned ret)]).
Proof.
  intros H. unfold Checker_Check in H. unfold start. cbn [map spawn].
  destruct (check_inputs chain) as [ret'|[[key scts]|e| |]]; try done.
  - injection H as <- <- <-. by eexists _, _.
  - exists key, scts. by eapply solo_loop.
Qed.

End Lemmas.

(** ** Witnesses *)

(** Runs a schedule: the threads that move, in order. *)
Fixpoint run {C : Cryptobyte} {M : MapRange} {AP : AllocPolicy} {SS : SpanSort} {Op : Openers}
    (schedule : list nat) (s : State) : option State :=
  match schedule with
  | [] => Some s
  | i :: schedule => s ← step_at i s; run schedule s
  end.

Lemma run_nsteps {C : Cryptobyte} {M : MapRange} {AP : AllocPolicy} {SS : SpanSort} {Op : Openers}
    schedule s s' : run schedule s = Some s' -> nsteps step (length schedule) s s'.
Proof.
  revert s. induction schedule as [|i schedule IH]; intros s H; simpl in *.
  - injection H as <-. constructor.
  - destruct (step_at i s) as [s1|] eqn:E; [|done]. econstructor; [by exists i|by apply IH].
Defined.

Section Witnesses.
#[local] Instance openers : Openers := sample_openers.

Definition sample_calls : list call := [CallCheck sample_chain; CallClose; CallCheck sample_chain].

(** Two checks and a close, interleaved: the first check is scanning when the close
    announces itself, which keeps the second check out until the checker is closed. *)
Definition sample_schedule : list nat :=
  [0; 0; 1; 0; 0; 0; 0; 0; 0; 0; 1; 1; 1; 2; 2]%nat.

Definition sample_statuses (s : State) : list (option (Status * option error)) :=
  map (fun t => match t with TCheck _ _ (Returned ret) => Some ret | _ => None end) (threads s).

Lemma sample_run :
  exists s, run sample_schedule (start [IndexOpened true] sample_checker sample_calls) = Some s
  /\ sample_statuses s
     = [Some (StatusNotRevoked, None); None; Some (StatusNotCovered, Some errCheckerClosed)].
Proof. eexists. split; [vm_compute; reflexivity|vm_compute; reflexivity]. Defined.

(** The first check is between its lookups when the state is looked at. *)
Lemma concurrent_safety_witness :
  exists s, run (take 4 sample_schedule) (start [IndexOpened true] sample_checker sample_calls) = Some s
  /\ live (sh_world (shared s)) = Some (owns (sh_checker (shared s)) ∪ ∅).
Proof.
  eexists. split; [vm_compute; reflexivity|].
  refine (proj1 (proj2 (concurrent_safety (Op := sample_openers) [] [IndexOpened true] sample_checker ∅
    sample_calls _ (cache_openers_progressing _ _) eq_refl sample_new _))).
  eapply rtc_nsteps_2, (run_nsteps (take 4 sample_schedule)). vm_compute. reflexivity.
Defined.

Lemma concurrent_termination_witness :
  exists n s, nsteps step n (start [IndexOpened true] sample_checker sample_calls) s
  /\ Z.of_nat n <= total_size (threads (start [IndexOpened true] sample_checker sample_calls)).
Proof.
  destruct sample_run as (s & Hrun & _). exists (length sample_schedule), s.
  pose proof (run_nsteps _ _ _ Hrun) as Hn. split; [exact Hn|].
  exact (proj1 (concurrent_termination (Op := sample_openers) [] [IndexOpened true] sample_checker ∅
    sample_calls _ _ (cache_openers_progressing _ _) eq_refl sample_new Hn)).
Defined.

Lemma solo_is_sequential_witness :
  exists key scts, rtc step (start [] (mkChecker None) [CallCheck sample_chain])
    (mkState (mkShared (mkRWMutex 0 false 0) [] (mkChecker None))
       [TCheck key scts (Returned (StatusNotCovered, Some errCheckerClosed))]).
Proof.
  apply (solo_is_sequential (Op := sample_openers)). vm_compute. reflexivity.
Defined.

End Witnesses.
