(* ===== verification/CheckerPasses.v ===== *)
(** * One index per pass ([upki/check.go])

    Concurrent checks over a cache that may change at every call: what a check
    returns is the outcome of one pass over one index, taken while no goroutine opened
    another; the queries of different checks may interleave. *)
From S2P Require Import Prelude Codec Cryptobyte GoIO UpkiIndex Clubcard CrliteParser Sha256 Crlite Sct Checker CheckerConc.

(** ** Specification *)

Section Spec.
Context {C : Cryptobyte} {M : MapRange} {AP : AllocPolicy} {SS : SpanSort} {Op : Openers}.

(** The index object was built from what [OpenIndex] returned at some time before [w]. *)
Definition opened_before (idx : IndexRef) (w : World) : Prop :=
  exists w0 ir, OpenIndex w0 = inl ir /\ ref_addr idx = length w0
    /\ NewIndexFromReader (ir_reader ir) (Some (mkCloser (length w0) (ir_close ir))) = Ok (ref_index idx)
    /\ (w0 ++ [IndexOpened true]) `prefix_of` w.

(** The queries of one pass begun in [w0], in order; in between, other goroutines
    query filters for themselves. *)
Inductive queried_since (key : LookupKey) (ts : list LogTimestamp) (w0 : World)
    : list (bytes * Crlite.Status) -> World -> Prop :=
  | qs_nil w : same_index w0 w -> queried_since key ts w0 [] w
  | qs_snoc qs w1 w2 w name a :
      queried_since key ts w0 qs w1 -> queryFilter name key ts w1 = (w2, Ok a) -> same_index w2 w ->
      queried_since key ts w0 (qs ++ [(name, a)]) w.

(** Every outcome of a pass begun in [w0] that has ended by [w], as [pass_result] has
    them for a goroutine on its own. *)
Inductive interleaved_pass (key : LookupKey) (idx : Index) (scts : list SCT) (w0 w : World)
    : Status -> option error -> Prop :=
  | ip_verdict qs status err :
      queried_since key (check_timestamps scts) w0 qs w -> NoDup qs.*1 ->
      (forall n, n ∈ qs.*1 -> selected idx scts n) ->
      (Crlite.StatusRevoked ∈ qs.*2
       \/ forall s, s ∈ scts -> exists names, lookup_sct idx s = Ok names /\ names ⊆ qs.*1) ->
      verdict qs.*2 = (status, err) ->
      interleaved_pass key idx scts w0 w status err
  | ip_filter_error qs w1 w2 n e :
      queried_since key (check_timestamps scts) w0 qs w1 -> NoDup qs.*1 ->
      (forall m, m ∈ qs.*1 -> selected idx scts m) -> (Crlite.StatusRevoked ∉ qs.*2) ->
      selected idx scts n -> (n ∉ qs.*1) ->
      queryFilter n key (check_timestamps scts) w1 = (w2, Err e) -> same_index w2 w ->
      interleaved_pass key idx scts w0 w StatusNotCovered (Some e)
  | ip_lookup_error qs s e :
      queried_since key (check_timestamps scts) w0 qs w -> NoDup qs.*1 ->
      (forall n, n ∈ qs.*1 -> selected idx scts n) -> (Crlite.StatusRevoked ∉ qs.*2) ->
      s ∈ scts -> lookup_sct idx s = Err e ->
      interleaved_pass key idx scts w0 w StatusNotCovered (Some e).

(** What a check may return by [w]: the outcome of one pass over one index; that the
    checker was [closed]; or that the index could not be reopened. *)
Inductive check_outcome (closed : Prop) (key : LookupKey) (scts : list SCT) (w : World)
    : Status -> option error -> Prop :=
  | co_pass idx w0 w1 status err :
      opened_before idx w0 -> interleaved_pass key (ref_index idx) scts w0 w1 status err ->
      w1 `prefix_of` w -> check_outcome closed key scts w status err
  | co_closed : closed -> check_outcome closed key scts w StatusNotCovered (Some errCheckerClosed)
  | co_reopen w0 w1 e :
      openIndex w0 = (w1, Err e) -> w1 `prefix_of` w ->
      check_outcome closed key scts w StatusNotCovered
        (Some (Errorf "upki: reopening superseded index: %w" [AErr e])).

(** What each phase of a check knows. *)
Definition phase_outcome (closed : Prop) (key : LookupKey) (scts : list SCT) (w : World)
    (p : check_phase) : Prop :=
  match p with
  | Scanning _ idx rest names st =>
      exists w0, opened_before idx w0 /\ same_index w0 w
        /\ scan_progress scts idx (queried_since key (check_timestamps scts) w0) rest names st w
  | AtRUnlock _ (status, _, err) => check_outcome closed key scts w status err
  | AtUnlock _ (Some e) => exists w0 w1, openIndex w0 = (w1, Err e) /\ w1 `prefix_of` w
  | Returned (status, err) => check_outcome closed key scts w status err
  | Crashed => False
  | _ => True
  end.
End Spec.

(** ** Lemmas *)
Section Lemmas.
Context {C : Cryptobyte} {L : CryptobyteLaws C} {M : MapRange} {AP : AllocPolicy} {SS : SpanSort}
  {Op : Openers}.

Lemma opened_before_mono idx w w' : w `prefix_of` w' -> opened_before idx w -> opened_before idx w'.
Proof. intros Hw (w0 & ir & H1 & H2 & H3 & H4). exists w0, ir. do 3 (split; [done|]). by etrans. Qed.

Lemma opened_before_wf idx w : opened_before idx w -> UpkiIndex.wf_index (ref_index idx).
Proof. intros (w0 & ir & _ & _ & Hn & _). by apply (NewIndexFromReader_sound _ _ _ Hn). Qed.

Lemma queried_since_mono key ts w0 qs w w' :
  same_index w w' -> queried_since key ts w0 qs w -> queried_since key ts w0 qs w'.
Proof.
  intros Hw H. destruct H as [w Hs|qs w1 w2 w name a H Hq Hs].
  - apply qs_nil. by etrans.
  - eapply qs_snoc; [exact H|exact Hq|by etrans].
Qed.

Lemma queried_since_snoc key ts w0 qs w n a w' :
  queried_since key ts w0 qs w -> queryFilter n key ts w = (w', Ok a) ->
  queried_since key ts w0 (qs ++ [(n, a)]) w'.
Proof. intros H Hq. by eapply qs_snoc. Qed.

(** How a pass ends, by the cases of the loops. *)
Lemma pass_over_outcome key scts idx w0 w status err :
  pass_over key scts idx (queried_since key (check_timestamps scts) w0) w (status, err) ->
  interleaved_pass key (ref_index idx) scts w0 w status err.
Proof.
  intros [(qs & st & Hi & Hv & Hall)|[(qs & w1 & st & n & Hi & Hsel & Hn & Hq)
         |(qs & st & s & e & Hi & Hs & Hl & [= -> ->])]].
  - by eapply ip_verdict; [apply Hi..|right|].
  - destruct Hq as [[Hq [= -> ->]]|(e & Hq & [= -> ->])].
    + apply (ip_verdict _ _ _ _ _ (qs ++ [(n, Crlite.StatusRevoked)])).
      * eapply queried_since_snoc; [apply Hi|exact Hq].
      * rewrite fmap_app. simpl. apply NoDup_app. split; [apply Hi|].
        split; [|apply NoDup_singleton]. by intros x Hx ->%list_elem_of_singleton.
      * rewrite fmap_app. intros m [Hm| ->%list_elem_of_singleton]%elem_of_app; [by apply Hi|done].
      * left. rewrite fmap_app. set_solver.
      * apply verdict_revoked. rewrite fmap_app. set_solver.
    + by eapply ip_filter_error; [apply Hi..|exact Hsel|exact Hn|exact Hq|].
  - by eapply ip_lookup_error; [apply Hi..|exact Hs|exact Hl].
Qed.

(** ** Opening *)
Lemma openIndex_opened w w' r : openIndex w = (w', Ok r) -> opened_before r w'.
Proof.
  unfold openIndex. destruct (OpenIndex w) as [ir|e] eqn:Ho; [|done].
  destruct (NewIndexFromReader _ _) as [idx|e| |] eqn:En; try done. intros [= <- <-].
  exists w, ir. by repeat split.
Qed.

Lemma check_outcome_mono (closed closed' : Prop) key scts w w' status err :
  (closed -> closed') -> w `prefix_of` w' ->
  check_outcome closed key scts w status err -> check_outcome closed' key scts w' status err.
Proof.
  intros Hc Hw H. destruct H as [idx w0 w1 status err Ho Hp Hw1|Hcl|w0 w1 e Ho Hw1].
  - eapply co_pass; [exact Ho|exact Hp|by etrans].
  - by apply co_closed, Hc.
  - eapply co_reopen; [exact Ho|by etrans].
Qed.

(** What a check knows survives the steps of the others. *)
Definition knows (closed : Prop) (key : LookupKey) (scts : list SCT) (w : World) (c : Checker)
    (p : check_phase) : Prop :=
  (forall r, c_idx c = Some r -> opened_before r w) /\ phase_outcome closed key scts w p.

Lemma replaced_opened c w c' w' r :
  replaced c w c' w' -> c_idx c' = Some r -> opened_before r w'.
Proof.
  intros (old & idx & w1 & _ & -> & Ho & Hw) [= <-]. eapply opened_before_mono; [exact Hw|].
  by eapply openIndex_opened.
Qed.

Lemma knows_others (closed closed' : Prop) key scts p s s' :
  (closed -> closed') -> step_grows s s' -> (holds_read (TCheck key scts p) = true -> keeps s s') ->
  knows closed key scts (sh_world s) (sh_checker s) p ->
  knows closed' key scts (sh_world s') (sh_checker s') p.
Proof.
  intros Hc [Hw Hix] Hk [Hidx Hp]. split.
  { intros r Hr. destruct Hix as [E|[E|E]].
    - eapply opened_before_mono; [exact Hw|]. apply Hidx. by rewrite <- E.
    - by rewrite E in Hr.
    - by eapply replaced_opened. }
  destruct p as [r|r idx rest names st|r [[status idx] err]|r stale|r stale|r stale|r [e|]|[status err]|];
    simpl in *; try done.
  - destruct Hp as (w0 & Ho & Hsame & Hp). destruct (Hk eq_refl) as [_ Hs].
    exists w0. split; [done|]. split; [by etrans|].
    eapply scan_progress_mono; [|exact Hp]. intros qs. by apply queried_since_mono.
  - by eapply check_outcome_mono.
  - destruct Hp as (w0 & w1 & Ho & Hp). exists w0, w1. split; [done|by etrans].
  - by eapply check_outcome_mono.
Qed.

Lemma scan_step_outcome closed key scts r idx rest names st w :
  wf_scts scts -> phase_outcome closed key scts w (Scanning r idx rest names st) ->
  let '(w', p') := scan_step key scts r idx rest names st w in phase_outcome closed key scts w' p'.
Proof.
  intros Hids (w0 & Ho & Hsame & Hp). pose proof (scan_step_same_index key scts r idx rest names st w) as Hs.
  pose proof (scan_step_progress key scts idx (queried_since key (check_timestamps scts) w0)
    (fun qs w n a w' H _ Hq => queried_since_snoc _ _ _ qs w n a w' H Hq)
    (opened_before_wf _ _ Ho) Hids r rest names st w Hp) as H.
  destruct (scan_step key scts r idx rest names st w) as [w1 [| |r' [[status idx'] err]| | | | | |]];
    try done; simpl in *.
  - destruct H as (_ & -> & H). exists w0. split; [done|]. split; [by etrans|done].
  - destruct H as (_ & _ & H). by eapply co_pass; [exact Ho|apply pass_over_outcome|].
Qed.

Lemma knows_step (closed : Prop) key scts p s s' p' :
  True -> thread_ok (sh_checker s) (TCheck key scts p) -> (c_idx (sh_checker s) = None -> closed) ->
  knows closed key scts (sh_world s) (sh_checker s) p -> step_check s key scts p = Some (s', p') ->
  knows closed key scts (sh_world s') (sh_checker s') p' \/ p' = Crashed.
Proof.
  intros _ [Hids _] Hcl [Hidx Hp] H.
  assert (step_thread s (TCheck key scts p) = Some (s', TCheck key scts p')) as Hst by (simpl; by rewrite H).
  pose proof (step_thread_grows _ _ _ _ Hst) as Hg.
  destruct (knows_others closed closed key scts (AtRLock 0) s s' (fun h => h) Hg) as [Hidx' _]; [done|by split|].
  assert (phase_outcome closed key scts (sh_world s') p' \/ p' = Crashed) as [Hp'|Hp']; [|by left|by right].
  clear Hst Hg Hidx'. destruct s as [mu w c]. simpl in Hidx, Hcl, Hp.
  destruct p as [r|r idx rest names st|r [[status idx] err]|r stale|r stale|r stale|r rerr|ret|];
    simpl in H; try done.
  - destruct (RLock mu); [|done]. injection H as <- <-. left. destruct (c_idx c) as [idx|] eqn:Hc; simpl.
    + exists w. split; [by apply Hidx|]. split; [done|]. by apply scan_progress_init, qs_nil.
    + by apply co_closed, Hcl.
  - pose proof (scan_step_outcome closed key scts r idx rest names st w Hids Hp) as Hs.
    destruct (scan_step _ _ _ _ _ _ _ _). injection H as <- <-. by left.
  - destruct (RUnlock mu); injection H as <- <-; [left|by right]. by destruct (surfaces err r).
  - injection H as <- <-. by left.
  - destruct (Lock_acquire mu); [|done]. injection H as <- <-. by left.
  - pose proof (reopenIndex_cases c stale w) as Hr.
    destruct (reopenIndex c stale w) as [[w1 c1] r1]. injection H as <- <-.
    destruct Hr as (_ & _ & He). destruct r1 as [u|e| |]; [by left| |by right..]. left.
    destruct (He e eq_refl) as (w2 & Ho & Hpre). by exists w, w2.
  - destruct (Unlock mu); injection H as <- <-; [|by right]. left. destruct rerr as [e|]; [|done].
    destruct Hp as (w0 & w1 & Ho & Hw). by eapply co_reopen.
Qed.

(** ** Properties *)

(** C12. What any number of concurrent checks and closes return, whatever the openers
    answer at each call: a check with SCTs that has returned gave the outcome of one
    pass over one index, which queried distinct filters that this index selects, all
    of them unless one revoked or failed, while no goroutine opened another index; or
    it found the checker closed, and some goroutine called [Close]; or it could not
    reopen the index.  No check combines two generations of the cache's index. *)
Theorem concurrent_outcomes (w w1 : World) (c : Checker) (base : gset nat) (calls : list call)
    (s : State) :
  progressing -> live w = Some base -> NewCheckerWith w = (w1, Ok c) ->
  rtc step (start w1 c calls) s ->
  forall key scts status err, TCheck key scts (Returned (status, err)) ∈ threads s -> scts <> [] ->
    check_outcome (exists p, TClose p ∈ threads s) key scts (sh_world (shared s)) status err.
Proof.
  intros Hp Hl Hn Hs key scts status err Hin Hne.
  destruct (run_facts knows (fun _ => True) knows_others knows_step w w1 c base calls s Hp Hl Hn)
    with key scts (Returned (status, err)) as [_ H]; try done.
  intros key' scts'. split; [|done]. intros r Hr. unfold NewCheckerWith in Hn.
  destruct (openIndex w) as [w' [idx|e| |]] eqn:E; try done. injection Hn as <- <-.
  injection Hr as <-. by eapply openIndex_opened.
Qed.
End Lemmas.

(** ** Witnesses *)
Section Witnesses.
#[local] Instance openers : Openers := sample_openers.

Lemma sample_returned :
  exists s, run sample_schedule (start [IndexOpened true] sample_checker sample_calls) = Some s
  /\ threads s !! 0%nat = Some (TCheck sample_key sample_scts (Returned (StatusNotRevoked, None))).
Proof. eexists. split; vm_compute; reflexivity. Defined.

(** The first check of the sample run, which a close overtakes. *)
Lemma concurrent_outcomes_witness :
  exists s, rtc step (start [IndexOpened true] sample_checker sample_calls) s
  /\ check_outcome (exists p, TClose p ∈ threads s) sample_key sample_scts (sh_world (shared s))
       StatusNotRevoked None.
Proof.
  destruct sample_returned as (s & Hrun & Hi). exists s.
  assert (rtc step (start [IndexOpened true] sample_checker sample_calls) s) as Hs
    by exact (rtc_nsteps_2 _ _ _ (run_nsteps _ _ _ Hrun)).
  split; [exact Hs|].
  exact (concurrent_outcomes (Op := sample_openers) [] [IndexOpened true] sample_checker ∅ sample_calls s
    (cache_openers_progressing _ _) eq_refl sample_new Hs sample_key sample_scts StatusNotRevoked None
    (list_elem_of_lookup_2 _ _ _ Hi) sample_scts_some).
Defined.
End Witnesses.
