(* ===== verification/CheckerUpdates.v ===== *)
(** * Checks while the cache is updated ([upki/check.go])

    The cache atomicity contract that [Check] relies on, and what it gives: an update
    replaces the index and the filter files, and may remove files; an index only names
    files that are there when it becomes visible.  The theorems are about any number of
    goroutines on one checker; a cache that stays as it is is the case of no update. *)
From S2P Require Import Prelude Codec Cryptobyte GoIO UpkiIndex Clubcard CrliteParser Sha256 Crlite Sct Checker CheckerConc.

(** ** Specification *)
Section Spec.
Context {C : Cryptobyte} {M : MapRange} {AP : AllocPolicy} {SS : SpanSort} {Op : Openers}.

(** The generations of a cache: the index and the files of each, and the generation
    that a call made in a world finds. *)
Record Generations := mkGenerations {
  content : Z -> bytes;
  files : Z -> bytes -> option bytes;
  gen : World -> Z
}.

(** From [w0] on: updates only go forward, the openers serve the current generation (a
    file of another one that is gone is reported as missing), and a file name is not
    used again for other contents. *)
Record versioned_cache (G : Generations) (w0 : World) : Prop := {
  vc_mono w w' : w0 `prefix_of` w -> w `prefix_of` w' -> gen G w <= gen G w';
  vc_index w ir : w0 `prefix_of` w -> OpenIndex w = inl ir -> serves (content G (gen G w)) (ir_reader ir);
  vc_files w name g d : w0 `prefix_of` w -> files G g name = Some d ->
    match files G (gen G w) name with
    | Some d => exists rc, Open w name = inl rc /\ ReadAll (rc_reads rc) [] = Ok d
    | None => exists e, Open w name = inr e /\ errors_Is e "file does not exist" = true
    end;
  vc_immutable g g' name d d' : files G g name = Some d -> files G g' name = Some d' -> d = d'
}.

(** An index that becomes visible only names files that are there. *)
Definition consistent_always (G : Generations) (scts : list SCT) : Prop :=
  forall g, consistent (content G g) (files G g) scts.

(** What a check may return in [w], the checker having been opened in [w0]: the answer
    of one generation since; that the checker was [closed]; that the index could not be
    reopened after an update; or that a file is missing after three updates. *)
Inductive versioned_outcome (G : Generations) (w0 : World) (closed : Prop) (key : LookupKey)
    (scts : list SCT) (w : World) : Status -> option error -> Prop :=
  | vo_answer g status err :
      gen G w0 <= g <= gen G w -> cache_answer (content G g) (files G g) scts key status err ->
      versioned_outcome G w0 closed key scts w status err
  | vo_closed :
      closed -> versioned_outcome G w0 closed key scts w StatusNotCovered (Some errCheckerClosed)
  | vo_reopen w1 w2 e :
      openIndex w1 = (w2, Err e) -> w0 `prefix_of` w1 -> gen G w0 < gen G w1 -> w2 `prefix_of` w ->
      versioned_outcome G w0 closed key scts w StatusNotCovered
        (Some (Errorf "upki: reopening superseded index: %w" [AErr e]))
  | vo_missing e :
      errors_Is e "file does not exist" = true -> gen G w0 + 3 <= gen G w ->
      versioned_outcome G w0 closed key scts w StatusNotCovered (Some e).

End Spec.

(** ** One pass over one generation *)
Section Versions.
Context {C : Cryptobyte} {L : CryptobyteLaws C} {M : MapRange} {AP : AllocPolicy} {SS : SpanSort}
  {Op : Openers}.
Context (G : Generations) (w0 : World).
Hypothesis Hcache : versioned_cache G w0.

(** The index was read from generation [g]. *)
Definition gen_index (g : Z) (idx : IndexRef) : Prop :=
  exists ir cl, serves (content G g) (ir_reader ir)
    /\ NewIndexFromReader (ir_reader ir) cl = Ok (ref_index idx).

Lemma gen_index_wf g idx : gen_index g idx -> UpkiIndex.wf_index (ref_index idx).
Proof. intros (ir & cl & _ & Hn). by apply (NewIndexFromReader_sound _ _ _ Hn). Qed.

Lemma openIndex_gen w w' idx :
  w0 `prefix_of` w -> openIndex w = (w', Ok idx) -> gen_index (gen G w) idx.
Proof.
  unfold openIndex. intros Hw. destruct (OpenIndex w) as [ir|e] eqn:Ho; [|done].
  destruct (NewIndexFromReader _ _) as [ix|e| |] eqn:En; try done. intros [= _ <-].
  exists ir. eexists. split; [by apply (vc_index _ _ Hcache)|exact En].
Qed.

Section Pass.
Context (g : Z) (key : LookupKey) (scts : list SCT) (idx : IndexRef).
Hypothesis Hcons : consistent (content G g) (files G g) scts.
Hypothesis Hids : wf_scts scts.
Hypothesis Hidx : gen_index g idx.

(** A filter the index selects answers as in the index's own generation, or is gone,
    and then that generation is over. *)
Lemma query_version w n :
  w0 `prefix_of` w -> g <= gen G w -> selected (ref_index idx) scts n ->
  match queryFilter n key (check_timestamps scts) w with
  | (w', Ok a) => exists d rf, files G g n = Some d /\ FromBytes d = Ok rf
      /\ cached_filter (content G g) (files G g) scts rf /\ a = contains_spec rf key (check_timestamps scts)
  | (w', Err e) => errors_Is e "file does not exist" = true /\ g < gen G w
  | _ => False
  end.
Proof.
  intros Hw Hg Hsel. destruct Hidx as (ir & cl & Hsv & Hn).
  destruct (selected_static _ _ scts Hcons Hids _ ir cl Hsv Hn n Hsel) as (d & rf & Hd & Hrf & Hc).
  pose proof (vc_files _ _ Hcache w n g d Hw Hd) as Hf. unfold queryFilter, readFilter.
  destruct (files G (gen G w) n) as [d'|] eqn:Hd'.
  - assert (d' = d) as -> by (by eapply (vc_immutable _ _ Hcache)).
    destruct Hf as (rc & -> & ->). go_simp. rewrite Hrf. go_simp.
    rewrite RevocationFilter_Contains_eq by (by destruct (FromBytes_wf_filter _ _ Hrf)).
    by exists d, rf.
  - destruct Hf as (e & -> & He). go_simp. split; [simpl; by rewrite He|].
    destruct (decide (gen G w = g)) as [E|]; [|lia]. rewrite E in Hd'. congruence.
Qed.

(** What is known of the filters a pass has queried. *)
Definition known (qs : list (bytes * Crlite.Status)) (w : World) : Prop :=
  answered (content G g) (files G g) scts key qs /\ w0 `prefix_of` w /\ g <= gen G w.

Lemma known_mono qs w w' : w `prefix_of` w' -> known qs w -> known qs w'.
Proof.
  intros Hw (Ha & Hp & Hg). split; [done|]. split; [by etrans|].
  pose proof (vc_mono _ _ Hcache _ _ Hp Hw). lia.
Qed.

Lemma queryFilter_prefix n w : w `prefix_of` (queryFilter n key (check_timestamps scts) w).1.
Proof. apply same_index_prefix, queryFilter_same_index. Qed.

Lemma known_snoc qs w n a w' :
  known qs w -> selected (ref_index idx) scts n ->
  queryFilter n key (check_timestamps scts) w = (w', Ok a) -> known (qs ++ [(n, a)]) w'.
Proof.
  intros Hk Hsel Hq. pose proof Hk as (Ha & Hp & Hg).
  pose proof (query_version w n Hp Hg Hsel) as H. pose proof (queryFilter_prefix n w) as Hpre.
  rewrite Hq in H, Hpre. split; [|by apply (known_mono qs w)].
  intros m b [Hin|[= -> ->]%list_elem_of_singleton]%elem_of_app; [by apply Ha|exact H].
Qed.

(** How a pass ends: with the generation's answer, or at a file that is gone. *)
Lemma pass_over_version w status err :
  pass_over key scts idx known w (status, err) ->
  cache_answer (content G g) (files G g) scts key status err
  \/ exists e, err = Some e /\ errors_Is e "file does not exist" = true
       /\ status = StatusNotCovered /\ g < gen G w.
Proof.
  pose proof Hidx as (ir & cl & Hsv & Hn).
  intros [(qs & st & Hi & Hv & Hall)|[(qs & w1 & st & n & Hi & Hsel & Hnin & Hq)
         |(qs & st & s & e & Hi & Hs & Hl & _)]].
  - left. eapply verdict_answer; [|by symmetry].
    eapply (answered_answers _ _ scts Hcons Hids _ ir cl); [done|done|apply (si_asked _ _ _ _ _ Hi)|by right].
  - pose proof (si_asked _ _ _ _ _ Hi) as (Ha & Hp & Hg).
    pose proof (query_version w1 n Hp Hg Hsel) as H. pose proof (queryFilter_prefix n w1) as Hpre.
    destruct Hq as [[Hq [= -> ->]]|(e & Hq & [= -> ->])]; rewrite Hq in H, Hpre.
    + left. destruct (known_snoc _ _ _ _ _ (si_asked _ _ _ _ _ Hi) Hsel Hq) as [Ha' _].
      assert (Crlite.StatusRevoked ∈ (qs ++ [(n, Crlite.StatusRevoked)]).*2) as Hr
        by (rewrite fmap_app; set_solver).
      eapply verdict_answer; [|by apply verdict_revoked].
      eapply (answered_answers _ _ scts Hcons Hids _ ir cl); [done|done|exact Ha'|by left].
    + right. exists e. destruct H as [He Hlt]. split; [done|]. split; [done|]. split; [done|].
      pose proof (vc_mono _ _ Hcache _ _ Hp Hpre). simpl in *. lia.
  - rewrite (lookup_static _ _ scts Hcons Hids _ ir cl Hsv Hn s Hs) in Hl.
    destruct (Hcons s Hs) as (ns & Hl' & _). congruence.
Qed.
End Pass.

(** ** The phases of a check *)

(** The checker's index, if it has one, is of generation [lo] or later. *)
Definition at_least (lo : Z) (w : World) (c : Checker) : Prop :=
  forall cur, c_idx c = Some cur -> exists g, lo <= g <= gen G w /\ gen_index g cur.

(** The stale index was of generation [lo] or later, and the current one, if it is
    another, is newer. *)
Definition superseded (lo : Z) (stale : option IndexRef) (w : World) (c : Checker) : Prop :=
  exists g, lo <= g < gen G w
    /\ forall cur, c_idx c = Some cur ->
         same_ref (Some cur) stale = true \/ exists g', g < g' <= gen G w /\ gen_index g' cur.

Definition phase_version (closed : Prop) (key : LookupKey) (scts : list SCT) (w : World)
    (c : Checker) (p : check_phase) : Prop :=
  match p with
  | AtRLock r => at_least (gen G w0 + r) w c
  | Scanning r idx rest names st =>
      exists g, gen G w0 + r <= g <= gen G w /\ gen_index g idx
        /\ scan_progress scts idx (known g key scts) rest names st w
  | AtRUnlock r (status, idx, err) =>
      versioned_outcome G w0 closed key scts w status err /\ surfaces err r = true
      \/ exists e, err = Some e /\ errors_Is e "file does not exist" = true
           /\ status = StatusNotCovered /\ superseded (gen G w0 + r) idx w c
  | AtLock r stale | Waiting r stale | Reopening r stale => superseded (gen G w0 + r) stale w c
  | AtUnlock r None => at_least (gen G w0 + (r + 1)) w c
  | AtUnlock r (Some e) => exists w1 w2, openIndex w1 = (w2, Err e) /\ w0 `prefix_of` w1
                          /\ gen G w0 < gen G w1 /\ w2 `prefix_of` w
  | Returned (status, err) => versioned_outcome G w0 closed key scts w status err
  | Crashed => False
  end.
Definition versions (closed : Prop) (key : LookupKey) (scts : list SCT) (w : World)
    (c : Checker) (p : check_phase) : Prop :=
  w0 `prefix_of` w /\ phase_version closed key scts w c p.

(** ** Steps of the others *)
Lemma replaced_gen w c w' c' :
  w0 `prefix_of` w -> replaced c w c' w' ->
  exists old idx, c_idx c = Some old /\ c' = mkChecker (Some idx) /\ gen_index (gen G w) idx
    /\ gen G w <= gen G w'.
Proof.
  intros Hw (old & idx & w1 & Hc & -> & Ho & Hp). exists old, idx. split; [done|]. split; [done|].
  split; [by eapply openIndex_gen|]. apply (vc_mono _ _ Hcache); [done|].
  etrans; [|exact Hp]. pose proof (openIndex_prefix w) as H. by rewrite Ho in H.
Qed.

Lemma at_least_grows lo s s' :
  w0 `prefix_of` sh_world s -> step_grows s s' ->
  at_least lo (sh_world s) (sh_checker s) -> at_least lo (sh_world s') (sh_checker s').
Proof.
  intros Hw [Hp Hc] H cur Hcur. pose proof (vc_mono _ _ Hcache _ _ Hw Hp) as Hm.
  destruct Hc as [E|[E|E]].
  - rewrite E in Hcur. destruct (H cur Hcur) as (g & Hg & Hi). exists g. split; [lia|done].
  - by rewrite E in Hcur.
  - destruct (replaced_gen _ _ _ _ Hw E) as (old & idx & Ho & E' & Hi & _).
    rewrite E' in Hcur. injection Hcur as <-. destruct (H old Ho) as (g & Hg & _).
    exists (gen G (sh_world s)). split; [lia|done].
Qed.

Lemma superseded_grows lo stale s s' :
  w0 `prefix_of` sh_world s -> step_grows s s' ->
  superseded lo stale (sh_world s) (sh_checker s) -> superseded lo stale (sh_world s') (sh_checker s').
Proof.
  intros Hw [Hp Hc] (g & Hg & H). pose proof (vc_mono _ _ Hcache _ _ Hw Hp) as Hm.
  exists g. split; [lia|]. intros cur Hcur. destruct Hc as [E|[E|E]].
  - rewrite E in Hcur. destruct (H cur Hcur) as [?|(g' & Hg' & Hi)]; [by left|right].
    exists g'. split; [lia|done].
  - by rewrite E in Hcur.
  - right. destruct (replaced_gen _ _ _ _ Hw E) as (old & idx & Ho & E' & Hi & _).
    rewrite E' in Hcur. injection Hcur as <-. exists (gen G (sh_world s)). split; [lia|done].
Qed.

Lemma versioned_outcome_mono (closed closed' : Prop) key scts w w' status err :
  (closed -> closed') -> w0 `prefix_of` w -> w `prefix_of` w' ->
  versioned_outcome G w0 closed key scts w status err -> versioned_outcome G w0 closed' key scts w' status err.
Proof.
  intros Hc Hw Hp H. pose proof (vc_mono _ _ Hcache _ _ Hw Hp) as Hm.
  destruct H as [g status err Hg Ha|Hcl|w1 w2 e Ho Hw1 Hlt Hp2|e He Hg].
  - apply (vo_answer _ _ _ _ _ _ g); [lia|done].
  - by apply vo_closed, Hc.
  - eapply vo_reopen; [exact Ho|done|done|by etrans].
  - apply vo_missing; [done|lia].
Qed.

Lemma versions_others (closed closed' : Prop) key scts p s s' :
  (closed -> closed') -> step_grows s s' -> (holds_read (TCheck key scts p) = true -> keeps s s') ->
  versions closed key scts (sh_world s) (sh_checker s) p ->
  versions closed' key scts (sh_world s') (sh_checker s') p.
Proof.
  intros Hc Hs Hk [Hw Hp]. pose proof (sg_world _ _ Hs) as Hpre. split; [by etrans|].
  pose proof (vc_mono _ _ Hcache _ _ Hw Hpre) as Hm.
  destruct p as [r|r idx rest names st|r [[status idx] err]|r stale|r stale|r stale|r [e|]|[status err]|];
    simpl in *; try done; try (by eapply at_least_grows); try (by eapply superseded_grows);
    try (by eapply versioned_outcome_mono).
  - destruct Hp as (g & Hg & Hi & Hp). exists g. split; [lia|]. split; [done|].
    eapply scan_progress_mono; [|exact Hp]. intros qs. by apply known_mono.
  - destruct Hp as [[Ho Hsf]|(e & H1 & H2 & H3 & Hsup)].
    + left. split; [by eapply versioned_outcome_mono|done].
    + right. exists e. split; [done|]. split; [done|]. split; [done|]. by eapply superseded_grows.
  - destruct Hp as (w1 & w2 & Ho & Hw1 & Hlt & Hp). exists w1, w2. do 3 (split; [done|]). by etrans.
Qed.

(** ** Steps of the check *)
Lemma scan_step_version (closed : Prop) key scts r idx rest names st w c :
  consistent_always G scts -> wf_scts scts -> c_idx c = Some idx -> 0 <= r ->
  versions closed key scts w c (Scanning r idx rest names st) ->
  let '(w', p') := scan_step key scts r idx rest names st w in
  w0 `prefix_of` w' -> versions closed key scts w' c p'.
Proof.
  intros Hcons Hids Hc Hr [Hw (g & Hg & Hi & Hp)].
  pose proof (scan_step_progress key scts idx (known g key scts)
    (known_snoc g key scts idx (Hcons g) Hids Hi) (gen_index_wf _ _ Hi) Hids r rest names st w Hp) as H.
  pose proof (same_index_prefix _ _ (scan_step_same_index key scts r idx rest names st w)) as Hpre.
  destruct (scan_step key scts r idx rest names st w) as [w1 [| |r' [[status idx'] err]| | | | | |]];
    try done; simpl in Hpre; intros Hw1; (split; [done|]); simpl;
    pose proof (vc_mono _ _ Hcache _ _ Hw Hpre) as Hm.
  - destruct H as (-> & -> & H). exists g. split; [lia|done].
  - destruct H as (-> & -> & H).
    destruct (pass_over_version g key scts idx (Hcons g) Hids Hi _ _ _ H) as [Ha|(e & H1 & H2 & H3 & H4)].
    + left. split; [|by eapply cache_answer_surfaces].
      apply (vo_answer _ _ _ _ _ _ g); [lia|done].
    + right. exists e. split; [done|]. split; [done|]. split; [done|]. exists g. split; [lia|].
      intros cur Hcur. left. rewrite Hc in Hcur. injection Hcur as <-. by apply bool_decide_eq_true.
Qed.

Lemma RLock_version (closed : Prop) key scts r w c :
  (c_idx c = None -> closed) -> versions closed key scts w c (AtRLock r) ->
  versions closed key scts w c
    match c_idx c with
    | None => AtRUnlock r (StatusNotCovered, None, Some errCheckerClosed)
    | Some idx => Scanning r idx scts [] scan0
    end.
Proof.
  intros Hcl [Hw Hp]. split; [done|]. destruct (c_idx c) as [idx|] eqn:Hc.
  - destruct (Hp idx Hc) as (g & Hg & Hi). exists g. split; [done|]. split; [done|].
    apply scan_progress_init. split; [intros n a Hin; by apply elem_of_nil in Hin|]. split; [done|lia].
  - left. split; [by apply vo_closed, Hcl|]. by vm_compute.
Qed.

Lemma RUnlock_version (closed : Prop) key scts r status idx err w c :
  0 <= r <= maxIndexReopens -> versions closed key scts w c (AtRUnlock r (status, idx, err)) ->
  versions closed key scts w c (if surfaces err r then Returned (status, err) else AtLock r idx).
Proof.
  intros Hr [Hw [[Ho Hs]|(e & -> & He & -> & Hsup)]]; (split; [done|]); [by rewrite Hs|].
  unfold surfaces. rewrite He. cbn [negb orb].
  destruct (Z.eqb_spec r maxIndexReopens) as [->|Hne]; [|done].
  destruct Hsup as (g & Hg & _). unfold maxIndexReopens in Hg. apply vo_missing; [done|lia].
Qed.

Lemma reopen_version (closed : Prop) key scts r stale w c :
  0 <= r -> versions closed key scts w c (Reopening r stale) ->
  let '(w', c', res) := reopenIndex c stale w in
  match res with
  | Ok _ => versions closed key scts w' c' (AtUnlock r None)
  | Err e => versions closed key scts w' c' (AtUnlock r (Some e))
  | _ => True
  end.
Proof.
  intros Hr [Hw (g & Hg & Hsup)]. pose proof (reopenIndex_cases c stale w) as H.
  destruct (reopenIndex c stale w) as [[w1 c1] res]. destruct H as (Hp & Hc & He).
  pose proof (vc_mono _ _ Hcache _ _ Hw Hp) as Hm.
  destruct res as [[]|e| |]; [| |done|done]; (split; [by etrans|]); simpl.
  - intros cur Hcur. destruct Hc as [[-> Hs]|Hc].
    + destruct (Hsup cur Hcur) as [Hsame|(g' & Hg' & Hi)].
      * specialize (Hs eq_refl). rewrite Hcur in Hs. congruence.
      * exists g'. split; [lia|done].
    + destruct (replaced_gen _ _ _ _ Hw Hc) as (old & idx & _ & -> & Hi & _).
      injection Hcur as <-. exists (gen G w). split; [lia|done].
  - destruct (He e eq_refl) as (w2 & Ho & Hp2). exists w, w2. do 2 (split; [done|]). split; [lia|done].
Qed.

Lemma versions_step (closed : Prop) key scts p s s' p' :
  consistent_always G scts -> thread_ok (sh_checker s) (TCheck key scts p) ->
  (c_idx (sh_checker s) = None -> closed) ->
  versions closed key scts (sh_world s) (sh_checker s) p -> step_check s key scts p = Some (s', p') ->
  versions closed key scts (sh_world s') (sh_checker s') p' \/ p' = Crashed.
Proof.
  intros Hcons [Hids Hok] Hcl Hp H. destruct s as [mu w c]. simpl in Hok, Hcl, Hp.
  destruct p as [r|r idx rest names st|r [[status idx] err]|r stale|r stale|r stale|r rerr|ret|];
    simpl in H; try done.
  - destruct (RLock mu); [|done]. injection H as <- <-. left. by apply RLock_version.
  - pose proof (scan_step_version closed key scts r idx rest names st w c Hcons Hids) as Hs.
    pose proof (same_index_prefix _ _ (scan_step_same_index key scts r idx rest names st w)) as Hpre.
    destruct Hok as ([Hr _] & Hc & _), (scan_step _ _ _ _ _ _ _ _) as [w1 p1]. injection H as <- <-.
    left. apply Hs; [done|done|done|]. etrans; [apply Hp|exact Hpre].
  - destruct (RUnlock mu); injection H as <- <-; [left|by right]. apply RUnlock_version; [apply Hok|done].
  - injection H as <- <-. by left.
  - destruct (Lock_acquire mu); [|done]. injection H as <- <-. by left.
  - destruct Hok as [[Hr _] _]. pose proof (reopen_version closed key scts r stale w c Hr Hp) as Hre.
    destruct (reopenIndex c stale w) as [[w1 c1] res]. injection H as <- <-.
    destruct res; [by left|by left|by right..].
  - destruct (Unlock mu); injection H as <- <-; [|by right]. left. destruct Hp as [Hw Hp].
    split; [done|]. destruct rerr as [e|]; [|done]. destruct Hp as (w1 & w2 & Ho & Hw1 & Hlt & Hp2).
    by eapply vo_reopen.
Qed.

(** ** Runs *)
Lemma run_versions w1 c base calls s :
  progressing -> live w0 = Some base -> NewCheckerWith w0 = (w1, Ok c) ->
  (forall chain key scts, CallCheck chain ∈ calls -> check_inputs chain = inr (Ok (key, scts)) ->
     consistent_always G scts) ->
  rtc step (start w1 c calls) s ->
  forall key scts status err, TCheck key scts (Returned (status, err)) ∈ threads s -> scts <> [] ->
    versioned_outcome G w0 (exists p, TClose p ∈ threads s) key scts (sh_world (shared s)) status err.
Proof.
  intros Hp Hl Hn Hcons Hs key scts status err Hin Hne.
  destruct (run_facts versions (consistent_always G) versions_others versions_step
    w0 w1 c base calls s Hp Hl Hn) with key scts (Returned (status, err)) as [_ H]; try done.
  intros key' scts'. unfold NewCheckerWith in Hn. pose proof (openIndex_prefix w0) as Hpre.
  destruct (openIndex w0) as [w' [idx|e| |]] eqn:E; try done. injection Hn as <- <-. simpl in Hpre.
  split; [done|]. intros cur [= <-]. exists (gen G w0).
  pose proof (vc_mono _ _ Hcache _ _ ltac:(reflexivity) Hpre). split; [lia|].
  by eapply openIndex_gen.
Qed.
End Versions.

(** ** Properties *)

(** C3. The cache atomicity contract at work, for any number of goroutines on one
    checker while the cache is updated any number of times: a check with SCTs that has
    returned gave the answer of one generation of the cache, current at some time since
    the checker was opened, and never a mixture of generations; or it found the checker
    closed by a [Close]; or the index of a later generation could not be opened.  The
    error of a missing filter only surfaces if there were three updates or more, which
    is what the two reopens of [maxIndexReopens] are for. *)
Theorem checks_survive_updates {C : Cryptobyte} {L : CryptobyteLaws C} {M : MapRange}
    {AP : AllocPolicy} {SS : SpanSort} {Op : Openers} (G : Generations) (w w1 : World) (c : Checker)
    (base : gset nat) (calls : list call) (s : State) :
  progressing -> live w = Some base -> versioned_cache G w -> NewCheckerWith w = (w1, Ok c) ->
  (forall chain key scts, CallCheck chain ∈ calls -> check_inputs chain = inr (Ok (key, scts)) ->
     consistent_always G scts) ->
  rtc step (start w1 c calls) s ->
  forall key scts status err, TCheck key scts (Returned (status, err)) ∈ threads s -> scts <> [] ->
    versioned_outcome G w (exists p, TClose p ∈ threads s) key scts (sh_world (shared s)) status err.
Proof. intros Hp Hl Hc Hn Hcons Hs. by eapply run_versions. Qed.

(** C2. The documented promise for concurrent use: over a cache that stays as it is,
    in every interleaving of any number of checks and closes, a check with SCTs that
    has returned gave the cache's own answer, or found the checker closed; and it can
    only have found it closed if some goroutine called [Close]. *)
Theorem concurrent_answers {C : Cryptobyte} {L : CryptobyteLaws C} {M : MapRange} {AP : AllocPolicy}
    {SS : SpanSort} {Op : Openers} (content : bytes) (files : bytes -> option bytes) (w w1 : World)
    (c : Checker) (base : gset nat) (calls : list call) (s : State) :
  progressing -> live w = Some base -> static_cache content files w ->
  NewCheckerWith w = (w1, Ok c) ->
  (forall chain key scts, CallCheck chain ∈ calls -> check_inputs chain = inr (Ok (key, scts)) ->
     consistent content files scts) ->
  rtc step (start w1 c calls) s ->
  forall key scts status err, TCheck key scts (Returned (status, err)) ∈ threads s -> scts <> [] ->
    cache_answer content files scts key status err
    \/ ((exists p, TClose p ∈ threads s)
        /\ status = StatusNotCovered /\ err = Some errCheckerClosed).
Proof.
  intros Hp Hl Hst Hn Hcons Hs key scts status err Hin Hne.
  set (G := mkGenerations (fun _ => content) (fun _ => files) (fun _ => 0)).
  assert (versioned_cache G w) as Hv.
  { constructor; simpl; [done|by apply Hst| |congruence].
    intros w' name _ d Hw Hd. rewrite Hd. by apply Hst. }
  destruct (run_versions G w Hv w1 c base calls s Hp Hl Hn) with key scts status err
    as [g status err _ Ha|Hcl|w2 w3 e _ _ Hlt _|e _ Hlt]; simpl in *; [|done|done|done| |by right|lia|lia].
  - intros chain k ss Hcall Hin' g. by eapply Hcons.
  - by left.
Qed.

(** ** Witnesses *)

(** The openers of a cache with generations. *)
Definition versioned_openers (G : Generations) : Openers := {|
  OpenIndex w := inl (mkIndexReader (bytes_reader (content G (gen G w))) None);
  Open w name := Open (Openers := cache_openers [] (files G (gen G w))) w name
|}.

Lemma versioned_openers_progressing G : progressing (Op := versioned_openers G).
Proof. intros w r [= <-]. apply bytes_reader_progresses. Defined.

(** A cache whose two filters are replaced by one, which revokes the sample certificate,
    once the first filter has been read. *)
Definition next_index : bytes :=
  indexMagic ++ be_encode 2 1 ++ be_encode 4 1 ++ sample_slot "c.filter"
  ++ sample_log ++ be_encode 8 88 ++ be_encode 2 1 ++ sample_entry 0 100 200.
Definition next_files (name : bytes) : option bytes :=
  if bool_decide (name = go_string "c.filter") then Some (sample_filter_file sample_issuer false) else None.
Definition sample_generations : Generations := {|
  content g := if g =? 0 then sample_index else next_index;
  files g := if g =? 0 then sample_files else next_files;
  gen w := if (length w <=? 1)%nat then 0 else 1
|}.

Lemma sample_versioned : versioned_cache (Op := versioned_openers sample_generations) sample_generations [].
Proof.
  constructor.
  - intros w w' _ [k ->]. simpl. rewrite length_app.
    destruct (Nat.leb_spec (length w) 1), (Nat.leb_spec (length w + length k) 1); lia.
  - intros w ir _ [= <-]. apply bytes_reader_serves.
  - intros w name _ _ _ _. simpl. destruct (_ name); eexists; by split.
  - intros g g' name d d'. simpl. unfold sample_files, next_files.
    destruct (g =? 0), (g' =? 0); repeat case_bool_decide; congruence || (subst; done).
Qed.

Lemma next_consistent : consistent next_index next_files sample_scts.
Proof.
  assert (content_names next_index (mkSCT sample_log 150) = Ok [go_string "c.filter"]) as Hn
    by (vm_compute; reflexivity).
  intros s Hs. assert (s = mkSCT sample_log 150) as -> by (unfold sample_scts in Hs; set_solver).
  exists [go_string "c.filter"]. split; [exact Hn|].
  intros name ->%list_elem_of_singleton.
  eexists _, (clubcard_of (mkWire [(sample_log, mkInterval 100 300)]
    [(sample_issuer, mkWireMeta 1 1 0 1 0 false [])] [[0; 0; 0; 0]] [0; 0; 0; 0])).
  split; [reflexivity|]. vm_compute. reflexivity.
Qed.

Lemma sample_calls_always chain key scts :
  CallCheck chain ∈ sample_calls -> check_inputs chain = inr (Ok (key, scts)) ->
  consistent_always sample_generations scts.
Proof.
  intros Hin H. assert (chain = sample_chain) as -> by set_solver.
  unfold sample_chain in H. rewrite (check_inputs_ok _ _ _ _ _ sample_scts_ok sample_scts_some sample_serial_ok) in H.
  injection H as _ <-. intros g. unfold sample_generations. cbn [content files].
  destruct (g =? 0); [apply sample_consistent|apply next_consistent].
Qed.

Section UpdateWitness.
#[local] Instance openers : Openers := versioned_openers sample_generations.

(** The first check meets the update after its first filter. *)
Lemma updated_run :
  exists s, run (replicate 13 0%nat) (start [IndexOpened true] sample_checker sample_calls) = Some s
  /\ threads s !! 0%nat = Some (TCheck sample_key sample_scts (Returned (StatusRevoked, None))).
Proof. eexists. split; vm_compute; reflexivity. Qed.

Lemma updated_new : NewCheckerWith [] = ([IndexOpened true], Ok sample_checker).
Proof. vm_compute. reflexivity. Qed.

Lemma checks_survive_updates_witness :
  exists s, rtc step (start [IndexOpened true] sample_checker sample_calls) s
  /\ versioned_outcome sample_generations [] (exists p, TClose p ∈ threads s) sample_key sample_scts
       (sh_world (shared s)) StatusRevoked None.
Proof.
  destruct updated_run as (s & Hrun & Hi). exists s.
  assert (rtc step (start [IndexOpened true] sample_checker sample_calls) s) as Hs
    by exact (rtc_nsteps_2 _ _ _ (run_nsteps _ _ _ Hrun)).
  split; [exact Hs|].
  exact (checks_survive_updates (Op := versioned_openers sample_generations) sample_generations []
    [IndexOpened true] sample_checker ∅ sample_calls s (versioned_openers_progressing _) eq_refl
    sample_versioned updated_new sample_calls_always Hs sample_key sample_scts StatusRevoked None
    (list_elem_of_lookup_2 _ _ _ Hi) sample_scts_some).
Defined.
End UpdateWitness.

Section StaticWitness.
#[local] Instance static_openers : Openers := sample_openers.

Lemma sample_calls_consistent chain key scts :
  CallCheck chain ∈ sample_calls -> check_inputs chain = inr (Ok (key, scts)) ->
  consistent sample_index sample_files scts.
Proof. intros Hin H. exact (sample_calls_always chain key scts Hin H 0). Qed.

Lemma concurrent_answers_witness :
  exists s, rtc step (start [IndexOpened true] sample_checker sample_calls) s
  /\ forall key status err, TCheck key sample_scts (Returned (status, err)) ∈ threads s ->
       cache_answer sample_index sample_files sample_scts key status err
       \/ ((exists p, TClose p ∈ threads s)
           /\ status = StatusNotCovered /\ err = Some errCheckerClosed).
Proof.
  destruct sample_run as (s & Hrun & _). exists s.
  assert (rtc step (start [IndexOpened true] sample_checker sample_calls) s) as Hs
    by exact (rtc_nsteps_2 _ _ _ (run_nsteps _ _ _ Hrun)).
  split; [exact Hs|]. intros key status err Hin.
  exact (concurrent_answers (Op := sample_openers) sample_index sample_files [] [IndexOpened true]
    sample_checker ∅ sample_calls s (cache_openers_progressing _ _) eq_refl
    (cache_openers_static _ _ _) sample_new sample_calls_consistent Hs key sample_scts status err Hin
    sample_scts_some).
Defined.
End StaticWitness.
