(* ===== verification/Path.v ===== *)
(** * Unix file paths ([path/filepath] of the Go standard library)

    [Clean] and [Join], as [upki/check.go] and [upki/manifest.go] use them to name
    the files of a cache directory. *)
From S2P Require Import Prelude.

Definition sep : byte := Init.Byte.x2f.
Definition dot : byte := Init.Byte.x2e.
Definition is_sep (c : byte) : bool := bool_decide (c = sep).

(** The element ends here: at the end of the path or before a separator. *)
Definition ends (rest : bytes) : bool :=
  match rest with [] => true | c :: _ => is_sep c end.

(** The longest prefix without a separator, and the rest. *)
Fixpoint split_elem (rest : bytes) : bytes * bytes :=
  match rest with
  | [] => ([], [])
  | c :: t => if is_sep c then ([], rest) else let '(e, r) := split_elem t in (c :: e, r)
  end.

(** What [Clean] has written, and how far a dot-dot may not back up. *)
Record lazybuf := mkBuf { out : bytes; dotdot : Z }.

(** [for out.w > dotdot && !IsPathSeparator(out.index(out.w)) { out.w-- }], on the
    written bytes in reverse, the first being at index [w]. *)
Fixpoint back_up (rout : bytes) (w limit : Z) : bytes :=
  match rout with
  | [] => []
  | c :: t => if (limit <? w) && negb (is_sep c) then back_up t (w - 1) limit else t
  end.

(** One turn of the loop: the unread path and the buffer. *)
Definition clean_step (rooted : bool) (rest : bytes) (b : lazybuf) : bytes * lazybuf :=
  let add_elem e :=
    (if if rooted then negb (blen (out b) =? 1) else negb (blen (out b) =? 0)
     then out b ++ [sep] else out b) ++ e in
  match rest with
  | [] => (rest, b)
  | c :: t =>
      if is_sep c then (t, b) else
      if bool_decide (c = dot) && ends t then (t, b) else
      match t with
      | c2 :: t2 =>
          if bool_decide (c = dot) && bool_decide (c2 = dot) && ends t2 then
            (t2,
             if dotdot b <? blen (out b)
             then mkBuf (rev (back_up (rev (out b)) (blen (out b) - 1) (dotdot b))) (dotdot b)
             else if rooted then b
             else
               let o := (if 0 <? blen (out b) then out b ++ [sep] else out b) ++ [dot; dot] in
               mkBuf o (blen o))
          else let '(e, r) := split_elem rest in (r, mkBuf (add_elem e) (dotdot b))
      | [] => let '(e, r) := split_elem rest in (r, mkBuf (add_elem e) (dotdot b))
      end
  end.

Fixpoint clean_loop (fuel : nat) (rooted : bool) (rest : bytes) (b : lazybuf) : lazybuf :=
  match fuel, rest with
  | O, _ | _, [] => b
  | S fuel, _ => let '(rest, b) := clean_step rooted rest b in clean_loop fuel rooted rest b
  end.

(** What [Clean] has written when its loop ends. *)
Definition clean_out (path : bytes) : bytes :=
  match path with
  | [] => []
  | c :: t =>
      if is_sep c then out (clean_loop (length path) true t (mkBuf [sep] 1))
      else out (clean_loop (length path) false path (mkBuf [] 0))
  end.

Definition Clean (path : bytes) : bytes :=
  match clean_out path with [] => [dot] | o => o end.

Fixpoint strings_Join (elems : list bytes) : bytes :=
  match elems with
  | [] => []
  | [e] => e
  | e :: es => e ++ [sep] ++ strings_Join es
  end.

Fixpoint Join (elems : list bytes) : bytes :=
  match elems with
  | [] => []
  | [] :: es => Join es
  | _ :: _ => Clean (strings_Join elems)
  end.

(** ** The directory part of a joined path *)

(** What [Join] puts before a plain file name. *)
Definition dir_prefix (dir : bytes) : bytes :=
  match dir with
  | [] => []
  | c :: _ =>
      let d := clean_out dir in
      if if is_sep c then negb (blen d =? 1) else negb (blen d =? 0) then d ++ [sep] else d
  end.

(** A plain file name: one path element that is not a directory reference. *)
Definition plain (name : bytes) : Prop :=
  name <> [] /\ name <> [dot] /\ name <> [dot; dot] /\ Forall (fun c => is_sep c = false) name.

Example Clean_up : Clean (go_string "/a/./b//../c/") = go_string "/a/c".
Proof. reflexivity. Qed.
Example Clean_relative : Clean (go_string "a/../../b") = go_string "../b".
Proof. reflexivity. Qed.

(** ** Lemmas *)
Lemma ends_app t q : ends (t ++ sep :: q) = ends t.
Proof. by destruct t. Qed.

Lemma split_elem_app p q :
  split_elem (p ++ sep :: q) = ((split_elem p).1, (split_elem p).2 ++ sep :: q).
Proof.
  induction p as [|c p IH]; [done|]. simpl. destruct (is_sep c); [done|].
  rewrite IH. by destruct (split_elem p).
Qed.

(** A turn of the loop does not look past a separator. *)
Lemma clean_step_app rooted p q b :
  p <> [] ->
  clean_step rooted (p ++ sep :: q) b
  = ((clean_step rooted p b).1 ++ sep :: q, (clean_step rooted p b).2).
Proof.
  intros Hp. destruct p as [|c t]; [done|]. unfold clean_step. cbn [app].
  destruct (is_sep c) eqn:Ec; [done|]. rewrite ends_app.
  destruct (bool_decide (c = dot) && ends t); [done|].
  pose proof (split_elem_app (c :: t) q) as Hs. cbn [app] in Hs. rewrite Hs.
  destruct (split_elem (c :: t)) as [e r]. simpl.
  destruct t as [|c2 t2]; cbn [app].
  - assert (bool_decide (sep = dot) = false) as -> by (by apply bool_decide_eq_false_2).
    by rewrite andb_false_r.
  - rewrite ends_app. by destruct (_ && _ && _).
Qed.

Lemma split_elem_length p : (length (split_elem p).2 <= length p)%nat.
Proof.
  induction p as [|c p IH]; simpl; [done|]. destruct (is_sep c); [done|].
  destruct (split_elem p). simpl in *. lia.
Qed.

(** Every turn of the loop reads at least one byte. *)
Lemma clean_step_reads rooted p b : p <> [] -> (length (clean_step rooted p b).1 < length p)%nat.
Proof.
  intros Hp. destruct p as [|c t]; [done|]. unfold clean_step.
  destruct (is_sep c) eqn:Ec; [simpl; lia|]. destruct (_ && _); [simpl; lia|].
  assert (length (split_elem (c :: t)).2 <= length t)%nat as Hl.
  { simpl. rewrite Ec. pose proof (split_elem_length t). by destruct (split_elem t). }
  destruct (split_elem (c :: t)) as [e r]. simpl in Hl.
  destruct t as [|c2 t2]; simpl in *; [lia|]. destruct (_ && _ && _); simpl; lia.
Qed.

Lemma clean_loop_fuel f1 f2 rooted p b :
  (length p <= f1)%nat -> (length p <= f2)%nat -> clean_loop f1 rooted p b = clean_loop f2 rooted p b.
Proof.
  revert f2 p b. induction f1 as [|f1 IH]; intros [|f2] [|c t] b H1 H2; simpl in H1, H2; try lia; try done.
  cbn [clean_loop]. pose proof (clean_step_reads rooted (c :: t) b ltac:(done)) as Hr. cbn [length] in Hr.
  destruct (clean_step rooted (c :: t) b) as [r b']. cbn [fst] in Hr. apply IH; lia.
Qed.

(** The loop over a joined path is the loop over its parts. *)
Lemma clean_loop_app rooted p q b :
  clean_loop (length (p ++ sep :: q)) rooted (p ++ sep :: q) b
  = clean_loop (length q) rooted q (clean_loop (length p) rooted p b).
Proof.
  remember (length p) as n eqn:Hn. revert p b Hn.
  induction (lt_wf n) as [n _ IH]; intros p b ->. destruct p as [|c t].
  - simpl. by apply clean_loop_fuel.
  - pose proof (clean_step_reads rooted (c :: t) b ltac:(done)) as Hr.
    pose proof (clean_step_app rooted (c :: t) q b ltac:(done)) as Hs.
    cbn [app length clean_loop] in *. rewrite Hs.
    destruct (clean_step rooted (c :: t) b) as [r b']. cbn [fst snd] in *.
    rewrite (clean_loop_fuel _ (length (r ++ sep :: q))) by (rewrite ?length_app in *; simpl in *; lia).
    rewrite (IH (length r)) by lia. f_equal. apply clean_loop_fuel; lia.
Qed.

Lemma split_elem_plain p : Forall (fun c => is_sep c = false) p -> split_elem p = (p, []).
Proof. induction 1 as [|c p Hc _ IH]; [done|]. simpl. by rewrite Hc, IH. Qed.

Lemma ends_plain p : Forall (fun c => is_sep c = false) p -> ends p = true -> p = [].
Proof. intros H E. destruct p as [|c p]; [done|]. inversion H; subst. simpl in E. congruence. Qed.

(** A plain name is copied. *)
Lemma clean_loop_plain rooted name b :
  plain name ->
  out (clean_loop (length name) rooted name b)
  = (if if rooted then negb (blen (out b) =? 1) else negb (blen (out b) =? 0)
     then out b ++ [sep] else out b) ++ name.
Proof.
  intros (H1 & H2 & H3 & Hf). destruct name as [|c t]; [done|]. cbn [length clean_loop].
  assert (is_sep c = false) as Hc by (by inversion Hf).
  assert (Forall (fun c => is_sep c = false) t) as Ht by (by inversion Hf).
  assert (bool_decide (c = dot) && ends t = false) as E1.
  { apply andb_false_iff. destruct (bool_decide_reflect (c = dot)) as [->|]; [right|by left].
    destruct (ends t) eqn:E; [|done]. by rewrite (ends_plain t Ht E) in H2. }
  unfold clean_step. rewrite Hc, E1, (split_elem_plain _ Hf).
  destruct t as [|c2 t2]; [simpl; by destruct (if rooted then _ else _)|].
  assert (bool_decide (c = dot) && bool_decide (c2 = dot) && ends t2 = false) as ->.
  { destruct (bool_decide_reflect (c = dot)) as [->|]; [|done].
    destruct (bool_decide_reflect (c2 = dot)) as [->|]; [|done]. simpl.
    destruct (ends t2) eqn:E; [|done]. rewrite (ends_plain t2) in H3; [done|by inversion Ht|done]. }
  simpl. by destruct (if rooted then _ else _).
Qed.

(** Joining a plain name to a directory appends it to the cleaned directory. *)
Lemma Join_plain dir name : plain name -> Join [dir; name] = dir_prefix dir ++ name.
Proof.
  intros Hp. pose proof Hp as (Hne & H2 & H3 & Hf). destruct dir as [|c t].
  - destruct name as [|n ns]; [done|]. cbn [Join strings_Join]. unfold Clean, clean_out.
    assert (is_sep n = false) as -> by (by inversion Hf).
    by rewrite (clean_loop_plain false (n :: ns)).
  - cbn [Join strings_Join]. unfold Clean, dir_prefix, clean_out.
    change ((c :: t) ++ [sep] ++ name) with (c :: (t ++ sep :: name)).
    destruct (is_sep c) eqn:Ec; rewrite ?Ec.
    + cbn [length].
      rewrite (clean_loop_fuel _ (length (t ++ sep :: name))) by lia.
      rewrite clean_loop_app, clean_loop_plain by done.
      rewrite (clean_loop_fuel (S (length t)) (length t)) by lia.
      set (o := out _). destruct (_ ++ name) as [|x l] eqn:E; [|done].
      by apply app_eq_nil in E as [_ ->].
    + change (c :: t ++ sep :: name) with ((c :: t) ++ sep :: name).
      rewrite clean_loop_app, clean_loop_plain by done.
      set (o := out _). destruct (_ ++ name) as [|x l] eqn:E; [|done].
      by apply app_eq_nil in E as [_ ->].
Qed.
