(* ===== verification/Cache.v ===== *)
(** * The cache directory ([upki/check.go])

    [DirOpener] and [NewChecker], which serve a checker from a directory of the local
    file system.  The file system is a parameter: what an open returns may depend on
    everything opened before. *)
From S2P Require Import Prelude Codec Cryptobyte GoIO UpkiIndex Clubcard CrliteParser Sha256 Crlite Sct Checker Path.

(** ** The file system *)

(** An [*os.File]: its random-access reads, its sequential reads, its [Close]. *)
Record OsFile := mkOsFile {
  file_reader : ReaderAt;
  file_reads : list (bytes * option error);
  file_close : option error
}.

Class FileSystem := {
  os_Open : World -> bytes -> OsFile + error;
  os_ReadFile : bytes -> bytes + error
}.

(** ** [DirOpener] *)
Definition IndexFilename : bytes := go_string "index.bin".
Definition RevocationSubdir : bytes := go_string "revocation".

Definition DirOpener_Open {F : FileSystem} (Dir : bytes) (w : World) (filename : bytes)
    : ReadCloser + error :=
  match os_Open w (Join [Dir; filename]) with
  | inl f => inl (mkReadCloser (file_reads f))
  | inr err => inr err
  end.

Definition DirOpener_OpenIndex {F : FileSystem} (Dir : bytes) (w : World) : IndexReader + error :=
  match os_Open w (Join [Dir; IndexFilename]) with
  | inl f => inl (mkIndexReader (file_reader f) (file_close f))
  | inr err => inr err
  end.

(** The two interfaces [DirOpener] implements. *)
Definition DirOpener {F : FileSystem} (Dir : bytes) : Openers := {|
  OpenIndex := DirOpener_OpenIndex Dir;
  Open := DirOpener_Open Dir
|}.

Definition NewChecker {F : FileSystem} {AP : AllocPolicy} {SS : SpanSort} (cacheDir : bytes)
    (w : World) : World * result Checker :=
  NewCheckerWith (Op := DirOpener (Join [cacheDir; RevocationSubdir])) w.

(** The package function [Check] on a cache directory. *)
Definition Check_dir {F : FileSystem} {C : Cryptobyte} {M : MapRange} {AP : AllocPolicy}
    {SS : SpanSort} (cacheDir : bytes) (chain : list Certificate) (w : World)
    : World * result (Status * option error) :=
  Check (Op := DirOpener (Join [cacheDir; RevocationSubdir])) chain w.

(** ** Which files a checker opens *)

(** From [w] to [w'], only filters whose names satisfy [P] were opened. *)
Definition opened_only (P : bytes -> Prop) (w w' : World) : Prop :=
  exists es, w' = w ++ es
    /\ Forall (fun e => match e with FilterOpened n _ => P n | _ => True end) es.

#[export] Instance opened_only_preorder P : PreOrder (opened_only P).
Proof.
  split.
  - intros w. exists []. by rewrite app_nil_r.
  - intros w1 w2 w3 (e1 & -> & H1) (e2 & -> & H2). exists (e1 ++ e2).
    by rewrite <- app_assoc, Forall_app.
Qed.

Lemma opened_only_app P w es :
  Forall (fun e => match e with FilterOpened n _ => P n | _ => True end) es -> opened_only P w (w ++ es).
Proof. intros H. by exists es. Qed.

Lemma opened_only_prefix P w w' : opened_only P w w' -> w `prefix_of` w'.
Proof. intros (es & -> & _). by eexists. Qed.

Ltac events_only := apply opened_only_app; repeat (apply List.Forall_cons; [try done|]); apply List.Forall_nil.

Section Names.
Context {C : Cryptobyte} {L : CryptobyteLaws C} {M : MapRange} {AP : AllocPolicy} {SS : SpanSort}
  {Op : Openers}.
Notation only := (opened_only valid_filename).

Lemma queryFilter_only n key ts w : valid_filename n -> only w (queryFilter n key ts w).1.
Proof.
  intros Hn. rewrite queryFilter_world. unfold readFilter.
  destruct (Open w n); simpl; events_only.
Qed.

Lemma asked_only key ts w qs w' :
  asked key ts w qs w' -> (forall n, n ∈ qs.*1 -> valid_filename n) -> only w w'.
Proof.
  induction 1 as [|qs w1 w2 n a _ IH Hq]; intros Hv; [done|]. rewrite fmap_app in Hv.
  etrans; [apply IH; intros; apply Hv; set_solver|].
  change w2 with (w2, Ok a).1. rewrite <- Hq. apply queryFilter_only, Hv. simpl. set_solver.
Qed.

(** An index only selects valid file names. *)
Lemma selected_valid idx scts n :
  UpkiIndex.wf_index idx -> wf_scts scts -> selected idx scts n -> valid_filename n.
Proof.
  intros Hwf Hs (s & names & Hin & Hl & Hn). unfold lookup_sct in Hl. apply wrap_err_Ok in Hl.
  pose proof (proj1 (Forall_forall _ _) Hs s Hin) as Hid.
  pose proof (wfi_filenames _ Hwf) as Hf. rewrite Forall_forall in Hf.
  apply Hf. eapply Lookup_names; [exact Hwf|exact Hid|exact Hl|exact Hn].
Qed.

Lemma pass_only key ts idx scts w w' status err :
  UpkiIndex.wf_index idx -> wf_scts scts ->
  pass_result key ts idx scts w w' status err -> only w w'.
Proof.
  intros Hwf Hs Hp. pose proof (fun n => selected_valid idx scts n Hwf Hs) as Hv.
  destruct Hp as [qs ? ? Ha _ Hsel|qs w1 n e Ha _ Hsel _ Hn _ Hq|qs s e Ha _ Hsel];
    assert (only w _) as Hon by (apply (asked_only _ _ _ _ _ Ha); intros m Hm; by apply Hv, Hsel);
    try exact Hon.
  etrans; [exact Hon|]. change w' with (w', @Err Crlite.Status e).1. rewrite <- Hq.
  by apply queryFilter_only, Hv.
Qed.

Lemma openIndex_only w : only w (openIndex w).1.
Proof.
  unfold openIndex. destruct (OpenIndex w) as [r|e]; [|events_only].
  destruct (NewIndexFromReader _ _); simpl; rewrite <- ?app_assoc; events_only.
Qed.

Lemma close_index_only r w : only w (close_index r w).1.
Proof.
  unfold close_index. destruct (Index_Close _) as [[err ?] hs]. simpl. apply opened_only_app.
  apply Forall_forall. intros e (h & -> & _)%list_elem_of_fmap. done.
Qed.

Lemma reopenIndex_only c stale w : only w (reopenIndex c stale w).1.1.
Proof.
  unfold reopenIndex. destruct (negb _); [done|]. pose proof (openIndex_only w) as Ho.
  destruct (openIndex w) as [w1 [r|e| |]]; try done. destruct (c_idx c) as [old|]; [|done].
  pose proof (close_index_only old w1) as Hc. destruct (close_index old w1). by etrans.
Qed.

Lemma check_loop_only fuel reopens c key scts ts w :
  progressing -> wf_scts scts -> wf_checker c -> only w (check_loop fuel reopens c key scts ts w).1.1.
Proof.
  intros Hp Hs. revert reopens c w. induction fuel as [|fuel IH]; intros reopens c w Hwf; [done|].
  destruct (c_idx c) as [r|] eqn:Hc; [|by rewrite check_loop_closed].
  pose proof (Hwf r Hc) as Hr.
  destruct (checkOnce_spec c key scts ts w r Hc (wfr_index _ Hr) Hs) as (w1 & status & err & E & Hp1).
  rewrite (check_loop_step _ _ _ _ _ _ _ _ _ _ _ E). apply pass_only in Hp1; [|apply Hr|done].
  destruct (surfaces err reopens); [done|].
  pose proof (reopenIndex_spec c r w1 Hp Hc Hr) as H2. pose proof (reopenIndex_only c (Some r) w1) as H3.
  destruct (reopenIndex c (Some r) w1) as [[w2 c2] [u|e| |]]; try done; (etrans; [exact Hp1|]);
    [|exact H3]. etrans; [exact H3|]. apply IH, H2.
Qed.

Lemma Checker_Check_only c chain w :
  progressing -> wf_checker c -> only w (Checker_Check c chain w).1.1.
Proof.
  intros Hp Hwf. unfold Checker_Check. pose proof (check_inputs_spec chain) as Hi.
  destruct (check_inputs chain) as [ret|[[key scts]|?| |]]; try done.
  destruct Hi as [Hs _]. by apply check_loop_only.
Qed.

Lemma Close_only c w : only w (Close c w).1.1.
Proof.
  unfold Close. destruct (c_idx c) as [r|]; [|done].
  pose proof (close_index_only r w) as H. by destruct (close_index r w).
Qed.

Lemma NewCheckerWith_only w : only w (NewCheckerWith w).1.
Proof.
  pose proof (openIndex_only w) as H. unfold NewCheckerWith. by destruct (openIndex w) as [w1 [r|e| |]].
Qed.

Lemma Check_only chain w : progressing -> only w (Check chain w).1.
Proof.
  intros Hp. unfold Check. pose proof (NewCheckerWith_spec w Hp) as Hn. pose proof (NewCheckerWith_only w) as H1.
  destruct (NewCheckerWith w) as [w1 [c|e| |]]; try done. destruct Hn as [Hwf _].
  pose proof (Checker_Check_only c chain w1 Hp Hwf) as H2.
  destruct (Checker_Check c chain w1) as [[w2 c2] r]. pose proof (Close_only c2 w2) as H3.
  destruct (Close c2 w2) as [[w3 c3] e3]. simpl in *. etrans; [exact H1|]. by etrans.
Qed.

End Names.

Lemma valid_filename_plain name : valid_filename name -> plain name.
Proof.
  intros (Hl & H1 & H2 & Hf). split; [intros ->; unfold blen in Hl; simpl in Hl; lia|].
  split; [exact H1|]. split; [exact H2|]. eapply Forall_impl; [exact Hf|].
  intros c Hc. apply bool_decide_eq_false. intros ->. by vm_compute in Hc.
Qed.

(** ** Properties *)

(** C18. A check on a cache directory cannot be led out of it: whatever index.bin
    contains, every filter file it opens has a plain name (no separator, not a
    directory reference) and the path opened is that name appended to the cleaned
    revocation directory, so distinct names are distinct files of that directory. *)
Theorem Check_stays_in_directory {F : FileSystem} {C : Cryptobyte} {L : CryptobyteLaws C}
    {M : MapRange} {AP : AllocPolicy} {SS : SpanSort} (cacheDir : bytes) (chain : list Certificate)
    (w : World) :
  progressing (Op := DirOpener (Join [cacheDir; RevocationSubdir])) ->
  exists es, (Check_dir cacheDir chain w).1 = w ++ es
    /\ forall name ok, FilterOpened name ok ∈ es ->
         plain name
         /\ Join [Join [cacheDir; RevocationSubdir]; name]
            = dir_prefix (Join [cacheDir; RevocationSubdir]) ++ name.
Proof.
  intros Hp. destruct (Check_only (Op := DirOpener _) chain w Hp) as (es & E & Hf).
  exists es. split; [exact E|]. intros name ok Hin. rewrite Forall_forall in Hf.
  apply Hf, valid_filename_plain in Hin. split; [done|]. by apply Join_plain.
Qed.

(** ** Witnesses *)

(** A file system holding the sample cache under /c/revocation. *)
Definition sample_fs : FileSystem := {|
  os_Open _ path :=
    let file data := inl (mkOsFile (bytes_reader data) [(data, None)] None) in
    if bool_decide (path = go_string "/c/revocation/index.bin") then file sample_index else
    if bool_decide (path = go_string "/c/revocation/a.filter")
    then file (sample_filter_file (replicate 32 Init.Byte.x0b) false) else
    if bool_decide (path = go_string "/c/revocation/b.filter")
    then file (sample_filter_file sample_issuer true)
    else inr (Errorf "open %s: %w" [ABytes path; AErr ErrNotExist]);
  os_ReadFile _ := inr ErrNotExist
|}.

Lemma sample_fs_progressing dir : progressing (Op := DirOpener (F := sample_fs) dir).
Proof.
  intros w r. simpl. unfold DirOpener_OpenIndex. simpl.
  repeat case_match; intros [= <-] || intros [=]; simplify_eq; apply bytes_reader_progresses.
Defined.

Lemma Check_stays_in_directory_witness :
  (Check_dir (F := sample_fs) (go_string "/c/./x/..") sample_chain []).2 = Ok (StatusNotRevoked, None)
  /\ exists es, (Check_dir (F := sample_fs) (go_string "/c/./x/..") sample_chain []).1 = [] ++ es
     /\ forall name ok, FilterOpened name ok ∈ es -> plain name.
Proof.
  split; [vm_compute; reflexivity|].
  destruct (Check_stays_in_directory (F := sample_fs) (go_string "/c/./x/..") sample_chain []
    (sample_fs_progressing _)) as (es & E & H).
  exists es. split; [exact E|]. intros name ok Hin. exact (proj1 (H name ok Hin)).
Defined.
