(* ===== verification/JsonLex.v ===== *)
(** * The tokens of JSON ([encoding/json], read by [upki/manifest.go])

    The lexical level of the Standard Library's decoder: white space, numbers by the
    scanner's automaton, strings with their escapes and what they are unquoted to
    (surrogate pairs, and U+FFFD for what is not UTF-8), and the folding under which
    member names match field names.  Beside each scanner stands the grammar of
    RFC 8259, and a lemma that the scanner takes exactly that.

    An error of the package is represented by its type: nothing in the program looks
    at its text. *)
From S2P Require Import Prelude.
From Stdlib Require Import Strings.Byte.

Definition SyntaxError : error := Sentinel "json.SyntaxError".
Definition UnmarshalTypeError : error := Sentinel "json.UnmarshalTypeError".

(** ** Characters *)
Notation chr c := (c%byte) (only parsing).
Definition dquote : byte := Init.Byte.x22.
Definition backslash : byte := Init.Byte.x5c.

Definition is_space (c : byte) : bool :=
  bool_decide (c ∈ [Init.Byte.x20; Init.Byte.x09; Init.Byte.x0d; Init.Byte.x0a]).

Definition in_range (lo hi : Z) (c : byte) : bool := (lo <=? byte_val c) && (byte_val c <=? hi).

Definition is_digit : byte -> bool := in_range 48 57.

(** The value of a hexadecimal digit. *)
Definition hex_digit (c : byte) : option Z :=
  if is_digit c then Some (byte_val c - 48)
  else if in_range 97 102 c then Some (byte_val c - 87)
  else if in_range 65 70 c then Some (byte_val c - 55)
  else None.

(** [getu4] on the four characters after a [\u]. *)
Definition hex4 (a b c d : byte) : option Z :=
  a ← hex_digit a; b ← hex_digit b; c ← hex_digit c; d ← hex_digit d;
  Some (((a * 16 + b) * 16 + c) * 16 + d).

(** ** White space *)
Fixpoint skip_space (s : bytes) : bytes :=
  match s with
  | [] => []
  | c :: s' => if is_space c then skip_space s' else s
  end.

Definition space (w : bytes) : Prop := Forall (fun c => is_space c = true) w.

(** ** Numbers

    The states of the scanner within a number, after: nothing, the minus sign, a
    leading zero, another integer digit, the point, a fraction digit, the exponent
    letter, its sign, an exponent digit. *)
Inductive num_state := NStart | NMinus | NZero | NInt | NPoint | NFrac | NExp | NExpSign | NExpDigit.

Definition num_step (st : num_state) (c : byte) : option num_state :=
  let exp := if decide (c = chr "e" \/ c = chr "E") then Some NExp else None in
  let point := if decide (c = chr ".") then Some NPoint else exp in
  let int := if decide (c = chr "0") then Some NZero else if is_digit c then Some NInt else None in
  let digit st' next := if is_digit c then Some st' else next in
  match st with
  | NStart => if decide (c = chr "-") then Some NMinus else int
  | NMinus => int
  | NZero => point
  | NInt => digit NInt point
  | NPoint => digit NFrac None
  | NFrac => digit NFrac exp
  | NExp => if decide (c = chr "+" \/ c = chr "-") then Some NExpSign else digit NExpDigit None
  | NExpSign => digit NExpDigit None
  | NExpDigit => digit NExpDigit None
  end.

Definition num_final (st : num_state) : bool :=
  match st with NZero | NInt | NFrac | NExpDigit => true | _ => false end.

Fixpoint scan_number (st : num_state) (s : bytes) : result (bytes * bytes) :=
  let stop := if num_final st then Ok ([], s) else Err SyntaxError in
  match s with
  | [] => stop
  | c :: s' =>
      match num_step st c with
      | Some st' => '(n, rest) ← scan_number st' s'; Ok (c :: n, rest)
      | None => stop
      end
  end.

(** RFC 8259, section 6. *)
Definition digits (ds : bytes) : Prop := Forall (fun c => is_digit c = true) ds.

Inductive int_part : bytes -> Prop :=
  | int_zero : int_part [chr "0"]
  | int_pos d ds : is_digit d = true -> d <> chr "0" -> digits ds -> int_part (d :: ds).

Inductive frac_part : bytes -> Prop :=
  | frac_none : frac_part []
  | frac_some d ds : is_digit d = true -> digits ds -> frac_part (chr "." :: d :: ds).

Inductive exp_part : bytes -> Prop :=
  | exp_none : exp_part []
  | exp_some e sg d ds : e = chr "e" \/ e = chr "E" -> sg ∈ [[]; [chr "+"]; [chr "-"]] ->
      is_digit d = true -> digits ds -> exp_part (e :: sg ++ d :: ds).

Inductive number_text : bytes -> Prop :=
  | number_parts sg i f x : sg ∈ [[]; [chr "-"]] -> int_part i -> frac_part f -> exp_part x ->
      number_text (sg ++ i ++ f ++ x).

(** ** Strings *)

(** The one-letter escapes. *)
Definition simple_escape (c : byte) : option byte :=
  if decide (c = chr "b") then Some Init.Byte.x08
  else if decide (c = chr "f") then Some Init.Byte.x0c
  else if decide (c = chr "n") then Some Init.Byte.x0a
  else if decide (c = chr "r") then Some Init.Byte.x0d
  else if decide (c = chr "t") then Some Init.Byte.x09
  else if decide (c = backslash \/ c = chr "/" \/ c = dquote) then Some c
  else None.

(** The text up to the closing quote, and what follows the quote. *)
Fixpoint scan_string (s : bytes) : result (bytes * bytes) :=
  match s with
  | [] => Err SyntaxError
  | c :: s' =>
      if decide (c = dquote) then Ok ([], s')
      else if decide (c = backslash) then
        match s' with
        | [] => Err SyntaxError
        | e :: s1 =>
            if simple_escape e is Some _ then '(raw, rest) ← scan_string s1; Ok (c :: e :: raw, rest)
            else if decide (e = chr "u") then
              match s1 with
              | h1 :: h2 :: h3 :: h4 :: s5 =>
                  if hex4 h1 h2 h3 h4 is Some _
                  then '(raw, rest) ← scan_string s5; Ok (c :: e :: h1 :: h2 :: h3 :: h4 :: raw, rest)
                  else Err SyntaxError
              | _ => Err SyntaxError
              end
            else Err SyntaxError
        end
      else if byte_val c <? 32 then Err SyntaxError
      else '(raw, rest) ← scan_string s'; Ok (c :: raw, rest)
  end.

(** RFC 8259, section 7, over bytes. *)
Inductive chars_text : bytes -> Prop :=
  | chars_nil : chars_text []
  | chars_plain c s : c <> dquote -> c <> backslash -> 32 <= byte_val c -> chars_text s ->
      chars_text (c :: s)
  | chars_escape e b s : simple_escape e = Some b -> chars_text s -> chars_text (backslash :: e :: s)
  | chars_unicode h1 h2 h3 h4 r s : hex4 h1 h2 h3 h4 = Some r -> chars_text s ->
      chars_text (backslash :: chr "u" :: h1 :: h2 :: h3 :: h4 :: s).

(** ** Unquoting *)

(** [utf8.EncodeRune], of a rune that is not a surrogate *)
Definition encode_rune (r : Z) : bytes :=
  let cont k := byte_of_Z (128 + Z.land (Z.shiftr r k) 63) in
  if r <? 128 then [byte_of_Z r]
  else if r <? 2048 then [byte_of_Z (192 + Z.shiftr r 6); cont 0]
  else if r <? 65536 then [byte_of_Z (224 + Z.shiftr r 12); cont 6; cont 0]
  else [byte_of_Z (240 + Z.shiftr r 18); cont 12; cont 6; cont 0].

Definition replacement : bytes := encode_rune 65533.

(** [utf16.IsSurrogate], [utf16.DecodeRune] *)
Definition is_surrogate (r : Z) : bool := (55296 <=? r) && (r <? 57344).
Definition utf16_pair (r1 r2 : Z) : option Z :=
  if ((55296 <=? r1) && (r1 <? 56320)) && ((56320 <=? r2) && (r2 <? 57344))
  then Some ((r1 - 55296) * 1024 + (r2 - 56320) + 65536) else None.

(** The well-formed UTF-8 sequences of two, three and four bytes. *)
Definition cont : byte -> bool := in_range 128 191.
Definition utf8_2 (c c1 : byte) : bool := in_range 194 223 c && cont c1.
Definition utf8_3 (c c1 c2 : byte) : bool :=
  in_range 224 239 c && cont c1 && cont c2
  && negb ((byte_val c =? 224) && (byte_val c1 <? 160))
  && negb ((byte_val c =? 237) && (159 <? byte_val c1)).
Definition utf8_4 (c c1 c2 c3 : byte) : bool :=
  in_range 240 244 c && cont c1 && cont c2 && cont c3
  && negb ((byte_val c =? 240) && (byte_val c1 <? 144))
  && negb ((byte_val c =? 244) && (143 <? byte_val c1)).

(** [unquoteBytes] on the text between the quotes. *)
Fixpoint unquote (s : bytes) : bytes :=
  match s with
  | [] => []
  | c :: s' =>
      if decide (c = backslash) then
        match s' with
        | [] => []
        | e :: s1 =>
            match simple_escape e with
            | Some b => b :: unquote s1
            | None =>
                match s1 with
                | h1 :: h2 :: h3 :: h4 :: s5 =>
                    let r := default 0 (hex4 h1 h2 h3 h4) in
                    if is_surrogate r then
                      match s5 with
                      | b :: u :: l1 :: l2 :: l3 :: l4 :: s11 =>
                          match (if bool_decide (b = backslash /\ u = chr "u")
                                 then hex4 l1 l2 l3 l4 ≫= utf16_pair r else None) with
                          | Some dec => encode_rune dec ++ unquote s11
                          | None => replacement ++ unquote s5
                          end
                      | _ => replacement ++ unquote s5
                      end
                    else encode_rune r ++ unquote s5
                | _ => []
                end
            end
        end
      else if byte_val c <? 128 then c :: unquote s'
      else
        match s' with
        | c1 :: s1 =>
            if utf8_2 c c1 then c :: c1 :: unquote s1
            else
              match s1 with
              | c2 :: s2 =>
                  if utf8_3 c c1 c2 then c :: c1 :: c2 :: unquote s2
                  else
                    match s2 with
                    | c3 :: s3 =>
                        if utf8_4 c c1 c2 c3 then c :: c1 :: c2 :: c3 :: unquote s3
                        else replacement ++ unquote s'
                    | [] => replacement ++ unquote s'
                    end
              | [] => replacement ++ unquote s'
              end
        | [] => replacement ++ unquote s'
        end
  end.

(** ** Member names

    [foldName], as far as a folded name of ASCII letters can tell: the letters in upper
    case, U+017F as S and U+212A as K; other characters beyond ASCII fold to characters
    beyond ASCII. *)
Fixpoint foldName (s : bytes) : bytes :=
  match s with
  | [] => []
  | c :: s1 =>
      let keep := (if in_range 97 122 c then byte_of_Z (byte_val c - 32) else c) :: foldName s1 in
      match s1 with
      | c1 :: s2 =>
          if bool_decide ([c; c1] = [Init.Byte.xc5; Init.Byte.xbf]) then chr "S" :: foldName s2
          else
            match s2 with
            | c2 :: s3 =>
                if bool_decide ([c; c1; c2] = [Init.Byte.xe2; Init.Byte.x84; Init.Byte.xaa])
                then chr "K" :: foldName s3 else keep
            | [] => keep
            end
      | [] => keep
      end
  end.

(** ** The scanners take what the grammar says *)

Lemma skip_space_app w s :
  space w -> skip_space (w ++ s) = skip_space s.
Proof. induction 1 as [|c w Hc _ IH]; [done|]. simpl. by rewrite Hc. Qed.

Lemma skip_space_spec s : exists w, space w /\ s = w ++ skip_space s.
Proof.
  induction s as [|c s (w & Hw & E)]; [by exists []; split; [constructor|]|]. simpl.
  destruct (is_space c) eqn:Hc; [|by exists []; split; [constructor|]].
  exists (c :: w). split; [by constructor|]. simpl. by f_equal.
Qed.

Lemma skip_space_length s : (length (skip_space s) <= length s)%nat.
Proof. destruct (skip_space_spec s) as (w & _ & E). rewrite E at 2. rewrite length_app. lia. Qed.

(** What the automaton accepts from each state. *)
Definition num_lang (st : num_state) (n : bytes) : Prop :=
  match st with
  | NStart => number_text n
  | NMinus => exists i f x, n = i ++ f ++ x /\ int_part i /\ frac_part f /\ exp_part x
  | NZero => exists f x, n = f ++ x /\ frac_part f /\ exp_part x
  | NInt => exists ds f x, n = ds ++ f ++ x /\ digits ds /\ frac_part f /\ exp_part x
  | NPoint => exists d ds x, n = d :: ds ++ x /\ is_digit d = true /\ digits ds /\ exp_part x
  | NFrac => exists ds x, n = ds ++ x /\ digits ds /\ exp_part x
  | NExp => exists sg d ds, n = sg ++ d :: ds /\ sg ∈ [[]; [chr "+"]; [chr "-"]]
      /\ is_digit d = true /\ digits ds
  | NExpSign => exists d ds, n = d :: ds /\ is_digit d = true /\ digits ds
  | NExpDigit => digits n
  end.

Lemma exp_part_cons c n : exp_part (c :: n) <-> (c = chr "e" \/ c = chr "E") /\ num_lang NExp n.
Proof.
  split.
  - inversion 1; subst. split; [done|]. by repeat eexists.
  - intros [Hc (sg & d & ds & -> & ? & ? & ?)]. by apply exp_some.
Qed.

Lemma num_lang_zero_cons c n :
  num_lang NZero (c :: n) <-> (c = chr "." /\ num_lang NPoint n) \/ exp_part (c :: n).
Proof.
  simpl. split.
  - intros (f & x & E & Hf & Hx). destruct Hf; simpl in E; simplify_eq; [by right|].
    left. split; [done|]. by repeat eexists.
  - intros [[-> (d & ds & x & -> & ? & ? & ?)]|Hx].
    + exists (chr "." :: d :: ds), x. split; [done|]. split; [by constructor|done].
    + exists [], (c :: n). split; [done|]. split; [constructor|done].
Qed.

Definition next_lang (o : option num_state) (n : bytes) : Prop :=
  match o with Some st => num_lang st n | None => False end.

Lemma digits_cons c n : digits (c :: n) <-> is_digit c = true /\ digits n.
Proof. apply List.Forall_cons_iff. Qed.

(** A digit is not one of the other characters of a number. *)
Lemma is_digit_not c d : is_digit c = true -> is_digit d = false -> c <> d.
Proof. intros H1 H2 ->. congruence. Qed.

Lemma exp_step c n :
  exp_part (c :: n) <-> next_lang (if decide (c = chr "e" \/ c = chr "E") then Some NExp else None) n.
Proof. rewrite exp_part_cons. destruct (decide _); simpl; tauto. Qed.

Lemma point_step c n : num_lang NZero (c :: n) <-> next_lang (num_step NZero c) n.
Proof.
  rewrite num_lang_zero_cons, exp_step. simpl num_step. destruct (decide (c = chr ".")) as [->|Hc].
  - split; [|by left]. intros [[_ H]|H]; [done|]. by destruct (decide _) as [[?|?]|?] in H.
  - tauto.
Qed.

Lemma int_step c n : num_lang NMinus (c :: n) <-> next_lang (num_step NMinus c) n.
Proof.
  simpl num_step. split.
  - intros (i & f & x & E & Hi & Hf & Hx). destruct Hi as [|d ds Hd H0 Hds]; simpl in E; injection E as -> ->.
    + by repeat eexists.
    + rewrite decide_False by done. rewrite Hd. by repeat eexists.
  - destruct (decide (c = chr "0")) as [->|H0]; [|destruct (is_digit c) eqn:Hd; [|done]].
    + intros (f & x & -> & ? & ?). exists [chr "0"], f, x. split; [done|]. split; [constructor|done].
    + intros (ds & f & x & -> & ? & ? & ?). exists (c :: ds), f, x. split; [done|]. split; [by constructor|done].
Qed.

Lemma int_digit_step c n : num_lang NInt (c :: n) <-> next_lang (num_step NInt c) n.
Proof.
  cbn [num_step]. destruct (is_digit c) eqn:Hd.
  - split.
    + intros (ds & f & x & E & Hds & Hf & Hx). destruct ds as [|d ds]; simpl in E.
      * assert (num_lang NZero (c :: n)) as H%point_step by (by exists f, x). simpl in H.
        rewrite !decide_False in H; [done|intros [->| ->]; by vm_compute in Hd|intros ->; by vm_compute in Hd].
      * injection E as -> ->. apply digits_cons in Hds as [_ Hds]. by exists ds, f, x.
    + intros (ds & f & x & -> & ? & ? & ?). exists (c :: ds), f, x. by rewrite digits_cons.
  - change (num_lang NInt (c :: n) <-> next_lang (num_step NZero c) n). rewrite <- point_step. split.
    + intros (ds & f & x & E & Hds & Hf & Hx). destruct ds as [|d ds]; [by exists f, x|].
      injection E as -> ->. apply digits_cons in Hds. destruct Hds. congruence.
    + intros (f & x & E & ? & ?). exists [], f, x. by split; [|split; [constructor|]].
Qed.

Lemma frac_step c n : num_lang NFrac (c :: n) <-> next_lang (num_step NFrac c) n.
Proof.
  cbn [num_step]. destruct (is_digit c) eqn:Hd.
  - split.
    + intros (ds & x & E & Hds & Hx). destruct ds as [|d ds]; simpl in E.
      * rewrite <- E in Hx. apply exp_part_cons in Hx as [[->| ->] _]; by vm_compute in Hd.
      * injection E as -> ->. apply digits_cons in Hds as [_ Hds]. by exists ds, x.
    + intros (ds & x & -> & ? & ?). exists (c :: ds), x. by rewrite digits_cons.
  - rewrite <- exp_step. split.
    + intros (ds & x & E & Hds & Hx). destruct ds as [|d ds]; [by rewrite E|].
      injection E as -> ->. apply digits_cons in Hds. destruct Hds. congruence.
    + intros Hx. exists [], (c :: n). by split; [|split; [constructor|]].
Qed.

Lemma exp_sign_step c n : num_lang NExp (c :: n) <-> next_lang (num_step NExp c) n.
Proof.
  cbn [num_step]. destruct (decide (c = chr "+" \/ c = chr "-")) as [Hs|Hs]; simpl; split.
  - intros (sg & d & ds & E & Hsg & Hd & Hds).
    destruct sg as [|s [|s' sg]]; simpl in E; injection E as -> ->; [|by repeat eexists|set_solver].
    destruct Hs as [->| ->]; by vm_compute in Hd.
  - intros (d & ds & -> & ? & ?). exists [c], d, ds. split; [done|]. split; [set_solver|done].
  - intros (sg & d & ds & E & Hsg & Hd & Hds).
    destruct sg as [|s [|s' sg]]; simpl in E; injection E as -> ->; [by rewrite Hd|set_solver|set_solver].
  - destruct (is_digit c) eqn:Hd; [|done]. intros Hn. exists [], c, n. split; [done|]. split; [set_solver|done].
Qed.

Lemma start_step c n : num_lang NStart (c :: n) <-> next_lang (num_step NStart c) n.
Proof.
  cbn [num_step]. destruct (decide (c = chr "-")) as [->|Hs]; simpl; split.
  - inversion 1 as [sg i f x Hsg Hi Hf Hx E]. destruct sg as [|s [|s' sg]]; [|..|set_solver].
    + assert (num_lang NMinus (chr "-" :: n)) as H2%int_step by (by exists i, f, x). by vm_compute in H2.
    + injection E as -> <-. by exists i, f, x.
  - intros (i & f & x & -> & ? & ? & ?). apply (number_parts [chr "-"]); [set_solver|done..].
  - inversion 1 as [sg i f x Hsg Hi Hf Hx E]. destruct sg as [|s [|s' sg]]; [|set_solver..].
    apply int_step. simpl in E. by exists i, f, x.
  - intros H. apply int_step in H as (i & f & x & -> & ? & ? & ?). apply (number_parts []); [set_solver|done..].
Qed.

Lemma num_lang_cons st c n : num_lang st (c :: n) <-> next_lang (num_step st c) n.
Proof.
  destruct st; [apply start_step|apply int_step|apply point_step|apply int_digit_step|
    |apply frac_step|apply exp_sign_step| |]; cbn [num_step num_lang].
  - destruct (is_digit c) eqn:Hd; simpl; split; try done.
    + intros (d & ds & x & E & _ & ? & ?). injection E as -> ->. by exists ds, x.
    + intros (ds & x & -> & ? & ?). by exists c, ds, x.
    + intros (d & ds & x & E & ? & _). injection E as -> ->. congruence.
  - destruct (is_digit c) eqn:Hd; simpl; split; try done.
    + intros (d & ds & E & _ & ?). by injection E as -> ->.
    + intros Hn. by exists c, n.
    + intros (d & ds & E & ? & _). injection E as -> ->. congruence.
  - rewrite digits_cons. destruct (is_digit c); simpl; naive_solver.
Qed.

Lemma num_lang_nil st : num_lang st [] <-> num_final st = true.
Proof.
  assert (forall i : bytes, int_part i -> i <> []) as Hi by (by destruct 1).
  destruct st; simpl; split; try done.
  - intros H. inversion H as [sg i f x H1 H2 H3 H4 E]. apply app_eq_nil in E as [_ E].
    apply app_eq_nil in E as [E _]. by apply Hi in H2.
  - intros (i & f & x & E & H & _). symmetry in E. apply app_eq_nil in E as [-> _]. by apply Hi in H.
  - intros _. exists [], []. repeat split; constructor.
  - intros _. exists [], [], []. repeat split; constructor.
  - intros (d & ds & x & E & _). done.
  - intros _. exists [], []. repeat split; constructor.
  - intros (sg & d & ds & E & _). by destruct sg.
  - intros (d & ds & E & _). done.
  - intros _. constructor.
Qed.


(** No number continues over [rest]. *)
Definition num_stop (rest : bytes) : Prop :=
  match rest with [] => True | c :: _ => forall st, num_step st c = None end.

Lemma scan_number_sound st s n rest :
  scan_number st s = Ok (n, rest) -> s = n ++ rest /\ num_lang st n.
Proof.
  revert st n. induction s as [|c s IH]; intros st n; simpl.
  - destruct (num_final st) eqn:Hf; [|done]. intros [= <- <-]. by rewrite num_lang_nil.
  - destruct (num_step st c) as [st'|] eqn:Hs.
    + intros H. bind_inv H. destruct a as [n' r]. injection H as <- <-.
      apply IH in E as [-> E]. split; [done|]. apply num_lang_cons. by rewrite Hs.
    + destruct (num_final st) eqn:Hf; [|done]. intros [= <- <-]. by rewrite num_lang_nil.
Qed.

Lemma scan_number_complete st n rest :
  num_lang st n -> num_stop rest -> scan_number st (n ++ rest) = Ok (n, rest).
Proof.
  intros Hn Hr. revert st Hn. induction n as [|c n IH]; intros st Hn.
  - apply num_lang_nil in Hn. destruct rest as [|c rest]; simpl; rewrite ?Hr, Hn; done.
  - apply num_lang_cons in Hn. simpl. destruct (num_step st c) as [st'|]; [|done].
    by rewrite (IH st' Hn).
Qed.

Lemma scan_number_fails st s : fails_with (eq SyntaxError) (scan_number st s).
Proof.
  revert st. induction s as [|c s IH]; intros st; simpl; [by case_match|].
  case_match; [|by case_match]. apply fails_bind; [done|]. by intros [? ?] _.
Qed.


(** Induction for functions that look several characters ahead. *)
Lemma text_ind (P : bytes -> Prop) :
  (forall s, (forall s', (length s' < length s)%nat -> P s') -> P s) -> forall s, P s.
Proof. intros H. apply (induction_ltof1 _ (@length byte)), H. Qed.

Lemma scan_string_sound s raw rest :
  scan_string s = Ok (raw, rest) -> s = raw ++ dquote :: rest /\ chars_text raw.
Proof.
  revert raw. induction s as [s IH] using text_ind. intros raw. destruct s as [|c s]; simpl; [done|].
  destruct (decide (c = dquote)) as [->|Hq]; [intros [= <- <-]; by split; [|constructor]|].
  destruct (decide (c = backslash)) as [->|Hb].
  - destruct s as [|e s]; [done|]. destruct (simple_escape e) eqn:He.
    + intros H. bind_inv H. destruct a as [r1 r2]. injection H as <- <-.
      apply IH in E as [-> E]; [|simpl; lia]. split; [done|]. by eapply chars_escape.
    + destruct (decide (e = chr "u")) as [->|]; [|done]. destruct s as [|h1 [|h2 [|h3 [|h4 s]]]]; try done.
      destruct (hex4 h1 h2 h3 h4) eqn:Hh; [|done]. intros H. bind_inv H. destruct a as [r1 r2]. injection H as <- <-.
      apply IH in E as [-> E]; [|simpl; lia]. split; [done|]. by eapply chars_unicode.
  - destruct (Z.ltb_spec (byte_val c) 32); [done|]. intros H'. bind_inv H'. destruct a as [r1 r2].
    injection H' as <- <-. apply IH in E as [-> E]; [|simpl; lia]. split; [done|]. by apply chars_plain.
Qed.

Lemma scan_string_complete raw rest :
  chars_text raw -> scan_string (raw ++ dquote :: rest) = Ok (raw, rest).
Proof.
  induction 1 as [|c s Hq Hb Hc _ IH|e b s He _ IH|h1 h2 h3 h4 r s Hh _ IH]; simpl; [done|..].
  - rewrite decide_False, decide_False by done. destruct (Z.ltb_spec (byte_val c) 32); [lia|]. by rewrite IH.
  - by rewrite He, IH.
  - by rewrite Hh, IH.
Qed.

Lemma scan_string_fails s : fails_with (eq SyntaxError) (scan_string s).
Proof.
  induction s as [s IH] using text_ind. destruct s as [|c s]; simpl; [done|].
  repeat first [progress case_match; try done | apply fails_bind; [apply IH; simpl; lia|by intros [? ?] _]].
Qed.

(** Text without escapes stands for itself when it is UTF-8. *)
Inductive utf8 : bytes -> Prop :=
  | utf8_nil : utf8 []
  | utf8_ascii c s : byte_val c < 128 -> utf8 s -> utf8 (c :: s)
  | utf8_two c c1 s : utf8_2 c c1 = true -> utf8 s -> utf8 (c :: c1 :: s)
  | utf8_three c c1 c2 s : utf8_3 c c1 c2 = true -> utf8 s -> utf8 (c :: c1 :: c2 :: s)
  | utf8_four c c1 c2 c3 s : utf8_4 c c1 c2 c3 = true -> utf8 s -> utf8 (c :: c1 :: c2 :: c3 :: s).

Lemma in_range_true lo hi c : in_range lo hi c = true <-> lo <= byte_val c <= hi.
Proof. unfold in_range. rewrite andb_true_iff. destruct (Z.leb_spec lo (byte_val c)), (Z.leb_spec (byte_val c) hi); lia. Qed.

Lemma in_range_false lo hi c : byte_val c < lo \/ hi < byte_val c -> in_range lo hi c = false.
Proof. intros H. apply not_true_iff_false. rewrite in_range_true. lia. Qed.

Lemma utf8_2_lead c c1 : utf8_2 c c1 = true -> 194 <= byte_val c <= 223.
Proof. unfold utf8_2. rewrite andb_true_iff, in_range_true. tauto. Qed.

Lemma utf8_3_lead c c1 c2 : utf8_3 c c1 c2 = true -> 224 <= byte_val c <= 239.
Proof. unfold utf8_3. rewrite !andb_true_iff, in_range_true. tauto. Qed.

Lemma utf8_4_lead c c1 c2 c3 : utf8_4 c c1 c2 c3 = true -> 240 <= byte_val c <= 244.
Proof. unfold utf8_4. rewrite !andb_true_iff, in_range_true. tauto. Qed.

Lemma not_utf8_2 c c1 : 224 <= byte_val c -> utf8_2 c c1 = false.
Proof. intros H. unfold utf8_2. by rewrite in_range_false by lia. Qed.

Lemma not_utf8_3 c c1 c2 : 240 <= byte_val c -> utf8_3 c c1 c2 = false.
Proof. intros H. unfold utf8_3. by rewrite in_range_false by lia. Qed.

Lemma beyond_ascii c : 128 <= byte_val c -> c <> backslash /\ (byte_val c <? 128) = false.
Proof.
  intros H. split; [intros ->; change (byte_val backslash) with 92 in H; lia|]. by apply Z.ltb_ge.
Qed.

Lemma unquote_plain s : utf8 s -> backslash ∉ s -> unquote s = s.
Proof.
  induction 1 as [|c s Hc _ IH|c c1 s H _ IH|c c1 c2 s H _ IH|c c1 c2 c3 s H _ IH]; intros Hb;
    rewrite ?not_elem_of_cons in Hb; [done|..]; cbn [unquote].
  - rewrite decide_False by (intros ->; tauto). rewrite (proj2 (Z.ltb_lt _ _) Hc). rewrite IH by tauto. done.
  - destruct (beyond_ascii c) as [Hn Hl]; [apply utf8_2_lead in H; lia|].
    rewrite decide_False, Hl, H by done. rewrite IH by tauto. done.
  - pose proof (utf8_3_lead _ _ _ H). destruct (beyond_ascii c) as [Hn Hl]; [lia|].
    rewrite decide_False, Hl, not_utf8_2, H by first [exact Hn|lia]. rewrite IH by tauto. done.
  - pose proof (utf8_4_lead _ _ _ _ H). destruct (beyond_ascii c) as [Hn Hl]; [lia|].
    rewrite decide_False, Hl, not_utf8_2, not_utf8_3, H by first [exact Hn|lia]. rewrite IH by tauto. done.
Qed.

(** Whatever it is given, [unquote] returns UTF-8. *)
Lemma byte_val_small z : 0 <= z < 256 -> byte_val (byte_of_Z z) = z.
Proof. intros. rewrite byte_val_of_Z. by apply Z.mod_small. Qed.

Lemma land_63 z : Z.land z 63 = z `mod` 64.
Proof. apply (Z.land_ones z 6). lia. Qed.

Lemma utf8_app s1 s2 : utf8 s1 -> utf8 s2 -> utf8 (s1 ++ s2).
Proof. induction 1; intros; simpl; [done|constructor 2|constructor 3|constructor 4|constructor 5]; auto. Qed.

Lemma encode_rune_utf8 r : 0 <= r < 1114112 -> is_surrogate r = false -> utf8 (encode_rune r).
Proof.
  intros Hr Hs. assert (r < 55296 \/ 57344 <= r) as Hs'.
  { unfold is_surrogate in Hs. destruct (Z.leb_spec 55296 r), (Z.ltb_spec r 57344); simpl in Hs; try discriminate Hs; lia. }
  clear Hs. unfold encode_rune. rewrite !land_63, !Z.shiftr_div_pow2 by lia.
  change (2 ^ 0) with 1. change (2 ^ 6) with 64. change (2 ^ 12) with 4096. change (2 ^ 18) with 262144.
  rewrite Z.div_1_r.
  destruct (Z.ltb_spec r 128); [|destruct (Z.ltb_spec r 2048); [|destruct (Z.ltb_spec r 65536)]].
  - constructor 2; [|constructor]. rewrite byte_val_small; lia.
  - constructor 3; [|constructor]. unfold utf8_2, cont. rewrite !(proj2 (in_range_true _ _ _)); [done|..];
      rewrite byte_val_small; Z.to_euclidean_division_equations; lia.
  - constructor 4; [|constructor]. unfold utf8_3, cont.
    rewrite !byte_val_small by (Z.to_euclidean_division_equations; lia).
    rewrite !(proj2 (in_range_true _ _ _)) by (rewrite byte_val_small; Z.to_euclidean_division_equations; lia).
    simpl. rewrite !andb_true_iff, !negb_true_iff, !andb_false_iff, !Z.eqb_neq, !Z.ltb_ge.
    Z.to_euclidean_division_equations; lia.
  - constructor 5; [|constructor]. unfold utf8_4, cont.
    rewrite !byte_val_small by (Z.to_euclidean_division_equations; lia).
    rewrite !(proj2 (in_range_true _ _ _)) by (rewrite byte_val_small; Z.to_euclidean_division_equations; lia).
    simpl. rewrite !andb_true_iff, !negb_true_iff, !andb_false_iff, !Z.eqb_neq, !Z.ltb_ge.
    Z.to_euclidean_division_equations; lia.
Qed.

Lemma hex_digit_range c z : hex_digit c = Some z -> 0 <= z < 16.
Proof.
  unfold hex_digit, is_digit. repeat case_match; intros [= <-];
    match goal with H : in_range _ _ _ = true |- _ => apply in_range_true in H; lia end.
Qed.

Lemma hex4_range h1 h2 h3 h4 r : hex4 h1 h2 h3 h4 = Some r -> 0 <= r < 65536.
Proof.
  unfold hex4. intros (a & Ha%hex_digit_range & H)%bind_Some.
  apply bind_Some in H as (b & Hb%hex_digit_range & H). apply bind_Some in H as (c & Hc%hex_digit_range & H).
  apply bind_Some in H as (d & Hd%hex_digit_range & H). injection H as <-. lia.
Qed.

Lemma utf16_pair_range r1 r2 r : utf16_pair r1 r2 = Some r -> 65536 <= r < 1114112.
Proof.
  unfold utf16_pair. intros H. case_match eqn:E; [|done]. injection H as <-.
  rewrite !andb_true_iff, !Z.leb_le, !Z.ltb_lt in E. lia.
Qed.

Lemma replacement_utf8 : utf8 replacement.
Proof. apply encode_rune_utf8; [lia|done]. Qed.

Lemma simple_escape_ascii e b : simple_escape e = Some b -> byte_val b < 128.
Proof. unfold simple_escape. repeat (case_match; [intros [= <-]; repeat destruct_or?; subst; done|]). done. Qed.

Lemma unquote_utf8 s : utf8 (unquote s).
Proof.
  pose proof replacement_utf8 as HR.
  induction s as [s IH] using text_ind. destruct s as [|c s]; cbn [unquote]; [constructor|].
  destruct (decide (c = backslash)) as [Hb|Hb].
  - destruct s as [|e s]; [constructor|]. destruct (simple_escape e) eqn:He.
    { constructor; [by eapply simple_escape_ascii|]. apply IH. simpl. lia. }
    destruct s as [|h1 [|h2 [|h3 [|h4 s5]]]]; try constructor.
    assert (utf8 (unquote s5)) as H5 by (apply IH; simpl; lia).
    assert (0 <= default 0 (hex4 h1 h2 h3 h4) < 65536) as Hr.
    { destruct (hex4 h1 h2 h3 h4) eqn:Hh; simpl; [by apply hex4_range in Hh|lia]. }
    destruct (is_surrogate _) eqn:Hs; [|apply utf8_app; [apply encode_rune_utf8; [lia|done]|done]].
    destruct s5 as [|b [|u [|l1 [|l2 [|l3 [|l4 s11]]]]]]; try by apply utf8_app.
    case_match eqn:Hp; [|by apply utf8_app]. case_bool_decide; [|done].
    apply bind_Some in Hp as (r2 & _ & Hp). apply utf16_pair_range in Hp.
    apply utf8_app; [apply encode_rune_utf8; [lia|]|apply IH; simpl; lia].
    unfold is_surrogate. destruct (Z.leb_spec 55296 z), (Z.ltb_spec z 57344); lia || done.
  - destruct (Z.ltb_spec (byte_val c) 128); [constructor; [done|]; apply IH; simpl; lia|].
    repeat case_match; subst; first
      [ apply utf8_app; [exact HR|] | apply utf8_two; [done|] | apply utf8_three; [done|] | apply utf8_four; [done|] ];
      apply IH; simpl; lia.
Qed.

(** The folded name distinguishes upper from lower case in no ASCII letter. *)
Example foldName_sample :
  foldName (go_string "Generated_At") = go_string "GENERATED_AT"
  /\ foldName (go_string "file" ++ [Init.Byte.xc5; Init.Byte.xbf]) = go_string "FILES".
Proof. by vm_compute. Qed.

Example unquote_sample :
  unquote (go_string "a\u00e9\ud83d\ude00\ud800x") =
  go_string "a" ++ [Init.Byte.xc3; Init.Byte.xa9; Init.Byte.xf0; Init.Byte.x9f; Init.Byte.x98; Init.Byte.x80;
    Init.Byte.xef; Init.Byte.xbf; Init.Byte.xbd] ++ go_string "x".
Proof. by vm_compute. Qed.
