(* ===== verification/Json.v ===== *)
(** * JSON documents ([encoding/json], read by [upki/manifest.go])

    The value a document denotes, the Standard Library's parser with its limit on
    nesting, the grammar of RFC 8259 as a relation between values and texts, and that
    the parser accepts exactly the texts of the grammar within the limit. *)
From S2P Require Import Prelude JsonLex.
From Stdlib Require Import Strings.Byte.

(** Numbers keep their text; strings are unquoted; members keep their order. *)
#[local] Unset Elimination Schemes.
Inductive json :=
  | JNull
  | JBool (b : bool)
  | JNumber (n : bytes)
  | JString (s : bytes)
  | JArray (vs : list json)
  | JObject (ms : list (bytes * json)).
#[local] Set Elimination Schemes.

(** [maxNestingDepth] *)
Definition maxNestingDepth : Z := 10000.

(** Open arrays and objects at the deepest point of a value. *)
Fixpoint depth (v : json) : Z :=
  match v with
  | JArray vs => 1 + fold_right (fun v d => Z.max (depth v) d) 0 vs
  | JObject ms => 1 + fold_right (fun m d => Z.max (depth m.2) d) 0 ms
  | _ => 0
  end.

(** ** The parser

    [value fuel d s] reads a value from the start of [s], inside [d] arrays and
    objects; the fuel bounds the nested calls. *)
Definition literal (lit : bytes) (v : json) (s : bytes) : result (json * bytes) :=
  if decide (take (length lit) s = lit) then Ok (v, drop (length lit) s) else Err SyntaxError.

Definition open_value (d : Z) : result unit := check_that (d <? maxNestingDepth) SyntaxError.

Fixpoint value (fuel : nat) (d : Z) (s : bytes) : result (json * bytes) :=
  match fuel with
  | O => OutOfFuel
  | S fuel =>
      match s with
      | [] => Err SyntaxError
      | c :: s' =>
          if decide (c = chr "[") then
            _ ← open_value d;
            match skip_space s' with
            | c1 :: s1 =>
                if decide (c1 = chr "]") then Ok (JArray [], s1)
                else '(vs, rest) ← elements fuel (d + 1) (c1 :: s1); Ok (JArray vs, rest)
            | [] => Err SyntaxError
            end
          else if decide (c = chr "{") then
            _ ← open_value d;
            match skip_space s' with
            | c1 :: s1 =>
                if decide (c1 = chr "}") then Ok (JObject [], s1)
                else '(ms, rest) ← members fuel (d + 1) (c1 :: s1); Ok (JObject ms, rest)
            | [] => Err SyntaxError
            end
          else if decide (c = dquote) then
            '(raw, rest) ← scan_string s'; Ok (JString (unquote raw), rest)
          else if decide (c = chr "t") then literal (go_string "true") (JBool true) s
          else if decide (c = chr "f") then literal (go_string "false") (JBool false) s
          else if decide (c = chr "n") then literal (go_string "null") JNull s
          else '(n, rest) ← scan_number NStart s; Ok (JNumber n, rest)
      end
  end
with elements (fuel : nat) (d : Z) (s : bytes) : result (list json * bytes) :=
  match fuel with
  | O => OutOfFuel
  | S fuel =>
      '(v, s1) ← value fuel d (skip_space s);
      match skip_space s1 with
      | c :: s2 =>
          if decide (c = chr "]") then Ok ([v], s2)
          else if decide (c = chr ",") then '(vs, rest) ← elements fuel d s2; Ok (v :: vs, rest)
          else Err SyntaxError
      | [] => Err SyntaxError
      end
  end
with members (fuel : nat) (d : Z) (s : bytes) : result (list (bytes * json) * bytes) :=
  match fuel with
  | O => OutOfFuel
  | S fuel =>
      match skip_space s with
      | q :: s0 =>
          if decide (q = dquote) then
            '(raw, s1) ← scan_string s0;
            match skip_space s1 with
            | c1 :: s2 =>
                if decide (c1 = chr ":") then
                  '(v, s3) ← value fuel d (skip_space s2);
                  match skip_space s3 with
                  | c :: s4 =>
                      if decide (c = chr "}") then Ok ([(unquote raw, v)], s4)
                      else if decide (c = chr ",")
                      then '(ms, rest) ← members fuel d s4; Ok ((unquote raw, v) :: ms, rest)
                      else Err SyntaxError
                  | [] => Err SyntaxError
                  end
                else Err SyntaxError
            | [] => Err SyntaxError
            end
          else Err SyntaxError
      | [] => Err SyntaxError
      end
  end.

(** A whole document. *)
Definition Parse (data : bytes) : result json :=
  '(v, rest) ← value (S (2 * length data)) 0 (skip_space data);
  match skip_space rest with [] => Ok v | _ => Err SyntaxError end.

(** ** The grammar (RFC 8259, sections 2 to 5) *)
Inductive value_text : json -> bytes -> Prop :=
  | text_null : value_text JNull (go_string "null")
  | text_true : value_text (JBool true) (go_string "true")
  | text_false : value_text (JBool false) (go_string "false")
  | text_number n : number_text n -> value_text (JNumber n) n
  | text_string raw : chars_text raw -> value_text (JString (unquote raw)) (dquote :: raw ++ [dquote])
  | text_array_nil w : space w -> value_text (JArray []) (chr "[" :: w ++ [chr "]"])
  | text_array vs s : elements_text vs s -> value_text (JArray vs) (chr "[" :: s ++ [chr "]"])
  | text_object_nil w : space w -> value_text (JObject []) (chr "{" :: w ++ [chr "}"])
  | text_object ms s : members_text ms s -> value_text (JObject ms) (chr "{" :: s ++ [chr "}"])
with elements_text : list json -> bytes -> Prop :=
  | elements_one w v s w' : space w -> value_text v s -> space w' -> elements_text [v] (w ++ s ++ w')
  | elements_more w v s w' vs s' : space w -> value_text v s -> space w' -> elements_text vs s' ->
      elements_text (v :: vs) (w ++ s ++ w' ++ chr "," :: s')
with members_text : list (bytes * json) -> bytes -> Prop :=
  | members_one w raw w1 w2 v s w' : space w -> chars_text raw -> space w1 -> space w2 ->
      value_text v s -> space w' ->
      members_text [(unquote raw, v)] (w ++ dquote :: raw ++ dquote :: w1 ++ chr ":" :: w2 ++ s ++ w')
  | members_more w raw w1 w2 v s w' ms s' : space w -> chars_text raw -> space w1 -> space w2 ->
      value_text v s -> space w' -> members_text ms s' ->
      members_text ((unquote raw, v) :: ms)
        (w ++ dquote :: raw ++ dquote :: w1 ++ chr ":" :: w2 ++ s ++ w' ++ chr "," :: s').

Scheme value_text_mut := Induction for value_text Sort Prop
  with elements_text_mut := Induction for elements_text Sort Prop
  with members_text_mut := Induction for members_text Sort Prop.
Combined Scheme text_mutind from value_text_mut, elements_text_mut, members_text_mut.

Inductive document : json -> bytes -> Prop :=
  | document_text w v s w' : space w -> value_text v s -> space w' -> document v (w ++ s ++ w').

Example Parse_sample :
  Parse (go_string "[ 1, -2.5e+3 , null,[], {} , false] ")
  = Ok (JArray [JNumber (go_string "1"); JNumber (go_string "-2.5e+3"); JNull; JArray []; JObject []; JBool false])
  /\ Parse (go_string "[01]") = Err SyntaxError /\ Parse (go_string "[1,]") = Err SyntaxError.
Proof. by vm_compute. Qed.

(** ** The parser accepts only the grammar *)
Definition depths (vs : list json) : Z := fold_right (fun v d => Z.max (depth v) d) 0 vs.
Definition member_depths (ms : list (bytes * json)) : Z := fold_right (fun m d => Z.max (depth m.2) d) 0 ms.

Lemma open_value_Ok d u : open_value d = Ok u <-> d < maxNestingDepth.
Proof. unfold open_value. rewrite check_that_Ok. apply Z.ltb_lt. Qed.

Lemma literal_Ok lit v s r rest : literal lit v s = Ok (r, rest) <-> r = v /\ s = lit ++ rest.
Proof.
  unfold literal. destruct (decide _) as [E|E]; split.
  - intros [= <- <-]. split; [done|]. rewrite <- E at 1. by rewrite take_drop.
  - intros [-> ->]. by rewrite drop_app_length.
  - done.
  - intros [_ ->]. by rewrite take_app_length in E.
Qed.

Definition value_sound fuel := forall d s v rest, d <= maxNestingDepth -> value fuel d s = Ok (v, rest) ->
  exists t, s = t ++ rest /\ value_text v t /\ d + depth v <= maxNestingDepth.
Definition elements_sound fuel := forall d s vs rest, d <= maxNestingDepth -> elements fuel d s = Ok (vs, rest) ->
  exists t, s = t ++ chr "]" :: rest /\ elements_text vs t /\ d + depths vs <= maxNestingDepth.
Definition members_sound fuel := forall d s ms rest, d <= maxNestingDepth -> members fuel d s = Ok (ms, rest) ->
  exists t, s = t ++ chr "}" :: rest /\ members_text ms t /\ d + member_depths ms <= maxNestingDepth.


(** White space before the first item belongs to it. *)
Lemma elements_space w vs t : space w -> elements_text vs t -> elements_text vs (w ++ t).
Proof.
  intros Hw [w0 v s w' H0 ?|w0 v s w' vs' s' H0 ?]; rewrite (app_assoc w); constructor; try done; by apply Forall_app.
Qed.

Lemma members_space w ms t : space w -> members_text ms t -> members_text ms (w ++ t).
Proof.
  intros Hw [w0 raw w1 w2 v s w' H0|w0 raw w1 w2 v s w' ms' s' H0]; rewrite (app_assoc w); constructor; try done;
    by apply Forall_app.
Qed.

Lemma value_sound_step fuel :
  elements_sound fuel -> members_sound fuel -> value_sound (S fuel).
Proof.
  intros He Hm d s v rest Hd. simpl. destruct s as [|c s]; [done|].
  destruct (decide (c = chr "[")) as [->|_]; [|destruct (decide (c = chr "{")) as [->|_]].
  - intros H. bind_inv H. apply open_value_Ok in E. destruct (skip_space_spec s) as (w & Hw & ->).
    destruct (skip_space s) as [|c1 s1]; [done|]. destruct (decide (c1 = chr "]")) as [->|_].
    + injection H as <- <-. exists (chr "[" :: w ++ [chr "]"]). split; [simpl; by rewrite <- app_assoc|].
      split; [by constructor|simpl; lia].
    + bind_inv H. destruct a0 as [vs r]. injection H as <- <-. apply He in E0 as (t & -> & Ht & Hdep); [|lia].
      exists (chr "[" :: (w ++ t) ++ [chr "]"]). split; [simpl; by rewrite <- !app_assoc|].
      split; [by apply text_array, elements_space|]. unfold depths in Hdep. simpl. lia.
  - intros H. bind_inv H. apply open_value_Ok in E. destruct (skip_space_spec s) as (w & Hw & ->).
    destruct (skip_space s) as [|c1 s1]; [done|]. destruct (decide (c1 = chr "}")) as [->|_].
    + injection H as <- <-. exists (chr "{" :: w ++ [chr "}"]). split; [simpl; by rewrite <- app_assoc|].
      split; [by constructor|simpl; lia].
    + bind_inv H. destruct a0 as [ms r]. injection H as <- <-. apply Hm in E0 as (t & -> & Ht & Hdep); [|lia].
      exists (chr "{" :: (w ++ t) ++ [chr "}"]). split; [simpl; by rewrite <- !app_assoc|].
      split; [by apply text_object, members_space|]. unfold member_depths in Hdep. simpl. lia.
  - destruct (decide (c = dquote)) as [->|_].
    { intros H. bind_inv H. destruct a as [raw r]. injection H as <- <-. apply scan_string_sound in E as [-> E].
      exists (dquote :: raw ++ [dquote]). split; [simpl; by rewrite <- app_assoc|]. split; [by constructor|simpl; lia]. }
    repeat (destruct (decide (c = _)) as [_|_];
      [intros [-> ->]%literal_Ok; eexists; (split; [reflexivity|]); split; [constructor|simpl; lia]|]).
    intros H. bind_inv H. destruct a as [n r]. injection H as <- <-. apply scan_number_sound in E as [-> E].
    exists n. split; [done|]. split; [by constructor|simpl; lia].
Qed.

Lemma elements_sound_step fuel : value_sound fuel -> elements_sound fuel -> elements_sound (S fuel).
Proof.
  intros Hv He d s vs rest Hd. simpl. intros H. bind_inv H. destruct a as [v s1].
  apply Hv in E as (t & Es & Ht & Hdep); [|done]. destruct (skip_space_spec s) as (w & Hw & ->). rewrite Es. clear Es.
  destruct (skip_space_spec s1) as (w' & Hw' & ->). destruct (skip_space s1) as [|c s2]; [done|].
  destruct (decide (c = chr "]")) as [->|_]; [|destruct (decide (c = chr ",")) as [->|_]; [|done]].
  - injection H as <- <-. exists (w ++ t ++ w'). split; [by rewrite <- !app_assoc|].
    split; [by constructor|simpl; lia].
  - bind_inv H. destruct a as [vs' r]. injection H as <- <-. apply He in E as (t' & -> & Ht' & Hdep'); [|done].
    exists (w ++ t ++ w' ++ chr "," :: t'). split; [by rewrite <- !app_assoc|].
    split; [by constructor|simpl; fold (depths vs'); lia].
Qed.

Lemma members_sound_step fuel : value_sound fuel -> members_sound fuel -> members_sound (S fuel).
Proof.
  intros Hv Hm d s ms rest Hd. simpl. intros H. destruct (skip_space_spec s) as (w & Hw & ->).
  destruct (skip_space s) as [|q s0]; [done|]. destruct (decide (q = dquote)) as [->|_]; [|done].
  bind_inv H. destruct a as [raw s1]. apply scan_string_sound in E as [-> Hraw].
  destruct (skip_space_spec s1) as (w1 & Hw1 & ->). destruct (skip_space s1) as [|c1 s2]; [done|].
  destruct (decide (c1 = chr ":")) as [->|_]; [|done]. bind_inv H. destruct a as [v s3].
  apply Hv in E as (t & Es & Ht & Hdep); [|done]. destruct (skip_space_spec s2) as (w2 & Hw2 & ->). rewrite Es. clear Es.
  destruct (skip_space_spec s3) as (w' & Hw' & ->). destruct (skip_space s3) as [|c s4]; [done|].
  destruct (decide (c = chr "}")) as [->|_]; [|destruct (decide (c = chr ",")) as [->|_]; [|done]].
  - injection H as <- <-. exists (w ++ dquote :: raw ++ dquote :: w1 ++ chr ":" :: w2 ++ t ++ w').
    split; [repeat (rewrite <- app_assoc || simpl); done|]. split; [by constructor|simpl; lia].
  - bind_inv H. destruct a as [ms' r]. injection H as <- <-. apply Hm in E as (t' & -> & Ht' & Hdep'); [|done].
    exists (w ++ dquote :: raw ++ dquote :: w1 ++ chr ":" :: w2 ++ t ++ w' ++ chr "," :: t').
    split; [repeat (rewrite <- app_assoc || simpl); done|]. split; [by constructor|simpl; fold (member_depths ms'); lia].
Qed.

Lemma parser_sound fuel : value_sound fuel /\ elements_sound fuel /\ members_sound fuel.
Proof.
  induction fuel as [|fuel (Hv & He & Hm)]; [by repeat split; intros ?|].
  split; [by apply value_sound_step|]. split; [by apply elements_sound_step|by apply members_sound_step].
Qed.

(** ** The parser returns *)

Lemma number_head n : number_text n -> exists c n', n = c :: n' /\ (c = chr "-" \/ is_digit c = true).
Proof.
  intros H. change (num_lang NStart n) in H. destruct n as [|c n]; [by apply num_lang_nil in H|].
  exists c, n. split; [done|]. apply start_step in H. cbn [num_step] in H.
  destruct (decide (c = chr "-")); [by left|]. right. destruct (decide (c = chr "0")) as [->|]; [done|].
  by destruct (is_digit c).
Qed.

(** A value starts with a character of its own. *)
Lemma value_text_head v t : value_text v t ->
  exists c t', t = c :: t' /\ is_space c = false /\ c <> chr "]" /\ c <> chr "}".
Proof.
  destruct 1 as [| | |n Hn| | | | |]; try by (eexists _, _; split; [reflexivity|]; split; [reflexivity|done]).
  apply number_head in Hn as (c & n' & -> & Hc). exists c, n'. split; [done|].
  destruct Hc as [->|Hc]; [done|]. split; [|split; by apply (is_digit_not _ _ Hc)].
  unfold is_space. apply bool_decide_eq_false. rewrite !not_elem_of_cons.
  repeat split; try (by apply (is_digit_not _ _ Hc)). apply not_elem_of_nil.
Qed.

Lemma value_text_length v t : value_text v t -> (0 < length t)%nat.
Proof. intros H. apply value_text_head in H as (c & t' & -> & _). simpl. lia. Qed.

(** What is left after a value is shorter. *)
Lemma value_shorter fuel d s v rest :
  d <= maxNestingDepth -> value fuel d s = Ok (v, rest) -> (length rest < length s)%nat.
Proof.
  intros Hd H. apply parser_sound in H as (t & -> & Ht & _); [|done]. apply value_text_length in Ht.
  rewrite length_app. lia.
Qed.

Definition value_fails fuel := forall d s, d <= maxNestingDepth -> (2 * length s < fuel)%nat ->
  fails_with (eq SyntaxError) (value fuel d s).
Definition elements_fails fuel := forall d s, d <= maxNestingDepth -> (2 * length s + 1 < fuel)%nat ->
  fails_with (eq SyntaxError) (elements fuel d s).
Definition members_fails fuel := forall d s, d <= maxNestingDepth -> (2 * length s + 1 < fuel)%nat ->
  fails_with (eq SyntaxError) (members fuel d s).

Lemma skip_space_cons s c s' : skip_space s = c :: s' -> (length s' < length s)%nat.
Proof. intros H. pose proof (skip_space_length s) as Hl. rewrite H in Hl. simpl in Hl. lia. Qed.

Lemma value_fails_step fuel : elements_fails fuel -> members_fails fuel -> value_fails (S fuel).
Proof.
  intros He Hm d s Hd Hf. simpl. destruct s as [|c s]; [done|]. simpl in Hf.
  repeat match goal with
  | |- fails_with _ (if decide (c = chr "t") then _ else _) => idtac
  | |- fails_with _ (if decide _ then _ else _) => destruct (decide _) as [_|_]
  end.
  - unfold open_value. destruct (Z.ltb_spec d maxNestingDepth); go_simp; [|done].
    destruct (skip_space s) as [|c1 s1] eqn:Es; [done|]. apply skip_space_cons in Es.
    destruct (decide _); [done|]. apply fails_bind; [apply He; simpl; lia|by intros [? ?] _].
  - unfold open_value. destruct (Z.ltb_spec d maxNestingDepth); go_simp; [|done].
    destruct (skip_space s) as [|c1 s1] eqn:Es; [done|]. apply skip_space_cons in Es.
    destruct (decide _); [done|]. apply fails_bind; [apply Hm; simpl; lia|by intros [? ?] _].
  - apply fails_bind; [apply scan_string_fails|by intros [? ?] _].
  - repeat (destruct (decide (c = _)); [unfold literal; by case_match|]).
    apply fails_bind; [apply scan_number_fails|by intros [? ?] _].
Qed.

Lemma elements_fails_step fuel : value_fails fuel -> elements_fails fuel -> elements_fails (S fuel).
Proof.
  intros Hv He d s Hd Hf. simpl. pose proof (skip_space_length s).
  apply fails_bind; [apply Hv; lia|]. intros [v s1] Es1%value_shorter; [|done].
  destruct (skip_space s1) as [|c s2] eqn:Es2; [done|]. apply skip_space_cons in Es2.
  destruct (decide _); [done|]. destruct (decide _); [|done].
  apply fails_bind; [apply He; lia|by intros [? ?] _].
Qed.

Lemma members_fails_step fuel : value_fails fuel -> members_fails fuel -> members_fails (S fuel).
Proof.
  intros Hv Hm d s Hd Hf. simpl. destruct (skip_space s) as [|q s0] eqn:Es0; [done|]. apply skip_space_cons in Es0.
  destruct (decide _); [|done]. apply fails_bind; [apply scan_string_fails|].
  intros [raw s1] Es1. apply scan_string_sound in Es1 as [-> _]. rewrite length_app in Es0. simpl in Es0.
  destruct (skip_space s1) as [|c1 s2] eqn:Es2; [done|]. apply skip_space_cons in Es2.
  destruct (decide _); [|done]. pose proof (skip_space_length s2).
  apply fails_bind; [apply Hv; lia|]. intros [v s3] Es3%value_shorter; [|done].
  destruct (skip_space s3) as [|c s4] eqn:Es4; [done|]. apply skip_space_cons in Es4.
  destruct (decide _); [done|]. destruct (decide _); [|done].
  apply fails_bind; [apply Hm; lia|by intros [? ?] _].
Qed.

Lemma parser_fails fuel : value_fails fuel /\ elements_fails fuel /\ members_fails fuel.
Proof.
  induction fuel as [|fuel (Hv & He & Hm)]; [by repeat split; intros ????; lia|].
  split; [by apply value_fails_step|]. split; [by apply elements_fails_step|by apply members_fails_step].
Qed.

Lemma Parse_fails data : fails_with (eq SyntaxError) (Parse data).
Proof.
  unfold Parse. apply fails_bind; [|intros [v rest] _; by case_match].
  apply parser_fails; [done|]. pose proof (skip_space_length data). lia.
Qed.

(** ** The parser accepts the whole grammar *)

Lemma skip_space_text w v t rest : space w -> value_text v t -> skip_space (w ++ t ++ rest) = t ++ rest.
Proof.
  intros Hw Ht. rewrite skip_space_app by done. apply value_text_head in Ht as (c & t' & -> & Hc & _).
  simpl. by rewrite Hc.
Qed.

Lemma skip_space_char w c s : space w -> is_space c = false -> skip_space (w ++ c :: s) = c :: s.
Proof. intros Hw Hc. rewrite skip_space_app by done. simpl. by rewrite Hc. Qed.

Lemma num_stop_space w rest : space w -> num_stop rest -> num_stop (w ++ rest).
Proof.
  intros [|c w' Hc _] Hr; [done|]. intros st. unfold is_space in Hc. apply bool_decide_eq_true in Hc.
  rewrite !elem_of_cons in Hc. destruct Hc as [->|[->|[->|[->|Hc]]]]; try (by destruct st).
  by apply elem_of_nil in Hc.
Qed.

Lemma num_stop_after w c rest : space w -> c ∈ [chr ","; chr "]"; chr "}"] -> num_stop (w ++ c :: rest).
Proof.
  intros Hw Hc. apply num_stop_space; [done|]. intros st. rewrite !elem_of_cons in Hc.
  destruct Hc as [->|[->|[->|Hc]]]; try (by destruct st). by apply elem_of_nil in Hc.
Qed.

Definition value_complete (v : json) (t : bytes) := forall fuel d rest,
  d + depth v <= maxNestingDepth -> (2 * length (t ++ rest) < fuel)%nat -> num_stop rest ->
  value fuel d (t ++ rest) = Ok (v, rest).
Definition elements_complete (vs : list json) (t : bytes) := forall fuel d rest,
  d + depths vs <= maxNestingDepth -> (2 * length (t ++ chr "]" :: rest) + 1 < fuel)%nat ->
  elements fuel d (t ++ chr "]" :: rest) = Ok (vs, rest).
Definition members_complete (ms : list (bytes * json)) (t : bytes) := forall fuel d rest,
  d + member_depths ms <= maxNestingDepth -> (2 * length (t ++ chr "}" :: rest) + 1 < fuel)%nat ->
  members fuel d (t ++ chr "}" :: rest) = Ok (ms, rest).

Lemma depths_nonneg vs : 0 <= depths vs.
Proof. induction vs; simpl; lia. Qed.
Lemma member_depths_nonneg ms : 0 <= member_depths ms.
Proof. induction ms; simpl; lia. Qed.
Lemma depth_nonneg v : 0 <= depth v.
Proof.
  destruct v as [| | | |vs|ms]; simpl; try lia;
    [pose proof (depths_nonneg vs)|pose proof (member_depths_nonneg ms)]; unfold depths, member_depths in *; lia.
Qed.

Lemma skip_space_idem s : skip_space (skip_space s) = skip_space s.
Proof. induction s as [|c s IH]; [done|]. simpl. destruct (is_space c) eqn:Hc; [done|]. simpl. by rewrite Hc. Qed.

Lemma elements_skip fuel d s : elements fuel d (skip_space s) = elements fuel d s.
Proof. destruct fuel; [done|]. simpl. by rewrite skip_space_idem. Qed.

Lemma members_skip fuel d s : members fuel d (skip_space s) = members fuel d s.
Proof. destruct fuel; [done|]. simpl. by rewrite skip_space_idem. Qed.

(** Items do not start with the closing bracket. *)
Lemma elements_head vs t rest : elements_text vs t ->
  exists c s, skip_space (t ++ rest) = c :: s /\ c <> chr "]".
Proof.
  intros [w v s w' Hw Hs _|w v s w' vs' s' Hw Hs _ _]; rewrite <- app_assoc, skip_space_app by done;
    destruct (value_text_head _ _ Hs) as (c & s0 & -> & Hc & Hn & _); simpl; rewrite Hc; by eexists _, _.
Qed.

Lemma members_head ms t rest : members_text ms t ->
  exists c s, skip_space (t ++ rest) = c :: s /\ c <> chr "}".
Proof. intros [w raw w1 w2 v s w' Hw|w raw w1 w2 v s w' ms' s' Hw]; rewrite <- app_assoc, skip_space_app by done; by eexists _, _. Qed.

Ltac opened := unfold open_value; rewrite (proj2 (Z.ltb_lt _ _)) by lia; go_simp.

Lemma array_complete vs s : elements_text vs s -> elements_complete vs s ->
  value_complete (JArray vs) (chr "[" :: s ++ [chr "]"]).
Proof.
  intros Hs IH [|fuel] d rest Hd Hf Hr; [lia|]. pose proof (depths_nonneg vs). cbn [depth] in Hd. fold (depths vs) in Hd.
  simpl in *. rewrite <- app_assoc in *. simpl in *. opened.
  destruct (elements_head vs s (chr "]" :: rest) Hs) as (c & s1 & Ec & Hn).
  rewrite Ec. rewrite decide_False by done. rewrite <- Ec, elements_skip, IH; [done|lia|lia].
Qed.

Lemma object_complete ms s : members_text ms s -> members_complete ms s ->
  value_complete (JObject ms) (chr "{" :: s ++ [chr "}"]).
Proof.
  intros Hs IH [|fuel] d rest Hd Hf Hr; [lia|]. pose proof (member_depths_nonneg ms). cbn [depth] in Hd.
  fold (member_depths ms) in Hd. simpl in *. rewrite <- app_assoc in *. simpl in *. opened.
  destruct (members_head ms s (chr "}" :: rest) Hs) as (c & s1 & Ec & Hn).
  rewrite Ec. rewrite decide_False by done. rewrite <- Ec, members_skip, IH; [done|lia|lia].
Qed.

Lemma number_complete n : number_text n -> value_complete (JNumber n) n.
Proof.
  intros Hn [|fuel] d rest _ Hf Hr; [lia|]. destruct (number_head n Hn) as (c & n' & -> & Hc). cbn [value app].
  assert (forall d, is_digit d = false -> d <> chr "-" -> c <> d) as Hd.
  { intros d' H1 H2 ->. destruct Hc as [->|Hc]; [done|congruence]. }
  rewrite !decide_False by (by apply Hd). change (c :: n' ++ rest) with ((c :: n') ++ rest).
  by rewrite (scan_number_complete NStart _ _ Hn Hr).
Qed.

(** Lengths of concatenations; concatenations to the right. *)
Ltac lengths H :=
  repeat first [rewrite length_app in H | rewrite length_cons in H | rewrite length_app | rewrite length_cons]; lia.
Ltac flat_text H :=
  repeat first [rewrite <- app_assoc in H | rewrite <- app_comm_cons in H | rewrite <- app_assoc | rewrite <- app_comm_cons].

Lemma elements_one_complete w v s w' : space w -> value_text v s -> space w' -> value_complete v s ->
  elements_complete [v] (w ++ s ++ w').
Proof.
  intros Hw Hs Hw' IH [|fuel] d rest Hd Hf; [lia|]. simpl in *. pose proof (depth_nonneg v).
  rewrite <- !app_assoc in *. rewrite length_app in Hf.
  rewrite (skip_space_text w v) by done. rewrite IH; [|lia|lia|apply num_stop_after; [done|set_solver]].
  go_simp. by rewrite skip_space_char.
Qed.

Lemma elements_more_complete w v s w' vs s' : space w -> value_text v s -> space w' ->
  value_complete v s -> elements_complete vs s' ->
  elements_complete (v :: vs) (w ++ s ++ w' ++ chr "," :: s').
Proof.
  intros Hw Hs Hw' IH IH' [|fuel] d rest Hd Hf; [lia|]. simpl in Hd. pose proof (depth_nonneg v).
  fold (depths vs) in Hd. pose proof (depths_nonneg vs). pose proof (value_text_length v s Hs).
  flat_text Hf. cbn [elements]. rewrite (skip_space_text w v) by done.
  rewrite IH; [|lia|lengths Hf|apply num_stop_after; [done|set_solver]].
  go_simp. rewrite skip_space_char by done. simpl. rewrite IH'; [done|lia|lengths Hf].
Qed.

(** The text of one member, up to its value's. *)
Lemma members_value fuel d w raw w1 w2 v s w' c rest :
  space w -> chars_text raw -> space w1 -> space w2 -> value_text v s -> space w' ->
  value_complete v s -> d + depth v <= maxNestingDepth -> c ∈ [chr ","; chr "]"; chr "}"] ->
  (2 * length (s ++ w' ++ c :: rest) < fuel)%nat ->
  members (S fuel) d (w ++ dquote :: raw ++ dquote :: w1 ++ chr ":" :: w2 ++ s ++ w' ++ c :: rest)
  = if decide (c = chr "}") then Ok ([(unquote raw, v)], rest)
    else if decide (c = chr ",")
    then '(ms, rest) ← members fuel d rest; Ok ((unquote raw, v) :: ms, rest)
    else Err SyntaxError.
Proof.
  intros Hw Hraw Hw1 Hw2 Hs Hw' IH Hd Hc Hf. cbn [members]. rewrite skip_space_char by done.
  rewrite decide_True by done. rewrite scan_string_complete by done. go_simp. rewrite skip_space_char by done.
  rewrite decide_True by done. rewrite (skip_space_text w2 v) by done.
  rewrite IH; [|lia|lia|by apply num_stop_after]. go_simp.
  assert (is_space c = false) as Hsp by (rewrite !elem_of_cons in Hc; destruct Hc as [->|[->|[->|Hc]]]; [done..|by apply elem_of_nil in Hc]).
  by rewrite skip_space_char.
Qed.

Lemma members_one_complete w raw w1 w2 v s w' : space w -> chars_text raw -> space w1 -> space w2 ->
  value_text v s -> space w' -> value_complete v s ->
  members_complete [(unquote raw, v)] (w ++ dquote :: raw ++ dquote :: w1 ++ chr ":" :: w2 ++ s ++ w').
Proof.
  intros Hw Hraw Hw1 Hw2 Hs Hw' IH [|fuel] d rest Hd Hf; [lia|]. simpl in Hd. pose proof (depth_nonneg v).
  flat_text Hf.
  rewrite (members_value _ _ _ _ _ _ v); try done; [lia|set_solver|].
  lengths Hf.
Qed.

Lemma members_more_complete w raw w1 w2 v s w' ms s' : space w -> chars_text raw -> space w1 -> space w2 ->
  value_text v s -> space w' -> value_complete v s -> members_complete ms s' ->
  members_complete ((unquote raw, v) :: ms)
    (w ++ dquote :: raw ++ dquote :: w1 ++ chr ":" :: w2 ++ s ++ w' ++ chr "," :: s').
Proof.
  intros Hw Hraw Hw1 Hw2 Hs Hw' IH IH' [|fuel] d rest Hd Hf; [lia|]. simpl in Hd. pose proof (depth_nonneg v).
  fold (member_depths ms) in Hd. pose proof (member_depths_nonneg ms).
  flat_text Hf.
  rewrite (members_value _ _ _ _ _ _ v); try done; [|lia|set_solver|];
    [|lengths Hf].
  simpl. rewrite IH'; [done|lia|]. lengths Hf.
Qed.

Lemma parser_complete :
  (forall v t, value_text v t -> value_complete v t)
  /\ (forall vs t, elements_text vs t -> elements_complete vs t)
  /\ (forall ms t, members_text ms t -> members_complete ms t).
Proof.
  apply text_mutind; intros;
    eauto using number_complete, array_complete, object_complete, elements_one_complete, elements_more_complete,
      members_one_complete, members_more_complete; intros [|fuel] d rest Hd Hf Hr; try lia; simpl in *.
  all: try done.
  - rewrite <- app_assoc. simpl. by rewrite scan_string_complete.
  - opened. rewrite <- app_assoc. simpl. by rewrite skip_space_char.
  - opened. rewrite <- app_assoc. simpl. by rewrite skip_space_char.
Qed.

(** ** Documents *)
Lemma Parse_Ok data v :
  Parse data = Ok v <-> document v data /\ depth v <= maxNestingDepth.
Proof.
  unfold Parse. split.
  - intros H. bind_inv H. destruct a as [v' rest]. apply parser_sound in E as (t & Et & Ht & Hd); [|done].
    destruct (skip_space_spec data) as (w & Hw & ->). rewrite Et. destruct (skip_space_spec rest) as (w' & Hw' & ->).
    destruct (skip_space rest); [|done]. injection H as <-. split; [|lia]. rewrite app_nil_r. by constructor.
  - intros [[w v' s w' Hw Hs Hw'] Hd]. rewrite (skip_space_text w v') by done.
    rewrite (proj1 parser_complete v' s Hs); [|lia|rewrite !length_app; lia|].
    + go_simp. rewrite <- (app_nil_r w'), skip_space_app by done. done.
    + rewrite <- (app_nil_r w'). by apply num_stop_space.
Qed.

(** A document denotes one value. *)
Lemma document_inj v1 v2 data :
  document v1 data -> document v2 data ->
  depth v1 <= maxNestingDepth -> depth v2 <= maxNestingDepth -> v1 = v2.
Proof.
  intros H1 H2 D1 D2. pose proof (proj2 (Parse_Ok _ _) (conj H1 D1)) as E1.
  pose proof (proj2 (Parse_Ok _ _) (conj H2 D2)) as E2. congruence.
Qed.
