(* ===== verification/Manifest.v ===== *)
(** * The manifest ([upki/manifest.go])

    [LoadManifest] and [GeneratedTime].  A document is parsed ([Json]), then decoded
    into the two fields of a [Manifest] the way [encoding/json] decodes into a struct:
    members match fields by name, else by folded name; members without a field are
    skipped whatever they hold; null leaves a field as it is (and empties a slice); a
    repeated member decodes again, a repeated array into the cells of the earlier one. *)
From S2P Require Import Prelude GoIO Cryptobyte UpkiIndex Checker Path Cache JsonLex Json.

Record ManifestFile := mkManifestFile { Filename : bytes }.
Record Manifest := mkManifest { GeneratedAt : Z; Files : list ManifestFile }.

(** ** Decoding *)

(** [strconv.ParseUint(n, 10, 64)] *)
Definition ParseUint (n : bytes) : option Z :=
  let v := fold_left (fun acc c => acc * 10 + (byte_val c - 48)) n 0 in
  if negb (bool_decide (n = [])) && forallb is_digit n && (v <? 2 ^ 64) then Some v else None.

Definition number_value (v : json) : option Z :=
  match v with JNumber n => ParseUint n | _ => None end.
Definition string_value (v : json) : option bytes :=
  match v with JString s => Some s | _ => None end.

(** A field that is not a struct or a slice. *)
Definition decode_scalar {A} (val : json -> option A) (old : A) (v : json) : result A :=
  match v with JNull => Ok old | _ => or_err (val v) UnmarshalTypeError end.

Fixpoint fold_res {A S} (f : S -> A -> result S) (s : S) (l : list A) : result S :=
  match l with [] => Ok s | x :: l' => s' ← f s x; fold_res f s' l' end.

(** The field of a struct a member decodes into, by the struct's field names. *)
Definition find_field (names : list bytes) (key : bytes) : option bytes :=
  match find (fun n => bool_decide (key = n)) names with
  | Some n => Some n
  | None => find (fun n => bool_decide (foldName key = foldName n)) names
  end.

(** The struct tags. *)
Definition key_filename : bytes := go_string "filename".
Definition key_generated_at : bytes := go_string "generated_at".
Definition key_files : bytes := go_string "files".

(** The fields of [ManifestFile] and of [Manifest], in order. *)
Definition file_fields : list bytes := [key_filename].
Definition manifest_fields : list bytes := [key_generated_at; key_files].

Definition decode_file_member (f : ManifestFile) (m : bytes * json) : result ManifestFile :=
  match find_field file_fields m.1 with
  | Some _ => s ← decode_scalar string_value (Filename f) m.2; Ok (mkManifestFile s)
  | None => Ok f
  end.

Definition decode_file (f : ManifestFile) (v : json) : result ManifestFile :=
  match v with
  | JNull => Ok f
  | JObject ms => fold_res decode_file_member f ms
  | _ => Err UnmarshalTypeError
  end.

(** A slice being decoded into: the cells of its array that were written, and its
    length.  Every other cell holds the zero value. *)
Record FileSlice := mkFileSlice { fs_cells : list ManifestFile; fs_len : nat }.

Definition zero_file : ManifestFile := mkManifestFile [].

Fixpoint decode_cells (cells : list ManifestFile) (vs : list json) : result (list ManifestFile) :=
  match vs with
  | [] => Ok cells
  | v :: vs' =>
      c ← decode_file (default zero_file (head cells)) v;
      cells' ← decode_cells (tail cells) vs';
      Ok (c :: cells')
  end.

Definition decode_files (fs : FileSlice) (v : json) : result FileSlice :=
  match v with
  | JNull => Ok (mkFileSlice [] 0)
  | JArray [] => Ok (mkFileSlice [] 0)
  | JArray vs => cells ← decode_cells (fs_cells fs) vs; Ok (mkFileSlice cells (length vs))
  | _ => Err UnmarshalTypeError
  end.

(** A [Manifest] being decoded into. *)
Record Decoding := mkDecoding { d_generated_at : Z; d_files : FileSlice }.

Definition decode_member (d : Decoding) (m : bytes * json) : result Decoding :=
  match find_field manifest_fields m.1 with
  | Some n =>
      if decide (n = key_generated_at)
      then g ← decode_scalar number_value (d_generated_at d) m.2; Ok (mkDecoding g (d_files d))
      else fs ← decode_files (d_files d) m.2; Ok (mkDecoding (d_generated_at d) fs)
  | None => Ok d
  end.

Definition decode_manifest (d : Decoding) (v : json) : result Decoding :=
  match v with
  | JNull => Ok d
  | JObject ms => fold_res decode_member d ms
  | _ => Err UnmarshalTypeError
  end.

(** [json.Unmarshal] into a zero [Manifest]. *)
Definition Unmarshal (data : bytes) : result Manifest :=
  v ← Parse data;
  d ← decode_manifest (mkDecoding 0 (mkFileSlice [] 0)) v;
  Ok (mkManifest (d_generated_at d) (take (fs_len (d_files d)) (fs_cells (d_files d)))).

(** ** [LoadManifest], [GeneratedTime] *)
Definition manifest_path (cacheDir : bytes) : bytes :=
  Join [cacheDir; RevocationSubdir; go_string "manifest.json"].

Definition LoadManifest {F : FileSystem} (cacheDir : bytes) : result Manifest :=
  let path := manifest_path cacheDir in
  match os_ReadFile path with
  | inr err => Err (Errorf "upki: reading manifest: %w" [AErr err])
  | inl data => wrap_err (fun err => Errorf "upki: unmarshaling manifest: %w" [AErr err]) (Unmarshal data)
  end.

(** A [time.Time] without a monotonic reading: seconds since year 1 as an int64. *)
Record Time := mkTime { ext : Z }.
Definition unixToInternal : Z := (1969 * 365 + 1969 / 4 - 1969 / 100 + 1969 / 400) * 86400.
(** [time.Unix(sec, 0)] *)
Definition time_Unix (sec : Z) : Time := mkTime (i64 (sec + unixToInternal)).
(** [t.Unix()] and [t.Before(u)] *)
Definition Time_Unix (t : Time) : Z := i64 (ext t - unixToInternal).
Definition Time_Before (t u : Time) : bool := ext t <? ext u.

Definition GeneratedTime (m : Manifest) : Time := time_Unix (i64 (GeneratedAt m)).

(** ** What a document means *)

(** The values of the members that decode into field [name], in order. *)
Definition selected_members (names : list bytes) (name : bytes) (ms : list (bytes * json)) : list json :=
  (filter (fun m => find_field names m.1 = Some name) ms).*2.

(** What a value must be to decode without an error. *)
Definition scalar_typed {A} (val : json -> option A) (v : json) : Prop := v = JNull \/ is_Some (val v).

Definition file_typed (v : json) : Prop :=
  v = JNull \/ exists ms, v = JObject ms
    /\ Forall (scalar_typed string_value) (selected_members file_fields key_filename ms).

Definition files_typed (v : json) : Prop :=
  v = JNull \/ exists vs, v = JArray vs /\ Forall file_typed vs.

Definition manifest_typed (v : json) : Prop :=
  v = JNull \/ exists ms, v = JObject ms
    /\ Forall (scalar_typed number_value) (selected_members manifest_fields key_generated_at ms)
    /\ Forall files_typed (selected_members manifest_fields key_files ms).

Definition object_members (v : json) : list (bytes * json) :=
  match v with JObject ms => ms | _ => [] end.
Definition array_elements (v : json) : list json :=
  match v with JArray vs => vs | _ => [] end.

(** The last value that is not null, of repeated members. *)
Definition last_value {A} (val : json -> option A) (zero : A) (vs : list json) : A :=
  default zero (last (omap val vs)).

Definition file_name (v : json) : bytes :=
  last_value string_value [] (selected_members file_fields key_filename (object_members v)).

(** The arrays among the values of a repeated member that decode into the same cells:
    a null or an empty array starts over. *)
Definition live_arrays (vs : list json) : list (list json) :=
  fold_left (fun arrays v => match array_elements v with [] => [] | es => arrays ++ [es] end) vs [].

(** The values that decode into the name of cell [i], in order. *)
Definition cell_names (arrays : list (list json)) (i : nat) : list json :=
  arrays ≫= fun es => default [] (selected_members file_fields key_filename ∘ object_members <$> es !! i).

(** The files a repeated member reads as: as many as the last array has elements, each
    with the last name given at its position. *)
Definition files_read (vs : list json) : list ManifestFile :=
  let arrays := live_arrays vs in
  (fun i => mkManifestFile (last_value string_value [] (cell_names arrays i)))
    <$> seq 0 (length (default [] (last arrays))).

(** ** Decoding follows the meaning *)

Lemma last_value_app {A} (val : json -> option A) z vs vs' :
  last_value val z (vs ++ vs') = last_value val (last_value val z vs) vs'.
Proof. unfold last_value. rewrite omap_app, last_app. by destruct (last (omap val vs')). Qed.

Lemma decode_scalar_Ok {A} (val : json -> option A) old v x : val JNull = None ->
  decode_scalar val old v = Ok x <-> scalar_typed val v /\ x = default old (val v).
Proof.
  intros Hn. unfold decode_scalar, scalar_typed.
  destruct v; rewrite ?Hn; simpl; try (split; [intros [= ->]; by split; [left|]|by intros [_ ->]]);
    rewrite or_err_Ok; (split; [intros E; rewrite E; split; [right; by eexists|done]|];
      intros [[?|[y E]] ->]; [done|by rewrite E]).
Qed.

Lemma fold_scalar_Ok {A} (val : json -> option A) old vs x : val JNull = None ->
  fold_res (decode_scalar val) old vs = Ok x <-> Forall (scalar_typed val) vs /\ x = last_value val old vs.
Proof.
  intros Hn. revert old. induction vs as [|v vs IH]; intros old.
  - split; [intros [= ->]; by split; [constructor|]|by intros [_ ->]].
  - cbn [fold_res]. rewrite bind_Ok, List.Forall_cons_iff.
    assert (last_value val old (v :: vs) = last_value val (default old (val v)) vs) as ->.
    { unfold last_value. simpl. destruct (val v); simpl; [|done].
      rewrite last_cons. by destruct (last _). }
    split; [intros (y & [H1 ->]%decode_scalar_Ok & [H2 ->]%IH); done|].
    intros ([H1 H2] & ->). eexists. rewrite (decode_scalar_Ok val), IH by done. done.
Qed.

Lemma fold_file_members ms f f' :
  fold_res decode_file_member f ms = Ok f' <->
  fold_res (decode_scalar string_value) (Filename f) (selected_members file_fields key_filename ms) = Ok (Filename f').
Proof.
  revert f. induction ms as [|m ms IH]; intros f; unfold selected_members.
  - simpl. destruct f, f'. split; intros [= ->]; done.
  - rewrite filter_cons. cbn [fold_res]. unfold decode_file_member at 2.
    destruct (find_field file_fields m.1) as [n|] eqn:Hf.
    + assert (n = key_filename) as ->.
      { unfold find_field in Hf. case_match eqn:E1; [injection Hf as <-; apply find_some in E1|apply find_some in Hf];
          naive_solver. }
      rewrite decide_True by done. rewrite fmap_cons. cbn [fold_res].
      destruct (decode_scalar string_value (Filename f) m.2) as [s|e| |]; go_simp; [apply IH|done..].
    + rewrite decide_False by done. go_simp. apply IH.
Qed.

Lemma decode_file_Ok f v f' :
  decode_file f v = Ok f' <->
  file_typed v /\ Filename f' = last_value string_value (Filename f)
                    (selected_members file_fields key_filename (object_members v)).
Proof.
  unfold decode_file, file_typed. destruct v as [| | | | |ms]; simpl;
    try (split; [done|by intros [[?|(? & ? & _)] _]]).
  - destruct f, f'. unfold last_value. simpl. split; [intros [= ->]; by split; [left|]|by intros [_ ->]].
  - rewrite fold_file_members, fold_scalar_Ok by done. split.
    + intros [H ->]. split; [|done]. right. by exists ms.
    + intros [[?|(ms' & [= <-] & H)] ->]; done.
Qed.

Lemma decode_file_total f v : file_typed v -> exists f', decode_file f v = Ok f'.
Proof. intros H. eexists (mkManifestFile _). by apply decode_file_Ok. Qed.

Lemma decode_cells_ok cells vs : is_ok (decode_cells cells vs) <-> Forall file_typed vs.
Proof.
  revert cells. induction vs as [|v vs IH]; intros cells; simpl; [by split; [constructor|]|].
  rewrite List.Forall_cons_iff, <- (IH (tail cells)). split.
  - intros H. destruct (decode_file _ v) as [c| | |] eqn:E; [|done..]. apply decode_file_Ok in E as [E _].
    go_simp. by destruct (decode_cells _ vs).
  - intros [H1 H2]. destruct (decode_file_total (default zero_file (head cells)) v H1) as [c ->].
    go_simp. by destruct (decode_cells _ vs).
Qed.

Lemma decode_files_ok fs v : is_ok (decode_files fs v) <-> files_typed v.
Proof.
  unfold files_typed. destruct v as [| | | |vs|]; simpl; try (split; [done|by intros [?|(? & ? & _)]]).
  - split; [by left|done].
  - transitivity (Forall file_typed vs).
    + rewrite <- (decode_cells_ok (fs_cells fs)). destruct vs; [done|]. by destruct (decode_cells _ _).
    + split; [intros H; right; by exists vs|by intros [?|(? & [= <-] & ?)]].
Qed.

Lemma fold_files_ok fs vs : is_ok (fold_res decode_files fs vs) <-> Forall files_typed vs.
Proof.
  revert fs. induction vs as [|v vs IH]; intros fs; simpl; [by split; [constructor|]|].
  rewrite List.Forall_cons_iff, <- (decode_files_ok fs). destruct (decode_files fs v) as [fs'| | |]; go_simp;
    simpl; rewrite ?IH; naive_solver.
Qed.

(** The two fields decode independently. *)
Lemma fold_members d ms d' :
  fold_res decode_member d ms = Ok d' <->
  fold_res (decode_scalar number_value) (d_generated_at d) (selected_members manifest_fields key_generated_at ms)
    = Ok (d_generated_at d')
  /\ fold_res decode_files (d_files d) (selected_members manifest_fields key_files ms) = Ok (d_files d').
Proof.
  revert d. induction ms as [|m ms IH]; intros d; unfold selected_members.
  - simpl. destruct d, d'. naive_solver.
  - rewrite !filter_cons. cbn [fold_res]. unfold decode_member at 2.
    destruct (find_field manifest_fields m.1) as [n|] eqn:Hf; [|rewrite !decide_False by done; apply IH].
    assert (n = key_generated_at \/ n = key_files) as Hn.
    { unfold find_field in Hf. case_match eqn:E1; [injection Hf as <-; apply find_some in E1|apply find_some in Hf];
        naive_solver. }
    destruct Hn as [->| ->].
    + rewrite decide_True by done. rewrite (decide_True _ _ (eq_refl (Some key_generated_at))), decide_False by done.
      rewrite fmap_cons. cbn [fold_res].
      destruct (decode_scalar _ _ m.2) as [g| | |]; go_simp; [apply (IH (mkDecoding g (d_files d)))|naive_solver..].
    + rewrite decide_False by done. rewrite decide_False by done. rewrite (decide_True _ _ (eq_refl (Some key_files))).
      rewrite fmap_cons. cbn [fold_res].
      destruct (decode_files _ m.2) as [g| | |]; go_simp; [apply (IH (mkDecoding (d_generated_at d) g))|naive_solver..].
Qed.

Lemma decode_manifest_ok v : is_ok (decode_manifest (mkDecoding 0 (mkFileSlice [] 0)) v) <-> manifest_typed v.
Proof.
  unfold manifest_typed. destruct v as [| | | | |ms]; simpl; try (split; [done|by intros [?|(? & ? & _)]]).
  - split; [by left|done].
  - split.
    + intros H. destruct (fold_res decode_member _ ms) as [d| | |] eqn:E; [|done..]. right. exists ms.
      apply fold_members in E as [E1 E2]. split; [done|]. split; [by apply fold_scalar_Ok in E1 as [E1 _]|].
      eapply fold_files_ok. by rewrite E2.
    + intros [?|(? & [= <-] & H1 & H2)]; [done|].
      apply (fold_files_ok (mkFileSlice [] 0)) in H2.
      destruct (fold_res decode_files _ _) as [fs| | |] eqn:E; [|done..].
      pose proof (proj2 (fold_members (mkDecoding 0 (mkFileSlice [] 0)) ms
        (mkDecoding (last_value number_value 0 (selected_members manifest_fields key_generated_at ms)) fs))) as Hm.
      simpl in Hm. rewrite Hm; [done|]. split; [by apply fold_scalar_Ok|done].
Qed.

Lemma ParseUint_u64 n z : ParseUint n = Some z -> is_u64 z.
Proof.
  unfold ParseUint. intros H. case_match eqn:E; [|done]. injection H as <-.
  rewrite !andb_true_iff, Z.ltb_lt in E. destruct E as [[_ Hd] Hlt]. split; [|done]. clear Hlt.
  assert (forall acc, 0 <= acc -> 0 <= fold_left (fun acc c => acc * 10 + (byte_val c - 48)) n acc) as Hf; [|by apply Hf].
  induction n as [|c n IH]; intros acc Ha; simpl in *; [done|]. apply andb_true_iff in Hd as [Hc Hd].
  apply in_range_true in Hc. apply IH; [done|lia].
Qed.

Lemma last_number_u64 vs : is_u64 (last_value number_value 0 vs).
Proof.
  unfold last_value. destruct (last _) as [z|] eqn:E; simpl; [|done].
  apply last_Some_elem_of, list_elem_of_omap in E as (x & _ & Hx). destruct x; try done. by apply ParseUint_u64 in Hx.
Qed.

(** The errors of decoding. *)
Definition json_error (e : error) : Prop := e = SyntaxError \/ e = UnmarshalTypeError.

Lemma fails_fold {A S} (P : error -> Prop) (f : S -> A -> result S) s l :
  (forall s x, fails_with P (f s x)) -> fails_with P (fold_res f s l).
Proof. intros Hf. revert s. induction l; intros s; simpl; [done|]. apply fails_bind; auto. Qed.

Lemma decode_scalar_fails {A} (val : json -> option A) old v :
  fails_with (eq UnmarshalTypeError) (decode_scalar val old v).
Proof. destruct v; try done; by apply fails_or_err. Qed.

Lemma decode_file_fails f v : fails_with (eq UnmarshalTypeError) (decode_file f v).
Proof.
  destruct v; try done. apply fails_fold. intros s x. unfold decode_file_member. case_match; [|done].
  apply fails_bind; [apply decode_scalar_fails|done].
Qed.

Lemma decode_cells_fails cells vs : fails_with (eq UnmarshalTypeError) (decode_cells cells vs).
Proof.
  revert cells. induction vs; intros cells; simpl; [done|]. apply fails_bind; [apply decode_file_fails|intros c _].
  by apply fails_bind.
Qed.

Lemma decode_manifest_fails d v : fails_with (eq UnmarshalTypeError) (decode_manifest d v).
Proof.
  destruct v; try done. apply fails_fold. intros s x. unfold decode_member. case_match; [|done]. case_decide.
  - apply fails_bind; [apply decode_scalar_fails|done].
  - apply fails_bind; [|done]. unfold decode_files. repeat case_match; try done.
    apply fails_bind; [apply decode_cells_fails|done].
Qed.

Lemma Unmarshal_Ok data m :
  Unmarshal data = Ok m <-> exists v d, document v data /\ depth v <= maxNestingDepth
    /\ decode_manifest (mkDecoding 0 (mkFileSlice [] 0)) v = Ok d
    /\ m = mkManifest (d_generated_at d) (take (fs_len (d_files d)) (fs_cells (d_files d))).
Proof.
  unfold Unmarshal. rewrite bind_Ok. setoid_rewrite Parse_Ok. setoid_rewrite bind_Ok. split.
  - intros (v & [H1 H2] & d & H3 & H4). injection H4 as <-. by exists v, d.
  - intros (v & d & H1 & H2 & H3 & ->). exists v. split; [done|]. by exists d.
Qed.

(** ** File names are UTF-8 *)
Fixpoint utf8_json (v : json) : Prop :=
  match v with
  | JString s => utf8 s
  | JArray vs => fold_right (fun v P => utf8_json v /\ P) True vs
  | JObject ms => fold_right (fun m P => utf8_json m.2 /\ P) True ms
  | _ => True
  end.

Lemma text_utf8 :
  (forall v t, value_text v t -> utf8_json v)
  /\ (forall vs t, elements_text vs t -> utf8_json (JArray vs))
  /\ (forall ms t, members_text ms t -> utf8_json (JObject ms)).
Proof. apply text_mutind; simpl; auto using unquote_utf8. Qed.

Lemma fold_res_inv {A S} (I : S -> Prop) (Q : A -> Prop) (f : S -> A -> result S) l s s' :
  (forall s x s', I s -> Q x -> f s x = Ok s' -> I s') ->
  fold_right (fun x P => Q x /\ P) True l -> I s -> fold_res f s l = Ok s' -> I s'.
Proof.
  intros Hf. revert s. induction l as [|x l IH]; intros s; simpl; [by intros _ ? [= <-]|].
  intros [Hx Hl] Hs H. bind_inv H. eauto.
Qed.

Definition utf8_file (f : ManifestFile) : Prop := utf8 (Filename f).

Lemma decode_file_utf8 f v f' : utf8_file f -> utf8_json v -> decode_file f v = Ok f' -> utf8_file f'.
Proof.
  intros Hf Hv H. destruct v as [| | | | |ms]; try done; [by injection H as <-|].
  revert H. apply (fold_res_inv _ (fun m => utf8_json m.2)); [|done|done]. clear.
  intros f m f' Hf Hm H. unfold decode_file_member in H. case_match; [|by injection H as <-].
  bind_inv H. injection H as <-. unfold utf8_file. simpl. destruct m.2; simpl in *; try done; by injection E as <-.
Qed.

Lemma decode_cells_utf8 cells vs cells' : Forall utf8_file cells -> utf8_json (JArray vs) ->
  decode_cells cells vs = Ok cells' -> Forall utf8_file cells'.
Proof.
  revert cells cells'. induction vs as [|v vs IH]; intros cells cells' Hc; simpl; [by intros _ [= <-]|].
  intros [Hv Hvs] H. bind_inv H. bind_inv H. injection H as <-. apply List.Forall_cons.
  - eapply decode_file_utf8; [|exact Hv|exact E]. destruct Hc; [by constructor|done].
  - eapply IH; [|exact Hvs|exact E0]. by destruct Hc.
Qed.

Lemma decode_manifest_utf8 d v d' : Forall utf8_file (fs_cells (d_files d)) -> utf8_json v ->
  decode_manifest d v = Ok d' -> Forall utf8_file (fs_cells (d_files d')).
Proof.
  intros Hd Hv H. destruct v as [| | | | |ms]; try done; [by injection H as <-|].
  revert H. apply (fold_res_inv (fun d => Forall utf8_file (fs_cells (d_files d))) (fun m => utf8_json m.2)); [|done|done].
  clear. intros d m d' Hd Hm H. unfold decode_member in H. case_match; [|by injection H as <-].
  case_decide; bind_inv H; injection H as <-; [done|]. unfold decode_files in E. simpl.
  destruct m.2 as [| | | |vs|]; try done; [by injection E as <-|].
  destruct vs as [|v vs]; [by injection E as <-|]. bind_inv E. injection E as <-. by eapply decode_cells_utf8.
Qed.

Lemma i64_back (z c : Z) : i64 (i64 (i64 z + c) - c) = i64 z.
Proof.
  replace (i64 (i64 z + c) - c) with (i64 (i64 z + c) + - c) by lia.
  rewrite (i64_add (i64 z + c) (- c)). replace (i64 z + c + - c) with (i64 z + 0) by lia.
  rewrite (i64_add z 0). f_equal. lia.
Qed.

(** ** Properties *)

(** C26. [LoadManifest] on every branch: a file that cannot be read gives the wrapped
    read error; a file that can is accepted exactly when its whole content is a JSON
    text (RFC 8259) nested at most 10000 deep whose members for the two fields have
    the fields' types, whatever other members hold, and every other content gives a
    wrapped syntax or type error.  It always returns. *)
Theorem LoadManifest_accepts {F : FileSystem} (cacheDir : bytes) :
  match os_ReadFile (manifest_path cacheDir) with
  | inr e => LoadManifest cacheDir = Err (Errorf "upki: reading manifest: %w" [AErr e])
  | inl data =>
      (is_ok (LoadManifest cacheDir)
       <-> exists v, document v data /\ depth v <= maxNestingDepth /\ manifest_typed v)
      /\ fails_with (fun e => exists e', json_error e'
                       /\ e = Errorf "upki: unmarshaling manifest: %w" [AErr e']) (LoadManifest cacheDir)
  end.
Proof.
  unfold LoadManifest. destruct (os_ReadFile _) as [data|e]; [|done]. split.
  - transitivity (exists m, Unmarshal data = Ok m).
    { destruct (Unmarshal data); simpl; split; try done; try (by intros [? ?]). by eexists. }
    setoid_rewrite Unmarshal_Ok. split.
    + intros (m & v & d & H1 & H2 & H3 & _). exists v. do 2 (split; [done|]). apply decode_manifest_ok. by rewrite H3.
    + intros (v & H1 & H2 & H3). apply decode_manifest_ok in H3.
      destruct (decode_manifest _ v) as [d| | |] eqn:E; [|done..]. eexists; by exists v, d.
  - apply fails_wrap, fails_bind.
    + eapply fails_weaken, Parse_fails. intros e <-. exists SyntaxError. by split; [left|].
    + intros v _. apply fails_bind; [|done]. eapply fails_weaken, decode_manifest_fails.
      intros e <-. exists UnmarshalTypeError. by split; [right|].
Qed.

(** *** Repeated arrays *)

(** The cells hold what the arrays decoded so far say. *)
Definition cell (fs : FileSlice) (i : nat) : ManifestFile := default zero_file (fs_cells fs !! i).

Record holds (arrays : list (list json)) (fs : FileSlice) : Prop := {
  ho_cells i : cell fs i = mkManifestFile (last_value string_value [] (cell_names arrays i));
  ho_len : fs_len fs = length (default [] (last arrays));
  ho_fits : (fs_len fs <= length (fs_cells fs))%nat
}.

Lemma holds_empty : holds [] (mkFileSlice [] 0).
Proof. by constructor. Qed.

Lemma decode_cells_Ok cells vs cells' : decode_cells cells vs = Ok cells' ->
  (length vs <= length cells')%nat
  /\ forall i, default zero_file (cells' !! i)
       = match vs !! i with
         | Some v => mkManifestFile (last_value string_value (Filename (default zero_file (cells !! i)))
                       (selected_members file_fields key_filename (object_members v)))
         | None => default zero_file (cells !! i)
         end.
Proof.
  revert cells cells'. induction vs as [|v vs IH]; intros cells cells'; simpl.
  - intros [= <-]. by split; [lia|].
  - intros H. bind_inv H. apply decode_file_Ok in E as [_ E]. bind_inv H. injection H as <-.
    apply IH in E0 as [Hl Hi]. split; [simpl; lia|]. intros [|i]; simpl.
    + destruct a. simpl in E. rewrite E. by destruct cells.
    + rewrite Hi. by destruct cells.
Qed.

Lemma decode_files_holds arrays fs v fs' : holds arrays fs -> decode_files fs v = Ok fs' ->
  holds (match array_elements v with [] => [] | es => arrays ++ [es] end) fs'.
Proof.
  intros [Hc Hn Hf] H. unfold decode_files in H.
  destruct v as [| | | |[|v vs]|]; try done; try (injection H as <-; apply holds_empty).
  bind_inv H. injection H as <-. apply decode_cells_Ok in E as [Hl Hi]. cbn [array_elements].
  constructor; [|by rewrite last_snoc|done].
  intros i. unfold cell. cbn [fs_cells]. rewrite Hi. fold (cell fs i). rewrite Hc.
  unfold cell_names. rewrite bind_app, last_value_app. cbn [mbind list_bind]. rewrite app_nil_r.
  by destruct ((v :: vs) !! i).
Qed.

Lemma fold_files_holds arrays fs vs fs' : holds arrays fs -> fold_res decode_files fs vs = Ok fs' ->
  holds (fold_left (fun arrays v => match array_elements v with [] => [] | es => arrays ++ [es] end) vs arrays) fs'.
Proof.
  revert arrays fs. induction vs as [|v vs IH]; intros arrays fs Hh; simpl; [by intros [= <-]|].
  intros H. bind_inv H. eapply IH; [|exact H]. by eapply decode_files_holds.
Qed.

Lemma fold_files_read vs fs : fold_res decode_files (mkFileSlice [] 0) vs = Ok fs ->
  take (fs_len fs) (fs_cells fs) = files_read vs.
Proof.
  intros [Hc Hn Hf]%(fold_files_holds [] _ _ _ holds_empty). fold (live_arrays vs) in Hc, Hn.
  apply list_eq. intros i. unfold files_read. rewrite list_lookup_fmap, <- Hn.
  destruct (Nat.lt_ge_cases i (fs_len fs)) as [Hi|Hi].
  - rewrite lookup_take_lt, lookup_seq_lt by done. simpl. rewrite <- Hc. unfold cell.
    by destruct (lookup_lt_is_Some_2 (fs_cells fs) i ltac:(lia)) as [x ->].
  - by rewrite lookup_take_ge, lookup_seq_ge by done.
Qed.

(** Not repeated, the member reads as its elements. *)
Lemma files_read_once vs : (length vs <= 1)%nat ->
  files_read vs = (fun f => mkManifestFile (file_name f)) <$> (vs ≫= array_elements).
Proof.
  destruct vs as [|v [|? ?]]; simpl; [done| |lia]. intros _. rewrite app_nil_r.
  unfold files_read, live_arrays. simpl. destruct (array_elements v) as [|e es]; [done|].
  apply list_eq. intros i. rewrite !list_lookup_fmap. cbn [app last default length].
  destruct (Nat.lt_ge_cases i (length (e :: es))) as [Hi|Hi].
  - rewrite lookup_seq_lt by done. destruct (lookup_lt_is_Some_2 (e :: es) i Hi) as [x Hx].
    unfold cell_names. simpl. by rewrite app_nil_r, Hx.
  - by rewrite lookup_seq_ge, lookup_ge_None_2 by done.
Qed.

(** C27. What an accepted manifest reads as, members repeated or not.  The generation
    time is the last non-null number among the members named generated_at (exactly, or
    up to letter case), 0 without one, and fits 64 bits.  Among the members named files,
    a null or an empty array starts over; of the arrays since, the last gives the number
    of files, and file [i] has the last string among the filename members of all their
    elements [i]: an element without a name keeps the one an earlier array gave its
    position.  So if files is not repeated, the files are its elements in order, each
    with its last filename.  All other members, at any depth, are without effect.  Every
    file name is well-formed UTF-8, whatever the file's bytes are. *)
Theorem LoadManifest_reads {F : FileSystem} (cacheDir : bytes) (m : Manifest) :
  LoadManifest cacheDir = Ok m ->
  exists data v, os_ReadFile (manifest_path cacheDir) = inl data /\ document v data
    /\ (let members name := selected_members manifest_fields name (object_members v) in
        GeneratedAt m = last_value number_value 0 (members key_generated_at)
        /\ Files m = files_read (members key_files)
        /\ ((length (members key_files) <= 1)%nat ->
            Files m = (fun f => mkManifestFile (file_name f)) <$> (members key_files ≫= array_elements)))
    /\ is_u64 (GeneratedAt m)
    /\ Forall (fun f => utf8 (Filename f)) (Files m).
Proof.
  unfold LoadManifest. destruct (os_ReadFile _) as [data|e]; [|done]. intros H.
  apply wrap_err_Ok, Unmarshal_Ok in H as (v & d & Hv & _ & Hd & ->). exists data, v. do 2 (split; [done|]).
  assert (d_generated_at d = last_value number_value 0 (selected_members manifest_fields key_generated_at (object_members v))
    /\ fold_res decode_files (mkFileSlice [] 0) (selected_members manifest_fields key_files (object_members v)) = Ok (d_files d))
    as [Hg Hf].
  { destruct v as [| | | | |ms]; try done; [by injection Hd as <-|].
    apply fold_members in Hd as [H1 H2]. by apply fold_scalar_Ok in H1 as [_ ->]. }
  apply fold_files_read in Hf as Hread. cbn [GeneratedAt Files]. rewrite Hg, Hread. repeat split.
  - apply files_read_once.
  - apply last_number_u64.
  - apply last_number_u64.
  - rewrite <- Hread. apply Forall_take. eapply (decode_manifest_utf8 (mkDecoding 0 (mkFileSlice [] 0))); [by constructor| |exact Hd].
    destruct Hv as [w v t w' _ Ht _]. by apply text_utf8 in Ht.
Qed.

(** C39. [GeneratedTime] reads the manifest's uint64 as an int64: for a value below
    2^63 the time's Unix seconds are that value, for one from 2^63 on they are
    negative; and times order as the values do as long as these are at least
    62135596800 below 2^63, the distance of the epoch from year 1. *)
Theorem GeneratedTime_seconds (m m' : Manifest) :
  is_u64 (GeneratedAt m) -> is_u64 (GeneratedAt m') ->
  (GeneratedAt m < 2 ^ 63 -> Time_Unix (GeneratedTime m) = GeneratedAt m)
  /\ (2 ^ 63 <= GeneratedAt m -> Time_Unix (GeneratedTime m) = GeneratedAt m - 2 ^ 64)
  /\ (GeneratedAt m < 2 ^ 63 - 62135596800 -> GeneratedAt m' < 2 ^ 63 - 62135596800 ->
      Time_Before (GeneratedTime m) (GeneratedTime m') = (GeneratedAt m <? GeneratedAt m')).
Proof.
  intros H H'. unfold is_u64 in *. unfold GeneratedTime, Time_Unix, Time_Before, time_Unix. cbn [ext].
  change unixToInternal with 62135596800.
  rewrite i64_back. split; [|split].
  - intros Hlt. apply i64_small. lia.
  - intros Hge. unfold i64. rewrite Z.mod_small by lia. destruct (Z.ltb_spec (GeneratedAt m) (2 ^ 63)); lia.
  - intros H1 H2. rewrite !(i64_small (GeneratedAt _)) by lia. by rewrite !i64_small by lia;
      destruct (Z.ltb_spec (GeneratedAt m + 62135596800) (GeneratedAt m' + 62135596800)),
        (Z.ltb_spec (GeneratedAt m) (GeneratedAt m')); lia || done.
Qed.

(** ** Witnesses *)

(** A file system with one manifest: members in any case and order, unknown ones of
    any shape, escapes, a null, white space. *)
Definition q (s : string) : bytes := dquote :: go_string s ++ [dquote].
Definition sample_manifest : bytes :=
  go_string " {" ++ q "comment" ++ go_string ": [1, {" ++ q "files" ++ go_string ": 7}, -0.5e3]," ++ q "Files"
  ++ go_string ":[ {" ++ q "filename" ++ go_string ":" ++ q "a\u002efilter" ++ go_string "," ++ q "hash" ++ go_string ":null},{}],"
  ++ q "generated_at" ++ go_string " : 1700000000, " ++ q "GENERATED_AT" ++ go_string ":null}".

Definition manifest_fs (data : bytes) : FileSystem := {|
  os_Open _ _ := inr ErrNotExist;
  os_ReadFile path := if bool_decide (path = go_string "/c/revocation/manifest.json") then inl data else inr ErrNotExist
|}.

Definition sample_loaded : Manifest :=
  mkManifest 1700000000 [mkManifestFile (go_string "a.filter"); mkManifestFile []].

(** A repeated array decodes into the cells of the earlier one: the element without a
    name keeps the name its cell had; an empty array in between starts over. *)
Definition named (s : string) : bytes := go_string "{" ++ q "filename" ++ go_string ":" ++ q s ++ go_string "}".
Definition repeated_manifest : bytes :=
  go_string "{" ++ q "files" ++ go_string ":[" ++ named "a" ++ go_string ",{}],"
  ++ q "files" ++ go_string ":[{}," ++ named "b" ++ go_string "]," ++ q "FILES" ++ go_string ":[{}]}".

Example repeated_files : Unmarshal repeated_manifest = Ok (mkManifest 0 [mkManifestFile (go_string "a")]).
Proof. vm_compute. reflexivity. Qed.

Example emptied_files :
  Unmarshal (go_string "{" ++ q "files" ++ go_string ":[" ++ named "a" ++ go_string "]," ++ q "files"
    ++ go_string ":[]," ++ q "files" ++ go_string ":[{}]}")
  = Ok (mkManifest 0 [mkManifestFile []]).
Proof. vm_compute. reflexivity. Qed.

(** The theorem at the sample, and at the repeated arrays. *)
Lemma LoadManifest_reads_witness :
  (exists data v, os_ReadFile (FileSystem := manifest_fs sample_manifest) (manifest_path (go_string "/c")) = inl data
     /\ document v data /\ GeneratedAt sample_loaded = 1700000000)
  /\ exists v, document v repeated_manifest
     /\ files_read (selected_members manifest_fields key_files (object_members v)) = [mkManifestFile (go_string "a")].
Proof.
  assert (LoadManifest (F := manifest_fs sample_manifest) (go_string "/c") = Ok sample_loaded) as H
    by (vm_compute; reflexivity).
  assert (LoadManifest (F := manifest_fs repeated_manifest) (go_string "/c")
          = Ok (mkManifest 0 [mkManifestFile (go_string "a")])) as H' by (vm_compute; reflexivity).
  split.
  - destruct (LoadManifest_reads (F := manifest_fs sample_manifest) (go_string "/c") sample_loaded H)
      as (data & v & H1 & H2 & _). exists data, v. exact (conj H1 (conj H2 eq_refl)).
  - destruct (LoadManifest_reads (F := manifest_fs repeated_manifest) (go_string "/c") _ H')
      as (data & v & H1 & H2 & (_ & H3 & _) & _).
    exists v. assert (data = repeated_manifest) as -> by (vm_compute in H1; vm_compute; congruence).
    split; [exact H2|]. symmetry. exact H3.
Defined.

Lemma GeneratedTime_seconds_witness :
  Time_Unix (GeneratedTime (mkManifest 1700000000 [])) = 1700000000
  /\ Time_Unix (GeneratedTime (mkManifest (2 ^ 64 - 1) [])) = -1.
Proof.
  split.
  - apply (GeneratedTime_seconds (mkManifest 1700000000 []) (mkManifest 0 [])); unfold is_u64; simpl; lia.
  - apply (GeneratedTime_seconds (mkManifest (2 ^ 64 - 1) []) (mkManifest 0 [])); unfold is_u64; simpl; lia.
Defined.
