(* ===== verification/Cmd.v ===== *)
(** * The commands ([cmd/upki-https/main.go], [cmd/crlite-query/main.go])

    The policy of the certificate verifier of upki-https, and crlite-query as a
    function of its arguments, the files and the clock.  PEM decoding, certificate
    parsing and signature checking are the standard library's and are parameters;
    what is written to the terminal on the way is not modelled. *)
From stdpp Require Import pretty.
From S2P Require Import Prelude Codec Cryptobyte GoIO UpkiIndex Clubcard CrliteParser Sha256 Crlite Sct Checker Path Cache.

(** ** upki-https *)
Inductive policy := policyDefault | policyStrict.
#[export] Instance policy_eq_dec : EqDecision policy.
Proof. solve_decision. Defined.

Section Verifier.
Context {C : Cryptobyte} {M : MapRange} {AP : AllocPolicy} {SS : SpanSort}.

(** The loop over the verified chains: whether some chain was NotRevoked, or the
    error that ends it. *)
Fixpoint verify_chains {Op : Openers} (i : Z) (chains : list (list Certificate)) (c : Checker)
    (sawNotRevoked : bool) (w : World) : World * Checker * result bool :=
  match chains with
  | [] => (w, c, Ok sawNotRevoked)
  | chain :: chains =>
      match Checker_Check c chain w with
      | (w, c, Ok (_, Some _)) => verify_chains (i + 1) chains c sawNotRevoked w
      | (w, c, Ok (StatusRevoked, None)) =>
          (w, c, Err (Errorf "leaf certificate revoked (chain %d)" [AInt i]))
      | (w, c, Ok (StatusNotRevoked, None)) => verify_chains (i + 1) chains c true w
      | (w, c, Ok (StatusNotCovered, None)) => verify_chains (i + 1) chains c sawNotRevoked w
      | (w, c, Err e) => (w, c, Err e)
      | (w, c, Panic) => (w, c, Panic)
      | (w, c, OutOfFuel) => (w, c, OutOfFuel)
      end
  end.

(** The callback [verifier] returns; [Err] is a rejected connection. *)
Definition verifier {F : FileSystem} (cacheDir : bytes) (pol : policy)
    (verifiedChains : list (list Certificate)) (w : World) : World * result unit :=
  let Op := DirOpener (Join [cacheDir; RevocationSubdir]) in
  match verifiedChains with
  | [] => (w, Err (Sentinel "no verified chains"))
  | _ =>
      match NewChecker cacheDir w with
      | (w, Err err) => (w, Err (Errorf "opening upki cache at %s: %w" [ABytes cacheDir; AErr err]))
      | (w, Panic) => (w, Panic)
      | (w, OutOfFuel) => (w, OutOfFuel)
      | (w, Ok c) =>
          let '(w, c, r) := verify_chains 0 verifiedChains c false w in
          let '(w, _, _) := Close c w in
          (w, sawNotRevoked ← r;
              if negb sawNotRevoked && bool_decide (pol = policyStrict)
              then Err (Sentinel "strict policy: no chain produced a definitive non-revoked answer")
              else Ok tt)
      end
  end.

End Verifier.

(** ** crlite-query *)

(** A parsed certificate: the fields the code reads, times as instants. *)
Record ParsedCertificate := mkParsed { cert : Certificate; NotBefore : Z; NotAfter : Z }.

Class Platform := {
  ReadFile : bytes -> bytes + error;
  pem_Decode : bytes -> option bytes;
  ParseCertificate : bytes -> ParsedCertificate + error;
  CheckSignatureFrom : ParsedCertificate -> ParsedCertificate -> option error;
  time_Now : Z
}.

(** How the process ends: the exit status 1 and a line on stderr, or a line on stdout
    and status 0. *)
Inductive outcome := Exit1 (message : string) | Stdout (line : bytes).

Section Query.
Context {P : Platform} {C : Cryptobyte} {M : MapRange}.

Definition readCert (path : bytes) : ParsedCertificate + error :=
  match ReadFile path with
  | inr err => inr err
  | inl data =>
      let der := match pem_Decode data with Some block => block | None => data end in
      ParseCertificate der
  end.

Definition crlite_query (args : list bytes) : result outcome :=
  match args with
  | [_; filterPath; issuerPath; eePath] =>
      match ReadFile filterPath with
      | inr _ => Ok (Exit1 "Could not read filter")
      | inl filterBytes =>
          match FromBytes filterBytes with
          | Err _ => Ok (Exit1 "Could not parse filter")
          | Panic => Panic
          | OutOfFuel => OutOfFuel
          | Ok filter =>
              match readCert issuerPath, readCert eePath with
              | inr _, _ => Ok (Exit1 "Could not read issuer certificate")
              | inl _, inr _ => Ok (Exit1 "Could not read end-entity certificate")
              | inl issuer, inl ee =>
                  match CheckSignatureFrom ee issuer with
                  | Some _ => Ok (Exit1 "Invalid signature (wrong issuer certificate?)")
                  | None =>
                      if (time_Now <? NotBefore ee) || (NotAfter ee <? time_Now)
                      then Ok (Exit1 "End-entity certificate is expired") else
                      match EmbeddedSCTs (cert ee) with
                      | Panic => Panic
                      | OutOfFuel => OutOfFuel
                      | Err _ | Ok [] => Ok (Exit1 "End entity certificate has no SCTs")
                      | Ok scts =>
                          match RawSerial (cert ee) with
                          | Panic => Panic
                          | OutOfFuel => OutOfFuel
                          | Err _ => Ok (Exit1 "Could not extract serial: %v")
                          | Ok rawSerial =>
                              let issuerSpkiHash := sha256_Sum256 (RawSubjectPublicKeyInfo (cert issuer)) in
                              status ← RevocationFilter_Contains filter
                                         (NewKey issuerSpkiHash rawSerial) (check_timestamps scts);
                              line ← Crlite.Status_String (Crlite.Status_int status);
                              Ok (Stdout line)
                          end
                      end
                  end
              end
          end
      end
  | [] => Panic
  | _ => Ok (Exit1 "Usage: %s <filter> <issuer certificate> <end entity certificate>")
  end.

End Query.

(** ** Specification *)

(** The results of checking every chain, in order. *)
Fixpoint check_all {C : Cryptobyte} {M : MapRange} {AP : AllocPolicy} {SS : SpanSort} {Op : Openers}
    (chains : list (list Certificate)) (c : Checker) (w : World) : list (Status * option error) :=
  match chains with
  | [] => []
  | chain :: chains =>
      match Checker_Check c chain w with
      | (w, c, Ok ret) => ret :: check_all chains c w
      | _ => []
      end
  end.

(** The policy: the first confirmed revocation rejects; under the strict policy the
    lack of any conclusive answer rejects too; an error counts as no answer. *)
Definition revoked_result (r : Status * option error) : bool :=
  match r with (StatusRevoked, None) => true | _ => false end.
Definition conclusive_result (r : Status * option error) : bool :=
  match r with (StatusNotRevoked, None) => true | _ => false end.

Definition policy_decision (pol : policy) (results : list (Status * option error)) : result unit :=
  match list_find revoked_result results with
  | Some (i, _) => Err (Errorf "leaf certificate revoked (chain %d)" [AInt (Z.of_nat i)])
  | None =>
      if bool_decide (pol = policyStrict) && negb (existsb conclusive_result results)
      then Err (Sentinel "strict policy: no chain produced a definitive non-revoked answer")
      else Ok tt
  end.

(** ** Lemmas *)
Section Lemmas.
Context {C : Cryptobyte} {L : CryptobyteLaws C} {M : MapRange} {AP : AllocPolicy} {SS : SpanSort}.

Lemma verify_chains_spec {Op : Openers} i chains c saw w :
  progressing -> wf_checker c ->
  exists w' c', verify_chains i chains c saw w
    = (w', c', match list_find revoked_result (check_all chains c w) with
               | Some (k, _) => Err (Errorf "leaf certificate revoked (chain %d)" [AInt (i + Z.of_nat k)])
               | None => Ok (saw || existsb conclusive_result (check_all chains c w))
               end)
    /\ wf_checker c' /\ transfers c w c' w'.
Proof.
  intros Hp. revert i c saw w. induction chains as [|chain chains IH]; intros i c saw w Hwf.
  { exists w, c. simpl. rewrite orb_false_r. split; [done|]. split; [done|]. by apply transfers_quiet. }
  cbn [verify_chains check_all].
  destruct (Checker_Check_spec c chain w Hp Hwf) as (w1 & c1 & status & err & -> & Hwf1 & Ht1 & He).
  assert (forall saw', saw' = saw || conclusive_result (status, err) ->
    revoked_result (status, err) = false ->
    exists w' c', verify_chains (i + 1) chains c1 saw' w1
    = (w', c', match list_find revoked_result ((status, err) :: check_all chains c1 w1) with
               | Some (k, _) => Err (Errorf "leaf certificate revoked (chain %d)" [AInt (i + Z.of_nat k)])
               | None => Ok (saw || existsb conclusive_result ((status, err) :: check_all chains c1 w1))
               end) /\ wf_checker c' /\ transfers c w c' w') as Hgo.
  { intros saw' -> Hne.
    destruct (IH (i + 1) c1 (saw || conclusive_result (status, err)) w1 Hwf1)
      as (w2 & c2 & -> & Hwf2 & Ht2).
    exists w2, c2. split; [|split; [done|by eapply transfers_trans]].
    cbn [list_find]. rewrite Hne. cbn [existsb]. rewrite orb_assoc.
    destruct (list_find _ _) as [[k x]|]; simpl; [|done]. do 4 f_equal. f_equal. lia. }
  destruct status, err as [e|]; try (apply Hgo; [by rewrite ?orb_false_r, ?orb_true_r|done]).
  exists w1, c1. split; [|done]. simpl. do 3 f_equal. simpl. by rewrite Z.add_0_r.
Qed.

(** The verifier's decision, and its handles. *)
Lemma verifier_decides {F : FileSystem} (cacheDir : bytes) (pol : policy)
    (chains : list (list Certificate)) (w : World) (open : gset nat) :
  let Op := DirOpener (Join [cacheDir; RevocationSubdir]) in
  progressing -> live w = Some open ->
  live (verifier cacheDir pol chains w).1 = Some open
  /\ (verifier cacheDir pol chains w).2
     = match chains, NewChecker cacheDir w with
       | [], _ => Err (Sentinel "no verified chains")
       | _, (_, Err e) => Err (Errorf "opening upki cache at %s: %w" [ABytes cacheDir; AErr e])
       | _, (w1, Ok c) => policy_decision pol (check_all chains c w1)
       | _, _ => Panic
       end.
Proof.
  intros Op Hp Hl. unfold verifier, NewChecker. fold Op. destruct chains as [|chain chains]; [by split|].
  pose proof (NewCheckerWith_spec w Hp) as Hn.
  destruct (NewCheckerWith w) as [w1 [c1|e| |]]; [| |done|done].
  2: { split; [by apply Hn|done]. }
  destruct Hn as (Hwf & _ & _ & Ht). remember (chain :: chains) as all eqn:Eall.
  destruct (verify_chains_spec 0 all c1 false w1 Hp Hwf) as (w2 & c2 & -> & Hwf2 & Ht2).
  destruct (Close_spec c2 w2 Hwf2) as (w3 & cerr & -> & Ht3). simpl. split.
  - destruct (transfers_trans _ _ _ _ _ _ Ht (transfers_trans _ _ _ _ _ _ Ht2 Ht3) open) as [H _];
      [by rewrite owns_None, (left_id_L ∅ (∪))|set_solver|].
    by rewrite H, owns_None, (left_id_L ∅ (∪)).
  - subst all. cbv iota. unfold policy_decision. destruct (list_find _ _) as [[k x]|]; [done|].
    go_simp. cbn [orb]. rewrite andb_comm. by destruct (_ && _).
Qed.

Lemma Status_String_total i : exists line, Crlite.Status_String (Crlite.Status_int i) = Ok line.
Proof. destruct i; by eexists; vm_compute. Qed.

(** Two reads of the same file gave the same thing. *)
Ltac same_reads :=
  repeat match goal with
  | H : ?x = inl ?a, H' : ?x = inl ?b |- _ => assert (a = b) by congruence; clear H'; subst
  end.

(** A branch that exits with status 1: none of the conditions for an answer hold. *)
Ltac no_answer :=
  split; [by eexists|]; intros line; split; [done|];
  intros (? & ? & ? & ? & ? & ? & ? & ? & ? & ?); destruct_and?; simplify_eq; same_reads; (done || congruence || lia).

Lemma crlite_query_lines {P : Platform} (prog : bytes) (args : list bytes) :
  (exists o, crlite_query (prog :: args) = Ok o)
  /\ forall line, crlite_query (prog :: args) = Ok (Stdout line) <->
     exists f i e data filter issuer ee scts serial,
       args = [f; i; e] /\ ReadFile f = inl data /\ FromBytes data = Ok filter
       /\ readCert i = inl issuer /\ readCert e = inl ee
       /\ CheckSignatureFrom ee issuer = None /\ NotBefore ee <= time_Now <= NotAfter ee
       /\ EmbeddedSCTs (cert ee) = Ok scts /\ scts <> [] /\ RawSerial (cert ee) = Ok serial
       /\ Ok line = Crlite.Status_String (Crlite.Status_int
            (contains_spec filter (check_key (cert ee) (cert issuer) serial) (check_timestamps scts))).
Proof.
  unfold crlite_query.
  destruct args as [|f [|i [|e [|x args]]]]; try no_answer.
  destruct (ReadFile f) as [data|err] eqn:Ef; [|no_answer].
  pose proof (FromBytes_total data) as Ht.
  destruct (FromBytes data) as [filter|err| |] eqn:Ed; simpl in Ht; [|no_answer|done|done].
  destruct (readCert i) as [issuer|err] eqn:Ei; [|no_answer].
  destruct (readCert e) as [ee|err] eqn:Ee; [|no_answer].
  destruct (CheckSignatureFrom ee issuer) as [err|] eqn:Es; [no_answer|].
  destruct (Z.ltb_spec time_Now (NotBefore ee)), (Z.ltb_spec (NotAfter ee) time_Now); cbn [orb]; try no_answer.
  pose proof (EmbeddedSCTs_fails (cert ee)) as Hsct.
  destruct (EmbeddedSCTs (cert ee)) as [[|s scts]|err| |] eqn:Ex; simpl in Hsct; try done; try no_answer.
  pose proof (RawSerial_total (cert ee)) as Hser.
  destruct (RawSerial (cert ee)) as [serial|err| |] eqn:Er; simpl in Hser; try done; try no_answer.
  destruct (FromBytes_wf_filter _ _ Ed) as [Hf _].
  rewrite RevocationFilter_Contains_eq by done. go_simp.
  fold (check_key (cert ee) (cert issuer) serial).
  set (st := contains_spec _ _ _). destruct (Status_String_total st) as [line Hline].
  rewrite Hline. go_simp. split; [by eexists|]. intros line'. split.
  - intros [= <-]. exists f, i, e, data, filter, issuer, ee, (s :: scts), serial.
    do 10 (split; [done|]). by rewrite <- Hline.
  - intros (? & ? & ? & data' & filter' & issuer' & ee' & scts' & serial'
      & [= <- <- <-] & H1 & H2 & H3 & H4 & H5 & H6 & H7 & H8 & H9 & H10).
    assert (data' = data) as -> by congruence. assert (filter' = filter) as -> by congruence.
    assert (issuer' = issuer) as -> by congruence. assert (ee' = ee) as -> by congruence.
    assert (scts' = s :: scts) as -> by congruence. assert (serial' = serial) as -> by congruence.
    fold st in H10. rewrite Hline in H10. by injection H10 as ->.
Qed.

(** ** Properties *)

(** C34. The verifier of upki-https: without verified chains, or if the cache cannot be
    opened, the connection is rejected; otherwise its decision is the policy applied
    to the results of checking every chain in order (it may stop at the first
    revoked one), an error counting as unknown.  It never panics, and every handle
    it opened is closed. *)
Theorem verifier_policy {F : FileSystem} (cacheDir : bytes) (pol : policy)
    (chains : list (list Certificate)) (w : World) (open : gset nat) :
  let Op := DirOpener (Join [cacheDir; RevocationSubdir]) in
  progressing -> live w = Some open ->
  live (verifier cacheDir pol chains w).1 = Some open
  /\ (verifier cacheDir pol chains w).2
     = match chains, NewChecker cacheDir w with
       | [], _ => Err (Sentinel "no verified chains")
       | _, (_, Err e) => Err (Errorf "opening upki cache at %s: %w" [ABytes cacheDir; AErr e])
       | _, (w1, Ok c) => policy_decision pol (check_all chains c w1)
       | _, _ => Panic
       end.
Proof. by apply verifier_decides. Qed.

(** C36. crlite-query always ends by itself: it prints a status exactly when the files
    load, the signature and the validity period hold and the certificate has SCTs and
    a serial number, and then the status is the filter's answer for the issuer's key
    hash, the raw serial and the SCTs; in every other case it exits with status 1. *)
Theorem crlite_query_spec {P : Platform} (prog : bytes) (args : list bytes) :
  (exists o, crlite_query (prog :: args) = Ok o)
  /\ forall line, crlite_query (prog :: args) = Ok (Stdout line) <->
     exists f i e data filter issuer ee scts serial,
       args = [f; i; e] /\ ReadFile f = inl data /\ FromBytes data = Ok filter
       /\ readCert i = inl issuer /\ readCert e = inl ee
       /\ CheckSignatureFrom ee issuer = None /\ NotBefore ee <= time_Now <= NotAfter ee
       /\ EmbeddedSCTs (cert ee) = Ok scts /\ scts <> [] /\ RawSerial (cert ee) = Ok serial
       /\ Ok line = Crlite.Status_String (Crlite.Status_int
            (contains_spec filter (check_key (cert ee) (cert issuer) serial) (check_timestamps scts))).
Proof. apply crlite_query_lines. Qed.

End Lemmas.

(** ** Witnesses *)
Lemma verifier_policy_witness :
  (verifier (F := sample_fs) (go_string "/c") policyStrict [sample_chain; sample_chain] []).2 = Ok tt
  /\ (verifier (F := sample_fs) (go_string "/c") policyStrict [[sample_cert]] []).2
     = Err (Sentinel "strict policy: no chain produced a definitive non-revoked answer").
Proof.
  pose proof (fun chains => proj2 (verifier_policy (F := sample_fs) (go_string "/c") policyStrict
    chains [] ∅ (sample_fs_progressing _) eq_refl)) as H.
  split; rewrite H; vm_compute; reflexivity.
Defined.

(** Files by name, certificates by content, a clock at 5. *)
Definition sample_platform : Platform := {|
  ReadFile path := if bool_decide (path = go_string "filter")
                   then inl (sample_filter_file sample_issuer false)
                   else if bool_decide (path = go_string "missing") then inr ErrNotExist else inl [];
  pem_Decode _ := None;
  ParseCertificate _ := inl (mkParsed sample_cert 0 10);
  CheckSignatureFrom _ _ := None;
  time_Now := 5
|}.

Lemma crlite_query_spec_witness :
  crlite_query (P := sample_platform) (map go_string ["q"; "filter"; "i"; "e"]) = Ok (Stdout (go_string "Revoked"))
  /\ forall line, crlite_query (P := sample_platform) (map go_string ["q"; "missing"; "i"; "e"]) <> Ok (Stdout line).
Proof.
  split.
  - apply (crlite_query_spec (P := sample_platform) (go_string "q") (map go_string ["filter"; "i"; "e"])).
    exists (go_string "filter"), (go_string "i"), (go_string "e"),
      (sample_filter_file sample_issuer false),
      (clubcard_of (mkWire [(sample_log, mkInterval 100 300)]
         [(sample_issuer, mkWireMeta 1 1 0 1 0 false [])] [[0; 0; 0; 0]] [0; 0; 0; 0])),
      (mkParsed sample_cert 0 10), (mkParsed sample_cert 0 10), sample_scts, [Init.Byte.x00; Init.Byte.xff].
    split; [reflexivity|]. split; [reflexivity|]. split; [vm_compute; reflexivity|].
    split; [reflexivity|]. split; [reflexivity|]. split; [reflexivity|]. split; [simpl; lia|].
    split; [apply sample_scts_ok|]. split; [apply sample_scts_some|]. split; [apply sample_serial_ok|].
    vm_compute. reflexivity.
  - intros line H. apply (crlite_query_spec (P := sample_platform) (go_string "q") (map go_string ["missing"; "i"; "e"])) in H.
    destruct H as (f & i & e & data & filter & issuer & ee & scts & serial & [= <- _ _] & H & _).
    discriminate H.
Defined.
