(* ===== verification/Flag.v ===== *)
(** * Command-line flags ([flag] of the Go standard library)

    [FlagSet.Parse] for string and boolean flags under [flag.ExitOnError], the way
    [cmd/upki-https/main.go] uses the package. *)
From S2P Require Import Prelude.

(** The value of a defined flag; the constructor is its type. *)
Inductive flag_value := VString (s : bytes) | VBool (b : bool).

(** [strconv.ParseBool] *)
Definition ParseBool (str : bytes) : option bool :=
  if bool_decide (str ∈ map go_string ["1"; "t"; "T"; "true"; "TRUE"; "True"]%string) then Some true
  else if bool_decide (str ∈ map go_string ["0"; "f"; "F"; "false"; "FALSE"; "False"]%string) then Some false
  else None.

Definition minus : byte := Init.Byte.x2d.
Definition equals : byte := Init.Byte.x3d.

(** One argument, as [parseOne] reads it. *)
Inductive arg := NotFlag | Terminator | BadSyntax | IsFlag (name : bytes) (value : option bytes).

(** The loop that looks for the equals sign. *)
Fixpoint split_value (name : bytes) : bytes * option bytes :=
  match name with
  | [] => ([], None)
  | c :: t => if bool_decide (c = equals) then ([], Some t)
              else let '(n, v) := split_value t in (c :: n, v)
  end.

Definition flag_name (name : bytes) : arg :=
  match name with
  | [] => BadSyntax
  | c :: t => if bool_decide (c = minus) || bool_decide (c = equals) then BadSyntax
              else let '(n, v) := split_value t in IsFlag (c :: n) v
  end.

Definition classify (s : bytes) : arg :=
  match s with
  | c1 :: c2 :: t =>
      if bool_decide (c1 = minus)
      then if bool_decide (c2 = minus)
           then match t with [] => Terminator | _ => flag_name t end
           else flag_name (c2 :: t)
      else NotFlag
  | _ => NotFlag
  end.

(** [Parse] returns with the flags' values and the remaining arguments, or the process
    ends: with status 0 after a request for help, otherwise with status 2. *)
Inductive parsed := Parsed (values : gmap bytes flag_value) (args : list bytes) | ExitWith (code : Z).

Definition undefined_flag (name : bytes) : parsed :=
  if bool_decide (name = go_string "help") || bool_decide (name = go_string "h")
  then ExitWith 0 else ExitWith 2.

Fixpoint Parse (values : gmap bytes flag_value) (args : list bytes) : parsed :=
  match args with
  | [] => Parsed values []
  | s :: rest =>
      match classify s with
      | NotFlag => Parsed values args
      | Terminator => Parsed values rest
      | BadSyntax => ExitWith 2
      | IsFlag name value =>
          match values !! name with
          | None => undefined_flag name
          | Some (VBool _) =>
              match ParseBool (default (go_string "true") value) with
              | Some b => Parse (<[name := VBool b]> values) rest
              | None => ExitWith 2
              end
          | Some (VString _) =>
              match value, rest with
              | Some v, _ => Parse (<[name := VString v]> values) rest
              | None, v :: rest => Parse (<[name := VString v]> values) rest
              | None, [] => ExitWith 2
              end
          end
      end
  end.

Definition get_string (values : gmap bytes flag_value) (name : bytes) : bytes :=
  match values !! name with Some (VString s) => s | _ => [] end.
Definition get_bool (values : gmap bytes flag_value) (name : bytes) : bool :=
  match values !! name with Some (VBool b) => b | _ => false end.

(** ** Lemmas *)

(** Parsing keeps the set of flags and their types. *)
Definition same_type (a b : flag_value) : Prop :=
  match a, b with VString _, VString _ | VBool _, VBool _ => True | _, _ => False end.
Definition same_flags (a b : gmap bytes flag_value) : Prop :=
  forall name, match a !! name, b !! name with
               | Some x, Some y => same_type x y
               | None, None => True
               | _, _ => False
               end.

Lemma same_flags_refl values : same_flags values values.
Proof. intros name. by destruct (values !! name) as [[]|]. Qed.

Lemma same_type_trans a b c : same_type a b -> same_type b c -> same_type a c.
Proof. by destruct a, b, c. Qed.

Lemma same_flags_trans a b c : same_flags a b -> same_flags b c -> same_flags a c.
Proof.
  intros H1 H2 name. specialize (H1 name). specialize (H2 name).
  destruct (a !! name), (b !! name), (c !! name); try done. by eapply same_type_trans.
Qed.

Lemma same_flags_insert values name x y :
  values !! name = Some x -> same_type x y -> same_flags values (<[name := y]> values).
Proof.
  intros Hx Ht n. destruct (decide (n = name)) as [->|Hn].
  - by rewrite Hx, lookup_insert_eq.
  - rewrite lookup_insert_ne by done. by destruct (values !! n) as [[]|].
Qed.

(** Setting a defined flag to a value of its type and going on. *)
Lemma same_flags_step values values' name x y (used used' args rest : list bytes) :
  values !! name = Some x -> same_type x y ->
  (same_flags (<[name := y]> values) values' /\ args = used' ++ rest) ->
  same_flags values values' /\ used ++ args = (used ++ used') ++ rest.
Proof.
  intros Hx Ht [H ->]. split; [|by rewrite <- app_assoc].
  eapply same_flags_trans; [by eapply same_flags_insert|done].
Qed.

(** [Parse] ends the process with status 0 or 2, or keeps the flags' types and leaves a
    tail of the arguments. *)
Definition parsed_ok (values : gmap bytes flag_value) (args : list bytes) (r : parsed) : Prop :=
  match r with
  | Parsed values' rest => exists used, same_flags values values' /\ args = used ++ rest
  | ExitWith code => code = 0 \/ code = 2
  end.

Lemma parsed_ok_step values name x y used args r :
  values !! name = Some x -> same_type x y ->
  parsed_ok (<[name := y]> values) args r -> parsed_ok values (used ++ args) r.
Proof.
  intros Hx Ht. destruct r as [values' rest|]; [|done]. intros [used' H].
  exists (used ++ used'). by eapply same_flags_step.
Qed.

Lemma Parse_spec args values : parsed_ok values args (Parse values args).
Proof.
  revert values. induction args as [args IH] using (induction_ltof1 _ (@length bytes)); unfold ltof in IH.
  intros values. destruct args as [|s rest]; [by exists []; split; [apply same_flags_refl|]|].
  cbn [Parse]. destruct (classify s) as [| | |name value] eqn:Ec.
  - exists []. by split; [apply same_flags_refl|].
  - exists [s]. by split; [apply same_flags_refl|].
  - by right.
  - destruct (values !! name) as [[v|b]|] eqn:Ev.
    + destruct value as [v'|]; [|destruct rest as [|v' rest]; [by right|]].
      * apply (parsed_ok_step _ name (VString v) (VString v') [s]); [done|done|]. apply IH. simpl. lia.
      * apply (parsed_ok_step _ name (VString v) (VString v') [s; v']); [done|done|]. apply IH. simpl. lia.
    + destruct (ParseBool _) as [b'|]; [|by right].
      apply (parsed_ok_step _ name (VBool b) (VBool b') [s]); [done|done|]. apply IH. simpl. lia.
    + simpl. unfold undefined_flag. case_match; [by left|by right].
Qed.
