(* ===== verification/HttpsCmd.v ===== *)
(** * The upki-https command ([cmd/upki-https/main.go])

    [main], [fetch] and [defaultCacheDir] around the verifier of [Cmd]: the flags, the
    connections the HTTP client makes, the exit status.  The network is a parameter;
    what is written to stderr is not modelled. *)
From S2P Require Import Prelude Codec Cryptobyte GoIO UpkiIndex Sct Checker Path Cache Flag Cmd.

(** The environment of the process, its network included.  [http_Client.Get] performs
    some TLS handshakes, one for each request that redirects lead to; a handshake gives
    the URL and the chains that passed the verification of crypto/tls.  When the
    callback accepts all of them there is a response or an error of the transport. *)
Record Response := mkResponse { Proto : bytes; resp_Status : bytes; Body : option error }.
Class Network := {
  UserCacheDir : bytes + error;
  url_Parse : bytes -> option error;
  Handshakes : bytes -> list (bytes * list (list Certificate));
  Transfer : bytes -> Response + error
}.

Section Main.
Context {N : Network} {F : FileSystem} {C : Cryptobyte} {M : MapRange} {AP : AllocPolicy} {SS : SpanSort}.

(** The handshakes in order; the first the callback rejects ends the request with a
    [*url.Error] around the callback's error. *)
Fixpoint do_handshakes (verify : list (list Certificate) -> World -> World * result unit)
    (hs : list (bytes * list (list Certificate))) (w : World) : World * result unit :=
  match hs with
  | [] => (w, Ok tt)
  | (url, chains) :: hs =>
      match verify chains w with
      | (w, Ok _) => do_handshakes verify hs w
      | (w, Err e) => (w, Err (Errorf "Get %q: %w" [ABytes url; AErr e]))
      | (w, Panic) => (w, Panic)
      | (w, OutOfFuel) => (w, OutOfFuel)
      end
  end.

Definition client_Get (verify : list (list Certificate) -> World -> World * result unit)
    (target : bytes) (w : World) : World * result Response :=
  let '(w, r) := do_handshakes verify (Handshakes target) w in
  (w, _ ← r; match Transfer target with inl resp => Ok resp | inr err => Err err end).

(** What it prints to stdout, and its result. *)
Definition fetch (target cacheDir : bytes) (pol : policy) (w : World)
    : World * bytes * result unit :=
  match client_Get (verifier cacheDir pol) target w with
  | (w, Err err) => (w, [], Err err)
  | (w, Panic) => (w, [], Panic)
  | (w, OutOfFuel) => (w, [], OutOfFuel)
  | (w, Ok resp) =>
      let out := go_string "connected: " ++ Proto resp ++ go_string " " ++ resp_Status resp
                 ++ [byte_of_Z 10] in
      match Body resp with
      | Some err => (w, out, Err (Errorf "reading body: %w" [AErr err]))
      | None => (w, out, Ok tt)
      end
  end.

Definition defaultCacheDir : bytes :=
  match UserCacheDir with
  | inl dir => Join [dir; go_string "upki"]
  | inr _ => []
  end.

Definition main_flags : gmap bytes flag_value :=
  <[go_string "cache-dir" := VString defaultCacheDir]> {[go_string "strict" := VBool false]}.

(** The exit status and what was printed to stdout. *)
Definition https_main (os_Args : list bytes) (w : World) : World * result (Z * bytes) :=
  match os_Args with
  | [] => (w, Panic)
  | _ :: args =>
      match Parse main_flags args with
      | ExitWith code => (w, Ok (code, []))
      | Parsed flags [target] =>
          match url_Parse target with
          | Some _ => (w, Ok (2, []))
          | None =>
              let pol := if get_bool flags (go_string "strict") then policyStrict else policyDefault in
              match fetch target (get_string flags (go_string "cache-dir")) pol w with
              | (w, out, Ok _) => (w, Ok (0, out))
              | (w, out, Err _) => (w, Ok (1, out))
              | (w, _, Panic) => (w, Panic)
              | (w, _, OutOfFuel) => (w, OutOfFuel)
              end
          end
      | Parsed _ _ => (w, Ok (2, []))
      end
  end.

(** ** Specification *)

(** Every handshake found the cache and its chains acceptable: none of them is revoked,
    and under the strict policy one is known not to be. *)
Inductive accepted (dir : bytes) (pol : policy)
    : World -> list (bytes * list (list Certificate)) -> World -> Prop :=
| accepted_nil w : accepted dir pol w [] w
| accepted_cons w w1 w2 w3 c url chains hs :
    chains <> [] -> NewChecker dir w = (w1, Ok c) ->
    (let results := check_all (Op := DirOpener (Join [dir; RevocationSubdir])) chains c w1 in
     Forall (fun r => r <> (StatusRevoked, None)) results
     /\ (pol = policyStrict -> (StatusNotRevoked, None) ∈ results)) ->
    (verifier dir pol chains w).1 = w2 -> accepted dir pol w2 hs w3 ->
    accepted dir pol w ((url, chains) :: hs) w3.

(** ** Lemmas *)
Lemma revoked_result_true r : revoked_result r = true <-> r = (StatusRevoked, None).
Proof. by destruct r as [[] []]. Qed.

Lemma conclusive_result_true r : conclusive_result r = true <-> r = (StatusNotRevoked, None).
Proof. by destruct r as [[] []]. Qed.

Lemma policy_decision_total pol results : fails_with (fun _ => True) (policy_decision pol results).
Proof. unfold policy_decision. destruct (list_find _ _) as [[]|]; [done|]. by destruct (_ && _). Qed.

Lemma policy_decision_Ok pol results u :
  policy_decision pol results = Ok u <->
  Forall (fun r => r <> (StatusRevoked, None)) results
  /\ (pol = policyStrict -> (StatusNotRevoked, None) ∈ results).
Proof.
  unfold policy_decision. destruct u. destruct (list_find revoked_result results) as [[i r]|] eqn:E.
  - apply list_find_Some in E as (Hi & Hr & _). apply Is_true_true, revoked_result_true in Hr as ->.
    split; [done|]. intros [HF _]. rewrite Forall_lookup in HF. by destruct (HF _ _ Hi).
  - apply list_find_None in E.
    assert (Forall (fun r => r <> (StatusRevoked, None)) results) as HF.
    { eapply Forall_impl; [exact E|]. intros r Hr ->. by apply Hr. }
    assert (existsb conclusive_result results = true <-> (StatusNotRevoked, None) ∈ results) as Hc.
    { rewrite existsb_exists. setoid_rewrite conclusive_result_true. setoid_rewrite <- list_elem_of_In. naive_solver. }
    destruct pol; simpl; [by split|]. destruct (existsb _ _); simpl; naive_solver.
Qed.

Context {L : CryptobyteLaws C}.
Hypothesis Hprogress : forall dir, progressing (Op := DirOpener dir).

(** One handshake: the callback accepts exactly the acceptable chains. *)
Lemma verifier_accepts dir pol url chains w open :
  live w = Some open ->
  let '(w', r) := verifier dir pol chains w in
  live w' = Some open /\
  match r with
  | Ok _ => forall hs w3, accepted dir pol w ((url, chains) :: hs) w3 <-> accepted dir pol w' hs w3
  | Err _ => forall hs w3, ~ accepted dir pol w ((url, chains) :: hs) w3
  | _ => False
  end.
Proof.
  intros Hl. pose proof (verifier_decides dir pol chains w open (Hprogress _) Hl) as Hv.
  cbv zeta in Hv. destruct Hv as [Hw Hr].
  destruct (verifier dir pol chains w) as [w' r] eqn:Ev. simpl in Hw, Hr |- *. split; [done|].
  pose proof (NewCheckerWith_spec (Op := DirOpener (Join [dir; RevocationSubdir])) w (Hprogress _)) as Hn.
  fold (NewChecker dir w) in Hn. destruct chains as [|chain chains].
  { subst r. intros hs w3 H. by inversion H. }
  remember (chain :: chains) as all. assert (all <> []) as Hne by by subst.
  destruct (NewChecker dir w) as [w1 [c|e| |]] eqn:Ec; [| |done|done].
  2: { assert (r = Err (Errorf "opening upki cache at %s: %w" [ABytes dir; AErr e])) as -> by by subst all.
       intros hs w3 H. inversion H; congruence. }
  assert (r = policy_decision pol
            (check_all (Op := DirOpener (Join [dir; RevocationSubdir])) all c w1)) as -> by by subst all.
  pose proof (policy_decision_total pol (check_all (Op := DirOpener (Join [dir; RevocationSubdir])) all c w1)) as Ht.
  clear Hn. destruct (policy_decision _ _) as [u|e| |] eqn:Ed; try done; intros hs w3.
  - apply policy_decision_Ok in Ed. split.
    + intros H. inversion H. subst. by rewrite Ev in *.
    + intros H. eapply accepted_cons; [done|exact Ec|exact Ed| |exact H]. by rewrite Ev.
  - intros H. inversion H as [|? wa ? ? ca ? ? ? _ Eca Hok _ _]. subst.
    assert (wa = w1 /\ ca = c) as [-> ->] by (split; congruence).
    apply (policy_decision_Ok pol _ tt) in Hok. congruence.
Qed.

Lemma do_handshakes_spec dir pol hs w open :
  live w = Some open ->
  let '(w', r) := do_handshakes (verifier dir pol) hs w in
  live w' = Some open /\
  match r with
  | Ok _ => accepted dir pol w hs w'
  | Err _ => forall w3, ~ accepted dir pol w hs w3
  | _ => False
  end.
Proof.
  revert w. induction hs as [|[url chains] hs IH]; intros w Hl; simpl.
  { split; [done|constructor]. }
  pose proof (verifier_accepts dir pol url chains w open Hl) as Hv.
  destruct (verifier dir pol chains w) as [w1 [u|e| |]]; destruct Hv as [Hl1 Hv]; try done.
  specialize (IH w1 Hl1). destruct (do_handshakes _ hs w1) as [w2 r]. destruct IH as [Hl2 IH].
  split; [done|]. destruct r; [by apply Hv| |done|done]. intros w3. by rewrite Hv.
Qed.

(** The connection is made, and its body read, under these conditions. *)
Definition connects (target dir : bytes) (pol : policy) (w : World) : Prop :=
  exists w' resp, accepted dir pol w (Handshakes target) w'
    /\ Transfer target = inl resp /\ Body resp = None.

Lemma fetch_spec target dir pol w open :
  live w = Some open ->
  let '(w', _, r) := fetch target dir pol w in
  live w' = Some open /\
  match r with
  | Ok _ => connects target dir pol w
  | Err _ => ~ connects target dir pol w
  | _ => False
  end.
Proof.
  intros Hl. unfold fetch, client_Get, connects.
  pose proof (do_handshakes_spec dir pol (Handshakes target) w open Hl) as Hd.
  destruct (do_handshakes _ _ _) as [w1 [u|e| |]]; destruct Hd as [Hl1 Hd]; try done; go_simp.
  2: { split; [done|]. intros (w' & resp & H & _). by eapply Hd. }
  destruct (Transfer target) as [resp|e] eqn:Et.
  2: { split; [done|]. by intros (? & ? & _ & ? & _). }
  destruct (Body resp) as [e|] eqn:Eb; (split; [done|]); [|by exists w1, resp].
  intros (? & ? & _ & [= <-] & ?). congruence.
Qed.

(** The options, in their usual order, are read as given. *)
Lemma main_flags_roundtrip (dir target : bytes) (strict : bool) :
  classify target = NotFlag ->
  Parse main_flags ([go_string "-cache-dir"; dir] ++ (if strict then [go_string "-strict"] else []) ++ [target])
  = Parsed (<[go_string "strict" := VBool strict]> (<[go_string "cache-dir" := VString dir]> main_flags)) [target].
Proof.
  intros Ht. 
  assert (forall values, Parse values [target] = Parsed values [target]) as Hpos
    by (intros values; simpl; by rewrite Ht).
  assert (main_flags !! go_string "cache-dir" = Some (VString defaultCacheDir)) as Hdir
    by apply lookup_insert_eq.
  assert (<[go_string "cache-dir" := VString dir]> main_flags !! go_string "strict" = Some (VBool false)) as Hstrict.
  { unfold main_flags. rewrite !lookup_insert_ne by done. apply lookup_singleton_eq. }
  cbn [app Parse]. change (classify (go_string "-cache-dir")) with (IsFlag (go_string "cache-dir") None).
  cbv iota. rewrite Hdir. destruct strict; cbn [app].
  - cbn [Parse]. change (classify (go_string "-strict")) with (IsFlag (go_string "strict") None).
    cbv iota. rewrite Hstrict. cbn [default].
    replace (ParseBool (go_string "true")) with (Some true) by (vm_compute; reflexivity). apply Hpos.
  - by rewrite Hpos, (insert_id _ _ _ Hstrict).
Qed.

(** The process ended with this status: the cases of the command line are excluded or met. *)
Ltac ends_with code out :=
  exists code, out; split; [done|]; split; [done|]; split; [lia|];
  split; split; try done; naive_solver.

Lemma main_flags_dir dir b :
  get_string (<[go_string "strict" := VBool b]> (<[go_string "cache-dir" := VString dir]> main_flags))
    (go_string "cache-dir") = dir.
Proof. unfold get_string. by rewrite lookup_insert_ne, lookup_insert_eq by done. Qed.

Lemma main_flags_strict values b : get_bool (<[go_string "strict" := VBool b]> values) (go_string "strict") = b.
Proof. unfold get_bool. by rewrite lookup_insert_eq. Qed.

(** ** Properties *)

(** C35. The upki-https process: whatever the arguments, it ends by itself with status 0,
    1 or 2 and no handle it opened stays open.  Status 2 means a malformed command
    line or URL; status 0 means that help was asked for, or that the cache opened for
    every TLS handshake of the request, none of the handshake's verified chains was
    found revoked (under -strict one of them was found not revoked), a response came
    and its body was read. *)
Theorem https_main_spec (prog : bytes) (args : list bytes) (w : World) (open : gset nat) :
  live w = Some open ->
  exists code out,
    (https_main (prog :: args) w).2 = Ok (code, out)
    /\ live (https_main (prog :: args) w).1 = Some open
    /\ 0 <= code <= 2
    /\ (code = 2 <-> Parse main_flags args = ExitWith 2
         \/ exists flags rest, Parse main_flags args = Parsed flags rest
              /\ forall target, rest = [target] -> url_Parse target <> None)
    /\ (code = 0 <-> Parse main_flags args = ExitWith 0
         \/ exists flags target, Parse main_flags args = Parsed flags [target]
              /\ url_Parse target = None
              /\ connects target (get_string flags (go_string "cache-dir"))
                   (if get_bool flags (go_string "strict") then policyStrict else policyDefault) w).
Proof.
  intros Hl. unfold https_main. pose proof (Parse_spec args main_flags) as Hp.
  destruct (Parse main_flags args) as [flags rest|code].
  2: { destruct Hp as [-> | ->]; [ends_with 0 (@nil byte)|ends_with 2 (@nil byte)]. }
  destruct rest as [|target [|t2 rest]]; [ends_with 2 (@nil byte)| |ends_with 2 (@nil byte)].
  destruct (url_Parse target) as [e|] eqn:Eu; [ends_with 2 (@nil byte)|].
  set (dir := get_string _ _). set (pol := if get_bool _ _ then _ else _).
  pose proof (fetch_spec target dir pol w open Hl) as Hf.
  destruct (fetch target dir pol w) as [[w1 out] [u|e| |]]; destruct Hf as [Hl1 Hf]; try done.
  - ends_with 0 out.
  - ends_with 1 out.
Qed.
End Main.

(** ** Witnesses *)

(** One handshake with the sample chain twice, then a response. *)
Definition sample_network : Network := {|
  UserCacheDir := inl (go_string "/home/u/.cache");
  url_Parse _ := None;
  Handshakes url := [(url, [sample_chain; sample_chain])];
  Transfer _ := inl (mkResponse (go_string "HTTP/1.1") (go_string "200 OK") None)
|}.

(** Under -strict the connection is made: some chain was found not revoked. *)
Lemma https_main_spec_witness :
  connects (N := sample_network) (F := sample_fs) (go_string "https://e") (go_string "/c") policyStrict []
  /\ live (https_main (N := sample_network) (F := sample_fs)
       (map go_string ["upki-https"; "-cache-dir"; "/c"; "-strict"; "https://e"]) []).1 = Some ∅.
Proof.
  destruct (https_main_spec (N := sample_network) (F := sample_fs)
    (fun dir => sample_fs_progressing dir) (go_string "upki-https")
    (map go_string ["-cache-dir"; "/c"; "-strict"; "https://e"]) [] ∅ eq_refl)
    as (code & out & E & Hl & _ & _ & H0).
  split; [|exact Hl].
  assert (code = 0) as Hcode.
  { apply (f_equal (fun r => match r with Ok (c, _) => c | _ => 5 end)) in E. vm_compute in E. by symmetry. }
  destruct (proj1 H0 Hcode) as [Hh|(flags & target & Hp & _ & Hc)].
  - vm_compute in Hh. discriminate Hh.
  - pose proof (main_flags_roundtrip (N := sample_network) (go_string "/c") (go_string "https://e") true
      eq_refl) as Hr.
    cbn [map app] in Hp, Hr. rewrite Hp in Hr. injection Hr as -> ->.
    rewrite (main_flags_dir (N := sample_network)), main_flags_strict in Hc. exact Hc.
Defined.
