(* ===== verification/BuiltDirectory.v ===== *)
(** * A cache directory written by the builders, and the TLS verifier on it

    The composition of all parts: [index.bin] and filters as the builders of
    [internal/test] write them, in a directory; [DirOpener] and [NewChecker] on it; the
    verifier of upki-https over the chains of a handshake.  Its decision is read off the
    descriptions the files were built from. *)
From S2P Require Import Prelude Codec Sha256 Cryptobyte GoIO UpkiIndex Clubcard CrliteParser Crlite Sct Ribbon ClubcardEncode ClubcardAnswers IndexEncode Checker BuiltCache Path Cache Cmd.

(** ** Specification *)

(** From [w0] on the file system holds, in [dir], the index and the files of [ps]. *)
Record built_directory {F : FileSystem} {M : MapRange} {B : Builder} {R : RandSource}
    {SB : SortFunc block_le} {SK : SortFunc bytes_le} (dir : bytes) (ps : list published)
    (w0 : World) : Prop := {
  bd_published : wf_published ps;
  bd_index : exists content, Index_Bytes (index_of ps) = Ok content
    /\ forall w, w0 `prefix_of` w -> exists f,
         os_Open w (Join [Join [dir; RevocationSubdir]; IndexFilename]) = inl f
         /\ serves content (file_reader f);
  bd_files p w : p ∈ ps -> w0 `prefix_of` w -> exists f,
    os_Open w (Join [Join [dir; RevocationSubdir]; p_name p]) = inl f
    /\ ReadAll (file_reads f) [] = Ok (p_data p)
}.

(** The status the descriptions give a chain. *)
Definition leaf_id (issuer : Certificate) : bytes := sha256_Sum256 (RawSubjectPublicKeyInfo issuer).

Inductive described_status {C : Cryptobyte} (ps : list published) : list Certificate -> Status -> Prop :=
  | ds_no_scts leaf issuer rest :
      EmbeddedSCTs leaf = Ok [] -> described_status ps (leaf :: issuer :: rest) StatusNotCovered
  | ds_scts leaf issuer rest scts serial status :
      EmbeddedSCTs leaf = Ok scts -> scts <> [] -> RawSerial leaf = Ok serial ->
      match status with
      | StatusRevoked => exists f, in_force ps scts f /\ lists_revoked f (leaf_id issuer) serial
      | StatusNotRevoked =>
          (exists f, in_force ps scts f /\ enrolled f (leaf_id issuer))
          /\ forall f, in_force ps scts f -> enrolled f (leaf_id issuer) ->
               lists_notRevoked f (leaf_id issuer) serial
      | StatusNotCovered => forall f, in_force ps scts f -> ~ enrolled f (leaf_id issuer)
      end ->
      described_status ps (leaf :: issuer :: rest) status.

(** ** Lemmas *)
Section Directory.
Context {C : Cryptobyte} {L : CryptobyteLaws C} {M : MapRange} {B : Builder} {BL : BuilderLaws B}
  {R : RandSource} {SB : SortFunc block_le} {SK : SortFunc bytes_le} {AP : AllocPolicy}
  {SS : SpanSort} {F : FileSystem}.
Context (dir : bytes) (ps : list published) (w0 : World).
Hypothesis Hdir : built_directory dir ps w0.
#[local] Instance dir_openers : Openers := DirOpener (Join [dir; RevocationSubdir]).

Lemma directory_static :
  exists content, Index_Bytes (index_of ps) = Ok content /\ static_cache content (files_of ps) w0.
Proof.
  destruct (bd_index _ _ _ Hdir) as (content & E & Hi). exists content. split; [done|]. constructor.
  - intros w ir Hw Ho. destruct (Hi w Hw) as (f & Hf & Hs).
    change (DirOpener_OpenIndex (Join [dir; RevocationSubdir]) w = inl ir) in Ho. unfold DirOpener_OpenIndex in Ho.
    rewrite Hf in Ho. by injection Ho as <-.
  - intros w name d Hw (p & Hp & <- & <-)%files_of_Some.
    destruct (bd_files _ _ _ Hdir p w Hp Hw) as (f & Hf & Hr).
    change (Open w (p_name p)) with (DirOpener_Open (Join [dir; RevocationSubdir]) w (p_name p)).
    unfold DirOpener_Open. rewrite Hf. eexists. by split.
Qed.

Lemma directory_opens w : w0 `prefix_of` w -> exists ir, OpenIndex w = inl ir.
Proof.
  intros Hw. destruct (bd_index _ _ _ Hdir) as (content & _ & Hi). destruct (Hi w Hw) as (f & Hf & _).
  change (exists ir, DirOpener_OpenIndex (Join [dir; RevocationSubdir]) w = inl ir).
  unfold DirOpener_OpenIndex. rewrite Hf. by eexists.
Qed.

Lemma static_cache_later content files w :
  static_cache content files w0 -> w0 `prefix_of` w -> static_cache content files w.
Proof.
  intros [Hi Hf] Hw. constructor.
  - intros w' ir Hw'. apply Hi. by etrans.
  - intros w' name d Hw'. apply Hf. by etrans.
Qed.

(** A described chain checked in a session gets its status. *)
Lemma described_check content w r ir cl chain status :
  Index_Bytes (index_of ps) = Ok content -> static_cache content (files_of ps) w0 ->
  w0 `prefix_of` w -> serves content (ir_reader ir) ->
  NewIndexFromReader (ir_reader ir) cl = Ok (ref_index r) -> described_status ps chain status ->
  exists w', Checker_Check (mkChecker (Some r)) chain w = (w', mkChecker (Some r), Ok (status, None))
             /\ w `prefix_of` w'.
Proof.
  intros Hcontent Hst Hw Hsv Hidx Hd. pose proof (bd_published _ _ _ Hdir) as Hps.
  destruct Hd as [leaf issuer rest Hs|leaf issuer rest scts serial status Hs Hne Hser Hd].
  - exists w. split; [|done]. unfold Checker_Check. simpl. by rewrite Hs.
  - destruct (Check_static_session content (files_of ps) w0 w r ir cl leaf issuer rest scts serial)
      as (w2 & st & err & E & Hp & Ha); try done.
    { by apply built_consistent. }
    exists w2. rewrite E. split; [|done].
    pose proof (built_answer ps content Hps Hcontent _ _ _ _ _ Ha) as ->.
    assert (st = status) as ->; [|done].
    destruct status.
    + by eapply built_notCovered.
    + by eapply built_revoked.
    + destruct Hd as [He Hall]. by eapply built_notRevoked.
Qed.

Lemma described_check_all content w r ir cl chains statuses :
  Index_Bytes (index_of ps) = Ok content -> static_cache content (files_of ps) w0 ->
  w0 `prefix_of` w -> serves content (ir_reader ir) ->
  NewIndexFromReader (ir_reader ir) cl = Ok (ref_index r) ->
  Forall2 (described_status ps) chains statuses ->
  check_all chains (mkChecker (Some r)) w = map (fun st => (st, None)) statuses.
Proof.
  intros Hcontent Hst Hw Hsv Hidx Hd. revert w Hw.
  induction Hd as [|chain st chains statuses Hd _ IH]; intros w Hw; [done|]. cbn [check_all map].
  destruct (described_check content w r ir cl chain st) as (w' & -> & Hp); [done..|].
  f_equal. apply IH. by etrans.
Qed.


(** The decision about the described chains of one handshake. *)
Lemma described_verifier pol chains statuses w base :
  progressing -> live w = Some base -> w0 `prefix_of` w -> chains <> [] ->
  Forall2 (described_status ps) chains statuses ->
  (verifier dir pol chains w).2 = policy_decision pol (map (fun st => (st, None)) statuses)
  /\ live (verifier dir pol chains w).1 = Some base.
Proof.
  intros Hp Hl Hw Hne Hd. destruct (verifier_decides dir pol chains w base Hp Hl) as [Hlive ->].
  split; [|exact Hlive]. destruct chains as [|chain chains]; [done|].
  destruct directory_static as (content & Hcontent & Hst).
  destruct (directory_opens w Hw) as (ir & Ho).
  assert (static_cache content (files_of ps) w) as Hst' by (by eapply static_cache_later).
  destruct (built_opens ps content (bd_published _ _ _ Hdir) Hcontent w ir Hst' Ho) as (w1 & c & Hnew).
  unfold dir_openers in Hst, Hnew. unfold NewChecker. rewrite Hnew.
  pose proof (opened_only_prefix _ _ _ (NewCheckerWith_only (Op := DirOpener (Join [dir; RevocationSubdir])) w)) as Hpre.
  rewrite Hnew in Hpre.
  destruct (NewChecker_opened _ _ _ Hnew) as (r & ir' & cl & -> & -> & Ho' & Hidx).
  f_equal. eapply described_check_all; [exact Hcontent|exact Hst|by etrans| |exact Hidx|exact Hd].
  by apply (sc_index _ _ _ Hst w).
Qed.
End Directory.

(** ** Properties *)

(** C5. From the descriptions of the filters to the decision about a TLS connection: on
    a directory whose index and filters the builders wrote, the verifier of upki-https
    over chains that the descriptions cover (revoked in a filter in force, not revoked
    in all that enroll the issuer, enrolled in none, or without SCTs) decides exactly by
    the policy on the described statuses; nothing is left open. *)
Theorem built_directory_verifier {C : Cryptobyte} {L : CryptobyteLaws C} {M : MapRange} {B : Builder}
    {BL : BuilderLaws B} {R : RandSource} {SB : SortFunc block_le} {SK : SortFunc bytes_le}
    {AP : AllocPolicy} {SS : SpanSort} {F : FileSystem} (dir : bytes) (ps : list published)
    (pol : policy) (chains : list (list Certificate)) (statuses : list Status) (w : World)
    (open : gset nat) :
  progressing (Op := DirOpener (Join [dir; RevocationSubdir])) -> live w = Some open ->
  built_directory dir ps w -> chains <> [] -> Forall2 (described_status ps) chains statuses ->
  (verifier dir pol chains w).2 = policy_decision pol (map (fun st => (st, None)) statuses)
  /\ live (verifier dir pol chains w).1 = Some open.
Proof.
  intros Hp Hl Hdir Hne Hd. by apply (described_verifier dir ps w Hdir).
Qed.

(** ** Witnesses *)

(** A file system with the sample cache under [/c]. *)
Definition built_fs (content data : bytes) : FileSystem := {|
  os_Open _ path :=
    let file d := inl (mkOsFile (bytes_reader d) [(d, None)] None) in
    if bool_decide (path = go_string "/c/revocation/index.bin") then file content else
    if bool_decide (path = go_string "/c/revocation/a.filter") then file data
    else inr (Errorf "open %s: %w" [ABytes path; AErr ErrNotExist]);
  os_ReadFile _ := inr ErrNotExist
|}.

Lemma built_fs_progressing content data dir : progressing (Op := DirOpener (F := built_fs content data) dir).
Proof.
  intros w r. simpl. unfold DirOpener_OpenIndex. simpl.
  repeat case_match; intros [= <-] || intros [=]; simplify_eq; apply bytes_reader_progresses.
Qed.

Lemma built_fs_directory :
  exists content data,
    built_directory (F := built_fs content data) (R := pcg) (go_string "/c") (built_sample data) [].
Proof.
  destruct built_sample_published as (data & Hps).
  destruct (Index_Bytes_content (B := builder_ref) (index_of (built_sample data)) (wp_index (R := pcg) _ Hps))
    as (content & E & _).
  exists content, data. constructor; [exact Hps| |].
  - exists content. split; [exact E|]. intros w _. exists (mkOsFile (bytes_reader content) [(content, None)] None).
    split; [reflexivity|apply bytes_reader_serves].
  - intros p w ->%list_elem_of_singleton _. exists (mkOsFile (bytes_reader data) [(data, None)] None).
    split; reflexivity.
Qed.

(** The revoked sample certificate is rejected under both policies. *)
Lemma built_directory_verifier_witness :
  exists content data, forall pol,
    (verifier (F := built_fs content data) (go_string "/c") pol [sample_chain] []).2
    = Err (Errorf "leaf certificate revoked (chain %d)" [AInt 0]).
Proof.
  destruct built_fs_directory as (content & data & Hdir). exists content, data. intros pol.
  assert (described_status (built_sample data) sample_chain StatusRevoked) as Hd.
  { apply (ds_scts _ _ _ _ sample_scts [Init.Byte.x00; Init.Byte.xff]);
      [exact sample_scts_ok|exact sample_scts_some|exact sample_serial_ok|exact (built_sample_revoked data)]. }
  rewrite (proj1 (built_directory_verifier (F := built_fs content data) (R := pcg) (go_string "/c")
    (built_sample data) pol [sample_chain] [StatusRevoked] [] ∅ (built_fs_progressing content data _) eq_refl
    Hdir ltac:(discriminate) (List.Forall2_cons _ _ Hd (List.Forall2_nil _)))).
  reflexivity.
Defined.
