(* ===== verification/BuiltUpdates.v ===== *)
(** * A directory the writers keep updating, and many goroutines checking

    The composition of the concurrent checker with the builders: a cache directory is
    replaced any number of times, each time by an index and filters as the builders of
    [internal/test] write them, while goroutines check certificates on one [Checker].
    What a check returns is read off the descriptions the files were built from. *)
From S2P Require Import Prelude Codec Sha256 Cryptobyte GoIO UpkiIndex Clubcard CrliteParser Crlite Sct Ribbon ClubcardEncode ClubcardAnswers IndexEncode Checker BuiltCache CheckerConc CheckerUpdates Path Cache BuiltDirectory.

(** ** Specification *)

(** The directory [dir] from [w0] on: generation [gen w] of the published filters is in
    force, with its index and its filters; a filter of another generation is missing,
    unless the one in force publishes it too; a name is not used again for other
    contents. *)
Record updated_directory {F : FileSystem} {M : MapRange} {B : Builder} {R : RandSource}
    {SB : SortFunc block_le} {SK : SortFunc bytes_le} (dir : bytes) (P : Z -> list published)
    (gen : World -> Z) (w0 : World) : Prop := {
  ud_published g : wf_published (P g);
  ud_forward w w' : w0 `prefix_of` w -> w `prefix_of` w' -> gen w <= gen w';
  ud_index w : w0 `prefix_of` w -> exists content f,
    Index_Bytes (index_of (P (gen w))) = Ok content
    /\ os_Open w (Join [Join [dir; RevocationSubdir]; IndexFilename]) = inl f
    /\ serves content (file_reader f);
  ud_files w p g : w0 `prefix_of` w -> p ∈ P g ->
    match os_Open w (Join [Join [dir; RevocationSubdir]; p_name p]) with
    | inl f => (p_name p ∈ published_names (P (gen w))) /\ ReadAll (file_reads f) [] = Ok (p_data p)
    | inr e => (p_name p ∉ published_names (P (gen w))) /\ errors_Is e "file does not exist" = true
    end;
  ud_immutable g g' p p' : p ∈ P g -> p' ∈ P g' -> p_name p = p_name p' -> p_data p = p_data p'
}.

(** The status agrees with what the descriptions say of the serial under the issuer. *)
Record describes (ps : list published) (scts : list SCT) (id serial : bytes) (status : Status) : Prop := {
  de_revoked :
    (exists f, in_force ps scts f /\ lists_revoked f id serial) -> status = StatusRevoked;
  de_notRevoked :
    (forall f, in_force ps scts f -> enrolled f id -> lists_notRevoked f id serial) ->
    (exists f, in_force ps scts f /\ enrolled f id) -> status = StatusNotRevoked;
  de_notCovered :
    (forall f, in_force ps scts f -> ~ enrolled f id) -> status = StatusNotCovered
}.

(** ** Lemmas *)
Section Updated.
Context {C : Cryptobyte} {L : CryptobyteLaws C} {M : MapRange} {B : Builder} {BL : BuilderLaws B}
  {R : RandSource} {SB : SortFunc block_le} {SK : SortFunc bytes_le} {AP : AllocPolicy}
  {SS : SpanSort} {F : FileSystem}.
Context (dir : bytes) (P : Z -> list published) (gen : World -> Z) (w0 : World).
Hypothesis Hdir : updated_directory dir P gen w0.
#[local] Instance dir_openers : Openers := DirOpener (Join [dir; RevocationSubdir]).

Definition index_bytes (g : Z) : bytes :=
  match Index_Bytes (index_of (P g)) with Ok content => content | _ => [] end.

(** The directory as a cache with generations. *)
Definition generations : Generations := mkGenerations index_bytes (fun g => files_of (P g)) gen.

Lemma index_bytes_built g : Index_Bytes (index_of (P g)) = Ok (index_bytes g).
Proof.
  destruct (Index_Bytes_content (index_of (P g)) (wp_index _ (ud_published _ _ _ _ Hdir g))) as (d & E & _).
  unfold index_bytes. by rewrite E.
Qed.

Lemma updated_index w : w0 `prefix_of` w -> exists ir,
  OpenIndex w = inl ir /\ serves (index_bytes (gen w)) (ir_reader ir).
Proof.
  intros Hw. destruct (ud_index _ _ _ _ Hdir w Hw) as (content & f & E & Ho & Hs).
  change (OpenIndex w) with (DirOpener_OpenIndex (Join [dir; RevocationSubdir]) w).
  unfold DirOpener_OpenIndex. rewrite Ho. eexists. split; [done|].
  unfold index_bytes. by rewrite E.
Qed.

Lemma updated_versioned : versioned_cache generations w0.
Proof.
  constructor.
  - apply (ud_forward _ _ _ _ Hdir).
  - intros w ir Hw Ho. destruct (updated_index w Hw) as (ir' & Ho' & Hs).
    assert (ir = ir') as -> by congruence. exact Hs.
  - intros w name g d Hw (p & Hp & <- & <-)%files_of_Some.
    pose proof (ud_files _ _ _ _ Hdir w p g Hw Hp) as H.
    change (Open w (p_name p)) with (DirOpener_Open (Join [dir; RevocationSubdir]) w (p_name p)).
    unfold DirOpener_Open. simpl. destruct (os_Open _ _) as [f|e]; destruct H as [Hin H].
    + destruct (files_of (P (gen w)) (p_name p)) as [d|] eqn:E; [|by apply files_of_None in E].
      apply files_of_Some in E as (p' & Hp' & En & <-). eexists. split; [done|].
      by rewrite (ud_immutable _ _ _ _ Hdir _ _ _ _ Hp' Hp En).
    + destruct (files_of (P (gen w)) (p_name p)) as [d|] eqn:E; [|by exists e].
      destruct Hin. apply files_of_Some in E as (p' & Hp' & En & _). rewrite <- En.
      by apply list_elem_of_In, in_map, list_elem_of_In.
  - intros g g' name d d' (p & Hp & <- & <-)%files_of_Some (p' & Hp' & En & <-)%files_of_Some.
    by eapply (ud_immutable _ _ _ _ Hdir).
Qed.

Lemma updated_consistent scts : consistent_always generations scts.
Proof. intros g. apply built_consistent; [apply (ud_published _ _ _ _ Hdir)|apply index_bytes_built]. Qed.

(** Every generation's index opens. *)
Lemma updated_reopens w w' e : w0 `prefix_of` w -> openIndex w <> (w', Err e).
Proof.
  intros Hw. destruct (updated_index w Hw) as (ir & Ho & Hs). unfold openIndex. rewrite Ho.
  destruct (Index_Bytes_content (index_of (P (gen w))) (wp_index _ (ud_published _ _ _ _ Hdir _))) as (d & E & Hopen & _).
  rewrite index_bytes_built in E. injection E as <-. by rewrite Hopen.
Qed.

Lemma updated_answer g scts id serial status err :
  cache_answer (index_bytes g) (files_of (P g)) scts (NewKey id serial) status err ->
  err = None /\ describes (P g) scts id serial status.
Proof.
  intros Ha. pose proof (ud_published _ _ _ _ Hdir g) as Hps. pose proof (index_bytes_built g) as Hc.
  split; [by eapply built_answer|].
  constructor; [by eapply built_revoked|by eapply built_notRevoked|by eapply built_notCovered].
Qed.
End Updated.

(** ** Properties *)

(** C4. From the descriptions of the filters to the answers of concurrent checks, across
    updates: on a directory that the builders keep updating, the checker opens, and
    whatever checks and closes run on it, in any interleaving, a check of a certificate
    with SCTs that has returned agrees with the descriptions of one generation that was
    in force since the opening, without an error; or it found the checker closed; or the
    directory was updated three times or more and a file went missing each time.  So a
    certificate that every generation lists as revoked is never reported as anything
    else without an error. *)
Theorem updated_directory_answers {C : Cryptobyte} {L : CryptobyteLaws C} {M : MapRange}
    {B : Builder} {BL : BuilderLaws B} {R : RandSource} {SB : SortFunc block_le}
    {SK : SortFunc bytes_le} {AP : AllocPolicy} {SS : SpanSort} {F : FileSystem}
    (dir : bytes) (P : Z -> list published) (gen : World -> Z) (w : World) (base : gset nat) :
  let Op := DirOpener (Join [dir; RevocationSubdir]) in
  progressing -> live w = Some base -> updated_directory dir P gen w ->
  exists w1 c, NewChecker dir w = (w1, Ok c) /\
  forall calls s id serial scts status err,
    rtc step (start w1 c calls) s ->
    TCheck (NewKey id serial) scts (Returned (status, err)) ∈ threads s -> scts <> [] ->
    (exists g, gen w <= g <= gen (sh_world (shared s)) /\ err = None
               /\ describes (P g) scts id serial status)
    \/ (status = StatusNotCovered /\ err = Some errCheckerClosed /\ exists p, TClose p ∈ threads s)
    \/ (status = StatusNotCovered /\ gen w + 3 <= gen (sh_world (shared s))
        /\ exists e, err = Some e /\ errors_Is e "file does not exist" = true).
Proof.
  intros Op Hp Hl Hdir. pose proof (NewCheckerWith_spec w Hp) as Hnew.
  destruct (NewCheckerWith w) as [w1 [c|e| |]] eqn:En; try done.
  2: { unfold NewCheckerWith in En. destruct (openIndex w) as [w' [idx|e'| |]] eqn:Eo; try done.
       by destruct (updated_reopens dir P gen w Hdir w w' e' ltac:(done)). }
  exists w1, c. split; [exact En|]. intros calls s id serial scts status err Hs Hin Hne.
  pose proof (run_versions (generations P gen) w (updated_versioned dir P gen w Hdir) w1 c base calls s Hp Hl En
    (fun _ _ ss _ _ => updated_consistent dir P gen w Hdir ss) Hs _ _ _ _ Hin Hne) as Ho.
  destruct Ho as [g st er Hg Ha|Hcl|w2 w3 e Ho Hw _ _|e He Hg].
  - left. exists g. split; [done|]. by apply (updated_answer dir P gen w Hdir).
  - by right; left.
  - by destruct (updated_reopens dir P gen w Hdir w2 w3 e Hw).
  - right; right. split; [done|]. split; [done|]. by exists e.
Qed.

(** ** Witnesses *)

(** The sample filter, published under one name and after the first event under another:
    the first check finds that its filter is gone and reads the index again. *)
Definition written (r : result bytes) : bytes := match r with Ok data => data | _ => [] end.
Definition updating_data : bytes := Eval vm_compute in
  written (Filter_Bytes (R := pcg) built_sample_filter (NewPCG 0 0)).
Definition updating_P (g : Z) : list published :=
  built_as (go_string (if g =? 0 then "a.filter" else "b.filter")) updating_data.
Definition updating_gen (w : World) : Z := match w with [] => 0 | _ => 1 end.
Definition updating_content (g : Z) : bytes :=
  written (Index_Bytes (B := builder_ref) (index_of (updating_P g))).

Definition updating_fs : FileSystem := {|
  os_Open w path :=
    let file d := inl (mkOsFile (bytes_reader d) [(d, None)] None) in
    let missing := inr (Errorf "open %s: %w" [ABytes path; AErr ErrNotExist]) in
    let g := updating_gen w in
    if bool_decide (path = go_string "/c/revocation/index.bin") then file (updating_content g) else
    if bool_decide (path = go_string "/c/revocation/a.filter") then if g =? 0 then file updating_data else missing else
    if bool_decide (path = go_string "/c/revocation/b.filter") then if g =? 0 then missing else file updating_data
    else missing;
  os_ReadFile _ := inr ErrNotExist
|}.

Lemma updating_fs_progressing dir : progressing (Op := DirOpener (F := updating_fs) dir).
Proof.
  intros w r. simpl. unfold DirOpener_OpenIndex. simpl.
  repeat case_match; intros [= <-] || intros [=]; simplify_eq; apply bytes_reader_progresses.
Qed.

Lemma updating_open w (a : bool) :
  let path := Join [Join [go_string "/c"; RevocationSubdir]; go_string (if a then "a.filter" else "b.filter")] in
  os_Open (FileSystem := updating_fs) w path
  = if Bool.eqb a (updating_gen w =? 0) then inl (mkOsFile (bytes_reader updating_data) [(updating_data, None)] None)
    else inr (Errorf "open %s: %w" [ABytes path; AErr ErrNotExist]).
Proof. destruct a, w; vm_compute; reflexivity. Qed.

Lemma updating_P_wf g : wf_published (R := pcg) (updating_P g).
Proof.
  apply built_as_published; [|exists (NewPCG 0 0); vm_compute; reflexivity].
  apply valid_filename_checked; destruct (g =? 0); by vm_compute.
Qed.

Lemma updating_directory :
  updated_directory (F := updating_fs) (B := builder_ref) (R := pcg) (go_string "/c") updating_P updating_gen [].
Proof.
  constructor.
  - apply updating_P_wf.
  - intros w w' _ [k ->]. by destruct w, k.
  - intros w _. destruct (Index_Bytes_content (B := builder_ref) (index_of (updating_P (updating_gen w)))
      (wp_index (R := pcg) _ (updating_P_wf _))) as (content & E & _).
    exists content, (mkOsFile (bytes_reader content) [(content, None)] None). split; [exact E|].
    split; [|apply bytes_reader_serves].
    assert (updating_content (updating_gen w) = content) as <- by (unfold updating_content; by rewrite E).
    reflexivity.
  - intros w p g _ Hp. apply list_elem_of_singleton in Hp as ->.
    cbn [p_name p_data]. rewrite updating_open. destruct (g =? 0), w; simpl.
    all: split; [unfold published_names, updating_P; simpl|reflexivity].
    all: first [by apply list_elem_of_singleton|intros H%list_elem_of_singleton; by vm_compute in H].
  - intros g g' p p' ->%list_elem_of_singleton ->%list_elem_of_singleton _. reflexivity.
Qed.

Definition updating_start : World * Checker :=
  match NewChecker (F := updating_fs) (go_string "/c") [] with
  | (w, Ok c) => (w, c)
  | (w, _) => (w, mkChecker None)
  end.

Lemma updating_opens :
  NewChecker (F := updating_fs) (go_string "/c") [] = (updating_start.1, Ok updating_start.2).
Proof. vm_compute. reflexivity. Qed.

Lemma opened_inj (w w' : World) (c c' : Checker) : (w, Ok c) = (w', Ok c') -> w = w' /\ c = c'.
Proof. by intros [= <- <-]. Qed.

Section UpdatingWitness.
#[local] Instance updating_openers : Openers := DirOpener (F := updating_fs) (Join [go_string "/c"; RevocationSubdir]).

Lemma updating_run :
  exists s, run (replicate 12 0%nat) (start updating_start.1 updating_start.2 sample_calls) = Some s
  /\ threads s !! 0%nat = Some (TCheck sample_key sample_scts (Returned (StatusRevoked, None))).
Proof. eexists. split; vm_compute; reflexivity. Qed.

Lemma updated_directory_answers_witness :
  exists s, rtc step (start updating_start.1 updating_start.2 sample_calls) s
  /\ exists g, describes (updating_P g) sample_scts (leaf_id sample_cert) [Init.Byte.x00; Init.Byte.xff] StatusRevoked.
Proof.
  destruct updating_run as (s & Hrun & Hi). exists s.
  assert (rtc step (start updating_start.1 updating_start.2 sample_calls) s) as Hs
    by exact (rtc_nsteps_2 _ _ _ (run_nsteps _ _ _ Hrun)).
  split; [exact Hs|].
  destruct (updated_directory_answers (F := updating_fs) (R := pcg) (go_string "/c") updating_P updating_gen [] ∅
    (updating_fs_progressing _) eq_refl updating_directory) as (w1 & c & Hn & Hall).
  rewrite updating_opens in Hn. destruct (opened_inj _ _ _ _ Hn) as [<- <-].
  destruct (Hall sample_calls s (leaf_id sample_cert) [Init.Byte.x00; Init.Byte.xff] sample_scts StatusRevoked None Hs
    (list_elem_of_lookup_2 _ _ _ Hi) sample_scts_some) as [(g & _ & _ & Hd)|[[H _]|[H _]]]; [|discriminate H..].
  exists g. exact Hd.
Defined.
End UpdatingWitness.
