(* ===== verification/BuiltCommands.v ===== *)
(** * The commands over files the builders wrote

    [cmd/upki-https] over a directory and [cmd/crlite-query] over a filter that the
    builders of [internal/test] wrote, from the command line to the exit status or the
    printed line, in terms of the descriptions. *)
From S2P Require Import Prelude Codec Sha256 Cryptobyte GoIO UpkiIndex Clubcard CrliteParser Crlite Sct Ribbon ClubcardEncode ClubcardAnswers IndexEncode Checker BuiltCache Path Cache Cmd Flag HttpsCmd BuiltDirectory.

(** ** The verifier only adds to the history *)
Section History.
Context {C : Cryptobyte} {L : CryptobyteLaws C} {M : MapRange} {AP : AllocPolicy} {SS : SpanSort}.

Lemma verify_chains_only {Op : Openers} i chains c saw w :
  progressing -> wf_checker c ->
  opened_only valid_filename w (verify_chains i chains c saw w).1.1.
Proof.
  intros Hp. revert i c saw w. induction chains as [|chain chains IH]; intros i c saw w Hwf; [done|].
  cbn [verify_chains]. pose proof (Checker_Check_only c chain w Hp Hwf) as H1.
  destruct (Checker_Check_spec c chain w Hp Hwf) as (w1 & c1 & status & err & E & Hwf1 & _).
  rewrite E in H1 |- *. simpl in H1.
  destruct status, err; try (etrans; [exact H1|]; by apply IH). exact H1.
Qed.

Lemma verifier_prefix {F : FileSystem} dir pol chains w :
  progressing (Op := DirOpener (Join [dir; RevocationSubdir])) ->
  w `prefix_of` (verifier dir pol chains w).1.
Proof.
  intros Hp. apply (opened_only_prefix valid_filename). unfold verifier, NewChecker.
  set (Op := DirOpener (Join [dir; RevocationSubdir])) in *.
  destruct chains as [|chain chains]; [done|].
  pose proof (NewCheckerWith_only w) as H1. pose proof (NewCheckerWith_spec w Hp) as Hn.
  destruct (NewCheckerWith w) as [w1 [c|e| |]]; try done. destruct Hn as [Hwf _].
  pose proof (verify_chains_only 0 (chain :: chains) c false w1 Hp Hwf) as H2.
  destruct (verify_chains _ _ _ _ _) as [[w2 c2] r]. pose proof (Close_only c2 w2) as H3.
  destruct (Close c2 w2) as [[w3 c3] e3]. simpl in *. etrans; [exact H1|]. by etrans.
Qed.
End History.

(** ** upki-https *)

(** What the policy wants of the statuses of one handshake's chains. *)
Definition acceptable (pol : policy) (statuses : list Status) : Prop :=
  (StatusRevoked ∉ statuses) /\ (pol = policyStrict -> StatusNotRevoked ∈ statuses).

Lemma policy_decision_described pol statuses u :
  policy_decision pol (map (fun st => (st, None)) statuses) = Ok u <-> acceptable pol statuses.
Proof.
  rewrite policy_decision_Ok. unfold acceptable.
  assert (forall st, (st, @None error) ∈ map (fun st => (st, None)) statuses <-> st ∈ statuses) as Hin.
  { intros st. rewrite !list_elem_of_In, in_map_iff. naive_solver. }
  rewrite Hin. split; intros [H1 H2]; (split; [|done]).
  - intros H. rewrite List.Forall_forall in H1. apply (H1 (StatusRevoked, None)); [|done].
    by apply list_elem_of_In, Hin.
  - apply List.Forall_forall. intros r Hr ->. by apply H1, Hin, list_elem_of_In.
Qed.

Section Https.
Context {N : Network} {C : Cryptobyte} {L : CryptobyteLaws C} {M : MapRange} {B : Builder}
  {BL : BuilderLaws B} {R : RandSource} {SB : SortFunc block_le} {SK : SortFunc bytes_le}
  {AP : AllocPolicy} {SS : SpanSort} {F : FileSystem}.
Context (dir : bytes) (ps : list published) (w0 : World).
Hypothesis Hdir : built_directory dir ps w0.
Hypothesis Hprogress : progressing (Op := DirOpener (Join [dir; RevocationSubdir])).

(** The handshake's chains have these statuses by the descriptions. *)
Definition described_handshake (h : bytes * list (list Certificate)) (statuses : list Status) : Prop :=
  h.2 <> [] /\ Forall2 (described_status ps) h.2 statuses.

Lemma described_handshakes pol hs table w base :
  live w = Some base -> w0 `prefix_of` w -> Forall2 described_handshake hs table ->
  let '(w', r) := do_handshakes (verifier dir pol) hs w in
  live w' = Some base /\
  match r with
  | Ok _ => Forall (acceptable pol) table
  | Err _ => ~ Forall (acceptable pol) table
  | _ => False
  end.
Proof.
  intros Hl Hw Hd. revert w Hl Hw. induction Hd as [|[url chains] statuses hs table [Hne Hs] _ IH]; intros w Hl Hw.
  { by split. }
  destruct (described_verifier dir ps w0 Hdir pol chains statuses w base Hprogress Hl Hw Hne Hs) as [Hr Hl1].
  pose proof (verifier_prefix dir pol chains w Hprogress) as Hpre. cbn [do_handshakes].
  destruct (verifier dir pol chains w) as [w1 r]. simpl in *.
  assert (forall u, r = Ok u <-> acceptable pol statuses) as Hdec
    by (intros u; rewrite Hr; apply policy_decision_described).
  assert (fails_with (fun _ => True) r) as Ht by (rewrite Hr; apply policy_decision_total). clear Hr.
  destruct r as [u|e| |]; try done.
  - specialize (IH w1 Hl1 ltac:(by etrans)). destruct (do_handshakes _ hs w1) as [w2 r].
    destruct IH as [Hl2 IH]. split; [done|]. pose proof (proj1 (Hdec u) eq_refl). destruct r; rewrite ?List.Forall_cons_iff; naive_solver.
  - split; [done|]. rewrite List.Forall_cons_iff. intros [Ha _]. by apply (Hdec tt) in Ha.
Qed.
End Https.

(** ** crlite-query *)

(** The name crlite-query prints for a status. *)
Definition status_line (st : Crlite.Status) : bytes :=
  go_string match st with
            | Crlite.StatusGood => "Good"
            | Crlite.StatusNotCovered => "NotCovered"
            | Crlite.StatusNotEnrolled => "NotEnrolled"
            | Crlite.StatusRevoked => "Revoked"
            end.

Lemma status_line_printed st : Crlite.Status_String (Crlite.Status_int st) = Ok (status_line st).
Proof. by destruct st; vm_compute. Qed.

Lemma status_line_NotCovered st : status_line st = go_string "NotCovered" <-> st = Crlite.StatusNotCovered.
Proof. by destruct st. Qed.

(** ** Properties *)

(** C6. upki-https from its command line to its exit status, over a directory that the
    builders wrote: with the flags given, when every handshake's verified chains are
    covered by the descriptions and the transfer succeeds, it exits with status 0 if and
    only if no chain of any handshake is described as revoked and, under -strict, every
    handshake has a chain described as not revoked; otherwise with status 1.  No handle
    is left open. *)
Theorem built_directory_https {N : Network} {C : Cryptobyte} {L : CryptobyteLaws C} {M : MapRange}
    {B : Builder} {BL : BuilderLaws B} {R : RandSource} {SB : SortFunc block_le}
    {SK : SortFunc bytes_le} {AP : AllocPolicy} {SS : SpanSort} {F : FileSystem}
    (dir : bytes) (ps : list published) (strict : bool) (prog target : bytes) (resp : Response)
    (table : list (list Status)) (w : World) (base : gset nat) :
  progressing (Op := DirOpener (Join [dir; RevocationSubdir])) -> live w = Some base ->
  built_directory dir ps w -> classify target = NotFlag -> url_Parse target = None ->
  Forall2 (described_handshake ps) (Handshakes target) table ->
  Transfer target = inl resp -> Body resp = None ->
  let args := [go_string "-cache-dir"; dir] ++ (if strict then [go_string "-strict"] else []) ++ [target] in
  let pol := if strict then policyStrict else policyDefault in
  exists code out, (https_main (prog :: args) w).2 = Ok (code, out)
    /\ live (https_main (prog :: args) w).1 = Some base
    /\ (code = 0 \/ code = 1) /\ (code = 0 <-> Forall (acceptable pol) table).
Proof.
  intros Hp Hl Hdir Htarget Hurl Hd Ht Hb args pol. unfold https_main.
  pose proof (main_flags_roundtrip dir target strict Htarget) as Hargs. fold args in Hargs. rewrite Hargs, Hurl.
  rewrite main_flags_dir, main_flags_strict. fold pol. unfold fetch, client_Get. rewrite Ht.
  pose proof (described_handshakes dir ps w Hdir Hp pol _ table w base Hl ltac:(done) Hd) as H.
  destruct (do_handshakes _ _ _) as [w1 [u|e| |]]; destruct H as [Hl1 H]; try done; go_simp.
  - rewrite Hb. exists 0. eexists. split; [done|]. split; [done|]. split; [by left|done].
  - exists 1. eexists. split; [done|]. split; [done|]. split; [by right|done].
Qed.

(** C37. crlite-query over a filter file that [Filter.Bytes] wrote, with certificates that
    verify: it prints NotCovered exactly when the description covers none of the
    certificate's SCTs; when it covers one, NotEnrolled for an issuer it does not list,
    Revoked for a serial it lists as revoked and Good for one it lists as not revoked,
    whatever the free variables of the ribbons and the hashes are. *)
Theorem built_filter_query {P : Platform} {C : Cryptobyte} {L : CryptobyteLaws C} {M : MapRange}
    {B : Builder} {BL : BuilderLaws B} {R : RandSource} {SB : SortFunc block_le}
    (desc : ClubcardEncode.Filter) (rng : rand_state) (data prog f i e : bytes)
    (issuer ee : ParsedCertificate) (scts : list SCT) (serial : bytes) :
  encodable desc -> Filter_Bytes desc rng = Ok data -> ReadFile f = inl data ->
  readCert i = inl issuer -> readCert e = inl ee ->
  CheckSignatureFrom ee issuer = None -> NotBefore ee <= time_Now <= NotAfter ee ->
  EmbeddedSCTs (cert ee) = Ok scts -> scts <> [] -> RawSerial (cert ee) = Ok serial ->
  let id := leaf_id (cert issuer) in
  let covers_it := Exists (covered desc) (check_timestamps scts) in
  exists line, crlite_query [prog; f; i; e] = Ok (Stdout line)
    /\ (line = go_string "NotCovered" <-> ~ covers_it)
    /\ (covers_it -> ~ enrolled desc id -> line = go_string "NotEnrolled")
    /\ (covers_it -> lists_revoked desc id serial -> line = go_string "Revoked")
    /\ (covers_it -> lists_notRevoked desc id serial -> line = go_string "Good").
Proof.
  intros Hen Hb Hf Hi He Hs Ht Hx Hne Hser id covers_it.
  destruct (Filter_Bytes_ok desc rng Hen) as (data' & c & Hb' & Hc & Ha).
  assert (data' = data) as -> by congruence.
  set (st := contains_spec c (check_key (cert ee) (cert issuer) serial) (check_timestamps scts)).
  exists (status_line st).
  split; [apply crlite_query_lines; exists f, i, e, data, c, issuer, ee, scts, serial; by rewrite status_line_printed|].
  assert (Exists (covers c) (check_timestamps scts) <-> covers_it) as Hcov.
  { split; intros H; (eapply Exists_impl; [exact H|]); intros t; apply (af_covers _ _ Ha). }
  assert (covers_it -> st = conclusive c (NewKey id serial)) as Hst.
  { intros H%Hcov. unfold st, contains_spec. by rewrite decide_True. }
  split; [|split; [|split]].
  - rewrite status_line_NotCovered, <- Hcov. unfold st, contains_spec. case_decide as Hd; [|done].
    split; [|done]. intros H. by destruct (conclusive_covered c _ H).
  - intros H Hn. by rewrite (Hst H), (af_other _ _ Ha id serial Hn).
  - intros H (iss & Hin & Hid & Hr). by rewrite (Hst H), <- Hid, (af_revoked _ _ Ha iss serial Hin Hr).
  - intros H (iss & Hin & Hid & Hr). by rewrite (Hst H), <- Hid, (af_notRevoked _ _ Ha iss serial Hin Hr).
Qed.

(** ** Witnesses *)

(** The revoked sample chain, on the directory of [BuiltDirectory]. *)
Lemma built_directory_https_witness :
  exists content data code out,
    (https_main (N := sample_network) (F := built_fs content data)
       (map go_string ["upki-https"; "-cache-dir"; "/c"; "https://e"]) []).2 = Ok (code, out) /\ code = 1.
Proof.
  destruct built_fs_directory as (content & data & Hdir). exists content, data.
  assert (described_status (built_sample data) sample_chain StatusRevoked) as Hd.
  { apply (ds_scts _ _ _ _ sample_scts [Init.Byte.x00; Init.Byte.xff]);
      [exact sample_scts_ok|exact sample_scts_some|exact sample_serial_ok|exact (built_sample_revoked data)]. }
  assert (Forall2 (described_handshake (built_sample data)) (Handshakes (Network := sample_network) (go_string "https://e"))
    [[StatusRevoked; StatusRevoked]]) as Hh.
  { apply List.Forall2_cons; [|apply List.Forall2_nil]. split; [discriminate|].
    apply List.Forall2_cons; [exact Hd|]. apply List.Forall2_cons; [exact Hd|apply List.Forall2_nil]. }
  destruct (built_directory_https (N := sample_network) (F := built_fs content data) (R := pcg) (go_string "/c")
    (built_sample data) false (go_string "upki-https") (go_string "https://e") _
    [[StatusRevoked; StatusRevoked]] [] ∅ (built_fs_progressing content data _) eq_refl Hdir eq_refl eq_refl Hh
    eq_refl eq_refl) as (code & out & E & _ & [Hc|Hc] & H0); exists code, out; (split; [exact E|]); [|exact Hc].
  apply H0 in Hc. apply List.Forall_inv in Hc. destruct Hc as [Hn _]. destruct Hn. by left.
Defined.

(** Files by name, a filter among them; certificates by content, a clock at 5. *)
Definition built_platform (data : bytes) : Platform := {|
  ReadFile path := if bool_decide (path = go_string "filter") then inl data else inl [];
  pem_Decode _ := None;
  ParseCertificate _ := inl (mkParsed sample_cert 0 10);
  CheckSignatureFrom _ _ := None;
  time_Now := 5
|}.

Lemma built_filter_query_witness :
  exists data, crlite_query (P := built_platform data) (map go_string ["q"; "filter"; "i"; "e"])
               = Ok (Stdout (go_string "Revoked")).
Proof.
  destruct (Filter_Bytes_ok (R := pcg) built_sample_filter (NewPCG 0 0) built_sample_encodable)
    as (data & _ & E & _). exists data.
  destruct (built_filter_query (P := built_platform data) (R := pcg) built_sample_filter (NewPCG 0 0) data
    (go_string "q") (go_string "filter") (go_string "i") (go_string "e") (mkParsed sample_cert 0 10)
    (mkParsed sample_cert 0 10) sample_scts [Init.Byte.x00; Init.Byte.xff] built_sample_encodable E eq_refl eq_refl
    eq_refl eq_refl ltac:(simpl; lia) sample_scts_ok sample_scts_some sample_serial_ok)
    as (line & Hl & _ & _ & Hr & _).
  assert (lists_revoked built_sample_filter (leaf_id sample_cert) [Init.Byte.x00; Init.Byte.xff]) as Hlist.
  { eexists. split; [by left|]. split; [unfold leaf_id; reflexivity|by left]. }
  rewrite <- (Hr built_sample_covered Hlist). exact Hl.
Defined.
