(* ===== verification/Conformance.v ===== *)
(** * The repository's unit tests, on the model

    Inputs and expectations of [internal/clubcard_test.go],
    [internal/upki_index_test.go], [crlite/crlite_test.go], the tests of
    [internal/test], [upki/sct_test.go], [upki/manifest_test.go] and
    [upki/check_test.go], evaluated by the definitions of this library: each example is
    named after the test it repeats.  Errors are compared as the tests do, with
    [errors.Is].  Left out are the tests that start goroutines or touch the disk, whose
    subjects are theorems of [CheckerConc] to [BuiltUpdates], and those with hundreds of
    serials or filters, which the builders' theorems cover. *)
From S2P Require Import Prelude Codec Sha256 Cryptobyte GoIO UpkiIndex Clubcard CrliteParser Crlite Sct Ribbon ClubcardEncode IndexEncode Checker Path Cache JsonLex Json Manifest.

(** ** Comparisons *)

(** [errors.Is(err, target)] of a call's error. *)
Definition fails_as {A} (target : string) (r : result A) : bool :=
  match r with Err e => errors_Is e target | _ => false end.

Definition invalid_index {A} : result A -> bool := fails_as "upki: invalid index".

(** A 32-byte array from its first bytes. *)
Definition array32 (zs : list Z) : bytes := map byte_of_Z zs ++ replicate (32 - length zs) Init.Byte.x00.
Definition filled_with (z : Z) : bytes := replicate 32 (byte_of_Z z).

(** [copy(b[at:], v)] *)
Definition overwrite (b : bytes) (at_ : Z) (v : bytes) : bytes :=
  take (Z.to_nat at_) b ++ v ++ drop (Z.to_nat at_ + length v) b.

(** The bytes of a call that succeeds. *)
Definition bytes_of (r : result bytes) : bytes := match r with Ok b => b | _ => [] end.

(** ** internal/clubcard_test.go *)
Definition zero_column : list Z := [0; 0; 0; 0].
Definition plain_meta : BlockMeta := mkBlockMeta 0 1 1 0 1 ∅ false.
Definition bit2 : bytes := array32 [4].

Example TestBytesToLimbs :
  bytesToLimbs (Init.Byte.x01 :: replicate 30 Init.Byte.x00 ++ [Init.Byte.x80]) = [1; 0; 0; 2 ^ 63].
Proof. vm_compute. reflexivity. Qed.

Example TestTrivialBlocks :
  Clubcard.Contains (Clubcard.mkFilter [] [] ∅) (mkBlockMeta 0 0 0 0 0 ∅ true) (array32 []) [] = Ok true
  /\ Clubcard.Contains (Clubcard.mkFilter [] [] ∅) (mkBlockMeta 0 0 0 0 0 ∅ false) (array32 []) [] = Ok false.
Proof. vm_compute. by split. Qed.

Example TestInvertedException :
  Clubcard.Contains (Clubcard.mkFilter [zero_column] zero_column ∅)
    (mkBlockMeta 0 1 1 0 1 {[ [Init.Byte.x99; Init.Byte.x99] ]} true) (array32 [])
    [Init.Byte.x99; Init.Byte.x99] = Ok true.
Proof. vm_compute. reflexivity. Qed.

Example TestNonInvertedException :
  let meta := mkBlockMeta 0 1 1 0 1 {[ go_string "bad" ]} false in
  let f := Clubcard.mkFilter [zero_column] zero_column ∅ in
  Clubcard.Contains f meta (array32 []) (go_string "bad") = Ok false
  /\ Clubcard.Contains f meta (array32 []) (go_string "ok") = Ok true.
Proof. vm_compute. by split. Qed.

Example TestLinearReject :
  Clubcard.Contains (Clubcard.mkFilter [[4; 0; 0; 0]] zero_column ∅) plain_meta bit2 [] = Ok false
  /\ Clubcard.Contains (Clubcard.mkFilter [[5; 0; 0; 0]] zero_column ∅) plain_meta bit2 [] = Ok true.
Proof. vm_compute. by split. Qed.

Example TestLinearRejectMultiColumn :
  forallb (fun col =>
    match Clubcard.Contains (Clubcard.mkFilter (<[col := [4; 0; 0; 0]]> [zero_column; zero_column; zero_column])
            zero_column ∅) (mkBlockMeta 0 1 3 0 1 ∅ false) bit2 [] with
    | Ok b => negb b | _ => false end) [0; 1; 2]%nat = true.
Proof. vm_compute. reflexivity. Qed.

Example TestBlockRowOffset :
  let meta := mkBlockMeta 256 1 1 0 1 ∅ false in
  Clubcard.Contains (Clubcard.mkFilter [[0; 0; 0; 0; 4; 0; 0; 0]] zero_column ∅) meta bit2 [] = Ok false
  /\ Clubcard.Contains (Clubcard.mkFilter [[4; 0; 0; 0; 0; 0; 0; 0]] zero_column ∅) meta bit2 [] = Ok true.
Proof. vm_compute. by split. Qed.

Example TestYReject :
  Clubcard.Contains (Clubcard.mkFilter [zero_column] [4; 0; 0; 0] ∅) plain_meta bit2 [] = Ok false.
Proof. vm_compute. reflexivity. Qed.

(** ** internal/upki_index_test.go *)
Definition encode_index (filters : list (string * list Coverage)) : bytes :=
  bytes_of (Index_Bytes (mkTestIndex (map (fun f => mkIndexFilter (go_string f.1) f.2) filters))).

Definition open_index (data : bytes) : result UpkiIndex.Index := NewIndexFromReader (bytes_reader data) None.

(** The probe of [testInput]. *)
Definition probe (data : bytes) : result (list bytes) := idx ← open_index data; Lookup idx (filled_with 187) 1000.

Example TestLookupEmptyIndex : probe (encode_index []) = Ok [].
Proof. vm_compute. reflexivity. Qed.

Example TestLookupNoMatchingLogID :
  probe (encode_index [("test.filter"%string, [mkCoverage (filled_with 204) 500 1500])]) = Ok [].
Proof. vm_compute. reflexivity. Qed.

Example TestLookupNoMatchingTimestamp :
  probe (encode_index [("test.filter"%string, [mkCoverage (filled_with 187) 2000 3000])]) = Ok [].
Proof. vm_compute. reflexivity. Qed.

Example TestLookupHit :
  probe (encode_index
    [("filter-a.filter"%string, [mkCoverage (filled_with 170) 100 200]);
     ("filter-b.filter"%string, [mkCoverage (filled_with 187) 500 1500; mkCoverage (filled_with 187) 2000 3000])])
  = Ok [go_string "filter-b.filter"].
Proof. vm_compute. reflexivity. Qed.

Example TestLookupMultipleFilters :
  probe (encode_index
    [("filter-a.filter"%string, [mkCoverage (filled_with 187) 500 1500]);
     ("filter-b.filter"%string, [mkCoverage (filled_with 187) 2000 3000]);
     ("filter-c.filter"%string, [mkCoverage (filled_with 187) 0 2000])])
  = Ok [go_string "filter-a.filter"; go_string "filter-c.filter"].
Proof. vm_compute. reflexivity. Qed.

(** Two logs of one entry each. *)
Definition two_logs : bytes :=
  encode_index [("a.filter"%string, [mkCoverage (array32 [170]) 100 200]);
                ("b.filter"%string, [mkCoverage (array32 [187]) 100 200])].
Definition two_logs_dir : Z := headerSize + 2 * filenameSize.

Example TestLogDirOrder :
  is_ok (open_index two_logs) = true
  /\ (let e0 := sub two_logs two_logs_dir logDirEntrySize in
      let e1 := sub two_logs (two_logs_dir + logDirEntrySize) logDirEntrySize in
      invalid_index (open_index (overwrite two_logs two_logs_dir (e1 ++ e0))) = true)
  /\ invalid_index (open_index (overwrite two_logs (two_logs_dir + logDirEntrySize) (array32 [170]))) = true.
Proof. vm_compute. by repeat split. Qed.

Example TestEntrySectionOverlap :
  forallb (fun offset =>
    invalid_index (open_index (overwrite two_logs (two_logs_dir + logDirEntrySize + 32) (be_encode 8 offset))))
    [two_logs_dir + 2 * logDirEntrySize; two_logs_dir + 2 * logDirEntrySize + 9] = true.
Proof. vm_compute. reflexivity. Qed.

Definition one_entry : bytes := encode_index [("test.filter"%string, [mkCoverage (filled_with 187) 500 1500])].

(** A reader whose size cannot be found. *)
Definition readAtOnly (r : ReaderAt) : ReaderAt := mkReaderAt (ReadAt r) (ReadAt_bound r) NoSizing.

Example TestLookupCorruptEntries :
  let short := take (length one_entry - 5) one_entry in
  invalid_index (open_index short) = true
  /\ (match NewIndexFromReader (readAtOnly (bytes_reader short)) None with
      | Ok idx => invalid_index (Lookup idx (filled_with 187) 1000)
      | _ => false
      end) = true
  /\ invalid_index (probe (overwrite one_entry (blen one_entry - 18) [Init.Byte.xff])) = true
  /\ (let two := encode_index [("test.filter"%string,
                   [mkCoverage (filled_with 187) 500 1500; mkCoverage (filled_with 187) 2000 3000])] in
      is_ok (open_index (overwrite two (blen two - 18) [Init.Byte.xff])) = true
      /\ invalid_index (probe (overwrite two (blen two - 18) [Init.Byte.xff])) = true)
  /\ invalid_index (open_index (overwrite one_entry (headerSize + filenameSize + 32) (be_encode 8 0))) = true.
Proof. vm_compute. by repeat split. Qed.

Example TestTruncatedTables : invalid_index (open_index (indexMagic ++ map byte_of_Z [0; 1; 0; 0; 0; 0])) = true.
Proof. vm_compute. reflexivity. Qed.

Definition named_index (name : bytes) : bytes :=
  bytes_of (Index_Bytes (mkTestIndex [mkIndexFilter name [mkCoverage (filled_with 187) 500 1500]])).

Example TestFilenameFillsSlot :
  let name := replicate 25 (byte_of_Z 102) ++ go_string ".filter" in probe (named_index name) = Ok [name].
Proof. vm_compute. reflexivity. Qed.

Example TestFilenameValidation :
  forallb (fun name => invalid_index (open_index (named_index name)))
    (map go_string [EmptyString; "."; ".."; "../evil.filter"; "..\evil.filter"; "a/b.filter"; "/etc/passwd";
                    "sp ace.filter"]%string
     ++ [go_string "tab" ++ [byte_of_Z 9] ++ go_string ".filter";
         go_string "caf" ++ map byte_of_Z [195; 169] ++ go_string ".filter";
         go_string "high" ++ [byte_of_Z 255] ++ go_string ".filter"]) = true
  /\ forallb (fun name => is_ok (open_index (named_index (go_string name))))
       ["a"; "..."; "..hidden"; "AZaz09-._"]%string = true.
Proof. vm_compute. by split. Qed.

(** Reports [io.EOF] with a full read that ends at the end. *)
Definition eof_ReadAt (content : bytes) (n off : Z) : bytes * option error :=
  match bytes_ReadAt content n off with
  | (b, None) => (b, if off + blen b =? blen content then Some EOF else None)
  | r => r
  end.
Lemma eof_ReadAt_bound content n off : 0 <= n -> blen (eof_ReadAt content n off).1 <= n.
Proof.
  intros Hn. pose proof (bytes_ReadAt_bound content n off Hn). unfold eof_ReadAt.
  by destruct (bytes_ReadAt content n off) as [b [e|]].
Qed.

(** Returns a byte less than it was asked for, without an error. *)
Definition short_ReadAt (content : bytes) (n off : Z) : bytes * option error :=
  ((bytes_ReadAt content (Z.max 0 (n - 1)) off).1, None).
Lemma short_ReadAt_bound content n off : 0 <= n -> blen (short_ReadAt content n off).1 <= n.
Proof.
  intros Hn. unfold short_ReadAt. simpl. pose proof (bytes_ReadAt_bound content (Z.max 0 (n - 1)) off). lia.
Qed.

Example TestReaderAtContractVariants :
  (idx ← NewIndexFromReader (mkReaderAt (eof_ReadAt one_entry) (eof_ReadAt_bound one_entry) NoSizing) None;
   Lookup idx (filled_with 187) 1000) = Ok [go_string "test.filter"]
  /\ invalid_index (NewIndexFromReader
       (mkReaderAt (short_ReadAt one_entry) (short_ReadAt_bound one_entry) NoSizing) None) = true.
Proof. vm_compute. by split. Qed.

Example TestInvalidMagic :
  forallb (fun data => invalid_index (open_index data))
    [go_string "wrongmag" ++ replicate 5 Init.Byte.x00; indexMagic; go_string "upki"] = true.
Proof. vm_compute. reflexivity. Qed.

(** ** crlite/crlite_test.go *)
Definition encode_filter (f : ClubcardEncode.Filter) : bytes := bytes_of (Filter_Bytes (R := pcg) f (NewPCG 0 0)).
Definition test_issuer : bytes := array32 [1; 2; 3].
Definition test_log : bytes := array32 [9; 9; 9].
Definition test_serial : bytes := go_string "revoked-serial".
Definition test_filter : ClubcardEncode.Filter :=
  mkFilter [mkIssuer test_issuer [test_serial] [] None None]
    [mkCoverage test_log 100 200; mkCoverage (array32 [8; 8; 8]) 100 300].
Definition test_filter_bytes : bytes := Eval vm_compute in encode_filter test_filter.
Definition empty_filter_bytes : bytes := Eval vm_compute in encode_filter (mkFilter [] []).

Definition ask (data id serial log : bytes) (ts : Z) : result Crlite.Status :=
  f ← FromBytes data; RevocationFilter_Contains f (NewKey id serial) [mkLogTimestamp log ts].

Definition unparsable {A} : result A -> bool := fails_as "crlite: failed to deserialize clubcard".

Example TestNotCovered :
  ask test_filter_bytes test_issuer test_serial (array32 [255]) 150 = Ok Crlite.StatusNotCovered.
Proof. vm_compute. reflexivity. Qed.

Example TestNotEnrolled :
  ask test_filter_bytes (array32 [221]) (go_string "any-serial") test_log 150 = Ok Crlite.StatusNotEnrolled.
Proof. vm_compute. reflexivity. Qed.

Example TestFromBytesTruncation :
  forallb (fun n => negb (is_ok (FromBytes (take n test_filter_bytes)))) (seq 0 (length test_filter_bytes)) = true.
Proof. vm_compute. reflexivity. Qed.

Example TestNewestCoverageCutoff :
  (f ← FromBytes test_filter_bytes; Ok (NewestCoverageCutoff f) : result Z) = Ok 300.
Proof. vm_compute. reflexivity. Qed.

Example TestCoverageCutoffForLog :
  (f ← FromBytes test_filter_bytes; Ok (CoverageCutoffForLog f test_log, CoverageCutoffForLog f (array32 [])) : result (Z * bool * (Z * bool)))
  = Ok ((200, true), (0, false)).
Proof. vm_compute. reflexivity. Qed.

Example TestFromBytesHeader :
  fails_as "crlite: unsupported clubcard version" (FromBytes (overwrite empty_filter_bytes 0 [Init.Byte.x05])) = true
  /\ unparsable (FromBytes (overwrite empty_filter_bytes 1 [Init.Byte.x01])) = true
  /\ unparsable (FromBytes (empty_filter_bytes ++ [Init.Byte.x00])) = true
  /\ is_ok (FromBytes empty_filter_bytes) = true.
Proof. vm_compute. by repeat split. Qed.

Example TestFromBytesMalformed :
  let dup := mkIssuer test_issuer [test_serial] [] None None in
  forallb (fun f => unparsable (FromBytes (encode_filter f)))
    [mkFilter [dup; dup] [];
     mkFilter [mkIssuer test_issuer [test_serial] [go_string "good-serial"] (Some 2) None] [];
     mkFilter [dup] [mkCoverage test_log 100 200; mkCoverage test_log 300 400];
     mkFilter [mkIssuer test_issuer [] [] None (Some 5)] []] = true.
Proof. vm_compute. reflexivity. Qed.

(** ** internal/test: clubcard_encode_test.go, index_encode_test.go *)
Definition serials (prefix : string) (n : nat) : list bytes :=
  map (fun i => go_string prefix ++ go_string "-" ++ [byte_of_Z (48 + Z.of_nat i)]) (seq 0 n).
Definition round_trip_bytes (revoked notRevoked : list bytes) : bytes :=
  encode_filter (mkFilter [mkIssuer test_issuer revoked notRevoked None None] [mkCoverage test_log 100 200]).
Definition rank_zero : bytes := Eval vm_compute in round_trip_bytes (serials "revoked" 3) (serials "good" 4).
Definition all_revoked : bytes := Eval vm_compute in round_trip_bytes (serials "revoked" 2) [].
Definition none_revoked : bytes := Eval vm_compute in round_trip_bytes [] (serials "good" 3).
Definition asks (data : bytes) (ss : list bytes) : list (result Crlite.Status) :=
  map (fun s => ask data test_issuer s test_log 150) ss.

Example TestRoundTripRankZero :
  asks rank_zero (serials "revoked" 3) = replicate 3 (Ok Crlite.StatusRevoked)
  /\ asks rank_zero (serials "good" 4) = replicate 4 (Ok Crlite.StatusGood).
Proof. vm_compute. by split. Qed.

Example TestRoundTripCoverageAndEnrollment :
  let s := go_string "revoked-0" in
  ask rank_zero test_issuer s test_log 99 = Ok Crlite.StatusNotCovered
  /\ ask rank_zero test_issuer s test_log 201 = Ok Crlite.StatusNotCovered
  /\ ask rank_zero test_issuer s (array32 [255]) 150 = Ok Crlite.StatusNotCovered
  /\ ask rank_zero (array32 [4; 5; 6]) s test_log 150 = Ok Crlite.StatusNotEnrolled
  /\ (f ← FromBytes rank_zero; Ok (NewestCoverageCutoff f, CoverageCutoffForLog f test_log)) = Ok (200, (200, true)).
Proof. vm_compute. by repeat split. Qed.

Example TestRoundTripAllRevoked :
  asks all_revoked (serials "revoked" 2 ++ [go_string "never-seen"]) = replicate 3 (Ok Crlite.StatusRevoked).
Proof. vm_compute. reflexivity. Qed.

Example TestRoundTripNoneRevoked :
  asks none_revoked (serials "good" 3 ++ [go_string "never-seen"]) = replicate 4 (Ok Crlite.StatusGood).
Proof. vm_compute. reflexivity. Qed.

Example TestIndexRoundTrip :
  let logA := array32 [170] in let logB := array32 [187] in
  let a := go_string "a.filter" in let b := go_string "b.filter" in
  let data := encode_index
    [("a.filter"%string, [mkCoverage logA 100 200; mkCoverage logB 100 200]);
     ("b.filter"%string, [mkCoverage logB 150 300; mkCoverage logB 500 1500])] in
  (idx ← open_index data; Ok (map (fun '(log, ts) => Lookup idx log ts)
    [(logA, 150); (logB, 120); (logB, 180); (logB, 250); (logB, 1000);
     (logA, 99); (logA, 201); (logB, 400); (array32 [255], 150)]))
  = Ok (map Ok [[a]; [a]; [a; b]; [b]; [b]; []; []; []; []]).
Proof. vm_compute. reflexivity. Qed.

(** ** upki/sct_test.go *)
Definition octet_string (inner : bytes) : bytes := [Init.Byte.x04; byte_of_Z (blen inner)] ++ inner.
Definition u16_prefixed (b : bytes) : bytes := be_encode 2 (blen b) ++ b.
Definition serialized_sct (version : Z) (s : SCT) : bytes :=
  [byte_of_Z version] ++ sct_LogID s ++ be_encode 8 (sct_Timestamp s) ++ be_encode 2 0.
Definition cert_with (ext : bytes) : Certificate := mkCertificate [mkExtension embeddedSCTOID (Some ext)] [] [].

Example TestEmbeddedSCTsAbsent : EmbeddedSCTs (mkCertificate [] [] []) = Ok [].
Proof. vm_compute. reflexivity. Qed.

Example TestEmbeddedSCTsRoundTrip :
  let want := [mkSCT (filled_with 17) 1700000000000; mkSCT (filled_with 34) 1700000123456] in
  EmbeddedSCTs (cert_with (octet_string (u16_prefixed (concat (map (fun s => u16_prefixed (serialized_sct 0 s)) want)))))
  = Ok want.
Proof. vm_compute. reflexivity. Qed.

Example TestEmbeddedSCTsMalformed :
  forallb (fun ext => fails_as "upki: malformed SCT extension" (EmbeddedSCTs (cert_with ext)))
    [map byte_of_Z [4; 5; 0];
     octet_string (u16_prefixed (u16_prefixed (serialized_sct 1 (mkSCT (array32 []) 0))))] = true.
Proof. vm_compute. reflexivity. Qed.

(** The start of a TBSCertificate: the version and the serial. *)
Definition tbs (serial : bytes) : Certificate :=
  let body := map byte_of_Z [160; 3; 2; 1; 2; 2] ++ [byte_of_Z (blen serial)] ++ serial in
  mkCertificate [] ([Init.Byte.x30; byte_of_Z (blen body)] ++ body) [].

Example TestRawSerial :
  RawSerial (tbs [byte_of_Z 42]) = Ok [byte_of_Z 42]
  /\ RawSerial (tbs (map byte_of_Z [0; 128; 171; 205; 239])) = Ok (map byte_of_Z [0; 128; 171; 205; 239]).
Proof. vm_compute. by split. Qed.

(** ** upki/manifest_test.go *)
Definition test_manifest : bytes :=
  go_string "{" ++ q "generated_at" ++ go_string ": 1750000000, " ++ q "files" ++ go_string ": [{" ++ q "filename"
  ++ go_string ": " ++ q "a.filter" ++ go_string "}, {" ++ q "filename" ++ go_string ": " ++ q "b.filter" ++ go_string "}]}".

Example TestLoadManifest :
  LoadManifest (F := manifest_fs test_manifest) (go_string "/c")
  = Ok (mkManifest 1750000000 (map (fun n => mkManifestFile (go_string n)) ["a.filter"; "b.filter"]%string))
  /\ Time_Unix (GeneratedTime (mkManifest 1750000000 [])) = 1750000000.
Proof. vm_compute. by split. Qed.

Example TestLoadManifestMissing :
  fails_as "file does not exist" (LoadManifest (F := manifest_fs test_manifest) (go_string "/d")) = true.
Proof. vm_compute. reflexivity. Qed.

Example TestLoadManifestInvalid :
  is_ok (LoadManifest (F := manifest_fs (go_string "not json")) (go_string "/c")) = false.
Proof. vm_compute. reflexivity. Qed.

(** ** upki/check_test.go *)
Definition log_a : bytes := filled_with 17.
Definition log_b : bytes := filled_with 34.
Definition issuer_cert (spki : string) : Certificate := mkCertificate [] [] (go_string spki).
Definition key_hash (spki : string) : bytes := sha256_Sum256 (go_string spki).

(** A certificate with a one-byte serial and these SCTs, and its issuer. *)
Definition sct_extension (scts : list SCT) : bytes :=
  octet_string (u16_prefixed (concat (map (fun s => u16_prefixed (serialized_sct 0 s)) scts))).
Definition chain_of (serial : Z) (scts : list SCT) : list Certificate :=
  [mkCertificate [mkExtension embeddedSCTOID (Some (sct_extension scts))] (RawTBSCertificate (tbs [byte_of_Z serial])) [];
   issuer_cert "issuer"].

Definition cov_a : Coverage := mkCoverage log_a 0 2000.
Definition cov_b : Coverage := mkCoverage log_b 0 2000.
Definition one_issuer (spki : string) (revoked notRevoked : list Z) (cov : Coverage) : bytes :=
  encode_filter (mkFilter [mkIssuer (key_hash spki) (map (fun z => [byte_of_Z z]) revoked)
                             (map (fun z => [byte_of_Z z]) notRevoked) None None] [cov]).
Definition enrolled_a : bytes := Eval vm_compute in one_issuer "issuer" [42] [43] cov_a.
Definition enrolled_b : bytes := Eval vm_compute in one_issuer "issuer" [42] [43] cov_b.
Definition not_enrolled_a : bytes := Eval vm_compute in one_issuer "other" [7] [] cov_a.
Definition not_enrolled_b : bytes := Eval vm_compute in one_issuer "other" [7] [] cov_b.
Definition good_for_42_a : bytes := Eval vm_compute in one_issuer "issuer" [9] [42] cov_a.

(** A cache in memory; [Check] on it. *)
Definition files_in (fs : list (string * bytes)) (name : bytes) : option bytes :=
  snd <$> List.find (fun f => bool_decide (go_string f.1 = name)) fs.
Definition check_cache (idx : list (string * list Coverage)) (fs : list (string * bytes)) (chain : list Certificate)
    : result (Status * option error) :=
  (Check (Op := cache_openers (encode_index idx) (files_in fs)) chain []).2.

(** The filters [f0] for log A and [f1] for log B. *)
Definition two_filters : list (string * list Coverage) := [("f0.filter", [cov_a]); ("f1.filter", [cov_b])]%string.
Definition both : list SCT := [mkSCT log_a 1000; mkSCT log_b 1000].

Example TestCheckerCheck :
  let idx := [("t.filter", [mkCoverage log_a 500 1500])]%string in
  let fs := [("t.filter", one_issuer "issuer" [42] [43] (mkCoverage log_a 500 1500))]%string in
  check_cache idx fs (chain_of 42 [mkSCT log_a 1000]) = Ok (StatusRevoked, None)
  /\ check_cache idx fs (chain_of 43 [mkSCT log_a 1000]) = Ok (StatusNotRevoked, None)
  /\ check_cache idx fs (chain_of 42 [mkSCT (filled_with 119) 1000]) = Ok (StatusNotCovered, None)
  /\ check_cache idx fs (take 1 (chain_of 42 [mkSCT log_a 1000]) ++ [issuer_cert "other"]) = Ok (StatusNotCovered, None)
  /\ match check_cache idx fs [cert_with (map byte_of_Z [4; 5; 0]); issuer_cert "issuer"] with
     | Ok (StatusNotCovered, Some _) => True | _ => False end.
Proof. vm_compute. by repeat split. Qed.

Example TestCheckerCheckAggregation :
  check_cache two_filters [("f0.filter", not_enrolled_a); ("f1.filter", enrolled_b)]%string (chain_of 42 both)
    = Ok (StatusRevoked, None)
  /\ check_cache two_filters [("f0.filter", not_enrolled_a); ("f1.filter", enrolled_b)]%string (chain_of 43 both)
    = Ok (StatusNotRevoked, None)
  /\ check_cache two_filters [("f0.filter", not_enrolled_a); ("f1.filter", not_enrolled_b)]%string (chain_of 42 both)
    = Ok (StatusNotCovered, None)
  /\ check_cache two_filters [("f0.filter", enrolled_a)]%string (chain_of 42 both) = Ok (StatusRevoked, None)
  /\ check_cache two_filters [("f0.filter", good_for_42_a); ("f1.filter", enrolled_b)]%string (chain_of 42 both)
    = Ok (StatusRevoked, None).
Proof. vm_compute. by repeat split. Qed.

Example TestCheckerCheckAggregation_same_log :
  let idx := [("f0.filter", [cov_a]); ("f1.filter", [cov_a])]%string in
  let fs := [("f0.filter", not_enrolled_a); ("f1.filter", enrolled_a)]%string in
  check_cache idx fs (chain_of 42 [mkSCT log_a 1000]) = Ok (StatusRevoked, None)
  /\ check_cache idx fs (chain_of 43 [mkSCT log_a 1000]) = Ok (StatusNotRevoked, None)
  /\ check_cache [("f0.filter", [mkCoverage log_a 2000 3000]); ("f1.filter", [cov_a])]%string
       [("f1.filter", enrolled_a)]%string (chain_of 42 [mkSCT log_a 1000]) = Ok (StatusRevoked, None).
Proof. vm_compute. by repeat split. Qed.

(** The index lists log A, the filter covers log B only. *)
Example TestCheckerCheckInconsistentIndex :
  check_cache [("f0.filter", [cov_a])]%string [("f0.filter", enrolled_b)]%string (chain_of 42 [mkSCT log_a 1000])
  = Ok (StatusNotCovered, Some ErrInconsistentIndex).
Proof. vm_compute. reflexivity. Qed.

(** Indexes by the number of times the index was opened before, and the files. *)
Definition index_opens (w : World) : nat :=
  length (List.filter (fun e => match e with IndexOpened _ => true | _ => false end) w).
Definition snapshot_openers (snapshots : nat -> IndexReader + error) (fs : list (string * bytes)) : Openers := {|
  OpenIndex w := snapshots (index_opens w);
  Open := Open (Openers := cache_openers [] (files_in fs))
|}.
Definition naming (filename : string) : IndexReader + error :=
  inl (mkIndexReader (bytes_reader (encode_index [(filename, [cov_a])])) None).
Definition check_snapshots snapshots fs : nat * result (Status * option error) :=
  let '(w, r) := Check (Op := snapshot_openers snapshots fs) (chain_of 42 [mkSCT log_a 1000]) [] in (index_opens w, r).

Example TestCheckerIndexReopen :
  check_snapshots (fun n => naming (if (n =? 0)%nat then "f1.filter" else "f2.filter")) [("f2.filter"%string, enrolled_a)]
    = (2%nat, Ok (StatusRevoked, None))
  /\ match check_snapshots (fun _ => naming "f1.filter") [] with
     | (3%nat, Ok (StatusNotCovered, Some e)) => errors_Is e "file does not exist" = true | _ => False end
  /\ match check_snapshots (fun n => if (n =? 0)%nat then naming "f1.filter" else inr (Sentinel "index gone")) [] with
     | (_, Ok (StatusNotCovered, Some e)) => errors_Is e "index gone" = true | _ => False end
  /\ match check_snapshots (fun _ => naming "f1.filter") [("f1.filter"%string, go_string "not a clubcard")] with
     | (1%nat, Ok (StatusNotCovered, Some _)) => True | _ => False end.
Proof. vm_compute. by repeat split. Qed.

Example TestCheckerCheckAfterClose :
  let Op := cache_openers (encode_index [("t.filter"%string, [cov_a])]) (files_in []) in
  match NewCheckerWith [] with
  | (w, Ok c) =>
      let '(w, c, err1) := Close c w in
      let '(w, c, err2) := Close c w in
      err1 = None /\ err2 = None
      /\ (Checker_Check c (chain_of 1 [mkSCT log_a 1000]) w).2 = Ok (StatusNotCovered, Some errCheckerClosed)
  | _ => False
  end.
Proof. vm_compute. by repeat split. Qed.

Example TestCheckerCheckMalformedSerial :
  match check_cache [] [] [mkCertificate [mkExtension embeddedSCTOID (Some (sct_extension [mkSCT log_a 1000]))]
                             (map byte_of_Z [222; 173; 190; 239]) []; issuer_cert "issuer"] with
  | Ok (StatusNotCovered, Some e) => errors_Is e "upki: malformed TBSCertificate" = true
  | _ => False
  end.
Proof. vm_compute. reflexivity. Qed.

Example TestCheckerFilterErrors :
  let idx := [("missing.filter", [cov_a]); ("bad.filter", [cov_b])]%string in
  let fs := [("bad.filter", go_string "not a clubcard")]%string in
  match check_cache idx fs (chain_of 1 [mkSCT log_a 1000]), check_cache idx fs (chain_of 1 [mkSCT log_b 1000]) with
  | Ok (StatusNotCovered, Some _), Ok (StatusNotCovered, Some _) => True
  | _, _ => False
  end.
Proof. vm_compute. exact I. Qed.

Example TestCheckChainTooShort :
  forallb (fun chain => match (Checker_Check (Op := cache_openers [] (files_in [])) (mkChecker None) chain []).2 with
                        | Ok (_, Some e) => errors_Is e "upki: chain must contain at least 2 certificates (leaf + issuer)" | _ => false end)
    [[]; [issuer_cert "leaf"]] = true.
Proof. vm_compute. reflexivity. Qed.

Example TestCheckerNoSCTs :
  check_cache [] [] [issuer_cert ""; issuer_cert ""] = Ok (StatusNotCovered, None).
Proof. vm_compute. reflexivity. Qed.

(** Both SCTs select the one filter; it is opened once. *)
Example TestCheckerCheckFilterLoadedOnce :
  let both_logs := [mkCoverage log_a 0 2000; mkCoverage log_b 0 2000] in
  let data := encode_filter (mkFilter [mkIssuer (key_hash "issuer") [[byte_of_Z 41]] [[byte_of_Z 42]] None None] both_logs) in
  let '(w, r) := Check (Op := cache_openers (encode_index [("shared.filter"%string, both_logs)])
                          (files_in [("shared.filter"%string, data)])) (chain_of 42 both) [] in
  r = Ok (StatusNotRevoked, None)
  /\ length (List.filter (fun e => match e with FilterOpened _ _ => true | _ => false end) w) = 1%nat.
Proof. vm_compute. by split. Qed.

(** The index ends in the middle of its last entry. *)
Example TestCheckerCheckIndexLookupError :
  let enc := encode_index [("t.filter"%string, [mkCoverage log_a 500 1500])] in
  match (Check (Op := cache_openers (take (length enc - 5) enc) (files_in [])) (chain_of 1 [mkSCT log_a 1000]) []).2 with
  | Ok (StatusNotCovered, Some _) => True
  | _ => False
  end.
Proof. vm_compute. exact I. Qed.

Example TestNewCheckerWithInvalidIndex :
  is_ok (NewCheckerWith (Op := cache_openers (go_string "junk") (files_in [])) []).2 = false.
Proof. vm_compute. reflexivity. Qed.
